(* ===== verification/_CoqProject ===== *)
-Q . S2P
Prelude.v
RustStd.v
XdsClient.v
XdsFacts.v
Authorization.v
AgentTypes.v
RouteSet.v
TcpRouteSet.v
BindStore.v
BindStoreFacts.v
PolicyResolution.v
RouteSelect.v
RouteChain.v
HttpRequest.v
Rewrite.v
Htpasswd.v
Auth.v
AuthFacts.v
Pipeline.v
PipelineFacts.v
RateLimit.v
Cors.v
Replay.v
PeekBody.v
EnvoyHeaders.v
ExtAuthz.v
ExtAuthzFacts.v
Transformation.v
RemoteLimit.v
ExtProc.v
DiscoveryTypes.v
LoadBalancer.v
Discovery.v
DiscoveryFacts.v
DiscoveryEndpoints.v
DiscoveryRun.v
ServiceCall.v
Gateway.v
MergeStream.v
Mcp.v
McpSession.v
XdsProto.v
PolicyTypes.v
ProxyProtocol.v
SessionCookies.v
Oidc.v
OidcFacts.v
AgentXds.v
AgentXdsFacts.v
AgentXdsClaims.v
Witnesses.v
WitnessesControl.v
Pool.v
PoolFacts.v
PoolInv.v
PoolRun.v
WitnessesHttp.v
WitnessesAuth.v
WitnessesExt.v
WitnessesPool.v
WitnessesXds.v
WitnessesOidc.v
