(* ===== verification/Prelude.v ===== *)
(** * Verification of the agentgateway proxy

    The repository deploys a home server; the program in it is agentgateway, a
    Rust proxy for HTTP, TCP, MCP and LLM traffic, under
    [src/mcp/agentgateway/crates/]. Paths below are relative to
    [crates/agentgateway/src/] unless they begin with [crates/].

    ** The program

    A control plane sends resources over delta xDS ([crates/xds]). The messages
    are converted ([types/agent_xds.rs], [types/discovery.rs]) and kept in two
    stores: the configuration ([store/binds.rs]: binds with their listeners,
    routes grouped by the listener, route group or service they attach to,
    policies by target, backends) and the discovery store
    ([store/discovery.rs]: workloads and services, with an endpoint set for each
    service that a worker edits as endpoints are evicted and return,
    [types/loadbalancer.rs]). [state_manager.rs] wires them together.

    A connection may begin with a PROXY header ([proxy/proxy_protocol.rs]). A
    request on it is matched to a listener and along a chain of delegating routes
    ([http/route.rs], over the sorted route sets of [types/agent.rs]); the store
    resolves the policies of gateway, route and backend, most specific first, and
    the pipeline ([proxy/httpproxy.rs]) runs them: authentication, authorization,
    local and remote rate limits, external authorization and processing, CORS,
    CSRF, transformations, header and URL filters. What passes goes to a backend:
    to a workload of a service, directly or through a waypoint or the gateway of
    another network, over a pooled connection ([crates/pool]), with retries
    ([http/retry]); or to MCP servers, whose listings and streams are merged and
    whose sessions are kept ([mcp/]).

    ** The files

    Shared:
    - [Prelude]: outcomes that may panic, results, tactics, the hint database
      [gw], lemmas on lists and sorted lists.
    - [RustStd]: [u64] arithmetic, [Ordering] and lexicographic orders (class
      [CmpOrder]), [slice::binary_search_by], byte-string operations ([Str]).

    Control plane:
    - [XdsClient], [XdsFacts]: [crates/xds/src/client.rs], the client over any
      sequence of connections; a consumer of resources is a [Handler].
    - [AgentTypes]: the data of [types/agent.rs]: targets, names, listeners,
      routes, hostnames, the three families of policies.
    - [XdsProto], [PolicyTypes]: the messages of
      [crates/protos/proto/resource.proto], and the payloads of policies.
    - [AgentXds], [AgentXdsFacts], [AgentXdsClaims]: [types/agent_xds.rs], the
      conversion of the messages, and the configuration store with it.
    - [RouteSet], [TcpRouteSet]: the route sets of [types/agent.rs], their
      ordering, insertion, removal and lookup.
    - [BindStore], [BindStoreFacts]: [Store], [insert_xds], [remove_resource],
      [StoreUpdater::handle] and [sync_local] of [store/binds.rs].
    - [DiscoveryTypes], [Discovery], [DiscoveryFacts], [DiscoveryEndpoints],
      [DiscoveryRun]: [types/discovery.rs] and [store/discovery.rs]; the store's
      indexes, its endpoint sets and its runs.
    - [LoadBalancer]: the endpoint groups and sets, the eviction worker, the
      locality ranking and endpoint selection of [types/loadbalancer.rs].
    - [Gateway]: [state_manager.rs], the client with both stores as handlers.

    Requests:
    - [ProxyProtocol]: [transport/rewind.rs], [proxy/proxy_protocol.rs] and the
      parts of [proxy/gateway.rs] that use them.
    - [PolicyResolution]: [store/policy.rs] and the resolution functions of
      [store/binds.rs].
    - [RouteSelect], [RouteChain]: [http/route.rs], listener choice,
      [select_best_route] of [proxy/tcpproxy.rs], and the delegation of routes in
      [proxy/httpproxy.rs].
    - [HttpRequest], [Rewrite]: requests as the filters see them: normalization,
      headers, redirects, URL rewrites and CSRF ([http/filters.rs],
      [http/csrf.rs], [http/mod.rs]).
    - [Authorization]: [http/authorization.rs], [mcp/rbac.rs] and
      [Executor::eval_bool].
    - [Auth], [AuthFacts], [Htpasswd]: [http/auth/mod.rs], [http/jwt.rs],
      [http/apikey.rs], [http/basicauth.rs], [mcp/auth.rs] and
      [crates/htpasswd-verify-fork].
    - [SessionCookies], [Oidc], [OidcFacts]: [http/sessionpersistence.rs],
      [http/oidc/] and [http/oauth.rs]: login with OpenID Connect, its sessions
      and the encrypted state that browsers and MCP clients keep.
    - [RateLimit], [Cors], [Transformation]: [http/localratelimit.rs],
      [http/cors.rs], [http/transformation_cel.rs].
    - [PeekBody], [EnvoyHeaders], [ExtAuthz], [ExtAuthzFacts], [RemoteLimit],
      [ExtProc]: external services: [http/peekbody.rs],
      [http/envoy_proto_common.rs], [http/ext_authz.rs],
      [http/remoteratelimit.rs], [http/ext_proc.rs].
    - [Pipeline], [PipelineFacts]: [proxy/httpproxy.rs] from the arrival of a
      request to the choice of its backend.

    Backends:
    - [ServiceCall]: [build_service_call] of [proxy/httpproxy.rs].
    - [Replay]: [http/retry/body.rs] and the retry loop.
    - [Pool], [PoolFacts], [PoolInv], [PoolRun]: [crates/pool/src/pool.rs].
    - [MergeStream], [Mcp], [McpSession]: [mcp/mergestream.rs],
      [mcp/handler.rs], [mcp/upstream/mod.rs], [mcp/session.rs].

    [Witnesses], [WitnessesControl], [WitnessesHttp], [WitnessesAuth],
    [WitnessesExt], [WitnessesPool], [WitnessesXds] and [WitnessesOidc] hold concrete instances at
    which the theorems apply.

    ** How the code is modelled

    Functions keep their Rust names, and a struct is a record with its fields
    (prefixed where two structs share one). Code that mutates takes and returns
    the state; code that can panic returns an [outcome]; [Result] is [result]; a
    conversion of messages gathers warnings besides. State shared by pointers
    (endpoint sets, replayed bodies, upstream connections, stream loads) is in a
    heap, and the pointer is a handle. Concurrency is the interleaving of what
    the code does under one lock, or, for the token bucket, of its atomic
    operations.

    A hash map is a [gmap]. The order in which Rust iterates it is unspecified,
    so it is an operation of the class [HashOrder] of which only that it is a
    permutation is known. Third-party crates are classes with the laws the code
    relies on: [RegexEngine], [CelEngine], [Compilers], [UriCrate], [HttpCrate],
    [CookieCrate], [FormCrate], [JsonWebToken], [HashCrates], [MessageCrate],
    [CipherCrates], [OidcCrates], [ConfigCrates], [IndexMap], [RandCrate]. [Handler] and [RequestPolicyTrait]
    are traits of the program. [Payloads] are the payloads of policies that the
    stores do not look into; [PolicyTypes] gives them, and the classes
    [OpaqueMessages] and [OpaquePolicies] hold the types left abstract even
    there. [OpaqueConversions] has the constructors that wrap the converted
    policies of language models and access logs, cloud credentials and the
    parser of an AgentCore name. A service, an upstream or a socket is the sequence of
    what it answers; clocks and random picks are inputs.

    ** What the theorems show

    - Authorization: a request is admitted exactly when no deny rule matches,
      every require rule does and, if there are allow rules, one does
      ([validate_spec]); rules of the control plane decide as written, one that
      does not compile never holding ([rbac_means]).
    - Messages: a converted route match means what its message says
      ([route_match_means]); conditional policies keep their order, conditions
      and phase ([conditional_means]); what is rejected does not depend on which
      expressions compile ([compilation_never_rejects]); no update panics except
      for a redirect to a port divisible by 65536, a duration of about 2^64
      seconds, a listener whose TLS versions leave none of its cipher suites, or
      system certificates that cannot be added ([config_updates_safe],
      [tls_profile_panics]).
    - Stores: route sets stay sorted by precedence and in agreement with their
      routes ([routeset_insert_wf]); no sequence of updates that can be converted
      panics or breaks the configuration store, and the answer is each update's
      own errors and warnings ([store_handle_total]); the endpoint set of a service
      holds exactly the endpoints of the workloads that name it
      ([discovery_endpoints_exact]) and, as long as a known key is added to no
      other bucket, refines a map from keys to bucket and pool
      ([endpoint_set_refines]).
    - Client: while its handlers do not panic it does not either, resumes with exactly the resources it holds
      ([client_resumes]) and answers each message once ([gateway_client_safe]).
    - Routing: the route chosen matches, is of the most specific hostname and
      first in precedence ([select_best_route_spec]); a chain of delegations ends
      ([route_chain_ends]).
    - Pipeline: what reaches a backend came through the listener that fits the
      host it asks for best and satisfies the authorization of its path, however
      the store changes meanwhile ([forwarded_authorized]); a matching deny rule
      at any level refuses ([route_deny_dominates]); who is not admitted is
      refused the same way whatever limits there are ([refused_cost_nothing]); if no policy panics there is always a
      result ([proxy_returns]).
    - Connections: a PROXY header is taken off exactly, its addresses becoming
      those of the connection, and a connection without one is left as it was
      ([proxy_header_exact]).
    - Authentication: tokens, keys and passwords admit only what the policy
      knows and are taken off the request, unless an expression says where they
      are ([jwt_apply_exact], [credentials_admit], [mcp_no_bypass],
      [passthrough_roundtrip]). What a login with OpenID Connect does with every
      request ([oidc_admits]), and that one comes to its end
      ([login_completes]).
    - Filters: hop-by-hop headers ([hop_by_hop_exact]), CSRF
      ([csrf_allows_iff]), wildcard origins ([wildcard_match_is_glob]),
      transformations ([transform_sanitizes]).
    - External services: authorization always decides and asks about this very
      request, which it may lose to a header that makes the URI invalid
      ([ext_authz_decides]); a request goes on unprocessed only if the
      policy fails open ([unprocessed_only_if_open]); an echoing processor
      changes nothing ([echo_forwards]); a panic is exactly an immediate response
      without a valid status that is read before the headers' answer
      ([mutate_request_returns]).
    - Rate limiting: a limit never admits more than its capacity plus the refills
      of the elapsed time ([rate_bound]).
    - Calls: a call to a service goes to a workload that serves it, through the
      waypoint or network gateway it must ([service_call_ok]); retries replay the
      body to upstreams that poll it in time ([retries_faithful]); the pool
      counts its connections and streams exactly and strands nobody
      ([pool_safe], [no_waiter_stranded]).
    - MCP: what is listed can be called and what is called is allowed, though
      without sessions the server is initialized first ([listed_items_callable],
      [single_requests_authorized]); merged streams are complete
      ([merge_stream_correct]); an encrypted identifier resumes its session
      ([sessions_resume]) and a session lives while it is used
      ([session_lifetime]).

    Some theorems state behaviour the code's comments do not promise, among them:
    a removed pending listener comes back ([removed_pending_listener_returns]),
    concurrent refills can overfill a bucket ([concurrent_refill_overflow]), a
    zero refill interval panics ([zero_interval_panics]), merging backend
    policies drops MCP deny rules ([be_merge_drops_deny]), two orders on paths
    disagree ([path_rank_orders_disagree]), listener routes shadow service routes
    for TCP ([tcp_listener_routes_shadow_service]), a stale timer ends a later
    eviction ([stale_timer_unevicts]), a long password panics the check of its
    hash ([long_password_panics]), the login of a route never ends
    ([route_login_never_completes]), a long PROXY header passes or not by how it
    arrives ([long_header_depends_on_pieces]), a body kept over an attempt panics
    when it is polled ([late_poll_panics]), an endpoint can be in two buckets
    ([added_to_two_buckets]), a refused call still initializes its server
    ([refused_call_initializes]), and an HTTP check can lose itself
    ([check_loses_itself]).

    ** Bounds and fuel

    - [bsearch_loop] takes the length of the slice as fuel: each round removes
      at least one element.
    - [wildcard_loop] takes [wildcard_fuel] rounds, and
      [wildcard_match_is_glob] proves that it then answers on every input.
    - [try_wait_n] consumes one clock reading per round; [try_wait_n_returns]
      gives the number of readings after which it has returned.
    - The chain of routes takes one more round than there are route keys, since
      a route that comes again ends it ([route_chain_ends]).
    - The detection of a PROXY header takes [detect_fuel] = 530 rounds: each
      reads at least a byte, and more than 528 bytes are always decided upon.
    - A merged stream is polled twice more than its streams have events; a
      request is sent at most once more than there are retries.
    - Rate-limit counters are [u64] with the wrap-around of a release build.
      Theorems about [refill] assume [in_range]: the products it forms on the
      way fit in [u64].
    - Endpoint capacities are [u32], in sets of at most 2^32 endpoints, so that
      the sum of weights fits in [u64]; a discovery store therefore has less than
      2^32 workloads. The pool's counters are [u64], and their bounds are part of
      its invariant.

    ** What is not modelled

    - TLS, HTTP parsing, the asynchronous runtime, the accept loop and its
      draining, HBONE tunnels ([crates/hbone]): they drive hyper, h2 and rustls.
    - The CEL interpreter ([crates/cel-fork]), a fork of a third-party library:
      its evaluation is a parameter everywhere.
    - LLM gateway ([llm/]): only the token true-up and the conversion of its
      policies are modelled.
    - The limit on the number of names in a [HeaderMap], beyond which the [http]
      crate panics: header maps have no size limit here.
    - In [rate_bound], calls of [amend_tokens]: it bounds what sequences of
      granting calls take. [amend_tokens] itself is modelled.
    - Local configuration files ([types/local.rs]): their parsing and
      normalization; the update of the store by them is modelled.
    - Cloud credentials: requests to third parties.
    - The health figures of endpoints, in floating point: a comparison
      parameter.
    - MCP transports and OpenAPI translation; telemetry, metrics and the admin
      server. *)
From stdpp Require Import base gmap strings list fin_maps sorting.

#[export] Set Warnings "-clear-no-such-hyp".

(** ** Outcomes of Rust code

    [outcome A] is a computation that returns a value or panics ([expect],
    out-of-range indexing, a checked arithmetic overflow); [result A E] is
    Rust's [Result<A, E>]. *)
Inductive outcome (A : Type) : Type :=
| Ret (a : A)
| Panic.
Arguments Ret {A} a.
Arguments Panic {A}.

Inductive result (A E : Type) : Type :=
| Ok (a : A)
| Err (e : E).
Arguments Ok {A E} a.
Arguments Err {A E} e.

#[global] Instance outcome_ret : MRet outcome := @Ret.
#[global] Instance outcome_bind : MBind outcome :=
  λ A B f m, match m with Ret a => f a | Panic => Panic end.
#[global] Instance outcome_fmap : FMap outcome :=
  λ A B f m, match m with Ret a => Ret (f a) | Panic => Panic end.

#[global] Instance result_ret {E} : MRet (λ A, result A E) := λ A a, Ok a.
#[global] Instance result_bind {E} : MBind (λ A, result A E) :=
  λ A B f m, match m with Ok a => f a | Err e => Err e end.

(** [?] on a [Result]. *)
Definition and_then {A B E} (r : result A E) (f : A → result B E) : result B E :=
  match r with Ok a => f a | Err e => Err e end.

Declare Scope gw_scope.
Notation "'let?' x := r 'in' k" := (and_then r (λ x, k))
  (at level 10, x name, r at level 100, k at level 200) : gw_scope.
Open Scope gw_scope.

(** [collect] into a [Result] of a list: the first error wins. *)
Fixpoint collect_results {A B E} (f : A → result B E) (l : list A) : result (list B) E :=
  match l with
  | [] => Ok []
  | a :: l' => let? b := f a in let? bs := collect_results f l' in Ok (b :: bs)
  end.

Lemma collect_results_ok {A B E} (f : A → result B E) l bs :
  collect_results f l = Ok bs ↔ Forall2 (λ a b, f a = Ok b) l bs.
Proof.
  revert bs. induction l as [|a l IH]; intros bs; simpl.
  - split; [by intros [= <-]|by inversion 1].
  - split.
    + destruct (f a) eqn:E1; simpl; [|done]. destruct (collect_results f l) eqn:E2; simpl; [|done].
      intros [= <-]. constructor; [done|]. by apply IH.
    + inversion 1 as [|? b ? bs' H1 H2]; subst. apply IH in H2. by rewrite H1, H2.
Qed.

(** A loop that threads a state and may panic. *)
Fixpoint fold_out {A S} (f : A → S → outcome S) (l : list A) (s : S) : outcome S :=
  match l with
  | [] => Ret s
  | a :: l' => s' ← f a s; fold_out f l' s'
  end.

(** [Option::expect] and [Result::ok]. *)
Definition expect {A} (o : option A) : outcome A :=
  match o with Some a => Ret a | None => Panic end.

Definition result_ok {A E} (r : result A E) : option A :=
  match r with Ok a => Some a | Err _ => None end.

(** [Option::or] and [Option::get_or_insert_with], as the value left in the
    slot. *)
Definition option_or {A} (a b : option A) : option A :=
  match a with Some x => Some x | None => b end.

Definition get_or_insert {A} (slot : option A) (v : A) : option A :=
  option_or slot (Some v).

Lemma option_or_assoc {A} (a b c : option A) :
  option_or a (option_or b c) = option_or (option_or a b) c.
Proof. by destruct a. Qed.

Lemma option_or_None_r {A} (a : option A) : option_or a None = a.
Proof. by destruct a. Qed.

Lemma bind_Ret_inv {A B} (m : outcome A) (f : A → outcome B) b :
  m ≫= f = Ret b → ∃ a, m = Ret a ∧ f a = Ret b.
Proof. destruct m; simpl; [eauto | done]. Qed.

(** ** Automation *)

(** Splits every [match] of the context and goal on an innermost scrutinee. *)
Ltac split_matches :=
  repeat (case_match; simplify_eq/=).

(** Rewrites boolean tests to the propositions they decide. *)
Ltac to_prop :=
  repeat match goal with
  | H : _ && _ = true |- _ => apply andb_true_iff in H as [? ?]
  | H : _ || _ = false |- _ => apply orb_false_iff in H as [? ?]
  | H : negb _ = true |- _ => apply negb_true_iff in H
  | H : negb _ = false |- _ => apply negb_false_iff in H
  | H : bool_decide _ = true |- _ => apply bool_decide_eq_true in H
  | H : bool_decide _ = false |- _ => apply bool_decide_eq_false in H
  | H : (_ =? _)%Z = true |- _ => apply Z.eqb_eq in H
  | H : (_ =? _)%Z = false |- _ => apply Z.eqb_neq in H
  | H : (_ <? _)%Z = true |- _ => apply Z.ltb_lt in H
  | H : (_ <? _)%Z = false |- _ => apply Z.ltb_ge in H
  | H : (_ <=? _)%Z = true |- _ => apply Z.leb_le in H
  | H : (_ <=? _)%Z = false |- _ => apply Z.leb_gt in H
  end.

Create HintDb gw discriminated.
#[export] Hint Extern 1 (_ ≤ _) => lia : gw.
#[export] Hint Extern 1 (_ < _) => lia : gw.

(** ** Lists *)

Section lists.
Context {A : Type}.
Implicit Types (l : list A).

(** [slice::insert] at an index, with Rust's panic out of range. *)
Definition vec_insert (i : nat) (x : A) l : outcome (list A) :=
  if decide (i ≤ length l) then Ret (take i l ++ x :: drop i l) else Panic.

Lemma vec_insert_ok i x l :
  i ≤ length l → vec_insert i x l = Ret (take i l ++ x :: drop i l).
Proof. intros. unfold vec_insert. by rewrite decide_True. Qed.

Lemma vec_insert_perm i x l :
  take i l ++ x :: drop i l ≡ₚ x :: l.
Proof. rewrite <-Permutation_middle. by rewrite take_drop. Qed.

(** [Iterator::find] and [Iterator::find_map]. *)
Fixpoint list_find_by (p : A → bool) l : option A :=
  match l with
  | [] => None
  | x :: l' => if p x then Some x else list_find_by p l'
  end.

Fixpoint find_map {B} (f : A → option B) l : option B :=
  match l with
  | [] => None
  | x :: l' => match f x with Some b => Some b | None => find_map f l' end
  end.

Lemma list_find_by_Some p l x :
  list_find_by p l = Some x ↔
  ∃ l1 l2, l = l1 ++ x :: l2 ∧ p x = true ∧ Forall (λ y, p y = false) l1.
Proof.
  split.
  - induction l as [|y l IH]; simpl; [done|].
    destruct (p y) eqn:Hy.
    + intros [= <-]. exists [], l. by repeat split.
    + intros (l1 & l2 & -> & Hx & Hf)%IH. exists (y :: l1), l2.
      repeat split; auto.
  - intros (l1 & l2 & -> & Hx & Hf). induction Hf as [|y l1 Hy _ IH]; simpl.
    + by rewrite Hx.
    + by rewrite Hy.
Qed.

Lemma list_find_by_None p l :
  list_find_by p l = None ↔ Forall (λ y, p y = false) l.
Proof.
  induction l as [|y l IH]; simpl; [by split; auto|].
  destruct (p y) eqn:Hy.
  - split; [done|]. intros H; inversion H; congruence.
  - rewrite IH. split; [by constructor|]. by inversion 1.
Qed.

Lemma find_map_Some {B} (f : A → option B) l b :
  find_map f l = Some b ↔
  ∃ l1 x l2, l = l1 ++ x :: l2 ∧ f x = Some b ∧ Forall (λ y, f y = None) l1.
Proof.
  split.
  - induction l as [|y l IH]; simpl; [done|].
    destruct (f y) eqn:Hy.
    + intros [= <-]. exists [], y, l. by repeat split.
    + intros (l1 & x & l2 & -> & Hx & Hf)%IH. exists (y :: l1), x, l2.
      repeat split; auto.
  - intros (l1 & x & l2 & -> & Hx & Hf). induction Hf as [|y l1 Hy _ IH]; simpl.
    + by rewrite Hx.
    + by rewrite Hy.
Qed.

Lemma find_map_None {B} (f : A → option B) l :
  find_map f l = None ↔ Forall (λ y, f y = None) l.
Proof.
  induction l as [|y l IH]; simpl; [by split; auto|].
  destruct (f y) eqn:Hy.
  - split; [done|]. intros H; inversion H; congruence.
  - rewrite IH. split; [by constructor|]. by inversion 1.
Qed.

Lemma forallb_Forall (p : A → bool) l :
  forallb p l = true ↔ Forall (λ x, p x = true) l.
Proof.
  induction l as [|x l IH]; simpl; [by split; auto|].
  rewrite andb_true_iff, IH. split.
  - intros [??]. by constructor.
  - by inversion 1.
Qed.

Lemma existsb_Exists (p : A → bool) l :
  existsb p l = true ↔ Exists (λ x, p x = true) l.
Proof.
  induction l as [|x l IH]; simpl.
  - split; [done|]. inversion 1.
  - rewrite orb_true_iff, IH, Exists_cons. done.
Qed.

Lemma existsb_app_comm (p : A → bool) l1 l2 :
  existsb p (l1 ++ l2) = existsb p l1 || existsb p l2.
Proof. apply existsb_app. Qed.
End lists.

Lemma foldl_ext_in {A B} (f g : B → A → B) l b :
  (∀ b x, x ∈ l → f b x = g b x) → foldl f b l = foldl g b l.
Proof.
  revert b. induction l as [|x l IH]; intros b H; simpl; [done|].
  rewrite H by (by left). apply IH. intros. apply H. by right.
Qed.

Lemma NoDup_fst_elem {K V} (l : list (K * V)) k a b : NoDup (l.*1) → (k, a) ∈ l → (k, b) ∈ l → a = b.
Proof.
  induction l as [|[k0 v0] l IH]; simpl; [by intros _ ?%elem_of_nil|]. intros [Hn Hl]%NoDup_cons.
  assert (∀ v, (k0, v) ∈ l → False) as Hno by (intros v Hv; apply Hn; by apply (list_elem_of_fmap_2 fst _ (k0, v))).
  rewrite !elem_of_cons. naive_solver.
Qed.

(** ** Sorted lists *)

Section sorted.
Context {A : Type} (R : A → A → Prop).

Lemma StronglySorted_app_iff l1 l2 :
  StronglySorted R (l1 ++ l2) ↔
  StronglySorted R l1 ∧ StronglySorted R l2 ∧ ∀ x y, x ∈ l1 → y ∈ l2 → R x y.
Proof.
  induction l1 as [|a l1 IH]; simpl.
  - split; [|by intros (_ & ? & _)]. intros H. split; [constructor|]. split; [done|].
    intros x y Hx. by apply not_elem_of_nil in Hx.
  - split.
    + intros [Hs Ha]%StronglySorted_inv. apply IH in Hs as (H1 & H2 & H3).
      apply Forall_app in Ha as [Ha1 Ha2]. split; [by constructor|]. split; [done|].
      intros x y [->|Hx]%elem_of_cons Hy; [|by apply H3].
      rewrite Forall_forall in Ha2. by apply Ha2.
    + intros ([H1 H1']%StronglySorted_inv & H2 & H3). constructor.
      * apply IH. split; [done|]. split; [done|]. intros x y ??. apply H3; [by right|done].
      * apply Forall_app. split; [done|]. apply Forall_forall. intros y Hy.
        apply H3; [by left|done].
Qed.

Lemma StronglySorted_filter_list (P : A → Prop) `{∀ x, Decision (P x)} l :
  StronglySorted R l → StronglySorted R (filter P l).
Proof.
  induction 1 as [|a l Hs IH Ha]; [constructor|]. rewrite filter_cons. case_decide; [|done].
  constructor; [done|]. apply Forall_forall. intros y [_ Hy]%list_elem_of_filter.
  rewrite Forall_forall in Ha. by apply Ha.
Qed.

Lemma StronglySorted_lookup l i j x y :
  Reflexive R → StronglySorted R l → i ≤ j → l !! i = Some x → l !! j = Some y → R x y.
Proof.
  intros HR Hs Hij Hi Hj. destruct (decide (i = j)) as [->|Hne]; [by simplify_eq|].
  revert i j Hij Hne Hi Hj. induction Hs as [|a l Hs IH Ha]; intros i j Hij Hne Hi Hj; [done|].
  destruct j as [|j]; [lia|]. destruct i as [|i]; simpl in *.
  - simplify_eq. rewrite Forall_forall in Ha. by apply Ha, list_elem_of_lookup_2 with j.
  - apply (IH i j); (done || lia).
Qed.

Lemma StronglySorted_mono (S : A → A → Prop) l :
  (∀ x y, x ∈ l → y ∈ l → R x y → S x y) → StronglySorted R l → StronglySorted S l.
Proof.
  intros Hm. induction 1 as [|a l Hs IH Ha]; [constructor|].
  constructor.
  - apply IH. intros x y ??. apply Hm; by right.
  - rewrite Forall_forall in *. intros y Hy. apply Hm; [by left|by right|by apply Ha].
Qed.
End sorted.
