(* ===== verification/RustStd.v ===== *)
(** * The pieces of Rust's standard library the gateway uses

    Machine integers, [Ordering] and the orders built from it,
    [slice::binary_search_by], the byte-level [str] operations, and the
    iteration order of hash containers. Strings
    are byte strings: every [str] operation below is one whose behaviour on
    UTF-8 text is determined byte by byte. *)
From stdpp Require Import base gmap strings list.
From Stdlib Require Import ZArith Ascii.
From Stdlib Require String.
From S2P Require Import Prelude.

(** ** Machine integers *)

Definition u64_max : Z := 2 ^ 64 - 1.
Definition u64_ok (z : Z) : Prop := (0 ≤ z ≤ u64_max)%Z.
Definition wrap64 (z : Z) : Z := (z mod 2 ^ 64)%Z.
Definition u64_saturating_add (a b : Z) : Z := Z.min u64_max (a + b).
Definition u64_saturating_sub (a b : Z) : Z := Z.max 0 (a - b).

(** [as i64] and the wrap-around of [i64] arithmetic. *)
Definition wrap_i64 (z : Z) : Z := ((z + 2 ^ 63) mod 2 ^ 64 - 2 ^ 63)%Z.

Lemma wrap64_ok z : u64_ok (wrap64 z).
Proof. unfold u64_ok, wrap64, u64_max. pose proof (Z.mod_pos_bound z (2 ^ 64)). lia. Qed.

Lemma wrap64_id z : u64_ok z → wrap64 z = z.
Proof. unfold u64_ok, wrap64, u64_max. intros. apply Z.mod_small. lia. Qed.

(** ** [Ordering] *)

(** A comparison function that is a total preorder. *)
Class CmpOrder {A} (cmp : A → A → comparison) : Prop := {
  cmp_opp : ∀ x y, cmp y x = CompOpp (cmp x y);
  cmp_trans : ∀ c x y z, cmp x y = c → cmp y z = c → cmp x z = c;
}.
Arguments cmp_opp {A} cmp {_} x y.
Arguments cmp_trans {A} cmp {_} c x y z.

(** [cmp::Ordering::then]: the lexicographic combination. *)
Definition then_cmp (a b : comparison) : comparison :=
  match a with Eq => b | _ => a end.

Section cmp_facts.
Context {A} (cmp : A → A → comparison) `{!CmpOrder cmp}.

Lemma cmp_refl x : cmp x x = Eq.
Proof. pose proof (cmp_opp cmp x x) as H. by destruct (cmp x x). Qed.

Lemma cmp_eq_sym x y : cmp x y = Eq → cmp y x = Eq.
Proof. intros H. by rewrite (cmp_opp cmp x y), H. Qed.

Lemma cmp_eq_l x y z : cmp x y = Eq → cmp x z = cmp y z.
Proof.
  intros Hxy. pose proof (cmp_eq_sym _ _ Hxy) as Hyx.
  destruct (cmp y z) eqn:Hyz.
  - by eapply cmp_trans.
  - destruct (cmp x z) eqn:Hxz; [|done|].
    + by rewrite (cmp_trans cmp Eq y x z) in Hyz.
    + pose proof (cmp_opp cmp x z) as Hzx. rewrite Hxz in Hzx; simpl in Hzx.
      by rewrite (cmp_trans cmp Lt y z x) in Hyx.
  - destruct (cmp x z) eqn:Hxz; [| |done].
    + by rewrite (cmp_trans cmp Eq y x z) in Hyz.
    + pose proof (cmp_opp cmp x z) as Hzx. rewrite Hxz in Hzx; simpl in Hzx.
      by rewrite (cmp_trans cmp Gt y z x) in Hyx.
Qed.

Lemma cmp_eq_r x y z : cmp y z = Eq → cmp x y = cmp x z.
Proof.
  intros H. rewrite (cmp_opp cmp y x), (cmp_opp cmp z x). f_equal. by apply cmp_eq_l.
Qed.

Lemma cmp_le_trans x y z : cmp x y ≠ Gt → cmp y z ≠ Gt → cmp x z ≠ Gt.
Proof.
  intros Hxy Hyz. destruct (cmp x y) eqn:E1; [| |done].
  - by rewrite (cmp_eq_l _ _ _ E1).
  - destruct (cmp y z) eqn:E2; [| |done].
    + by rewrite <-(cmp_eq_r _ _ _ E2), E1.
    + by rewrite (cmp_trans cmp Lt x y z).
Qed.

Lemma cmp_le_lt x y z : cmp x y ≠ Gt → cmp y z = Lt → cmp x z = Lt.
Proof.
  intros Hxy Hyz. destruct (cmp x y) eqn:E1; [| |done].
  - by rewrite (cmp_eq_l _ _ _ E1).
  - by rewrite (cmp_trans cmp Lt x y z).
Qed.

Lemma cmp_gt_le x y z : cmp x z = Gt → cmp x y ≠ Gt → cmp y z = Gt.
Proof.
  intros Hxz Hxy. destruct (cmp y z) eqn:E; [| |done].
  - destruct Hxy. by rewrite (cmp_eq_r _ _ _ E).
  - by rewrite (cmp_le_lt _ _ _ Hxy E) in Hxz.
Qed.

Lemma cmp_le_total x y : cmp x y ≠ Gt ∨ cmp y x ≠ Gt.
Proof. rewrite (cmp_opp cmp x y). destruct (cmp x y); auto. Qed.

Lemma cmp_ge_le x y : cmp x y ≠ Lt ↔ cmp y x ≠ Gt.
Proof. rewrite (cmp_opp cmp x y). by destruct (cmp x y). Qed.
End cmp_facts.

Lemma cmp_ext {A} (c1 c2 : A → A → comparison) :
  (∀ x y, c1 x y = c2 x y) → CmpOrder c2 → CmpOrder c1.
Proof.
  intros He HC. split; intros *; rewrite !He; [apply (cmp_opp c2)|apply (cmp_trans c2)].
Qed.

#[global] Instance cmp_flip {A} (cmp : A → A → comparison) :
  CmpOrder cmp → CmpOrder (λ x y, CompOpp (cmp x y)).
Proof.
  intros HC. split.
  - intros x y. by rewrite (cmp_opp cmp x y).
  - intros c x y z H1 H2. apply (f_equal CompOpp) in H1, H2.
    rewrite CompOpp_involutive in H1, H2.
    rewrite (cmp_trans cmp (CompOpp c) x y z) by done. apply CompOpp_involutive.
Qed.

#[global] Instance cmp_on {A B} (f : B → A) (cmp : A → A → comparison) :
  CmpOrder cmp → CmpOrder (λ x y, cmp (f x) (f y)).
Proof.
  intros HC. split; intros; [apply (cmp_opp cmp)|]. by eapply (cmp_trans cmp).
Qed.

#[global] Instance cmp_then {A} (c1 c2 : A → A → comparison) :
  CmpOrder c1 → CmpOrder c2 → CmpOrder (λ x y, then_cmp (c1 x y) (c2 x y)).
Proof.
  intros H1 H2. split.
  - intros x y. rewrite (cmp_opp c1 x y), (cmp_opp c2 x y).
    by destruct (c1 x y).
  - intros c x y z. unfold then_cmp.
    destruct (c1 x y) eqn:E1.
    + rewrite (cmp_eq_l c1 _ _ _ E1). destruct (c1 y z); [|by auto..].
      intros. by eapply (cmp_trans c2).
    + intros <-. destruct (c1 y z) eqn:E2; [|by rewrite (cmp_trans c1 Lt x y z)|done].
      intros _. by rewrite <-(cmp_eq_r c1 _ _ _ E2), E1.
    + intros <-. destruct (c1 y z) eqn:E2; [|done|by rewrite (cmp_trans c1 Gt x y z)].
      intros _. by rewrite <-(cmp_eq_r c1 _ _ _ E2), E1.
Qed.

#[global] Instance cmp_nat : CmpOrder Nat.compare.
Proof.
  split; [intros; apply Nat.compare_antisym|].
  intros c x y z. destruct c; rewrite ?Nat.compare_eq_iff, ?Nat.compare_lt_iff,
    ?Nat.compare_gt_iff; lia.
Qed.

#[global] Instance cmp_Z : CmpOrder Z.compare.
Proof.
  split; [intros; apply Z.compare_antisym|].
  intros c x y z. destruct c; rewrite ?Z.compare_eq_iff, ?Z.compare_lt_iff,
    ?Z.compare_gt_iff; lia.
Qed.

(** [bool]'s [Ord]: [false < true]. *)
Definition bool_cmp (a b : bool) : comparison :=
  match a, b with
  | true, false => Gt | false, true => Lt | _, _ => Eq
  end.

#[global] Instance cmp_bool : CmpOrder bool_cmp.
Proof. split; [by intros [] []|]. by intros [] [] [] []. Qed.

(** ** [str]'s [Ord]: bytewise lexicographic *)

#[global] Instance cmp_ascii : CmpOrder Ascii.compare.
Proof.
  unfold Ascii.compare. split.
  - intros. apply N.compare_antisym.
  - intros c x y z. destruct c; rewrite ?N.compare_eq_iff, ?N.compare_lt_iff,
      ?N.compare_gt_iff; lia.
Qed.

Lemma ascii_compare_eq a b : Ascii.compare a b = Eq → a = b.
Proof. apply Ascii.compare_eq_iff. Qed.

#[global] Instance cmp_string : CmpOrder String.compare.
Proof.
  split.
  - intros x y. apply String.compare_antisym.
  - intros c x. induction x as [|a x IH]; intros [|b y] [|d z]; simpl;
      try (by intros <-); try (by intros <- ?).
    unfold String.compare; fold String.compare.
    destruct (Ascii.compare a b) eqn:E1.
    + rewrite (cmp_eq_l Ascii.compare _ _ _ E1).
      destruct (Ascii.compare b d); [by apply IH|by auto..].
    + intros <-. destruct (Ascii.compare b d) eqn:E2; [| |done].
      * by rewrite <-(cmp_eq_r Ascii.compare _ _ _ E2), E1.
      * by rewrite (cmp_trans Ascii.compare Lt a b d).
    + intros <-. destruct (Ascii.compare b d) eqn:E2; [|done|].
      * by rewrite <-(cmp_eq_r Ascii.compare _ _ _ E2), E1.
      * by rewrite (cmp_trans Ascii.compare Gt a b d).
Qed.

Lemma string_compare_eq s t : String.compare s t = Eq → s = t.
Proof. apply String.compare_eq_iff. Qed.

(** ** [slice::binary_search_by]

    The library's loop: [base] is moved to the middle unless the probe
    compares [Greater], and the window shrinks by half of its size. The
    comparator may panic, as the route sets' comparators do. *)
Fixpoint bsearch_loop {A} (fuel : nat) (f : A → outcome comparison)
    (l : list A) (base size : nat) : outcome nat :=
  match fuel with
  | O => Ret base
  | S fuel' =>
      if decide (size ≤ 1) then Ret base
      else
        let half := size / 2 in
        let mid := base + half in
        x ← expect (l !! mid);
        c ← f x;
        bsearch_loop fuel' f l
          (match c with Gt => base | _ => mid end) (size - half)
  end.

Definition binary_search_by {A} (f : A → outcome comparison) (l : list A)
    : outcome (result nat nat) :=
  match l with
  | [] => Ret (Err 0)
  | _ :: _ =>
      base ← bsearch_loop (length l) f l 0 (length l);
      x ← expect (l !! base);
      c ← f x;
      Ret (match c with
           | Eq => Ok base
           | Lt => Err (S base)
           | Gt => Err base
           end)
  end.

(** [Result::unwrap_or_else(|pos| pos)] on the search's result. *)
Definition search_pos (r : result nat nat) : nat :=
  match r with Ok i => i | Err i => i end.

(** The comparator's verdicts along the slice: every [Less] before every
    [Equal] before every [Greater]. *)
Definition partitioned {A} (g : A → comparison) (l : list A) : Prop :=
  ∀ i j x y, i ≤ j → l !! i = Some x → l !! j = Some y →
    (g y = Lt → g x = Lt) ∧ (g x = Gt → g y = Gt).

(** What [binary_search_by] documents of its result. *)
Definition search_ok {A} (g : A → comparison) (l : list A) (r : result nat nat) : Prop :=
  match r with
  | Ok i => ∃ x, l !! i = Some x ∧ g x = Eq
  | Err i => i ≤ length l ∧
      (∀ j x, l !! j = Some x → j < i → g x = Lt) ∧
      (∀ j x, l !! j = Some x → i ≤ j → g x = Gt)
  end.

Section bsearch.
Context {A : Type} (f : A → outcome comparison) (g : A → comparison) (l : list A).
Hypothesis f_total : ∀ x, x ∈ l → f x = Ret (g x).
Hypothesis l_part : partitioned g l.

Local Lemma f_at i x : l !! i = Some x → f x = Ret (g x).
Proof. intros H. by apply f_total, list_elem_of_lookup_2 with i. Qed.

(** The loop keeps: entries before [base] are not greater than the target
    (once [base] moved) and entries from [base + size] on are greater. *)
Local Definition window (base size : nat) : Prop :=
  1 ≤ size ∧ base + size ≤ length l ∧
  (base = 0 ∨ ∀ x, l !! base = Some x → g x ≠ Gt) ∧
  (∀ j x, l !! j = Some x → base + size ≤ j → g x = Gt).

Lemma bsearch_loop_window fuel base size :
  size ≤ fuel → window base size →
  ∃ b, bsearch_loop fuel f l base size = Ret b ∧ window b 1.
Proof.
  revert base size. induction fuel as [|fuel IH]; intros base size Hf Hw.
  { destruct Hw as (?&_). lia. }
  pose proof Hw as (H1 & H2 & H3 & H4). cbn [bsearch_loop]. case_decide as Hs.
  { exists base. split; [done|]. by replace 1 with size by lia. }
  cbv zeta. set (half := size / 2).
  assert (1 ≤ half ∧ half < size ∧ 2 * half ≤ size) as (Hh1 & Hh2 & Hh3).
  { unfold half. repeat split;
      [apply Nat.div_le_lower_bound; lia|apply Nat.div_lt; lia
      |apply Nat.Div0.mul_div_le]. }
  destruct (lookup_lt_is_Some_2 l (base + half)) as [x Hx]; [lia|].
  rewrite Hx; simpl. rewrite (f_at _ _ Hx); simpl.
  apply IH; [lia|]. destruct (g x) eqn:Hg.
  - repeat split; [lia|lia|right; congruence|].
    intros j y Hj ?. apply (H4 j); [done|lia].
  - repeat split; [lia|lia|right; congruence|].
    intros j y Hj ?. apply (H4 j); [done|lia].
  - repeat split; [lia|lia|done|]. intros j y Hj ?.
    destruct (l_part (base + half) j x y) as [_ Hgt]; [lia|done|done|auto].
Qed.

Lemma binary_search_by_unfold :
  l ≠ [] →
  binary_search_by f l =
    (base ← bsearch_loop (length l) f l 0 (length l);
     x ← expect (l !! base);
     c ← f x;
     Ret (match c with Eq => Ok base | Lt => Err (S base) | Gt => Err base end)).
Proof. unfold binary_search_by. by destruct l. Qed.

Lemma binary_search_by_correct :
  ∃ r, binary_search_by f l = Ret r ∧ search_ok g l r.
Proof.
  destruct (decide (l = [])) as [El|Hne].
  { exists (Err 0). rewrite El. split; [done|]. split; [done|].
    split; intros j x Hj; by rewrite lookup_nil in Hj. }
  rewrite binary_search_by_unfold by done.
  assert (1 ≤ length l) by (destruct l; simpl in *; [done|lia]).
  destruct (bsearch_loop_window (length l) 0 (length l)) as (b & -> & Hw); [lia| |].
  { repeat split; [lia|lia|by left|]. intros j x Hj%lookup_lt_Some ?. lia. }
  destruct Hw as (_ & Hb & Hlo & Hhi). simpl.
  destruct (lookup_lt_is_Some_2 l b) as [x Hx]; [lia|].
  rewrite Hx; simpl. rewrite (f_at _ _ Hx); simpl. eexists; split; [done|].
  destruct (g x) eqn:Hg; simpl.
  - eauto.
  - split; [lia|]. split; intros j y Hj ?.
    + destruct (l_part j b y x) as [Hlt _]; [lia|done|done|auto].
    + apply (Hhi j); [done|lia].
  - destruct Hlo as [->|Hlo]; [|by specialize (Hlo _ Hx)].
    split; [lia|]. split; intros j y Hj ?; [lia|].
    destruct (l_part 0 j x y) as [_ Hgt]; [lia|done|done|auto].
Qed.

(** Whatever it returns, inserting at the position keeps the slice
    partitioned: nothing greater before it, nothing less from it on. *)
Lemma search_pos_ok r :
  search_ok g l r →
  search_pos r ≤ length l ∧
  (∀ j x, l !! j = Some x → j < search_pos r → g x ≠ Gt) ∧
  (∀ j x, l !! j = Some x → search_pos r ≤ j → g x ≠ Lt).
Proof.
  destruct r as [i|i]; simpl.
  - intros (x & Hx & Hg). split; [apply lookup_lt_Some in Hx; lia|].
    split; intros j y Hj Hi Hc.
    + destruct (l_part j i y x) as [_ Hgt]; [lia|done|done|].
      by rewrite Hgt in Hg.
    + destruct (l_part i j x y) as [Hlt _]; [lia|done|done|].
      by rewrite Hlt in Hg.
  - intros (Hi & Hlt & Hgt). split; [done|].
    split; intros j y Hj Hji Hc.
    + by rewrite (Hlt _ _ Hj Hji) in Hc.
    + by rewrite (Hgt _ _ Hj Hji) in Hc.
Qed.
End bsearch.

(** ** [str] operations *)

Module Str.
Local Open Scope string_scope.

(** [str::strip_prefix], [str::starts_with]. *)
Fixpoint strip_prefix (p s : string) : option string :=
  match p, s with
  | EmptyString, _ => Some s
  | String a p', String b s' => if decide (a = b) then strip_prefix p' s' else None
  | String _ _, EmptyString => None
  end.

Definition starts_with (p s : string) : bool :=
  match strip_prefix p s with Some _ => true | None => false end.

(** [str::ends_with]. *)
Fixpoint ends_with (suf s : string) : bool :=
  if decide (suf = s) then true
  else match s with
       | EmptyString => false
       | String _ s' => ends_with suf s'
       end.

(** [str::trim_end_matches] with a single-byte pattern. *)
Fixpoint trim_end_matches (c : ascii) (s : string) : string :=
  match s with
  | EmptyString => EmptyString
  | String a s' =>
      match trim_end_matches c s' with
      | EmptyString => if decide (a = c) then EmptyString else String a EmptyString
      | t => String a t
      end
  end.

Definition is_empty (s : string) : bool :=
  match s with EmptyString => true | _ => false end.

(** [str::contains] with a byte pattern. *)
Fixpoint contains_char (c : ascii) (s : string) : bool :=
  match s with
  | EmptyString => false
  | String a s' => if decide (a = c) then true else contains_char c s'
  end.

(** [str::rsplit_once] with a byte pattern: splits at the last occurrence. *)
Fixpoint rsplit_once (c : ascii) (s : string) : option (string * string) :=
  match s with
  | EmptyString => None
  | String a s' =>
      match rsplit_once c s' with
      | Some (x, y) => Some (String a x, y)
      | None => if decide (a = c) then Some (EmptyString, s') else None
      end
  end.

(** [str::split_once] with a string pattern: splits at the first occurrence. *)
Fixpoint split_once (p s : string) : option (string * string) :=
  match strip_prefix p s with
  | Some rest => Some (EmptyString, rest)
  | None =>
      match s with
      | EmptyString => None
      | String a s' =>
          match split_once p s' with
          | Some (x, y) => Some (String a x, y)
          | None => None
          end
      end
  end.

(** [str::contains] with a string pattern. *)
Definition contains (p s : string) : bool :=
  match split_once p s with Some _ => true | None => false end.

(** [str::split] with a byte pattern: all the parts, at least one. *)
Fixpoint split (c : ascii) (s : string) : list string :=
  match s with
  | EmptyString => [EmptyString]
  | String a s' =>
      match split c s' with
      | part :: parts => if decide (a = c) then EmptyString :: part :: parts else String a part :: parts
      | [] => []
      end
  end.

(** ASCII case folding. *)
Definition ascii_lower (a : ascii) : ascii :=
  let n := N_of_ascii a in
  if ((65 <=? n) && (n <=? 90))%N then ascii_of_N (n + 32) else a.

Fixpoint to_ascii_lowercase (s : string) : string :=
  match s with
  | EmptyString => EmptyString
  | String a s' => String (ascii_lower a) (to_ascii_lowercase s')
  end.

Definition eq_ignore_ascii_case (s t : string) : bool :=
  bool_decide (to_ascii_lowercase s = to_ascii_lowercase t).

Definition is_ascii_digit (a : ascii) : bool :=
  let n := N_of_ascii a in ((48 <=? n) && (n <=? 57))%N.

Fixpoint all_chars (p : ascii → bool) (s : string) : bool :=
  match s with EmptyString => true | String a s' => p a && all_chars p s' end.

Fixpoint any_char (p : ascii → bool) (s : string) : bool :=
  match s with EmptyString => false | String a s' => p a || any_char p s' end.

(** The number a string of digits denotes. *)
Fixpoint digits_value (acc : Z) (s : string) : Z :=
  match s with
  | EmptyString => acc
  | String a s' => digits_value (acc * 10 + (Z.of_N (N_of_ascii a) - 48)) s'
  end.

(** ** Facts *)

Lemma strip_prefix_Some p s r : strip_prefix p s = Some r ↔ s = p +:+ r.
Proof.
  revert s. induction p as [|a p IH]; intros s; simpl.
  - by split; [intros [= ->]|intros ->].
  - destruct s as [|b s]; [by split|]. case_decide as Hab.
    + subst. rewrite IH. by split; [intros ->|intros [= ->]].
    + split; [done|]. intros [= ??]. congruence.
Qed.

Lemma starts_with_true p s : starts_with p s = true ↔ ∃ r, s = p +:+ r.
Proof.
  unfold starts_with. destruct (strip_prefix p s) as [r|] eqn:E.
  - apply strip_prefix_Some in E. split; eauto.
  - split; [done|]. intros [r Hr%strip_prefix_Some]. congruence.
Qed.

Lemma ends_with_true suf s : ends_with suf s = true ↔ ∃ p, s = p +:+ suf.
Proof.
  induction s as [|a s IH]; simpl; case_decide as Hd.
  - split; [|done]. intros _. exists "". by rewrite Hd.
  - split; [done|]. intros [[|b p] Hp]; [by destruct Hd|done].
  - split; [|done]. intros _. exists "". by rewrite Hd.
  - rewrite IH. split.
    + intros [p ->]. by exists (String a p).
    + intros [[|b p] Hp]; [by destruct Hd|]. injection Hp as -> ->. eauto.
Qed.

Lemma string_app_nil_r (s : string) : s +:+ "" = s.
Proof. induction s as [|a s IH]; [done|]. exact (f_equal (String a) IH). Qed.

Lemma string_app_assoc (s t u : string) : (s +:+ t) +:+ u = s +:+ (t +:+ u).
Proof. induction s as [|a s IH]; [done|]. exact (f_equal (String a) IH). Qed.

Lemma string_app_cons a (s t : string) : String a s +:+ t = String a (s +:+ t).
Proof. done. Qed.

Lemma string_length_app (s t : string) : String.length (s +:+ t) = String.length s + String.length t.
Proof. induction s as [|a s IH]; [done|]. exact (f_equal S IH). Qed.

(** Two suffixes of one string of the same length are equal. *)
Lemma suffix_unique (p q s t : string) :
  p +:+ s = q +:+ t → String.length s = String.length t → s = t.
Proof.
  revert q. induction p as [|a p IH]; intros [|b q] H Hl; simpl in *.
  - done.
  - apply (f_equal String.length) in H. rewrite !string_length_app in H. simpl in H. lia.
  - apply (f_equal String.length) in H. rewrite !string_length_app in H. simpl in H. lia.
  - injection H as _ H. by eapply IH.
Qed.

(** [trim_end_matches] removes exactly a run of the pattern. *)
Lemma trim_end_matches_app c s :
  ∃ k, s = trim_end_matches c s +:+ String.concat "" (replicate k (String c "")).
Proof.
  induction s as [|a s [k IH]]; simpl; [by exists 0|].
  destruct (trim_end_matches c s) as [|b t].
  - case_decide as Ha.
    + subst a. exists (S k). rewrite IH. by destruct k.
    + exists k. by rewrite string_app_cons, <-IH.
  - exists k. by rewrite string_app_cons, <-IH.
Qed.

Lemma trim_end_matches_idem c s :
  trim_end_matches c (trim_end_matches c s) = trim_end_matches c s.
Proof.
  induction s as [|a s IH]; simpl; [done|].
  destruct (trim_end_matches c s) as [|b t] eqn:E.
  - case_decide; simpl; [done|]. by rewrite decide_False.
  - change (trim_end_matches c (String a (String b t))) with
      (match trim_end_matches c (String b t) with
       | EmptyString => if decide (a = c) then EmptyString else String a EmptyString
       | t => String a t
       end).
    by rewrite IH.
Qed.

(** Both directions of [split_once]: the first piece has no earlier occurrence
    of the pattern. *)
Lemma split_once_Some p s a b :
  split_once p s = Some (a, b) → s = a +:+ p +:+ b ∧ ∀ x y, a = x +:+ y → y ≠ "" → strip_prefix p (y +:+ p +:+ b) = None.
Proof.
  revert a. induction s as [|c s IH]; intros a; simpl.
  - destruct (strip_prefix p "") as [r|] eqn:E; [|done]. intros [= <- <-]. apply strip_prefix_Some in E.
    split; [done|]. intros x y Hxy Hy. by destruct x, y.
  - destruct (strip_prefix p (String c s)) as [r|] eqn:E.
    + intros [= <- <-]. apply strip_prefix_Some in E. split; [done|]. intros x y Hxy Hy. by destruct x, y.
    + destruct (split_once p s) as [[a' b']|] eqn:E2; [|done]. intros [= <- <-].
      destruct (IH a' eq_refl) as [-> Hf]. split; [by rewrite string_app_cons|]. intros [|d x] y Hxy Hy; [|rewrite string_app_cons in Hxy].
      * change (String c a' = y) in Hxy. subst y. by rewrite string_app_cons.
      * injection Hxy as _ ->. eauto.
Qed.

Lemma split_once_app p a b :
  (∀ x y, a = x +:+ y → y ≠ "" → strip_prefix p (y +:+ p +:+ b) = None) →
  split_once p (a +:+ p +:+ b) = Some (a, b).
Proof.
  induction a as [|c a IH]; intros Hf.
  - change ("" +:+ p +:+ b) with (p +:+ b).
    assert (strip_prefix p (p +:+ b) = Some b) as Hs by (by apply strip_prefix_Some).
    destruct (p +:+ b) as [|d t] eqn:E; simpl; simpl in Hs; by rewrite Hs.
  - rewrite string_app_cons. simpl. pose proof (Hf "" (String c a) eq_refl) as Hn. rewrite string_app_cons in Hn.
    rewrite Hn by done. rewrite IH; [done|]. intros x y -> Hy. by apply (Hf (String c x)).
Qed.

Lemma split_once_inj p s t a b : split_once p s = Some (a, b) → split_once p t = Some (a, b) → s = t.
Proof. intros [-> _]%split_once_Some [-> _]%split_once_Some. done. Qed.

(** A one-byte pattern splits at the first such byte. *)
Lemma split_once_char c a b :
  contains_char c a = false → split_once (String c "") (a +:+ String c "" +:+ b) = Some (a, b).
Proof.
  intros Ha. apply split_once_app. intros x y -> Hy. destruct y as [|d y]; [done|].
  rewrite string_app_cons. simpl. destruct (decide (c = d)) as [->|]; [|done]. exfalso.
  induction x as [|e x IH]; [change (contains_char d (String d y) = false) in Ha|rewrite string_app_cons in Ha];
    simpl in Ha; (case_decide; [done|]); [done|by apply IH].
Qed.

Lemma split_once_char_fst c s a b : split_once (String c "") s = Some (a, b) → contains_char c a = false.
Proof.
  intros [_ Hf]%split_once_Some. induction a as [|d a IH]; simpl; [done|]. destruct (decide (d = c)) as [->|].
  - specialize (Hf "" (String c a) eq_refl). rewrite string_app_cons in Hf.
    simpl in Hf. rewrite decide_True in Hf by done. by specialize (Hf ltac:(done)).
  - apply IH. intros x y -> Hy. by apply (Hf (String d x)).
Qed.

(** Splitting at every [c] is inverse to joining parts that do not hold it. *)
Fixpoint join (c : ascii) (l : list string) : string :=
  match l with
  | [] => EmptyString
  | [x] => x
  | x :: l' => x +:+ String c (join c l')
  end.

Lemma split_cons c s : ∃ x l, split c s = x :: l.
Proof.
  induction s as [|a s (x & l & IH)]; simpl; [eauto|]. rewrite IH. case_decide; eauto.
Qed.

Lemma split_join c s : join c (split c s) = s ∧ Forall (λ x, contains_char c x = false) (split c s).
Proof.
  induction s as [|a s [IH1 IH2]]; simpl; [by repeat constructor|].
  destruct (split_cons c s) as (x & l & E). rewrite E in *. destruct (decide (a = c)) as [->|Ha].
  - split; [|by constructor]. change ("" +:+ String c (join c (x :: l)) = String c s). by rewrite IH1.
  - apply Forall_cons in IH2 as [Hx Hl]. split; [destruct l; simpl in *; by rewrite <-IH1|]. constructor; [|done]. simpl. by rewrite decide_False.
Qed.

Lemma split_nosep c x : contains_char c x = false → split c x = [x].
Proof.
  induction x as [|a x IH]; simpl; [done|]. case_decide; [done|]. intros Hx. by rewrite IH.
Qed.

Lemma split_app c x s : contains_char c x = false → split c (x +:+ String c s) = x :: split c s.
Proof.
  induction x as [|a x IH]; intros Hx.
  - change ("" +:+ String c s) with (String c s). simpl. destruct (split_cons c s) as (y & l & ->). by rewrite decide_True.
  - rewrite string_app_cons. simpl in Hx |- *. case_decide; [done|]. rewrite IH by done. done.
Qed.

Lemma join_split c l : l ≠ [] → Forall (λ x, contains_char c x = false) l → split c (join c l) = l.
Proof.
  intros Hl. induction 1 as [|x l Hx Hall IH]; [done|]. destruct l as [|y l]; [by apply split_nosep|].
  change (join c (x :: y :: l)) with (x +:+ String c (join c (y :: l))). rewrite split_app by done. by rewrite IH.
Qed.

End Str.

(** ** Iteration order of hash containers

    [HashMap] and [HashSet] iterate in an unspecified order. *)
Class HashOrder := {
  set_iter : ∀ {K} `{Countable K}, gset K → list K;
  map_iter : ∀ {K} `{Countable K} {V}, gmap K V → list (K * V);
  set_iter_perm : ∀ K `{Countable K} (X : gset K), set_iter X ≡ₚ elements X;
  map_iter_perm : ∀ K `{Countable K} V (m : gmap K V), map_iter m ≡ₚ map_to_list m;
}.

Section hash_order.
Context {HO : HashOrder} `{Countable K} {V : Type}.

Lemma map_iter_elem (m : gmap K V) k v : (k, v) ∈ map_iter m ↔ m !! k = Some v.
Proof. by rewrite map_iter_perm, elem_of_map_to_list. Qed.

Lemma set_iter_elem (X : gset K) k : k ∈ set_iter X ↔ k ∈ X.
Proof. by rewrite set_iter_perm, elem_of_elements. Qed.

Lemma set_iter_NoDup (X : gset K) : NoDup (set_iter X).
Proof. rewrite set_iter_perm. apply NoDup_elements. Qed.

Lemma map_iter_keys_NoDup (m : gmap K V) : NoDup (map_iter m).*1.
Proof. rewrite map_iter_perm. apply NoDup_fst_map_to_list. Qed.
End hash_order.
