(* ===== verification/XdsClient.v ===== *)
(** * The delta-xDS client

    [crates/xds/src/client.rs]: the configuration of the client, the handling
    of a discovery response, the acknowledgements it sends, readiness, and the
    reconnection loop.

    The handlers' common state (the gateway's stores) is an abstract world. A
    handler is an instance of the class [Handler], which states what a store
    promises the client: on admissible updates it returns, and keeps its
    invariant. [prost]'s decoder and [serde_json] are parameters. *)
From stdpp Require Import base gmap strings list.
From Stdlib Require Import ZArith.
From S2P Require Import Prelude RustStd.

Local Open Scope string_scope.
Local Open Scope list_scope.

(** ** Updates and rejections *)

Inductive XdsUpdate (T : Type) :=
| XUpdate (name : string) (resource : T)
| XRemove (name : string).
Arguments XUpdate {T} _ _.
Arguments XRemove {T} _.

Definition update_name {T} (u : XdsUpdate T) : string :=
  match u with XUpdate n _ => n | XRemove n => n end.

Inductive RejectedConfig :=
| RejWarning (name reason : string)
| RejError (name reason : string).

Definition is_reject_error (r : RejectedConfig) : bool :=
  match r with RejError _ _ => true | RejWarning _ _ => false end.

Record RejectedConfigMessage := mkRejMsg { rm_key : string; rm_warn : option string; rm_error : option string }.

Definition rejected_config_message (r : RejectedConfig) : RejectedConfigMessage :=
  match r with
  | RejWarning n reason => mkRejMsg n (Some reason) None
  | RejError n reason => mkRejMsg n None (Some reason)
  end.

(** [handle_single_resource]: every update is handled and the failures are
    collected. *)
Fixpoint handle_each {T St} (handle_one : XdsUpdate T → St → outcome (St * result () string))
    (updates : list (XdsUpdate T)) (s : St) (rejects : list RejectedConfig)
    : outcome (St * list RejectedConfig) :=
  match updates with
  | [] => Ret (s, rejects)
  | u :: us =>
      '(s', r) ← handle_one u s;
      handle_each handle_one us s'
        (match r with Ok _ => rejects | Err e => rejects ++ [RejError (update_name u) e] end)
  end.

Definition result_of_rejects (rejects : list RejectedConfig) : result () (list RejectedConfig) :=
  match rejects with [] => Ok () | _ => Err rejects end.

Definition handle_single_resource {T St} (handle_one : XdsUpdate T → St → outcome (St * result () string))
    (updates : list (XdsUpdate T)) (s : St) : outcome (St * result () (list RejectedConfig)) :=
  '(s', rejects) ← handle_each handle_one updates s [];
  Ret (s', result_of_rejects rejects).

(** ** Handlers *)

Definition payload_ok {T} (P : T → Prop) (u : XdsUpdate T) : Prop :=
  match u with XUpdate _ t => P t | XRemove _ => True end.

(** [Handler<T>] over a state [St]. [h_ok] are the payloads a decoder yields;
    [h_inv n] is the state's invariant with room for [n] more updates (a store
    may bound how much it holds). *)
Class Handler (T St : Type) := {
  h_handle : list (XdsUpdate T) → St → outcome (St * result () (list RejectedConfig));
  h_ok : T → Prop;
  h_inv : nat → St → Prop;
  h_total : ∀ us n s, Forall (payload_ok h_ok) us → h_inv (length us + n)%nat s →
    ∃ s' r, h_handle us s = Ret (s', r) ∧ h_inv n s';
  h_mono : ∀ m n s, (m ≤ n)%nat → h_inv n s → h_inv m s;
}.

(** ** Messages *)

(** A resource with its encoded body, if any. *)
Record ProtoResource := mkProtoResource { pr_name : string; pr_resource : option (list Z) }.

Record DeltaDiscoveryResponse := mkResponse {
  dr_type_url : string;
  dr_nonce : string;
  dr_resources : list ProtoResource;
  dr_removed_resources : list string;
}.

Record Node := mkNode { node_id : string; node_metadata : gmap string string }.

Record DeltaDiscoveryRequest := mkRequest {
  dq_type_url : string;
  dq_node : option Node;
  dq_initial_resource_versions : gmap string string;
  dq_response_nonce : string;
  dq_error_detail : option string;
}.

(** ** The client *)

Section client.
Context {HO : HashOrder} {W : Type}.
(** [serde_json::to_string] of the rejections. *)
Context (to_json : list RejectedConfigMessage → string).

(** A handler of the configuration with the decoder of its resource type;
    [hs_get] and [hs_set] reach its state in the world. *)
Record HandlerSlot := mkSlot {
  hs_T : Type;
  hs_St : Type;
  hs_decode : list Z → result hs_T string;
  hs_handler : Handler hs_T hs_St;
  hs_get : W → hs_St;
  hs_set : hs_St → W → W;
}.

Record Config := mkConfig {
  proxy_metadata : gmap string string;
  handlers : gmap string HandlerSlot;
  initial_requests : list DeltaDiscoveryRequest;
  instance_ip : string;
  pod_name : string;
  pod_namespace : string;
  node_name : string;
}.

Definition config_new (gateway_name namespace : string) (ip pod pod_ns node : string) : Config :=
  mkConfig (<["NAMESPACE" := namespace]> {["GATEWAY_NAME" := gateway_name]}) ∅ [] ip pod pod_ns node.

Definition node (c : Config) : Node :=
  let gw_name := default "" (proxy_metadata c !! "GATEWAY_NAME") in
  let role := pod_namespace c +:+ "~" +:+ gw_name in
  let base := <["role" := role]> (<["NODE_NAME" := node_name c]> (<["INSTANCE_IPS" := instance_ip c]>
                (<["NAMESPACE" := pod_namespace c]> {["NAME" := pod_name c]}))) in
  mkNode ("agentgateway~" +:+ instance_ip c +:+ "~" +:+ pod_name c +:+ "." +:+ pod_namespace c +:+
            "~" +:+ pod_namespace c +:+ ".svc.cluster.local")
    (proxy_metadata c ∪ base).

Definition construct_initial_request (c : Config) (request_type : string) : DeltaDiscoveryRequest :=
  mkRequest request_type (Some (node c)) ∅ "" None.

Definition with_watched_handler (type_url : string) (h : HandlerSlot) (c : Config) : Config :=
  mkConfig (proxy_metadata c) (<[type_url := h]> (handlers c))
    (initial_requests c ++ [construct_initial_request c type_url])
    (instance_ip c) (pod_name c) (pod_namespace c) (node_name c).

Record AdsClient := mkAdsClient {
  config : Config;
  known_resources : gmap string (gset string);
  block_ready : bool;               (* the readiness sender is still held *)
  connection_id : Z;
  types_to_expect : gset string;
}.

Definition ads_new (c : Config) : AdsClient :=
  mkAdsClient c ∅ true 0 (list_to_set (dq_type_url <$> initial_requests c)).

Definition set_known k (c : AdsClient) :=
  mkAdsClient (config c) k (block_ready c) (connection_id c) (types_to_expect c).

(** [decode_proto], with the failure as the rejection it becomes. *)
Definition decode_proto (h : HandlerSlot) (r : ProtoResource) : result (XdsUpdate (hs_T h)) RejectedConfig :=
  match pr_resource r with
  | None => Err (RejError (pr_name r) "XDS payload without resource")
  | Some body =>
      match hs_decode h body with
      | Ok t => Ok (XUpdate (pr_name r) t)
      | Err e => Err (RejError (pr_name r) e)
      end
  end.

Definition ok_part {A E} (r : result A E) : option A := match r with Ok a => Some a | Err _ => None end.
Definition err_part {A E} (r : result A E) : option E := match r with Ok _ => None | Err e => Some e end.

(** [State::add_resource]. *)
Definition add_resource (type_url : string) (k : gmap string (gset string)) (name : string)
    : gmap string (gset string) :=
  <[type_url := {[name]} ∪ default ∅ (k !! type_url)]> k.

Definition drop_resource (type_url : string) (k : gmap string (gset string)) (name : string)
    : gmap string (gset string) :=
  alter (λ X, X ∖ {[name]}) type_url k.

Definition track (res : DeltaDiscoveryResponse) (k : gmap string (gset string)) : gmap string (gset string) :=
  foldl (add_resource (dr_type_url res)) (foldl (drop_resource (dr_type_url res)) k (dr_removed_resources res))
    (pr_name <$> dr_resources res).

(** [HandlerWrapper::handle]: the resources that decode, then the removals, go
    to the handler; failures of both kinds are reported together. *)
Definition handle_response (h : HandlerSlot) (res : DeltaDiscoveryResponse) (w : W) (c : AdsClient)
    : outcome (W * AdsClient * result () (list RejectedConfig)) :=
  let decoded := decode_proto h <$> dr_resources res in
  let updates := omap ok_part decoded ++ (XRemove <$> dr_removed_resources res) in
  '(st, r) ← h_handle (Handler := hs_handler h) updates (hs_get h w);
  let decode_failures := omap err_part decoded in
  let c := set_known (track res (known_resources c)) c in
  Ret (hs_set h st w, c,
       match r, decode_failures with
       | Ok _, [] => Ok ()
       | Ok _, _ => Err decode_failures
       | Err rejects, _ => Err (rejects ++ decode_failures)
       end).

(** [handle_stream_event]: the request to send, and whether something was
    rejected as an error. *)
Definition handle_stream_event (res : DeltaDiscoveryResponse) (w : W) (c : AdsClient)
    : outcome (W * AdsClient * (DeltaDiscoveryRequest * bool)) :=
  '(w, c, r) ←
    match handlers (config c) !! dr_type_url res with
    | Some h => handle_response h res w c
    | None => Ret (w, c, Ok ())
    end;
  let '(error, has_errors) :=
    match r with
    | Err rejects => (Some (to_json (rejected_config_message <$> rejects)), existsb is_reject_error rejects)
    | Ok _ => (None, false)
    end in
  Ret (w, c, (mkRequest (dr_type_url res) None ∅ (dr_nonce res) error, has_errors)).

(** One message of [run_internal]'s loop. *)
Definition on_message (res : DeltaDiscoveryResponse) (w : W) (c : AdsClient)
    : outcome (W * AdsClient * DeltaDiscoveryRequest) :=
  let received_type := if bool_decide (types_to_expect c = ∅) then None else Some (dr_type_url res) in
  r ← handle_stream_event res w c;
  let '(w, c, (req, has_errors)) := r : W * AdsClient * (DeltaDiscoveryRequest * bool) in
  let c := match received_type with
           | Some t =>
               if has_errors then c
               else
                 let left : gset string := types_to_expect c ∖ {[t]} in
                 mkAdsClient (config c) (known_resources c)
                   (if bool_decide (left = ∅) then false else block_ready c) (connection_id c) left
           | None => c
           end in
  Ret (w, c, req).

(** The requests a connection opens with. *)
Definition opening_requests (c : AdsClient) : list DeltaDiscoveryRequest :=
  (λ r, mkRequest (dq_type_url r) (dq_node r)
          (set_to_map (λ n, (n, "")) (default ∅ (known_resources c !! dq_type_url r)))
          (dq_response_nonce r) (dq_error_detail r)) <$> initial_requests (config c).

(** gRPC statuses, by code and message. *)
Inductive Code := Cancelled | DeadlineExceeded | Unavailable | OtherCode.

Inductive XdsError :=
| EConnection
| ETransport
| EGrpcStatus (code : Code) (message : string)
| ERequestFailure.

(** The messages of a connection, with the answers in the order they are queued
    (they are sent concurrently with the messages that follow). *)
Fixpoint on_messages (msgs : list DeltaDiscoveryResponse) (w : W) (c : AdsClient)
    (sent : list DeltaDiscoveryRequest) : outcome (W * AdsClient * list DeltaDiscoveryRequest) :=
  match msgs with
  | [] => Ret (w, c, sent)
  | m :: ms => '(w, c, req) ← on_message m w c; on_messages ms w c (sent ++ [req])
  end.

(** [run_internal]: a failure to connect, or a stream of messages and how it
    ends. *)
Record Connection := mkConnection {
  cn_connected : bool;
  cn_messages : list DeltaDiscoveryResponse;
  cn_end : result () XdsError;
}.

Definition run_internal (cn : Connection) (w : W) (c : AdsClient)
    : outcome (W * AdsClient * list DeltaDiscoveryRequest * result () XdsError) :=
  let sent := opening_requests c in
  if negb (cn_connected cn) then Ret (w, c, sent, Err EConnection)
  else '(w, c, sent) ← on_messages (cn_messages cn) w c sent; Ret (w, c, sent, cn_end cn).

(** Milliseconds. *)
Definition INITIAL_BACKOFF : Z := 10.
Definition MAX_BACKOFF : Z := 15000.

(** The backoff [run_loop] returns, having slept for it or not. *)
Definition next_backoff (r : result () XdsError) (backoff : Z) : Z :=
  match r with
  | Err EConnection | Err ETransport => Z.min MAX_BACKOFF (backoff * 2)
  | Err (EGrpcStatus code message) =>
      if match code with
         | Cancelled | DeadlineExceeded => true
         | Unavailable => Str.contains "transport is closing" message
                          || Str.contains "received prior goaway" message
         | OtherCode => false
         end
      then INITIAL_BACKOFF
      else Z.min MAX_BACKOFF (backoff * 2)
  | Err ERequestFailure => INITIAL_BACKOFF
  | Ok _ => INITIAL_BACKOFF
  end.

Definition next_connection (c : AdsClient) : AdsClient :=
  mkAdsClient (config c) (known_resources c) (block_ready c) ((connection_id c + 1) mod 2 ^ 32)
    (types_to_expect c).

(** [run], over the connections it makes. *)
Fixpoint ads_run (cns : list Connection) (backoff : Z) (w : W) (c : AdsClient)
    : outcome (W * AdsClient * list (list DeltaDiscoveryRequest) * Z) :=
  match cns with
  | [] => Ret (w, c, [], backoff)
  | cn :: cns' =>
      let c := next_connection c in
      '(w, c, sent, r) ← run_internal cn w c;
      '(w, c, rest, b) ← ads_run cns' (next_backoff r backoff) w c;
      Ret (w, c, sent :: rest, b)
  end.
End client.
