(* ===== verification/XdsFacts.v ===== *)
(** * Correctness of the delta-xDS client

    Against the [Handler] interface: the client never panics and keeps the
    handlers' invariants, answers every response once, tracks exactly the
    resources the server last sent, resumes them on reconnection, and signals
    readiness exactly when every watched type has been accepted. *)
From stdpp Require Import base gmap strings list.
From Stdlib Require Import ZArith.
From S2P Require Import Prelude RustStd XdsClient.

Local Open Scope list_scope.

(** Handling updates one by one keeps an invariant that bounds each step. *)
Lemma handle_each_inv {T St} (f : XdsUpdate T → St → outcome (St * result () string)) (P : T → Prop) (I : nat → St → Prop) us n s rej :
  (∀ u n s, payload_ok P u → I (S n) s → ∃ s' r, f u s = Ret (s', r) ∧ I n s') →
  Forall (payload_ok P) us → I (length us + n) s →
  ∃ s' rej', handle_each f us s rej = Ret (s', rej') ∧ I n s'.
Proof.
  intros Hf Hus. revert s rej. induction Hus as [|u us Hu _ IH]; intros s rej Hs; simpl; [eauto|].
  destruct (Hf u (length us + n) s Hu Hs) as (s' & r & -> & Hs'). simpl. by apply IH.
Qed.

Section client_facts.
Context {HO : HashOrder} {W : Type} (to_json : list RejectedConfigMessage → string).
Local Abbreviation Config := (Config (W := W)).
Local Abbreviation AdsClient := (AdsClient (W := W)).
Implicit Types (w : W) (c : AdsClient) (res : DeltaDiscoveryResponse).

(** How much a response can ask of a handler. *)
Definition cost res : nat := length (dr_resources res) + length (dr_removed_resources res).
Definition total_cost (msgs : list DeltaDiscoveryResponse) : nat := sum_list (cost <$> msgs).

(** An invariant of the world all the handlers of a configuration keep. *)
Record world_ok (cfg : Config) (arrives : list Z → Prop) (winv : nat → W → Prop) : Prop := mkWorldOk {
  wo_decode : ∀ t h body x, handlers cfg !! t = Some h → arrives body → hs_decode h body = Ok x → h_ok (Handler := hs_handler h) x;
  wo_get : ∀ t h n w, handlers cfg !! t = Some h → winv n w → h_inv (Handler := hs_handler h) n (hs_get h w);
  wo_set : ∀ t h m n w st, handlers cfg !! t = Some h → m ≤ n → winv n w →
    h_inv (Handler := hs_handler h) m st → winv m (hs_set h st w);
  wo_mono : ∀ m n w, m ≤ n → winv n w → winv m w;
}.

Section run.
Context (cfg : Config) (arrives : list Z → Prop) (winv : nat → W → Prop) (Hworld : world_ok cfg arrives winv).

(** The bodies of a response are among those that may arrive. *)
Definition bodies_arrive (res : DeltaDiscoveryResponse) : Prop :=
  ∀ p body, p ∈ dr_resources res → pr_resource p = Some body → arrives body.

(** The rejections of a response: those of the handler, then those of the
    decoder. *)
Definition answers res (q : DeltaDiscoveryRequest) : Prop :=
  dq_type_url q = dr_type_url res ∧ dq_response_nonce q = dr_nonce res ∧ dq_node q = None ∧
  dq_initial_resource_versions q = ∅.

Definition tracked res (k : gmap string (gset string)) : gmap string (gset string) :=
  match handlers cfg !! dr_type_url res with Some _ => track res k | None => k end.

Lemma omap_ok_length {A B E} (f : A → result B E) l : length (omap ok_part (f <$> l)) ≤ length l.
Proof. induction l as [|a l IH]; csimpl; [done|]. destruct (f a); csimpl; lia. Qed.

Lemma handle_response_total h res n w c :
  handlers cfg !! dr_type_url res = Some h → bodies_arrive res → winv (cost res + n) w →
  ∃ w' r, handle_response h res w c = Ret (w', set_known (track res (known_resources c)) c, r) ∧ winv n w'.
Proof.
  intros Hh Hres Hw. unfold handle_response. set (us := omap _ _ ++ _).
  assert (length us ≤ cost res) as Hlen.
  { unfold us, cost. rewrite length_app, length_fmap. pose proof (omap_ok_length (decode_proto h) (dr_resources res)). lia. }
  destruct (h_total (Handler := hs_handler h) us n (hs_get h w)) as (st & r & -> & Hst).
  - apply Forall_app. split; [|by apply Forall_fmap, Forall_true].
    apply Forall_forall. intros u (d & (p & -> & Hp)%list_elem_of_fmap & Hd)%list_elem_of_omap.
    unfold decode_proto in Hd. destruct (pr_resource p) as [body|] eqn:Eb; [|done].
    destruct (hs_decode h body) eqn:E; [|done]. injection Hd as <-. eapply wo_decode; eauto.
  - eapply wo_get; [done..|]. eapply wo_mono; [done| |exact Hw]. lia.
  - simpl. eexists _, _; split; [done|]. eapply wo_set; [done..| |exact Hw|done]. lia.
Qed.

Lemma handle_stream_event_total res n w c :
  config c = cfg → bodies_arrive res → winv (cost res + n) w →
  ∃ w' q e, handle_stream_event to_json res w c = Ret (w', set_known (tracked res (known_resources c)) c, (q, e)) ∧
    winv n w' ∧ answers res q ∧ (e = true → is_Some (dq_error_detail q)).
Proof.
  intros Hc Hres Hw. unfold handle_stream_event, tracked. rewrite Hc. destruct (handlers cfg !! _) as [h|] eqn:E.
  - destruct (handle_response_total h res n w c E Hres Hw) as (w' & r & -> & Hw'). simpl.
    destruct r as [|rej]; simpl; (eexists _, _, _; split; [done|]; split; [done|]; split; [by split_and!|]);
      [done|]. intros _. by eexists.
  - simpl. eexists w, _, false. split; [by destruct c|]. split; [|split; [by split_and!|done]].
    eapply wo_mono; [done| |exact Hw]. lia.
Qed.

(** The client's own fields after a message, from whether it was rejected. *)
Definition client_after res (e : bool) c : AdsClient :=
  let left := types_to_expect c ∖ {[dr_type_url res]} in
  if bool_decide (types_to_expect c = ∅) || e
  then set_known (tracked res (known_resources c)) c
  else mkAdsClient (config c) (tracked res (known_resources c))
         (if bool_decide (left = ∅) then false else block_ready c) (connection_id c) left.

Lemma on_message_total res n w c :
  config c = cfg → bodies_arrive res → winv (cost res + n) w →
  ∃ w' q e, on_message to_json res w c = Ret (w', client_after res e c, q) ∧
    (∃ c', handle_stream_event to_json res w c = Ret (w', c', (q, e))) ∧
    winv n w' ∧ answers res q ∧ (e = true → is_Some (dq_error_detail q)).
Proof.
  intros Hc Hres Hw. destruct (handle_stream_event_total res n w c Hc Hres Hw) as (w' & q & e & He & Hw' & Ha & Herr).
  exists w', q, e. split; [|eauto]. unfold on_message, client_after. rewrite He. simpl.
  destruct (bool_decide (types_to_expect c = ∅)); simpl; [done|]. by destruct e.
Qed.

(** Whether each message of a stream was rejected as an error. *)
Fixpoint verdicts (msgs : list DeltaDiscoveryResponse) w c : list bool :=
  match msgs with
  | [] => []
  | m :: ms =>
      match handle_stream_event to_json m w c, on_message to_json m w c with
      | Ret (_, _, (_, e)), Ret (w', c', _) => e :: verdicts ms w' c'
      | _, _ => []
      end
  end.

Definition cn_received (cn : Connection) : list DeltaDiscoveryResponse :=
  if cn_connected cn then cn_messages cn else [].

Fixpoint run_verdicts (cns : list Connection) w c : list bool :=
  match cns with
  | [] => []
  | cn :: cns' =>
      verdicts (cn_received cn) w (next_connection c) ++
      match run_internal to_json cn w (next_connection c) with
      | Ret (w', c', _, _) => run_verdicts cns' w' c'
      | Panic => []
      end
  end.

(** How readiness evolves: a type is crossed out by its first response without
    errors. *)
Definition ready_step (Tb : gset string * bool) (me : DeltaDiscoveryResponse * bool) : gset string * bool :=
  let '(T, b) := Tb in
  let left := T ∖ {[dr_type_url me.1]} in
  if bool_decide (T = ∅) || me.2 then (T, b) else (left, if bool_decide (left = ∅) then false else b).

(** The client after messages with these verdicts. *)
Definition advanced (mes : list (DeltaDiscoveryResponse * bool)) c c' : Prop :=
  config c' = config c ∧
  known_resources c' = foldl (λ k m, tracked m k) (known_resources c) mes.*1 ∧
  (types_to_expect c', block_ready c') = foldl ready_step (types_to_expect c, block_ready c) mes.

Lemma advanced_one m e c : config c = cfg → advanced [(m, e)] c (client_after m e c).
Proof.
  intros Hc. unfold client_after, advanced, ready_step. simpl. by destruct (_ || e).
Qed.

Lemma advanced_app l l' c c1 c2 : advanced l c c1 → advanced l' c1 c2 → advanced (l ++ l') c c2.
Proof.
  intros (H1 & H2 & H3) (H4 & H5 & H6). unfold advanced. rewrite fmap_app, !foldl_app, <-H2, <-H3. split_and!; congruence.
Qed.

Lemma on_messages_total msgs n w c sent :
  config c = cfg → Forall bodies_arrive msgs → winv (total_cost msgs + n) w →
  ∃ w' c' qs, on_messages to_json msgs w c sent = Ret (w', c', sent ++ qs) ∧ winv n w' ∧
    Forall2 answers msgs qs ∧ length (verdicts msgs w c) = length msgs ∧
    advanced (zip msgs (verdicts msgs w c)) c c'.
Proof.
  revert w c sent. induction msgs as [|m ms IH]; intros w c sent Hc Hms Hw; simpl.
  { exists w, c, []. rewrite app_nil_r. split_and!; try done. }
  apply Forall_cons in Hms as [Hm Hms].
  destruct (on_message_total m (total_cost ms + n) w c Hc Hm) as (w1 & q & e & Hon & [c1 He] & Hw1 & Ha & _).
  { unfold total_cost in *. simpl in Hw. by rewrite Nat.add_assoc. }
  rewrite Hon, He. simpl. pose proof (advanced_one m e c Hc) as Hadv.
  destruct (IH w1 (client_after m e c) (sent ++ [q])) as (w' & c' & qs & -> & Hw' & Hqs & Hlen & Hadv'); [|done|done|].
  { destruct Hadv as (-> & _). done. }
  exists w', c', (q :: qs). rewrite <-app_assoc. split_and!; [done..|by constructor|simpl; lia|].
  by apply (advanced_app [(m, e)] _ _ _ _ Hadv Hadv').
Qed.

(** What a connection sends: the opening requests, then one answer per
    message. *)
Definition conversation (cn : Connection) (sent : list DeltaDiscoveryRequest) : Prop :=
  ∃ c qs, config c = cfg ∧ sent = opening_requests c ++ qs ∧ Forall2 answers (cn_received cn) qs.

Definition run_messages (cns : list Connection) : list DeltaDiscoveryResponse := cns ≫= cn_received.

Lemma total_cost_app l l' : total_cost (l ++ l') = total_cost l + total_cost l'.
Proof. unfold total_cost. rewrite fmap_app. induction (cost <$> l); simpl; lia. Qed.

Lemma next_backoff_bounds r b :
  (INITIAL_BACKOFF ≤ b ≤ MAX_BACKOFF)%Z → (INITIAL_BACKOFF ≤ next_backoff r b ≤ MAX_BACKOFF)%Z.
Proof. unfold next_backoff, INITIAL_BACKOFF, MAX_BACKOFF. intros Hb. split_matches; lia. Qed.

Lemma ads_run_total cns b0 n w c :
  config c = cfg → Forall bodies_arrive (run_messages cns) → winv (total_cost (run_messages cns) + n) w → (INITIAL_BACKOFF ≤ b0 ≤ MAX_BACKOFF)%Z →
  ∃ w' c' sents b, ads_run to_json cns b0 w c = Ret (w', c', sents, b) ∧ winv n w' ∧
    (INITIAL_BACKOFF ≤ b ≤ MAX_BACKOFF)%Z ∧ Forall2 conversation cns sents ∧
    length (run_verdicts cns w c) = length (run_messages cns) ∧
    advanced (zip (run_messages cns) (run_verdicts cns w c)) c c'.
Proof.
  revert b0 w c. induction cns as [|cn cns IH]; intros b0 w c Hc Hms Hw Hb; simpl.
  { eexists w, c, [], b0. split_and!; try done; try lia. }
  change (run_messages (cn :: cns)) with (cn_received cn ++ run_messages cns) in *.
  set (c0 := next_connection c). rewrite total_cost_app, <-Nat.add_assoc in Hw.
  apply Forall_app in Hms as [Hms Hms'].
  destruct (on_messages_total (cn_received cn) _ w c0 (opening_requests c0) Hc Hms Hw)
    as (w1 & c1 & qs & Hon & Hw1 & Hqs & Hlen & Hadv).
  assert (∃ r, run_internal to_json cn w c0 = Ret (w1, c1, opening_requests c0 ++ qs, r)) as [r Hrun].
  { unfold run_internal, cn_received in *. destruct (cn_connected cn); simpl in *.
    - rewrite Hon. simpl. eauto.
    - injection Hon as <- <- Hq. rewrite <-(app_nil_r (opening_requests c0)) in Hq at 1. apply app_inv_head in Hq as <-.
      rewrite app_nil_r. eauto. }
  rewrite Hrun. simpl. pose proof Hadv as (Hc1 & _).
  destruct (IH (next_backoff r b0) w1 c1) as (w' & c' & sents & b & -> & Hw' & Hb' & Hconv & Hlen' & Hadv').
  { by rewrite Hc1. } { done. } { done. } { by apply next_backoff_bounds. }
  simpl. eexists _, _, _, _. split_and!; try done; try lia.
  - constructor; [|done]. exists c0, qs. by split_and!.
  - rewrite !length_app. lia.
  - rewrite zip_with_app by lia. by apply (advanced_app _ _ _ c1).
Qed.

End run.

(** The bodies that the responses of some connections carry. *)
Definition received (cns : list Connection) (body : list Z) : Prop :=
  ∃ res p, res ∈ run_messages cns ∧ p ∈ dr_resources res ∧ pr_resource p = Some body.

Lemma received_arrive cns : Forall (bodies_arrive (received cns)) (run_messages cns).
Proof. apply Forall_forall. intros res Hres p body Hp Hb. by exists res, p. Qed.

(** ** Readiness *)

(** The types some response of which was accepted. *)
Definition accepted (mes : list (DeltaDiscoveryResponse * bool)) : gset string :=
  list_to_set (omap (λ me : DeltaDiscoveryResponse * bool, if me.2 then None else Some (dr_type_url me.1)) mes).

Lemma ready_fold mes (T : gset string) b :
  (b = false ↔ T = ∅) →
  let '(T', b') := foldl ready_step (T, b) mes in T' = T ∖ accepted mes ∧ (b' = false ↔ T' = ∅).
Proof.
  revert T b. induction mes as [|[m e] mes IH]; intros T b Hb; [simpl; split; [set_solver|done]|].
  change (foldl ready_step (T, b) ((m, e) :: mes)) with (foldl ready_step (ready_step (T, b) (m, e)) mes).
  assert (∃ T1 b1, ready_step (T, b) (m, e) = (T1, b1) ∧ (b1 = false ↔ T1 = ∅) ∧
    T1 = if e then T else T ∖ {[dr_type_url m]}) as (T1 & b1 & -> & Hb1 & HT1).
  { unfold ready_step. simpl. case_bool_decide as HT; simpl.
    - exists T, b. split_and!; try done. destruct e; set_solver.
    - destruct e; [by eexists _, _|]. eexists _, _. split; [done|]. split; [|done]. case_bool_decide; naive_solver. }
  specialize (IH T1 b1 Hb1). destruct (foldl ready_step (T1, b1) mes) as [T' b']. destruct IH as [-> Hb'].
  split; [|done]. unfold accepted. csimpl. destruct e; csimpl; set_solver.
Qed.

(** ** Known resources *)

(** What a response says of a resource. *)
Definition mention (name : string) res : option bool :=
  if decide (name ∈ pr_name <$> dr_resources res) then Some true
  else if decide (name ∈ dr_removed_resources res) then Some false else None.

(** What the last response of a type to name the resource says. *)
Definition last_mention (t name : string) (msgs : list DeltaDiscoveryResponse) : option bool :=
  foldl (λ acc m, if decide (dr_type_url m = t) then option_or (mention name m) acc else acc) None msgs.

Lemma foldl_drop t ks (k : gmap string (gset string)) t' name :
  name ∈ default ∅ (foldl (drop_resource t) k ks !! t') ↔ name ∈ default ∅ (k !! t') ∧ ¬ (t' = t ∧ name ∈ ks).
Proof.
  revert k. induction ks as [|x ks IH]; intros k; simpl; [set_solver|]. rewrite IH. clear IH. unfold drop_resource.
  destruct (decide (t' = t)) as [->|Hne].
  - rewrite lookup_alter_eq. destruct (k !! t); simpl; set_solver.
  - rewrite lookup_alter_ne by done. set_solver.
Qed.

Lemma foldl_add t ks (k : gmap string (gset string)) t' name :
  name ∈ default ∅ (foldl (add_resource t) k ks !! t') ↔ name ∈ default ∅ (k !! t') ∨ (t' = t ∧ name ∈ ks).
Proof.
  revert k. induction ks as [|x ks IH]; intros k; simpl; [set_solver|]. rewrite IH. clear IH. unfold add_resource.
  destruct (decide (t' = t)) as [->|Hne].
  - rewrite lookup_insert_eq. simpl. set_solver.
  - rewrite lookup_insert_ne by done. set_solver.
Qed.

Lemma track_mention res k t name :
  name ∈ default ∅ (track res k !! t) ↔
  match (if decide (dr_type_url res = t) then mention name res else None) with
  | Some b => b = true
  | None => name ∈ default ∅ (k !! t)
  end.
Proof.
  unfold track. rewrite foldl_add, foldl_drop. unfold mention. repeat case_decide; naive_solver.
Qed.

Lemma known_fold (cfg : Config) t name msgs k :
  is_Some (handlers cfg !! t) →
  name ∈ default ∅ (foldl (λ k m, tracked cfg m k) k msgs !! t) ↔
  match last_mention t name msgs with Some b => b = true | None => name ∈ default ∅ (k !! t) end.
Proof.
  intros [h Hh]. induction msgs as [|m msgs IH] using rev_ind; [done|]. unfold last_mention in *.
  rewrite !foldl_app. simpl. unfold tracked at 1. destruct (decide (dr_type_url m = t)) as [<-|Hne].
  - rewrite Hh, track_mention, decide_True by done. destruct (mention name m) as [b|]; simpl; [done|exact IH].
  - destruct (handlers cfg !! dr_type_url m); [|exact IH]. rewrite track_mention, decide_False by done. exact IH.
Qed.

(** C19. Over any sequence of connections, the delta-xDS client returns without
    a panic as long as no handler panics on what arrives (each keeps the
    interface [Handler], and what its decoder makes of the bodies received is
    such that it promises to handle it); and the next
    connection opens, for every watched type, with a request that lists as
    already known exactly the resources that the last response naming them sent
    rather than removed. *)
Theorem client_resumes cfg winv cns n w :
  world_ok cfg (received cns) winv → winv (total_cost (run_messages cns) + n) w →
  (∀ q, q ∈ initial_requests cfg → is_Some (handlers cfg !! dq_type_url q)) →
  ∃ w' c' sents b, ads_run to_json cns INITIAL_BACKOFF w (ads_new cfg) = Ret (w', c', sents, b) ∧ winv n w' ∧
    Forall2 (λ q0 q, dq_type_url q = dq_type_url q0 ∧ dq_node q = dq_node q0 ∧
      ∀ name, dq_initial_resource_versions q !! name =
        if decide (last_mention (dq_type_url q0) name (run_messages cns) = Some true) then Some ""%string else None)
      (initial_requests cfg) (opening_requests c').
Proof.
  intros Hworld Hw Hinit. destruct (ads_run_total cfg (received cns) winv Hworld cns INITIAL_BACKOFF n w (ads_new cfg))
    as (w' & c' & sents & b & Hrun & Hw' & _ & _ & Hlen & Hcfg & Hk & _); [done|apply received_arrive|done|by vm_compute|].
  exists w', c', sents, b. split; [done|]. split; [done|]. unfold opening_requests. rewrite Hcfg. simpl.
  apply Forall2_fmap_r, Forall_Forall2_diag, Forall_forall. intros q0 Hq0. simpl. split_and!; [done..|].
  intros name. rewrite fst_zip in Hk by lia. apply option_eq. intros v.
  rewrite lookup_set_to_map by done. setoid_rewrite Hk. setoid_rewrite (λ x, known_fold cfg (dq_type_url q0) x (run_messages cns) ∅ (Hinit q0 Hq0)). simpl.
  rewrite lookup_empty. split.
  - intros (x & Hx & [= -> <-]). rewrite decide_True; [done|]. destruct (last_mention _ _ _) as [[]|]; try done.
  - case_decide as Hl; [|done]. intros [= <-]. exists name. by rewrite Hl.
Qed.

(** The client signals readiness exactly when every type it watches has
    had a response that was not rejected as an error, over however many
    connections that takes; rejected responses leave it waiting, and once
    signalled it stays so. *)
Theorem client_ready_iff cfg winv cns n w :
  world_ok cfg (received cns) winv → winv (total_cost (run_messages cns) + n) w → initial_requests cfg ≠ [] →
  ∃ w' c' sents b, ads_run to_json cns INITIAL_BACKOFF w (ads_new cfg) = Ret (w', c', sents, b) ∧
    (block_ready c' = false ↔
     ∀ q, q ∈ initial_requests cfg →
       dq_type_url q ∈ accepted (zip (run_messages cns) (run_verdicts cns w (ads_new cfg)))).
Proof.
  intros Hworld Hw Hinit. destruct (ads_run_total cfg (received cns) winv Hworld cns INITIAL_BACKOFF n w (ads_new cfg))
    as (w' & c' & sents & b & Hrun & Hw' & _ & _ & Hlen & Hcfg & Hk & Hr); [done|apply received_arrive|done|by vm_compute|].
  exists w', c', sents, b. split; [done|].
  pose proof (ready_fold (zip (run_messages cns) (run_verdicts cns w (ads_new cfg))) (types_to_expect (ads_new cfg)) true) as Hf.
  simpl in Hr, Hf. rewrite <-Hr in Hf. destruct Hf as [HT Hb].
  { split; [done|]. intros E. destruct (initial_requests cfg); [done|]. csimpl in E. set_solver. }
  rewrite Hb, HT. split; [|set_solver].
  intros He q Hq. assert (dq_type_url q ∈ (list_to_set (dq_type_url <$> initial_requests cfg) : gset string)) by set_solver.
  set_solver.
Qed.
End client_facts.
