(* ===== verification/Authorization.v ===== *)
(** * Authorization rules

    [http/authorization.rs] ([PolicySet], [RuleSet], [RuleSets::validate] and
    the rule-list decoder), the three sets built on it
    ([HTTPAuthorizationSet], [NetworkAuthorizationSet] and
    [mcp/rbac.rs]'s [McpAuthorizationSet]) and the boolean evaluation of a
    CEL expression they share ([Executor::eval_bool] of [cel/types.rs]).

    The type of compiled CEL expressions and their evaluation are
    parameters: every theorem holds for any evaluator. *)
From stdpp Require Import base list strings gmap.
From S2P Require Import Prelude.

Section authorization.
Context {Expression Value EvalError : Type}.

Record PolicySet := mkPolicySet {
  allow : list Expression;
  deny : list Expression;
  require : list Expression;
}.

Record RuleSet := mkRuleSet { rules : PolicySet }.

(** [RuleSets(Vec<RuleSet>)]. *)
Definition RuleSets := list RuleSet.

(** An executor evaluates an expression to a value or an error. *)
Record Executor := mkExecutor {
  eval : Expression → result Value EvalError;
  as_bool : Value → result bool EvalError;
}.

(** [Executor::eval_bool]: a failed evaluation or a non-boolean value counts
    as [false]. *)
Definition eval_bool (exec : Executor) (e : Expression) : bool :=
  match eval exec e with
  | Ok v => match as_bool exec v with Ok b => b | Err _ => false end
  | Err _ => false
  end.

Definition is_nil {A} (l : list A) : bool :=
  match l with [] => true | _ => false end.

Definition has_rules (r : RuleSet) : bool :=
  negb (is_nil (allow (rules r))) || negb (is_nil (deny (rules r)))
  || negb (is_nil (require (rules r))).

Definition has_allow_rules (r : RuleSet) : bool := negb (is_nil (allow (rules r))).

Definition denies (r : RuleSet) (exec : Executor) : bool :=
  if is_nil (deny (rules r)) then false
  else existsb (eval_bool exec) (deny (rules r)).

Definition allows (r : RuleSet) (exec : Executor) : bool :=
  if is_nil (allow (rules r)) then false
  else existsb (eval_bool exec) (allow (rules r)).

Definition all_requires_match (r : RuleSet) (exec : Executor) : bool :=
  forallb (eval_bool exec) (require (rules r)).

(** [RuleSets::validate]. *)
Definition validate (rs : RuleSets) (exec : Executor) : bool :=
  if negb (existsb has_rules rs) then true
  else if existsb (λ r, denies r exec) rs then false
  else if existsb (λ r, negb (all_requires_match r exec)) rs then false
  else if existsb (λ r, allows r exec) rs then true
  else negb (existsb has_allow_rules rs).

(** [RuleSets::expressions]: every expression a set mentions. *)
Definition expressions (rs : RuleSets) : list Expression :=
  rs ≫= λ r, allow (rules r) ++ deny (rules r) ++ require (rules r).

(** [HTTPAuthorizationSet::apply] and [NetworkAuthorizationSet::apply]. *)
Inductive AuthError := AuthorizationFailed.

Definition apply_set (rs : RuleSets) (exec : Executor) : result () AuthError :=
  if negb (validate rs exec) then Err AuthorizationFailed else Ok ().

(** [NetworkAuthorizationSet::merge_rule_set]. *)
Definition merge_rule_set (rs : RuleSets) (r : RuleSet) : RuleSets := rs ++ [r].

(** ** Decoding a rule list *)

Inductive RuleTypeSerde :=
| SerdeAllow (s : string)
| SerdeDeny (s : string)
| SerdeRequire (s : string).

Inductive RuleSerde :=
| Object (rule : RuleTypeSerde)
| PlainString (s : string).

(** [de_policies]: compiles each rule into its list, stopping at the first
    expression that does not compile. [new_strict] is
    [cel::Expression::new_strict]. *)
Fixpoint de_policies_loop {E} (new_strict : string → result Expression E)
    (raw : list RuleSerde) (res : PolicySet) : result PolicySet E :=
  match raw with
  | [] => Ok res
  | r :: raw' =>
      match r with
      | Object (SerdeAllow s) | PlainString s =>
          match new_strict s with
          | Ok e => de_policies_loop new_strict raw'
                      (mkPolicySet (allow res ++ [e]) (deny res) (require res))
          | Err err => Err err
          end
      | Object (SerdeDeny s) =>
          match new_strict s with
          | Ok e => de_policies_loop new_strict raw'
                      (mkPolicySet (allow res) (deny res ++ [e]) (require res))
          | Err err => Err err
          end
      | Object (SerdeRequire s) =>
          match new_strict s with
          | Ok e => de_policies_loop new_strict raw'
                      (mkPolicySet (allow res) (deny res) (require res ++ [e]))
          | Err err => Err err
          end
      end
  end.

Definition de_policies {E} (new_strict : string → result Expression E)
    (raw : list RuleSerde) : result PolicySet E :=
  de_policies_loop new_strict raw (mkPolicySet [] [] []).

(** [se_policies]: the map entries written, empty lists left out. *)
Definition se_policies (t : PolicySet) : list (string * list Expression) :=
  (if negb (is_nil (allow t)) then [("allow"%string, allow t)] else []) ++
  (if negb (is_nil (deny t)) then [("deny"%string, deny t)] else []) ++
  (if negb (is_nil (require t)) then [("require"%string, require t)] else []).

(** ** Specification

    What the rule sets mean, said over the set of all rules: nothing denies,
    everything required holds, and something allows unless there is no allow
    rule at all. *)
Definition rule_in (sel : PolicySet → list Expression) (rs : RuleSets) (e : Expression) : Prop :=
  ∃ r, r ∈ rs ∧ e ∈ sel (rules r).

Definition authorized (rs : RuleSets) (exec : Executor) : Prop :=
  (∀ e, rule_in deny rs e → eval_bool exec e = false) ∧
  (∀ e, rule_in require rs e → eval_bool exec e = true) ∧
  ((∃ e, rule_in allow rs e) → ∃ e, rule_in allow rs e ∧ eval_bool exec e = true).

(** ** Lemmas *)

Lemma is_nil_spec {A} (l : list A) : is_nil l = false ↔ ∃ x, x ∈ l.
Proof.
  destruct l as [|x l]; simpl; split; try done.
  - intros [x Hx]. by apply not_elem_of_nil in Hx.
  - intros _. exists x. by left.
Qed.

Lemma existsb_elem {A} (p : A → bool) l : existsb p l = true ↔ ∃ x, x ∈ l ∧ p x = true.
Proof. rewrite existsb_Exists, Exists_exists. done. Qed.

Lemma existsb_elem_false {A} (p : A → bool) l :
  existsb p l = false ↔ ∀ x, x ∈ l → p x = false.
Proof.
  rewrite <-not_true_iff_false, existsb_elem. split.
  - intros H x Hx. destruct (p x) eqn:E; [|done]. destruct H; eauto.
  - intros H (x & Hx & E). rewrite H in E; done.
Qed.

Lemma denies_true r exec : denies r exec = true ↔ ∃ e, e ∈ deny (rules r) ∧ eval_bool exec e = true.
Proof. unfold denies. destruct (deny (rules r)); simpl; [|by rewrite <-existsb_elem].
  split; [done|]. intros (e & He & _). by apply not_elem_of_nil in He. Qed.

Lemma allows_true r exec : allows r exec = true ↔ ∃ e, e ∈ allow (rules r) ∧ eval_bool exec e = true.
Proof. unfold allows. destruct (allow (rules r)); simpl; [|by rewrite <-existsb_elem].
  split; [done|]. intros (e & He & _). by apply not_elem_of_nil in He. Qed.

Lemma all_requires_true r exec :
  all_requires_match r exec = true ↔ ∀ e, e ∈ require (rules r) → eval_bool exec e = true.
Proof. unfold all_requires_match. by rewrite forallb_Forall, Forall_forall. Qed.

Lemma any_denies rs exec :
  existsb (λ r, denies r exec) rs = true ↔ ∃ e, rule_in deny rs e ∧ eval_bool exec e = true.
Proof.
  rewrite existsb_elem. setoid_rewrite denies_true. unfold rule_in. naive_solver.
Qed.

Lemma any_allows rs exec :
  existsb (λ r, allows r exec) rs = true ↔ ∃ e, rule_in allow rs e ∧ eval_bool exec e = true.
Proof.
  rewrite existsb_elem. setoid_rewrite allows_true. unfold rule_in. naive_solver.
Qed.

Lemma any_require_fails rs exec :
  existsb (λ r, negb (all_requires_match r exec)) rs = false ↔
  ∀ e, rule_in require rs e → eval_bool exec e = true.
Proof.
  rewrite existsb_elem_false. setoid_rewrite negb_false_iff.
  setoid_rewrite all_requires_true. unfold rule_in. naive_solver.
Qed.

Lemma any_allow_rules rs : existsb has_allow_rules rs = true ↔ ∃ e, rule_in allow rs e.
Proof.
  rewrite existsb_elem. unfold has_allow_rules. setoid_rewrite negb_true_iff.
  setoid_rewrite is_nil_spec. unfold rule_in. naive_solver.
Qed.

Lemma no_rules_nil rs sel :
  existsb has_rules rs = false → sel = allow ∨ sel = deny ∨ sel = require →
  ∀ e, ¬ rule_in sel rs e.
Proof.
  rewrite existsb_elem_false. intros H Hsel e (r & Hr & He). specialize (H r Hr).
  unfold has_rules in H. to_prop.
  assert (is_nil (sel (rules r)) = false) by (apply is_nil_spec; eauto).
  destruct Hsel as [->|[->| ->]]; congruence.
Qed.

Lemma validate_authorized rs exec : validate rs exec = true ↔ authorized rs exec.
Proof.
  unfold validate, authorized.
  destruct (existsb has_rules rs) eqn:Hany; simpl; [clear Hany|].
  2:{ split; [|done]. intros _. repeat split.
      - intros e He. by destruct (no_rules_nil rs deny Hany (or_intror (or_introl eq_refl)) e).
      - intros e He. by destruct (no_rules_nil rs require Hany (or_intror (or_intror eq_refl)) e).
      - intros [e He]. by destruct (no_rules_nil rs allow Hany (or_introl eq_refl) e). }
  destruct (existsb (λ r, denies r exec) rs) eqn:Hd.
  { split; [done|]. intros (Hn & _). apply any_denies in Hd as (e & He & Ht).
    rewrite Hn in Ht; done. }
  destruct (existsb (λ r, negb (all_requires_match r exec)) rs) eqn:Hr.
  { split; [done|]. intros (_ & Hq & _). apply any_require_fails in Hq. congruence. }
  assert (∀ e, rule_in deny rs e → eval_bool exec e = false).
  { intros e He. destruct (eval_bool exec e) eqn:E; [|done].
    assert (existsb (λ r, denies r exec) rs = true) by (apply any_denies; eauto). congruence. }
  pose proof (proj1 (any_require_fails rs exec) Hr).
  destruct (existsb (λ r, allows r exec) rs) eqn:Ha.
  - apply any_allows in Ha. naive_solver.
  - destruct (existsb has_allow_rules rs) eqn:Hna; simpl; split; try done.
    + intros (_ & _ & Hall). apply any_allow_rules in Hna.
      apply Hall, any_allows in Hna. congruence.
    + intros _. split; [done|]. split; [done|]. intros Hex%any_allow_rules. congruence.
Qed.

Lemma rule_in_ext sel rs1 rs2 :
  (∀ r, r ∈ rs1 ↔ r ∈ rs2) → ∀ e, rule_in sel rs1 e ↔ rule_in sel rs2 e.
Proof. intros H e. unfold rule_in. by setoid_rewrite H. Qed.

Lemma authorized_ext rs1 rs2 exec :
  (∀ r, r ∈ rs1 ↔ r ∈ rs2) → authorized rs1 exec ↔ authorized rs2 exec.
Proof.
  intros H. unfold authorized.
  by setoid_rewrite (rule_in_ext _ _ _ H).
Qed.

(** ** Claims *)

(** C1. [RuleSets::validate] admits a request exactly when no deny rule of any
    set matches, every require rule matches, and some allow rule matches
    unless there are no allow rules at all (with no rules everything is
    admitted). The executor is arbitrary, so a rule that fails to evaluate
    counts as not matching. *)
Theorem validate_spec rs exec : validate rs exec = true ↔ authorized rs exec.
Proof. apply validate_authorized. Qed.

(** The verdict depends only on which rule sets are present: neither
    their order nor their multiplicity matters, so collecting the same policy
    at two levels of the hierarchy (as [Store::route_policies] does for a
    route without a rule name) cannot change a decision. *)
Theorem validate_set_ext rs1 rs2 exec :
  (∀ r, r ∈ rs1 ↔ r ∈ rs2) → validate rs1 exec = validate rs2 exec.
Proof.
  intros H. apply eq_true_iff_eq. rewrite !validate_authorized. by apply authorized_ext.
Qed.

Lemma rule_in_merge sel rs r e :
  rule_in sel (merge_rule_set rs r) e ↔ rule_in sel rs e ∨ e ∈ sel (rules r).
Proof.
  unfold rule_in, merge_rule_set. setoid_rewrite elem_of_app.
  setoid_rewrite list_elem_of_singleton. naive_solver.
Qed.

(** Merging a further rule set never widens access beyond what its allow
    rules grant: if the merged set admits a request that the original set
    refuses, then an allow rule of the added set matched. *)
Theorem merge_rule_set_safe rs r exec :
  validate (merge_rule_set rs r) exec = true → validate rs exec = false →
  ∃ e, e ∈ allow (rules r) ∧ eval_bool exec e = true.
Proof.
  rewrite validate_authorized. intros (Hd & Hq & Ha) Hno.
  destruct (decide (allow (rules r) = [])) as [Hnil|Hne].
  - assert (validate rs exec = true); [|congruence]. apply validate_authorized.
    setoid_rewrite rule_in_merge in Ha. rewrite Hnil in Ha.
    setoid_rewrite elem_of_nil in Ha.
    split; [|split].
    + intros e He. apply Hd, rule_in_merge. by left.
    + intros e He. apply Hq, rule_in_merge. by left.
    + intros [e He]. destruct Ha as (e' & [?|[]] & ?); eauto.
  - destruct (allow (rules r)) as [|e0 l0] eqn:El; [done|]. rewrite <-El.
    destruct Ha as (e & He & Ht).
    { exists e0. apply rule_in_merge. right. rewrite El. by left. }
    apply rule_in_merge in He as [He|He]; [|eauto].
    assert (validate rs exec = true); [|congruence]. apply validate_authorized.
    split; [|split].
    + intros e' He'. apply Hd, rule_in_merge. by left.
    + intros e' He'. apply Hq, rule_in_merge. by left.
    + intros _. eauto.
Qed.

(** Which compiled list a raw rule lands in. *)
Definition serde_source (r : RuleSerde) : string :=
  match r with
  | Object (SerdeAllow s) | Object (SerdeDeny s) | Object (SerdeRequire s)
  | PlainString s => s
  end.

Definition serde_kind (r : RuleSerde) : nat :=
  match r with
  | Object (SerdeAllow _) | PlainString _ => 0
  | Object (SerdeDeny _) => 1
  | Object (SerdeRequire _) => 2
  end.

(** The compiled rules of one kind, in source order. *)
Definition compiled {E} (new_strict : string → result Expression E) (k : nat)
    (raw : list RuleSerde) : list Expression :=
  omap (λ r, if decide (serde_kind r = k) then result_ok (new_strict (serde_source r)) else None) raw.

Lemma de_policies_loop_spec {E} (new_strict : string → result Expression E) raw res :
  de_policies_loop new_strict raw res =
  match find_map (λ r, match new_strict (serde_source r) with Err e => Some e | Ok _ => None end) raw with
  | Some e => Err e
  | None => Ok (mkPolicySet (allow res ++ compiled new_strict 0 raw)
                 (deny res ++ compiled new_strict 1 raw)
                 (require res ++ compiled new_strict 2 raw))
  end.
Proof.
  revert res. induction raw as [|r raw IH]; intros res; simpl.
  { rewrite !app_nil_r. by destruct res. }
  destruct r as [[s|s|s]|s]; simpl; destruct (new_strict s) as [e|err] eqn:E1; simpl; try done;
    rewrite IH; destruct (find_map _ _); try done; simpl; by rewrite <-!app_assoc.
Qed.

(** Decoding a rule list fails with the first expression that does not
    compile and otherwise sorts every rule, in order, into its list; a plain
    string is an allow rule. *)
Theorem de_policies_spec {E} (new_strict : string → result Expression E) raw :
  de_policies new_strict raw =
  match find_map (λ r, match new_strict (serde_source r) with Err e => Some e | Ok _ => None end) raw with
  | Some e => Err e
  | None => Ok (mkPolicySet (compiled new_strict 0 raw) (compiled new_strict 1 raw)
                 (compiled new_strict 2 raw))
  end.
Proof. unfold de_policies. by rewrite de_policies_loop_spec. Qed.
End authorization.

Arguments PolicySet : clear implicits.
Arguments RuleSet : clear implicits.
Arguments RuleSets : clear implicits.
Arguments Executor : clear implicits.

(** ** Witnesses *)

(** An executor over literal booleans: an expression is the value it
    evaluates to, [None] an expression that fails. *)
Definition lit_exec : Executor (option bool) bool () :=
  mkExecutor (λ e, match e with Some b => Ok b | None => Err () end) Ok.

Definition lit_rules (a d q : list (option bool)) : RuleSet (option bool) :=
  mkRuleSet (mkPolicySet a d q).

Lemma validate_set_ext_witness :
  validate [lit_rules [Some true] [] []; lit_rules [] [Some false] []] lit_exec =
  validate [lit_rules [] [Some false] []; lit_rules [Some true] [] [];
            lit_rules [Some true] [] []] lit_exec.
Proof.
  apply validate_set_ext. intros r.
  rewrite !elem_of_cons, elem_of_nil. naive_solver.
Defined.

Lemma merge_rule_set_safe_witness :
  ∃ e, e ∈ [Some true; None] ∧ eval_bool lit_exec e = true.
Proof.
  apply (merge_rule_set_safe [lit_rules [Some false] [] []] (lit_rules [Some true; None] [] []));
    reflexivity.
Defined.
