(* ===== verification/AgentTypes.v ===== *)
(** * Data of the configuration model

    The shared internal representation of [types/agent.rs]: listeners, route
    matches, routes and their hostname patterns, policy targets and the three
    policy families. Payloads of policies that no modelled code looks into
    are the types of the class [Payloads]; the regular-expression engine is
    the class [RegexEngine]. *)
From stdpp Require Import base gmap strings list countable.
From S2P Require Import Prelude RustStd Authorization.

(** ** Third-party code *)

(** The [regex] crate: a compiled expression, its source text, and the
    leftmost match as a byte range. *)
Class RegexEngine := {
  Regex : Type;
  regex_as_str : Regex → string;
  regex_find : Regex → string → option (nat * nat);
}.

(** Compiled CEL expressions. *)
Class CelEngine := { Expression : Type }.

(** [Regex::new], [cel::Expression::new_strict], and the program that
    [new_permissive] puts in the place of one that does not compile. *)
Class Compilers {RE : RegexEngine} {CE : CelEngine} := {
  regex_new : string → result Regex string;
  new_strict : string → result Expression string;
  fail_expression : string → Expression;
}.

(** [Expression::new_permissive]. *)
Definition new_permissive {RE : RegexEngine} {CE : CelEngine} {CO : Compilers} (original : string) : Expression * option string :=
  match new_strict original with
  | Ok e => (e, None)
  | Err err => (fail_expression original, Some err)
  end.

(** Payload types of the policies. *)
Class Payloads := {
  payloads_cel :: CelEngine;
  LocalRateLimitP : Type; RemoteRateLimitP : Type; ExtAuthzP : Type; ExtProcP : Type;
  JwtAuthP : Type; OidcP : Type; BasicAuthP : Type; APIKeyP : Type; TransformationP : Type;
  CsrfP : Type; DirectResponseP : Type; LlmP : Type; TimeoutP : Type; RetryP : Type;
  HeaderModifierP : Type; RequestRedirectP : Type; UrlRewriteP : Type;
  HostRedirectOverrideP : Type; RequestMirrorP : Type; CorsP : Type;
  BackendTLSP : Type; BackendAuthP : Type; A2aP : Type; InferenceRoutingP : Type;
  McpAuthenticationP : Type; BackendHTTPP : Type; BackendTCPP : Type; TunnelP : Type;
  SessionPersistenceP : Type; HealthP : Type;
  FrontendHTTPP : Type; FrontendTLSP : Type; FrontendTCPP : Type; FrontendProxyP : Type;
  LoggingP : Type; AccessLogOtlpP : Type; TracingP : Type; MetricsFieldsP : Type;
  (** [LoggingPolicy::access_log_policy] *)
  logging_access_log_policy : LoggingP → option AccessLogOtlpP;
}.

(** ** Names *)

Record NamespacedHostname := mkNH { nh_namespace : string; nh_hostname : string }.

#[global] Instance NamespacedHostname_eq_dec : EqDecision NamespacedHostname.
Proof. solve_decision. Defined.
#[global] Instance NamespacedHostname_countable : Countable NamespacedHostname.
Proof.
  refine (inj_countable' (λ n, (nh_namespace n, nh_hostname n)) (λ p, mkNH p.1 p.2) _).
  by intros [].
Defined.

Record RouteName := mkRouteName {
  rn_name : string;
  rn_namespace : string;
  rn_rule_name : option string;
  rn_kind : option string;
}.

#[global] Instance RouteName_eq_dec : EqDecision RouteName.
Proof. solve_decision. Defined.

Record ResourceName := mkResourceName { res_name : string; res_namespace : string }.

#[global] Instance ResourceName_eq_dec : EqDecision ResourceName.
Proof. solve_decision. Defined.

Record ListenerName := mkListenerName {
  gateway_name : string;
  gateway_namespace : string;
  listener_name : string;
  listener_set : option ResourceName;
}.

#[global] Instance ListenerName_eq_dec : EqDecision ListenerName.
Proof. solve_decision. Defined.

(** ** Hostname patterns *)

(** [HostnameMatch]; [HostnameMatchRef] is the same data borrowed. *)
Inductive HostnameMatch :=
| HExact (h : string)
| HWildcard (h : string)
| HNone.

#[global] Instance HostnameMatch_eq_dec : EqDecision HostnameMatch.
Proof. solve_decision. Defined.
#[global] Instance HostnameMatch_countable : Countable HostnameMatch.
Proof.
  refine (inj_countable'
    (λ h, match h with HExact s => inl (inl s) | HWildcard s => inl (inr s) | HNone => inr () end)
    (λ p, match p with inl (inl s) => HExact s | inl (inr s) => HWildcard s | inr _ => HNone end) _).
  by intros [].
Defined.

(** ** Policies *)

(** [RequestPolicy] of [store/policy.rs]: none, one, or a list tried in
    order, each with an optional condition. *)
Record PolicyWithCondition `{!Payloads} (T : Type) := mkPWC {
  pol : T;
  condition : option Expression;
}.
Arguments mkPWC {_ T} _ _.
Arguments pol {_ T} _.
Arguments condition {_ T} _.

Inductive RequestPolicy `{!Payloads} (T : Type) :=
| RPEmpty
| RPSingle (p : PolicyWithCondition T)
| RPMultiple (ps : list (PolicyWithCondition T)).
Arguments RPEmpty {_ T}.
Arguments RPSingle {_ T} _.
Arguments RPMultiple {_ T} _.

Inductive TrafficPolicy `{!Payloads} :=
| TPTimeout (p : TimeoutP)
| TPRetry (p : RetryP)
| TPAI (p : LlmP)
| TPAuthorization (p : RuleSet Expression)
| TPLocalRateLimit (p : RequestPolicy LocalRateLimitP)
| TPRemoteRateLimit (p : RequestPolicy RemoteRateLimitP)
| TPExtAuthz (p : RequestPolicy ExtAuthzP)
| TPExtProc (p : RequestPolicy ExtProcP)
| TPJwtAuth (p : RequestPolicy JwtAuthP)
| TPOidc (p : RequestPolicy OidcP)
| TPBasicAuth (p : RequestPolicy BasicAuthP)
| TPAPIKey (p : RequestPolicy APIKeyP)
| TPTransformation (p : RequestPolicy TransformationP)
| TPCsrf (p : RequestPolicy CsrfP)
| TPRequestHeaderModifier (p : RequestPolicy HeaderModifierP)
| TPResponseHeaderModifier (p : HeaderModifierP)
| TPRequestRedirect (p : RequestPolicy RequestRedirectP)
| TPUrlRewrite (p : RequestPolicy UrlRewriteP)
| TPHostRewrite (p : HostRedirectOverrideP)
| TPRequestMirror (p : list RequestMirrorP)
| TPDirectResponse (p : RequestPolicy DirectResponseP)
| TPCORS (p : RequestPolicy CorsP).

Inductive BackendTrafficPolicy `{!Payloads} :=
| BPMcpAuthorization (p : RuleSet Expression)
| BPMcpAuthentication (p : McpAuthenticationP)
| BPA2a (p : A2aP)
| BPHTTP (p : BackendHTTPP)
| BPTCP (p : BackendTCPP)
| BPTunnel (p : TunnelP)
| BPBackendTLS (p : BackendTLSP)
| BPBackendAuth (p : BackendAuthP)
| BPInferenceRouting (p : InferenceRoutingP)
| BPAI (p : LlmP)
| BPExtAuthz (p : ExtAuthzP)
| BPSessionPersistence (p : SessionPersistenceP)
| BPTransformation (p : TransformationP)
| BPHealth (p : HealthP)
| BPRequestHeaderModifier (p : HeaderModifierP)
| BPResponseHeaderModifier (p : HeaderModifierP)
| BPRequestRedirect (p : RequestRedirectP)
| BPRequestMirror (p : list RequestMirrorP).

Inductive FrontendPolicy `{!Payloads} :=
| FPHTTP (p : FrontendHTTPP)
| FPTLS (p : FrontendTLSP)
| FPTCP (p : FrontendTCPP)
| FPNetworkAuthorization (p : RuleSet Expression)
| FPProxy (p : FrontendProxyP)
| FPAccessLog (p : LoggingP)
| FPTracing (p : TracingP)
| FPMetrics (p : MetricsFieldsP).

Inductive PolicyPhase := PhaseRoute | PhaseGateway.

#[global] Instance PolicyPhase_eq_dec : EqDecision PolicyPhase.
Proof. solve_decision. Defined.

Inductive PolicyType `{!Payloads} :=
| PTFrontend (p : FrontendPolicy)
| PTTraffic (phase : PolicyPhase) (p : TrafficPolicy)
| PTBackend (p : BackendTrafficPolicy).

Section policy_type.
Context {PL : Payloads}.

Definition as_traffic_gateway_phase (p : PolicyType) : option TrafficPolicy :=
  match p with
  | PTTraffic ph t => if decide (ph = PhaseGateway) then Some t else None
  | _ => None
  end.

Definition as_traffic_route_phase (p : PolicyType) : option TrafficPolicy :=
  match p with
  | PTTraffic ph t => if decide (ph = PhaseRoute) then Some t else None
  | _ => None
  end.

Definition as_backend (p : PolicyType) : option BackendTrafficPolicy :=
  match p with PTBackend t => Some t | _ => None end.

Definition as_frontend (p : PolicyType) : option FrontendPolicy :=
  match p with PTFrontend t => Some t | _ => None end.
End policy_type.

(** ** Policy targets *)

Inductive BackendTarget :=
| BTBackend (name namespace : string) (section : option string)
| BTService (hostname namespace : string) (port : option Z)
| BTInvalid.

#[global] Instance BackendTarget_eq_dec : EqDecision BackendTarget.
Proof. solve_decision. Defined.
#[global] Instance BackendTarget_countable : Countable BackendTarget.
Proof.
  refine (inj_countable'
    (λ t, match t with
          | BTBackend n ns s => inl (inl (n, ns, s))
          | BTService h ns p => inl (inr (h, ns, p))
          | BTInvalid => inr ()
          end)
    (λ p, match p with
          | inl (inl (n, ns, s)) => BTBackend n ns s
          | inl (inr (h, ns, p)) => BTService h ns p
          | inr _ => BTInvalid
          end) _).
  by intros [].
Defined.

Definition strip_section (t : BackendTarget) : BackendTarget :=
  match t with
  | BTBackend n ns _ => BTBackend n ns None
  | BTService h ns _ => BTService h ns None
  | BTInvalid => BTInvalid
  end.

(** [PolicyTarget]; [PolicyTargetRef] is the same data borrowed, and a lookup
    by reference compares the two field by field. *)
Inductive PolicyTarget :=
| PTGateway (gateway_name gateway_namespace : string) (listener_name : option string)
    (port : option Z)
| PTRoute (name namespace : string) (rule_name kind : option string)
| PTBackendT (b : BackendTarget)
| PTListenerSet (name namespace : string) (section : option string).

#[global] Instance PolicyTarget_eq_dec : EqDecision PolicyTarget.
Proof. solve_decision. Defined.
#[global] Instance PolicyTarget_countable : Countable PolicyTarget.
Proof.
  refine (inj_countable'
    (λ t, match t with
          | PTGateway a b c d => inl (inl (a, b, c, d))
          | PTRoute a b c d => inl (inr (a, b, c, d))
          | PTBackendT b => inr (inl b)
          | PTListenerSet a b c => inr (inr (a, b, c))
          end)
    (λ p, match p with
          | inl (inl (a, b, c, d)) => PTGateway a b c d
          | inl (inr (a, b, c, d)) => PTRoute a b c d
          | inr (inl b) => PTBackendT b
          | inr (inr (a, b, c)) => PTListenerSet a b c
          end) _).
  by intros [].
Defined.

(** [PolicyTarget::validate] ([ListenerTarget::validate] on gateways). *)
Definition policy_target_validate (t : PolicyTarget) : bool :=
  match t with
  | PTGateway _ _ (Some _) (Some _) => false
  | _ => true
  end.

Definition as_route_target_ref (n : RouteName) : PolicyTarget :=
  PTRoute (rn_name n) (rn_namespace n) None (rn_kind n).
Definition as_route_rule_target_ref (n : RouteName) : PolicyTarget :=
  PTRoute (rn_name n) (rn_namespace n) (rn_rule_name n) (rn_kind n).
Definition as_gateway_target_ref (n : ListenerName) : PolicyTarget :=
  PTGateway (gateway_name n) (gateway_namespace n) None None.
Definition as_listener_target_ref (n : ListenerName) : PolicyTarget :=
  PTGateway (gateway_name n) (gateway_namespace n) (Some (listener_name n)) None.
Definition as_listenerset_target_ref (n : ListenerName) : option PolicyTarget :=
  (λ ls, PTListenerSet (res_name ls) (res_namespace ls) None) <$> listener_set n.
Definition as_listenerset_listener_target_ref (n : ListenerName) : option PolicyTarget :=
  (λ ls, PTListenerSet (res_name ls) (res_namespace ls) (Some (listener_name n)))
    <$> listener_set n.
Definition as_policy_target_ref (n : NamespacedHostname) : PolicyTarget :=
  PTBackendT (BTService (nh_hostname n) (nh_namespace n) None).

(** ** Routes *)

Inductive HeaderOrPseudo :=
| HPHeader (name : string)
| HPMethod | HPScheme | HPAuthority | HPPath | HPStatus.

#[global] Instance HeaderOrPseudo_eq_dec : EqDecision HeaderOrPseudo.
Proof. solve_decision. Defined.

(** [IpAddr], [SocketAddr] and [Target]. *)
Inductive IpAddr := V4 (bits : Z) | V6 (bits : Z).
#[global] Instance IpAddr_eq_dec : EqDecision IpAddr.
Proof. solve_decision. Defined.

Record SocketAddr := mkSocketAddr { ip : IpAddr; port : Z }.
#[global] Instance SocketAddr_eq_dec : EqDecision SocketAddr.
Proof. solve_decision. Defined.

Inductive Target :=
| TAddress (a : SocketAddr)
| THostname (host : string) (port : Z)
| TUnixSocket (path : string).

Section routes.
Context {RE : RegexEngine} {PL : Payloads}.

Inductive PathMatch :=
| PExact (p : string)
| PPathPrefix (p : string)
| PRegex (r : Regex)
| PInvalid.

Inductive HeaderValueMatch :=
| HVExact (v : string)
| HVRegex (r : Regex)
| HVInvalid.

Inductive QueryValueMatch :=
| QVExact (v : string)
| QVRegex (r : Regex)
| QVInvalid.

Record HeaderMatch := mkHeaderMatch { hm_name : HeaderOrPseudo; hm_value : HeaderValueMatch }.
Record QueryMatch := mkQueryMatch { qm_name : string; qm_value : QueryValueMatch }.

Record RouteMatch := mkRouteMatch {
  headers : list HeaderMatch;
  path : PathMatch;
  method : option string;
  query : list QueryMatch;
}.

Inductive BackendReference :=
| BRService (name : NamespacedHostname) (port : Z)
| BRBackend (key : string)
| BRInvalid.

Inductive RouteBackendTarget :=
| RBService (name : NamespacedHostname) (port : Z)
| RBBackend (key : string)
| RBRouteGroup (key : string)
| RBInvalid.

(** [From<BackendReference>] and its partial inverse. *)
Definition route_backend_target_of (r : BackendReference) : RouteBackendTarget :=
  match r with
  | BRService n p => RBService n p
  | BRBackend k => RBBackend k
  | BRInvalid => RBInvalid
  end.

Definition as_backend_reference (t : RouteBackendTarget) : option BackendReference :=
  match t with
  | RBService n p => Some (BRService n p)
  | RBBackend k => Some (BRBackend k)
  | RBInvalid => Some BRInvalid
  | RBRouteGroup _ => None
  end.

Record RouteBackendReference := mkRBR {
  rbr_weight : Z;
  rbr_target : RouteBackendTarget;
  rbr_inline_policies : list BackendTrafficPolicy;
}.

Record Route := mkRoute {
  route_key : string;
  route_service_key : option NamespacedHostname;
  route_name : RouteName;
  route_hostnames : list string;
  route_matches : list RouteMatch;
  route_backends : list RouteBackendReference;
  route_inline_policies : list TrafficPolicy;
}.

Inductive SimpleBackendReference :=
| SBRService (name : NamespacedHostname) (port : Z)
| SBRBackend (key : string)
| SBRInlineBackend (t : Target)
| SBRInvalid.

Record TCPRouteBackendReference := mkTRBR {
  trbr_weight : Z;
  trbr_backend : SimpleBackendReference;
  trbr_inline_policies : list BackendTrafficPolicy;
}.

Record TCPRoute := mkTCPRoute {
  tcp_key : string;
  tcp_service_key : option NamespacedHostname;
  tcp_name : RouteName;
  tcp_hostnames : list string;
  tcp_backends : list TCPRouteBackendReference;
}.
End routes.

(** ** Listeners *)

(** The TLS configuration of a listener is opaque here; only its presence
    and equality matter to the modelled code. *)
Inductive ListenerProtocol :=
| LP_HTTP
| LP_HTTPS (tls : positive)
| LP_TLS (tls : option positive)
| LP_TCP
| LP_HBONE.

#[global] Instance ListenerProtocol_eq_dec : EqDecision ListenerProtocol.
Proof. solve_decision. Defined.

Record Listener := mkListener {
  lis_key : string;
  lis_name : ListenerName;
  lis_hostname : string;
  lis_protocol : ListenerProtocol;
}.

#[global] Instance Listener_eq_dec : EqDecision Listener.
Proof. solve_decision. Defined.
