(* ===== verification/RouteSet.v ===== *)
(** * Route sets

    [types/agent.rs]: hostname patterns ([HostnameMatch]), the precedence
    order of route matches ([RouteSet::compare_route]) and the index built on
    it, [RouteSet], with its insertion by binary search, removal and lookup. *)
From stdpp Require Import base gmap strings list sorting.
From Stdlib Require Import Ascii.
From S2P Require Import Prelude RustStd Authorization AgentTypes.

(** ** Hostname patterns *)

(** [HostnameMatch::from(Strng)]: ["*.example.com"] becomes the wildcard
    [example.com]. *)
Definition hostname_match_of (s : string) : HostnameMatch :=
  match Str.strip_prefix "*." s with
  | Some s' => HWildcard s'
  | None => HExact s
  end.

(** The suffixes that follow each ['.'], in order of position
    (the [char_indices] loop of [all_actual_matches]). *)
Fixpoint dot_suffixes (s : string) : list string :=
  match s with
  | EmptyString => []
  | String c s' => if decide (c = "."%char) then s' :: dot_suffixes s' else dot_suffixes s'
  end.

Definition all_actual_matches (hostname : string) : list HostnameMatch :=
  (if Str.starts_with "*." hostname then [] else [HExact hostname])
  ++ (HWildcard <$> dot_suffixes hostname).

Definition all_matches (hostname : string) : list HostnameMatch :=
  all_actual_matches hostname ++ [HNone].

Definition all_matches_or_none (hostname : option string) : list HostnameMatch :=
  match hostname with
  | None => [HNone]
  | Some h => all_matches h
  end.

(** ** Precedence of route matches *)

Section routeset.
Context {RE : RegexEngine} {PL : Payloads}.

Definition get_path_rank (p : PathMatch) : Z :=
  match p with
  | PExact _ => 3
  | PPathPrefix _ => 2
  | PRegex _ => 2
  | PInvalid => 0
  end.

Definition get_path_length (p : PathMatch) : nat :=
  match p with
  | PExact s => String.length s
  | PPathPrefix s => String.length s
  | PRegex r => String.length (regex_as_str r)
  | PInvalid => 0
  end.

Definition is_some {A} (o : option A) : bool := match o with Some _ => true | None => false end.

(** [RouteSet::compare_route]: [Lt] means higher precedence. *)
Definition compare_route (a b : RouteMatch * string) : comparison :=
  let '(am, a_key) := a in
  let '(bm, b_key) := b in
  let path_rank1 := get_path_rank (path am) in
  let path_rank2 := get_path_rank (path bm) in
  if negb (Z.eqb path_rank1 path_rank2) then CompOpp (Z.compare path_rank1 path_rank2)
  else
    let path_len1 := get_path_length (path am) in
    let path_len2 := get_path_length (path bm) in
    if negb (Nat.eqb path_len1 path_len2) then CompOpp (Nat.compare path_len1 path_len2)
    else
      let method1 := is_some (method am) in
      let method2 := is_some (method bm) in
      if negb (Bool.eqb method1 method2) then CompOpp (bool_cmp method1 method2)
      else
        let header_count1 := length (headers am) in
        let header_count2 := length (headers bm) in
        if negb (Nat.eqb header_count1 header_count2)
        then CompOpp (Nat.compare header_count1 header_count2)
        else
          let query_count1 := length (query am) in
          let query_count2 := length (query bm) in
          if negb (Nat.eqb query_count1 query_count2)
          then CompOpp (Nat.compare query_count1 query_count2)
          else String.compare a_key b_key.

(** ** [RouteSet] *)

Record SingleRouteMatch := mkSRM { srm_key : string; srm_index : nat }.

#[global] Instance SingleRouteMatch_eq_dec : EqDecision SingleRouteMatch.
Proof. solve_decision. Defined.

Record RouteSet := mkRouteSet {
  inner : gmap HostnameMatch (list SingleRouteMatch);
  all : gmap string Route;
}.

Definition routeset_empty : RouteSet := mkRouteSet ∅ ∅.

Definition hostname_matchers (hostnames : list string) : list HostnameMatch :=
  match hostnames with
  | [] => [HNone]
  | _ => hostname_match_of <$> hostnames
  end.

Definition route_matchers (r : Route) : list HostnameMatch :=
  hostname_matchers (route_hostnames r).

Definition contains (rs : RouteSet) (key : string) : bool :=
  is_some (all rs !! key).

Definition is_empty (rs : RouteSet) : bool := bool_decide (inner rs = ∅).

(** One round of [remove]'s loop: [and_modify(retain)], then drop the entry
    when it is left empty. *)
Definition remove_entry (key : string) (inn : gmap HostnameMatch (list SingleRouteMatch))
    (hm : HostnameMatch) : gmap HostnameMatch (list SingleRouteMatch) :=
  match inn !! hm with
  | Some v =>
      let v' := filter (λ r, srm_key r ≠ key) v in
      match v' with
      | [] => delete hm inn
      | _ => <[hm := v']> inn
      end
  | None => inn
  end.

Definition remove (rs : RouteSet) (key : string) : RouteSet :=
  match all rs !! key with
  | None => rs
  | Some old_route =>
      mkRouteSet (foldl (remove_entry key) (inner rs) (route_matchers old_route))
                 (delete key (all rs))
  end.

(** The comparator [insert] hands to [binary_search_by]; its two [expect]s
    panic on a stale entry. *)
Definition entry_cmp (al : gmap string Route) (m : RouteMatch) (key : string)
    (existing : SingleRouteMatch) : outcome comparison :=
  have ← expect (al !! srm_key existing);
  have_match ← expect (route_matches have !! srm_index existing);
  Ret (CompOpp (compare_route (m, key) (have_match, srm_key existing))).

(** The loop over a route's matches for one hostname. *)
Fixpoint insert_matches (al : gmap string Route) (key : string) (idx : nat)
    (ms : list RouteMatch) (v : list SingleRouteMatch) : outcome (list SingleRouteMatch) :=
  match ms with
  | [] => Ret v
  | m :: ms' =>
      to_insert ← binary_search_by (entry_cmp al m key) v;
      v' ← vec_insert (search_pos to_insert) (mkSRM key idx) v;
      insert_matches al key (S idx) ms' v'
  end.

Fixpoint insert_hostnames (al : gmap string Route) (r : Route)
    (hms : list HostnameMatch) (inn : gmap HostnameMatch (list SingleRouteMatch))
    : outcome (gmap HostnameMatch (list SingleRouteMatch)) :=
  match hms with
  | [] => Ret inn
  | hm :: hms' =>
      v ← insert_matches al (route_key r) 0 (route_matches r) (default [] (inn !! hm));
      insert_hostnames al r hms' (<[hm := v]> inn)
  end.

Definition insert (rs : RouteSet) (r : Route) : outcome RouteSet :=
  let rs := if contains rs (route_key r) then remove rs (route_key r) else rs in
  let al := <[route_key r := r]> (all rs) in
  inn ← insert_hostnames al r (route_matchers r) (inner rs);
  Ret (mkRouteSet inn al).

Fixpoint insert_all (l : list Route) (rs : RouteSet) : outcome RouteSet :=
  match l with
  | [] => Ret rs
  | r :: l' => rs' ← insert rs r; insert_all l' rs'
  end.

Definition from_list (l : list Route) : outcome RouteSet := insert_all l routeset_empty.

(** [RouteSet::get_hostname]: a lazy iterator; an element panics when forced
    if its match index is stale. *)
Definition get_hostname (rs : RouteSet) (hnm : HostnameMatch)
    : list (outcome (Route * RouteMatch)) :=
  default [] (inner rs !! hnm) ≫= λ rl,
    match all rs !! srm_key rl with
    | None => []
    | Some r => [(λ m, (r, m)) <$> expect (route_matches r !! srm_index rl)]
    end.

(** [Iterator::find] over such an iterator. *)
Fixpoint find_candidate {A} (p : A → bool) (l : list (outcome A)) : outcome (option A) :=
  match l with
  | [] => Ret None
  | o :: l' => a ← o; if p a then Ret (Some a) else find_candidate p l'
  end.

#[local] Arguments compare_route : simpl never.

(** ** The precedence order is a total preorder *)

Lemma neq_then (b : bool) (c k : comparison) :
  (b = true ↔ c = Eq) → (if negb b then CompOpp c else k) = then_cmp (CompOpp c) k.
Proof.
  intros Hc. destruct b, c; try done;
    first [discriminate (proj1 Hc eq_refl) | discriminate (proj2 Hc eq_refl)].
Qed.

Lemma compare_route_lex (a b : RouteMatch * string) :
  compare_route a b =
  then_cmp (CompOpp (Z.compare (get_path_rank (path a.1)) (get_path_rank (path b.1))))
  (then_cmp (CompOpp (Nat.compare (get_path_length (path a.1)) (get_path_length (path b.1))))
  (then_cmp (CompOpp (bool_cmp (is_some (method a.1)) (is_some (method b.1))))
  (then_cmp (CompOpp (Nat.compare (length (headers a.1)) (length (headers b.1))))
  (then_cmp (CompOpp (Nat.compare (length (query a.1)) (length (query b.1))))
     (String.compare a.2 b.2))))).
Proof.
  destruct a as [am ak], b as [bm bk]. unfold compare_route.
  rewrite !neq_then; try done.
  - by rewrite Nat.eqb_eq, Nat.compare_eq_iff.
  - by rewrite Nat.eqb_eq, Nat.compare_eq_iff.
  - by destruct (is_some (method am)), (is_some (method bm)).
  - by rewrite Nat.eqb_eq, Nat.compare_eq_iff.
  - by rewrite Z.eqb_eq, Z.compare_eq_iff.
Qed.

#[global] Instance compare_route_order : CmpOrder compare_route.
Proof.
  eapply cmp_ext; [apply compare_route_lex|].
  exact (cmp_then _ _ (cmp_flip _ (cmp_on (λ a : RouteMatch * string, get_path_rank (path a.1)) _ cmp_Z))
        (cmp_then _ _ (cmp_flip _ (cmp_on (λ a : RouteMatch * string, get_path_length (path a.1)) _ cmp_nat))
        (cmp_then _ _ (cmp_flip _ (cmp_on (λ a : RouteMatch * string, is_some (method a.1)) _ cmp_bool))
        (cmp_then _ _ (cmp_flip _ (cmp_on (λ a : RouteMatch * string, length (headers a.1)) _ cmp_nat))
        (cmp_then _ _ (cmp_flip _ (cmp_on (λ a : RouteMatch * string, length (query a.1)) _ cmp_nat))
        (cmp_on snd _ cmp_string)))))).
Qed.

(** ** Invariant of a route set *)

(** The match an entry of the index points at, with its route's key. *)
Definition resolve (al : gmap string Route) (e : SingleRouteMatch) : option (RouteMatch * string) :=
  r ← al !! srm_key e; m ← route_matches r !! srm_index e; Some (m, srm_key e).

(** [e1] may stand before [e2]. *)
Definition entry_le (al : gmap string Route) (e1 e2 : SingleRouteMatch) : Prop :=
  ∀ x1 x2, resolve al e1 = Some x1 → resolve al e2 = Some x2 → compare_route x1 x2 ≠ Gt.

Record wf (rs : RouteSet) : Prop := {
  wf_key : ∀ k r, all rs !! k = Some r → route_key r = k;
  wf_valid : ∀ h v e, inner rs !! h = Some v → e ∈ v →
    ∃ r m, all rs !! srm_key e = Some r ∧ route_matches r !! srm_index e = Some m ∧
           h ∈ route_matchers r;
  wf_sorted : ∀ h v, inner rs !! h = Some v → StronglySorted (entry_le (all rs)) v;
  wf_complete : ∀ k r h i m, all rs !! k = Some r → h ∈ route_matchers r →
    route_matches r !! i = Some m → ∃ v, inner rs !! h = Some v ∧ mkSRM k i ∈ v;
  wf_used : ∀ h v, inner rs !! h = Some v → ∃ k r, all rs !! k = Some r ∧ h ∈ route_matchers r;
}.

Lemma wf_empty : wf routeset_empty.
Proof. by split; intros *; simpl; rewrite ?lookup_empty. Qed.

Lemma resolve_Some al e x :
  resolve al e = Some x ↔
  ∃ r, al !! srm_key e = Some r ∧ route_matches r !! srm_index e = Some x.1 ∧ x.2 = srm_key e.
Proof.
  unfold resolve. destruct x as [m k]; simpl. split.
  - intros (r & Hr & Hm)%bind_Some. apply bind_Some in Hm as (m' & Hm & [= <- <-]). eauto.
  - intros (r & Hr & Hm & ->). rewrite Hr; simpl. by rewrite Hm.
Qed.

Lemma resolve_mono al al' e x : al ⊆ al' → resolve al e = Some x → resolve al' e = Some x.
Proof.
  intros Hs. rewrite !resolve_Some. intros (r & Hr & ?). exists r.
  split; [|done]. by eapply lookup_weaken.
Qed.

Lemma entry_le_refl al e : entry_le al e e.
Proof. intros x1 x2 H1 H2. simplify_eq. by rewrite (cmp_refl compare_route). Qed.
#[local] Instance entry_le_reflexive al : Reflexive (entry_le al) := entry_le_refl al.

(** *** Removal *)

Definition retain (key : string) (o : option (list SingleRouteMatch))
    : option (list SingleRouteMatch) :=
  v ← o;
  match filter (λ r, srm_key r ≠ key) v with [] => None | v' => Some v' end.

Lemma retain_Some key o v' :
  retain key o = Some v' ↔
  v' ≠ [] ∧ ∃ v, o = Some v ∧ v' = filter (λ r, srm_key r ≠ key) v.
Proof.
  unfold retain. destruct o as [v|]; simpl; [|by split; [|intros (_ & ? & ? & _)]].
  destruct (filter _ v) as [|e l] eqn:E; split.
  - done.
  - intros (Hne & v1 & [= <-] & ->). by rewrite E in Hne.
  - intros [= <-]. split; [done|]. by exists v.
  - intros (Hne & v1 & [= <-] & ->). by rewrite E.
Qed.

Lemma remove_entry_lookup key inn hm h :
  remove_entry key inn hm !! h =
  if decide (h = hm) then retain key (inn !! h) else inn !! h.
Proof.
  unfold remove_entry, retain. case_decide as Hd; [subst hm|].
  - destruct (inn !! h) as [v|] eqn:E; simpl; [|done].
    destruct (filter _ v); simplify_map_eq; done.
  - destruct (inn !! hm) as [v|]; [|done].
    destruct (filter _ v); by simplify_map_eq.
Qed.

Lemma retain_idem key o : retain key (retain key o) = retain key o.
Proof.
  destruct (retain key o) as [v'|] eqn:E; [|done].
  apply retain_Some in E as (Hne & v & -> & ->). apply retain_Some. split; [done|].
  eexists; split; [done|]. by rewrite list_filter_filter_l.
Qed.

Lemma foldl_remove_lookup key hms inn h :
  foldl (remove_entry key) inn hms !! h =
  if decide (h ∈ hms) then retain key (inn !! h) else inn !! h.
Proof.
  revert inn. induction hms as [|hm hms IH]; intros inn; [done|].
  cbn [foldl]. rewrite IH, remove_entry_lookup.
  destruct (decide (h = hm)) as [->|Hne].
  - destruct (decide (hm ∈ hm :: hms)) as [_|Hn]; [|by destruct Hn; left].
    destruct (decide (hm ∈ hms)); [apply retain_idem|done].
  - assert (h ∈ hm :: hms ↔ h ∈ hms) as Hiff by (rewrite elem_of_cons; naive_solver).
    by destruct (decide (h ∈ hms)), (decide (h ∈ hm :: hms)); try tauto.
Qed.

Lemma remove_wf rs key : wf rs → wf (remove rs key).
Proof.
  intros Hwf. unfold remove. destruct (all rs !! key) as [old|] eqn:Hold; [|done].
  assert (∀ h v e, inner rs !! h = Some v → e ∈ v → h ∉ route_matchers old → srm_key e ≠ key)
    as Hother.
  { intros h v e Hv He Hh Hk. destruct (wf_valid _ Hwf _ _ _ Hv He) as (r & m & Hr & _ & Hin).
    rewrite Hk in Hr. by simplify_eq. }
  split; simpl.
  - intros k r [_ Hr]%lookup_delete_Some. by apply (wf_key _ Hwf).
  - intros h v e. rewrite foldl_remove_lookup. case_decide as Hh.
    + intros (Hne & v0 & Hv & ->)%retain_Some [Hk He]%list_elem_of_filter.
      destruct (wf_valid _ Hwf _ _ _ Hv He) as (r & m & Hr & Hm & Hin).
      exists r, m. by rewrite lookup_delete_ne.
    + intros Hv He. pose proof (Hother _ _ _ Hv He Hh).
      destruct (wf_valid _ Hwf _ _ _ Hv He) as (r & m & Hr & Hm & Hin).
      exists r, m. by rewrite lookup_delete_ne.
  - intros h v. rewrite foldl_remove_lookup. intros Hv.
    apply (StronglySorted_mono (entry_le (all rs))).
    { intros x y _ _ Hle x1 x2 H1 H2. apply Hle;
        (eapply resolve_mono; [apply delete_subseteq|done]). }
    case_decide.
    + apply retain_Some in Hv as (_ & v0 & Hv & ->).
      by apply StronglySorted_filter_list, (wf_sorted _ Hwf h).
    + by apply (wf_sorted _ Hwf h).
  - intros k r h i m [Hk Hr]%lookup_delete_Some Hh Hm.
    destruct (wf_complete _ Hwf _ _ _ _ _ Hr Hh Hm) as (v & Hv & Hin).
    rewrite foldl_remove_lookup. case_decide; [|eauto].
    assert (mkSRM k i ∈ filter (λ r, srm_key r ≠ key) v) as Hf
      by (apply list_elem_of_filter; simpl; auto).
    exists (filter (λ r, srm_key r ≠ key) v). split; [|done].
    apply retain_Some. split; [|eauto]. intros E. rewrite E in Hf. by apply not_elem_of_nil in Hf.
  - intros h v. rewrite foldl_remove_lookup. case_decide as Hh.
    + intros (Hne & v0 & Hv & ->)%retain_Some.
      destruct (filter _ v0) as [|e v1] eqn:E; [done|].
      assert (e ∈ filter (λ r, srm_key r ≠ key) v0) as [Hk He]%list_elem_of_filter
        by (rewrite E; by left).
      destruct (wf_valid _ Hwf _ _ _ Hv He) as (r & m & Hr & _ & Hin).
      exists (srm_key e), r. by rewrite lookup_delete_ne.
    + intros Hv. destruct (wf_used _ Hwf _ _ Hv) as (k & r & Hr & Hin).
      exists k, r. split; [|done]. rewrite lookup_delete_ne; [done|]. intros <-. by simplify_eq.
Qed.

Lemma remove_all rs key : all (remove rs key) = delete key (all rs).
Proof.
  unfold remove. destruct (all rs !! key) eqn:E; [done|]. by rewrite delete_id.
Qed.

(** *** Insertion *)

(** The entries of a list resolve, and are in precedence order. *)
Definition good (al : gmap string Route) (v : list SingleRouteMatch) : Prop :=
  (∀ e, e ∈ v → is_Some (resolve al e)) ∧ StronglySorted (entry_le al) v.

(** The comparator without its panics. *)
Definition entry_ord (al : gmap string Route) (x : RouteMatch * string)
    (e : SingleRouteMatch) : comparison :=
  match resolve al e with Some y => compare_route y x | None => Eq end.

Lemma entry_cmp_ord al m key e :
  is_Some (resolve al e) → entry_cmp al m key e = Ret (entry_ord al (m, key) e).
Proof.
  intros [y Hy]. unfold entry_ord. rewrite Hy.
  apply resolve_Some in Hy as (r & Hr & Hm & Hk). unfold entry_cmp.
  rewrite Hr; simpl. rewrite Hm; simpl. rewrite <-Hk.
  by destruct y as [y1 y2]; rewrite <-(cmp_opp compare_route).
Qed.

Lemma good_partitioned al x v : good al v → partitioned (entry_ord al x) v.
Proof.
  intros [Hv Hs] i j e1 e2 Hij Hi Hj. unfold entry_ord.
  destruct (Hv e1) as [y1 H1]; [by eapply list_elem_of_lookup_2|].
  destruct (Hv e2) as [y2 H2]; [by eapply list_elem_of_lookup_2|].
  rewrite H1, H2.
  assert (compare_route y1 y2 ≠ Gt) as Hle
    by (eapply (StronglySorted_lookup (entry_le al) v i j e1 e2); eauto using entry_le_reflexive).
  split; intros.
  - by eapply (cmp_le_lt compare_route).
  - by eapply (cmp_gt_le compare_route).
Qed.

Lemma insert_one_good al m key idx v :
  good al v → resolve al (mkSRM key idx) = Some (m, key) →
  ∃ r v', binary_search_by (entry_cmp al m key) v = Ret r ∧
    vec_insert (search_pos r) (mkSRM key idx) v = Ret v' ∧
    good al v' ∧ v' ≡ₚ mkSRM key idx :: v.
Proof.
  intros Hg Hnew. pose proof Hg as [Hv Hs].
  pose proof (good_partitioned al (m, key) v Hg) as Hpart.
  destruct (binary_search_by_correct (entry_cmp al m key) (entry_ord al (m, key)) v)
    as (r & Hr & Hok); [by intros e He; apply entry_cmp_ord, Hv|done|].
  apply search_pos_ok in Hok as (Hlen & Hlo & Hhi); [|done].
  exists r. eexists. split; [done|]. rewrite vec_insert_ok by done. split; [done|].
  split; [|apply vec_insert_perm]. set (i := search_pos r) in *.
  assert (∀ e, e ∈ v → entry_ord al (m, key) e ≠ Gt → entry_le al e (mkSRM key idx)) as Hbefore.
  { intros e He Hne x1 x2 H1 H2. unfold entry_ord in Hne. rewrite H1 in Hne. by simplify_eq. }
  assert (∀ e, e ∈ v → entry_ord al (m, key) e ≠ Lt → entry_le al (mkSRM key idx) e) as Hafter.
  { intros e He Hne x1 x2 H1 H2. unfold entry_ord in Hne. rewrite H2 in Hne. simplify_eq.
    by apply (cmp_ge_le compare_route) in Hne. }
  split.
  - intros e. rewrite vec_insert_perm, elem_of_cons. intros [->|He]; [by eexists|by apply Hv].
  - rewrite <-(take_drop i v), StronglySorted_app_iff in Hs. destruct Hs as (Hs1 & Hs2 & Hs12).
    apply StronglySorted_app_iff. split; [done|]. split.
    + constructor; [done|]. apply Forall_forall. intros e He. apply Hafter.
      * rewrite <-(take_drop i v). set_solver.
      * apply list_elem_of_lookup_1 in He as [j Hj]. rewrite lookup_drop in Hj.
        apply (Hhi _ _ Hj). lia.
    + intros e1 e2 He1 [->|He2]%elem_of_cons; [|by apply Hs12]. apply Hbefore.
      * rewrite <-(take_drop i v). set_solver.
      * apply list_elem_of_lookup_1 in He1 as [j Hj].
        apply lookup_take_Some in Hj as [Hj Hlt]. apply (Hlo _ _ Hj). done.
Qed.

Lemma insert_matches_good al r idx ms v :
  al !! route_key r = Some r → drop idx (route_matches r) = ms → good al v →
  ∃ v', insert_matches al (route_key r) idx ms v = Ret v' ∧ good al v' ∧
    v' ≡ₚ (mkSRM (route_key r) <$> seq idx (length ms)) ++ v.
Proof.
  intros Hal. revert idx v. induction ms as [|m ms IH]; intros idx v Hms Hg; simpl; [by eauto|].
  assert (route_matches r !! idx = Some m) as Hm.
  { rewrite <-(Nat.add_0_r idx), <-lookup_drop, Hms. done. }
  destruct (insert_one_good al m (route_key r) idx v) as (o & v1 & -> & Hins & Hg1 & Hp1); [done| |].
  { apply resolve_Some. eauto. }
  simpl. rewrite Hins. simpl.
  destruct (IH (S idx) v1) as (v2 & -> & Hg2 & Hp2); [|done|].
  { by rewrite <-Nat.add_1_r, <-drop_drop, Hms. }
  exists v2. split; [done|]. split; [done|]. rewrite Hp2, Hp1. by rewrite Permutation_middle.
Qed.

Lemma insert_hostnames_good al r hms inn :
  al !! route_key r = Some r → (∀ h v, inn !! h = Some v → good al v) →
  ∃ inn', insert_hostnames al r hms inn = Ret inn' ∧
    (∀ h v, inn' !! h = Some v → good al v) ∧
    (∀ h, h ∉ hms → inn' !! h = inn !! h) ∧
    (∀ h, h ∈ hms → ∃ v', inn' !! h = Some v' ∧ ∀ e, e ∈ v' ↔
       e ∈ default [] (inn !! h) ∨
       (srm_key e = route_key r ∧ srm_index e < length (route_matches r))).
Proof.
  intros Hal. revert inn. induction hms as [|hm hms IH]; intros inn Hg; simpl.
  { exists inn. split; [done|]. split; [done|]. split; [done|]. set_solver. }
  destruct (insert_matches_good al r 0 (route_matches r) (default [] (inn !! hm)))
    as (v & -> & Hgv & Hp); [done|done| |].
  { destruct (inn !! hm) eqn:E; simpl; [by eapply Hg|]. split; [set_solver|constructor]. }
  simpl. destruct (IH (<[hm := v]> inn)) as (inn' & -> & Hg' & Hout & Hin).
  { intros h v'. rewrite lookup_insert. case_decide; [naive_solver|eauto]. }
  assert (∀ e, e ∈ v ↔ e ∈ default [] (inn !! hm) ∨
    (srm_key e = route_key r ∧ srm_index e < length (route_matches r))) as Hv.
  { intros e. rewrite Hp, elem_of_app, list_elem_of_fmap. setoid_rewrite elem_of_seq.
    destruct e as [k i]; simpl. split.
    - intros [(j & [= -> ->] & ?)|?]; [right; split; [done|lia]|by left].
    - intros [?|[-> ?]]; [by right|left; exists i; split; [done|lia]]. }
  exists inn'. split; [done|]. split; [done|]. split.
  - intros h [Hne Hh]%not_elem_of_cons. rewrite Hout by done. by rewrite lookup_insert_ne.
  - intros h [->|Hh]%elem_of_cons.
    + destruct (decide (hm ∈ hms)) as [Hd|Hd].
      * destruct (Hin hm Hd) as (v' & Hv' & He). exists v'. split; [done|]. intros e.
        rewrite He, lookup_insert_eq. simpl. rewrite Hv. tauto.
      * exists v. rewrite Hout by done. by rewrite lookup_insert_eq.
    + destruct (Hin h Hh) as (v' & Hv' & He). exists v'. split; [done|]. intros e.
      rewrite He, lookup_insert. case_decide as Hd; [|done]. subst. simpl. rewrite Hv. tauto.
Qed.

(** Adding a fresh route leaves the entries already there valid and sorted. *)
Lemma wf_good_fresh rs r h v :
  wf rs → all rs !! route_key r = None → inner rs !! h = Some v →
  good (<[route_key r := r]> (all rs)) v.
Proof.
  intros Hwf Hfresh Hv.
  assert (∀ e, e ∈ v → srm_key e ≠ route_key r) as Hnk.
  { intros e He Hk. destruct (wf_valid _ Hwf _ _ _ Hv He) as (r' & m & Hr & _).
    rewrite Hk in Hr. congruence. }
  split.
  - intros e He. destruct (wf_valid _ Hwf _ _ _ Hv He) as (r' & m & Hr & Hm & _).
    exists (m, srm_key e). eapply resolve_mono; [by apply insert_subseteq|]. apply resolve_Some. eauto.
  - apply (StronglySorted_mono (entry_le (all rs))); [|by apply (wf_sorted _ Hwf h)].
    intros e1 e2 He1 He2 Hle x1 x2 H1 H2.
    apply resolve_Some in H1 as (r1 & Hr1 & ?), H2 as (r2 & Hr2 & ?).
    rewrite lookup_insert_ne in Hr1, Hr2 by (symmetry; eauto).
    apply Hle; apply resolve_Some; eauto.
Qed.

Lemma insert_fresh_wf rs r :
  wf rs → all rs !! route_key r = None →
  ∃ inn, insert_hostnames (<[route_key r := r]> (all rs)) r (route_matchers r) (inner rs) = Ret inn ∧
    wf (mkRouteSet inn (<[route_key r := r]> (all rs))).
Proof.
  intros Hwf Hfresh. set (al := <[route_key r := r]> (all rs)).
  assert (all rs ⊆ al) as Hsub by by apply insert_subseteq.
  destruct (insert_hostnames_good al r (route_matchers r) (inner rs))
    as (inn & Hinn & Hg & Hout & Hin); [apply lookup_insert_eq|by intros h v Hv; eapply wf_good_fresh|].
  exists inn. split; [done|]. split; simpl.
  - intros k r'. unfold al. rewrite lookup_insert_Some. intros [[<- <-]|[_ Hr]]; [done|].
    by apply (wf_key _ Hwf).
  - intros h v e Hv He. destruct (Hg _ _ Hv) as [Hres _].
    destruct (Hres _ He) as [x (r' & Hr' & Hm & _)%resolve_Some].
    exists r', x.1. split; [done|]. split; [done|].
    destruct (decide (h ∈ route_matchers r)) as [Hh|Hh].
    + destruct (Hin h Hh) as (v' & Hv' & Hel). simplify_eq.
      apply Hel in He as [He|[Hk _]].
      * destruct (inner rs !! h) as [v0|] eqn:E; simpl in He; [|set_solver].
        destruct (wf_valid _ Hwf _ _ _ E He) as (r1 & m1 & Hr1 & _ & Hin1).
        eapply lookup_weaken in Hr1; [|done]. by simplify_eq.
      * rewrite Hk in Hr'. unfold al in Hr'. rewrite lookup_insert_eq in Hr'. by simplify_eq.
    + rewrite Hout in Hv by done.
      destruct (wf_valid _ Hwf _ _ _ Hv He) as (r1 & m1 & Hr1 & _ & Hin1).
      eapply lookup_weaken in Hr1; [|done]. by simplify_eq.
  - intros h v Hv. apply (Hg _ _ Hv).
  - intros k r' h i m. unfold al at 1. rewrite lookup_insert_Some.
    intros [[<- <-]|[Hne Hr]] Hh Hm.
    + destruct (Hin h Hh) as (v' & Hv' & Hel). exists v'. split; [done|]. apply Hel. right.
      simpl. split; [done|]. by apply lookup_lt_Some in Hm.
    + destruct (wf_complete _ Hwf _ _ _ _ _ Hr Hh Hm) as (v & Hv & He).
      destruct (decide (h ∈ route_matchers r)) as [Hd|Hd].
      * destruct (Hin h Hd) as (v' & Hv' & Hel). exists v'. split; [done|]. apply Hel. left.
        by rewrite Hv.
      * exists v. by rewrite Hout.
  - intros h v Hv. destruct (decide (h ∈ route_matchers r)) as [Hd|Hd].
    + exists (route_key r), r. split; [apply lookup_insert_eq|done].
    + rewrite Hout in Hv by done. destruct (wf_used _ Hwf _ _ Hv) as (k & r' & Hr & ?).
      exists k, r'. split; [by eapply lookup_weaken|done].
Qed.

Lemma insert_ok rs r :
  wf rs → ∃ rs', insert rs r = Ret rs' ∧ wf rs' ∧ all rs' = <[route_key r := r]> (all rs).
Proof.
  intros Hwf. unfold insert.
  set (rs0 := if contains rs (route_key r) then remove rs (route_key r) else rs).
  assert (wf rs0 ∧ all rs0 = delete (route_key r) (all rs)) as [Hwf0 Hall0].
  { unfold rs0, contains. destruct (all rs !! route_key r) eqn:E; simpl.
    - split; [by apply remove_wf|apply remove_all].
    - split; [done|]. by rewrite delete_id. }
  destruct (insert_fresh_wf rs0 r Hwf0) as (inn & Hinn & Hwf').
  { rewrite Hall0. apply lookup_delete_eq. }
  cbv zeta. rewrite Hinn. eexists. split; [done|]. split; [done|]. simpl.
  rewrite Hall0. apply insert_delete_eq.
Qed.

Lemma insert_all_ok l rs :
  wf rs → ∃ rs', insert_all l rs = Ret rs' ∧ wf rs' ∧
    all rs' = foldl (λ m r, <[route_key r := r]> m) (all rs) l.
Proof.
  revert rs. induction l as [|r l IH]; intros rs Hwf; simpl; [by eauto|].
  destruct (insert_ok rs r Hwf) as (rs1 & -> & Hwf1 & Hall1). simpl.
  destruct (IH rs1 Hwf1) as (rs2 & -> & Hwf2 & Hall2). exists rs2.
  split; [done|]. split; [done|]. by rewrite Hall2, Hall1.
Qed.

(** *** Lookup *)

(** Precedence between two candidates, [a] at least as good as [b]. *)
Definition candidate_le (a b : Route * RouteMatch) : Prop :=
  compare_route (a.2, route_key a.1) (b.2, route_key b.1) ≠ Gt.

(** [(r, m)] is a match the set holds for the hostname pattern [h]. *)
Definition holds (rs : RouteSet) (h : HostnameMatch) (x : Route * RouteMatch) : Prop :=
  (∃ k, all rs !! k = Some x.1) ∧ h ∈ route_matchers x.1 ∧ x.2 ∈ route_matches x.1.

Lemma get_entries_ok (al : gmap string Route) v :
  (∀ e, e ∈ v → ∃ r m, al !! srm_key e = Some r ∧ route_matches r !! srm_index e = Some m) →
  ∃ l : list (Route * RouteMatch),
    (v ≫= λ rl, match al !! srm_key rl with
                | None => []
                | Some r => [(λ m, (r, m)) <$> expect (route_matches r !! srm_index rl)]
                end) = Ret <$> l ∧
    Forall2 (λ e x, al !! srm_key e = Some x.1 ∧ route_matches x.1 !! srm_index e = Some x.2) v l.
Proof.
  induction v as [|e v IH]; intros Hv; [by exists []|].
  destruct (Hv e) as (r & m & Hr & Hm); [by left|].
  destruct IH as (l & Hl & HF); [by intros e' He'; apply Hv; right|].
  exists ((r, m) :: l). split; [|by constructor].
  cbn. rewrite Hr, Hm. simpl. f_equal. exact Hl.
Qed.

Lemma get_hostname_ok rs h :
  wf rs → ∃ l, get_hostname rs h = Ret <$> l ∧
    (∀ x, x ∈ l ↔ holds rs h x) ∧ StronglySorted candidate_le l.
Proof.
  intros Hwf. unfold get_hostname.
  destruct (get_entries_ok (all rs) (default [] (inner rs !! h))) as (l & -> & HF).
  { intros e He. destruct (inner rs !! h) as [v|] eqn:E; simpl in He; [|set_solver].
    destruct (wf_valid _ Hwf _ _ _ E He) as (r & m & Hr & Hm & _). eauto. }
  exists l. split; [done|]. split.
  - intros [r m]. unfold holds; simpl. split.
    + intros [i Hi]%list_elem_of_lookup_1.
      destruct (Forall2_lookup_r _ _ _ _ _ HF Hi) as (e & He & Hr & Hm); simpl in *.
      destruct (inner rs !! h) as [v|] eqn:E; simpl in He; [|by rewrite lookup_nil in He].
      apply list_elem_of_lookup_2 in He.
      destruct (wf_valid _ Hwf _ _ _ E He) as (r1 & m1 & Hr1 & _ & Hin). simplify_eq.
      split; [eauto|]. split; [done|]. by eapply list_elem_of_lookup_2.
    + intros ([k Hr] & Hin & [i Hm]%list_elem_of_lookup_1).
      destruct (wf_complete _ Hwf _ _ _ _ _ Hr Hin Hm) as (v & Hv & He).
      rewrite Hv in HF. simpl in HF. apply list_elem_of_lookup_1 in He as [j Hj].
      destruct (Forall2_lookup_l _ _ _ _ _ HF Hj) as ([r1 m1] & Hx & Hr1 & Hm1); simpl in *.
      simplify_eq. by eapply list_elem_of_lookup_2.
  - assert (StronglySorted (entry_le (all rs)) (default [] (inner rs !! h))) as Hs.
    { destruct (inner rs !! h) eqn:E; simpl; [by apply (wf_sorted _ Hwf h)|constructor]. }
    revert Hs. induction HF as [|e x v l [Hr Hm] HF IH]; intros Hs; [constructor|].
    apply StronglySorted_inv in Hs as [Hs He]. constructor; [by apply IH|].
    apply Forall_forall. intros y [j Hj]%list_elem_of_lookup_1.
    destruct (Forall2_lookup_r _ _ _ _ _ HF Hj) as (e' & He' & Hr' & Hm').
    rewrite Forall_forall in He. specialize (He e' (list_elem_of_lookup_2 _ _ _ He')).
    unfold candidate_le. rewrite (wf_key _ Hwf _ _ Hr), (wf_key _ Hwf _ _ Hr').
    apply He; apply resolve_Some; eauto.
Qed.

Lemma find_candidate_ret {A} (p : A → bool) (l : list A) :
  find_candidate p (Ret <$> l) = Ret (list_find_by p l).
Proof. induction l as [|a l IH]; simpl; [done|]. by destruct (p a). Qed.

(** ** Claims *)

(** C14. Inserting a route into a well-formed set always succeeds: neither
    ["corrupted state"] panic of [RouteSet::insert] nor the out-of-range
    panic of [Vec::insert] is reachable. The result is well formed again:
    every index entry resolves, lists are in precedence order, and every
    match of every route is indexed under each of its hostnames. *)
Theorem routeset_insert_wf rs r :
  wf rs → ∃ rs', insert rs r = Ret rs' ∧ wf rs' ∧ all rs' = <[route_key r := r]> (all rs).
Proof. apply insert_ok. Qed.

(** Removing a route keeps the set well formed and removes exactly that
    route; inserting an absent route and removing it again restores the set
    of routes. *)
Theorem routeset_remove_wf rs key :
  wf rs → wf (remove rs key) ∧ all (remove rs key) = delete key (all rs) ∧
    ∀ r rs', all rs !! route_key r = None → insert rs r = Ret rs' →
      all (remove rs' (route_key r)) = all rs.
Proof.
  intros Hwf. split; [by apply remove_wf|]. split; [apply remove_all|].
  intros r rs' Hno Hins. destruct (insert_ok rs r Hwf) as (rs1 & Hi & _ & Hall).
  rewrite Hins in Hi. simplify_eq. rewrite remove_all, Hall. by apply delete_insert_id.
Qed.

(** Building a set from any list of routes succeeds and yields a
    well-formed set that holds, for each key, the last route given for it. *)
Theorem routeset_from_list_ok (l : list Route) :
  ∃ rs, from_list l = Ret rs ∧ wf rs ∧
    all rs = foldl (λ m r, <[route_key r := r]> m) ∅ l.
Proof. apply (insert_all_ok l routeset_empty wf_empty). Qed.

(** A well-formed set that reports itself empty can never match: every
    route left in it has no matches. (The store drops such sets.) *)
Lemma routeset_is_empty_sound rs k r :
  wf rs → is_empty rs = true → all rs !! k = Some r → route_matches r = [].
Proof.
  intros Hwf He%bool_decide_eq_true Hr. destruct (route_matches r) as [|m ms] eqn:Em; [done|].
  assert (∃ h, h ∈ route_matchers r) as [h Hh].
  { unfold route_matchers, hostname_matchers. destruct (route_hostnames r); eexists; by left. }
  destruct (wf_complete _ Hwf k r h 0 m) as (v & Hv & _); [done|done|by rewrite Em|].
  by rewrite He, lookup_empty in Hv.
Qed.
End routeset.
