(* ===== verification/TcpRouteSet.v ===== *)
(** * TCP route sets

    [TCPRouteSet] of [types/agent.rs]: the hostname index of TCP routes, kept
    in the order of route keys; lookup returns the first route of a
    hostname. *)
From stdpp Require Import base gmap strings list sorting.
From S2P Require Import Prelude RustStd Authorization AgentTypes RouteSet.

Module Tcp.
Section tcp.
Context {PL : Payloads}.

Record TCPRouteSet := mkTCPRouteSet {
  inner : gmap HostnameMatch (list string);
  all : gmap string TCPRoute;
}.

Definition empty : TCPRouteSet := mkTCPRouteSet ∅ ∅.

Definition hostname_matchers (r : TCPRoute) : list HostnameMatch :=
  RouteSet.hostname_matchers (tcp_hostnames r).

Definition contains (rs : TCPRouteSet) (key : string) : bool := is_some (all rs !! key).
Definition is_empty (rs : TCPRouteSet) : bool := bool_decide (inner rs = ∅).

Definition get_hostname (rs : TCPRouteSet) (hnm : HostnameMatch) : option TCPRoute :=
  r ← inner rs !! hnm; rl ← head r; all rs !! rl.

Definition remove_entry (key : string) (inn : gmap HostnameMatch (list string))
    (hm : HostnameMatch) : gmap HostnameMatch (list string) :=
  match inn !! hm with
  | Some v =>
      match filter (λ r, r ≠ key) v with
      | [] => delete hm inn
      | v' => <[hm := v']> inn
      end
  | None => inn
  end.

Definition remove (rs : TCPRouteSet) (key : string) : TCPRouteSet :=
  match all rs !! key with
  | None => rs
  | Some old => mkTCPRouteSet (foldl (remove_entry key) (inner rs) (hostname_matchers old))
                  (delete key (all rs))
  end.

(** The comparator of [insert]: it forces the route to exist, then orders by
    key. *)
Definition entry_cmp (al : gmap string TCPRoute) (key existing : string) : outcome comparison :=
  _ ← expect (al !! existing);
  Ret (CompOpp (String.compare key existing)).

Fixpoint insert_hostnames (al : gmap string TCPRoute) (key : string)
    (hms : list HostnameMatch) (inn : gmap HostnameMatch (list string))
    : outcome (gmap HostnameMatch (list string)) :=
  match hms with
  | [] => Ret inn
  | hm :: hms' =>
      let v := default [] (inn !! hm) in
      to_insert ← binary_search_by (entry_cmp al key) v;
      v' ← vec_insert (search_pos to_insert) key v;
      insert_hostnames al key hms' (<[hm := v']> inn)
  end.

Definition insert (rs : TCPRouteSet) (r : TCPRoute) : outcome TCPRouteSet :=
  let rs := if contains rs (tcp_key r) then remove rs (tcp_key r) else rs in
  let al := <[tcp_key r := r]> (all rs) in
  inn ← insert_hostnames al (tcp_key r) (hostname_matchers r) (inner rs);
  Ret (mkTCPRouteSet inn al).

(** ** Invariant *)

Definition key_le (a b : string) : Prop := String.compare a b ≠ Gt.

Record wf (rs : TCPRouteSet) : Prop := {
  wf_key : ∀ k r, all rs !! k = Some r → tcp_key r = k;
  wf_valid : ∀ h v k, inner rs !! h = Some v → k ∈ v →
    ∃ r, all rs !! k = Some r ∧ h ∈ hostname_matchers r;
  wf_sorted : ∀ h v, inner rs !! h = Some v → StronglySorted key_le v;
  wf_complete : ∀ k r h, all rs !! k = Some r → h ∈ hostname_matchers r →
    ∃ v, inner rs !! h = Some v ∧ k ∈ v;
}.

Lemma tcp_wf_empty : wf empty.
Proof. by split; intros *; simpl; rewrite ?lookup_empty. Qed.

#[local] Instance key_le_refl : Reflexive key_le.
Proof. intros k. unfold key_le. by rewrite (cmp_refl String.compare). Qed.

Definition retain (key : string) (o : option (list string)) : option (list string) :=
  v ← o; match filter (λ r, r ≠ key) v with [] => None | v' => Some v' end.

Lemma tcp_retain_Some key o v' :
  retain key o = Some v' ↔ v' ≠ [] ∧ ∃ v, o = Some v ∧ v' = filter (λ r, r ≠ key) v.
Proof.
  unfold retain. destruct o as [v|]; simpl; [|by split; [|intros (_ & ? & ? & _)]].
  destruct (filter _ v) as [|e l] eqn:E; split.
  - done.
  - intros (Hne & v1 & [= <-] & ->). by rewrite E in Hne.
  - intros [= <-]. split; [done|]. by exists v.
  - intros (Hne & v1 & [= <-] & ->). by rewrite E.
Qed.

Lemma tcp_foldl_remove_lookup key hms inn h :
  foldl (remove_entry key) inn hms !! h =
  if decide (h ∈ hms) then retain key (inn !! h) else inn !! h.
Proof.
  assert (∀ i hm, remove_entry key i hm !! h =
    if decide (h = hm) then retain key (i !! h) else i !! h) as Hone.
  { intros i hm. unfold remove_entry, retain. case_decide as Hd; [subst hm|].
    - destruct (i !! h) as [v|] eqn:E; simpl; [|done].
      destruct (filter _ v); simplify_map_eq; done.
    - destruct (i !! hm) as [v|]; [|done]. destruct (filter _ v); by simplify_map_eq. }
  revert inn. induction hms as [|hm hms IH]; intros inn; [done|].
  cbn [foldl]. rewrite IH, Hone. destruct (decide (h = hm)) as [->|Hne].
  - destruct (decide (hm ∈ hm :: hms)) as [_|Hn]; [|by destruct Hn; left].
    destruct (decide (hm ∈ hms)); [|done].
    destruct (retain key (inn !! hm)) as [v'|] eqn:E; [|done].
    apply tcp_retain_Some in E as (Hne & v & _ & ->). apply tcp_retain_Some. split; [done|].
    eexists; split; [done|]. by rewrite list_filter_filter_l.
  - assert (h ∈ hm :: hms ↔ h ∈ hms) as Hiff by (rewrite elem_of_cons; naive_solver).
    by destruct (decide (h ∈ hms)), (decide (h ∈ hm :: hms)); try tauto.
Qed.

Lemma tcp_remove_wf rs key : wf rs → wf (remove rs key).
Proof.
  intros Hwf. unfold remove. destruct (all rs !! key) as [old|] eqn:Hold; [|done]. split; simpl.
  - intros k r [_ Hr]%lookup_delete_Some. by apply (wf_key _ Hwf).
  - intros h v k. rewrite tcp_foldl_remove_lookup. case_decide as Hh.
    + intros (_ & v0 & Hv & ->)%tcp_retain_Some [Hk He]%list_elem_of_filter.
      destruct (wf_valid _ Hwf _ _ _ Hv He) as (r & Hr & Hin).
      exists r. by rewrite lookup_delete_ne.
    + intros Hv He. destruct (wf_valid _ Hwf _ _ _ Hv He) as (r & Hr & Hin).
      exists r. split; [|done]. rewrite lookup_delete_ne; [done|]. intros <-. by simplify_eq.
  - intros h v. rewrite tcp_foldl_remove_lookup. case_decide; [|by apply (wf_sorted _ Hwf)].
    intros (_ & v0 & Hv & ->)%tcp_retain_Some.
    by apply StronglySorted_filter_list, (wf_sorted _ Hwf h).
  - intros k r h [Hk Hr]%lookup_delete_Some Hh.
    destruct (wf_complete _ Hwf _ _ _ Hr Hh) as (v & Hv & Hin).
    rewrite tcp_foldl_remove_lookup. case_decide; [|eauto].
    assert (k ∈ filter (λ r, r ≠ key) v) as Hf by (apply list_elem_of_filter; auto).
    eexists. split; [|done]. apply tcp_retain_Some. split; [|eauto].
    intros E. rewrite E in Hf. by apply not_elem_of_nil in Hf.
Qed.

Lemma tcp_remove_all rs key : all (remove rs key) = delete key (all rs).
Proof. unfold remove. destruct (all rs !! key) eqn:E; [done|]. by rewrite delete_id. Qed.

(** Entries of an indexed list exist and are in key order. *)
Definition good (al : gmap string TCPRoute) (v : list string) : Prop :=
  (∀ k, k ∈ v → is_Some (al !! k)) ∧ StronglySorted key_le v.

Lemma tcp_insert_one_good al key v :
  good al v → is_Some (al !! key) →
  ∃ r v', binary_search_by (entry_cmp al key) v = Ret r ∧
    vec_insert (search_pos r) key v = Ret v' ∧ good al v' ∧ v' ≡ₚ key :: v.
Proof.
  intros [Hv Hs] Hkey. set (g := λ e, String.compare e key).
  assert (partitioned g v) as Hpart.
  { intros i j e1 e2 Hij Hi Hj. pose proof (StronglySorted_lookup _ _ i j e1 e2 _ Hs Hij Hi Hj).
    split; intros; [by eapply (cmp_le_lt String.compare)|by eapply (cmp_gt_le String.compare)]. }
  destruct (binary_search_by_correct (entry_cmp al key) g v) as (r & Hr & Hok); [|done|].
  { intros e He. destruct (Hv e He) as [x Hx]. unfold entry_cmp. rewrite Hx. simpl.
    by rewrite <-(cmp_opp String.compare). }
  apply search_pos_ok in Hok as (Hlen & Hlo & Hhi); [|done].
  exists r. eexists. split; [done|]. rewrite vec_insert_ok by done. split; [done|].
  split; [|apply vec_insert_perm]. set (i := search_pos r) in *. split.
  - intros e. rewrite vec_insert_perm, elem_of_cons. intros [->|He]; auto.
  - rewrite <-(take_drop i v), StronglySorted_app_iff in Hs. destruct Hs as (Hs1 & Hs2 & Hs12).
    apply StronglySorted_app_iff. split; [done|]. split.
    + constructor; [done|]. apply Forall_forall. intros e [j Hj]%list_elem_of_lookup_1.
      rewrite lookup_drop in Hj. apply (cmp_ge_le String.compare), (Hhi _ _ Hj). lia.
    + intros e1 e2 He1 [->|He2]%elem_of_cons; [|by apply Hs12].
      apply list_elem_of_lookup_1 in He1 as [j [Hj Hlt]%lookup_take_Some].
      by apply (Hlo _ _ Hj).
Qed.

Lemma tcp_insert_hostnames_good al key hms inn :
  is_Some (al !! key) → (∀ h v, inn !! h = Some v → good al v) →
  ∃ inn', insert_hostnames al key hms inn = Ret inn' ∧
    (∀ h v, inn' !! h = Some v → good al v) ∧
    (∀ h, h ∉ hms → inn' !! h = inn !! h) ∧
    (∀ h, h ∈ hms → ∃ v', inn' !! h = Some v' ∧
       ∀ e, e ∈ v' ↔ e ∈ default [] (inn !! h) ∨ e = key).
Proof.
  intros Hal. revert inn. induction hms as [|hm hms IH]; intros inn Hg; simpl.
  { exists inn. split; [done|]. split; [done|]. split; [done|]. set_solver. }
  destruct (tcp_insert_one_good al key (default [] (inn !! hm))) as (o & v & -> & Hins & Hgv & Hp);
    [|done|].
  { destruct (inn !! hm) eqn:E; simpl; [by eapply Hg|]. split; [set_solver|constructor]. }
  simpl. rewrite Hins. simpl. destruct (IH (<[hm := v]> inn)) as (inn' & -> & Hg' & Hout & Hin).
  { intros h v'. rewrite lookup_insert. case_decide; [naive_solver|eauto]. }
  exists inn'. split; [done|]. split; [done|]. split.
  - intros h [Hne Hh]%not_elem_of_cons. rewrite Hout by done. by rewrite lookup_insert_ne.
  - intros h Hh. destruct (decide (h ∈ hms)) as [Hd|Hd].
    + destruct (Hin h Hd) as (v' & Hv' & He). exists v'. split; [done|]. intros e.
      rewrite He, lookup_insert. case_decide as Hd'; [|done]. subst. simpl.
      rewrite Hp, elem_of_cons. tauto.
    + apply elem_of_cons in Hh as [->|?]; [|done]. exists v. rewrite Hout, lookup_insert_eq by done.
      split; [done|]. intros e. rewrite Hp, elem_of_cons. tauto.
Qed.

Lemma tcp_insert_ok rs r :
  wf rs → ∃ rs', insert rs r = Ret rs' ∧ wf rs' ∧ all rs' = <[tcp_key r := r]> (all rs).
Proof.
  intros Hwf. unfold insert.
  set (rs0 := if contains rs (tcp_key r) then remove rs (tcp_key r) else rs).
  assert (wf rs0 ∧ all rs0 = delete (tcp_key r) (all rs)) as [Hwf0 Hall0].
  { unfold rs0, contains. destruct (all rs !! tcp_key r) eqn:E; simpl.
    - split; [by apply tcp_remove_wf|apply tcp_remove_all].
    - split; [done|]. by rewrite delete_id. }
  set (al := <[tcp_key r := r]> (all rs0)).
  assert (al = <[tcp_key r := r]> (all rs)) as Hal.
  { unfold al. rewrite Hall0. apply insert_delete_eq. }
  assert (all rs0 ⊆ al) as Hsub.
  { apply insert_subseteq. rewrite Hall0. apply lookup_delete_eq. }
  destruct (tcp_insert_hostnames_good al (tcp_key r) (hostname_matchers r) (inner rs0))
    as (inn & Hinn & Hg & Hout & Hin).
  { unfold al. rewrite lookup_insert_eq. eauto. }
  { intros h v Hv. split; [|by apply (wf_sorted _ Hwf0 h)].
    intros k Hk. destruct (wf_valid _ Hwf0 _ _ _ Hv Hk) as (r' & Hr & _).
    exists r'. by eapply lookup_weaken. }
  cbv zeta. fold al. rewrite Hinn. eexists. split; [done|]. split; [|done]. split; simpl.
  - intros k r'. unfold al. rewrite lookup_insert_Some. intros [[<- <-]|[_ Hr]]; [done|].
    by apply (wf_key _ Hwf0).
  - intros h v k Hv Hk. destruct (decide (h ∈ hostname_matchers r)) as [Hh|Hh].
    + destruct (Hin h Hh) as (v' & Hv' & Hel). simplify_eq. apply Hel in Hk as [Hk| ->].
      * destruct (inner rs0 !! h) as [v0|] eqn:E; simpl in Hk; [|set_solver].
        destruct (wf_valid _ Hwf0 _ _ _ E Hk) as (r' & Hr & ?). exists r'.
        split; [by eapply lookup_weaken|done].
      * exists r. split; [apply lookup_insert_eq|done].
    + rewrite Hout in Hv by done. destruct (wf_valid _ Hwf0 _ _ _ Hv Hk) as (r' & Hr & ?).
      exists r'. split; [by eapply lookup_weaken|done].
  - intros h v Hv. apply (Hg _ _ Hv).
  - intros k r' h. unfold al at 1. rewrite lookup_insert_Some. intros [[<- <-]|[Hne Hr]] Hh.
    + destruct (Hin h Hh) as (v' & Hv' & Hel). exists v'. split; [done|]. apply Hel. by right.
    + destruct (wf_complete _ Hwf0 _ _ _ Hr Hh) as (v & Hv & He).
      destruct (decide (h ∈ hostname_matchers r)) as [Hd|Hd].
      * destruct (Hin h Hd) as (v' & Hv' & Hel). exists v'. split; [done|]. apply Hel. left.
        by rewrite Hv.
      * exists v. by rewrite Hout.
Qed.

(** A lookup returns the route of the smallest key that serves the pattern,
    and nothing only when no route serves it. *)
Lemma tcp_get_hostname_Some rs h t :
  wf rs → get_hostname rs h = Some t →
  h ∈ hostname_matchers t ∧ all rs !! tcp_key t = Some t ∧
  ∀ k t', all rs !! k = Some t' → h ∈ hostname_matchers t' → key_le (tcp_key t) k.
Proof.
  intros Hwf Ht. unfold get_hostname in Ht.
  apply bind_Some in Ht as (v & Hv & Ht). apply bind_Some in Ht as (k0 & Hk0 & Ht).
  destruct v as [|k1 v]; simplify_eq/=.
  destruct (wf_valid _ Hwf _ _ k0 Hv) as (r' & Hr & Hin); [by left|]. simplify_eq.
  pose proof (wf_key _ Hwf _ _ Ht) as Hkey. rewrite Hkey. split; [done|]. split; [done|].
  intros k t' Hk Hh. destruct (wf_complete _ Hwf _ _ _ Hk Hh) as (v' & Hv' & Hin').
  rewrite Hv in Hv'. simplify_eq. pose proof (wf_sorted _ Hwf _ _ Hv) as Hs.
  apply StronglySorted_inv in Hs as [_ Hs]. rewrite Forall_forall in Hs.
  apply elem_of_cons in Hin' as [->|?]; [reflexivity|by apply Hs].
Qed.

Lemma tcp_get_hostname_is_Some rs h k t :
  wf rs → all rs !! k = Some t → h ∈ hostname_matchers t → is_Some (get_hostname rs h).
Proof.
  intros Hwf Hk Hh. destruct (wf_complete _ Hwf _ _ _ Hk Hh) as (v & Hv & Hin).
  unfold get_hostname. rewrite Hv. simpl. destruct v as [|k0 v]; [set_solver|]. simpl.
  destruct (wf_valid _ Hwf _ _ k0 Hv) as (r' & Hr & _); [by left|]. eauto.
Qed.

(** Insertion into a well-formed TCP route set never panics and keeps it
    well formed, and a lookup returns, for a hostname some route serves, the
    one with the smallest key among them. *)
Theorem tcp_routeset_correct rs r :
  wf rs →
  (∃ rs', insert rs r = Ret rs' ∧ wf rs' ∧ all rs' = <[tcp_key r := r]> (all rs)) ∧
  (∀ h t, get_hostname rs h = Some t →
     h ∈ hostname_matchers t ∧ all rs !! tcp_key t = Some t ∧
     ∀ k t', all rs !! k = Some t' → h ∈ hostname_matchers t' → key_le (tcp_key t) k) ∧
  (∀ h k t, all rs !! k = Some t → h ∈ hostname_matchers t → is_Some (get_hostname rs h)).
Proof.
  intros Hwf. split; [by apply tcp_insert_ok|].
  split; intros; [by apply tcp_get_hostname_Some|by eapply tcp_get_hostname_is_Some].
Qed.
End tcp.
End Tcp.
