(* ===== verification/BindStore.v ===== *)
(** * The configuration store

    [Store] of [store/binds.rs]: binds and their listeners, routes by target,
    policies by key and by target, backends, and the xDS and local-file
    updates that change them ([insert_xds], [remove_resource],
    [StoreUpdater::handle], [StoreUpdater::sync_local]).

    [HashOrder] is the iteration order of Rust's hash maps and sets, which is
    unspecified: any permutation. Opening sockets ([bind_listeners]) is a
    parameter, and so is here the conversion of xDS resources to the internal
    types, which [AgentXds] gives. *)
From stdpp Require Import base gmap strings list.
From S2P Require Import Prelude RustStd XdsClient Authorization AgentTypes RouteSet TcpRouteSet.

(** ** State *)

Inductive BindProtocol := BPhttp | BPtls | BPtcp | BPauto.
Inductive TunnelProtocol := TPDirect | TPHboneWaypoint | TPHboneGateway | TPProxy.

Record Bind := mkBind {
  bind_key : string;
  bind_address : SocketAddr;
  bind_protocol : BindProtocol;
  bind_tunnel_protocol : TunnelProtocol;
  bind_listeners : gmap string Listener;   (* ListenerSet::inner *)
}.

(** [RouteTarget]: where a route set is attached. *)
Inductive RouteTarget :=
| RTListener (key : string)
| RTService (s : NamespacedHostname)
| RTRouteGroup (key : string).

#[global] Instance RouteTarget_eq_dec : EqDecision RouteTarget.
Proof. solve_decision. Defined.
#[global] Instance RouteTarget_countable : Countable RouteTarget.
Proof.
  refine (inj_countable'
    (λ t, match t with RTListener k => inl (inl k) | RTService s => inl (inr s) | RTRouteGroup k => inr k end)
    (λ p, match p with inl (inl k) => RTListener k | inl (inr s) => RTService s | inr k => RTRouteGroup k end) _).
  by intros [].
Defined.

Inductive ResourceKind :=
| RKPolicy (k : string)
| RKBind (k : string)
| RKRoute (k : string)
| RKTcpRoute (k : string)
| RKListener (k : string)
| RKBackend (k : string).

(** Bind events queued for the gateway ([BindEvent]); the socket handed over
    with an [Add] is the parameter [os]. *)
Inductive BindEvent (os : Type) :=
| BEAdd (b : Bind) (sock : os)
| BERemove (k : string).
Arguments BEAdd {os} _ _.
Arguments BERemove {os} _.

Section store.
Context {RE : RegexEngine} {PL : Payloads} {HO : HashOrder}.
Context {Sockets BackendWithPolicies : Type}.

Record TargetedPolicy := mkTargetedPolicy {
  tp_key : string;
  tp_target : PolicyTarget;
  tp_policy : PolicyType;
}.

Record Store := mkStore {
  ipv6_enabled : bool;
  binds : gmap string Bind;
  resources : gmap string ResourceKind;
  policies_by_key : gmap string TargetedPolicy;
  policies_by_target : gmap PolicyTarget (gset string);
  backends : gmap string BackendWithPolicies;
  pending_listeners : gmap string (gmap string Listener);
  http_routes : gmap RouteTarget RouteSet;
  tcp_routes : gmap RouteTarget Tcp.TCPRouteSet;
  listener_epoch : Z;                        (* listener_change_tx *)
  events : list (BindEvent Sockets);         (* tx *)
}.

Definition store_new (ipv6 : bool) : Store :=
  mkStore ipv6 ∅ ∅ ∅ ∅ ∅ ∅ ∅ ∅ 0 [].

(** Field updates. *)
Definition set_binds b s := mkStore (ipv6_enabled s) b (resources s) (policies_by_key s)
  (policies_by_target s) (backends s) (pending_listeners s) (http_routes s) (tcp_routes s)
  (listener_epoch s) (events s).
Definition set_resources r s := mkStore (ipv6_enabled s) (binds s) r (policies_by_key s)
  (policies_by_target s) (backends s) (pending_listeners s) (http_routes s) (tcp_routes s)
  (listener_epoch s) (events s).
Definition set_policies pk pt s := mkStore (ipv6_enabled s) (binds s) (resources s) pk pt
  (backends s) (pending_listeners s) (http_routes s) (tcp_routes s) (listener_epoch s) (events s).
Definition set_backends b s := mkStore (ipv6_enabled s) (binds s) (resources s)
  (policies_by_key s) (policies_by_target s) b (pending_listeners s) (http_routes s)
  (tcp_routes s) (listener_epoch s) (events s).
Definition set_pending p s := mkStore (ipv6_enabled s) (binds s) (resources s)
  (policies_by_key s) (policies_by_target s) (backends s) p (http_routes s) (tcp_routes s)
  (listener_epoch s) (events s).
Definition set_http_routes h s := mkStore (ipv6_enabled s) (binds s) (resources s)
  (policies_by_key s) (policies_by_target s) (backends s) (pending_listeners s) h
  (tcp_routes s) (listener_epoch s) (events s).
Definition set_tcp_routes t s := mkStore (ipv6_enabled s) (binds s) (resources s)
  (policies_by_key s) (policies_by_target s) (backends s) (pending_listeners s)
  (http_routes s) t (listener_epoch s) (events s).
Definition set_epoch e s := mkStore (ipv6_enabled s) (binds s) (resources s)
  (policies_by_key s) (policies_by_target s) (backends s) (pending_listeners s)
  (http_routes s) (tcp_routes s) e (events s).
Definition push_event ev s := mkStore (ipv6_enabled s) (binds s) (resources s)
  (policies_by_key s) (policies_by_target s) (backends s) (pending_listeners s)
  (http_routes s) (tcp_routes s) (listener_epoch s) (events s ++ [ev]).

(** ** Reads *)

Definition get_listener_routes (s : Store) (listener : string) : option RouteSet :=
  http_routes s !! RTListener listener.
Definition get_service_routes (s : Store) (k : NamespacedHostname) : option RouteSet :=
  http_routes s !! RTService k.
Definition lookup_route_group (s : Store) (k : string) : option RouteSet :=
  http_routes s !! RTRouteGroup k.
Definition get_listener_tcp_routes (s : Store) (listener : string) : option Tcp.TCPRouteSet :=
  tcp_routes s !! RTListener listener.
Definition get_service_tcp_routes (s : Store) (k : NamespacedHostname) : option Tcp.TCPRouteSet :=
  tcp_routes s !! RTService k.
Definition get_bind_listener (s : Store) (bind listener : string) : option Listener :=
  b ← binds s !! bind; bind_listeners b !! listener.

(** [IpAddr::is_unspecified]. *)
Definition is_unspecified (a : IpAddr) : bool :=
  match a with V4 b => Z.eqb b 0 | V6 b => Z.eqb b 0 end.

Definition find_bind (s : Store) (want : SocketAddr) : option Bind :=
  list_find_by (λ b,
    let have := bind_address b in
    if is_unspecified (ip have) then Z.eqb (port have) (port want)
    else bool_decide (have = want)) (map_iter (binds s)).*2.

(** ** Listeners and binds *)

Definition notify_listener_changed (s : Store) : Store :=
  set_epoch (u64_saturating_add (listener_epoch s) 1) s.

(** [bind_listener_changed]: some listener of the new bind differs from the
    old one of the same key, or an old listener is gone or different. *)
Definition bind_listener_changed (old new : Bind) : bool :=
  existsb (λ nl : Listener,
    match bind_listeners old !! lis_key nl with
    | None => false
    | Some ol => negb (bool_decide (ol = nl))
    end) (map_iter (bind_listeners new)).*2
  || existsb (λ ol : Listener,
    match bind_listeners new !! lis_key ol with
    | None => true
    | Some nl => negb (bool_decide (ol = nl))
    end) (map_iter (bind_listeners old)).*2.

(** [ListenerSet::insert]. *)
Definition listener_insert (v : Listener) (ls : gmap string Listener) : gmap string Listener :=
  <[lis_key v := v]> ls.

Definition with_listeners (b : Bind) (ls : gmap string Listener) : Bind :=
  mkBind (bind_key b) (bind_address b) (bind_protocol b) (bind_tunnel_protocol b) ls.

(** The pending listeners of a bind are added when it arrives. *)
Definition add_pending (s : Store) (b : Bind) : Bind :=
  with_listeners b
    (foldl (λ ls l, listener_insert l ls) (bind_listeners b)
       (map_iter (default ∅ (pending_listeners s !! bind_key b))).*2).

(** [upsert_bind]; [os_bind] opens the listening sockets, [None] when the
    system refuses. *)
Definition upsert_bind (os_bind : SocketAddr → option Sockets) (key : string) (b : Bind)
    (s : Store) : Store :=
  let old_bind := binds s !! key in
  let b := add_pending s b in
  let s := set_pending (delete (bind_key b) (pending_listeners s)) s in
  let listeners := match binds s !! key with
                   | Some _ => None
                   | None => os_bind (bind_address b)
                   end in
  let s := match old_bind with
           | Some ob => if bind_listener_changed ob b then notify_listener_changed s else s
           | None => s
           end in
  let s := set_binds (<[key := b]> (binds s)) s in
  match listeners with
  | Some l => push_event (BEAdd b l) s
  | None => s
  end.

Definition insert_bind (os_bind : SocketAddr → option Sockets) (b : Bind) (s : Store) : Store :=
  upsert_bind os_bind (bind_key b) b s.

Definition remove_bind (key : string) (s : Store) : Store :=
  push_event (BERemove key) (set_binds (delete key (binds s)) s).

Definition insert_listener (os_bind : SocketAddr → option Sockets) (lis : Listener)
    (bind_name : string) (s : Store) : Store :=
  match binds s !! bind_name with
  | Some b =>
      upsert_bind os_bind bind_name
        (with_listeners b (listener_insert lis (delete (lis_key lis) (bind_listeners b)))) s
  | None =>
      set_pending
        (<[bind_name := <[lis_key lis := lis]> (default ∅ (pending_listeners s !! bind_name))]>
           (pending_listeners s)) s
  end.

(** [remove_listener]: the first bind (in iteration order) holding the
    listener loses it. *)
Definition remove_listener (os_bind : SocketAddr → option Sockets) (listener : string)
    (s : Store) : Store :=
  match find_map (λ kb : string * Bind,
          match bind_listeners kb.2 !! listener with Some _ => Some kb | None => None end)
          (map_iter (binds s)) with
  | None => s
  | Some (bk, b) =>
      upsert_bind os_bind bk (with_listeners b (delete listener (bind_listeners b))) s
  end.

(** ** Routes *)

Definition insert_http_route_target (t : RouteTarget) (r : Route) (s : Store) : outcome Store :=
  rs ← RouteSet.insert (default routeset_empty (http_routes s !! t)) r;
  Ret (set_http_routes (<[t := rs]> (http_routes s)) s).

Definition insert_tcp_route_target (t : RouteTarget) (r : TCPRoute) (s : Store) : outcome Store :=
  rs ← Tcp.insert (default Tcp.empty (tcp_routes s !! t)) r;
  Ret (set_tcp_routes (<[t := rs]> (tcp_routes s)) s).

Definition insert_route_into_group (r : Route) (g : string) := insert_http_route_target (RTRouteGroup g) r.
Definition insert_route (r : Route) (ln : string) := insert_http_route_target (RTListener ln) r.
Definition insert_tcp_route (r : TCPRoute) (ln : string) := insert_tcp_route_target (RTListener ln) r.
Definition insert_service_route (r : Route) (sk : NamespacedHostname) :=
  insert_http_route_target (RTService sk) r.
Definition insert_service_tcp_route (r : TCPRoute) (sk : NamespacedHostname) :=
  insert_tcp_route_target (RTService sk) r.

(** The [retain] closure of [remove_http_route]. *)
Definition retain_http (key : string) (rs : RouteSet) : option RouteSet :=
  let rs := if RouteSet.contains rs key then RouteSet.remove rs key else rs in
  if RouteSet.is_empty rs then None else Some rs.

Definition retain_tcp (key : string) (rs : Tcp.TCPRouteSet) : option Tcp.TCPRouteSet :=
  let rs := if Tcp.contains rs key then Tcp.remove rs key else rs in
  if Tcp.is_empty rs then None else Some rs.

Definition remove_route (key : string) (s : Store) : Store :=
  set_http_routes (omap (retain_http key) (http_routes s)) s.
Definition remove_tcp_route (key : string) (s : Store) : Store :=
  set_tcp_routes (omap (retain_tcp key) (tcp_routes s)) s.
Definition remove_route_group (g : string) (s : Store) : Store :=
  set_http_routes (delete (RTRouteGroup g) (http_routes s)) s.

(** ** Policies and backends *)

Definition insert_policy (p : TargetedPolicy) (s : Store) : Store :=
  let pt := match policies_by_key s !! tp_key p with
            | Some old => alter (λ o, o ∖ {[tp_key p]}) (tp_target old) (policies_by_target s)
            | None => policies_by_target s
            end in
  set_policies (<[tp_key p := p]> (policies_by_key s))
    (<[tp_target p := {[tp_key p]} ∪ default ∅ (pt !! tp_target p)]> pt) s.

Definition remove_policy (key : string) (s : Store) : Store :=
  match policies_by_key s !! key with
  | Some old =>
      set_policies (delete key (policies_by_key s))
        (alter (λ o, o ∖ {[key]}) (tp_target old) (policies_by_target s)) s
  | None => s
  end.

Definition insert_backend (key : string) (b : BackendWithPolicies) (s : Store) : Store :=
  set_backends (<[key := b]> (backends s)) s.
Definition remove_backend (key : string) (s : Store) : Store :=
  set_backends (delete key (backends s)) s.

Definition remove_resource (os_bind : SocketAddr → option Sockets) (res : string) (s : Store) : Store :=
  match resources s !! res with
  | None => s
  | Some old =>
      let s := set_resources (delete res (resources s)) s in
      match old with
      | RKPolicy n => remove_policy n s
      | RKBind n => remove_bind n s
      | RKRoute n => remove_route n s
      | RKTcpRoute n => remove_tcp_route n s
      | RKListener n => remove_listener os_bind n s
      | RKBackend n => remove_backend n s
      end
  end.

(** ** xDS updates *)

(** Raw xDS messages, their keys and their conversion to internal types; a
    conversion reports warnings and succeeds, fails, or panics. *)
Record XdsConv := mkXdsConv {
  XdsBind : Type; XdsListener : Type; XdsRoute : Type; XdsTcpRoute : Type;
  XdsBackend : Type; XdsPolicy : Type;
  xb_key : XdsBind → string; xl_key : XdsListener → string; xr_key : XdsRoute → string;
  xt_key : XdsTcpRoute → string; xk_key : XdsBackend → string; xp_key : XdsPolicy → string;
  bind_from_xds : XdsBind → bool → outcome (list string * result Bind string);
  listener_from_xds : XdsListener → outcome (list string * result (Listener * string) string);
  route_from_xds : XdsRoute → outcome (list string * result (Route * string * option string) string);
  tcp_route_from_xds : XdsTcpRoute → outcome (list string * result (TCPRoute * string) string);
  backend_from_proto : XdsBackend → outcome (list string * result BackendWithPolicies string);
  policy_from_proto : XdsPolicy → outcome (list string * result TargetedPolicy string);
}.

Section xds.
Context (C : XdsConv) (os_bind : SocketAddr → option Sockets).

Inductive XdsKind :=
| XKBind (w : XdsBind C)
| XKListener (w : XdsListener C)
| XKRoute (w : XdsRoute C)
| XKTcpRoute (w : XdsTcpRoute C)
| XKBackend (w : XdsBackend C)
| XKPolicy (w : XdsPolicy C).

(** What an insertion reports: the warnings gathered, and success or the
    error. *)
Abbreviation xds_result := (list string * result () string)%type.

Definition insert_xds_bind (raw : XdsBind C) (s : Store) : outcome (Store * xds_result) :=
  '(ws, r) ← bind_from_xds C raw (ipv6_enabled s);
  match r with
  | Err e => Ret (s, (ws, Err e))
  | Ok b =>
      let b := match binds s !! bind_key b with
               | Some old => with_listeners b (bind_listeners old)
               | None => b
               end in
      Ret (insert_bind os_bind b s, (ws, Ok ()))
  end.

Definition insert_xds_listener (raw : XdsListener C) (s : Store) : outcome (Store * xds_result) :=
  '(ws, r) ← listener_from_xds C raw;
  match r with
  | Err e => Ret (s, (ws, Err e))
  | Ok (lis, bind_name) => Ret (insert_listener os_bind lis bind_name s, (ws, Ok ()))
  end.

Definition insert_xds_route (raw : XdsRoute C) (s : Store) : outcome (Store * xds_result) :=
  '(ws, r) ← route_from_xds C raw;
  match r with
  | Err e => Ret (s, (ws, Err e))
  | Ok (route, listener_name, rgk) =>
      s' ← match rgk with
           | Some rgk => insert_route_into_group route rgk s
           | None =>
               match route_service_key route with
               | Some sk => insert_service_route route sk s
               | None => insert_route route listener_name s
               end
           end;
      Ret (s', (ws, Ok ()))
  end.

Definition insert_xds_tcp_route (raw : XdsTcpRoute C) (s : Store) : outcome (Store * xds_result) :=
  '(ws, r) ← tcp_route_from_xds C raw;
  match r with
  | Err e => Ret (s, (ws, Err e))
  | Ok (route, listener_name) =>
      s' ← match tcp_service_key route with
           | Some sk => insert_service_tcp_route route sk s
           | None => insert_tcp_route route listener_name s
           end;
      Ret (s', (ws, Ok ()))
  end.

Definition insert_xds_backend (raw : XdsBackend C) (s : Store) : outcome (Store * xds_result) :=
  '(ws, r) ← backend_from_proto C raw;
  match r with
  | Err e => Ret (s, (ws, Err e))
  | Ok b => Ret (insert_backend (xk_key C raw) b s, (ws, Ok ()))
  end.

Definition insert_xds_policy (raw : XdsPolicy C) (s : Store) : outcome (Store * xds_result) :=
  '(ws, r) ← policy_from_proto C raw;
  match r with
  | Err e => Ret (s, (ws, Err e))
  | Ok p => Ret (insert_policy p s, (ws, Ok ()))
  end.

(** [insert_xds]: the resource's name is recorded before it is converted. *)
Definition insert_xds (name : string) (kind : option XdsKind) (s : Store)
    : outcome (Store * xds_result) :=
  let record k := set_resources (<[name := k]> (resources s)) s in
  match kind with
  | Some (XKBind w) => insert_xds_bind w (record (RKBind (xb_key C w)))
  | Some (XKListener w) => insert_xds_listener w (record (RKListener (xl_key C w)))
  | Some (XKRoute w) => insert_xds_route w (record (RKRoute (xr_key C w)))
  | Some (XKTcpRoute w) => insert_xds_tcp_route w (record (RKTcpRoute (xt_key C w)))
  | Some (XKBackend w) => insert_xds_backend w (record (RKBackend (xk_key C w)))
  | Some (XKPolicy w) => insert_xds_policy w (record (RKPolicy (xp_key C w)))
  | None => Ret (s, ([], Err "unknown resource type"%string))
  end.

(** [StoreUpdater::handle]: every update is applied, and the failures and
    warnings are collected. *)
Fixpoint handle_loop (updates : list (XdsUpdate (option XdsKind))) (s : Store) (rejects : list RejectedConfig)
    : outcome (Store * list RejectedConfig) :=
  match updates with
  | [] => Ret (s, rejects)
  | XUpdate name kind :: us =>
      '(s', (ws, r)) ← insert_xds name kind s;
      handle_loop us s'
        (match r with
         | Ok _ => rejects ++ (RejWarning name <$> ws)
         | Err e => rejects ++ [RejError name e]
         end)
  | XRemove name :: us => handle_loop us (remove_resource os_bind name s) rejects
  end.

Definition handle (updates : list (XdsUpdate (option XdsKind))) (s : Store)
    : outcome (Store * result () (list RejectedConfig)) :=
  '(s', rejects) ← handle_loop updates s [];
  Ret (s', match rejects with [] => Ok () | _ => Err rejects end).
End xds.

(** ** Local configuration *)

Record PreviousState := mkPrev {
  prev_binds : gset string;
  prev_routes : gset string;
  prev_tcp_routes : gset string;
  prev_policies : gset string;
  prev_backends : gset string;
  prev_route_groups : gset string;
}.

Definition prev_empty : PreviousState := mkPrev ∅ ∅ ∅ ∅ ∅ ∅.

Fixpoint insert_routes (t : RouteTarget) (rs : list Route) (s : Store) : outcome Store :=
  match rs with
  | [] => Ret s
  | r :: rs' => s' ← insert_http_route_target t r s; insert_routes t rs' s'
  end.

Fixpoint insert_tcp_routes (t : RouteTarget) (rs : list TCPRoute) (s : Store) : outcome Store :=
  match rs with
  | [] => Ret s
  | r :: rs' => s' ← insert_tcp_route_target t r s; insert_tcp_routes t rs' s'
  end.

Fixpoint insert_grouped {R} (ins : RouteTarget → list R → Store → outcome Store)
    (mk : string → RouteTarget) (l : list (string * list R)) (s : Store) : outcome Store :=
  match l with
  | [] => Ret s
  | (k, rs) :: l' => s' ← ins (mk k) rs s; insert_grouped ins mk l' s'
  end.

(** [StoreUpdater::sync_local]: installs the new configuration, then removes
    what the previous one had and the new one does not mention. Returns the
    names of the new configuration. [backend_name] is [Backend::name]. *)
Definition sync_local (os_bind : SocketAddr → option Sockets)
    (backend_name : BackendWithPolicies → string)
    (bs : list Bind) (listener_routes : list (string * list Route))
    (listener_tcp_routes : list (string * list TCPRoute)) (pols : list TargetedPolicy)
    (bks : list BackendWithPolicies) (route_groups : list (string * list Route))
    (prev : PreviousState) (s : Store) : outcome (Store * PreviousState) :=
  let next := mkPrev
    (list_to_set (bind_key <$> bs))
    (list_to_set (route_key <$> (listener_routes ≫= snd)))
    (list_to_set (tcp_key <$> (listener_tcp_routes ≫= snd)))
    (list_to_set (tp_key <$> pols))
    (list_to_set (backend_name <$> bks))
    (list_to_set route_groups.*1) in
  let s := foldl (λ s b, insert_bind os_bind b s) s bs in
  let s := foldl (λ s b, insert_backend (backend_name b) b s) s bks in
  s ← insert_grouped insert_routes RTListener listener_routes s;
  s ← insert_grouped insert_tcp_routes RTListener listener_tcp_routes s;
  let s := foldl (λ s p, insert_policy p s) s pols in
  s ← insert_grouped insert_routes RTRouteGroup route_groups s;
  let s := foldl (λ s k, remove_bind k s) s (set_iter (prev_binds prev ∖ prev_binds next)) in
  let s := foldl (λ s k, remove_route k s) s (set_iter (prev_routes prev ∖ prev_routes next)) in
  let s := foldl (λ s k, remove_tcp_route k s) s
             (set_iter (prev_tcp_routes prev ∖ prev_tcp_routes next)) in
  let s := foldl (λ s k, remove_policy k s) s
             (set_iter (prev_policies prev ∖ prev_policies next)) in
  let s := foldl (λ s k, remove_backend k s) s
             (set_iter (prev_backends prev ∖ prev_backends next)) in
  let s := foldl (λ s k, remove_route_group k s) s
             (set_iter (prev_route_groups prev ∖ prev_route_groups next)) in
  Ret (s, next).
End store.

Arguments Store {_ _} _ _.
Arguments XdsConv {_ _} _.
