(* ===== verification/BindStoreFacts.v ===== *)
(** * Correctness of the configuration store

    The invariant of [Store] (well-formed route sets, a policy index that
    agrees with the policies, listeners filed under their own keys), that
    every mutator preserves it and none panics, and what updates and removals
    leave behind. *)
From stdpp Require Import base gmap strings list.
From S2P Require Import Prelude RustStd XdsClient Authorization AgentTypes RouteSet TcpRouteSet BindStore.

Section facts.
Context {RE : RegexEngine} {PL : Payloads} {HO : HashOrder}.
Context {Sockets BackendWithPolicies : Type}.
Local Abbreviation Store := (Store Sockets BackendWithPolicies).
Implicit Types s : Store.

(** ** Invariant *)

(** Listeners are filed under their own keys. *)
Definition keyed (ls : gmap string Listener) : Prop :=
  ∀ k l, ls !! k = Some l → lis_key l = k.

Record store_wf s : Prop := {
  sw_http : ∀ t rs, http_routes s !! t = Some rs → RouteSet.wf rs;
  sw_tcp : ∀ t rs, tcp_routes s !! t = Some rs → Tcp.wf rs;
  sw_pol_key : ∀ k p, policies_by_key s !! k = Some p → tp_key p = k;
  sw_pol_sound : ∀ t X k, policies_by_target s !! t = Some X → k ∈ X →
    ∃ p, policies_by_key s !! k = Some p ∧ tp_target p = t;
  sw_pol_complete : ∀ k p, policies_by_key s !! k = Some p →
    ∃ X, policies_by_target s !! tp_target p = Some X ∧ k ∈ X;
  sw_listeners : ∀ bk b, binds s !! bk = Some b → keyed (bind_listeners b);
  sw_pending : ∀ bk ls, pending_listeners s !! bk = Some ls → keyed ls;
}.

Lemma store_new_wf ipv6 : store_wf (store_new ipv6).
Proof. by split; intros *; simpl; rewrite lookup_empty. Qed.

(** ** Policies *)

(** The policy keys found under a target. *)
Definition keys_at s (t : PolicyTarget) : gset string := default ∅ (policies_by_target s !! t).

Lemma keys_at_spec s t k :
  store_wf s → k ∈ keys_at s t ↔ ∃ p, policies_by_key s !! k = Some p ∧ tp_target p = t.
Proof.
  intros Hwf. unfold keys_at. split.
  - destruct (policies_by_target s !! t) as [X|] eqn:E; simpl; [|set_solver].
    by apply (sw_pol_sound _ Hwf).
  - intros (p & Hp & <-). destruct (sw_pol_complete _ Hwf _ _ Hp) as (X & -> & ?). done.
Qed.

Lemma alter_keys (m : gmap PolicyTarget (gset string)) k t t' :
  default ∅ (alter (λ o, o ∖ {[k]}) t' m !! t) =
  if decide (t = t') then default ∅ (m !! t) ∖ {[k]} else default ∅ (m !! t).
Proof.
  rewrite lookup_alter. destruct (decide (t' = t)) as [<-|Hne].
  - rewrite decide_True by done. destruct (m !! t'); simpl; set_solver.
  - by rewrite decide_False.
Qed.

(** The index part of the invariant, as agreement with the policies. *)
Lemma store_wf_index (pk : gmap string TargetedPolicy) (pt : gmap PolicyTarget (gset string)) :
  (∀ t k, k ∈ default ∅ (pt !! t) ↔ ∃ p, pk !! k = Some p ∧ tp_target p = t) →
  (∀ t X k, pt !! t = Some X → k ∈ X → ∃ p, pk !! k = Some p ∧ tp_target p = t) ∧
  (∀ k p, pk !! k = Some p → ∃ X, pt !! tp_target p = Some X ∧ k ∈ X).
Proof.
  intros H. split.
  - intros t X k Ht Hk. apply H. by rewrite Ht.
  - intros k p Hp. destruct (pt !! tp_target p) as [X|] eqn:E.
    + exists X. split; [done|]. assert (k ∈ default ∅ (pt !! tp_target p)) as Hk by (apply H; eauto).
      by rewrite E in Hk.
    + assert (k ∈ default ∅ (pt !! tp_target p)) as Hk by (apply H; eauto).
      rewrite E in Hk. simpl in Hk. set_solver.
Qed.

Lemma insert_policy_index s p t k :
  store_wf s →
  k ∈ keys_at (insert_policy p s) t ↔
  ∃ q, policies_by_key (insert_policy p s) !! k = Some q ∧ tp_target q = t.
Proof.
  intros Hwf. unfold keys_at, insert_policy. cbn [policies_by_target policies_by_key set_policies].
  set (pt := match policies_by_key s !! tp_key p with
             | Some old => alter (λ o, o ∖ {[tp_key p]}) (tp_target old) (policies_by_target s)
             | None => policies_by_target s end).
  assert (∀ t k, k ∈ default ∅ (pt !! t) ↔
    k ≠ tp_key p ∧ ∃ q, policies_by_key s !! k = Some q ∧ tp_target q = t) as Hpt.
  { intros t' k'. unfold pt. destruct (policies_by_key s !! tp_key p) as [old|] eqn:E.
    - rewrite alter_keys. case_decide as Hd.
      + rewrite elem_of_difference, elem_of_singleton, <-(keys_at_spec s t' k' Hwf).
        unfold keys_at. tauto.
      + rewrite <-(keys_at_spec s t' k' Hwf). unfold keys_at. split; [|tauto].
        intros Hk. split; [|done]. intros ->.
        apply (keys_at_spec s t' _ Hwf) in Hk as (q & Hq & <-). congruence.
    - rewrite <-(keys_at_spec s t' k' Hwf). unfold keys_at. split; [|tauto].
      intros Hk. split; [|done]. intros ->.
      apply (keys_at_spec s t' _ Hwf) in Hk as (q & Hq & _). congruence. }
  rewrite lookup_insert. case_decide as Hd.
  - simpl. rewrite elem_of_union, elem_of_singleton, Hpt. split.
    + intros [->|[Hk (q & Hq & Ht)]]; [exists p; by rewrite lookup_insert_eq|].
      exists q. rewrite lookup_insert_ne by done. split; congruence.
    + intros (q & Hq & Ht). apply lookup_insert_Some in Hq as [[-> ->]|[Hk Hq]]; [by left|].
      right. split; [done|]. exists q. split; congruence.
  - rewrite Hpt. split.
    + intros [Hk (q & Hq & <-)]. exists q. by rewrite lookup_insert_ne.
    + intros (q & Hq & Ht). apply lookup_insert_Some in Hq as [[-> ->]|[Hk Hq]]; [done|].
      split; [done|]. eauto.
Qed.

Lemma insert_policy_wf p s : store_wf s → store_wf (insert_policy p s).
Proof.
  intros Hwf. pose proof (λ t k, insert_policy_index s p t k Hwf) as Hidx.
  apply store_wf_index in Hidx as [H1 H2].
  split; try apply Hwf; [|exact H1|exact H2].
  intros k q. unfold insert_policy; simpl. rewrite lookup_insert_Some.
  intros [[<- <-]|[_ Hq]]; [done|]. by apply (sw_pol_key _ Hwf).
Qed.

Lemma remove_policy_index s key t k :
  store_wf s →
  k ∈ keys_at (remove_policy key s) t ↔
  ∃ q, policies_by_key (remove_policy key s) !! k = Some q ∧ tp_target q = t.
Proof.
  intros Hwf. unfold remove_policy.
  destruct (policies_by_key s !! key) as [old|] eqn:E; [|by apply keys_at_spec].
  unfold keys_at; simpl. rewrite alter_keys.
  assert (∀ q, policies_by_key s !! k = Some q ∧ tp_target q = t →
    k ∈ keys_at s t) as Hin by (intros q ?; apply keys_at_spec; eauto).
  setoid_rewrite lookup_delete_Some. case_decide as Hd.
  - rewrite elem_of_difference, elem_of_singleton. fold (keys_at s t).
    rewrite (keys_at_spec s t k Hwf). naive_solver.
  - fold (keys_at s t). rewrite (keys_at_spec s t k Hwf). split; [|naive_solver].
    intros (q & Hq & Ht). exists q. split; [|done]. split; [|done]. intros ->. congruence.
Qed.

Lemma remove_policy_wf key s : store_wf s → store_wf (remove_policy key s).
Proof.
  intros Hwf. pose proof (λ t k, remove_policy_index s key t k Hwf) as Hidx.
  apply store_wf_index in Hidx as [H1 H2]. revert H1 H2. unfold remove_policy.
  destruct (policies_by_key s !! key) as [old|] eqn:E; [|done]. intros H1 H2.
  split; try apply Hwf; [simpl|exact H1|exact H2].
  intros k q [_ Hq]%lookup_delete_Some. by apply (sw_pol_key _ Hwf).
Qed.

(** ** Routes *)

Lemma insert_http_wf t r s :
  store_wf s → ∃ s', insert_http_route_target t r s = Ret s' ∧ store_wf s' ∧
    ∃ rs, http_routes s' = <[t := rs]> (http_routes s) ∧
      RouteSet.all rs = <[route_key r := r]> (RouteSet.all (default routeset_empty (http_routes s !! t))).
Proof.
  intros Hwf. unfold insert_http_route_target.
  destruct (RouteSet.insert_ok (default routeset_empty (http_routes s !! t)) r)
    as (rs & -> & Hrs & Hall).
  { destruct (http_routes s !! t) eqn:E; simpl; [by eapply sw_http|apply wf_empty]. }
  eexists. split; [done|]. split; [|simpl; eauto].
  split; try apply Hwf. simpl. intros t' rs'. rewrite lookup_insert_Some.
  intros [[<- <-]|[_ Hr]]; [done|]. by eapply sw_http.
Qed.

Lemma insert_tcp_wf t r s :
  store_wf s → ∃ s', insert_tcp_route_target t r s = Ret s' ∧ store_wf s'.
Proof.
  intros Hwf. unfold insert_tcp_route_target.
  destruct (Tcp.tcp_insert_ok (default Tcp.empty (tcp_routes s !! t)) r) as (rs & -> & Hrs & _).
  { destruct (tcp_routes s !! t) eqn:E; simpl; [by eapply sw_tcp|apply Tcp.tcp_wf_empty]. }
  eexists. split; [done|]. split; try apply Hwf. simpl. intros t' rs'. rewrite lookup_insert_Some.
  intros [[<- <-]|[_ Hr]]; [done|]. by eapply sw_tcp.
Qed.

Lemma retain_http_Some key rs rs' :
  RouteSet.wf rs → retain_http key rs = Some rs' →
  RouteSet.wf rs' ∧ RouteSet.all rs' = delete key (RouteSet.all rs) ∧ RouteSet.is_empty rs' = false.
Proof.
  intros Hwf. unfold retain_http.
  set (r0 := if RouteSet.contains rs key then RouteSet.remove rs key else rs).
  assert (RouteSet.wf r0 ∧ RouteSet.all r0 = delete key (RouteSet.all rs)) as [H1 H2].
  { unfold r0, contains. destruct (RouteSet.all rs !! key) eqn:E; simpl.
    - split; [by apply RouteSet.remove_wf|apply RouteSet.remove_all].
    - split; [done|]. by rewrite delete_id. }
  destruct (RouteSet.is_empty r0) eqn:E; [done|]. by intros [= <-].
Qed.

Lemma remove_route_wf key s : store_wf s → store_wf (remove_route key s).
Proof.
  intros Hwf. split; try apply Hwf. simpl. intros t rs.
  rewrite lookup_omap. intros (rs0 & Hrs0 & Hret)%bind_Some.
  apply retain_http_Some in Hret; [apply Hret|by eapply sw_http].
Qed.

Lemma remove_tcp_route_wf key s : store_wf s → store_wf (remove_tcp_route key s).
Proof.
  intros Hwf. split; try apply Hwf. simpl. intros t rs.
  rewrite lookup_omap. intros (rs0 & Hrs0 & Hret)%bind_Some.
  pose proof (sw_tcp _ Hwf _ _ Hrs0) as Hw. unfold retain_tcp in Hret.
  destruct (Tcp.contains rs0 key), (Tcp.is_empty _); simplify_eq; auto using Tcp.tcp_remove_wf.
Qed.

Lemma remove_route_group_wf g s : store_wf s → store_wf (remove_route_group g s).
Proof.
  intros Hwf. split; try apply Hwf. simpl. intros t rs [_ H]%lookup_delete_Some.
  by eapply sw_http.
Qed.

(** ** Listeners *)

Lemma keyed_insert l ls : keyed ls → keyed (listener_insert l ls).
Proof.
  intros H k l'. unfold listener_insert. rewrite lookup_insert_Some.
  intros [[<- <-]|[_ Hl]]; [done|by apply H].
Qed.

Lemma keyed_delete k ls : keyed ls → keyed (delete k ls).
Proof. intros H k' l [_ Hl]%lookup_delete_Some. by apply H. Qed.

Lemma keyed_foldl ls vs : keyed ls → keyed (foldl (λ ls l, listener_insert l ls) ls vs).
Proof.
  revert ls. induction vs as [|v vs IH]; intros ls H; simpl; [done|].
  by apply IH, keyed_insert.
Qed.

Lemma upsert_bind_wf os_bind key b s :
  store_wf s → keyed (bind_listeners b) → store_wf (upsert_bind os_bind key b s).
Proof.
  intros Hwf Hb. unfold upsert_bind.
  assert (∀ s', store_wf s' → store_wf (notify_listener_changed s')) as Hn
    by (intros s' H'; split; apply H').
  assert (∀ s' ev, store_wf s' → store_wf (push_event ev s')) as Hp
    by (intros s' ev H'; split; apply H').
  assert (store_wf (set_pending (delete (bind_key (add_pending s b)) (pending_listeners s)) s)) as H1.
  { split; try apply Hwf. simpl. intros bk ls [_ Hl]%lookup_delete_Some. by eapply sw_pending. }
  assert (∀ s', store_wf s' → store_wf (set_binds (<[key := add_pending s b]> (binds s')) s')) as Hset.
  { intros s' H'. split; try apply H'. simpl. intros bk b'. rewrite lookup_insert_Some.
    intros [[<- <-]|[_ Hb']]; [|by eapply sw_listeners]. by apply keyed_foldl. }
  cbv zeta. destruct (match binds _ !! key with Some _ => None | None => _ end); [apply Hp|];
    apply Hset; destruct (binds s !! key); try done; destruct (bind_listener_changed _ _); auto.
Qed.

Lemma remove_bind_wf key s : store_wf s → store_wf (remove_bind key s).
Proof.
  intros Hwf. split; try apply Hwf. simpl. intros bk b [_ H]%lookup_delete_Some.
  by eapply sw_listeners.
Qed.

Lemma insert_listener_wf os_bind l bn s : store_wf s → store_wf (insert_listener os_bind l bn s).
Proof.
  intros Hwf. unfold insert_listener. destruct (binds s !! bn) as [b|] eqn:E.
  - apply upsert_bind_wf; [done|]. simpl. apply keyed_insert, keyed_delete. by eapply sw_listeners.
  - split; try apply Hwf. simpl. intros bk ls. rewrite lookup_insert_Some.
    intros [[<- <-]|[_ H]]; [|by eapply sw_pending]. apply (keyed_insert l).
    destruct (pending_listeners s !! bn) eqn:Ep; simpl; [by eapply sw_pending|].
    intros k l'. by rewrite lookup_empty.
Qed.


Lemma remove_listener_wf os_bind k s : store_wf s → store_wf (remove_listener os_bind k s).
Proof.
  intros Hwf. unfold remove_listener. destruct (find_map _ _) as [[bk b]|] eqn:E; [|done].
  apply find_map_Some in E as (l1 & [bk' b'] & l2 & Hl & Hf & _). simpl in Hf.
  destruct (bind_listeners b' !! k); simplify_eq.
  apply upsert_bind_wf; [done|]. simpl. apply keyed_delete.
  apply (sw_listeners _ Hwf bk), map_iter_elem. rewrite Hl.
  apply elem_of_app. right. by left.
Qed.

Lemma set_resources_wf r s : store_wf s → store_wf (set_resources r s).
Proof. intros Hwf. split; apply Hwf. Qed.

Lemma remove_resource_wf os_bind res s : store_wf s → store_wf (remove_resource os_bind res s).
Proof.
  intros Hwf. unfold remove_resource. destruct (resources s !! res) as [[]|]; [..|done];
    eauto using set_resources_wf, remove_policy_wf, remove_bind_wf, remove_route_wf,
      remove_tcp_route_wf, remove_listener_wf.
  split; apply Hwf.
Qed.

(** ** xDS updates *)

Section xds.
Context (C : XdsConv BackendWithPolicies) (os_bind : SocketAddr → option Sockets).

(** A converted bind carries listeners filed under their keys
    ([Bind::from_xds] creates it without listeners). *)
Definition binds_keyed : Prop :=
  ∀ raw ipv6 ws b, bind_from_xds C raw ipv6 = Ret (ws, Ok b) → keyed (bind_listeners b).

(** A resource whose conversion does not panic. *)
Definition converts (kind : option (XdsKind C)) : Prop :=
  match kind with
  | Some (XKBind _ w) => ∀ ipv6, bind_from_xds C w ipv6 ≠ Panic
  | Some (XKListener _ w) => listener_from_xds C w ≠ Panic
  | Some (XKRoute _ w) => route_from_xds C w ≠ Panic
  | Some (XKTcpRoute _ w) => tcp_route_from_xds C w ≠ Panic
  | Some (XKBackend _ w) => backend_from_proto C w ≠ Panic
  | Some (XKPolicy _ w) => policy_from_proto C w ≠ Panic
  | None => True
  end.

Lemma insert_xds_ok name kind s :
  binds_keyed → store_wf s →
  match insert_xds C os_bind name kind s with Ret (s', _) => store_wf s' | Panic => ¬ converts kind end.
Proof.
  intros HC Hwf. unfold insert_xds.
  assert (∀ k, store_wf (set_resources (<[name := k]> (resources s)) s)) as Hr by (intros; by apply set_resources_wf).
  destruct kind as [[w|w|w|w|w|w]|]; simpl; [..|done].
  - unfold insert_xds_bind; simpl. destruct (bind_from_xds C w (ipv6_enabled s)) as [[ws [b|e]]|] eqn:E; simpl; [|auto|naive_solver].
    apply upsert_bind_wf; [done|]. destruct (binds s !! bind_key b) eqn:Eb; simpl; [by eapply sw_listeners|by eapply HC].
  - unfold insert_xds_listener. destruct (listener_from_xds C w) as [[ws [[l bn]|e]]|]; simpl; [|auto|naive_solver].
    by apply insert_listener_wf.
  - unfold insert_xds_route. destruct (route_from_xds C w) as [[ws [[[r ln] g]|e]]|]; simpl; [|auto|naive_solver].
    assert (∀ t s0, store_wf s0 → ∃ s', insert_http_route_target t r s0 = Ret s' ∧ store_wf s') as Hi.
    { intros t s0 H0. destruct (insert_http_wf t r s0 H0) as (s' & ? & ? & _). eauto. }
    destruct g as [g|]; [|destruct (route_service_key r) as [sk|]]; (edestruct Hi as (s' & Hs' & Hw'); [by apply Hr|]);
      unfold insert_route_into_group, insert_service_route, insert_route; rewrite Hs'; done.
  - unfold insert_xds_tcp_route. destruct (tcp_route_from_xds C w) as [[ws [[r ln]|e]]|]; simpl; [|auto|naive_solver].
    destruct (tcp_service_key r) as [sk|]; (edestruct (insert_tcp_wf) as (s' & Hs' & Hw'); [by apply Hr|]);
      unfold insert_service_tcp_route, insert_tcp_route; rewrite Hs'; done.
  - unfold insert_xds_backend. destruct (backend_from_proto C w) as [[ws [b|e]]|]; simpl; [|auto|naive_solver].
    split; apply Hwf.
  - unfold insert_xds_policy. destruct (policy_from_proto C w) as [[ws [b|e]]|]; simpl; [|auto|naive_solver].
    by apply insert_policy_wf.
Qed.

(** What is reported of an update: its warnings if it is converted, its error
    if it is not. *)
Definition reports {A} (name : string) (o : outcome (list string * result A string)) : list RejectedConfig :=
  match o with Ret (ws, Ok _) => RejWarning name <$> ws | Ret (_, Err e) => [RejError name e] | Panic => [] end.

Definition complaints (ipv6 : bool) (u : XdsUpdate (option (XdsKind C))) : list RejectedConfig :=
  match u with
  | XUpdate name (Some (XKBind _ w)) => reports name (bind_from_xds C w ipv6)
  | XUpdate name (Some (XKListener _ w)) => reports name (listener_from_xds C w)
  | XUpdate name (Some (XKRoute _ w)) => reports name (route_from_xds C w)
  | XUpdate name (Some (XKTcpRoute _ w)) => reports name (tcp_route_from_xds C w)
  | XUpdate name (Some (XKBackend _ w)) => reports name (backend_from_proto C w)
  | XUpdate name (Some (XKPolicy _ w)) => reports name (policy_from_proto C w)
  | XUpdate name None => [RejError name "unknown resource type"%string]
  | XRemove _ => []
  end.

Lemma upsert_bind_ipv6 k b s : ipv6_enabled (upsert_bind os_bind k b s) = ipv6_enabled s.
Proof. unfold upsert_bind. repeat (case_match; simpl); done. Qed.

Lemma remove_resource_ipv6 name s : ipv6_enabled (remove_resource os_bind name s) = ipv6_enabled s.
Proof.
  unfold remove_resource. destruct (resources s !! name) as [[]|]; [..|done];
    unfold remove_policy, remove_bind, remove_route, remove_tcp_route, remove_listener, remove_backend; repeat (case_match; simpl; rewrite ?upsert_bind_ipv6); done.
Qed.

Lemma insert_http_ipv6 t r s s' : insert_http_route_target t r s = Ret s' → ipv6_enabled s' = ipv6_enabled s.
Proof. intros (rs & _ & [= <-])%bind_Ret_inv. done. Qed.
Lemma insert_tcp_ipv6 t r s s' : insert_tcp_route_target t r s = Ret s' → ipv6_enabled s' = ipv6_enabled s.
Proof. intros (rs & _ & [= <-])%bind_Ret_inv. done. Qed.
Lemma insert_listener_ipv6 l n s : ipv6_enabled (insert_listener os_bind l n s) = ipv6_enabled s.
Proof. unfold insert_listener. case_match; [apply upsert_bind_ipv6|done]. Qed.

Lemma insert_xds_reports name kind s s' ws r :
  insert_xds C os_bind name kind s = Ret (s', (ws, r)) →
  ipv6_enabled s' = ipv6_enabled s ∧
  complaints (ipv6_enabled s) (XUpdate name kind) = match r with Ok _ => RejWarning name <$> ws | Err e => [RejError name e] end.
Proof.
  unfold insert_xds, complaints. destruct kind as [[w|w|w|w|w|w]|]; simpl.
  - intros ([ws' [b|e]] & Hc & H)%bind_Ret_inv; simpl in Hc; rewrite Hc; injection H as <- <- <-; split; try done. unfold insert_bind. by rewrite upsert_bind_ipv6.
  - intros ([ws' [[l n]|e]] & -> & H)%bind_Ret_inv; injection H as <- <- <-; split; try done. by rewrite insert_listener_ipv6.
  - intros ([ws' [[[ro n] g]|e]] & -> & H)%bind_Ret_inv; [|by injection H as <- <- <-].
    apply bind_Ret_inv in H as (s1 & Hs & [= <- <- <-]). split; [|done].
    destruct g; [|destruct (route_service_key ro)]; by apply insert_http_ipv6 in Hs.
  - intros ([ws' [[ro n]|e]] & -> & H)%bind_Ret_inv; [|by injection H as <- <- <-].
    apply bind_Ret_inv in H as (s1 & Hs & [= <- <- <-]). split; [|done]. destruct (tcp_service_key ro); by apply insert_tcp_ipv6 in Hs.
  - intros ([ws' [b|e]] & -> & H)%bind_Ret_inv; by injection H as <- <- <-.
  - intros ([ws' [b|e]] & -> & H)%bind_Ret_inv; by injection H as <- <- <-.
  - by intros [= <- <- <-].
Qed.

Lemma handle_loop_reports us s rej s' rej' :
  handle_loop C os_bind us s rej = Ret (s', rej') → ipv6_enabled s' = ipv6_enabled s ∧ rej' = rej ++ (us ≫= complaints (ipv6_enabled s)).
Proof.
  revert s rej. induction us as [|[name kind|name] us IH]; intros s rej; cbn [handle_loop].
  - intros [= <- <-]. by rewrite app_nil_r.
  - intros ([s1 [ws r]] & Hi & H)%bind_Ret_inv. apply insert_xds_reports in Hi as [Hip Hc]. apply IH in H as [-> ->]. split; [done|].
    rewrite bind_cons, Hc, Hip, app_assoc. f_equal. by destruct r.
  - intros [-> ->]%IH. rewrite remove_resource_ipv6. by rewrite bind_cons.
Qed.

(** Updates whose conversion does not panic are handled; and whenever updates
    are, the invariant holds. *)
Lemma handle_loop_ok us s rej :
  binds_keyed → store_wf s →
  match handle_loop C os_bind us s rej with
  | Ret (s', rej') => store_wf s' ∧ ∃ new, rej' = rej ++ new
  | Panic => ¬ Forall (payload_ok converts) us
  end.
Proof.
  intros HC. revert s rej. induction us as [|[name kind|name] us IH]; intros s rej Hwf; simpl.
  - split; [done|]. exists []. by rewrite app_nil_r.
  - pose proof (insert_xds_ok name kind s HC Hwf) as Hi.
    destruct (insert_xds C os_bind name kind s) as [[s1 [ws r]]|]; simpl; [|intros [Hk _]%Forall_cons; done].
    set (rej1 := match r with Ok _ => _ | Err e => _ end). specialize (IH s1 rej1 Hi).
    destruct (handle_loop C os_bind us s1 rej1) as [[s2 rej2]|]; [|intros [_ H]%Forall_cons; done].
    destruct IH as (Hs2 & new & ->). split; [done|]. unfold rej1. destruct r; rewrite <-app_assoc; eauto.
  - specialize (IH (remove_resource os_bind name s) rej (remove_resource_wf os_bind name s Hwf)).
    destruct (handle_loop C os_bind us (remove_resource os_bind name s) rej) as [[s2 rej2]|]; [done|].
    intros [_ H]%Forall_cons. done.
Qed.
End xds.

(** ** Order of arrival of listeners and binds *)

Lemma foldl_listener_insert vs base :
  NoDup (lis_key <$> vs) →
  foldl (λ ls l, listener_insert l ls) base vs =
  (list_to_map ((λ v, (lis_key v, v)) <$> vs) : gmap string Listener) ∪ base.
Proof.
  revert base. induction vs as [|v vs IH]; intros base Hnd; simpl; [by rewrite (left_id_L ∅ (∪))|].
  apply NoDup_cons in Hnd as [Hv Hnd]. rewrite IH by done. unfold listener_insert.
  rewrite <-insert_union_l, insert_union_r; [done|].
  apply not_elem_of_list_to_map_1. rewrite <-list_fmap_compose.
  by erewrite list_fmap_ext.
Qed.

Lemma keyed_values (ls : gmap string Listener) base :
  keyed ls → foldl (λ ls l, listener_insert l ls) base (map_iter ls).*2 = ls ∪ base.
Proof.
  intros Hk.
  assert ((λ v, (lis_key v, v)) <$> (map_iter ls).*2 = map_iter ls) as Hpairs.
  { rewrite <-list_fmap_compose. transitivity (id <$> map_iter ls); [|apply list_fmap_id].
    apply list_fmap_ext. intros i [k l] Hi. simpl. apply list_elem_of_lookup_2, map_iter_elem in Hi.
    by rewrite (Hk _ _ Hi). }
  rewrite foldl_listener_insert.
  - rewrite Hpairs. f_equal. erewrite list_to_map_proper; [apply list_to_map_to_list| |apply map_iter_perm].
    rewrite map_iter_perm. apply NoDup_fst_map_to_list.
  - replace (lis_key <$> (map_iter ls).*2) with ((map_iter ls).*1).
    + rewrite map_iter_perm. apply NoDup_fst_map_to_list.
    + rewrite <-Hpairs at 1. rewrite <-!list_fmap_compose. done.
Qed.

Lemma pending_keyed s bn : store_wf s → keyed (default ∅ (pending_listeners s !! bn)).
Proof.
  intros Hwf. destruct (pending_listeners s !! bn) eqn:E; simpl; [by eapply sw_pending|].
  intros k l. by rewrite lookup_empty.
Qed.

Lemma upsert_bind_binds os_bind key b s :
  store_wf s →
  binds (upsert_bind os_bind key b s) =
  <[key := with_listeners b (default ∅ (pending_listeners s !! bind_key b) ∪ bind_listeners b)]> (binds s)
  ∧ pending_listeners (upsert_bind os_bind key b s) = delete (bind_key b) (pending_listeners s).
Proof.
  intros Hwf. unfold upsert_bind, add_pending. rewrite keyed_values by by apply pending_keyed.
  cbv zeta. simpl. destruct (binds s !! key); [destruct (bind_listener_changed _ _)|
    destruct (os_bind _)]; done.
Qed.

(** ** Reachable stores *)

(** One public mutation of the store. *)
Inductive store_step (os_bind : SocketAddr → option Sockets) : Store → Store → Prop :=
| step_insert_bind b s : keyed (bind_listeners b) → store_step os_bind s (insert_bind os_bind b s)
| step_remove_bind k s : store_step os_bind s (remove_bind k s)
| step_insert_listener l bn s : store_step os_bind s (insert_listener os_bind l bn s)
| step_remove_listener k s : store_step os_bind s (remove_listener os_bind k s)
| step_insert_route t r s s' :
    insert_http_route_target t r s = Ret s' → store_step os_bind s s'
| step_insert_tcp_route t r s s' :
    insert_tcp_route_target t r s = Ret s' → store_step os_bind s s'
| step_remove_route k s : store_step os_bind s (remove_route k s)
| step_remove_tcp_route k s : store_step os_bind s (remove_tcp_route k s)
| step_remove_route_group k s : store_step os_bind s (remove_route_group k s)
| step_insert_policy p s : store_step os_bind s (insert_policy p s)
| step_remove_policy k s : store_step os_bind s (remove_policy k s)
| step_insert_backend k b s : store_step os_bind s (insert_backend k b s)
| step_remove_backend k s : store_step os_bind s (remove_backend k s)
| step_handle C us s s' r :
    binds_keyed C → handle C os_bind us s = Ret (s', r) → store_step os_bind s s'.

Lemma store_step_wf os_bind s s' : store_step os_bind s s' → store_wf s → store_wf s'.
Proof.
  destruct 1; intros Hwf; eauto using upsert_bind_wf, remove_bind_wf, insert_listener_wf,
    remove_listener_wf, remove_route_wf, remove_tcp_route_wf, remove_route_group_wf,
    insert_policy_wf, remove_policy_wf.
  - edestruct insert_http_wf as (s1 & Hs1 & ? & _); [done|]. rewrite H in Hs1. by simplify_eq.
  - edestruct insert_tcp_wf as (s1 & Hs1 & ?); [done|]. rewrite H in Hs1. by simplify_eq.
  - split; apply Hwf.
  - split; apply Hwf.
  - unfold handle in H0. pose proof (handle_loop_ok C os_bind us s [] H Hwf) as Hl.
    destruct (handle_loop C os_bind us s []) as [[s1 rej]|]; simplify_eq/=. apply Hl.
Qed.

Lemma store_reachable_wf os_bind ipv6 s : rtc (store_step os_bind) (store_new ipv6) s → store_wf s.
Proof.
  intros Hr. pose proof (store_new_wf ipv6) as Hwf. induction Hr as [|s1 s2 s3 H12 _ IH]; [done|].
  by apply IH, (store_step_wf os_bind s1).
Qed.

(** ** Claims *)

(** C18. In every store reachable from the empty one by any sequence of
    mutations a batch of xDS updates is handled without a panic as long as no
    conversion of one of them panics (and conversion files a bind's listeners
    under their keys), and the invariant holds afterwards. The answer is success
    exactly when no update has an error or a warning of its own, and otherwise
    lists exactly these, in order: what one resource has wrong never costs
    another, whatever the store holds. *)
Theorem store_handle_total os_bind ipv6 s (C : XdsConv BackendWithPolicies) us :
  rtc (store_step os_bind) (store_new ipv6) s → binds_keyed C → Forall (payload_ok (converts C)) us →
  ∃ s', handle C os_bind us s = Ret (s', match us ≫= complaints C (ipv6_enabled s) with [] => Ok () | rejects => Err rejects end) ∧
    store_wf s'.
Proof.
  intros Hr HC Hus. apply store_reachable_wf in Hr. pose proof (handle_loop_ok C os_bind us s [] HC Hr) as Hl.
  unfold handle. destruct (handle_loop C os_bind us s []) as [[s' rej]|] eqn:E; [|done].
  apply handle_loop_reports in E as [_ ->]. exists s'. split; [|apply Hl]. simpl. by destruct (us ≫= _).
Qed.

(** A policy is found under its target and nowhere else: after
    [insert_policy], also when the policy moved from another target, its key
    is listed exactly at the new target and every other policy's placement is
    unchanged; after [remove_policy] its key is listed nowhere. *)
Theorem policy_index_exact s p t k :
  store_wf s →
  (tp_key p ∈ keys_at (insert_policy p s) t ↔ t = tp_target p) ∧
  (k ≠ tp_key p → k ∈ keys_at (insert_policy p s) t ↔ k ∈ keys_at s t) ∧
  (k ∉ keys_at (remove_policy k s) t).
Proof.
  intros Hwf. split; [|split].
  - rewrite insert_policy_index by done. unfold insert_policy; simpl. rewrite lookup_insert_eq.
    split; [by intros (q & [= <-] & <-)|]. intros ->. eauto.
  - intros Hk. rewrite insert_policy_index, keys_at_spec by done. unfold insert_policy; simpl.
    by setoid_rewrite (lookup_insert_ne _ (tp_key p) k); [|done..].
  - rewrite remove_policy_index by done. intros (q & Hq & _). unfold remove_policy in Hq.
    destruct (policies_by_key s !! k) eqn:E; simpl in Hq; [by rewrite lookup_delete_eq in Hq|congruence].
Qed.

(** Removing a route removes it from every target and loses nothing
    else: no remaining route set holds the key, and any other route with at
    least one match is still in the route set of its target. *)
Theorem remove_route_exact s key :
  store_wf s →
  (∀ t rs, http_routes (remove_route key s) !! t = Some rs → RouteSet.all rs !! key = None) ∧
  (∀ t rs k r, http_routes s !! t = Some rs → RouteSet.all rs !! k = Some r → k ≠ key →
     route_matches r ≠ [] →
     ∃ rs', http_routes (remove_route key s) !! t = Some rs' ∧ RouteSet.all rs' !! k = Some r).
Proof.
  intros Hwf. split.
  - intros t rs. simpl. rewrite lookup_omap. intros (rs0 & Hrs0 & Hret)%bind_Some.
    apply retain_http_Some in Hret as (_ & -> & _); [|by eapply sw_http]. apply lookup_delete_eq.
  - intros t rs k r Hrs Hr Hk Hm. simpl. rewrite lookup_omap, Hrs. simpl.
    destruct (retain_http key rs) as [rs'|] eqn:E.
    + exists rs'. split; [done|].
      apply retain_http_Some in E as (_ & -> & _); [|by eapply sw_http]. by rewrite lookup_delete_ne.
    + unfold retain_http in E.
      set (r0 := if RouteSet.contains rs key then RouteSet.remove rs key else rs) in E.
      assert (RouteSet.wf r0 ∧ RouteSet.all r0 !! k = Some r) as [Hw0 Hr0].
      { pose proof (sw_http _ Hwf _ _ Hrs). unfold r0.
        destruct (contains rs key); [|done]. split; [by apply RouteSet.remove_wf|].
        by rewrite RouteSet.remove_all, lookup_delete_ne. }
      destruct (RouteSet.is_empty r0) eqn:Ee; [|done]. apply bool_decide_eq_true in Ee.
      destruct (route_matches r) as [|m ms] eqn:Em; [done|].
      assert (∃ h, h ∈ route_matchers r) as [h Hh].
      { unfold route_matchers, RouteSet.hostname_matchers. destruct (route_hostnames r); eexists; by left. }
      destruct (RouteSet.wf_complete _ Hw0 k r h 0 m) as (v & Hv & _); [done|done|by rewrite Em|].
      by rewrite Ee, lookup_empty in Hv.
Qed.

(** Listeners and binds may arrive in either order: a listener received
    before its bind (kept pending) and one received after give the same
    binds. *)
Theorem listener_bind_order s os_bind l b :
  store_wf s → keyed (bind_listeners b) → binds s !! bind_key b = None →
  binds (insert_bind os_bind b (insert_listener os_bind l (bind_key b) s)) =
  binds (insert_listener os_bind l (bind_key b) (insert_bind os_bind b s)).
Proof.
  intros Hwf Hb Hnone.
  pose proof (insert_listener_wf os_bind l (bind_key b) s Hwf) as Hwf1.
  pose proof (upsert_bind_wf os_bind (bind_key b) b s Hwf Hb) as Hwf2.
  unfold insert_bind at 1. rewrite (proj1 (upsert_bind_binds os_bind (bind_key b) b _ Hwf1)).
  unfold insert_listener, insert_bind. rewrite Hnone.
  destruct (upsert_bind_binds os_bind (bind_key b) b s Hwf) as [Hbinds Hpend].
  rewrite Hbinds, lookup_insert_eq. simpl.
  set (ls := default ∅ (pending_listeners s !! bind_key b)).
  rewrite (proj1 (upsert_bind_binds os_bind _ _ _ Hwf2)), Hbinds, Hpend. simpl.
  rewrite lookup_delete_eq. simpl. rewrite (left_id_L ∅ (∪)), insert_insert_eq. f_equal.
  unfold with_listeners; simpl. f_equal. rewrite lookup_insert_eq. simpl. fold ls.
  unfold listener_insert. rewrite insert_delete_eq, <-insert_union_l. done.
Qed.

(** A listener deleted while its bind has not arrived comes back: after
    "listener added, listener removed, bind added" the bind carries the
    removed listener. [remove_listener] searches the binds only and leaves
    [pending_listeners] untouched. *)
Theorem removed_pending_listener_returns s os_bind l b :
  store_wf s → keyed (bind_listeners b) → binds s !! bind_key b = None →
  (∀ bk b', binds s !! bk = Some b' → bind_listeners b' !! lis_key l = None) →
  get_bind_listener
    (insert_bind os_bind b
       (remove_listener os_bind (lis_key l) (insert_listener os_bind l (bind_key b) s)))
    (bind_key b) (lis_key l) = Some l.
Proof.
  intros Hwf Hb Hnone Hno.
  pose proof (insert_listener_wf os_bind l (bind_key b) s Hwf) as Hwf1.
  assert (remove_listener os_bind (lis_key l) (insert_listener os_bind l (bind_key b) s) =
          insert_listener os_bind l (bind_key b) s) as ->.
  { unfold remove_listener. unfold insert_listener at 1. rewrite Hnone. simpl.
    destruct (find_map _ _) as [[bk b']|] eqn:E; [|done]. exfalso.
    apply find_map_Some in E as (l1 & [bk1 b1] & l2 & Hl & Hf & _). simpl in Hf.
    rewrite (Hno bk1) in Hf; [done|]. apply map_iter_elem. rewrite Hl.
    apply elem_of_app. right. by left. }
  unfold get_bind_listener, insert_bind.
  rewrite (proj1 (upsert_bind_binds os_bind _ _ _ Hwf1)), lookup_insert_eq. simpl.
  unfold insert_listener. rewrite Hnone. simpl. rewrite lookup_insert_eq. simpl.
  by rewrite lookup_union_l', lookup_insert_eq by (rewrite lookup_insert_eq; eauto).
Qed.
End facts.
