(* ===== verification/PolicyResolution.v ===== *)
(** * Policy resolution

    How the store picks the policies of a request: [RequestPolicy]
    ([store/policy.rs]) and [Store::route_policies], [gateway_policies],
    [backend_policies], [frontend_policies], [listener_frontend_policies] and
    [BackendPolicies::merge] ([store/binds.rs]).

    Each resolution walks a list of rules from the most to the least specific
    and fills the fields that are still unset; authorization rules
    accumulate. *)
From stdpp Require Import base gmap strings list.
From S2P Require Import Prelude RustStd Authorization AgentTypes RouteSet TcpRouteSet BindStore.

(** ** [RequestPolicy] *)

Section request_policy.
Context {PL : Payloads}.

Definition rp_single {T} (p : T) : RequestPolicy T := RPSingle (mkPWC p None).

Definition from_policy_inners {T} (ps : list (PolicyWithCondition T)) : RequestPolicy T :=
  match ps with
  | [] => RPEmpty
  | [p] => RPSingle p
  | _ => RPMultiple ps
  end.

(** [RequestPolicy::iter] and [into_policy_inners]. *)
Definition rp_iter {T} (r : RequestPolicy T) : list (PolicyWithCondition T) :=
  match r with
  | RPEmpty => []
  | RPSingle p => [p]
  | RPMultiple ps => ps
  end.

(** [RequestPolicy::select]: the first policy whose condition holds. *)
Fixpoint select_loop {T} (eval_cond : Expression → bool) (ps : list (PolicyWithCondition T)) : option T :=
  match ps with
  | [] => None
  | p :: ps' =>
      match condition p with
      | Some c => if eval_cond c then Some (pol p) else select_loop eval_cond ps'
      | None => Some (pol p)
      end
  end.

Definition select {T} (eval_cond : Expression → bool) (r : RequestPolicy T) : option T :=
  select_loop eval_cond (rp_iter r).

Definition set_if_unset {T} (slot p : RequestPolicy T) : RequestPolicy T :=
  match slot with RPEmpty => p | _ => slot end.

(** [BackendPolicy<T>] and [ResponsePolicy<T>] wrap an option. *)
Definition opt_set_if_unset {T} (slot : option T) (p : T) : option T := get_or_insert slot p.

Definition vec_set_if_empty {T} (slot p : list T) : list T :=
  match slot with [] => p | _ => slot end.

(** ** Resolved policies *)

Record RoutePolicies := mkRoutePolicies {
  local_rate_limit : RequestPolicy LocalRateLimitP;
  remote_rate_limit : RequestPolicy RemoteRateLimitP;
  authorization : RequestPolicy (RuleSets Expression);
  jwt : RequestPolicy JwtAuthP;
  oidc : RequestPolicy OidcP;
  basic_auth : RequestPolicy BasicAuthP;
  api_key : RequestPolicy APIKeyP;
  ext_authz : RequestPolicy ExtAuthzP;
  ext_proc : RequestPolicy ExtProcP;
  transformation : RequestPolicy TransformationP;
  csrf : RequestPolicy CsrfP;
  direct_response : RequestPolicy DirectResponseP;
  llm : option LlmP;
  timeout : option TimeoutP;
  retry : option RetryP;
  request_header_modifier : RequestPolicy HeaderModifierP;
  response_header_modifier : option HeaderModifierP;
  request_redirect : RequestPolicy RequestRedirectP;
  url_rewrite : RequestPolicy UrlRewriteP;
  hostname_rewrite : option HostRedirectOverrideP;
  request_mirror : list RequestMirrorP;
  cors : RequestPolicy CorsP;
}.

Definition route_policies_default : RoutePolicies :=
  mkRoutePolicies RPEmpty RPEmpty RPEmpty RPEmpty RPEmpty RPEmpty RPEmpty RPEmpty RPEmpty
    RPEmpty RPEmpty RPEmpty None None None RPEmpty None RPEmpty RPEmpty None [] RPEmpty.

(** One iteration of [route_policies]' loop: the arm of the rule's kind
    updates its field, every other field stays. *)
Definition route_rule_step (pol : RoutePolicies) (rule : TrafficPolicy) : RoutePolicies :=
  mkRoutePolicies
    (match rule with TPLocalRateLimit p => set_if_unset (local_rate_limit pol) p | _ => local_rate_limit pol end)
    (match rule with TPRemoteRateLimit p => set_if_unset (remote_rate_limit pol) p | _ => remote_rate_limit pol end)
    (authorization pol)
    (match rule with TPJwtAuth p => set_if_unset (jwt pol) p | _ => jwt pol end)
    (match rule with TPOidc p => set_if_unset (oidc pol) p | _ => oidc pol end)
    (match rule with TPBasicAuth p => set_if_unset (basic_auth pol) p | _ => basic_auth pol end)
    (match rule with TPAPIKey p => set_if_unset (api_key pol) p | _ => api_key pol end)
    (match rule with TPExtAuthz p => set_if_unset (ext_authz pol) p | _ => ext_authz pol end)
    (match rule with TPExtProc p => set_if_unset (ext_proc pol) p | _ => ext_proc pol end)
    (match rule with TPTransformation p => set_if_unset (transformation pol) p | _ => transformation pol end)
    (match rule with TPCsrf p => set_if_unset (csrf pol) p | _ => csrf pol end)
    (match rule with TPDirectResponse p => set_if_unset (direct_response pol) p | _ => direct_response pol end)
    (match rule with TPAI p => get_or_insert (llm pol) p | _ => llm pol end)
    (match rule with TPTimeout p => get_or_insert (timeout pol) p | _ => timeout pol end)
    (match rule with TPRetry p => get_or_insert (retry pol) p | _ => retry pol end)
    (match rule with TPRequestHeaderModifier p => set_if_unset (request_header_modifier pol) p
                   | _ => request_header_modifier pol end)
    (match rule with TPResponseHeaderModifier p => opt_set_if_unset (response_header_modifier pol) p
                   | _ => response_header_modifier pol end)
    (match rule with TPRequestRedirect p => set_if_unset (request_redirect pol) p | _ => request_redirect pol end)
    (match rule with TPUrlRewrite p => set_if_unset (url_rewrite pol) p | _ => url_rewrite pol end)
    (match rule with TPHostRewrite p => get_or_insert (hostname_rewrite pol) p | _ => hostname_rewrite pol end)
    (match rule with TPRequestMirror p => vec_set_if_empty (request_mirror pol) p | _ => request_mirror pol end)
    (match rule with TPCORS p => set_if_unset (cors pol) p | _ => cors pol end).

(** [authz.push(p.clone().0)]. *)
Definition authz_step (authz : RuleSets Expression) (rule : TrafficPolicy) : RuleSets Expression :=
  match rule with TPAuthorization p => authz ++ [p] | _ => authz end.

Definition with_authorization (pol : RoutePolicies) (a : RequestPolicy (RuleSets Expression)) : RoutePolicies :=
  mkRoutePolicies (local_rate_limit pol) (remote_rate_limit pol) a (jwt pol) (oidc pol)
    (basic_auth pol) (api_key pol) (ext_authz pol) (ext_proc pol) (transformation pol) (csrf pol)
    (direct_response pol) (llm pol) (timeout pol) (retry pol) (request_header_modifier pol)
    (response_header_modifier pol) (request_redirect pol) (url_rewrite pol) (hostname_rewrite pol)
    (request_mirror pol) (cors pol).

(** The loop of [route_policies] and the final authorization set. *)
Definition collect_route (rules : list TrafficPolicy) : RoutePolicies :=
  let authz := foldl authz_step [] rules in
  let pol := foldl route_rule_step route_policies_default rules in
  match authz with
  | [] => pol
  | _ => with_authorization pol (rp_single authz)
  end.

Record GatewayPolicies := mkGatewayPolicies {
  gw_ext_proc : RequestPolicy ExtProcP;
  gw_oidc : RequestPolicy OidcP;
  gw_jwt : RequestPolicy JwtAuthP;
  gw_ext_authz : RequestPolicy ExtAuthzP;
  gw_transformation : RequestPolicy TransformationP;
  gw_basic_auth : RequestPolicy BasicAuthP;
  gw_api_key : RequestPolicy APIKeyP;
}.

Definition gateway_policies_default : GatewayPolicies :=
  mkGatewayPolicies RPEmpty RPEmpty RPEmpty RPEmpty RPEmpty RPEmpty RPEmpty.

Definition gateway_rule_step (pol : GatewayPolicies) (rule : TrafficPolicy) : GatewayPolicies :=
  mkGatewayPolicies
    (match rule with TPExtProc p => set_if_unset (gw_ext_proc pol) p | _ => gw_ext_proc pol end)
    (match rule with TPOidc p => set_if_unset (gw_oidc pol) p | _ => gw_oidc pol end)
    (match rule with TPJwtAuth p => set_if_unset (gw_jwt pol) p | _ => gw_jwt pol end)
    (match rule with TPExtAuthz p => set_if_unset (gw_ext_authz pol) p | _ => gw_ext_authz pol end)
    (match rule with TPTransformation p => set_if_unset (gw_transformation pol) p | _ => gw_transformation pol end)
    (match rule with TPBasicAuth p => set_if_unset (gw_basic_auth pol) p | _ => gw_basic_auth pol end)
    (match rule with TPAPIKey p => set_if_unset (gw_api_key pol) p | _ => gw_api_key pol end).

(** [llm_provider] and [override_dest] are set by callers only. *)
Record BackendPolicies := mkBackendPolicies {
  be_tls : option BackendTLSP;
  be_auth : option BackendAuthP;
  be_a2a : option A2aP;
  be_llm_provider : option string;
  be_llm : option LlmP;
  be_inference_routing : option InferenceRoutingP;
  be_ext_authz : option ExtAuthzP;
  be_mcp_authorization : option (RuleSets Expression);
  be_mcp_authentication : option McpAuthenticationP;
  be_http : option BackendHTTPP;
  be_tcp : option BackendTCPP;
  be_tunnel : option TunnelP;
  be_request_header_modifier : option HeaderModifierP;
  be_response_header_modifier : option HeaderModifierP;
  be_request_redirect : option RequestRedirectP;
  be_request_mirror : list RequestMirrorP;
  be_transformation : option TransformationP;
  be_session_persistence : option SessionPersistenceP;
  be_health : option HealthP;
  be_override_dest : option SocketAddr;
}.

Definition backend_policies_default : BackendPolicies :=
  mkBackendPolicies None None None None None None None None None None None None None None None
    [] None None None None.

(** [BackendPolicies::merge]: [other] takes precedence. *)
Definition be_merge (self other : BackendPolicies) : BackendPolicies :=
  mkBackendPolicies
    (option_or (be_tls other) (be_tls self))
    (option_or (be_auth other) (be_auth self))
    (option_or (be_a2a other) (be_a2a self))
    (option_or (be_llm_provider other) (be_llm_provider self))
    (option_or (be_llm other) (be_llm self))
    (option_or (be_inference_routing other) (be_inference_routing self))
    (option_or (be_ext_authz other) (be_ext_authz self))
    (option_or (be_mcp_authorization other) (be_mcp_authorization self))
    (option_or (be_mcp_authentication other) (be_mcp_authentication self))
    (option_or (be_http other) (be_http self))
    (option_or (be_tcp other) (be_tcp self))
    (option_or (be_tunnel other) (be_tunnel self))
    (option_or (be_request_header_modifier other) (be_request_header_modifier self))
    (option_or (be_response_header_modifier other) (be_response_header_modifier self))
    (option_or (be_request_redirect other) (be_request_redirect self))
    (match be_request_mirror other with [] => be_request_mirror self | l => l end)
    (option_or (be_transformation other) (be_transformation self))
    (option_or (be_session_persistence other) (be_session_persistence self))
    (option_or (be_health other) (be_health self))
    (option_or (be_override_dest other) (be_override_dest self)).

Definition backend_rule_step (pol : BackendPolicies) (rule : BackendTrafficPolicy) : BackendPolicies :=
  mkBackendPolicies
    (match rule with BPBackendTLS p => get_or_insert (be_tls pol) p | _ => be_tls pol end)
    (match rule with BPBackendAuth p => get_or_insert (be_auth pol) p | _ => be_auth pol end)
    (match rule with BPA2a p => get_or_insert (be_a2a pol) p | _ => be_a2a pol end)
    (be_llm_provider pol)
    (match rule with BPAI p => get_or_insert (be_llm pol) p | _ => be_llm pol end)
    (match rule with BPInferenceRouting p => get_or_insert (be_inference_routing pol) p | _ => be_inference_routing pol end)
    (match rule with BPExtAuthz p => opt_set_if_unset (be_ext_authz pol) p | _ => be_ext_authz pol end)
    (be_mcp_authorization pol)
    (match rule with BPMcpAuthentication p => get_or_insert (be_mcp_authentication pol) p | _ => be_mcp_authentication pol end)
    (match rule with BPHTTP p => get_or_insert (be_http pol) p | _ => be_http pol end)
    (match rule with BPTCP p => get_or_insert (be_tcp pol) p | _ => be_tcp pol end)
    (match rule with BPTunnel p => get_or_insert (be_tunnel pol) p | _ => be_tunnel pol end)
    (match rule with BPRequestHeaderModifier p => get_or_insert (be_request_header_modifier pol) p
                   | _ => be_request_header_modifier pol end)
    (match rule with BPResponseHeaderModifier p => opt_set_if_unset (be_response_header_modifier pol) p
                   | _ => be_response_header_modifier pol end)
    (match rule with BPRequestRedirect p => get_or_insert (be_request_redirect pol) p | _ => be_request_redirect pol end)
    (match rule with BPRequestMirror p => vec_set_if_empty (be_request_mirror pol) p | _ => be_request_mirror pol end)
    (match rule with BPTransformation p => opt_set_if_unset (be_transformation pol) p | _ => be_transformation pol end)
    (match rule with BPSessionPersistence p => get_or_insert (be_session_persistence pol) p | _ => be_session_persistence pol end)
    (match rule with BPHealth p => get_or_insert (be_health pol) p | _ => be_health pol end)
    (be_override_dest pol).

Definition mcp_authz_step (authz : RuleSets Expression) (rule : BackendTrafficPolicy) : RuleSets Expression :=
  match rule with BPMcpAuthorization p => authz ++ [p] | _ => authz end.

Definition with_mcp_authorization (pol : BackendPolicies) (a : option (RuleSets Expression)) : BackendPolicies :=
  mkBackendPolicies (be_tls pol) (be_auth pol) (be_a2a pol) (be_llm_provider pol) (be_llm pol)
    (be_inference_routing pol) (be_ext_authz pol) a (be_mcp_authentication pol) (be_http pol)
    (be_tcp pol) (be_tunnel pol) (be_request_header_modifier pol) (be_response_header_modifier pol)
    (be_request_redirect pol) (be_request_mirror pol) (be_transformation pol)
    (be_session_persistence pol) (be_health pol) (be_override_dest pol).

Definition collect_backend (rules : list BackendTrafficPolicy) : BackendPolicies :=
  let authz := foldl mcp_authz_step [] rules in
  let pol := foldl backend_rule_step backend_policies_default rules in
  match authz with
  | [] => pol
  | _ => with_mcp_authorization pol (Some authz)
  end.

Record FrontendPolices := mkFrontendPolices {
  fe_http : option FrontendHTTPP;
  fe_tls : option FrontendTLSP;
  fe_tcp : option FrontendTCPP;
  fe_network_authorization : option (RuleSets Expression);
  fe_proxy : option FrontendProxyP;
  fe_access_log : option LoggingP;
  fe_tracing : option TracingP;
  fe_access_log_otlp : option AccessLogOtlpP;
  fe_metrics_fields : option MetricsFieldsP;
}.

Definition frontend_default : FrontendPolices :=
  mkFrontendPolices None None None None None None None None None.

(** [FrontendPolices::set_if_empty]. *)
Definition set_if_empty (pol : FrontendPolices) (rule : FrontendPolicy) : FrontendPolices :=
  mkFrontendPolices
    (match rule with FPHTTP p => get_or_insert (fe_http pol) p | _ => fe_http pol end)
    (match rule with FPTLS p => get_or_insert (fe_tls pol) p | _ => fe_tls pol end)
    (match rule with FPTCP p => get_or_insert (fe_tcp pol) p | _ => fe_tcp pol end)
    (match rule with
     | FPNetworkAuthorization p =>
         match fe_network_authorization pol with
         | Some existing => Some (merge_rule_set existing p)
         | None => Some [p]
         end
     | _ => fe_network_authorization pol
     end)
    (match rule with FPProxy p => get_or_insert (fe_proxy pol) p | _ => fe_proxy pol end)
    (match rule with FPAccessLog p => get_or_insert (fe_access_log pol) p | _ => fe_access_log pol end)
    (match rule with FPTracing p => get_or_insert (fe_tracing pol) p | _ => fe_tracing pol end)
    (match rule with
     | FPAccessLog p =>
         match logging_access_log_policy p with
         | Some alp => get_or_insert (fe_access_log_otlp pol) alp
         | None => fe_access_log_otlp pol
         end
     | _ => fe_access_log_otlp pol
     end)
    (match rule with FPMetrics p => get_or_insert (fe_metrics_fields pol) p | _ => fe_metrics_fields pol end).
End request_policy.

(** ** Rules in precedence order *)

Section resolution.
Context {RE : RegexEngine} {PL : Payloads} {HO : HashOrder}.
Context {Sockets BackendWithPolicies : Type}.
Local Abbreviation Store := (Store Sockets BackendWithPolicies).
Implicit Types s : Store.

(** [RoutePath]: the objects traversed to reach a route. *)
Record RoutePath := mkRoutePath {
  rpath_listener : ListenerName;
  rpath_service : option NamespacedHostname;
  rpath_routes : list RouteName;
}.

(** The keys attached to a target, in the hash set's iteration order. *)
Definition target_keys s (t : PolicyTarget) : list string :=
  match policies_by_target s !! t with Some X => set_iter X | None => [] end.

Definition opt_target_keys s (t : option PolicyTarget) : list string :=
  match t with Some t => target_keys s t | None => [] end.

Definition policies_of {P} s (sel : PolicyType → option P) (keys : list string) : list P :=
  omap (λ k, p ← policies_by_key s !! k; sel (tp_policy p)) keys.

(** The rules of one route of the path: inline policies, then those of its
    rule, then those of the route. *)
Definition rules_of_route s (inline : list (list TrafficPolicy)) (ir : nat * RouteName)
    : list TrafficPolicy :=
  default [] (inline !! ir.1)
  ++ policies_of s as_traffic_route_phase (target_keys s (as_route_rule_target_ref ir.2))
  ++ policies_of s as_traffic_route_phase (target_keys s (as_route_target_ref ir.2)).

Definition shared_rules s (listener : ListenerName) (service : option NamespacedHostname)
    : list TrafficPolicy :=
  policies_of s as_traffic_route_phase
    (opt_target_keys s (as_policy_target_ref <$> service)
     ++ target_keys s (as_listener_target_ref listener)
     ++ target_keys s (as_gateway_target_ref listener)).

(** [Store::route_policies]: the routes of the path from the last (most
    specific) to the first, then service, listener and gateway. *)
Definition route_policies s (p : RoutePath) (inline : list (list TrafficPolicy)) : RoutePolicies :=
  collect_route
    ((reverse (imap pair (rpath_routes p)) ≫= rules_of_route s inline)
     ++ shared_rules s (rpath_listener p) (rpath_service p)).

(** [Store::gateway_policies]. *)
Definition gateway_policies s (name : ListenerName) : GatewayPolicies :=
  foldl gateway_rule_step gateway_policies_default
    (policies_of s as_traffic_gateway_phase
       (target_keys s (as_listener_target_ref name)
        ++ opt_target_keys s (as_listenerset_listener_target_ref name)
        ++ opt_target_keys s (as_listenerset_target_ref name)
        ++ target_keys s (as_gateway_target_ref name))).

(** [itertools::unique]: first occurrences. *)
Fixpoint unique (seen : gset string) (l : list string) : list string :=
  match l with
  | [] => []
  | x :: l' => if decide (x ∈ seen) then unique seen l' else x :: unique ({[x]} ∪ seen) l'
  end.

(** [Store::internal_backend_policies]. *)
Definition internal_backend_policies s (backend sub_backend : option BackendTarget)
    (inline : list (list BackendTrafficPolicy)) (gateway : option ListenerName)
    (routes : list RouteName) : BackendPolicies :=
  let route_based_keys := reverse routes ≫= λ route,
    target_keys s (as_route_rule_target_ref route) ++ target_keys s (as_route_target_ref route) in
  let keys := unique ∅
    (route_based_keys
     ++ opt_target_keys s (PTBackendT <$> sub_backend)
     ++ opt_target_keys s (PTBackendT <$> backend)
     ++ opt_target_keys s (as_listener_target_ref <$> gateway)
     ++ opt_target_keys s (as_gateway_target_ref <$> gateway)) in
  collect_backend ((reverse inline ≫= id) ++ policies_of s as_backend keys).

Definition sub_backend_policies s (sub_backend : BackendTarget)
    (inline : option (list BackendTrafficPolicy)) : BackendPolicies :=
  internal_backend_policies s None (Some sub_backend)
    (match inline with Some l => [l] | None => [] end) None [].

Definition inline_backend_policies s (inline : list BackendTrafficPolicy) : BackendPolicies :=
  internal_backend_policies s None None [inline] None [].

Definition backend_policies s (backend : BackendTarget)
    (inline : list (list BackendTrafficPolicy)) (p : option RoutePath) : BackendPolicies :=
  internal_backend_policies s (Some (strip_section backend)) (Some backend) inline
    (rpath_listener <$> p) (match p with Some p => rpath_routes p | None => [] end).

(** [Store::frontend_policies]: a port-level gateway target also inherits the
    gateway's policies. *)
Definition frontend_policies s (gateway : PolicyTarget) : FrontendPolices :=
  let parent_gateway := match gateway with
                        | PTGateway n ns None (Some _) => Some (PTGateway n ns None None)
                        | _ => None
                        end in
  foldl set_if_empty frontend_default
    (policies_of s as_frontend (target_keys s gateway ++ opt_target_keys s parent_gateway)).

Definition listener_frontend_policies s (name : ListenerName) (port : option Z)
    (service : option PolicyTarget) : FrontendPolices :=
  let gateway_port :=
    (λ p, PTGateway (gateway_name name) (gateway_namespace name) None (Some p)) <$> port in
  foldl set_if_empty frontend_default
    (policies_of s as_frontend
       (opt_target_keys s service
        ++ target_keys s (as_listener_target_ref name)
        ++ opt_target_keys s (as_listenerset_listener_target_ref name)
        ++ opt_target_keys s (as_listenerset_target_ref name)
        ++ opt_target_keys s gateway_port
        ++ target_keys s (as_gateway_target_ref name))).
End resolution.

(** ** Declarative reading of the loops *)

Section declarative.
Context {PL : Payloads}.

(** The first rule of a kind that sets something. *)
Definition first_rp {R T} (sel : R → option (RequestPolicy T)) (rules : list R) : RequestPolicy T :=
  default RPEmpty (find_map (λ r, match sel r with
                                  | Some RPEmpty | None => None
                                  | Some p => Some p
                                  end) rules).

Definition first_opt {R T} (sel : R → option T) (rules : list R) : option T := find_map sel rules.

Definition first_vec {R T} (sel : R → option (list T)) (rules : list R) : list T :=
  default [] (find_map (λ r, match sel r with Some [] | None => None | Some l => Some l end) rules).

Definition route_authz (rules : list TrafficPolicy) : RuleSets Expression :=
  omap (λ r, match r with TPAuthorization p => Some p | _ => None end) rules.

Definition route_spec (rules : list TrafficPolicy) : RoutePolicies :=
  mkRoutePolicies
    (first_rp (λ r, match r with TPLocalRateLimit p => Some p | _ => None end) rules)
    (first_rp (λ r, match r with TPRemoteRateLimit p => Some p | _ => None end) rules)
    (match route_authz rules with [] => RPEmpty | a => rp_single a end)
    (first_rp (λ r, match r with TPJwtAuth p => Some p | _ => None end) rules)
    (first_rp (λ r, match r with TPOidc p => Some p | _ => None end) rules)
    (first_rp (λ r, match r with TPBasicAuth p => Some p | _ => None end) rules)
    (first_rp (λ r, match r with TPAPIKey p => Some p | _ => None end) rules)
    (first_rp (λ r, match r with TPExtAuthz p => Some p | _ => None end) rules)
    (first_rp (λ r, match r with TPExtProc p => Some p | _ => None end) rules)
    (first_rp (λ r, match r with TPTransformation p => Some p | _ => None end) rules)
    (first_rp (λ r, match r with TPCsrf p => Some p | _ => None end) rules)
    (first_rp (λ r, match r with TPDirectResponse p => Some p | _ => None end) rules)
    (first_opt (λ r, match r with TPAI p => Some p | _ => None end) rules)
    (first_opt (λ r, match r with TPTimeout p => Some p | _ => None end) rules)
    (first_opt (λ r, match r with TPRetry p => Some p | _ => None end) rules)
    (first_rp (λ r, match r with TPRequestHeaderModifier p => Some p | _ => None end) rules)
    (first_opt (λ r, match r with TPResponseHeaderModifier p => Some p | _ => None end) rules)
    (first_rp (λ r, match r with TPRequestRedirect p => Some p | _ => None end) rules)
    (first_rp (λ r, match r with TPUrlRewrite p => Some p | _ => None end) rules)
    (first_opt (λ r, match r with TPHostRewrite p => Some p | _ => None end) rules)
    (first_vec (λ r, match r with TPRequestMirror p => Some p | _ => None end) rules)
    (first_rp (λ r, match r with TPCORS p => Some p | _ => None end) rules).

Lemma foldl_field {S R V} (step : S → R → S) (get : S → V) (g : V → R → V) s rules :
  (∀ s r, get (step s r) = g (get s) r) → get (foldl step s rules) = foldl g (get s) rules.
Proof. intros H. revert s. induction rules as [|r rules IH]; intros s; simpl; [done|]. by rewrite IH, H. Qed.

Lemma foldl_rp {R T} (sel : R → option (RequestPolicy T)) rules v :
  foldl (λ v r, match sel r with Some p => set_if_unset v p | None => v end) v rules =
  set_if_unset v (first_rp sel rules).
Proof.
  revert v. induction rules as [|r rules IH]; intros v; unfold first_rp; simpl; [by destruct v|].
  rewrite IH. fold (first_rp sel rules). destruct (sel r) as [[]|], v; done.
Qed.

Lemma foldl_opt {R T} (sel : R → option T) rules v :
  foldl (λ v r, match sel r with Some p => get_or_insert v p | None => v end) v rules =
  option_or v (first_opt sel rules).
Proof.
  revert v. induction rules as [|r rules IH]; intros v; unfold first_opt; simpl; [by destruct v|].
  rewrite IH. fold (first_opt sel rules). destruct (sel r), v; done.
Qed.

Lemma foldl_vec {R T} (sel : R → option (list T)) rules v :
  foldl (λ v r, match sel r with Some p => vec_set_if_empty v p | None => v end) v rules =
  vec_set_if_empty v (first_vec sel rules).
Proof.
  revert v. induction rules as [|r rules IH]; intros v; unfold first_vec; simpl; [by destruct v|].
  rewrite IH. fold (first_vec sel rules). destruct (sel r) as [[|]|], v; done.
Qed.

Lemma foldl_authz {R A} (step : list A → R → list A) (sel : R → option A) rules a :
  (∀ a r, step a r = a ++ option_list (sel r)) → foldl step a rules = a ++ omap sel rules.
Proof.
  intros H. revert a. induction rules as [|r rules IH]; intros a; simpl; [by rewrite app_nil_r|].
  rewrite IH, H, <-app_assoc. f_equal. by destruct (sel r).
Qed.

(** The three kinds of field of a rule loop: the first rule of the field's
    kind decides it, provided the field starts unset. *)
Lemma field_rp {S R T} (step : S → R → S) (get : S → RequestPolicy T) sel s rules :
  (∀ s r, get (step s r) = match sel r with Some p => set_if_unset (get s) p | None => get s end) →
  get (foldl step s rules) = set_if_unset (get s) (first_rp sel rules).
Proof.
  intros H. rewrite <-foldl_rp. by apply (foldl_field step get
    (λ v r, match sel r with Some p => set_if_unset v p | None => v end)).
Qed.

Lemma field_opt {S R T} (step : S → R → S) (get : S → option T) sel s rules :
  (∀ s r, get (step s r) = match sel r with Some p => get_or_insert (get s) p | None => get s end) →
  get (foldl step s rules) = option_or (get s) (first_opt sel rules).
Proof.
  intros H. rewrite <-foldl_opt. by apply (foldl_field step get
    (λ v r, match sel r with Some p => get_or_insert v p | None => v end)).
Qed.

Lemma field_vec {S R T} (step : S → R → S) (get : S → list T) sel s rules :
  (∀ s r, get (step s r) = match sel r with Some p => vec_set_if_empty (get s) p | None => get s end) →
  get (foldl step s rules) = vec_set_if_empty (get s) (first_vec sel rules).
Proof.
  intros H. rewrite <-foldl_vec. by apply (foldl_field step get
    (λ v r, match sel r with Some p => vec_set_if_empty v p | None => v end)).
Qed.

(** Proves that one field of a rule loop is the first of its kind. *)
Ltac first_field step s0 :=
  match goal with
  | |- ?get (foldl _ _ ?rules) = first_rp ?sel ?rules =>
      refine (field_rp step get sel s0 rules _); by intros ? []
  | |- ?get (foldl _ _ ?rules) = first_opt ?sel ?rules =>
      refine (field_opt step get sel s0 rules _); by intros ? []
  | |- ?get (foldl _ _ ?rules) = first_vec ?sel ?rules =>
      refine (field_vec step get sel s0 rules _); by intros ? []
  end.

Lemma foldl_authorization rules pol :
  authorization (foldl route_rule_step pol rules) = authorization pol.
Proof. revert pol. induction rules as [|r rules IH]; intros pol; simpl; [done|]. by rewrite IH. Qed.

Lemma route_policies_eta (p q : RoutePolicies) :
  local_rate_limit p = local_rate_limit q → remote_rate_limit p = remote_rate_limit q →
  authorization p = authorization q → jwt p = jwt q → oidc p = oidc q →
  basic_auth p = basic_auth q → api_key p = api_key q → ext_authz p = ext_authz q →
  ext_proc p = ext_proc q → transformation p = transformation q → csrf p = csrf q →
  direct_response p = direct_response q → llm p = llm q → timeout p = timeout q →
  retry p = retry q → request_header_modifier p = request_header_modifier q →
  response_header_modifier p = response_header_modifier q →
  request_redirect p = request_redirect q → url_rewrite p = url_rewrite q →
  hostname_rewrite p = hostname_rewrite q → request_mirror p = request_mirror q →
  cors p = cors q → p = q.
Proof. destruct p, q; simpl; intros; by subst. Qed.

Lemma collect_route_eq rules : collect_route rules = route_spec rules.
Proof.
  unfold collect_route.
  assert (foldl authz_step [] rules = route_authz rules) as ->.
  { refine (foldl_authz authz_step
      (λ r, match r with TPAuthorization p => Some p | _ => None end) rules [] _).
    intros a []; simpl; by rewrite ?app_nil_r. }
  cbv zeta. destruct (route_authz rules) eqn:Ea;
    apply route_policies_eta; unfold with_authorization, route_spec;
    cbn -[foldl route_authz first_rp first_opt first_vec];
    rewrite ?Ea; try done; try (rewrite foldl_authorization; done); first_field route_rule_step route_policies_default.
Qed.

(** [a] over [b]: what [a] sets hides [b]; authorization rule sets add up. *)
Definition route_over (a b : RoutePolicies) : RoutePolicies :=
  mkRoutePolicies
    (set_if_unset (local_rate_limit a) (local_rate_limit b))
    (set_if_unset (remote_rate_limit a) (remote_rate_limit b))
    (match rp_iter (authorization a), rp_iter (authorization b) with
     | [], _ => authorization b
     | _, [] => authorization a
     | x :: _, y :: _ => rp_single (pol x ++ pol y)
     end)
    (set_if_unset (jwt a) (jwt b))
    (set_if_unset (oidc a) (oidc b))
    (set_if_unset (basic_auth a) (basic_auth b))
    (set_if_unset (api_key a) (api_key b))
    (set_if_unset (ext_authz a) (ext_authz b))
    (set_if_unset (ext_proc a) (ext_proc b))
    (set_if_unset (transformation a) (transformation b))
    (set_if_unset (csrf a) (csrf b))
    (set_if_unset (direct_response a) (direct_response b))
    (option_or (llm a) (llm b))
    (option_or (timeout a) (timeout b))
    (option_or (retry a) (retry b))
    (set_if_unset (request_header_modifier a) (request_header_modifier b))
    (option_or (response_header_modifier a) (response_header_modifier b))
    (set_if_unset (request_redirect a) (request_redirect b))
    (set_if_unset (url_rewrite a) (url_rewrite b))
    (option_or (hostname_rewrite a) (hostname_rewrite b))
    (vec_set_if_empty (request_mirror a) (request_mirror b))
    (set_if_unset (cors a) (cors b)).

Lemma first_rp_app {R T} (sel : R → option (RequestPolicy T)) l1 l2 :
  first_rp sel (l1 ++ l2) = set_if_unset (first_rp sel l1) (first_rp sel l2).
Proof.
  change (set_if_unset RPEmpty (first_rp sel (l1 ++ l2)) =
          set_if_unset (set_if_unset RPEmpty (first_rp sel l1)) (first_rp sel l2)).
  by rewrite <-!foldl_rp, foldl_app.
Qed.

Lemma first_opt_app {R T} (sel : R → option T) l1 l2 :
  first_opt sel (l1 ++ l2) = option_or (first_opt sel l1) (first_opt sel l2).
Proof. unfold first_opt. induction l1 as [|r l1 IH]; simpl; [done|]. by destruct (sel r). Qed.

Lemma first_vec_app {R T} (sel : R → option (list T)) l1 l2 :
  first_vec sel (l1 ++ l2) = vec_set_if_empty (first_vec sel l1) (first_vec sel l2).
Proof.
  change (vec_set_if_empty [] (first_vec sel (l1 ++ l2)) =
          vec_set_if_empty (vec_set_if_empty [] (first_vec sel l1)) (first_vec sel l2)).
  by rewrite <-!foldl_vec, foldl_app.
Qed.

Lemma collect_route_app l1 l2 :
  collect_route (l1 ++ l2) = route_over (collect_route l1) (collect_route l2).
Proof.
  rewrite !collect_route_eq. unfold route_spec, route_over. cbn -[first_rp first_opt first_vec route_authz].
  rewrite !first_rp_app, !first_opt_app, !first_vec_app. f_equal.
  unfold route_authz. rewrite omap_app. fold (route_authz l1) (route_authz l2).
  destruct (route_authz l1), (route_authz l2); simpl; by rewrite ?app_nil_r.
Qed.

Lemma collect_route_authorization rules a :
  route_authz rules = a → a ≠ [] → authorization (collect_route rules) = rp_single a.
Proof. intros <- Hne. rewrite collect_route_eq. simpl. by destruct (route_authz rules). Qed.
End declarative.

(** ** Backend policies *)

Section backend.
Context {PL : Payloads}.

Definition mcp_authz (rules : list BackendTrafficPolicy) : RuleSets Expression :=
  omap (λ r, match r with BPMcpAuthorization p => Some p | _ => None end) rules.

Lemma mcp_authz_foldl rules : foldl mcp_authz_step [] rules = mcp_authz rules.
Proof.
  refine (foldl_authz mcp_authz_step
    (λ r, match r with BPMcpAuthorization p => Some p | _ => None end) rules [] _).
  intros a []; simpl; by rewrite ?app_nil_r.
Qed.

Lemma be_merge_default_l p : be_merge backend_policies_default p = p.
Proof.
  destruct p; unfold be_merge; simpl. rewrite !option_or_None_r. f_equal. by case_match.
Qed.

Lemma be_merge_default_r p : be_merge p backend_policies_default = p.
Proof. by destruct p. Qed.

Lemma be_merge_assoc p q r : be_merge (be_merge p q) r = be_merge p (be_merge q r).
Proof.
  unfold be_merge; simpl. rewrite !option_or_assoc. f_equal. by destruct (be_request_mirror r).
Qed.

(** One rule applied to a fresh record; [backend_rule_step] merges it below
    what is already set. *)
Lemma backend_rule_step_merge p r :
  backend_rule_step p r = be_merge (backend_rule_step backend_policies_default r) p.
Proof.
  destruct p, r; unfold backend_rule_step, be_merge; simpl;
    rewrite ?option_or_None_r; f_equal; try done; by case_match.
Qed.

Lemma backend_fold_merge p rules :
  foldl backend_rule_step p rules =
  be_merge (foldl backend_rule_step backend_policies_default rules) p.
Proof.
  revert p. induction rules as [|r rules IH]; intros p; simpl; [by rewrite be_merge_default_l|].
  rewrite IH, (IH (backend_rule_step _ r)), be_merge_assoc. f_equal. apply backend_rule_step_merge.
Qed.

Lemma foldl_mcp_authorization p rules :
  be_mcp_authorization (foldl backend_rule_step p rules) = be_mcp_authorization p.
Proof. revert p. induction rules as [|r rules IH]; intros p; simpl; [done|]. by rewrite IH. Qed.

Definition some_nonempty {A} (l : list A) : option (list A) :=
  match l with [] => None | _ => Some l end.

Lemma collect_backend_eq rules :
  collect_backend rules =
  with_mcp_authorization (foldl backend_rule_step backend_policies_default rules)
    (some_nonempty (mcp_authz rules)).
Proof.
  unfold collect_backend. rewrite mcp_authz_foldl. destruct (mcp_authz rules); [|done].
  pose proof (foldl_mcp_authorization backend_policies_default rules) as H.
  destruct (foldl _ _ _); simpl in *. by subst.
Qed.
End backend.

(** ** Claims *)

Section claims.
Context {RE : RegexEngine} {PL : Payloads} {HO : HashOrder}.
Context {Sockets BackendWithPolicies : Type}.
Local Abbreviation Store := (Store Sockets BackendWithPolicies).
Implicit Types s : Store.

Lemma imap_pair_snoc {A} (l : list A) x :
  imap pair (l ++ [x]) = imap pair l ++ [(length l, x)].
Proof. rewrite imap_app. simpl. by rewrite Nat.add_0_r. Qed.

(** Policies along a delegation path: the policies of a route reached
    through parent routes are its own (inline, rule and route policies, in
    that order) over those of the parent path, field by field; only
    authorization rules of all levels apply together. *)
Theorem route_policies_delegation s ln svc parents child inline :
  route_policies s (mkRoutePath ln svc (parents ++ [child])) inline =
  route_over (collect_route (rules_of_route s inline (length parents, child)))
    (route_policies s (mkRoutePath ln svc parents) inline).
Proof.
  unfold route_policies; simpl. rewrite imap_pair_snoc, reverse_app. simpl.
  rewrite <-app_assoc. apply collect_route_app.
Qed.

(** The targets whose policies apply to a route path. *)
Definition applies_to (p : RoutePath) (t : PolicyTarget) : Prop :=
  t = as_gateway_target_ref (rpath_listener p) ∨
  t = as_listener_target_ref (rpath_listener p) ∨
  (∃ svc, rpath_service p = Some svc ∧ t = as_policy_target_ref svc) ∨
  (∃ r, r ∈ rpath_routes p ∧ (t = as_route_target_ref r ∨ t = as_route_rule_target_ref r)).

Lemma elem_of_policies_of {P} s (sel : PolicyType → option P) keys k tp x :
  k ∈ keys → policies_by_key s !! k = Some tp → sel (tp_policy tp) = Some x →
  x ∈ policies_of s sel keys.
Proof. intros Hk Htp Hx. apply list_elem_of_omap. exists k. by rewrite Htp. Qed.

Lemma elem_of_target_keys s t X k : policies_by_target s !! t = Some X → k ∈ X → k ∈ target_keys s t.
Proof. intros HX Hk. unfold target_keys. rewrite HX. by rewrite set_iter_perm, elem_of_elements. Qed.

Lemma applies_rule s p inline t X k tp x :
  applies_to p t → policies_by_target s !! t = Some X → k ∈ X →
  policies_by_key s !! k = Some tp → as_traffic_route_phase (tp_policy tp) = Some x →
  x ∈ (reverse (imap pair (rpath_routes p)) ≫= rules_of_route s inline)
      ++ shared_rules s (rpath_listener p) (rpath_service p).
Proof.
  intros Ht HX Hk Htp Hx. pose proof (elem_of_target_keys s t X k HX Hk) as Hkk.
  rewrite elem_of_app.
  destruct Ht as [->|[->|[(svc & Hs & ->)|(r & Hr & Ht)]]].
  1-3: right; eapply elem_of_policies_of; [|exact Htp|exact Hx]; rewrite !elem_of_app.
  - by right; right.
  - by right; left.
  - left. by rewrite Hs.
  - left. apply list_elem_of_lookup in Hr as [i Hi]. apply list_elem_of_bind.
    exists (i, r). split.
    + unfold rules_of_route. rewrite !elem_of_app. simpl.
      destruct Ht as [-> | ->]; right; [right|left]; by eapply elem_of_policies_of.
    + apply elem_of_reverse, list_elem_of_lookup. exists i. rewrite list_lookup_imap, Hi. done.
Qed.

Lemma deny_resolved {V E} s p inline t X k tp rs (exec : Executor Expression V E) :
  applies_to p t → policies_by_target s !! t = Some X → k ∈ X →
  policies_by_key s !! k = Some tp →
  as_traffic_route_phase (tp_policy tp) = Some (TPAuthorization rs) →
  denies rs exec = true →
  ∃ authz, authorization (route_policies s p inline) = rp_single authz ∧
           validate authz exec = false.
Proof.
  intros Ht HX Hk Htp Hx Hd.
  pose proof (applies_rule s p inline t X k tp _ Ht HX Hk Htp Hx) as Hin.
  unfold route_policies. set (all := _ ++ _) in *.
  assert (rs ∈ route_authz all) as Hrs by (apply list_elem_of_omap; by exists (TPAuthorization rs)).
  exists (route_authz all). split.
  - apply collect_route_authorization; [done|]. intros E0. rewrite E0 in Hrs. by apply elem_of_nil in Hrs.
  - apply not_true_iff_false. rewrite validate_authorized. intros (Hno & _).
    apply denies_true in Hd as (e & He & Ht'). rewrite (Hno e) in Ht'; [done|]. by exists rs.
Qed.

(** C3. A deny rule cannot be overridden by a more specific policy: when an
    authorization policy attached to the gateway, the listener, the service
    or any route of the path has a deny rule that matches, the authorization
    resolved for the request refuses it, whatever else is configured. *)
Theorem route_deny_dominates {V E} s p inline t X k tp rs (exec : Executor Expression V E) :
  applies_to p t → policies_by_target s !! t = Some X → k ∈ X →
  policies_by_key s !! k = Some tp →
  as_traffic_route_phase (tp_policy tp) = Some (TPAuthorization rs) →
  denies rs exec = true →
  ∃ authz, authorization (route_policies s p inline) = rp_single authz ∧
           validate authz exec = false.
Proof. apply deny_resolved. Qed.

Lemma with_mcp_merge p q a b :
  be_merge (with_mcp_authorization q b) (with_mcp_authorization p a) =
  with_mcp_authorization (be_merge q p) (option_or a b).
Proof. done. Qed.

Lemma collect_backend_merge r1 r2 :
  collect_backend (r1 ++ r2) =
  with_mcp_authorization (be_merge (collect_backend r2) (collect_backend r1))
    (some_nonempty (mcp_authz r1 ++ mcp_authz r2)).
Proof.
  rewrite !collect_backend_eq, with_mcp_merge. unfold mcp_authz at 1. rewrite omap_app.
  fold (mcp_authz r1) (mcp_authz r2). rewrite foldl_app, backend_fold_merge. done.
Qed.

(** Resolving backend rules in one pass and resolving two groups
    separately and merging them ([BackendPolicies::merge], the more specific
    group as [other]) agree on every field when the groups do not both carry
    MCP authorization. *)
Theorem collect_backend_merge_agrees r1 r2 :
  mcp_authz r1 = [] ∨ mcp_authz r2 = [] →
  collect_backend (r1 ++ r2) = be_merge (collect_backend r2) (collect_backend r1).
Proof.
  intros H. rewrite collect_backend_merge.
  rewrite !collect_backend_eq, with_mcp_merge. unfold with_mcp_authorization at 1. simpl.
  unfold with_mcp_authorization. f_equal.
  destruct H as [-> | ->]; [done|]. rewrite app_nil_r. by destruct (mcp_authz r1).
Qed.

(** [BackendPolicies::merge] drops MCP deny rules: when both groups carry
    MCP authorization, the less specific rule sets vanish from the merged
    policies, so a request that its deny rules refuse is admitted as soon as
    the more specific sets admit it, although one pass over the same rules
    refuses it. *)
Theorem be_merge_drops_deny {V E} r1 r2 rs (exec : Executor Expression V E) :
  rs ∈ mcp_authz r2 → denies rs exec = true →
  mcp_authz r1 ≠ [] → validate (mcp_authz r1) exec = true →
  (∃ a, be_mcp_authorization (be_merge (collect_backend r2) (collect_backend r1)) = Some a ∧
        validate a exec = true) ∧
  (∃ a, be_mcp_authorization (collect_backend (r1 ++ r2)) = Some a ∧ validate a exec = false).
Proof.
  intros Hrs Hd Hne Hv. split.
  - exists (mcp_authz r1). split; [|done]. rewrite !collect_backend_eq, with_mcp_merge. simpl.
    by destruct (mcp_authz r1).
  - exists (mcp_authz r1 ++ mcp_authz r2). rewrite collect_backend_merge. split.
    + simpl. by destruct (mcp_authz r1).
    + apply not_true_iff_false. rewrite validate_authorized. intros (Hno & _).
      apply denies_true in Hd as (e & He & Ht). rewrite (Hno e) in Ht; [done|].
      exists rs. split; [|done]. rewrite elem_of_app. by right.
Qed.

Lemma select_loop_find {T} ev (ps : list (PolicyWithCondition T)) :
  select_loop ev ps =
  pol <$> list_find_by (λ p, match condition p with Some c => ev c | None => true end) ps.
Proof.
  induction ps as [|p ps IH]; simpl; [done|]. destruct (condition p) as [c|]; [|done].
  by destruct (ev c).
Qed.

(** A conditional policy list round-trips through [RequestPolicy], and
    [select] returns the first policy whose condition holds; a policy without
    a condition always applies. *)
Theorem request_policy_select {T} ev (ps : list (PolicyWithCondition T)) :
  rp_iter (from_policy_inners ps) = ps ∧
  select ev (from_policy_inners ps) =
  pol <$> list_find_by (λ p, match condition p with Some c => ev c | None => true end) ps.
Proof.
  assert (rp_iter (from_policy_inners ps) = ps) as Hi by (by destruct ps as [|? []]).
  split; [done|]. unfold select. rewrite Hi. apply select_loop_find.
Qed.

Definition network_authz (rules : list FrontendPolicy) : RuleSets Expression :=
  omap (λ r, match r with FPNetworkAuthorization p => Some p | _ => None end) rules.

Lemma frontend_network_fold pol rules :
  fe_network_authorization pol ≠ Some [] →
  fe_network_authorization (foldl set_if_empty pol rules) =
  some_nonempty (default [] (fe_network_authorization pol) ++ network_authz rules).
Proof.
  revert pol. induction rules as [|r rules IH]; intros pol Hne; simpl.
  { rewrite app_nil_r. destruct (fe_network_authorization pol) as [[|]|]; done. }
  destruct r; rewrite IH by (simpl; try done; destruct (fe_network_authorization pol) as [[|]|]; done);
    simpl; try done.
  destruct (fe_network_authorization pol) as [a|]; simpl; [|done].
  unfold merge_rule_set. by rewrite <-app_assoc.
Qed.

(** Network authorization accumulates over the frontend levels: the
    resolved set holds the rule sets of the service, listener, listener-set,
    port and gateway policies together, so (by the specification of
    [validate]) a deny at any level refuses the connection. *)
Theorem frontend_network_authorization_accumulates s ln port svc :
  let rules := policies_of s as_frontend
    (opt_target_keys s svc ++ target_keys s (as_listener_target_ref ln)
     ++ opt_target_keys s (as_listenerset_listener_target_ref ln)
     ++ opt_target_keys s (as_listenerset_target_ref ln)
     ++ opt_target_keys s ((λ p, PTGateway (gateway_name ln) (gateway_namespace ln) None (Some p)) <$> port)
     ++ target_keys s (as_gateway_target_ref ln)) in
  fe_network_authorization (listener_frontend_policies s ln port svc) =
  some_nonempty (network_authz rules).
Proof.
  intros rules. unfold listener_frontend_policies. fold rules.
  by rewrite frontend_network_fold.
Qed.
End claims.
