(* ===== verification/RouteSelect.v ===== *)
(** * Request routing

    [http/route.rs] ([matches_request], [select_best_route],
    [select_best_route_group], [best_match_for_route]), the pseudo-header
    access of [http/mod.rs], [ListenerSet::best_match*] of [types/agent.rs]
    and the TCP counterpart in [proxy/tcpproxy.rs].

    The [http] and [url] crates are the class [HttpCrate]; a request is the
    record of the parts the router reads. *)
From stdpp Require Import base gmap strings list sorting.
From Stdlib Require Import Ascii.
From S2P Require Import Prelude RustStd Authorization AgentTypes RouteSet TcpRouteSet BindStore BindStoreFacts.

(** ** Requests *)

(** [HeaderValue::try_from], [HeaderValue::to_str] and
    [url::form_urlencoded::parse]. *)
Class HttpCrate := {
  header_value_try_from : string → option string;
  header_to_str : string → option string;
  form_urlencoded_parse : string → list (string * string);
}.

Record Uri := mkUri {
  uri_scheme : option string;
  uri_authority : option string;
  uri_host : option string;
  uri_path : string;
  uri_path_and_query : option string;
  uri_query : option string;
}.

(** The fields of [types::discovery::Service] routing reads. *)
Record WaypointService := mkWaypointService {
  wps_namespace : string;
  wps_hostname : string;
}.

Definition namespaced_hostname (svc : WaypointService) : NamespacedHostname :=
  mkNH (wps_namespace svc) (wps_hostname svc).

(** Header names are lower case, as the [http] crate keeps them. *)
Record Request := mkRequest {
  req_method : string;
  req_uri : Uri;
  req_headers : list (string * string);
  req_waypoint : option WaypointService;
}.

(** [HeaderMap::get]: the first value of a name. *)
Definition header_get (hs : list (string * string)) (name : string) : option string :=
  snd <$> list_find_by (λ kv, bool_decide (kv.1 = name)) hs.

Section routing.
Context {RE : RegexEngine} {PL : Payloads} {HC : HttpCrate}.

Definition get_pseudo_header_value (pseudo : HeaderOrPseudo) (req : Request) : option string :=
  match pseudo with
  | HPMethod => Some (req_method req)
  | HPScheme => uri_scheme (req_uri req)
  | HPAuthority =>
      option_or (uri_authority (req_uri req))
        (h ← header_get (req_headers req) "host"; header_to_str h)
  | HPPath => option_or (uri_path_and_query (req_uri req)) (Some (uri_path (req_uri req)))
  | HPStatus => None
  | HPHeader _ => None
  end.

Definition get_pseudo_or_header_value (pseudo : HeaderOrPseudo) (req : Request) : option string :=
  match pseudo with
  | HPHeader v => header_get (req_headers req) v
  | _ => v ← get_pseudo_header_value pseudo req; header_value_try_from v
  end.

Inductive ProxyError := InvalidRequest.

Definition get_host (req : Request) : result string ProxyError :=
  match uri_host (req_uri req) with Some h => Ok h | None => Err InvalidRequest end.

(** A regular expression must match the whole text. *)
Definition regex_full (r : Regex) (s : string) : bool :=
  match regex_find r s with
  | Some (start, stop) => Nat.eqb start 0 && Nat.eqb stop (String.length s)
  | None => false
  end.

(** The path test of [matches_request]. *)
Definition path_prefix_matches (p req_path : string) : bool :=
  match Str.strip_prefix (Str.trim_end_matches "/" p) (Str.trim_end_matches "/" req_path) with
  | None => false
  | Some suffix => Str.is_empty suffix || Str.starts_with "/" suffix
  end.

Definition path_matches (pm : PathMatch) (req_path : string) : bool :=
  match pm with
  | PExact p => bool_decide (req_path = p)
  | PRegex r => regex_full r req_path
  | PInvalid => false
  | PPathPrefix p => path_prefix_matches p req_path
  end.

Definition header_matches (req : Request) (hm : HeaderMatch) : bool :=
  match get_pseudo_or_header_value (hm_name hm) req with
  | None => false
  | Some have =>
      match hm_value hm with
      | HVExact want => bool_decide (have = want)
      | HVRegex want =>
          match header_to_str have with None => false | Some s => regex_full want s end
      | HVInvalid => false
      end
  end.

(** Collecting the pairs into a [HashMap] keeps the last value of a name. *)
Definition query_map (req : Request) : gmap string string :=
  match uri_query (req_uri req) with
  | Some q => foldl (λ m kv, <[kv.1 := kv.2]> m) ∅ (form_urlencoded_parse q)
  | None => ∅
  end.

Definition query_matches (q : gmap string string) (qm : QueryMatch) : bool :=
  match q !! qm_name qm with
  | None => false
  | Some have =>
      match qm_value qm with
      | QVExact want => bool_decide (have = want)
      | QVRegex want => regex_full want have
      | QVInvalid => false
      end
  end.

Definition matches_request (m : RouteMatch) (req : Request) : bool :=
  if negb (path_matches (path m) (uri_path (req_uri req))) then false
  else if match method m with
          | Some me => negb (bool_decide (req_method req = me))
          | None => false
          end then false
  else if negb (forallb (header_matches req) (headers m)) then false
  else
    let q := query_map req in
    forallb (query_matches q) (query m).

(** ** Selection *)

(** The loop over the hostname patterns of a route set. *)
Fixpoint select_hostnames (rs : RouteSet) (req : Request) (hms : list HostnameMatch)
    : outcome (option (Route * PathMatch)) :=
  match hms with
  | [] => Ret None
  | hnm :: hms' =>
      best ← find_candidate (λ c : Route * RouteMatch, matches_request c.2 req) (get_hostname rs hnm);
      match best with
      | Some (route, matcher) => Ret (Some (route, path matcher))
      | None => select_hostnames rs req hms'
      end
  end.

Definition select_best_route_group (rg : RouteSet) (req : Request)
    : outcome (option (Route * PathMatch)) :=
  match get_host req with
  | Err _ => Ret None
  | Ok host => select_hostnames rg req (all_matches host)
  end.

(** The route a waypoint falls back to. *)
Definition waypoint_default_route (svc : WaypointService) (dst : SocketAddr) : Route :=
  mkRoute "_waypoint-default" (Some (namespaced_hostname svc))
    (mkRouteName "_waypoint-default" (wps_namespace svc) None None) [] []
    [mkRBR 1 (route_backend_target_of (BRService (namespaced_hostname svc) (port dst))) []] [].

Section with_store.
Context {HO : HashOrder} {Sockets BackendWithPolicies : Type}.
Local Abbreviation Store := (Store Sockets BackendWithPolicies).

(** The tail shared by both kinds of request: the listener's routes, then
    the default. *)
Definition select_listener_route (s : Store) (lis : Listener) (req : Request) (host : string)
    (default_response : option (Route * PathMatch)) : outcome (option (Route * PathMatch)) :=
  match get_listener_routes s (lis_key lis) with
  | Some routes =>
      r ← select_hostnames routes req (all_matches host);
      match r with Some x => Ret (Some x) | None => Ret default_response end
  | None => Ret default_response
  end.

Definition select_best_route (s : Store) (dst : SocketAddr) (lis : Listener) (req : Request)
    : outcome (option (Route * PathMatch)) :=
  match get_host req with
  | Err _ => Ret None
  | Ok host =>
      match req_waypoint req with
      | Some svc =>
          match get_service_routes s (namespaced_hostname svc) with
          | Some svc_routes => select_hostnames svc_routes req (all_matches (wps_hostname svc))
          | None =>
              select_listener_route s lis req (wps_hostname svc)
                (Some (waypoint_default_route svc dst, PPathPrefix "/"))
          end
      | None => select_listener_route s lis req host None
      end
  end.

(** *** TCP *)

Fixpoint select_tcp_hostnames (rs : Tcp.TCPRouteSet) (hms : list HostnameMatch) : option TCPRoute :=
  match hms with
  | [] => None
  | hnm :: hms' =>
      match Tcp.get_hostname rs hnm with
      | Some r => Some r
      | None => select_tcp_hostnames rs hms'
      end
  end.

Definition waypoint_default_tcp_route (svc : WaypointService) (dst : SocketAddr) : TCPRoute :=
  mkTCPRoute "_waypoint-default-tcp" None
    (mkRouteName "_waypoint-default-tcp" (wps_namespace svc) None None) []
    [mkTRBR 1 (SBRService (namespaced_hostname svc) (port dst)) []].

(** [tcpproxy::select_best_route]; [resolve] is [resolve_waypoint_service],
    the discovery lookup of the destination's service. *)
Definition select_best_tcp_route (s : Store) (resolve : SocketAddr → option WaypointService)
    (host : option string) (lis : Listener) (dst : SocketAddr) : option TCPRoute :=
  let waypoint :=
    match lis_protocol lis with
    | LP_HBONE =>
        svc ← resolve dst;
        match get_service_tcp_routes s (namespaced_hostname svc) with
        | Some svc_routes => select_tcp_hostnames svc_routes (all_matches (wps_hostname svc))
        | None => Some (waypoint_default_tcp_route svc dst)
        end
    | _ => None
    end in
  match get_listener_tcp_routes s (lis_key lis) with
  | Some routes =>
      match select_tcp_hostnames routes (all_matches_or_none host) with
      | Some r => Some r
      | None => waypoint
      end
  | None => waypoint
  end.
End with_store.

(** ** [best_match_for_route] *)

(** [get_path_rank] of [http/route.rs], which ranks regular expressions below
    prefixes. *)
Definition route_path_rank (p : PathMatch) : Z :=
  match p with
  | PExact _ => 3
  | PPathPrefix _ => 2
  | PRegex _ => 1
  | PInvalid => 0
  end.

(** [get_path_length] of [http/route.rs]. *)
Definition route_path_length (p : PathMatch) : nat :=
  match p with
  | PExact s | PPathPrefix s => String.length s
  | PRegex r => String.length (regex_as_str r)
  | PInvalid => 0
  end.

(** [Gt] means [a] is better. *)
Definition compare_route_match (a b : RouteMatch) : comparison :=
  let path_rank1 := route_path_rank (path a) in
  let path_rank2 := route_path_rank (path b) in
  if negb (Z.eqb path_rank1 path_rank2) then Z.compare path_rank1 path_rank2
  else
    let path_len1 := route_path_length (path a) in
    let path_len2 := route_path_length (path b) in
    if negb (Nat.eqb path_len1 path_len2) then Nat.compare path_len1 path_len2
    else
      let method1 := is_some (method a) in
      let method2 := is_some (method b) in
      if negb (Bool.eqb method1 method2) then bool_cmp method1 method2
      else
        let header_count1 := length (headers a) in
        let header_count2 := length (headers b) in
        if negb (Nat.eqb header_count1 header_count2)
        then Nat.compare header_count1 header_count2
        else Nat.compare (length (query a)) (length (query b)).

Definition best_match_step (best : option RouteMatch) (candidate : RouteMatch) : option RouteMatch :=
  match best with
  | Some current =>
      match compare_route_match candidate current with
      | Gt => Some candidate
      | _ => Some current
      end
  | None => Some candidate
  end.

Definition best_match_for_route (route : Route) (req : Request) : option PathMatch :=
  path <$> foldl best_match_step None
             (filter (λ m, matches_request m req = true) (route_matches route)).
End routing.

(** ** Listeners *)

Section listener_match.
Context {HO : HashOrder}.

(** [Listener::matches]. *)
Definition listener_matches (l : Listener) (hostname : string) : bool :=
  bool_decide (lis_hostname l = hostname) || Str.is_empty (lis_hostname l)
  || match Str.strip_prefix "*" (lis_hostname l) with
     | Some suf => Str.ends_with suf hostname
     | None => false
     end.

(** [Iterator::max_by_key]: the last element of the greatest key. *)
Definition max_by_key {A} (f : A → nat) (l : list A) : option A :=
  foldl (λ best x, match best with
                   | Some b => if decide (f b ≤ f x) then Some x else Some b
                   | None => Some x
                   end) None l.

Definition wildcard_listener (host : string) (l : Listener) : bool :=
  match Str.strip_prefix "*" (lis_hostname l) with
  | Some suf => Str.ends_with suf host
  | None => false
  end.

Definition best_match_filtered (ls : gmap string Listener) (host : string)
    (flt : ListenerProtocol → bool) : option Listener :=
  let values := (map_iter ls).*2 in
  let allowed := filter (λ l, flt (lis_protocol l) = true) values in
  match list_find_by (λ l, bool_decide (lis_hostname l = host)) allowed with
  | Some best => Some best
  | None =>
      match max_by_key (λ l, String.length (lis_hostname l))
              (filter (λ l, flt (lis_protocol l) && wildcard_listener host l = true) values) with
      | Some best => Some best
      | None => list_find_by (λ l, Str.is_empty (lis_hostname l)) allowed
      end
  end.

Definition best_match (ls : gmap string Listener) (host : string) : option Listener :=
  best_match_filtered ls host (λ _, true).

Definition best_match_http (ls : gmap string Listener) (host : string) : option Listener :=
  best_match_filtered ls host (λ p, match p with LP_HTTP => true | _ => false end).

Definition best_match_tls (ls : gmap string Listener) (host : string) : option Listener :=
  best_match_filtered ls host
    (λ p, match p with LP_HTTPS _ | LP_TLS _ => true | _ => false end).

(** [ListenerSet::get_exactly_one]. *)
Definition get_exactly_one (ls : gmap string Listener) : option Listener :=
  if negb (Nat.eqb (size ls) 1) then None else snd <$> head (map_iter ls).
End listener_match.

(** ** Path segments *)

(** The segments between slashes. *)
Fixpoint segments (s : string) : list string :=
  match s with
  | EmptyString => [EmptyString]
  | String c s' =>
      if decide (c = "/"%char) then EmptyString :: segments s'
      else match segments s' with
           | [] => [String c EmptyString]
           | seg :: rest => String c seg :: rest
           end
  end.

Lemma segments_nonempty s : segments s ≠ [].
Proof. destruct s as [|c s]; simpl; [done|]. case_decide; [done|]. by destruct (segments s). Qed.

Lemma segments_app p s : segments (p +:+ String "/" s) = segments p ++ segments s.
Proof.
  induction p as [|c p IH]; simpl; [done|].
  case_decide; [by rewrite IH|]. rewrite IH. by destruct (segments p) eqn:E; [destruct (segments_nonempty p)|].
Qed.

Lemma segments_prefix p s k :
  segments s = segments p ++ k → s = p ∨ ∃ s', s = p +:+ String "/" s'.
Proof.
  revert s. induction p as [|a p IH]; intros [|c s]; simpl.
  - by left.
  - case_decide as Hc; [subst c; intros _; right; by exists s|].
    by destruct (segments s).
  - destruct (segments p) eqn:Ep; [by destruct (segments_nonempty p)|].
    case_decide; [|done]. intros [= ?].
  - destruct (segments p) as [|x l] eqn:Ep; [by destruct (segments_nonempty p)|].
    destruct (segments s) as [|y l'] eqn:Es; [by destruct (segments_nonempty s)|].
    repeat case_decide; simplify_eq/=; try done; intros ?; simplify_eq/=;
      (destruct (IH s) as [->|[s' ->]]; [by rewrite Es, ?Ep|by left|right; by exists s']).
Qed.

Lemma path_prefix_matches_segments p q :
  path_prefix_matches p q = true ↔
  segments (Str.trim_end_matches "/" p) `prefix_of` segments (Str.trim_end_matches "/" q).
Proof.
  unfold path_prefix_matches.
  generalize (Str.trim_end_matches "/" p), (Str.trim_end_matches "/" q). clear p q. intros p q.
  split.
  - destruct (Str.strip_prefix p q) as [suf|] eqn:E; [|done].
    apply Str.strip_prefix_Some in E. subst q. intros H.
    destruct suf as [|c suf]; [by rewrite Str.string_app_nil_r|].
    unfold Str.starts_with in H. simpl in H.
    destruct (decide ("/"%char = c)) as [<-|]; [|done].
    rewrite segments_app. by eexists.
  - intros [k Hk]. apply segments_prefix in Hk as [->|[s' ->]].
    + rewrite (proj2 (Str.strip_prefix_Some p p "")); [done|]. by rewrite Str.string_app_nil_r.
    + by rewrite (proj2 (Str.strip_prefix_Some p _ (String "/" s'))).
Qed.

(** ** Hostname patterns of a host *)

Lemma elem_of_dot_suffixes d h : d ∈ dot_suffixes h ↔ ∃ x, h = x +:+ String "." d.
Proof.
  induction h as [|c h IH]; simpl.
  - split; [by intros ?%elem_of_nil|]. by intros [[|? ?] ?].
  - case_decide as Hc.
    + subst c. rewrite elem_of_cons, IH. split.
      * intros [->|[x ->]]; [by exists ""|]. by exists (String "." x).
      * intros [[|b x] Hx]; injection Hx; intros; subst; eauto.
    + rewrite IH. split.
      * intros [x ->]. by exists (String c x).
      * intros [[|b x] Hx]; injection Hx; intros; subst; [done|eauto].
Qed.

Lemma dot_suffixes_length d h : d ∈ dot_suffixes h → String.length d < String.length h.
Proof.
  intros [x ->]%elem_of_dot_suffixes. induction x as [|c x IH]; simpl; lia.
Qed.

Lemma dot_suffixes_sorted h :
  StronglySorted (λ a b, String.length b < String.length a) (dot_suffixes h).
Proof.
  induction h as [|c h IH]; simpl; [constructor|]. case_decide; [|done].
  constructor; [done|]. apply Forall_forall. intros d Hd. by apply dot_suffixes_length.
Qed.

(** Specificity: exact, then wildcards by length, then none. *)
Definition hostname_specificity (h : HostnameMatch) : nat * nat :=
  match h with
  | HExact _ => (2, 0)
  | HWildcard d => (1, String.length d)
  | HNone => (0, 0)
  end.

Definition more_specific (a b : HostnameMatch) : Prop :=
  (hostname_specificity b).1 < (hostname_specificity a).1 ∨
  ((hostname_specificity a).1 = (hostname_specificity b).1 ∧
   (hostname_specificity b).2 < (hostname_specificity a).2).

Lemma all_matches_sorted h : StronglySorted more_specific (all_matches h).
Proof.
  assert (∀ l, StronglySorted (λ a b, String.length b < String.length a) l →
    StronglySorted more_specific (HWildcard <$> l)) as Hw.
  { induction 1 as [|d l Hs IH Hd]; simpl; constructor; [done|].
    apply Forall_forall. intros y (d' & -> & Hd')%list_elem_of_fmap.
    rewrite Forall_forall in Hd. specialize (Hd _ Hd'). right. simpl. auto. }
  unfold all_matches, all_actual_matches. rewrite !StronglySorted_app_iff.
  split; [split|]; [|split|split].
  - case_match; repeat constructor.
  - apply Hw, dot_suffixes_sorted.
  - intros x y Hx (d & -> & _)%list_elem_of_fmap. case_match; [by apply elem_of_nil in Hx|].
    apply list_elem_of_singleton in Hx as ->. left. simpl. lia.
  - repeat constructor.
  - intros x y Hx ->%list_elem_of_singleton. left. apply elem_of_app in Hx as [Hx|Hx].
    + case_match; [by apply elem_of_nil in Hx|]. apply list_elem_of_singleton in Hx as ->. simpl. lia.
    + apply list_elem_of_fmap in Hx as (d & -> & _). simpl. lia.
Qed.

Lemma elem_of_all_matches h m :
  m ∈ all_matches h ↔
  match m with
  | HExact e => e = h ∧ Str.starts_with "*." h = false
  | HWildcard d => ∃ x, h = x +:+ String "." d
  | HNone => True
  end.
Proof.
  unfold all_matches, all_actual_matches. rewrite !elem_of_app, list_elem_of_fmap, list_elem_of_singleton.
  destruct m as [e|d|].
  - destruct (Str.starts_with "*." h); rewrite ?elem_of_nil, ?list_elem_of_singleton; naive_solver.
  - rewrite <-elem_of_dot_suffixes.
    destruct (Str.starts_with "*." h); rewrite ?elem_of_nil, ?list_elem_of_singleton; naive_solver.
  - naive_solver.
Qed.

(** ** Selection facts *)

Section selection.
Context {RE : RegexEngine} {PL : Payloads} {HC : HttpCrate}.

(** A match of the set that accepts the request, under pattern [h]. *)
Definition eligible (rs : RouteSet) (req : Request) (h : HostnameMatch) (x : Route * RouteMatch) : Prop :=
  holds rs h x ∧ matches_request x.2 req = true.

(** What selection promises over a list of patterns, most specific first. *)
Definition selected (rs : RouteSet) (req : Request) (hms : list HostnameMatch)
    (res : option (Route * PathMatch)) : Prop :=
  match res with
  | None => ∀ h x, h ∈ hms → ¬ eligible rs req h x
  | Some (r, pm) =>
      ∃ before h after m, hms = before ++ h :: after ∧ pm = path m ∧
        eligible rs req h (r, m) ∧
        (∀ h' x, h' ∈ before → ¬ eligible rs req h' x) ∧
        (∀ x, eligible rs req h x → candidate_le (r, m) x)
  end.

Lemma select_hostnames_ok rs req hms :
  wf rs → ∃ res, select_hostnames rs req hms = Ret res ∧ selected rs req hms res.
Proof.
  intros Hwf. induction hms as [|h hms (res & IH & Hsel)]; simpl.
  { exists None. split; [done|]. intros h x Hh. by apply elem_of_nil in Hh. }
  destruct (get_hostname_ok rs h Hwf) as (l & -> & Hl & Hs).
  rewrite find_candidate_ret. simpl.
  destruct (list_find_by _ l) as [[r m]|] eqn:E.
  - exists (Some (r, path m)). split; [done|]. apply list_find_by_Some in E as (l1 & l2 & -> & Hm & Hno).
    exists [], h, hms, m. split; [done|]. split; [done|]. split; [split; [|done]; apply Hl; set_solver|].
    split; [intros h' x Hh'; by apply elem_of_nil in Hh'|].
    intros x [Hx Hxm]. apply Hl in Hx. apply StronglySorted_app_iff in Hs as (_ & Hs2 & _).
    apply StronglySorted_inv in Hs2 as [_ Hall].
    apply elem_of_app in Hx as [Hx|[->|Hx]%elem_of_cons].
    + rewrite Forall_forall in Hno. rewrite Hno in Hxm; done.
    + unfold candidate_le. by rewrite (cmp_refl compare_route).
    + rewrite Forall_forall in Hall. by apply Hall.
  - apply list_find_by_None in E. rewrite Forall_forall in E.
    assert (∀ x, ¬ eligible rs req h x) as Hnone.
    { intros x [Hx Hm]. apply Hl, E in Hx. congruence. }
    exists res. split; [done|]. destruct res as [[r pm]|].
    + destruct Hsel as (b & h' & a & m & -> & -> & He & Hb & Hbest).
      exists (h :: b), h', a, m. split; [done|]. split; [done|]. split; [done|].
      split; [|done]. intros h0 x [->|?]%elem_of_cons; [done|by apply Hb].
    + intros h0 x [->|Hh]%elem_of_cons; [done|by apply Hsel].
Qed.

(** *** [best_match_for_route] *)

Lemma neq_then_plain (b : bool) (c k : comparison) :
  (b = true ↔ c = Eq) → (if negb b then c else k) = then_cmp c k.
Proof.
  intros Hc. destruct b, c; try done;
    first [discriminate (proj1 Hc eq_refl) | discriminate (proj2 Hc eq_refl)].
Qed.

Lemma compare_route_match_lex a b :
  compare_route_match a b =
  then_cmp (Z.compare (route_path_rank (path a)) (route_path_rank (path b)))
  (then_cmp (Nat.compare (route_path_length (path a)) (route_path_length (path b)))
  (then_cmp (bool_cmp (is_some (method a)) (is_some (method b)))
  (then_cmp (Nat.compare (length (headers a)) (length (headers b)))
     (Nat.compare (length (query a)) (length (query b)))))).
Proof.
  unfold compare_route_match. rewrite !neq_then_plain; try done.
  - by rewrite Nat.eqb_eq, Nat.compare_eq_iff.
  - by destruct (is_some (method a)), (is_some (method b)).
  - by rewrite Nat.eqb_eq, Nat.compare_eq_iff.
  - by rewrite Z.eqb_eq, Z.compare_eq_iff.
Qed.

#[global] Instance compare_route_match_order : CmpOrder compare_route_match.
Proof.
  eapply cmp_ext; [apply compare_route_match_lex|].
  exact (cmp_then _ _ (cmp_on (λ a, route_path_rank (path a)) _ cmp_Z)
        (cmp_then _ _ (cmp_on (λ a, route_path_length (path a)) _ cmp_nat)
        (cmp_then _ _ (cmp_on (λ a, is_some (method a)) _ cmp_bool)
        (cmp_then _ _ (cmp_on (λ a, length (headers a)) _ cmp_nat)
        (cmp_on (λ a, length (query a)) _ cmp_nat))))).
Qed.

(** [m] wins in [l]: strictly better than what precedes it, at least as good
    as what follows. *)
Definition wins (l : list RouteMatch) (m : RouteMatch) : Prop :=
  ∃ l1 l2, l = l1 ++ m :: l2 ∧
    (∀ x, x ∈ l1 → compare_route_match x m = Lt) ∧
    (∀ x, x ∈ l2 → compare_route_match x m ≠ Gt).

Lemma best_match_fold l :
  match foldl best_match_step None l with Some m => wins l m | None => l = [] end.
Proof.
  induction l as [|x l IH] using rev_ind; [done|]. rewrite foldl_snoc.
  destruct (foldl best_match_step None l) as [m|]; simpl; [|subst l].
  2:{ exists [], []. split; [done|]. split; intros y Hy; by apply elem_of_nil in Hy. }
  destruct IH as (l1 & l2 & -> & H1 & H2).
  destruct (compare_route_match x m) eqn:E.
  1,2: exists l1, (l2 ++ [x]); (split; [by rewrite <-app_assoc|]); (split; [done|]);
    intros y [Hy|Hy]%elem_of_app; [by apply H2|]; apply list_elem_of_singleton in Hy as ->;
    by rewrite E.
  assert (compare_route_match m x = Lt) as Hmx by (by rewrite (cmp_opp compare_route_match x m), E).
  exists (l1 ++ m :: l2), []. split; [done|]. split; [|intros y Hy; by apply elem_of_nil in Hy].
  intros y [Hy|[->|Hy]%elem_of_cons]%elem_of_app; [|done|].
  - by apply (cmp_trans compare_route_match Lt y m x); [apply H1|].
  - by apply (cmp_le_lt compare_route_match y m x); [apply H2|].
Qed.
End selection.

(** ** Listener facts *)

Lemma max_by_key_spec {A} (f : A → nat) l :
  match max_by_key f l with
  | Some x => x ∈ l ∧ ∀ y, y ∈ l → f y ≤ f x
  | None => l = []
  end.
Proof.
  unfold max_by_key. induction l as [|x l IH] using rev_ind; [done|]. rewrite foldl_snoc.
  destruct (foldl _ None l) as [b|]; [|subst l].
  2:{ simpl. split; [by left|]. intros y ->%list_elem_of_singleton. done. }
  destruct IH as [Hb Hmax]. case_decide as Hd; (split; [set_solver|]);
    intros y [Hy|Hy]%elem_of_app; try (apply list_elem_of_singleton in Hy as ->);
    try specialize (Hmax _ Hy); lia.
Qed.

(** Rank of a listener's hostname for a host: exact, wildcard by length, or
    the empty hostname; [None] when it does not match. *)
Definition listener_rank (host : string) (l : Listener) : option (nat * nat) :=
  if decide (lis_hostname l = host) then Some (2, 0)
  else if wildcard_listener host l then Some (1, String.length (lis_hostname l))
  else if Str.is_empty (lis_hostname l) then Some (0, 0)
  else None.

Definition rank_le (a b : nat * nat) : Prop := a.1 < b.1 ∨ (a.1 = b.1 ∧ a.2 ≤ b.2).

Definition best_listener (ls : gmap string Listener) (host : string)
    (flt : ListenerProtocol → bool) (res : option Listener) : Prop :=
  match res with
  | Some l => (∃ k, ls !! k = Some l) ∧ flt (lis_protocol l) = true ∧
      ∃ r, listener_rank host l = Some r ∧
        ∀ k l' r', ls !! k = Some l' → flt (lis_protocol l') = true →
          listener_rank host l' = Some r' → rank_le r' r
  | None => ∀ k l, ls !! k = Some l → flt (lis_protocol l) = true → listener_rank host l = None
  end.

Lemma listener_rank_matches host l :
  listener_matches l host = true ↔ is_Some (listener_rank host l).
Proof.
  unfold listener_matches, listener_rank. fold (wildcard_listener host l).
  destruct (decide (lis_hostname l = host)) as [Hd|Hd].
  - rewrite bool_decide_eq_true_2 by done. split; [intros _; by eexists|done].
  - rewrite bool_decide_eq_false_2 by done.
    destruct (wildcard_listener host l), (Str.is_empty (lis_hostname l)); split; try done;
      (intros _; by eexists) || by intros [? ?].
Qed.

Section listener_facts.
Context {HO : HashOrder}.

Lemma elem_of_values {V} (m : gmap string V) v : v ∈ (map_iter m).*2 ↔ ∃ k, m !! k = Some v.
Proof.
  rewrite map_iter_perm, list_elem_of_fmap. split.
  - intros ([k v'] & -> & H%elem_of_map_to_list). eauto.
  - intros [k H%elem_of_map_to_list]. by exists (k, v).
Qed.

(** Listeners the filter lets through. *)
Lemma elem_of_allowed (p : Listener → bool) (ls : gmap string Listener) l :
  l ∈ filter (λ l, p l = true) (map_iter ls).*2 ↔ p l = true ∧ ∃ k, ls !! k = Some l.
Proof. by rewrite list_elem_of_filter, elem_of_values. Qed.

Lemma find_allowed (p q : Listener → bool) (ls : gmap string Listener) :
  match list_find_by q (filter (λ l, p l = true) (map_iter ls).*2) with
  | Some l => (∃ k, ls !! k = Some l) ∧ p l = true ∧ q l = true
  | None => ∀ k l, ls !! k = Some l → p l = true → q l = false
  end.
Proof.
  destruct (list_find_by q _) as [l|] eqn:E.
  - apply list_find_by_Some in E as (l1 & l2 & Hl & Hq & _).
    assert (l ∈ filter (λ l, p l = true) (map_iter ls).*2) as [Hp Hk]%elem_of_allowed
      by (rewrite Hl; set_solver). done.
  - intros k l Hk Hp. apply list_find_by_None in E. rewrite Forall_forall in E.
    apply E, elem_of_allowed. eauto.
Qed.

Lemma listener_rank_top host l r : listener_rank host l = Some r → rank_le r (2, 0).
Proof. unfold listener_rank, rank_le. repeat case_match; intros ?; simplify_eq/=; lia. Qed.

Lemma listener_rank_other host l :
  lis_hostname l ≠ host →
  listener_rank host l =
  if wildcard_listener host l then Some (1, String.length (lis_hostname l))
  else if Str.is_empty (lis_hostname l) then Some (0, 0) else None.
Proof. intros. unfold listener_rank. by rewrite decide_False. Qed.

Lemma best_match_filtered_best (ls : gmap string Listener) host flt :
  best_listener ls host flt (best_match_filtered ls host flt).
Proof.
  unfold best_match_filtered.
  pose proof (find_allowed (λ l, flt (lis_protocol l)) (λ l, bool_decide (lis_hostname l = host)) ls) as E1.
  destruct (list_find_by _ _) as [l|].
  { destruct E1 as (? & ? & ?%bool_decide_eq_true). split; [done|]. split; [done|].
    exists (2, 0). split; [unfold listener_rank; by rewrite decide_True|].
    eauto using listener_rank_top. }
  assert (∀ k l, ls !! k = Some l → flt (lis_protocol l) = true → lis_hostname l ≠ host) as Hne.
  { intros k l Hk Hf. by apply (bool_decide_eq_false_1 _ (E1 k l Hk Hf)). }
  pose proof (max_by_key_spec (λ l, String.length (lis_hostname l))
    (filter (λ l, flt (lis_protocol l) && wildcard_listener host l = true) (map_iter ls).*2)) as Hm.
  destruct (max_by_key _ _) as [l|].
  { destruct Hm as [[Hfw [k Hk]]%elem_of_allowed Hmax]. apply andb_true_iff in Hfw as [Hf Hw].
    split; [eauto|]. split; [done|]. eexists.
    split; [rewrite listener_rank_other, Hw by eauto; done|].
    intros k' l' r' Hk' Hf'. rewrite listener_rank_other by eauto.
    destruct (wildcard_listener host l') eqn:Hw'.
    - intros [= <-]. right. simpl. split; [done|]. apply Hmax, elem_of_allowed.
      rewrite Hf', Hw'. eauto.
    - destruct (Str.is_empty (lis_hostname l')); intros ?; simplify_eq. left. simpl. lia. }
  assert (∀ k l, ls !! k = Some l → flt (lis_protocol l) = true → wildcard_listener host l = false) as Hnw.
  { intros k l Hk Hf. apply not_true_iff_false. intros Hw.
    eapply elem_of_nil. rewrite <-Hm. apply elem_of_allowed. rewrite Hf, Hw. eauto. }
  pose proof (find_allowed (λ l, flt (lis_protocol l)) (λ l, Str.is_empty (lis_hostname l)) ls) as E2.
  destruct (list_find_by _ _) as [l|].
  - destruct E2 as ([k Hk] & Hf & Hh). split; [eauto|]. split; [done|]. exists (0, 0).
    split; [by rewrite listener_rank_other, (Hnw k), Hh by eauto|].
    intros k' l' r' Hk' Hf'. rewrite listener_rank_other, (Hnw k') by eauto.
    destruct (Str.is_empty (lis_hostname l')); intros ?; simplify_eq. right. simpl. lia.
  - intros k l Hk Hf. by rewrite listener_rank_other, (Hnw k), (E2 k) by eauto.
Qed.
End listener_facts.

Lemma listener_rank_hostname host a b r :
  listener_rank host a = Some r → listener_rank host b = Some r → lis_hostname a = lis_hostname b.
Proof.
  unfold listener_rank, wildcard_listener.
  destruct (decide (lis_hostname a = host)), (decide (lis_hostname b = host));
    [congruence|repeat case_match; intros; simplify_eq..|].
  destruct (Str.strip_prefix "*" (lis_hostname a)) as [sa|] eqn:Ea,
    (Str.strip_prefix "*" (lis_hostname b)) as [sb|] eqn:Eb;
  repeat (case_match; [|try done]); try done; intros; simplify_eq;
  repeat match goal with
  | H : Str.strip_prefix _ _ = Some _ |- _ => apply Str.strip_prefix_Some in H; rewrite H in *
  | H : Str.ends_with _ _ = true |- _ => apply Str.ends_with_true in H as [? ?]
  | H : Str.is_empty ?s = true |- _ => destruct s; [clear H|discriminate H]
  end; try done.
  f_equal. rewrite !Str.string_length_app in *. eapply Str.suffix_unique; [by etrans|]. lia.
Qed.

(** ** Claims *)

Section claims.
Context {RE : RegexEngine} {PL : Payloads} {HC : HttpCrate} {HO : HashOrder}.
Context {Sockets BackendWithPolicies : Type}.
Local Abbreviation Store := (Store Sockets BackendWithPolicies).

(** Selection in a route group never panics and is optimal: it returns a
    match of the most specific hostname pattern that has any match accepting
    the request, and of those the one first in the precedence order; it
    returns nothing only when no match of any applicable pattern accepts the
    request (or the request has no host). *)
Theorem select_group_best rg req :
  wf rg →
  ∃ res, select_best_route_group rg req = Ret res ∧
    match get_host req with
    | Ok host => selected rg req (all_matches host) res
    | Err _ => res = None
    end.
Proof.
  intros Hwf. unfold select_best_route_group. destruct (get_host req) as [host|]; [|by eauto].
  by apply select_hostnames_ok.
Qed.

(** The listener's routes first, then the default. *)
Definition chosen (routes : option RouteSet) (req : Request) (host : string)
    (def res : option (Route * PathMatch)) : Prop :=
  match routes with
  | Some rs => ∃ r, selected rs req (all_matches host) r ∧ res = option_or r def
  | None => res = def
  end.

Lemma select_listener_route_chosen (s : Store) lis req host def :
  store_wf s →
  ∃ res, select_listener_route s lis req host def = Ret res ∧
    chosen (get_listener_routes s (lis_key lis)) req host def res.
Proof.
  intros Hwf. unfold select_listener_route.
  destruct (get_listener_routes s (lis_key lis)) as [rs|] eqn:E; [|by exists def].
  destruct (select_hostnames_ok rs req (all_matches host)) as (r & -> & Hr).
  { by apply (sw_http _ Hwf (RTListener (lis_key lis))). }
  exists (option_or r def). split; [by destruct r|]. by exists r.
Qed.

(** C6. Routing of a request in a well-formed store: it never panics, a
    request for a waypoint service with attached routes is decided by those
    routes alone (rejected when none matches, whatever the listener has), a
    waypoint request without them uses the listener's routes for the service
    hostname and then the pass-through default, and any other request is
    decided by the listener's routes for the request's host. *)
Theorem select_best_route_spec (s : Store) dst lis req :
  store_wf s →
  ∃ res, select_best_route s dst lis req = Ret res ∧
    match get_host req, req_waypoint req with
    | Err _, _ => res = None
    | Ok _, Some svc =>
        match get_service_routes s (namespaced_hostname svc) with
        | Some rs => selected rs req (all_matches (wps_hostname svc)) res
        | None => chosen (get_listener_routes s (lis_key lis)) req (wps_hostname svc)
                    (Some (waypoint_default_route svc dst, PPathPrefix "/")) res
        end
    | Ok host, None => chosen (get_listener_routes s (lis_key lis)) req host None res
    end.
Proof.
  intros Hwf. unfold select_best_route. destruct (get_host req) as [host|]; [|by eauto].
  destruct (req_waypoint req) as [svc|]; [|by apply select_listener_route_chosen].
  destruct (get_service_routes s (namespaced_hostname svc)) as [rs|] eqn:E;
    [|by apply select_listener_route_chosen].
  apply select_hostnames_ok. by apply (sw_http _ Hwf (RTService (namespaced_hostname svc))).
Qed.

(** A path-prefix match accepts a request exactly when the prefix's
    segments (trailing slashes aside) begin the request path's segments and
    the other conditions hold: [/foo] accepts [/foo/bar] and never
    [/foobar]. *)
Theorem path_prefix_matches_at_segments m p req :
  path m = PPathPrefix p →
  matches_request m req = true ↔
  segments (Str.trim_end_matches "/" p) `prefix_of`
    segments (Str.trim_end_matches "/" (uri_path (req_uri req))) ∧
  (∀ me, method m = Some me → req_method req = me) ∧
  Forall (λ h, header_matches req h = true) (headers m) ∧
  Forall (λ q, query_matches (query_map req) q = true) (query m).
Proof.
  intros Hp. rewrite <-path_prefix_matches_segments. unfold matches_request. rewrite Hp. simpl.
  rewrite <-!forallb_Forall.
  destruct (path_prefix_matches p _); simpl; [|naive_solver].
  destruct (method m) as [me|]; simpl.
  - destruct (decide (req_method req = me)).
    + rewrite bool_decide_eq_true_2 by done. simpl.
      destruct (forallb (header_matches req) _); simpl; naive_solver.
    + rewrite bool_decide_eq_false_2 by done. simpl. naive_solver.
  - destruct (forallb (header_matches req) _); simpl; naive_solver.
Qed.

(** The patterns tried for a host are exactly those that cover it, from
    the most to the least specific: a configured hostname applies when it
    equals the host or is ["*.d"] with the host ending in [".d"], the exact
    pattern comes first, longer wildcards before shorter ones, and routes
    without hostnames last. *)
Theorem all_matches_spec h pat :
  Str.starts_with "*." h = false →
  StronglySorted more_specific (all_matches h) ∧ HNone ∈ all_matches h ∧
  (hostname_match_of pat ∈ all_matches h ↔
     pat = h ∨ ∃ d x, pat = "*." +:+ d ∧ h = x +:+ String "." d).
Proof.
  intros Hh. split; [apply all_matches_sorted|]. rewrite !elem_of_all_matches. split; [done|].
  unfold hostname_match_of. destruct (Str.strip_prefix "*." pat) as [d|] eqn:E.
  - apply Str.strip_prefix_Some in E as ->. split.
    + intros [x ->]. right. by exists d, x.
    + intros [<-|(d' & x & Hd & ->)].
      * assert (Str.starts_with "*." ("*." +:+ d) = true); [|congruence].
        apply Str.starts_with_true. by exists d.
      * injection Hd as Hd. change (d = d') in Hd. subst d'. by exists x.
  - split; [by intros [-> _]; left|]. intros [->|(d & x & -> & _)]; [done|].
    assert (Str.strip_prefix "*." ("*." +:+ d) = Some d); [|congruence].
    by apply Str.strip_prefix_Some.
Qed.

Lemma select_tcp_first rs hms h t :
  Tcp.wf rs → h ∈ hms → Tcp.all rs !! tcp_key t = Some t → h ∈ Tcp.hostname_matchers t →
  is_Some (select_tcp_hostnames rs hms).
Proof.
  intros Hwf Hh Ht Hm. induction hms as [|h' hms IH]; [by apply elem_of_nil in Hh|]. simpl.
  destruct (Tcp.get_hostname rs h') eqn:E; [eauto|].
  apply elem_of_cons in Hh as [<-|Hh]; [|by apply IH].
  destruct (Tcp.tcp_get_hostname_is_Some rs h _ t Hwf Ht Hm). congruence.
Qed.

(** On an HBONE listener a TCP route attached to the listener wins over
    the routes attached to the destination's service: as soon as the listener
    has a route for the host, the service's routes are not consulted. (The
    HTTP path does the opposite, see the claim on [select_best_route], and
    the comment in the TCP function says service routes take priority.) *)
Theorem tcp_listener_routes_shadow_service (s : Store) resolve resolve' host lis dst rs h t :
  store_wf s → get_listener_tcp_routes s (lis_key lis) = Some rs →
  h ∈ all_matches_or_none host → Tcp.all rs !! tcp_key t = Some t → h ∈ Tcp.hostname_matchers t →
  select_best_tcp_route s resolve host lis dst = select_best_tcp_route s resolve' host lis dst ∧
  select_best_tcp_route s resolve host lis dst = select_tcp_hostnames rs (all_matches_or_none host).
Proof.
  intros Hwf Hrs Hh Ht Hm. unfold select_best_tcp_route. rewrite Hrs.
  destruct (select_tcp_first rs _ h t (sw_tcp _ Hwf _ _ Hrs) Hh Ht Hm) as [r ->]. done.
Qed.

(** [best_match_for_route] returns the path of the best match of the
    route that accepts the request (the first in list order among equals),
    and nothing exactly when none accepts it. *)
Theorem best_match_for_route_best route req :
  match best_match_for_route route req with
  | Some pm => ∃ m, pm = path m ∧
      wins (filter (λ m, matches_request m req = true) (route_matches route)) m
  | None => ∀ m, m ∈ route_matches route → matches_request m req = false
  end.
Proof.
  unfold best_match_for_route.
  pose proof (best_match_fold (filter (λ m, matches_request m req = true) (route_matches route))) as H.
  destruct (foldl best_match_step None _) as [m|]; simpl; [by eauto|].
  intros m Hm. apply not_true_iff_false. intros Ht. eapply elem_of_nil. rewrite <-H.
  by apply list_elem_of_filter.
Qed.

(** The two precedence orders disagree: for any prefix and any longer
    regular expression, route selection prefers the regular expression while
    [best_match_for_route] prefers the prefix. The comment in
    [RouteSet::compare_route] states the order Exact > PathPrefix > Regex,
    but its [get_path_rank] gives prefix and regular expression one rank. *)
Theorem path_rank_orders_disagree p r k1 k2 :
  String.length p < String.length (regex_as_str r) →
  let mp := mkRouteMatch [] (PPathPrefix p) None [] in
  let mr := mkRouteMatch [] (PRegex r) None [] in
  compare_route (mr, k1) (mp, k2) = Lt ∧ compare_route_match mp mr = Gt.
Proof.
  intros Hlt mp mr. split; [|done]. rewrite compare_route_lex. simpl.
  rewrite (proj2 (Nat.compare_gt_iff _ _) Hlt). done.
Qed.

(** [ListenerSet::best_match*] picks, among the listeners its protocol
    filter lets through, one of the best rank for the host (exact hostname,
    then the longest wildcard, then the empty hostname), and fails only when
    no such listener matches the host. The hostname picked does not depend on
    the iteration order of the hash map. *)
Theorem listener_best_match_spec (HO' : HashOrder) ls host flt :
  best_listener ls host flt (best_match_filtered (HO := HO) ls host flt) ∧
  lis_hostname <$> best_match_filtered (HO := HO) ls host flt =
  lis_hostname <$> best_match_filtered (HO := HO') ls host flt.
Proof.
  pose proof (best_match_filtered_best (HO := HO) ls host flt) as H1.
  pose proof (best_match_filtered_best (HO := HO') ls host flt) as H2.
  split; [done|]. revert H1 H2.
  destruct (best_match_filtered (HO := HO) ls host flt) as [a|],
    (best_match_filtered (HO := HO') ls host flt) as [b|]; simpl; try done.
  - intros ([ka Ha] & Hfa & ra & Hra & Hba) ([kb Hb] & Hfb & rb & Hrb & Hbb). f_equal.
    assert (ra = rb) as <-; [|by eapply listener_rank_hostname].
    specialize (Hba _ _ _ Hb Hfb Hrb). specialize (Hbb _ _ _ Ha Hfa Hra).
    destruct ra, rb; unfold rank_le in *; simpl in *. f_equal; lia.
  - intros ([k Hk] & Hf & r & Hr & _) H. by rewrite (H k) in Hr.
  - intros H ([k Hk] & Hf & r & Hr & _). by rewrite (H k) in Hr.
Qed.
End claims.
