(* ===== verification/RouteChain.v ===== *)
(** * Delegation of routes

    [select_backend] and [select_route_chain] of [proxy/httpproxy.rs]: from the
    route a request selects, through the route groups its backends delegate to,
    down to a backend. *)
From stdpp Require Import base gmap strings list.
From Stdlib Require Import ZArith.
From S2P Require Import Prelude RustStd AgentTypes RouteSet BindStore BindStoreFacts RouteSelect.

Local Open Scope string_scope.
Local Open Scope list_scope.

Inductive RouteError := RouteNotFound | RouteCycleDetected.

Section chain.
Context {RE : RegexEngine} {PL : Payloads} {HC : HttpCrate} {HO : HashOrder}.
Context {Sockets BackendWithPolicies : Type}.
Local Abbreviation Store := (Store Sockets BackendWithPolicies).

(** [choose_weighted] of [rand], at its [n]th call: the place of an element. *)
Variable choose_weighted : nat → list Z → option nat.

Definition select_backend (n : nat) (route : Route) : option RouteBackendReference :=
  choose_weighted n (rbr_weight <$> route_backends route) ≫= λ i, route_backends route !! i.

Record SelectedRouteChain := mkChain {
  ch_routes : list Route;
  ch_path_match : PathMatch;
  ch_backend : option RouteBackendReference;
}.

(** The loop; the store is read anew in each round, and is [stores n] in the
    [n]th. [None] when the fuel runs out. *)
Fixpoint chain_loop (fuel n : nat) (stores : nat → Store) (req : Request) (route : Route) (pm : PathMatch)
    (routes : list Route) (seen : gset string) : option (outcome (result SelectedRouteChain RouteError)) :=
  match fuel with
  | 0 => None
  | S fuel' =>
      match select_backend n route with
      | None => Some (Ret (Ok (mkChain routes pm None)))
      | Some b =>
          match rbr_target b with
          | RBRouteGroup group =>
              match lookup_route_group (stores (S n)) group with
              | None => Some (Ret (Err RouteNotFound))
              | Some rg =>
                  match select_best_route_group rg req with
                  | Panic => Some Panic
                  | Ret None => Some (Ret (Err RouteNotFound))
                  | Ret (Some (route', pm')) =>
                      if decide (route_key route' ∈ seen) then Some (Ret (Err RouteCycleDetected))
                      else chain_loop fuel' (S n) stores req route' pm' (routes ++ [route'])
                             ({[route_key route']} ∪ seen)
                  end
              end
          | _ => Some (Ret (Ok (mkChain routes pm (Some b))))
          end
      end
  end.

Definition select_route_chain (fuel : nat) (stores : nat → Store) (dst : SocketAddr) (lis : Listener) (req : Request)
    : option (outcome (result SelectedRouteChain RouteError)) :=
  match select_best_route (stores 0) dst lis req with
  | Panic => Some Panic
  | Ret None => Some (Ret (Err RouteNotFound))
  | Ret (Some (route, pm)) => chain_loop fuel 0 stores req route pm [route] {[route_key route]}
  end.

(** ** What a chain is *)

(** A match of the route has path [pm] and accepts the request. *)
Definition accepts (req : Request) (r : Route) (pm : PathMatch) : Prop :=
  ∃ m, m ∈ route_matches r ∧ path m = pm ∧ matches_request m req = true.

(** In round [n], [r] delegates to a group. *)
Definition delegates (n : nat) (stores : nat → Store) (r : Route) (group : option RouteSet) : Prop :=
  ∃ b key, select_backend n r = Some b ∧ rbr_target b = RBRouteGroup key ∧
    group = lookup_route_group (stores (S n)) key.

(** The routes from the one selected first to [r], each the choice of the group
    the one before delegates to. *)
Inductive linked (stores : nat → Store) (req : Request) : list Route → Route → PathMatch → Prop :=
| linked_one r pm : linked stores req [r] r pm
| linked_snoc rs r pm rg r' pm' :
    linked stores req rs r pm → delegates (pred (length rs)) stores r (Some rg) →
    select_best_route_group rg req = Ret (Some (r', pm')) → accepts req r' pm' →
    linked stores req (rs ++ [r']) r' pm'.

(** The first route of the chain, and its match unless it is the only route. *)
Definition chain_from (stores : nat → Store) (req : Request) (r0 : Route) (pm0 : PathMatch)
    (rs : list Route) (r : Route) (pm : PathMatch) : Prop :=
  linked stores req rs r pm ∧ head rs = Some r0 ∧ NoDup (route_key <$> rs) ∧ (rs = [r0] → pm = pm0) ∧
  (rs ≠ [r0] → accepts req r pm).

Definition chain_ok (stores : nat → Store) (req : Request) (r0 : Route) (pm0 : PathMatch)
    (res : result SelectedRouteChain RouteError) : Prop :=
  match res with
  | Ok c => ∃ r, chain_from stores req r0 pm0 (ch_routes c) r (ch_path_match c) ∧
      ch_backend c = select_backend (pred (length (ch_routes c))) r ∧
      ∀ b, ch_backend c = Some b → is_Some (as_backend_reference (rbr_target b))
  | Err RouteNotFound => ∃ rs r pm g, chain_from stores req r0 pm0 rs r pm ∧
      delegates (pred (length rs)) stores r g ∧ ∀ rg, g = Some rg → select_best_route_group rg req = Ret None
  | Err RouteCycleDetected => ∃ rs r pm rg r' pm', chain_from stores req r0 pm0 rs r pm ∧
      delegates (pred (length rs)) stores r (Some rg) ∧ select_best_route_group rg req = Ret (Some (r', pm')) ∧
      route_key r' ∈ route_key <$> rs
  end.

(** ** The loop *)

Lemma selected_accepts rs req hms r pm :
  wf rs → selected rs req hms (Some (r, pm)) → accepts req r pm ∧ all rs !! route_key r = Some r.
Proof.
  intros Hwf (before & h & after & m & _ & -> & [([k Hk] & _ & Hm) Hreq] & _). split; [by exists m|].
  simpl in *. by rewrite (wf_key _ Hwf _ _ Hk).
Qed.

Lemma group_route rg req :
  wf rg → ∃ res, select_best_route_group rg req = Ret res ∧
    ∀ r pm, res = Some (r, pm) → accepts req r pm ∧ all rg !! route_key r = Some r.
Proof.
  intros Hwf. destruct (select_group_best rg req Hwf) as (res & Hres & Hsel). exists res. split; [done|].
  intros r pm ->. destruct (get_host req); [|done]. by eapply selected_accepts.
Qed.

(** The routes of every group, whenever it is read, have their keys in [K]. *)
Definition keys_within (K : gset string) (stores : nat → Store) : Prop :=
  ∀ n g rg k r, lookup_route_group (stores n) g = Some rg → all rg !! k = Some r → k ∈ K.

Lemma linked_length stores req rs r pm : linked stores req rs r pm → 0 < length rs.
Proof. destruct 1; rewrite ?length_app; simpl; lia. Qed.

Lemma chain_loop_ok stores req r0 pm0 (K : gset string) :
  (∀ n, store_wf (stores n)) → keys_within K stores →
  ∀ fuel n r pm rs seen, chain_from stores req r0 pm0 rs r pm → length rs = S n →
    seen = list_to_set (route_key <$> rs) → size (K ∖ seen) < fuel →
    ∃ res, chain_loop fuel n stores req r pm rs seen = Some (Ret res) ∧ chain_ok stores req r0 pm0 res.
Proof.
  intros Hwf HK. induction fuel as [|fuel IH]; intros n r pm rs seen Hch Hlen Hseen Hsz; [lia|]. simpl.
  assert (pred (length rs) = n) as Hn by lia.
  destruct (select_backend n r) as [b|] eqn:Eb.
  2:{ eexists. split; [done|]. exists r. simpl. rewrite Hn, Eb. split; [done|]. by split. }
  destruct (as_backend_reference (rbr_target b)) eqn:Er.
  { assert (chain_ok stores req r0 pm0 (Ok (mkChain rs pm (Some b)))).
    { exists r. simpl. rewrite Hn, Eb. split; [done|]. split; [done|]. intros ? [= <-]. by rewrite Er. }
    destruct (rbr_target b); [by eauto..|done|by eauto]. }
  destruct (rbr_target b) as [| |g|] eqn:Et; try done. clear Er.
  assert (delegates n stores r (lookup_route_group (stores (S n)) g)) as Hdel by (by exists b, g).
  destruct (lookup_route_group (stores (S n)) g) as [rg|] eqn:Eg.
  2:{ eexists. split; [done|]. exists rs, r, pm, None. rewrite Hn. by split. }
  destruct (group_route rg req) as (res & Hres & Hacc); [by eapply sw_http|]. rewrite Hres.
  destruct res as [[r' pm']|].
  2:{ eexists. split; [done|]. exists rs, r, pm, (Some rg). rewrite Hn. split; [done|]. split; [done|]. by intros ? [= <-]. }
  destruct (Hacc _ _ eq_refl) as [Ha Hk]. subst seen. case_decide as Hseen.
  { eexists. split; [done|]. exists rs, r, pm, rg, r', pm'. rewrite Hn. split_and!; try done.
    by apply elem_of_list_to_set in Hseen. }
  destruct Hch as (Hl & Hh & Hnd & _ & _). apply (IH (S n)).
  - split; [by eapply linked_snoc; [exact Hl|by rewrite Hn|..]|]. split; [by destruct rs|]. split.
    { rewrite fmap_app. apply NoDup_app. split; [done|]. split; [|apply NoDup_singleton].
      intros k Hin ->%list_elem_of_singleton. apply Hseen. by apply elem_of_list_to_set. }
    split; [|done]. intros Heq. apply (f_equal length) in Heq. rewrite length_app in Heq. simpl in Heq. lia.
  - rewrite length_app. simpl. lia.
  - rewrite fmap_app, list_to_set_app_L. simpl. set_solver.
  - assert (route_key r' ∈ K) by (by eapply HK).
    enough (size (K ∖ ({[route_key r']} ∪ list_to_set (route_key <$> rs))) < size (K ∖ list_to_set (route_key <$> rs))) by lia.
    apply subset_size. set_solver.
Qed.

Lemma best_route_accepts (s : Store) dst lis req :
  store_wf s → ∃ res, select_best_route s dst lis req = Ret res ∧
    ∀ r pm, res = Some (r, pm) → accepts req r pm ∨ route_matches r = [] ∧ pm = PPathPrefix "/".
Proof.
  intros Hwf. unfold select_best_route. destruct (get_host req) as [host|]; [|by eexists].
  assert (∀ host def, (∀ r pm, def = Some (r, pm) → route_matches r = [] ∧ pm = PPathPrefix "/") →
    ∃ res, select_listener_route s lis req host def = Ret res ∧
      ∀ r pm, res = Some (r, pm) → accepts req r pm ∨ route_matches r = [] ∧ pm = PPathPrefix "/") as Hlis.
  { intros h def Hdef. destruct (select_listener_route_chosen s lis req h def Hwf) as (res & Hres & Hch).
    exists res. split; [done|]. intros r pm ->. unfold chosen in Hch.
    destruct (get_listener_routes s (lis_key lis)) as [rs|] eqn:E; [|by right; apply Hdef].
    destruct Hch as ([[r1 pm1]|] & Hsel & Hopt); simplify_eq/=; [|by right; apply Hdef].
    left. eapply selected_accepts; [|done]. by eapply sw_http. }
  destruct (req_waypoint req) as [svc|]; [|by apply Hlis].
  destruct (get_service_routes s (namespaced_hostname svc)) as [rs|] eqn:E.
  - assert (wf rs) as Hrs by (by eapply sw_http). destruct (select_hostnames_ok rs req (all_matches (wps_hostname svc)) Hrs)
      as (res & Hres & Hsel). exists res. split; [done|]. intros r pm ->. left. by eapply selected_accepts.
  - apply Hlis. by intros r pm [= <- <-].
Qed.

Lemma select_route_chain_ok stores dst lis req (K : gset string) fuel :
  (∀ n, store_wf (stores n)) → keys_within K stores → size K < fuel →
  ∃ res, select_route_chain fuel stores dst lis req = Some (Ret res) ∧
    match select_best_route (stores 0) dst lis req with
    | Ret (Some (r0, pm0)) => chain_ok stores req r0 pm0 res ∧
        (accepts req r0 pm0 ∨ route_matches r0 = [] ∧ pm0 = PPathPrefix "/")
    | _ => res = Err RouteNotFound
    end.
Proof.
  intros Hwf HK Hfuel. unfold select_route_chain.
  destruct (best_route_accepts (stores 0) dst lis req (Hwf 0)) as ([[r0 pm0]|] & -> & Hacc); [|by eexists].
  destruct (chain_loop_ok stores req r0 pm0 K Hwf HK fuel 0 r0 pm0 [r0] {[route_key r0]}) as (res & Hres & Hok).
  - split; [constructor|]. split; [done|]. split; [apply NoDup_singleton|]. by split.
  - done.
  - set_solver.
  - assert (size (K ∖ {[route_key r0]}) ≤ size K)%nat; [|lia]. apply subseteq_size. set_solver.
  - exists res. split; [done|]. split; [done|]. by apply Hacc.
Qed.

(** C10. Delegation ends. However the store changes between the rounds, as long
    as the keys of the routes in its groups come from a finite set, following
    the delegations of a request takes at most as many rounds as there are keys,
    and never panics. The routes of the chain are distinct; each is the one its
    group selects for the request, and the last match accepts the request's
    path; the backend is one the last route's weights chose and is not itself a
    delegation. Failures are exact: no route, a group that is missing or has no
    route for the request, or a route met twice. *)
Theorem route_chain_ends stores dst lis req (K : gset string) fuel :
  (∀ n, store_wf (stores n)) → keys_within K stores → size K < fuel →
  ∃ res, select_route_chain fuel stores dst lis req = Some (Ret res) ∧
    match select_best_route (stores 0) dst lis req with
    | Ret (Some (r0, pm0)) => chain_ok stores req r0 pm0 res ∧
        (accepts req r0 pm0 ∨ route_matches r0 = [] ∧ pm0 = PPathPrefix "/")
    | _ => res = Err RouteNotFound
    end.
Proof. apply select_route_chain_ok. Qed.
End chain.
