(* ===== verification/HttpRequest.v ===== *)
(** * Requests on their way through the proxy

    URIs and header maps of the [http] crate as the proxy edits them:
    [apply_header] and [modify_req_uri] of [http/mod.rs], [HeaderModifier] of
    [http/filters.rs], and [normalize_uri] and [hop_by_hop_headers] of
    [proxy/httpproxy.rs]. *)
From stdpp Require Import base gmap strings list.
From Stdlib Require Import ZArith Ascii.
From S2P Require Import Prelude RustStd AgentTypes RouteSelect.

Local Open Scope string_scope.
Local Open Scope list_scope.

(** ** The [http] and [headers] crates *)

(** Parsing of authorities, of paths with a query (the path and the query, a
    fragment cut off), of header names (which are lowered), and of the
    [Connection] header. *)
Class UriCrate := {
  authority_try_from : string → option string;
  authority_host : string → string;
  authority_port : string → option Z;
  pq_try_from : string → option (string * option string);
  header_name_from_bytes : string → option string;
  connection_has_upgrade : list string → bool;
  (* a path is kept as it is written, up to the first question mark *)
  pq_ok : ∀ s p q, Str.starts_with "/" s = true → Str.contains_char "#"%char s = false → pq_try_from s = Some (p, q) →
    match Str.split_once "?" s with Some (a, b) => p = a ∧ q = Some b | None => p = s ∧ q = None end;
}.

(** [HeaderMap]. Its iteration order is unspecified between names; a name's
    values keep their order. *)
Abbreviation HeaderMap := (list (string * string)).

Definition get_all (n : string) (h : HeaderMap) : list string := (filter (λ kv, kv.1 = n) h).*2.
Definition hm_append (k v : string) (h : HeaderMap) : HeaderMap := h ++ [(k, v)].
Definition hm_remove (k : string) (h : HeaderMap) : HeaderMap := filter (λ kv, kv.1 ≠ k) h.
Definition hm_insert (k v : string) (h : HeaderMap) : HeaderMap := hm_append k v (hm_remove k h).

(** [str::trim] of text a header value can hold. *)
Definition is_space (a : ascii) : bool := bool_decide (a = " "%char) || bool_decide (a = "009"%char).

Fixpoint trim_start (s : string) : string :=
  match s with String a s' => if is_space a then trim_start s' else s | EmptyString => "" end.

Fixpoint trim_end (s : string) : string :=
  match s with
  | EmptyString => ""
  | String a s' =>
      match trim_end s' with
      | EmptyString => if is_space a then "" else String a ""
      | t => String a t
      end
  end.

Definition trim (s : string) : string := trim_end (trim_start s).

(** ** Heads of requests *)

Inductive Version := HTTP_10 | HTTP_11 | HTTP_2 | HTTP_3.

Section requests.
Context {UC : UriCrate} {HC : HttpCrate} {RE : RegexEngine}.

(** The part routing reads, the version, and the extensions the filters use. *)
Record Head := mkHead {
  hd_req : Request;
  hd_version : Version;
  hd_path_match : option PathMatch;
  hd_original_url : option Uri;
  hd_auto_hostname : bool;
  hd_on_upgrade : bool;
}.

Definition set_req (q : Request) (r : Head) : Head :=
  mkHead q (hd_version r) (hd_path_match r) (hd_original_url r) (hd_auto_hostname r) (hd_on_upgrade r).
Definition set_headers (h : HeaderMap) (r : Head) : Head :=
  set_req (mkRequest (req_method (hd_req r)) (req_uri (hd_req r)) h (req_waypoint (hd_req r))) r.
Definition set_uri (u : Uri) (r : Head) : Head :=
  set_req (mkRequest (req_method (hd_req r)) u (req_headers (hd_req r)) (req_waypoint (hd_req r))) r.
Definition set_method (m : string) (r : Head) : Head :=
  set_req (mkRequest m (req_uri (hd_req r)) (req_headers (hd_req r)) (req_waypoint (hd_req r))) r.

Definition hd_headers (r : Head) : HeaderMap := req_headers (hd_req r).
Definition hd_uri (r : Head) : Uri := req_uri (hd_req r).

(** [Request::default()]. *)
Definition default_uri : Uri := mkUri None None None "/" (Some "/") None.
Definition default_head : Head :=
  mkHead (mkRequest "GET" default_uri [] None) HTTP_11 None None false false.

(** [uri::Parts] and [Uri::from_parts]. *)
Record Parts := mkParts { pt_scheme : option string; pt_authority : option string; pt_pq : option (string * option string) }.

Definition pq_str (pq : string * option string) : string :=
  match pq.2 with Some q => pq.1 +:+ "?" +:+ q | None => pq.1 end.

Definition into_parts (u : Uri) : Parts :=
  mkParts (uri_scheme u) (uri_authority u)
    (match uri_path_and_query u with Some _ => Some (uri_path u, uri_query u) | None => None end).

Definition from_parts (p : Parts) : option Uri :=
  let ok := match pt_scheme p, pt_authority p, pt_pq p with
            | Some _, Some _, Some _ => true
            | Some _, _, _ => false
            | None, Some _, Some _ => false
            | None, _, _ => true
            end in
  if ok : bool then
    Some (mkUri (pt_scheme p) (pt_authority p) (authority_host <$> pt_authority p)
            (default "" (fst <$> pt_pq p)) (pq_str <$> pt_pq p) (pt_pq p ≫= snd))
  else None.

(** [modify_req_uri] for an edit that does not fail: the request is taken out,
    and put back only if the parts make a URI. *)
Definition modify_req_uri (f : Parts → Parts) (r : Head) : Head :=
  match from_parts (f (into_parts (hd_uri r))) with
  | Some u => set_uri u r
  | None => default_head
  end.

(** ** [RequestOrResponse::apply_header], for a request *)

Inductive HeaderOrPseudoValue :=
| VHeader (v : string) | VMethod (m : string) | VScheme (s : string) | VAuthority (a : string)
| VPath (pq : string * option string) | VStatus (code : Z).

Inductive HeaderMutationAction := AppendIfExistsOrAdd | AddIfAbsent | OverwriteIfExistsOrAdd | OverwriteIfExists.

Definition should_apply (a : HeaderMutationAction) (exists_ : bool) : bool :=
  match a with
  | AppendIfExistsOrAdd | OverwriteIfExistsOrAdd => true
  | AddIfAbsent => negb exists_
  | OverwriteIfExists => exists_
  end.

Definition should_append (a : HeaderMutationAction) : bool :=
  match a with AppendIfExistsOrAdd => true | _ => false end.

Definition set_authority (a : string) : Head → Head :=
  modify_req_uri (λ p, mkParts (option_or (pt_scheme p) (Some "http")) (Some a) (pt_pq p)).

Definition contains_key (k : string) (h : HeaderMap) : bool := existsb (λ kv, bool_decide (kv.1 = k)) h.

Definition apply_header (k : HeaderOrPseudo) (v : option HeaderOrPseudoValue) (action : HeaderMutationAction)
    (r : Head) : outcome Head :=
  match k, v with
  | HPHeader k, Some (VHeader v) =>
      if bool_decide (k = "host") then
        match authority_try_from v with
        | None => Ret r
        | Some a => Ret (set_authority a (set_headers (hm_remove "host" (hd_headers r)) r))
        end
      else if negb (should_apply action (contains_key k (hd_headers r))) then Ret r
      else Ret (set_headers ((if should_append action then hm_append else hm_insert) k v (hd_headers r)) r)
  | HPHeader k, None => Ret (set_headers (hm_remove k (hd_headers r)) r)
  | _, Some (VMethod m) => Ret (set_method m r)
  | _, Some (VScheme s) => Ret (modify_req_uri (λ p, mkParts (Some s) (pt_authority p) (pt_pq p)) r)
  | _, Some (VAuthority a) => Ret (set_authority a r)
  | _, Some (VPath pq) => Ret (modify_req_uri (λ p, mkParts (pt_scheme p) (pt_authority p) (Some pq)) r)
  | _, Some (VStatus _) => Ret r
  | _, None => Ret r
  | _, Some (VHeader _) => Panic                (* unreachable!("invalid k/v pair") *)
  end.

(** The edit of the URI that [apply_header] makes, if it makes one. When the
    parts do not form a URI the request is lost: [modify_req_uri] had taken it,
    its head, its body and its extensions. *)
Definition uri_edit (k : HeaderOrPseudo) (v : option HeaderOrPseudoValue) : option (Parts → Parts) :=
  let authority a := λ p, mkParts (option_or (pt_scheme p) (Some "http")) (Some a) (pt_pq p) in
  match k, v with
  | HPHeader n, Some (VHeader v) => if bool_decide (n = "host") then authority <$> authority_try_from v else None
  | _, Some (VAuthority a) => Some (authority a)
  | _, Some (VScheme s) => Some (λ p, mkParts (Some s) (pt_authority p) (pt_pq p))
  | _, Some (VPath pq) => Some (λ p, mkParts (pt_scheme p) (pt_authority p) (Some pq))
  | _, _ => None
  end.

Definition lost (k : HeaderOrPseudo) (v : option HeaderOrPseudoValue) (h : Head) : bool :=
  match uri_edit k v with Some f => bool_decide (from_parts (f (into_parts (hd_uri h))) = None) | None => false end.

(** ** [HeaderModifier] *)

Record HeaderModifier := mkHeaderModifier {
  hm_add : list (string * string);
  hm_set : list (string * string);
  hm_removes : list string;
}.

Inductive FilterError :=
| InvalidURI | InvalidHTTPURI | InvalidHeaderName | InvalidHeaderValue | InvalidFilterConfiguration (m : string) | HttpError.

(** A loop that stops at the first error, keeping what it has done. *)
Fixpoint try_each {A S} (f : A → S → outcome (S * result () FilterError)) (l : list A) (s : S)
    : outcome (S * result () FilterError) :=
  match l with
  | [] => Ret (s, Ok ())
  | a :: l' =>
      '(s, r) ← f a s;
      match r with Err e => Ret (s, Err e) | Ok _ => try_each f l' s end
  end.

Definition seq_try {S} (r : outcome (S * result () FilterError)) (k : S → outcome (S * result () FilterError))
    : outcome (S * result () FilterError) :=
  '(s, e) ← r;
  match e with Err e => Ret (s, Err e) | Ok _ => k s end.

(** A name and a value that parse, and then an edit. *)
Definition parsed {S} (f : string → string → S → outcome S) (kv : string * string) (s : S)
    : outcome (S * result () FilterError) :=
  match header_name_from_bytes kv.1 with
  | None => Ret (s, Err InvalidHeaderName)
  | Some k =>
      match header_value_try_from kv.2 with
      | None => Ret (s, Err InvalidHeaderValue)
      | Some v => s ← f k v s; Ret (s, Ok ())
      end
  end.

Definition parsed_name {S} (f : string → S → S) (k : string) (s : S) : outcome (S * result () FilterError) :=
  match header_name_from_bytes k with
  | None => Ret (s, Err InvalidHeaderName)
  | Some k => Ret (f k s, Ok ())
  end.

(** [HeaderModifier::apply], on the headers of a response. *)
Definition modifier_apply (m : HeaderModifier) (h : HeaderMap) : outcome (HeaderMap * result () FilterError) :=
  seq_try (try_each (parsed (λ k v h, Ret (hm_append k v h))) (hm_add m) h) (λ h,
  seq_try (try_each (parsed (λ k v h, Ret (hm_insert k v h))) (hm_set m) h) (λ h,
  try_each (parsed_name hm_remove) (hm_removes m) h)).

(** [HeaderModifier::apply_request]. *)
Definition modifier_apply_request (m : HeaderModifier) (r : Head) : outcome (Head * result () FilterError) :=
  seq_try (try_each (parsed (λ k v, apply_header (HPHeader k) (Some (VHeader v)) AppendIfExistsOrAdd)) (hm_add m) r) (λ r,
  seq_try (try_each (parsed (λ k v, apply_header (HPHeader k) (Some (VHeader v)) OverwriteIfExistsOrAdd)) (hm_set m) r) (λ r,
  try_each (parsed_name (λ k r, set_headers (hm_remove k (hd_headers r)) r)) (hm_removes m) r)).

(** ** Arrival of a request *)

Definition HOP_HEADERS : list string :=
  ["connection"; "proxy-connection"; "keep-alive"; "proxy-authenticate"; "proxy-authorization"; "te"; "trailer";
   "transfer-encoding"; "upgrade"].

Definition connection_header_tokens (h : HeaderMap) : list string :=
  omap header_name_from_bytes
    (filter (λ t, t ≠ "") (trim <$> (omap header_to_str (get_all "connection" h) ≫= Str.split ","%char))).

Definition get_upgrade_type (h : HeaderMap) : option string :=
  match get_all "connection" h with
  | [] => None
  | vs => if connection_has_upgrade vs then header_get h "upgrade" else None
  end.

Definition has_trailers (h : HeaderMap) : bool :=
  match header_get h "te" ≫= header_to_str with Some s => Str.contains "trailers" s | None => false end.

(** The edits of [hop_by_hop_headers]. *)
Definition strip_hop_by_hop (h : HeaderMap) : HeaderMap :=
  let trailers := has_trailers h in
  let tokens := connection_header_tokens h in
  let upgrade_type := get_upgrade_type h in
  let h := foldl (λ h k, hm_remove k h) h tokens in
  let h := foldl (λ h k, hm_remove k h) h HOP_HEADERS in
  let h := if trailers then hm_insert "te" "trailers" h else h in
  match upgrade_type with
  | Some t => hm_insert "upgrade" t (hm_insert "connection" "upgrade" h)
  | None => h
  end.

(** [hop_by_hop_headers]; the upgrade it returns is its type. *)
Definition hop_by_hop_headers (r : Head) : Head * option string :=
  let r' := set_headers (strip_hop_by_hop (hd_headers r)) r in
  (mkHead (hd_req r') (hd_version r') (hd_path_match r') (hd_original_url r') (hd_auto_hostname r') false,
   if hd_on_upgrade r then get_upgrade_type (hd_headers r) else None).

(** [normalize_uri]; on an error the request is not used any more. *)
Definition normalize_uri (tls : bool) (r : Head) : result Head () :=
  match hd_version r, uri_authority (hd_uri r) with
  | (HTTP_10 | HTTP_11), None =>
      match header_get (hd_headers r) "host" ≫= authority_try_from with
      | None => Err ()
      | Some a =>
          let p := into_parts (hd_uri r) in
          let scheme := match pt_pq p with
                        | Some _ => Some (if tls then "https" else "http")
                        | None => pt_scheme p
                        end in
          match from_parts (mkParts scheme (Some a) (pt_pq p)) with
          | Some u => Ok (set_uri u (set_headers (hm_remove "host" (hd_headers r)) r))
          | None => Err ()
          end
      end
  | _, _ => Ok r
  end.
End requests.

(** ** Header maps *)

Lemma get_all_app n h h' : get_all n (h ++ h') = get_all n h ++ get_all n h'.
Proof. unfold get_all. by rewrite filter_app, fmap_app. Qed.

Lemma get_all_append n k v h : get_all n (hm_append k v h) = get_all n h ++ (if decide (k = n) then [v] else []).
Proof. unfold hm_append. rewrite get_all_app. unfold get_all at 2. rewrite filter_cons. simpl. by repeat case_decide. Qed.

Lemma get_all_remove n k h : get_all n (hm_remove k h) = if decide (k = n) then [] else get_all n h.
Proof.
  unfold get_all, hm_remove. rewrite list_filter_filter. case_decide as Hkn.
  - subst. rewrite (list_filter_iff _ (λ _, False)) by naive_solver. clear. by induction h.
  - f_equal. apply list_filter_iff. intros [k' v]. simpl. naive_solver.
Qed.

Lemma get_all_insert n k v h : get_all n (hm_insert k v h) = if decide (k = n) then [v] else get_all n h.
Proof. unfold hm_insert. rewrite get_all_append, get_all_remove. case_decide; [done|by rewrite app_nil_r]. Qed.

Lemma get_all_removes n ks h :
  get_all n (foldl (λ h k, hm_remove k h) h ks) = if decide (n ∈ ks) then [] else get_all n h.
Proof.
  revert h. induction ks as [|k ks IH]; intros h; [done|].
  simpl foldl. rewrite IH, get_all_remove. destruct (decide (n ∈ ks)) as [Hin|Hin].
  - by rewrite decide_True by (by right).
  - destruct (decide (k = n)) as [->|Hne]; [by rewrite decide_True by (by left)|].
    by rewrite decide_False by (rewrite elem_of_cons; naive_solver).
Qed.

Create Rewrite HintDb headers.
#[export] Hint Rewrite get_all_append get_all_remove get_all_insert get_all_removes : headers.

Section facts.
Context {UC : UriCrate} {HC : HttpCrate} {RE : RegexEngine}.

(** What goes on to the backend. The headers of the connection (the
    standard hop-by-hop ones and any named by a [Connection] header) are gone,
    except that [TE: trailers] is restated if the client accepts trailers and
    [Connection: upgrade] with the type of upgrade if the client asks for one;
    every other header keeps its values, in order. *)
Theorem hop_by_hop_exact (r : Head) n :
  get_all n (hd_headers (hop_by_hop_headers r).1) =
  let h := hd_headers r in
  if decide (n = "te") then if has_trailers h then ["trailers"] else []
  else if decide (n = "connection") then match get_upgrade_type h with Some _ => ["upgrade"] | None => [] end
  else if decide (n = "upgrade") then option_list (get_upgrade_type h)
  else if decide (n ∈ HOP_HEADERS ∨ n ∈ connection_header_tokens h) then [] else get_all n h.
Proof.
  change (hd_headers (hop_by_hop_headers r).1) with (strip_hop_by_hop (hd_headers r)).
  generalize (hd_headers r). intros h. unfold strip_hop_by_hop. set (tokens := connection_header_tokens h).
  set (h2 := foldl _ _ HOP_HEADERS).
  assert (∀ n, get_all n h2 = if decide (n ∈ HOP_HEADERS ∨ n ∈ tokens) then [] else get_all n h) as Hbase.
  { intros k. unfold h2. autorewrite with headers. destruct (decide (k ∈ HOP_HEADERS)); [by rewrite decide_True by (by left)|].
    destruct (decide (k ∈ tokens)); [by rewrite decide_True by (by right)|]. by rewrite decide_False by naive_solver. }
  clearbody h2. assert (∀ k, k ∈ HOP_HEADERS → get_all k h2 = []) as Hhop
    by (intros k Hk; rewrite Hbase; by rewrite decide_True by (by left)).
  destruct (has_trailers h), (get_upgrade_type h); autorewrite with headers;
    destruct (decide (n = "te")) as [->|Hte]; try (destruct (decide (n = "connection")) as [->|Hc]);
    try (destruct (decide (n = "upgrade")) as [->|Hu]);
    repeat ((rewrite decide_True by done) || (rewrite decide_False by congruence)); try done;
    try (apply Hhop; vm_compute; set_solver); by rewrite <-Hbase.
Qed.

(** ** Header modification *)

Definition parse_kv (kv : string * string) : option (string * string) :=
  k ← header_name_from_bytes kv.1; v ← header_value_try_from kv.2; Some (k, v).

Lemma try_each_parsed {S} (f : string → string → S → outcome S) (g : string → string → S → S) l l' s :
  (∀ k v s, f k v s = Ret (g k v s)) → mapM parse_kv l = Some l' →
  try_each (parsed f) l s = Ret (foldl (λ s kv, g kv.1 kv.2 s) s l', Ok ()).
Proof.
  intros Hf. revert l' s. induction l as [|[k v] l IH]; intros l' s Hl; [by injection Hl as <-|].
  apply bind_Some in Hl as ([k' v'] & E & (l2 & El & [= <-])%bind_Some). simpl.
  assert (parsed f (k, v) s = Ret (g k' v' s, Ok ())) as ->; [|by apply IH].
  unfold parsed. unfold parse_kv in E. simplify_option_eq. by rewrite Hf.
Qed.

Lemma try_each_names {S} (g : string → S → S) l l' s :
  mapM header_name_from_bytes l = Some l' → try_each (parsed_name g) l s = Ret (foldl (λ s k, g k s) s l', Ok ()).
Proof.
  revert l' s. induction l as [|k l IH]; intros l' s Hl; [by injection Hl as <-|].
  apply bind_Some in Hl as (k' & E & (l2 & El & [= <-])%bind_Some). simpl.
  assert (parsed_name g k s = Ret (g k' s, Ok ())) as -> by (unfold parsed_name; by rewrite E). by apply IH.
Qed.

Lemma get_all_appends n l h : get_all n (foldl (λ h kv, hm_append kv.1 kv.2 h) h l) = get_all n h ++ get_all n l.
Proof.
  revert h. induction l as [|[k v] l IH]; intros h; simpl; [by rewrite app_nil_r|].
  rewrite IH. autorewrite with headers. rewrite <-app_assoc. f_equal. unfold get_all at 2. rewrite filter_cons. simpl.
  by repeat case_decide.
Qed.

Lemma get_all_inserts n l h :
  get_all n (foldl (λ h kv, hm_insert kv.1 kv.2 h) h l) =
  match last (get_all n l) with Some v => [v] | None => get_all n h end.
Proof.
  induction l as [|[k v] l IH] using rev_ind; [done|]. rewrite foldl_snoc, get_all_app. simpl.
  autorewrite with headers. unfold get_all at 3. rewrite filter_cons. simpl.
  repeat case_decide; simplify_eq; simpl; [by rewrite last_snoc|]. by rewrite app_nil_r, IH.
Qed.

(** The values a header has after a modification. *)
Definition modified (adds sets : HeaderMap) (removes : list string) (n : string) (vs : list string) : list string :=
  if decide (n ∈ removes) then []
  else match last (get_all n sets) with Some v => [v] | None => vs ++ get_all n adds end.

Lemma modifier_apply_ok m adds sets removes (h : HeaderMap) :
  mapM parse_kv (hm_add m) = Some adds → mapM parse_kv (hm_set m) = Some sets →
  mapM header_name_from_bytes (hm_removes m) = Some removes →
  ∃ h', modifier_apply m h = Ret (h', Ok ()) ∧ ∀ n, get_all n h' = modified adds sets removes n (get_all n h).
Proof.
  intros Ha Hs Hr. unfold modifier_apply.
  rewrite (try_each_parsed _ hm_append _ adds) by done. simpl. rewrite (try_each_parsed _ hm_insert _ sets) by done. simpl.
  rewrite (try_each_names _ _ removes) by done. eexists. split; [done|]. intros n.
  rewrite get_all_removes, get_all_inserts, get_all_appends. done.
Qed.

(** The edit of a request's head by one pair. *)
Definition edit_head (append : bool) (k v : string) (r : Head) : Head :=
  if decide (k = "host") then
    match authority_try_from v with
    | None => r
    | Some a => set_authority a (set_headers (hm_remove "host" (hd_headers r)) r)
    end
  else set_headers ((if append then hm_append else hm_insert) k v (hd_headers r)) r.

Lemma apply_header_edit (append : bool) k v r :
  apply_header (HPHeader k) (Some (VHeader v)) (if append then AppendIfExistsOrAdd else OverwriteIfExistsOrAdd) r =
  Ret (edit_head append k v r).
Proof.
  unfold edit_head. simpl. destruct (decide (k = "host")) as [->|Hne].
  - rewrite bool_decide_true by done. by destruct (authority_try_from v).
  - rewrite bool_decide_false by done. by destruct append.
Qed.

(** A head and a header map that agree but for the host, with the authority so
    far. *)
Record agrees (r0 : Head) (h : HeaderMap) (a : option string) (r : Head) : Prop := mkAgrees {
  ag_headers : ∀ n, n ≠ "host" → get_all n (hd_headers r) = get_all n h;
  ag_authority : uri_authority (hd_uri r) = a;
  ag_path : uri_path_and_query (hd_uri r) ≠ None;
  ag_rest : req_method (hd_req r) = req_method (hd_req r0) ∧ uri_path (hd_uri r) = uri_path (hd_uri r0) ∧
            uri_query (hd_uri r) = uri_query (hd_uri r0);
}.

Definition host_of (a : option string) (kv : string * string) : option string :=
  if decide (kv.1 = "host") then option_or (authority_try_from kv.2) a else a.

Lemma edit_head_agrees (append : bool) r0 k v h a r :
  agrees r0 h a r →
  agrees r0 ((if append then hm_append else hm_insert) k v h) (host_of a (k, v)) (edit_head append k v r).
Proof.
  intros [Hh Ha Hp Hr]. unfold edit_head, host_of. simpl. destruct (decide (k = "host")) as [->|Hne].
  - assert (∀ n, n ≠ "host" → get_all n ((if append then hm_append else hm_insert) "host" v h) = get_all n h) as Hn.
    { intros n Hn. destruct append; autorewrite with headers; rewrite decide_False by congruence; [by rewrite app_nil_r|done]. }
    destruct (authority_try_from v) as [a'|]; simpl; [|split; [|done..]; intros n Hn'; by rewrite Hn, Hh].
    unfold set_authority, modify_req_uri. cbn [hd_uri set_headers set_req hd_req req_uri]. unfold into_parts.
    change (req_uri (hd_req r)) with (hd_uri r).
    destruct (uri_path_and_query (hd_uri r)) eqn:Epq; [|done]. unfold from_parts. cbn [pt_scheme pt_authority pt_pq].
    destruct (uri_scheme (hd_uri r)); simpl; (split; simpl; [|done|done|by destruct Hr as (-> & -> & ->)]);
      intros n Hn'; rewrite Hn by done; unfold hd_headers; simpl; rewrite get_all_remove, decide_False by congruence;
      by apply Hh.
  - split; simpl; [|done..]. intros n Hn. unfold hd_headers. simpl. destruct append; autorewrite with headers; by rewrite Hh.
Qed.

Lemma edit_all_agrees (append : bool) r0 l h a r :
  agrees r0 h a r →
  agrees r0 (foldl (λ h kv, (if append then hm_append else hm_insert) kv.1 kv.2 h) h l) (foldl host_of a l)
    (foldl (λ r kv, edit_head append kv.1 kv.2 r) r l).
Proof. revert h a r. induction l as [|[k v] l IH]; intros h a r H; simpl; [done|]. by apply IH, edit_head_agrees. Qed.

(** Modifying the headers of a request with a path, by valid names and
    values: no part of the request is lost; each header but the host has the
    values the lists give it (removals last, then the last value set, else the
    added values after the old ones); and adding or setting the host sets the
    authority to the last host that parses as one. *)
Theorem modify_request_headers m adds sets removes r :
  mapM parse_kv (hm_add m) = Some adds → mapM parse_kv (hm_set m) = Some sets →
  mapM header_name_from_bytes (hm_removes m) = Some removes → uri_path_and_query (hd_uri r) ≠ None →
  ∃ r', modifier_apply_request m r = Ret (r', Ok ()) ∧
    (∀ n, n ≠ "host" → get_all n (hd_headers r') = modified adds sets removes n (get_all n (hd_headers r))) ∧
    uri_authority (hd_uri r') = foldl host_of (uri_authority (hd_uri r)) (adds ++ sets) ∧
    req_method (hd_req r') = req_method (hd_req r) ∧ uri_path (hd_uri r') = uri_path (hd_uri r) ∧
    uri_query (hd_uri r') = uri_query (hd_uri r).
Proof.
  intros Ha Hs Hr Hpq. unfold modifier_apply_request.
  rewrite (try_each_parsed _ (edit_head true) _ adds) by (done || intros; apply (apply_header_edit true)). simpl.
  rewrite (try_each_parsed _ (edit_head false) _ sets) by (done || intros; apply (apply_header_edit false)). simpl.
  rewrite (try_each_names _ _ removes) by done.
  assert (agrees r (hd_headers r) (uri_authority (hd_uri r)) r) as H0 by (by split).
  apply (edit_all_agrees true r adds), (edit_all_agrees false r sets) in H0. simpl in H0.
  set (r2 := foldl (λ r kv, edit_head false kv.1 kv.2 r) _ sets) in *. clearbody r2. destruct H0 as [Hh Hau _ Hrest].
  assert (∀ ks x, foldl (λ r k, set_headers (hm_remove k (hd_headers r)) r) x ks =
    set_headers (foldl (λ h k, hm_remove k h) (hd_headers x) ks) x) as Hrm.
  { induction ks as [|k ks IH]; intros x; simpl; [by destruct x as [[] ? ? ? ? ?]|]. by rewrite IH. }
  eexists. split; [done|]. rewrite Hrm. split_and!; try apply Hrest; [|by rewrite foldl_app].
  intros n Hn. change (hd_headers (set_headers ?h ?x)) with h. rewrite get_all_removes, Hh by done.
  unfold modified. by rewrite get_all_inserts, get_all_appends.
Qed.

(** On a request without a path, as a [CONNECT] request is, setting the
    host does not fail but replaces the request: what goes on is an empty [GET]
    of the root without any of its headers. *)
Theorem set_host_drops_pathless_request (append : bool) r v a :
  uri_path_and_query (hd_uri r) = None → authority_try_from v = Some a →
  apply_header (HPHeader "host") (Some (VHeader v)) (if append then AppendIfExistsOrAdd else OverwriteIfExistsOrAdd) r
  = Ret default_head.
Proof.
  intros Hpq Ha. rewrite apply_header_edit. unfold edit_head. rewrite decide_True, Ha by done.
  unfold set_authority, modify_req_uri, into_parts, from_parts, hd_uri in *. simpl. rewrite Hpq. simpl.
  by destruct (uri_scheme (req_uri (hd_req r))).
Qed.
End facts.
