(* ===== verification/Rewrite.v ===== *)
(** * Rewrites, redirects and CSRF

    [UrlRewrite] and [RequestRedirect] of [http/filters.rs], which replace the
    path the route matched, and [http/csrf.rs]. *)
From stdpp Require Import base gmap strings list pretty.
From Stdlib Require Import ZArith Ascii.
From S2P Require Import Prelude RustStd AgentTypes RouteSelect HttpRequest.

Local Open Scope string_scope.
Local Open Scope list_scope.

(** ** Strings *)

(** [str::split_at]: it panics beyond the end and inside a character. *)
Definition is_continuation (a : ascii) : bool :=
  let n := nat_of_ascii a in (Nat.leb 128 n && Nat.ltb n 192)%nat.

Fixpoint split_at (n : nat) (s : string) : outcome (string * string) :=
  match n, s with
  | 0, EmptyString => Ret ("", "")
  | 0, String a s' => if is_continuation a then Panic else Ret ("", s)
  | S n', String a s' => '(x, y) ← split_at n' s'; Ret (String a x, y)
  | S _, EmptyString => Panic
  end.

(** [String::pop]. *)
Fixpoint pop (s : string) : string :=
  match s with
  | EmptyString => ""
  | String _ EmptyString => ""
  | String a s' => String a (pop s')
  end.

(** ** The filters *)

Inductive HostRedirect :=
| HRFull (hp : string) | HRHost (h : string) | HRPort (p : Z) | HRAuto | HRNone.

Inductive PathRedirect := PRFull (r : string) | PRPrefix (r : string).

Record RequestRedirect := mkRedirect {
  rr_scheme : option string;
  rr_authority : option HostRedirect;
  rr_path : option PathRedirect;
  rr_status : option Z;
}.

Record UrlRewrite := mkRewrite { ur_authority : option HostRedirect; ur_path : option PathRedirect }.

Section filters.
Context {UC : UriCrate} {HC : HttpCrate} {RE : RegexEngine}.

Definition ok_or {A E} (e : E) (o : option A) : result A E := match o with Some a => Ok a | None => Err e end.

Definition uri_port (u : Uri) : option Z := uri_authority u ≫= authority_port.

Definition port_respecting_default (scheme : string) (port : Z) : option Z :=
  if bool_decide (scheme = "http") && (port =? 80)%Z then None
  else if bool_decide (scheme = "https") && (port =? 443)%Z then None
  else Some port.

Definition parse_authority (s : string) : result string FilterError := ok_or InvalidHTTPURI (authority_try_from s).

Definition rewrite_host (rewrite : option HostRedirect) (orig : Uri) (original_scheme : option string)
    (new_scheme : string) : result string FilterError :=
  match rewrite with
  | None | Some HRNone | Some HRAuto => ok_or InvalidURI (uri_authority orig)
  | Some (HRFull hp) => parse_authority hp
  | Some (HRHost h) =>
      if bool_decide (original_scheme = Some "http") || bool_decide (original_scheme = Some "https")
      then parse_authority h
      else match uri_port orig ≫= port_respecting_default new_scheme with
           | Some p => parse_authority (h +:+ ":" +:+ pretty p)
           | None => parse_authority h
           end
  | Some (HRPort p) =>
      match port_respecting_default new_scheme p with
      | Some p =>
          if bool_decide (Some p = uri_port orig) then ok_or InvalidURI (uri_authority orig)
          else let? h := ok_or InvalidURI (uri_host orig) in parse_authority (h +:+ ":" +:+ pretty p)
      | None =>
          match uri_port orig with
          | Some _ => let? h := ok_or InvalidURI (uri_host orig) in parse_authority h
          | None => ok_or InvalidURI (uri_authority orig)
          end
      end
  end.

Definition with_query (p : string) (u : Uri) : string :=
  match uri_query u with Some q => p +:+ "?" +:+ q | None => p end.

Definition parse_pq (s : string) : result (string * option string) FilterError := ok_or InvalidHTTPURI (pq_try_from s).

(** The new path of a prefix rewrite, given what follows the matched prefix. *)
Definition join_prefix (r rest : string) : string :=
  let r := if negb (Str.ends_with "/" r) && negb (Str.is_empty rest) && negb (Str.starts_with "/" rest)
           then r +:+ "/" else r in
  let r := if Str.ends_with "/" r && Str.starts_with "/" rest then pop r else r in
  r +:+ rest.

Definition rewrite_path (rewrite : option PathRedirect) (path_match : PathMatch) (orig : Uri)
    : outcome (result (string * option string) FilterError) :=
  match rewrite with
  | None => Ret (ok_or InvalidURI (pt_pq (into_parts orig)))
  | Some (PRFull r) => Ret (parse_pq (with_query r orig))
  | Some (PRPrefix r) =>
      match path_match with
      | PPathPrefix match_pfx =>
          '(_, rest) ← split_at (String.length (Str.trim_end_matches "/" match_pfx)) (uri_path orig);
          Ret (parse_pq (with_query (join_prefix r rest) orig))
      | _ => Ret (Err (InvalidFilterConfiguration "prefix redirect requires prefix match"))
      end
  end.

(** [Uri::builder] with all three parts. *)
Definition build_uri (scheme authority : string) (pq : string * option string) : Uri :=
  mkUri (Some scheme) (Some authority) (Some (authority_host authority)) pq.1 (Some (pq_str pq)) pq.2.

Definition DEFAULT_PATH : PathMatch := PPathPrefix "/".

(** [UrlRewrite::apply]. *)
Definition url_rewrite (f : UrlRewrite) (r : Head) : outcome (Head * result () FilterError) :=
  let path_match := default DEFAULT_PATH (hd_path_match r) in
  let orig := hd_uri r in
  let r := mkHead (hd_req r) (hd_version r) (hd_path_match r) (Some orig) (hd_auto_hostname r) (hd_on_upgrade r) in
  let scheme := default "http" (uri_scheme orig) in
  match rewrite_host (ur_authority f) orig (Some scheme) scheme with
  | Err e => Ret (r, Err e)
  | Ok authority =>
      let auto := match ur_authority f with Some HRAuto | None => hd_auto_hostname r | _ => false end in
      let r := mkHead (hd_req r) (hd_version r) (hd_path_match r) (hd_original_url r) auto (hd_on_upgrade r) in
      pq ← rewrite_path (ur_path f) path_match orig;
      match pq with
      | Err e => Ret (r, Err e)
      | Ok pq => Ret (set_uri (build_uri scheme authority pq) r, Ok ())
      end
  end.

(** [RequestRedirect::apply]: the status and the location of the response. *)
Definition uri_display (u : Uri) : string :=
  match uri_scheme u with Some s => s +:+ "://" | None => "" end +:+ default "" (uri_authority u) +:+
  default "" (uri_path_and_query u).

Definition request_redirect (f : RequestRedirect) (r : Head) : outcome (result (Z * string) FilterError) :=
  let path_match := default DEFAULT_PATH (hd_path_match r) in
  let new_scheme := default "http" (option_or (rr_scheme f) (uri_scheme (hd_uri r))) in
  match rewrite_host (rr_authority f) (hd_uri r) (rr_scheme f) new_scheme with
  | Err e => Ret (Err e)
  | Ok authority =>
      pq ← rewrite_path (rr_path f) path_match (hd_uri r);
      match pq with
      | Err e => Ret (Err e)
      | Ok pq => Ret (Ok (default 302%Z (rr_status f), uri_display (build_uri new_scheme authority pq)))
      end
  end.

(** ** CSRF *)

Record Csrf := mkCsrf { additional_origins : gset string }.

Inductive CsrfVerdict := Allowed | Forbidden.

Definition is_safe_method (m : string) : bool :=
  bool_decide (m = "GET") || bool_decide (m = "HEAD") || bool_decide (m = "OPTIONS").

Definition header_str (e : string) (name : string) (r : Head) : result (option string) FilterError :=
  match header_get (hd_headers r) name with
  | None => Ok None
  | Some v => let? s := ok_or (InvalidFilterConfiguration e) (header_to_str v) in Ok (Some s)
  end.

Definition get_origin_header (r : Head) : result (option string) FilterError :=
  let? o := header_str "malformed origin header" "origin" r in
  Ok (match o with Some s => if bool_decide (s = "null") then None else Some s | None => None end).

Definition get_sec_fetch_site_header : Head → result (option string) FilterError :=
  header_str "malformed Sec-Fetch-Site header" "sec-fetch-site".

Definition get_target_origin (r : Head) : result string FilterError :=
  let? a := ok_or (InvalidFilterConfiguration "missing authority in URI") (uri_authority (hd_uri r)) in
  Ok (default "http" (uri_scheme (hd_uri r)) +:+ "://" +:+ a).

Definition is_request_exempt (c : Csrf) (r : Head) : result bool FilterError :=
  let? o := get_origin_header r in
  Ok (match o with Some s => bool_decide (s ∈ additional_origins c) | None => false end).

Definition csrf_apply (c : Csrf) (r : Head) : result CsrfVerdict FilterError :=
  if is_safe_method (req_method (hd_req r)) then Ok Allowed
  else
    let? site := get_sec_fetch_site_header r in
    match site with
    | Some s =>
        if bool_decide (s = "same-origin") || bool_decide (s = "none") then Ok Allowed
        else let? exempt := is_request_exempt c r in Ok (if exempt : bool then Allowed else Forbidden)
    | None =>
        let? o := get_origin_header r in
        match o with
        | None => Ok Allowed
        | Some origin =>
            let? target := get_target_origin r in
            if bool_decide (origin = target) then Ok Allowed
            else let? exempt := is_request_exempt c r in Ok (if exempt : bool then Allowed else Forbidden)
        end
    end.
End filters.

(** ** Strings and segments *)

Lemma trim_app c a b :
  Str.trim_end_matches c (a +:+ b) =
  if decide (Str.trim_end_matches c b = "") then Str.trim_end_matches c a else a +:+ Str.trim_end_matches c b.
Proof.
  induction a as [|x a IH]; [simpl; by case_decide|]. rewrite !Str.string_app_cons. simpl. rewrite IH.
  case_decide as Hb; [done|]. destruct (Str.trim_end_matches c b) as [|y t]; [done|].
  destruct a; done.
Qed.

Lemma concat_slashes k :
  String.concat "" (replicate (S k) "/") = String "/" (String.concat "" (replicate k "/")).
Proof. by destruct k. Qed.

Definition below (rest : string) : Prop := rest = "" ∨ ∃ x, rest = String "/" x.

(** A prefix match, as the text that follows the prefix. *)
Lemma prefix_matches_rest p q :
  path_prefix_matches p q = true ↔ ∃ rest, q = Str.trim_end_matches "/" p +:+ rest ∧ below rest.
Proof.
  unfold path_prefix_matches. set (t := Str.trim_end_matches "/" p). split.
  - destruct (Str.strip_prefix t (Str.trim_end_matches "/" q)) as [suf|] eqn:E; [|done].
    apply Str.strip_prefix_Some in E. intros Hsuf.
    destruct (Str.trim_end_matches_app "/" q) as [k Hk]. rewrite E, Str.string_app_assoc in Hk. eexists. split; [exact Hk|].
    destruct suf as [|a suf].
    + destruct k; [by left|right]. rewrite concat_slashes. by eexists.
    + right. unfold Str.starts_with in Hsuf. simpl in Hsuf. destruct (decide ("/"%char = a)) as [<-|]; [|done]. by eexists.
  - intros (rest & -> & Hrest). rewrite trim_app. case_decide as Hr.
    + unfold t. rewrite Str.trim_end_matches_idem. fold t.
      rewrite (proj2 (Str.strip_prefix_Some t t "")); [done|]. by rewrite Str.string_app_nil_r.
    + rewrite (proj2 (Str.strip_prefix_Some t _ (Str.trim_end_matches "/" rest))) by done.
      destruct Hrest as [->|[x ->]]; [done|]. simpl in *. by destruct (Str.trim_end_matches "/" x).
Qed.

Lemma split_at_app a rest : below rest → split_at (String.length a) (a +:+ rest) = Ret (a, rest).
Proof.
  intros Hrest. induction a as [|x a IH]; simpl.
  - by destruct Hrest as [->|[y ->]].
  - by rewrite IH.
Qed.

Lemma split_at_short n s : String.length s < n → split_at n s = Panic.
Proof. revert n. induction s as [|a s IH]; intros [|n] Hn; simpl in *; try lia; [done|]. rewrite IH by lia. done. Qed.

Lemma pop_slash s : pop (s +:+ "/") = s.
Proof. induction s as [|a s IH]; [done|]. rewrite Str.string_app_cons. simpl. rewrite IH. by destruct s. Qed.

(** The segments of a path that are not empty. *)
Definition segs (s : string) : list string := filter (λ x, x ≠ "") (segments s).

Lemma segs_app a b : segs (a +:+ String "/" b) = segs a ++ segs b.
Proof. unfold segs. by rewrite segments_app, filter_app. Qed.

Lemma segs_trim s : segs (Str.trim_end_matches "/" s) = segs s.
Proof.
  destruct (Str.trim_end_matches_app "/" s) as [k Hk]. rewrite Hk at 2. clear Hk.
  generalize (Str.trim_end_matches "/" s). intros t.
  assert (∀ k, segs (String.concat "" (replicate k "/")) = []) as Hs.
  { clear. induction k as [|k IH]; [done|]. rewrite concat_slashes. etrans; [exact (segs_app "" _)|by rewrite IH]. }
  destruct k as [|k]; [simpl; by rewrite Str.string_app_nil_r|].
  by rewrite concat_slashes, segs_app, Hs, app_nil_r.
Qed.

Lemma contains_char_app c a b : Str.contains_char c (a +:+ b) = Str.contains_char c a || Str.contains_char c b.
Proof. induction a as [|x a IH]; [done|]. rewrite Str.string_app_cons. simpl. by case_decide. Qed.

Lemma split_once_none c s : Str.contains_char c s = false → Str.split_once (String c "") s = None.
Proof.
  induction s as [|a s IH]; [done|]. simpl. case_decide as Hac; [done|]. intros Hs.
  rewrite decide_False by congruence. by rewrite IH.
Qed.

Lemma segs_below t rest : below rest → segs (t +:+ rest) = segs t ++ segs rest.
Proof.
  intros [->|[x ->]]; [by rewrite Str.string_app_nil_r, app_nil_r|]. rewrite segs_app. done.
Qed.

(** The new path: the replacement, with at most one slash dropped from its end,
    and the rest. *)
Lemma join_prefix_eq r rest :
  below rest →
  ∃ r0, join_prefix r rest = r0 +:+ rest ∧ (r = r0 ∨ r = r0 +:+ "/" ∧ rest ≠ "").
Proof.
  intros Hrest. unfold join_prefix.
  assert (negb (Str.ends_with "/" r) && negb (Str.is_empty rest) && negb (Str.starts_with "/" rest) = false) as ->.
  { destruct Hrest as [->|[x ->]]; simpl; [by rewrite andb_false_r|]. by rewrite !andb_false_r. }
  destruct (Str.ends_with "/" r) eqn:E; simpl; [|by exists r; split; [|left]].
  apply Str.ends_with_true in E as [r0 ->]. rewrite pop_slash. destruct Hrest as [->|[x ->]]; simpl.
  - exists (r0 +:+ "/"). split; [done|by left].
  - exists r0. split; [done|by right].
Qed.

Lemma join_prefix_segs r rest : below rest → segs (join_prefix r rest) = segs r ++ segs rest.
Proof.
  intros Hrest. destruct (join_prefix_eq r rest Hrest) as (r0 & -> & [->|[-> _]]); rewrite segs_below by done; [done|].
  f_equal. by rewrite (segs_app r0 ""), app_nil_r.
Qed.

Lemma join_prefix_below r rest : below rest → path_prefix_matches r (join_prefix r rest) = true.
Proof.
  intros Hrest. apply prefix_matches_rest. destruct (join_prefix_eq r rest Hrest) as (r0 & -> & Hr).
  assert (Str.trim_end_matches "/" r = Str.trim_end_matches "/" r0) as ->.
  { destruct Hr as [->|[-> _]]; [done|]. by rewrite trim_app. }
  destruct (Str.trim_end_matches_app "/" r0) as [k Hk]. eexists. rewrite Hk at 1. rewrite Str.string_app_assoc.
  split; [done|]. destruct k as [|k]; [done|]. right. rewrite concat_slashes. by eexists.
Qed.

Lemma join_prefix_char c r rest :
  below rest → Str.contains_char c r = false → Str.contains_char c rest = false →
  Str.contains_char c (join_prefix r rest) = false.
Proof.
  intros Hrest Hr Hc. destruct (join_prefix_eq r rest Hrest) as (r0 & -> & Heq).
  rewrite contains_char_app, Hc, orb_false_r. destruct Heq as [->|[-> _]]; [done|].
  rewrite contains_char_app in Hr. by apply orb_false_elim in Hr as [-> _].
Qed.

(** ** Rewriting what was routed *)

Section facts.
Context {UC : UriCrate} {HC : HttpCrate} {RE : RegexEngine}.

(** A URI the [http] crate holds: a path has no query or fragment in it. *)
Definition uri_clean (u : Uri) : Prop :=
  Str.contains_char "?" (uri_path u) = false ∧ Str.contains_char "#" (uri_path u) = false ∧
  ∀ q, uri_query u = Some q → Str.contains_char "#" q = false.

Definition plain_path (r : string) : Prop :=
  Str.starts_with "/" r = true ∧ Str.contains_char "?" r = false ∧ Str.contains_char "#" r = false.

(** The segments of [path'] are those of [path] with the prefix [p] replaced by
    [r]. *)
Definition prefix_replaced (p r path path' : string) : Prop :=
  ∃ rest, segs path = segs p ++ rest ∧ segs path' = segs r ++ rest.

Lemma parse_pq_query s p q u path :
  Str.starts_with "/" path = true → Str.contains_char "?" path = false → Str.contains_char "#" path = false → uri_clean u →
  s = with_query path u → parse_pq s = Ok (p, q) → p = path ∧ q = uri_query u.
Proof.
  intros Hs Hq Hf (_ & _ & Hc) -> Hp. unfold parse_pq, ok_or in Hp.
  destruct (pq_try_from (with_query path u)) as [[p' q']|] eqn:E; [|done]. injection Hp as -> ->.
  apply Str.starts_with_true in Hs as [t Ht]. unfold with_query in E. destruct (uri_query u) as [q0|].
  - apply pq_ok in E; [|apply Str.starts_with_true; exists (t +:+ "?" +:+ q0); by rewrite Ht|].
    + by rewrite (Str.split_once_char "?" path q0) in E.
    + by rewrite !contains_char_app, Hf, (Hc q0).
  - apply pq_ok in E; [|apply Str.starts_with_true; eauto|done]. by rewrite split_once_none in E.
Qed.

Lemma rewrite_prefix_ok p r u :
  path_prefix_matches p (uri_path u) = true → uri_clean u → plain_path r →
  ∃ res, rewrite_path (Some (PRPrefix r)) (PPathPrefix p) u = Ret res ∧
    ∀ path q, res = Ok (path, q) →
      q = uri_query u ∧ path_prefix_matches r path = true ∧ prefix_replaced p r (uri_path u) path.
Proof.
  intros Hm Hu (Hr & Hrq & Hrf). apply prefix_matches_rest in Hm as (rest & Hpath & Hrest). simpl. rewrite Hpath, split_at_app by done. simpl.
  eexists. split; [done|]. intros path q Hres. pose proof Hu as (Hq & Hf & Hc).
  rewrite Hpath, contains_char_app, orb_false_iff in Hq. rewrite Hpath, contains_char_app, orb_false_iff in Hf.
  eapply (parse_pq_query _ _ _ u (join_prefix r rest)) in Hres as [-> ->]; [|..|done].
  - split; [done|]. split; [by apply join_prefix_below|]. exists (segs rest).
    rewrite join_prefix_segs by done. split; [|done]. rewrite <-(segs_trim p), <-segs_below by done. done.
  - apply Str.starts_with_true. apply Str.starts_with_true in Hr as [t ->].
    destruct (join_prefix_eq ("/" +:+ t) rest Hrest) as (r0 & -> & [<-|[Heq Hne]]).
    + exists (t +:+ rest). done.
    + destruct r0 as [|a r0]; [|injection Heq as -> _; by exists (r0 +:+ rest)].
      destruct Hrest as [->|[x ->]]; [done|]. by exists x.
  - by apply join_prefix_char; [|..|apply Hq].
  - by apply join_prefix_char; [|..|apply Hf].
  - done.
Qed.

(** Rewriting the path of a routed request. If the match that routed a
    request is a path prefix, replacing that prefix never panics; when the new
    path parses, its segments are those of the replacement followed by those of
    the request below the matched prefix, it is itself below the replacement,
    the query is kept, and the original URL is recorded. *)
Theorem url_rewrite_prefix f r m p new :
  matches_request m (hd_req r) = true → path m = PPathPrefix p → hd_path_match r = Some (path m) →
  ur_path f = Some (PRPrefix new) → uri_clean (hd_uri r) → plain_path new →
  ∃ r' res, url_rewrite f r = Ret (r', res) ∧ hd_original_url r' = Some (hd_uri r) ∧
    (res = Ok () → uri_query (hd_uri r') = uri_query (hd_uri r) ∧
       path_prefix_matches new (uri_path (hd_uri r')) = true ∧
       prefix_replaced p new (uri_path (hd_uri r)) (uri_path (hd_uri r'))).
Proof.
  intros Hm Hp Hext Hf Hu Hnew. unfold url_rewrite. rewrite Hext, Hp, Hf. simpl.
  assert (path_prefix_matches p (uri_path (hd_uri r)) = true) as Hpm.
  { unfold hd_uri. unfold matches_request in Hm. rewrite Hp in Hm. simpl in Hm. by destruct (path_prefix_matches p (uri_path (req_uri (hd_req r)))). }
  destruct (rewrite_host _ _ _ _) as [a|e]; [|by eexists _, _].
  destruct (rewrite_prefix_ok p new (hd_uri r) Hpm Hu Hnew) as (res & Hres & Hok). simpl in Hres. rewrite Hres. simpl.
  destruct res as [[path q]|e]; [|by eexists _, _]. eexists _, _. split; [done|]. split; [done|]. intros _. by apply Hok.
Qed.

(** A redirect after a rewrite. The match stays on the request when its
    URL is rewritten, so a redirect that replaces the prefix panics when the
    rewritten path is shorter than the prefix matched. *)
Theorem redirect_after_rewrite_panics f g r p new to r' :
  hd_path_match r = Some (PPathPrefix p) → ur_path f = Some (PRFull new) → plain_path new → uri_clean (hd_uri r) →
  String.length new < String.length (Str.trim_end_matches "/" p) →
  url_rewrite f r = Ret (r', Ok ()) → rr_path g = Some (PRPrefix to) → rr_authority g = None →
  request_redirect g r' = Panic.
Proof.
  intros Hext Hf (Hn & Hnq & Hnf) Hu Hlen Hrw Hg Hga. unfold url_rewrite in Hrw. rewrite Hf in Hrw. simpl in Hrw.
  destruct (rewrite_host _ _ _ _) as [a|e]; [|done]. simpl in Hrw.
  destruct (parse_pq (with_query new (hd_uri r))) as [[path q]|e] eqn:E; [|done]. injection Hrw as <-.
  eapply parse_pq_query in E as [-> ->]; [|done..]. unfold request_redirect. rewrite Hg, Hga. simpl. rewrite Hext. simpl.
  by rewrite split_at_short.
Qed.

(** The own origin of a request. *)
Definition own_origin (r : Head) (o : string) : Prop :=
  ∃ a, uri_authority (hd_uri r) = Some a ∧ o = default "http" (uri_scheme (hd_uri r)) +:+ "://" +:+ a.

(** The origin the client states, if it states one; [null] is none. *)
Definition states_origin (r : Head) (o : string) : Prop :=
  ∃ v, header_get (hd_headers r) "origin" = Some v ∧ header_to_str v = Some o ∧ o ≠ "null".
Definition states_no_origin (r : Head) : Prop :=
  header_get (hd_headers r) "origin" = None ∨ ∃ v, header_get (hd_headers r) "origin" = Some v ∧ header_to_str v = Some "null".

Lemma get_origin_header_Ok r o :
  get_origin_header r = Ok o ↔ match o with Some o => states_origin r o | None => states_no_origin r end.
Proof.
  unfold get_origin_header, header_str, states_origin, states_no_origin. destruct (header_get (hd_headers r) "origin") as [v|]; simpl.
  - destruct (header_to_str v) as [x|] eqn:Ev; simpl; [|destruct o; naive_solver].
    case_bool_decide as Hx; [subst x|]; destruct o; naive_solver.
  - destruct o; naive_solver.
Qed.

Lemma get_target_origin_Ok r t : get_target_origin r = Ok t ↔ own_origin r t.
Proof. unfold get_target_origin, own_origin. destruct (uri_authority (hd_uri r)); simpl; naive_solver. Qed.

Lemma sec_fetch_site_Ok r s :
  get_sec_fetch_site_header r = Ok s ↔
  match s with
  | Some s => ∃ v, header_get (hd_headers r) "sec-fetch-site" = Some v ∧ header_to_str v = Some s
  | None => header_get (hd_headers r) "sec-fetch-site" = None
  end.
Proof.
  unfold get_sec_fetch_site_header, header_str. destruct (header_get (hd_headers r) "sec-fetch-site") as [v|]; simpl; [|destruct s; naive_solver].
  destruct (header_to_str v) eqn:Ev; simpl; destruct s; naive_solver.
Qed.

Lemma exempt_Ok c r b : is_request_exempt c r = Ok b → b = true ↔ ∃ o, states_origin r o ∧ o ∈ additional_origins c.
Proof.
  unfold is_request_exempt. destruct (get_origin_header r) as [o|] eqn:E; [|done]. simpl. intros [= <-].
  assert (∀ o', states_origin r o' ↔ o = Some o') as Hs.
  { intros o'. rewrite <-(get_origin_header_Ok r (Some o')), E. naive_solver. }
  setoid_rewrite Hs. destruct o as [x|]; [rewrite bool_decide_eq_true|]; naive_solver.
Qed.

(** C34. What CSRF lets through: exactly GET, HEAD and OPTIONS requests; those
    the browser marks ([Sec-Fetch-Site]) as coming from the same origin or from
    no site; those it marks otherwise, readably, whose stated origin is a trusted
    one; and those it does not mark at all that state no origin ([null] is none),
    or whose URI has an authority and whose stated origin is their own or a
    trusted one. *)
Theorem csrf_allows_iff c r :
  csrf_apply c r = Ok Allowed ↔
  req_method (hd_req r) = "GET" ∨ req_method (hd_req r) = "HEAD" ∨ req_method (hd_req r) = "OPTIONS" ∨
  (∃ v s, header_get (hd_headers r) "sec-fetch-site" = Some v ∧ header_to_str v = Some s ∧
     (s = "same-origin" ∨ s = "none" ∨ ∃ o, states_origin r o ∧ o ∈ additional_origins c)) ∨
  header_get (hd_headers r) "sec-fetch-site" = None ∧
    (states_no_origin r ∨
     ∃ o own, states_origin r o ∧ own_origin r own ∧ (o = own ∨ o ∈ additional_origins c)).
Proof.
  unfold csrf_apply, is_safe_method.
  destruct (decide (req_method (hd_req r) = "GET" ∨ req_method (hd_req r) = "HEAD" ∨ req_method (hd_req r) = "OPTIONS")) as [Hm|Hm].
  { assert (bool_decide (req_method (hd_req r) = "GET") || bool_decide (req_method (hd_req r) = "HEAD") || bool_decide (req_method (hd_req r) = "OPTIONS") = true) as ->
      by (rewrite !orb_true_iff, !bool_decide_eq_true; naive_solver). naive_solver. }
  rewrite !bool_decide_eq_false_2 by naive_solver. simpl. trans (
    (∃ v s, header_get (hd_headers r) "sec-fetch-site" = Some v ∧ header_to_str v = Some s ∧
       (s = "same-origin" ∨ s = "none" ∨ ∃ o, states_origin r o ∧ o ∈ additional_origins c)) ∨
    header_get (hd_headers r) "sec-fetch-site" = None ∧
      (states_no_origin r ∨ ∃ o own, states_origin r o ∧ own_origin r own ∧ (o = own ∨ o ∈ additional_origins c))); [|naive_solver].
  assert (∀ x : result CsrfVerdict FilterError, x = (let? exempt := is_request_exempt c r in Ok (if exempt : bool then Allowed else Forbidden)) →
    x = Ok Allowed ↔ ∃ o, states_origin r o ∧ o ∈ additional_origins c) as Hex.
  { intros x ->. destruct (is_request_exempt c r) as [b|e] eqn:E; simpl.
    - apply exempt_Ok in E. rewrite <-E. by destruct b.
    - split; [done|]. intros (o & Ho & _). apply (get_origin_header_Ok r (Some o)) in Ho. unfold is_request_exempt in E. by rewrite Ho in E. }
  destruct (get_sec_fetch_site_header r) as [[s|]|e] eqn:Es; simpl.
  - apply sec_fetch_site_Ok in Es as (v & Hv & Hs). rewrite Hv. destruct (decide (s = "same-origin" ∨ s = "none")) as [Hn|Hn].
    + assert (bool_decide (s = "same-origin") || bool_decide (s = "none") = true) as -> by (rewrite orb_true_iff, !bool_decide_eq_true; done).
      naive_solver.
    + rewrite !bool_decide_eq_false_2 by naive_solver. simpl. rewrite (Hex _ eq_refl). naive_solver.
  - apply sec_fetch_site_Ok in Es. rewrite Es. destruct (get_origin_header r) as [[o|]|e] eqn:Eo; simpl.
    + assert (∀ o', states_origin r o' ↔ o' = o) as Hso.
      { intros o'. rewrite <-(get_origin_header_Ok r (Some o')), Eo. naive_solver. }
      assert (¬ states_no_origin r) as Hno by (rewrite <-(get_origin_header_Ok r None), Eo; done).
      destruct (get_target_origin r) as [t|e] eqn:Et; simpl.
      * assert (∀ own, own_origin r own ↔ own = t) as Hown by (intros own; rewrite <-get_target_origin_Ok, Et; naive_solver).
        case_bool_decide as Hot; [subst t|rewrite (Hex _ eq_refl)]; setoid_rewrite Hso; setoid_rewrite Hown; naive_solver.
      * assert (∀ own, ¬ own_origin r own) as Hown by (intros own; rewrite <-get_target_origin_Ok, Et; done). naive_solver.
    + apply (get_origin_header_Ok r None) in Eo. naive_solver.
    + assert (∀ o, ¬ states_origin r o) as Hso by (intros o; rewrite <-(get_origin_header_Ok r (Some o)), Eo; done).
      assert (¬ states_no_origin r) as Hno by (rewrite <-(get_origin_header_Ok r None), Eo; done). naive_solver.
  - assert (∀ s, get_sec_fetch_site_header r ≠ Ok s) as Hn by (intros s; congruence). setoid_rewrite sec_fetch_site_Ok in Hn.
    pose proof (Hn None) as H0. split; [done|]. intros [(v & s & Hv & Hs & _)|[H _]]; [|done]. by destruct (Hn (Some s)); exists v.
Qed.
End facts.
