(* ===== verification/Htpasswd.v ===== *)
(** * Password files

    The crate [htpasswd-verify-fork]: the entries of an Apache password file
    ([src/lib.rs]) and Apache's variant of MD5-crypt ([src/md5.rs]). MD5 and the
    other hashes are a class. *)
From stdpp Require Import base gmap strings list.
From Stdlib Require Import ZArith NArith Ascii.
From S2P Require Import Prelude RustStd.

Local Open Scope string_scope.
Local Open Scope list_scope.
Local Open Scope nat_scope.

(** ** The hashes *)

Class HashCrates := {
  md5 : list Z → list Z;
  sha1_base64 : string → string;
  bcrypt_parts_ok : string → bool;
  bcrypt_verify : string → string → option bool;
  unix_crypt_verify : string → string → bool;
  (* a digest is sixteen bytes *)
  md5_length : ∀ l, length (md5 l) = 16;
  md5_bytes : ∀ l, Forall (λ b, 0 ≤ b < 256)%Z (md5 l);
}.

(** [str::as_bytes]. *)
Fixpoint as_bytes (s : string) : list Z :=
  match s with EmptyString => [] | String a s' => Z.of_N (N_of_ascii a) :: as_bytes s' end.

(** [&s[..n]]. *)
Definition slice_to (l : list Z) (n : nat) : outcome (list Z) := if decide (n ≤ length l) then Ret (take n l) else Panic.

Definition APR1_ID : string := "$apr1$".
Definition BCRYPT_ID : string := "$2y$".
Definition SHA1_ID : string := "{SHA}".

Section apr1.
Context {HS : HashCrates}.

(** ** [md5.rs] *)

Definition itoa64 : string := "./0123456789ABCDEFGHIJKLMNOPQRSTUVWXYZabcdefghijklmnopqrstuvwxyz".

(** [n] characters, six bits each. *)
Fixpoint to_64 (n : nat) (v : Z) : outcome string :=
  match n with
  | 0 => Ret ""
  | S n' =>
      c ← expect (String.get (Z.to_nat (Z.land v 63)) itoa64);
      s ← to_64 n' (Z.shiftr v 6);
      Ret (String c s)
  end.

Definition group_of (d : list Z) (a b c : nat) : outcome string :=
  x ← expect (d !! a);
  y ← expect (d !! b);
  z ← expect (d !! c);
  to_64 4 (Z.lor (Z.lor (Z.shiftl x 16) (Z.shiftl y 8)) z).

Definition encode_digest (d : list Z) : outcome string :=
  p0 ← group_of d 0 6 12;
  p1 ← group_of d 1 7 13;
  p2 ← group_of d 2 8 14;
  p3 ← group_of d 3 9 15;
  p4 ← group_of d 4 10 5;
  x ← expect (d !! 11);
  p5 ← to_64 2 x;
  Ret (p0 +:+ p1 +:+ p2 +:+ p3 +:+ p4 +:+ p5).

(** [(0..len).rev().step_by(16)]. *)
Definition rev_steps (len : nat) : list nat := (λ k, len - 1 - 16 * k) <$> seq 0 ((len + 15) / 16).

(** The loop that feeds the first digest to the context, which is what it was
    given so far. *)
Definition feed_digest (digest : list Z) (pl : nat) (ctx : list Z) : outcome (list Z) :=
  d ← slice_to digest (pl `min` 16 + 1);
  Ret (ctx ++ d).

(** The loop over the bits of the length. *)
Fixpoint length_bits (pw : list Z) (i : positive) : list Z :=
  match i with
  | xH => [0%Z]
  | xI i' => 0%Z :: length_bits pw i'
  | xO i' => take 1 pw ++ length_bits pw i'
  end.

Definition feed_length (pw ctx : list Z) : list Z :=
  match N.of_nat (length pw) with N0 => ctx | Npos i => ctx ++ length_bits pw i end.

(** One of the thousand rounds. *)
Definition apr1_round (pw sp digest : list Z) (i : nat) : list Z :=
  md5 ((if Nat.odd i then pw else digest)
       ++ (if decide (i `mod` 3 = 0) then [] else sp)
       ++ (if decide (i `mod` 7 = 0) then [] else pw)
       ++ (if Nat.odd i then digest else pw)).

Definition md5_apr1_encode (pw salt : string) : outcome string :=
  let sp := as_bytes (default salt (Str.strip_prefix APR1_ID salt)) in
  let pw := as_bytes pw in
  let ctx := pw ++ as_bytes APR1_ID ++ sp in
  let digest := md5 (pw ++ sp ++ pw) in
  ctx ← fold_out (feed_digest digest) (rev_steps (length pw)) ctx;
  let digest := md5 (feed_length pw ctx) in
  encode_digest (foldl (apr1_round pw sp) digest (seq 0 1000)).

Definition format_hash (password salt : string) : string := APR1_ID +:+ salt +:+ "$" +:+ password.

(** The salt and the digest of an entry, unless it is malformed. *)
Definition apr1_parts (hash : string) : option (string * string) :=
  rest ← Str.strip_prefix APR1_ID hash;
  '(salt, digest) ← Str.split_once "$" rest;
  if Str.is_empty salt || bool_decide (8 < String.length salt) || Str.is_empty digest then None
  else Some (salt, digest).

Definition verify_apr1_hash (hash password : string) : outcome (result bool ()) :=
  match apr1_parts hash with
  | None => Ret (Err ())
  | Some (salt, _) => p ← md5_apr1_encode password salt; Ret (Ok (bool_decide (format_hash p salt = hash)))
  end.

(** ** [lib.rs] *)

Inductive Hash :=
| MD5 (salt hash : string)
| BCrypt (hash : string)
| SHA1 (hash : string)
| Crypt (hash : string).

Definition hash_check (h : Hash) (password : string) : outcome bool :=
  match h with
  | MD5 salt hash => p ← md5_apr1_encode password salt; Ret (bool_decide (p = hash))
  | BCrypt hash => Ret (default false (bcrypt_verify password hash))
  | SHA1 hash => Ret (bool_decide (sha1_base64 password = hash))
  | Crypt hash => Ret (unix_crypt_verify password hash)
  end.

Definition hash_parse (hash : string) : option Hash :=
  if Str.starts_with APR1_ID hash then (λ sd, MD5 sd.1 sd.2) <$> apr1_parts hash
  else if Str.starts_with BCRYPT_ID hash then if bcrypt_parts_ok hash then Some (BCrypt hash) else None
  else match Str.strip_prefix SHA1_ID hash with
       | Some h => Some (SHA1 h)
       | None => Some (Crypt hash)
       end.

Definition parse_hash_entry (entry : string) : option (string * Hash) :=
  '(username, hash_id) ← Str.split_once ":" entry;
  h ← hash_parse hash_id;
  Some (username, h).

(** Of two entries for a name the later one is kept. *)
Definition Htpasswd : Type := gmap string Hash.

Definition htpasswd_new (bytes : string) : Htpasswd :=
  foldl (λ m kv, <[kv.1 := kv.2]> m) ∅ (omap parse_hash_entry (Str.split "010"%char bytes)).

Definition htpasswd_check (h : Htpasswd) (username password : string) : outcome bool :=
  match h !! username with
  | Some hash => hash_check hash password
  | None => Ret false
  end.
End apr1.

(** ** Facts *)

Lemma as_bytes_length s : length (as_bytes s) = String.length s.
Proof. induction s as [|a s IH]; simpl; congruence. Qed.

Lemma string_get_Some s n : n < String.length s → is_Some (String.get n s).
Proof. revert n. induction s as [|a s IH]; intros [|n] Hn; simpl in *; [lia|lia|done|]. apply IH. lia. Qed.

Section apr1_facts.
Context {HS : HashCrates}.

Lemma to_64_ok n v : (0 ≤ v)%Z → ∃ s, to_64 n v = Ret s ∧ String.length s = n.
Proof.
  revert v. induction n as [|n IH]; intros v Hv; [by eexists|]. cbn [to_64].
  assert (0 ≤ Z.land v 63 < 64)%Z as Hb by (change 63%Z with (Z.ones 6); rewrite Z.land_ones by lia; apply Z.mod_pos_bound; lia).
  destruct (string_get_Some itoa64 (Z.to_nat (Z.land v 63))) as [c ->]; [change (String.length itoa64) with 64; lia|]. cbn [expect mbind outcome_bind].
  destruct (IH (Z.shiftr v 6)) as (s & -> & Hs); [by apply Z.shiftr_nonneg|]. eexists. split; [done|]. simpl. by rewrite Hs.
Qed.

Lemma group_of_ok d a b c :
  Forall (λ x, 0 ≤ x < 256)%Z d → a < length d → b < length d → c < length d →
  ∃ s, group_of d a b c = Ret s ∧ String.length s = 4.
Proof.
  intros Hd Ha Hb Hc. unfold group_of. rewrite Forall_lookup in Hd.
  destruct (lookup_lt_is_Some_2 d a Ha) as [x Hx], (lookup_lt_is_Some_2 d b Hb) as [y Hy], (lookup_lt_is_Some_2 d c Hc) as [z Hz].
  rewrite Hx, Hy, Hz. cbn [expect mbind outcome_bind]. apply to_64_ok. apply Hd in Hx, Hy, Hz.
  rewrite !Z.lor_nonneg, !Z.shiftl_nonneg. lia.
Qed.

Lemma encode_digest_ok d :
  length d = 16 → Forall (λ x, 0 ≤ x < 256)%Z d → ∃ s, encode_digest d = Ret s ∧ String.length s = 22.
Proof.
  intros Hl Hd. unfold encode_digest.
  destruct (group_of_ok d 0 6 12 Hd) as (p0 & -> & L0); [lia..|].
  destruct (group_of_ok d 1 7 13 Hd) as (p1 & -> & L1); [lia..|].
  destruct (group_of_ok d 2 8 14 Hd) as (p2 & -> & L2); [lia..|].
  destruct (group_of_ok d 3 9 15 Hd) as (p3 & -> & L3); [lia..|].
  destruct (group_of_ok d 4 10 5 Hd) as (p4 & -> & L4); [lia..|].
  destruct (lookup_lt_is_Some_2 d 11) as [x Hx]; [lia|]. rewrite Hx. cbn [expect mbind outcome_bind].
  rewrite Forall_lookup in Hd. apply Hd in Hx. destruct (to_64_ok 2 x) as (p5 & -> & L5); [lia|]. cbn [mbind outcome_bind].
  eexists. split; [done|]. rewrite !Str.string_length_app. lia.
Qed.

(** The digest, repeated to a length. *)
Definition cycle_to (n : nat) (d : list Z) : list Z := take n (mjoin (replicate (n / 16 + 1) d)).

(** Apache's algorithm. *)
Definition apr1_digest (pw salt : string) : list Z :=
  let sp := as_bytes (default salt (Str.strip_prefix APR1_ID salt)) in
  let pw := as_bytes pw in
  let fed := pw ++ as_bytes APR1_ID ++ sp ++ cycle_to (length pw) (md5 (pw ++ sp ++ pw)) in
  foldl (apr1_round pw sp) (md5 (feed_length pw fed)) (seq 0 1000).

Lemma rounds_ok pw sp l d :
  length d = 16 ∧ Forall (λ x, 0 ≤ x < 256)%Z d →
  length (foldl (apr1_round pw sp) d l) = 16 ∧ Forall (λ x, 0 ≤ x < 256)%Z (foldl (apr1_round pw sp) d l).
Proof.
  revert d. induction l as [|i l IH]; intros d Hd; [done|]. simpl. apply IH. unfold apr1_round.
  split; [apply md5_length|apply md5_bytes].
Qed.

Lemma feed_short digest len ctx :
  length digest = 16 → len ≤ 16 → fold_out (feed_digest digest) (rev_steps len) ctx = Ret (ctx ++ cycle_to len digest).
Proof.
  intros Hd Hlen. unfold cycle_to. destruct len as [|len]; [by rewrite app_nil_r|].
  assert (rev_steps (S len) = [len]) as ->.
  { unfold rev_steps. replace ((S len + 15) / 16) with 1; [simpl; f_equal; lia|].
    apply (Nat.div_unique _ 16 1 len); lia. }
  simpl. unfold feed_digest, slice_to. replace (len `min` 16 + 1) with (S len) by lia.
  rewrite decide_True by lia. simpl. do 2 f_equal.
  symmetry. rewrite Nat.add_1_r. change (take (S len) (digest ++ mjoin (replicate (S len / 16) digest)) = take (S len) digest).
  apply take_app_le. lia.
Qed.

Lemma feed_long digest len ctx : length digest = 16 → 16 < len → fold_out (feed_digest digest) (rev_steps len) ctx = Panic.
Proof.
  intros Hd Hlen. assert (∃ l, rev_steps len = (len - 1) :: l) as [l ->].
  { unfold rev_steps. destruct ((len + 15) / 16) as [|n] eqn:E; [|simpl; eexists; f_equal; lia].
    apply Nat.div_small_iff in E; lia. }
  assert (feed_digest digest (len - 1) ctx = Panic) as Hf.
  { unfold feed_digest, slice_to. by rewrite decide_False by lia. }
  cbn [fold_out]. by rewrite Hf.
Qed.

Lemma md5_apr1_encode_eq pw salt :
  md5_apr1_encode pw salt = if decide (String.length pw ≤ 16) then encode_digest (apr1_digest pw salt) else Panic.
Proof.
  unfold md5_apr1_encode, apr1_digest. rewrite as_bytes_length. set (sp := as_bytes (default _ _)).
  pose proof (md5_length (as_bytes pw ++ sp ++ as_bytes pw)) as Hl. case_decide as Hlen.
  - rewrite (feed_short _ _ _ Hl Hlen). cbn [mbind outcome_bind]. by rewrite <-!app_assoc.
  - rewrite (feed_long _ _ _ Hl) by lia. done.
Qed.

Lemma apr1_digest_ok pw salt : ∃ s, encode_digest (apr1_digest pw salt) = Ret s ∧ String.length s = 22.
Proof.
  unfold apr1_digest. set (d := foldl _ _ _).
  assert (length d = 16 ∧ Forall (λ x, 0 ≤ x < 256)%Z d) as [Hl Hb]; [|by apply encode_digest_ok].
  apply rounds_ok. split; [apply md5_length|apply md5_bytes].
Qed.

(** Apache's MD5 hash of a password of at most sixteen bytes is computed as
    Apache does; of any longer password the computation panics, since the
    first loop asks for seventeen bytes of a sixteen-byte digest. *)
Theorem apr1_exact pw salt :
  (String.length pw ≤ 16 → ∃ s, md5_apr1_encode pw salt = Ret s ∧ encode_digest (apr1_digest pw salt) = Ret s ∧ String.length s = 22) ∧
  (16 < String.length pw → md5_apr1_encode pw salt = Panic).
Proof.
  rewrite md5_apr1_encode_eq. split; intros Hl.
  - rewrite decide_True by done. destruct (apr1_digest_ok pw salt) as (s & Hs & Hlen). by exists s.
  - by rewrite decide_False by lia.
Qed.

Lemma apr1_parts_format salt p :
  salt ≠ "" → String.length salt ≤ 8 → Str.contains_char "$" salt = false → p ≠ "" →
  apr1_parts (format_hash p salt) = Some (salt, p).
Proof.
  intros Hs Hl Hc Hp. unfold apr1_parts, format_hash. rewrite (proj2 (Str.strip_prefix_Some APR1_ID _ _) eq_refl). cbn [mbind option_bind].
  rewrite Str.split_once_char by done. cbn [mbind option_bind].
  rewrite bool_decide_eq_false_2 by lia. destruct salt, p; done.
Qed.

(** A hash that was formatted from a password and a salt of one to eight
    characters without a dollar sign verifies that password, and the entry is
    parsed back to the same salt and digest. *)
Theorem apr1_roundtrip pw salt :
  salt ≠ "" → String.length salt ≤ 8 → Str.contains_char "$" salt = false → String.length pw ≤ 16 →
  ∃ p, md5_apr1_encode pw salt = Ret p ∧ verify_apr1_hash (format_hash p salt) pw = Ret (Ok true) ∧
    hash_parse (format_hash p salt) = Some (MD5 salt p) ∧ hash_check (MD5 salt p) pw = Ret true.
Proof.
  intros Hs Hl Hc Hpw. destruct (apr1_digest_ok pw salt) as (p & Hd & Hlen). exists p.
  assert (md5_apr1_encode pw salt = Ret p) as Hp by (by rewrite md5_apr1_encode_eq, decide_True).
  assert (apr1_parts (format_hash p salt) = Some (salt, p)) as Hparts.
  { apply apr1_parts_format; try done. by intros ->. }
  split; [done|]. unfold verify_apr1_hash, hash_check. rewrite Hparts, Hp. cbn [mbind outcome_bind].
  rewrite !bool_decide_eq_true_2 by done. split; [done|]. split; [|done].
  unfold hash_parse, Str.starts_with. rewrite (proj2 (Str.strip_prefix_Some APR1_ID (format_hash p salt) _) eq_refl). by rewrite Hparts.
Qed.
End apr1_facts.
