(* ===== verification/Auth.v ===== *)
(** * Authentication

    Where a credential is in a request ([AuthorizationLocation] of
    [http/auth/mod.rs], the cookies and query parameters of [http/mod.rs]), and
    the policies that check one: JSON web tokens ([http/jwt.rs], and
    [JwtAuthentication] of [types/agent.rs] with [mcp/auth.rs]), API keys
    ([http/apikey.rs]) and passwords ([http/basicauth.rs]); and the credential
    the proxy itself presents to a backend ([apply_backend_auth]). *)
From stdpp Require Import base gmap strings list.
From Stdlib Require Import ZArith Ascii.
From S2P Require Import Prelude RustStd AgentTypes RouteSelect HttpRequest Rewrite Htpasswd.

Local Open Scope string_scope.
Local Open Scope list_scope.

(** [slice::join] with a separator. *)
Fixpoint join_with (sep : string) (l : list string) : string :=
  match l with
  | [] => ""
  | [x] => x
  | x :: l' => x +:+ sep +:+ join_with sep l'
  end.

(** [String::from_utf8]: whether the bytes are UTF-8. *)
Definition byte_in (lo hi : N) (a : ascii) : bool := (lo <=? N_of_ascii a)%N && (N_of_ascii a <=? hi)%N.
Definition tail_byte : ascii → bool := byte_in 128 191.

Fixpoint is_utf8 (s : string) : bool :=
  match s with
  | EmptyString => true
  | String a s1 =>
      if byte_in 0 127 a then is_utf8 s1
      else
        match s1 with
        | EmptyString => false
        | String b s2 =>
            if byte_in 194 223 a then tail_byte b && is_utf8 s2
            else
              match s2 with
              | EmptyString => false
              | String c s3 =>
                  if byte_in 224 239 a then
                    (if byte_in 224 224 a then byte_in 160 191 b
                     else if byte_in 237 237 a then byte_in 128 159 b else tail_byte b)
                    && tail_byte c && is_utf8 s3
                  else
                    match s3 with
                    | EmptyString => false
                    | String d s4 =>
                        byte_in 240 244 a
                        && (if byte_in 240 240 a then byte_in 144 191 b
                            else if byte_in 244 244 a then byte_in 128 143 b else tail_byte b)
                        && tail_byte c && tail_byte d && is_utf8 s4
                    end
              end
        end
  end.

Definition from_utf8 (bytes : string) : option string := if is_utf8 bytes then Some bytes else None.

(** ** The crates [cookie], [form_urlencoded], [base64] and [jsonwebtoken] *)

Class CookieCrate {HC : HttpCrate} := {
  (* [Cookie::split_parse]: the pieces, those that are no cookie as [None] *)
  cookie_split_parse : string → list (option (string * string));
  cookie_to_string : string * string → string;
  (* cookies that were parsed, printed and joined, are parsed again, *)
  cookies_joined : ∀ cs, cs ≠ [] → Forall (λ c, ∃ s, Some c ∈ cookie_split_parse s) cs →
    cookie_split_parse (join_with "; " (cookie_to_string <$> cs)) = Some <$> cs;
  (* and those of a header make a header *)
  cookies_header : ∀ cs, Forall (λ c, ∃ v s, header_to_str v = Some s ∧ Some c ∈ cookie_split_parse s) cs →
    is_Some (header_value_try_from (join_with "; " (cookie_to_string <$> cs)));
  (* [HeaderValue::to_str] gives back what [from_str] took *)
  header_from_str : ∀ s v, header_value_try_from s = Some v → header_to_str v = Some s;
}.

Class FormCrate {HC : HttpCrate} := {
  form_serialize : list (string * string) → string;
  form_parse_serialize : ∀ ps, form_urlencoded_parse (form_serialize ps) = ps;
  (* nothing but the pairs; reserved characters are escaped *)
  form_serialize_nil : ∀ ps, form_serialize ps = "" ↔ ps = [];
  form_serialize_clean : ∀ ps, Str.contains_char "#" (form_serialize ps) = false;
}.

Inductive Algorithm :=
| HS256 | HS384 | HS512 | ES256 | ES384 | RS256 | RS384 | RS512 | PS256 | PS384 | PS512 | EdDSA.

Inductive EllipticCurve := P256 | P384 | P521 | Ed25519.

Inductive AlgorithmParameters :=
| APEllipticCurve (x y : string)
| APRSA (n e : string)
| APOctetKeyPair (curve : EllipticCurve) (x : string)
| APOctetKey.

(** The fields of [Validation] that are set here; the others keep their
    defaults. *)
Record Validation := mkValidation {
  v_algorithms : list Algorithm;
  v_aud : option (list string);
  v_validate_aud : bool;
  v_iss : list string;
  v_required_spec_claims : gset string;
}.

Class JsonWebToken := {
  DecodingKey : Type;
  JwtError : Type;
  JsonMap : Type;
  KeyAlgorithm : Type;
  (* [Algorithm::from_str] of a key's algorithm *)
  algorithm_of : KeyAlgorithm → option Algorithm;
  from_rsa_components : string → string → result DecodingKey JwtError;
  from_ec_components : string → string → result DecodingKey JwtError;
  from_ed_components : string → result DecodingKey JwtError;
  (* the [kid] of a token's header *)
  decode_header : string → result (option string) JwtError;
  (* the claims of a token that the key and the validation accept *)
  decode : string → DecodingKey → Validation → result JsonMap JwtError;
}.

Section auth.
Context {UC : UriCrate} {HC : HttpCrate} {RE : RegexEngine} {CE : CelEngine}.
Context {CK : CookieCrate} {FC : FormCrate} {JW : JsonWebToken} {HS : HashCrates}.
(** Metadata of API keys, and base64. *)
Context {UserMetadata : Type} (base64_decode : string → option string).

(** ** Requests with what authentication leaves in them *)

Record JwtClaims := mkJwtClaims { cl_inner : JsonMap; cl_jwt : string }.

Record AReq := mkAReq {
  aq_head : Head;
  aq_jwt : option JwtClaims;
  aq_key : option (string * UserMetadata);
  aq_user : option string;
  aq_explicit : option bool;                   (* [AppliedBackendAuthLocation] *)
}.

Definition on_head (f : Head → Head) (r : AReq) : AReq := mkAReq (f (aq_head r)) (aq_jwt r) (aq_key r) (aq_user r) (aq_explicit r).
Definition set_jwt (c : JwtClaims) (r : AReq) : AReq := mkAReq (aq_head r) (Some c) (aq_key r) (aq_user r) (aq_explicit r).
Definition set_key (c : string * UserMetadata) (r : AReq) : AReq := mkAReq (aq_head r) (aq_jwt r) (Some c) (aq_user r) (aq_explicit r).
Definition set_user (u : string) (r : AReq) : AReq := mkAReq (aq_head r) (aq_jwt r) (aq_key r) (Some u) (aq_explicit r).
Definition set_explicit (b : bool) (r : AReq) : AReq := mkAReq (aq_head r) (aq_jwt r) (aq_key r) (aq_user r) (Some b).
Definition aq_headers (r : AReq) : HeaderMap := hd_headers (aq_head r).
Definition with_headers (h : HeaderMap) (r : AReq) : AReq := on_head (set_headers h) r.

(** [Executor::new_request(req).eval(expression)] as a string. *)
Context (eval_str : Expression → AReq → option string).

(** ** Cookies and query parameters: [http/mod.rs] *)

Definition iter_request_cookies (h : HeaderMap) : list (string * string) :=
  omap header_to_str (get_all "cookie" h) ≫= λ s, omap id (cookie_split_parse s).

Definition read_request_cookie (name : string) (h : HeaderMap) : option string :=
  snd <$> list_find_by (λ c, bool_decide (c.1 = name)) (iter_request_cookies h).

Definition strip_request_cookies_by_prefix (prefix : string) (h : HeaderMap) : outcome HeaderMap :=
  let preserved := filter (λ c, Str.starts_with prefix c.1 = false) (iter_request_cookies h) in
  let h := hm_remove "cookie" h in
  match preserved with
  | [] => Ret h
  | _ => v ← expect (header_value_try_from (join_with "; " (cookie_to_string <$> preserved))); Ret (hm_insert "cookie" v h)
  end.

(** [modify_query_parameters]: the URI is taken out while it is edited. *)
Definition modify_query_parameters (to_set : list (string * string)) (to_remove : list string) (u : Uri) : Uri * result () () :=
  match to_set, to_remove with
  | [], [] => (u, Ok ())
  | _, _ =>
      let parts := into_parts u in
      let path := default "/" (p ← fst <$> pt_pq parts; if Str.is_empty p then None else Some p) in
      let query := default "" (pt_pq parts ≫= snd) in
      let pairs := form_urlencoded_parse query in
      let pairs := foldl (λ ps kv, filter (λ p, p.1 ≠ kv.1) ps ++ [kv]) pairs to_set in
      let pairs := filter (λ p, p.1 ∉ to_remove) pairs in
      let updated := form_serialize pairs in
      match pq_try_from (if Str.is_empty updated then path else path +:+ "?" +:+ updated) with
      | Some pq =>
          match from_parts (mkParts (pt_scheme parts) (pt_authority parts) (Some pq)) with
          | Some u => (u, Ok ())
          | None => (default_uri, Err ())
          end
      | None =>
          match from_parts parts with
          | Some u => (u, Err ())
          | None => (default_uri, Err ())
          end
      end
  end.

(** ** Where a credential is: [http/auth/mod.rs] *)

Inductive AuthorizationLocation :=
| LHeader (name : string) (prefix : option string)
| LQueryParameter (name : string)
| LCookie (name : string)
| LExpression (expression : Expression).

Definition bearer_header : AuthorizationLocation := LHeader "authorization" (Some "Bearer ").
Definition basic_header : AuthorizationLocation := LHeader "authorization" (Some "Basic ").

(** The value is visible ASCII, so [split_at] is at a boundary. *)
Definition strip_prefix_ascii_case_insensitive (value prefix : string) : option string :=
  let n := String.length prefix in
  if bool_decide (String.length value < n) then None
  else if Str.eq_ignore_ascii_case (String.substring 0 n value) prefix
  then Some (String.substring n (String.length value - n) value)
  else None.

Definition query_parameter (name : string) (u : Uri) : option string :=
  snd <$> list_find_by (λ p, bool_decide (p.1 = name)) (form_urlencoded_parse (default "" (uri_query u))).

Definition extract (loc : AuthorizationLocation) (r : AReq) : option string :=
  match loc with
  | LHeader name prefix =>
      value ← header_get (aq_headers r) name ≫= header_to_str;
      match prefix with
      | Some prefix => strip_prefix_ascii_case_insensitive value prefix
      | None => Some value
      end
  | LQueryParameter name => query_parameter name (hd_uri (aq_head r))
  | LCookie name => read_request_cookie name (aq_headers r)
  | LExpression e => eval_str e r
  end.

(** The cookie header is gone already when the new one is no header. *)
Definition set_request_cookie (name : string) (value : option string) (h : HeaderMap) : HeaderMap * result () () :=
  let preserved := cookie_to_string <$> filter (λ c, c.1 ≠ name) (iter_request_cookies h) in
  let preserved := preserved ++ match value with Some v => [cookie_to_string (name, v)] | None => [] end in
  let h := hm_remove "cookie" h in
  match preserved with
  | [] => (h, Ok ())
  | _ =>
      match header_value_try_from (join_with "; " preserved) with
      | Some v => (hm_insert "cookie" v h, Ok ())
      | None => (h, Err ())
      end
  end.

Definition edit_headers (f : HeaderMap → HeaderMap * result () ()) (r : AReq) : AReq * result () () :=
  let '(h, res) := f (aq_headers r) in (with_headers h r, res).
Definition edit_uri (f : Uri → Uri * result () ()) (r : AReq) : AReq * result () () :=
  let '(u, res) := f (hd_uri (aq_head r)) in (on_head (set_uri u) r, res).

Definition remove (loc : AuthorizationLocation) : AReq → AReq * result () () :=
  match loc with
  | LHeader name _ => edit_headers (λ h, (hm_remove name h, Ok ()))
  | LQueryParameter name => edit_uri (modify_query_parameters [] [name])
  | LCookie name => edit_headers (set_request_cookie name None)
  | LExpression _ => λ r, (r, Ok ())
  end.

Definition insert (loc : AuthorizationLocation) (value : string) : AReq → AReq * result () () :=
  match loc with
  | LHeader name prefix =>
      edit_headers (λ h,
        match header_value_try_from (default "" prefix +:+ value) with
        | Some v => (hm_insert name v h, Ok ())
        | None => (h, Err ())
        end)
  | LQueryParameter name => edit_uri (modify_query_parameters [(name, value)] [])
  | LCookie name => edit_headers (set_request_cookie name (Some value))
  | LExpression _ => λ r, (r, Err ())
  end.

(** ** JSON web tokens: [http/jwt.rs] *)

Inductive TokenError :=
| Invalid (e : JwtError) | InvalidHeader (e : JwtError) | TokenMissing | MissingKeyId | UnknownKeyId (kid : string) | CredentialRemoval.

Inductive JwkError :=
| JwkMissingKeyId | DecodingError (key_id : string) (e : JwtError) | UnexpectedAlgorithm (key_id : string) (a : AlgorithmParameters)
| UnsupportedCurve (key_id : string) (c : EllipticCurve).

Inductive Mode := Strict | Optional | Permissive.

#[global] Instance Mode_eq_dec : EqDecision Mode.
Proof. solve_decision. Defined.

Record JwkIn := mkJwkIn { jwk_key_id : option string; jwk_key_algorithm : option KeyAlgorithm; jwk_algorithm : AlgorithmParameters }.
Record Jwk := mkJwk { decoding : DecodingKey; validation : Validation }.
Record Provider := mkProvider { issuer : string; keys : gmap string Jwk }.
Record Jwt := mkJwt { jwt_mode : Mode; jwt_providers : list Provider; jwt_location : AuthorizationLocation }.

Definition map_err {A E F} (f : E → F) (r : result A E) : result A F :=
  match r with Ok a => Ok a | Err e => Err (f e) end.

Definition decoding_key (kid : string) (a : AlgorithmParameters) : result DecodingKey JwkError :=
  match a with
  | APRSA n e => map_err (DecodingError kid) (from_rsa_components n e)
  | APEllipticCurve x y => map_err (DecodingError kid) (from_ec_components x y)
  | APOctetKeyPair Ed25519 x => map_err (DecodingError kid) (from_ed_components x)
  | APOctetKeyPair c _ => Err (UnsupportedCurve kid c)
  | APOctetKey => Err (UnexpectedAlgorithm kid a)
  end.

(** The algorithms of a key's family, when it names none. *)
Definition inferred_algorithms (a : AlgorithmParameters) : list Algorithm :=
  match a with
  | APEllipticCurve _ _ => [ES256; ES384]
  | APRSA _ _ => [RS256; RS384; RS512; PS256; PS384; PS512]
  | APOctetKeyPair _ _ => [EdDSA]
  | APOctetKey => []                           (* refused before *)
  end.

Definition supported_algorithms (k : JwkIn) : list Algorithm :=
  match jwk_key_algorithm k ≫= algorithm_of with
  | Some alg => [alg]
  | None => inferred_algorithms (jwk_algorithm k)
  end.

Definition key_validation (iss : string) (audiences : option (list string)) (required : gset string) (k : JwkIn) : Validation :=
  mkValidation (supported_algorithms k) audiences (bool_decide (is_Some audiences)) [iss] required.

Fixpoint load_keys (iss : string) (audiences : option (list string)) (required : gset string) (jwks : list JwkIn)
    (ks : gmap string Jwk) : result (gmap string Jwk) JwkError :=
  match jwks with
  | [] => Ok ks
  | k :: jwks' =>
      match jwk_key_id k with
      | None => Err JwkMissingKeyId
      | Some kid =>
          let? d := decoding_key kid (jwk_algorithm k) in
          load_keys iss audiences required jwks' (<[kid := mkJwk d (key_validation iss audiences required k)]> ks)
      end
  end.

Definition from_jwks (jwks : list JwkIn) (iss : string) (audiences : option (list string)) (required : gset string)
    : result Provider JwkError :=
  let? ks := load_keys iss audiences required jwks ∅ in
  Ok (mkProvider iss ks).

Definition validate_claims (j : Jwt) (token : string) : result JwtClaims TokenError :=
  match decode_header token with
  | Err e => Err (InvalidHeader e)
  | Ok None => Err MissingKeyId
  | Ok (Some kid) =>
      match find_map (λ p, keys p !! kid) (jwt_providers j) with
      | None => Err (UnknownKeyId kid)
      | Some key =>
          match decode token (decoding key) (validation key) with
          | Err e => Err (Invalid e)
          | Ok claims => Ok (mkJwtClaims claims token)
          end
      end
  end.

(** [Jwt::apply]. *)
Definition jwt_apply (j : Jwt) (r : AReq) : AReq * result () TokenError :=
  match extract (jwt_location j) r with
  | None => (r, if decide (jwt_mode j = Strict) then Err TokenMissing else Ok ())
  | Some token =>
      match validate_claims j token with
      | Err e => (r, if decide (jwt_mode j = Permissive) then Ok () else Err e)
      | Ok claims =>
          let '(r, res) := remove (jwt_location j) r in
          match res with
          | Err _ => (r, Err CredentialRemoval)
          | Ok _ => (set_jwt claims r, Ok ())
          end
      end
  end.

(** ** For MCP: [mcp/auth.rs] *)

Definition PROTECTED_RESOURCE : string := "/.well-known/oauth-protected-resource".
Definition AUTHORIZATION_SERVER : string := "/.well-known/oauth-authorization-server".

Definition is_well_known_endpoint (path : string) : bool :=
  Str.starts_with PROTECTED_RESOURCE path || Str.starts_with AUTHORIZATION_SERVER path.

(** The endpoints the gateway answers itself. *)
Inductive McpEndpoint := ClientRegistration | ProtectedResourceMetadata | AuthorizationServerMetadata.

Definition handle_mcp_request (path : string) : option McpEndpoint :=
  if Str.ends_with "client-registration" path then Some ClientRegistration
  else if Str.starts_with PROTECTED_RESOURCE path then Some ProtectedResourceMetadata
  else if Str.starts_with AUTHORIZATION_SERVER path then Some AuthorizationServerMetadata
  else None.

Inductive JwtRefusal :=
| JwtAuthenticationFailure (e : TokenError)
| McpJwtAuthenticationFailure (e : TokenError)
| TokenAlreadyValidated
| McpResponse (e : McpEndpoint).

Definition answered (r : AReq) : AReq * result () JwtRefusal :=
  (r, match handle_mcp_request (uri_path (hd_uri (aq_head r))) with Some e => Err (McpResponse e) | None => Ok () end).

(** [JwtAuthentication::apply]; [mcp]: whether it is for an MCP server. *)
Definition jwt_authentication_apply (j : Jwt) (mcp : bool) (r : AReq) : AReq * result () JwtRefusal :=
  if mcp then
    if negb (is_well_known_endpoint (uri_path (hd_uri (aq_head r)))) then
      let '(r, res) := jwt_apply j r in
      match res with Err e => (r, Err (McpJwtAuthenticationFailure e)) | Ok _ => answered r end
    else answered r
  else
    let '(r, res) := jwt_apply j r in
    (r, match res with Err e => Err (JwtAuthenticationFailure e) | Ok _ => Ok () end).

(** [apply_token_validation] and [enforce_authentication], of an MCP backend. *)
Definition apply_token_validation (j : Jwt) (r : AReq) : AReq * result () JwtRefusal :=
  if is_well_known_endpoint (uri_path (hd_uri (aq_head r))) then (r, Ok ())
  else
    match aq_jwt r with
    | Some _ => (r, Err TokenAlreadyValidated)
    | None =>
        let '(r, res) := jwt_apply j r in
        (r, match res with Err e => Err (McpJwtAuthenticationFailure e) | Ok _ => Ok () end)
    end.

Definition enforce_authentication (j : Jwt) (r : AReq) : AReq * result () JwtRefusal :=
  if negb (is_well_known_endpoint (uri_path (hd_uri (aq_head r)))) then
    let '(r, res) := apply_token_validation j r in
    match res with Err e => (r, Err e) | Ok _ => answered r end
  else answered r.

(** ** API keys and passwords *)

Inductive CredentialError := CredentialMissing | InvalidCredentials | CredentialNotRemoved.

Inductive CredentialMode := CStrict | COptional.

(** A request without a credential. *)
Definition no_credential {C} (m : CredentialMode) : result (option C) CredentialError :=
  match m with CStrict => Err CredentialMissing | COptional => Ok None end.

Record APIKeyAuthentication := mkAPIKeys { ak_users : gmap string UserMetadata; ak_mode : CredentialMode; ak_location : AuthorizationLocation }.

Definition apikey_new (ks : list (string * UserMetadata)) (m : CredentialMode) (loc : AuthorizationLocation) : APIKeyAuthentication :=
  mkAPIKeys (foldl (λ m kv, <[kv.1 := kv.2]> m) ∅ ks) m loc.

Definition apikey_verify (a : APIKeyAuthentication) (r : AReq) : result (option (string * UserMetadata)) CredentialError :=
  match extract (ak_location a) r with
  | None => no_credential (ak_mode a)
  | Some key =>
      match ak_users a !! key with
      | Some meta => Ok (Some (key, meta))
      | None => Err InvalidCredentials
      end
  end.

(** The claims of a verified request replace the credential. *)
Definition admit_claims {C} (loc : AuthorizationLocation) (set : C → AReq → AReq) (v : result (option C) CredentialError)
    (r : AReq) : AReq * result () CredentialError :=
  match v with
  | Err e => (r, Err e)
  | Ok None => (r, Ok ())
  | Ok (Some c) =>
      let '(r, res) := remove loc r in
      match res with Err _ => (r, Err CredentialNotRemoved) | Ok _ => (set c r, Ok ()) end
  end.

Definition apikey_apply (a : APIKeyAuthentication) (r : AReq) : AReq * result () CredentialError :=
  admit_claims (ak_location a) set_key (apikey_verify a r) r.

(** [BasicAuthentication], less the realm, which only its refusals name. *)
Record BasicAuthentication := mkBasicAuth { ba_htpasswd : Htpasswd; ba_mode : CredentialMode; ba_location : AuthorizationLocation }.

Definition basic_credentials (encoded : string) : option (string * string) :=
  bytes ← base64_decode encoded;
  decoded ← from_utf8 bytes;
  Str.split_once ":" decoded.

Definition basic_verify (b : BasicAuthentication) (r : AReq) : outcome (result (option string) CredentialError) :=
  match extract (ba_location b) r with
  | None => Ret (no_credential (ba_mode b))
  | Some encoded =>
      match basic_credentials encoded with
      | None => Ret (Err InvalidCredentials)
      | Some (username, password) =>
          valid ← htpasswd_check (ba_htpasswd b) username password;
          Ret (if valid : bool then Ok (Some username) else Err InvalidCredentials)
      end
  end.

Definition basic_apply (b : BasicAuthentication) (r : AReq) : outcome (AReq * result () CredentialError) :=
  v ← basic_verify b r;
  Ret (admit_claims (ba_location b) set_user v r).

(** ** The proxy's own credential *)

Inductive BackendAuth :=
| Passthrough (location : option AuthorizationLocation)
| Key (value : string) (location : option AuthorizationLocation)
| AwsAuth                                      (* signs later *)
| OtherAuth (insert_token : AReq → AReq * result () ()).   (* Gcp, Azure, Copilot *)

Definition apply_backend_auth (a : BackendAuth) (r : AReq) : AReq * result () () :=
  match a with
  | Passthrough location =>
      let '(r, res) := match aq_jwt r with
                       | Some c => insert (default bearer_header location) (cl_jwt c) r
                       | None => (r, Ok ())
                       end in
      match res with Err e => (r, Err e) | Ok _ => (set_explicit (bool_decide (is_Some location)) r, Ok ()) end
  | Key value location =>
      let '(r, res) := insert (default bearer_header location) value r in
      match res with Err e => (r, Err e) | Ok _ => (set_explicit (bool_decide (is_Some location)) r, Ok ()) end
  | AwsAuth => (r, Ok ())
  | OtherAuth f => f r
  end.
End auth.
