(* ===== verification/AuthFacts.v ===== *)
(** * What authentication guarantees

    Credentials are found where they are put and gone once checked, and a policy
    lets through what it should. *)
From stdpp Require Import base gmap strings list.
From Stdlib Require Import ZArith Ascii.
From S2P Require Import Prelude RustStd AgentTypes RouteSelect HttpRequest Rewrite Htpasswd Auth.

Local Open Scope string_scope.
Local Open Scope list_scope.

Lemma list_find_by_filter {A} (f : A → bool) (l : list A) : (∀ x, x ∈ l → f x = false) → list_find_by f l = None.
Proof. intros Hf. apply list_find_by_None. apply Forall_forall. auto. Qed.

Lemma header_get_remove (h : HeaderMap) n : header_get (hm_remove n h) n = None.
Proof.
  unfold header_get. rewrite list_find_by_filter; [done|]. intros kv [Hne _]%list_elem_of_filter. by apply bool_decide_eq_false_2.
Qed.

Lemma header_get_all (h : HeaderMap) n : header_get h n = head (get_all n h).
Proof.
  unfold header_get, get_all. induction h as [|[k v] h IH]; [done|]. simpl. rewrite filter_cons. simpl.
  destruct (decide (k = n)) as [->|Hne]; [by rewrite bool_decide_eq_true_2|]. by rewrite bool_decide_eq_false_2.
Qed.

Lemma substring_prefix p v : String.substring 0 (String.length p) (p +:+ v) = p.
Proof.
  induction p as [|a p IH]; [by destruct v|]. change (String a p +:+ v) with (String a (p +:+ v)). simpl. by rewrite IH.
Qed.

Lemma substring_all v : String.substring 0 (String.length v) v = v.
Proof. induction v as [|a v IH]; [done|]. simpl. by rewrite IH. Qed.

Lemma substring_suffix p v : String.substring (String.length p) (String.length v) (p +:+ v) = v.
Proof. induction p as [|a p IH]; [apply substring_all|]. change (String a p +:+ v) with (String a (p +:+ v)). exact IH. Qed.

Lemma strip_prefix_ci p v : strip_prefix_ascii_case_insensitive (p +:+ v) p = Some v.
Proof.
  unfold strip_prefix_ascii_case_insensitive. rewrite Str.string_length_app, bool_decide_eq_false_2 by lia.
  rewrite substring_prefix. unfold Str.eq_ignore_ascii_case. rewrite bool_decide_eq_true_2 by done.
  replace (String.length p + String.length v - String.length p)%nat with (String.length v) by lia. by rewrite substring_suffix.
Qed.

Section facts.
Context {UC : UriCrate} {HC : HttpCrate} {RE : RegexEngine} {CE : CelEngine}.
Context {CK : CookieCrate} {FC : FormCrate} {JW : JsonWebToken} {HS : HashCrates}.

(** ** Cookies *)

Lemma request_cookies_parsed (h : HeaderMap) :
  Forall (λ c, ∃ v s, header_to_str v = Some s ∧ Some c ∈ cookie_split_parse s) (iter_request_cookies h).
Proof.
  apply Forall_forall. intros c Hc. unfold iter_request_cookies in Hc.
  apply list_elem_of_bind in Hc as (s & Hc & Hs). apply list_elem_of_omap in Hs as (v & _ & Hv).
  apply list_elem_of_omap in Hc as ([c'|] & Hin & Heq); simplify_eq/=. by exists v, s.
Qed.

Lemma iter_cookies_insert (h : HeaderMap) cs v :
  cs ≠ [] → Forall (λ c, ∃ s, Some c ∈ cookie_split_parse s) cs →
  header_value_try_from (join_with "; " (cookie_to_string <$> cs)) = Some v →
  iter_request_cookies (hm_insert "cookie" v h) = cs.
Proof.
  intros Hne Hcs Hv. unfold iter_request_cookies. rewrite get_all_insert, decide_True by done. simpl.
  rewrite (header_from_str _ _ Hv). simpl. rewrite app_nil_r, cookies_joined by done. clear.
  induction cs as [|c cs IH]; [done|]. cbn [fmap list_fmap omap list_omap]. simpl. f_equal. exact IH.
Qed.

Lemma iter_cookies_removed (h : HeaderMap) : iter_request_cookies (hm_remove "cookie" h) = [].
Proof. unfold iter_request_cookies. by rewrite get_all_remove, decide_True. Qed.

Lemma filter_parsed (P : string * string → Prop) `{∀ c, Decision (P c)} (h : HeaderMap) :
  Forall (λ c, ∃ v s, header_to_str v = Some s ∧ Some c ∈ cookie_split_parse s) (filter P (iter_request_cookies h)).
Proof.
  apply Forall_forall. intros c [_ Hc]%list_elem_of_filter. pose proof (request_cookies_parsed h) as Hp.
  rewrite Forall_forall in Hp. by apply Hp.
Qed.

Lemma parsed_weaken cs :
  Forall (λ c, ∃ v s, header_to_str v = Some s ∧ Some c ∈ cookie_split_parse s) cs →
  Forall (λ c, ∃ s, Some c ∈ cookie_split_parse s) cs.
Proof. intros Hp. eapply Forall_impl; [exact Hp|]. naive_solver. Qed.

Lemma strip_cookies_ok prefix (h : HeaderMap) :
  ∃ h', strip_request_cookies_by_prefix prefix h = Ret h' ∧
    iter_request_cookies h' = filter (λ c, Str.starts_with prefix c.1 = false) (iter_request_cookies h) ∧
    ∀ n, n ≠ "cookie" → get_all n h' = get_all n h.
Proof.
  unfold strip_request_cookies_by_prefix. set (cs := filter _ _).
  pose proof (filter_parsed (λ c, Str.starts_with prefix c.1 = false) h) as Hp. fold cs in Hp.
  assert (∀ n, n ≠ "cookie" → get_all n (hm_remove "cookie" h) = get_all n h) as Hrm.
  { intros n Hn. by rewrite get_all_remove, decide_False. }
  destruct cs as [|c cs'] eqn:E; [eexists; split; [done|]; by rewrite iter_cookies_removed|]. rewrite <-E in *.
  destruct (cookies_header cs Hp) as [v Hv]. rewrite Hv. cbn [expect mbind outcome_bind]. eexists. split; [done|].
  rewrite (iter_cookies_insert _ cs v); [|by rewrite E|by apply parsed_weaken|done]. split; [done|].
  intros n Hn. by rewrite get_all_insert, decide_False, Hrm.
Qed.

(** Stripping the cookies with a reserved prefix never panics, removes every
    such cookie, and leaves the other cookies and headers. *)
Theorem strip_cookies_exact prefix (h : HeaderMap) :
  ∃ h', strip_request_cookies_by_prefix prefix h = Ret h' ∧
    iter_request_cookies h' = filter (λ c, Str.starts_with prefix c.1 = false) (iter_request_cookies h) ∧
    ∀ n, n ≠ "cookie" → get_all n h' = get_all n h.
Proof. apply strip_cookies_ok. Qed.

Lemma set_cookie_ok name value (h : HeaderMap) h' :
  (∀ v, value = Some v → ∃ s, Some (name, v) ∈ cookie_split_parse s) →
  set_request_cookie name value h = (h', Ok ()) →
  iter_request_cookies h' = filter (λ c, c.1 ≠ name) (iter_request_cookies h) ++ (pair name <$> option_list value) ∧
  ∀ n, n ≠ "cookie" → get_all n h' = get_all n h.
Proof.
  intros Hval Hset. unfold set_request_cookie in Hset. set (cs := filter _ (iter_request_cookies h)) in *.
  set (all := cs ++ (pair name <$> option_list value)).
  assert (cookie_to_string <$> all = (cookie_to_string <$> cs) ++ match value with Some v => [cookie_to_string (name, v)] | None => [] end) as Hall.
  { unfold all. rewrite fmap_app. by destruct value. }
  assert (Forall (λ c, ∃ s, Some c ∈ cookie_split_parse s) all) as Hp.
  { apply Forall_app. split; [apply parsed_weaken, filter_parsed|]. destruct value as [v|]; [|constructor]. constructor; [|constructor]. by apply Hval. }
  rewrite <-Hall in Hset. assert (∀ n, n ≠ "cookie" → get_all n (hm_remove "cookie" h) = get_all n h) as Hrm.
  { intros n Hn. by rewrite get_all_remove, decide_False. }
  destruct (decide (all = [])) as [Ha|Ha].
  - rewrite Ha in Hset. injection Hset as <-. rewrite iter_cookies_removed. by split.
  - assert (cookie_to_string <$> all ≠ []) as Hne by (by destruct all).
    destruct (cookie_to_string <$> all) as [|x xs] eqn:Ex; [done|]. rewrite <-Ex in *.
    destruct (header_value_try_from _) as [v|] eqn:Ev; [|done]. injection Hset as <-.
    rewrite (iter_cookies_insert _ all v) by done. split; [done|]. intros n Hn. by rewrite get_all_insert, decide_False, Hrm.
Qed.

(** ** Query parameters *)

(** A URI of a request: its path is empty or absolute. *)
Definition uri_ok (u : Uri) : Prop := uri_clean u ∧ (uri_path u = "" ∨ Str.starts_with "/" (uri_path u) = true).

Lemma modified_query to_set to_remove u u' :
  uri_ok u → modify_query_parameters to_set to_remove u = (u', Ok ()) → to_set ≠ [] ∨ to_remove ≠ [] →
  form_urlencoded_parse (default "" (uri_query u')) =
    filter (λ p, p.1 ∉ to_remove)
      (foldl (λ ps kv, filter (λ p, p.1 ≠ kv.1) ps ++ [kv])
         (form_urlencoded_parse (default "" (pt_pq (into_parts u) ≫= snd))) to_set).
Proof.
  intros [(Hq & Hf & _) Hp] Hm Hne. unfold modify_query_parameters in Hm.
  assert (∀ (A : Type) (x y : A), match to_set, to_remove with [], [] => x | _, _ => y end = y) as Hsel
    by (intros A x y; destruct to_set, to_remove; naive_solver).
  rewrite Hsel in Hm. clear Hsel. set (pairs := filter _ _) in *. set (path := default "/" _) in *.
  assert (Str.starts_with "/" path = true ∧ Str.contains_char "?" path = false ∧ Str.contains_char "#" path = false) as (Hs & Hpq & Hpf).
  { unfold path, into_parts. simpl. destruct (uri_path_and_query u); simpl; [|done].
    destruct (Str.is_empty (uri_path u)) eqn:Ee; [done|]. simpl. destruct Hp as [Hp|Hp]; [by rewrite Hp in Ee|done]. }
  pose proof (form_parse_serialize pairs) as Hround. pose proof (form_serialize_clean pairs) as Hclean.
  set (up := form_serialize pairs) in *.
  destruct (pq_try_from _) as [[p q]|] eqn:Epq; [|by destruct (from_parts _)].
  destruct (from_parts _) as [u2|] eqn:Efp; [|done]. injection Hm as <-.
  assert (uri_query u2 = q) as ->.
  { unfold from_parts in Efp. simpl in Efp. repeat case_match; by simplify_eq/=. }
  apply Str.starts_with_true in Hs as [t Ht]. destruct (Str.is_empty up) eqn:Eup.
  - assert (up = "") as Hup by (by destruct up). apply form_serialize_nil in Hup as Hnil.
    apply pq_ok in Epq; [|apply Str.starts_with_true; eauto|done]. rewrite split_once_none in Epq by done.
    destruct Epq as [_ ->]. simpl. rewrite <-Hround, Hup. done.
  - apply pq_ok in Epq; [|apply Str.starts_with_true; exists (t +:+ "?" +:+ up); by rewrite Ht|].
    + rewrite (Str.split_once_char "?" path up) in Epq by done. destruct Epq as [_ ->]. done.
    + by rewrite !contains_char_app, Hpf, Hclean.
Qed.

(** ** Credentials *)

Context {UserMetadata : Type}.
Local Abbreviation AReq := (AReq (UserMetadata := UserMetadata)).
Context (eval_str : Expression → AReq → option string).
Local Abbreviation extract := (extract eval_str).

(** Where a credential can be removed and put. *)
Definition removable (loc : AuthorizationLocation) (r : AReq) : Prop :=
  match loc with LQueryParameter _ => uri_ok (hd_uri (aq_head r)) | LExpression _ => False | _ => True end.

Definition insertable (loc : AuthorizationLocation) (value : string) (r : AReq) : Prop :=
  removable loc r ∧ match loc with LCookie name => ∃ s, Some (name, value) ∈ cookie_split_parse s | _ => True end.

Lemma edit_headers_inv f (r r' : AReq) res :
  edit_headers f r = (r', res) → ∃ h, f (aq_headers r) = (h, res) ∧ r' = with_headers h r.
Proof. unfold edit_headers. destruct (f (aq_headers r)) as [h res']. intros [= <- <-]. by exists h. Qed.

Lemma edit_uri_inv f (r r' : AReq) res :
  edit_uri f r = (r', res) → ∃ u, f (hd_uri (aq_head r)) = (u, res) ∧ r' = on_head (set_uri u) r.
Proof. unfold edit_uri. destruct (f (hd_uri (aq_head r))) as [u res']. intros [= <- <-]. by exists u. Qed.

Lemma aq_headers_with h (r : AReq) : aq_headers (with_headers h r) = h.
Proof. done. Qed.

Lemma removed_gone loc (r r' : AReq) : removable loc r → remove loc r = (r', Ok ()) → extract loc r' = None.
Proof.
  intros Hr Hrm. destruct loc as [name prefix|name|name|e]; simpl in *; [| | |done].
  - apply edit_headers_inv in Hrm as (h & [= <-] & ->). by rewrite aq_headers_with, header_get_remove.
  - apply edit_uri_inv in Hrm as (u & Hm & ->). unfold query_parameter.
    change (hd_uri (aq_head (on_head (set_uri u) r))) with u.
    rewrite (modified_query _ _ _ _ Hr Hm) by (by right). simpl. rewrite list_find_by_filter; [done|].
    intros p [Hp _]%list_elem_of_filter. apply bool_decide_eq_false_2. intros Heq. apply Hp. rewrite Heq. by left.
  - apply edit_headers_inv in Hrm as (h & Hm & ->). rewrite aq_headers_with. unfold read_request_cookie.
    apply set_cookie_ok in Hm as [-> _]; [|done]. simpl. rewrite app_nil_r, list_find_by_filter; [done|].
    intros c [Hc _]%list_elem_of_filter. by apply bool_decide_eq_false_2.
Qed.

Lemma filter_nothing (l : list (string * string)) : filter (λ p, p.1 ∉ []) l = l.
Proof.
  induction l as [|p l IH]; [done|]. rewrite filter_cons, decide_True by apply not_elem_of_nil. by rewrite IH.
Qed.

Lemma list_find_by_last {A} (f : A → bool) l x : (∀ y, y ∈ l → f y = false) → f x = true → list_find_by f (l ++ [x]) = Some x.
Proof.
  intros Hl Hx. induction l as [|y l IH]; simpl; [by rewrite Hx|]. rewrite Hl by (by left). apply IH. intros z Hz. apply Hl. by right.
Qed.

Lemma inserted_found loc value (r r' : AReq) : insertable loc value r → insert loc value r = (r', Ok ()) → extract loc r' = Some value.
Proof.
  intros [Hr Hc] Hin. destruct loc as [name prefix|name|name|e]; simpl in *; [| | |done].
  - apply edit_headers_inv in Hin as (h & Hm & ->). destruct (header_value_try_from _) as [v|] eqn:Ev; [|done].
    injection Hm as <-. rewrite aq_headers_with, header_get_all, get_all_insert, decide_True by done. simpl.
    rewrite (header_from_str _ _ Ev). simpl. destruct prefix as [p|]; [apply strip_prefix_ci|done].
  - apply edit_uri_inv in Hin as (u & Hm & ->). unfold query_parameter.
    change (hd_uri (aq_head (on_head (set_uri u) r))) with u.
    rewrite (modified_query _ _ _ _ Hr Hm) by (by left). simpl.
    rewrite filter_nothing. rewrite list_find_by_last; [done| |by apply bool_decide_eq_true_2].
    intros p [Hp _]%list_elem_of_filter. by apply bool_decide_eq_false_2.
  - apply edit_headers_inv in Hin as (h & Hm & ->). rewrite aq_headers_with. unfold read_request_cookie.
    apply set_cookie_ok in Hm as [-> _]; [|by intros ? [= <-]]. simpl.
    rewrite list_find_by_last; [done| |by apply bool_decide_eq_true_2].
    intros c [Hc' _]%list_elem_of_filter. by apply bool_decide_eq_false_2.
Qed.

(** ** Tokens *)

(** The token names a key; the first provider that knows it has a key that,
    with its validation, accepts the token with these claims. *)
Definition token_valid (j : Jwt) (token : string) (claims : JsonMap) : Prop :=
  ∃ kid before p after key, decode_header token = Ok (Some kid) ∧ jwt_providers j = before ++ p :: after ∧
    Forall (λ q, keys q !! kid = None) before ∧ keys p !! kid = Some key ∧
    decode token (decoding key) (validation key) = Ok claims.

Lemma validate_claims_Ok j token c : validate_claims j token = Ok c → cl_jwt c = token ∧ token_valid j token (cl_inner c).
Proof.
  unfold validate_claims. destruct (decode_header token) as [[kid|]|] eqn:Ek; try done.
  destruct (find_map _ _) as [key|] eqn:Ef; [|done]. destruct (decode _ _ _) as [m|] eqn:Ed; [|done]. intros [= <-].
  split; [done|]. apply find_map_Some in Ef as (before & p & after & Hp & Hk & Hb). by exists kid, before, p, after, key.
Qed.

Lemma validate_claims_Err j token e : validate_claims j token = Err e → ∀ m, ¬ token_valid j token m.
Proof.
  intros He m (kid & before & p & after & key & Hk & Hp & Hb & Hkey & Hd). unfold validate_claims in He. rewrite Hk in He.
  destruct (find_map _ _) as [key'|] eqn:Ef.
  - apply find_map_Some in Ef as (before' & p' & after' & Hp' & Hk' & Hb'). enough (key' = key) as -> by (by rewrite Hd in He).
    rewrite Hp in Hp'. clear -Hp' Hk' Hb' Hb Hkey. revert before' Hp' Hb'. induction before as [|q before IH]; intros [|q' before'] Hp Hb'; simplify_eq/=.
    + done.
    + apply Forall_cons in Hb' as [? _]. congruence.
    + apply Forall_cons in Hb as [? _]. congruence.
    + apply Forall_cons in Hb as [_ ?], Hb' as [_ ?]. eauto.
  - apply find_map_None in Ef. rewrite Forall_forall in Ef. assert (p ∈ jwt_providers j) as Hin by (rewrite Hp; set_solver).
    apply Ef in Hin. congruence.
Qed.

(** The credential is not at its place any more. Only what an expression
    computes stays where it was: the head of the request is as before. A query
    parameter is gone where the path of the URI is empty or absolute. *)
Definition taken_out (loc : AuthorizationLocation) (r r' : AReq) : Prop :=
  match loc with
  | LExpression _ => aq_head r' = aq_head r
  | LQueryParameter _ => uri_ok (hd_uri (aq_head r)) → extract loc r' = None
  | LHeader _ _ | LCookie _ => extract loc r' = None
  end.

Lemma gone_after loc (r r' : AReq) (set : AReq → AReq) :
  (∀ r, aq_head (set r) = aq_head r) → remove loc r = (r', Ok ()) → taken_out loc r (set r').
Proof.
  intros Hs Hrm. pose proof (λ H, removed_gone loc r r' H Hrm) as Hg.
  destruct loc; simpl in *; unfold aq_headers in *; rewrite Hs; [by apply Hg|exact Hg|by apply Hg|by injection Hrm as <-].
Qed.

(** C21. What a token policy lets through. A request passes with the claims of a
    token that the first provider knowing its key accepts, and then the token is
    no longer at its place in the request (unless the place is an expression,
    from which nothing is removed; a query parameter is gone if the path of the
    URI is empty or absolute); or, without claims, if it has no token and the
    policy is not strict, or if its token is not valid and the policy is
    permissive. It is refused only if the policy is strict and there is no
    token, or is not permissive and the token is not valid, or if a valid token
    cannot be taken out. *)
Theorem jwt_apply_exact j (r r' : AReq) res :
  jwt_apply eval_str j r = (r', res) →
  let token := extract (jwt_location j) r in
  match res with
  | Ok _ =>
      (∃ t claims, token = Some t ∧ token_valid j t claims ∧ aq_jwt r' = Some (mkJwtClaims claims t) ∧
         taken_out (jwt_location j) r r') ∨
      r' = r ∧ (token = None ∧ jwt_mode j ≠ Strict ∨
                jwt_mode j = Permissive ∧ ∃ t, token = Some t ∧ ∀ claims, ¬ token_valid j t claims)
  | Err CredentialRemoval => ∃ t claims, token = Some t ∧ token_valid j t claims
  | Err e =>
      r' = r ∧ (token = None ∧ jwt_mode j = Strict ∧ e = TokenMissing ∨
                jwt_mode j ≠ Permissive ∧ ∃ t, token = Some t ∧ ∀ claims, ¬ token_valid j t claims)
  end.
Proof.
  unfold jwt_apply. destruct (extract (jwt_location j) r) as [t|] eqn:Et.
  - destruct (validate_claims j t) as [c|e] eqn:Ev.
    + apply validate_claims_Ok in Ev as [<- Hv]. destruct (remove (jwt_location j) r) as [r1 [[]|[]]] eqn:Erm; intros [= <- <-].
      * left. exists (cl_jwt c), (cl_inner c). split_and!; try done; [by destruct c|]. by apply (gone_after _ r r1 (set_jwt c)).
      * by exists (cl_jwt c), (cl_inner c).
    + pose proof (validate_claims_Err _ _ _ Ev) as Hn. case_decide as Hm; intros [= <- <-]; [right; split; [done|]; right; eauto|].
      assert (e ≠ CredentialRemoval) as Hne.
      { unfold validate_claims in Ev. repeat case_match; congruence. }
      destruct e; try done; split; try done; right; eauto.
  - case_decide as Hm; intros [= <- <-]; [split; [done|by left]|right; split; [done|by left]].
Qed.

(** C23. The endpoints of the authorization protocol are no way around it: what
    the policy of an MCP server lets through, on the route or on the backend,
    has passed its token policy; requests for those endpoints are answered by
    the gateway. *)
Theorem mcp_no_bypass j (r r' : AReq) :
  (∀ mcp, jwt_authentication_apply eval_str j mcp r = (r', Ok ()) → jwt_apply eval_str j r = (r', Ok ())) ∧
  (enforce_authentication eval_str j r = (r', Ok ()) → aq_jwt r = None ∧ jwt_apply eval_str j r = (r', Ok ())).
Proof.
  assert (∀ r : AReq, is_well_known_endpoint (uri_path (hd_uri (aq_head r))) = true → (answered r).2 ≠ Ok ()) as Hwk.
  { intros r0 Hw. unfold answered, handle_mcp_request. unfold is_well_known_endpoint in Hw. simpl.
    destruct (Str.ends_with _ _); [done|]. destruct (Str.starts_with PROTECTED_RESOURCE _); [done|]. simpl in Hw. by rewrite Hw. }
  assert (∀ r r1 : AReq, answered r = (r1, Ok ()) → r = r1) as Hsame by (intros r0 r1 Ha; by injection Ha).
  split.
  - intros mcp. unfold jwt_authentication_apply. destruct mcp.
    + destruct (is_well_known_endpoint _) eqn:Ew; simpl; [intros Ha; by destruct (Hwk r Ew); rewrite Ha|].
      destruct (jwt_apply eval_str j r) as [r1 [[]|e]]; [|done]. intros Ha. by rewrite (Hsame _ _ Ha).
    + destruct (jwt_apply eval_str j r) as [r1 [[]|e]]; [by intros [= <-]|done].
  - unfold enforce_authentication, apply_token_validation.
    destruct (is_well_known_endpoint _) eqn:Ew; simpl; [intros Ha; by destruct (Hwk r Ew); rewrite Ha|].
    destruct (aq_jwt r); [done|]. destruct (jwt_apply eval_str j r) as [r1 [[]|e]]; [|done]. intros Ha. by rewrite (Hsame _ _ Ha).
Qed.

(** C37. A token passed on arrives: of a request that a strict token policy let
    through, the backend finds at the configured place exactly the token the
    client sent, wherever the client put it. *)
Theorem passthrough_roundtrip j (r r1 r2 : AReq) location :
  jwt_mode j = Strict → jwt_apply eval_str j r = (r1, Ok ()) →
  apply_backend_auth (Passthrough location) r1 = (r2, Ok ()) →
  let loc := default bearer_header location in
  ∃ token, extract (jwt_location j) r = Some token ∧ (insertable loc token r1 → extract loc r2 = Some token).
Proof.
  intros Hm Hj Hb loc. unfold jwt_apply in Hj. destruct (extract (jwt_location j) r) as [t|]; [|by rewrite decide_True in Hj].
  exists t. split; [done|]. intros Hins. destruct (validate_claims j t) as [c|e] eqn:Ev; [|by rewrite decide_False in Hj by congruence].
  apply validate_claims_Ok in Ev as [<- _]. destruct (remove (jwt_location j) r) as [r0 [[]|]]; [|done]. injection Hj as <-.
  simpl in Hb. destruct (insert (default bearer_header location) (cl_jwt c) (set_jwt c r0)) as [r3 [[]|]] eqn:Ei; [|done]. injection Hb as <-.
  pose proof (inserted_found _ _ _ _ Hins Ei) as Hf. fold loc in Ei. destruct Hins as [Hr _]. clear Ei. destruct loc; done.
Qed.

(** ** Keys and passwords *)

Context (base64_decode : string → option string).

Lemma admit_claims_Ok {C} loc (set : C → AReq → AReq) v (r r' : AReq) :
  (∀ c r, aq_head (set c r) = aq_head r) → admit_claims loc set v r = (r', Ok ()) →
  (v = Ok None ∧ r' = r) ∨
  ∃ c r1, v = Ok (Some c) ∧ r' = set c r1 ∧ taken_out loc r r'.
Proof.
  intros Hs. unfold admit_claims. destruct v as [[c|]|]; [|intros [= <-]; by left|done].
  destruct (remove loc r) as [r1 [[]|]] eqn:Erm; [|done]. intros [= <-]. right. exists c, r1. split_and!; [done..|].
  by apply (gone_after _ r r1 (set c)).
Qed.

(** The user and the password are those of an entry. *)
Definition password_valid (b : BasicAuthentication) (encoded username : string) : Prop :=
  ∃ password hash, basic_credentials base64_decode encoded = Some (username, password) ∧
    ba_htpasswd b !! username = Some hash ∧ hash_check hash password = Ret true.

(** C22. A request passes an API-key or a password policy with the claims of a
    key or a user the policy knows, and then the credential is gone from its
    place in the request (unless the place is an expression, from which nothing
    is removed; a query parameter is gone if the path of the URI is empty or
    absolute); or, unless the policy is strict, with no credential and no claims.
    One with a credential that is not valid never passes. *)
Theorem credentials_admit (r r' : AReq) :
  (∀ a, apikey_apply eval_str a r = (r', Ok ()) →
     (∃ key meta, extract (ak_location a) r = Some key ∧ ak_users a !! key = Some meta ∧ aq_key r' = Some (key, meta) ∧
        taken_out (ak_location a) r r') ∨
     extract (ak_location a) r = None ∧ ak_mode a = COptional ∧ r' = r) ∧
  (∀ b, basic_apply base64_decode eval_str b r = Ret (r', Ok ()) →
     (∃ encoded user, extract (ba_location b) r = Some encoded ∧ password_valid b encoded user ∧ aq_user r' = Some user ∧
        taken_out (ba_location b) r r') ∨
     extract (ba_location b) r = None ∧ ba_mode b = COptional ∧ r' = r).
Proof.
  split.
  - intros a Ha. apply admit_claims_Ok in Ha as [[Hv ->]|([key meta] & r1 & Hv & -> & Hg)]; [| |done].
    + right. unfold apikey_verify in Hv. destruct (extract (ak_location a) r); [by case_match|].
      destruct (ak_mode a); done.
    + left. unfold apikey_verify in Hv. destruct (extract (ak_location a) r) as [k|]; [|by destruct (ak_mode a)].
      destruct (ak_users a !! k) as [m|] eqn:Em; [|done]. injection Hv as -> ->. by exists key, meta.
  - intros b Hb. unfold basic_apply in Hb. apply bind_Ret_inv in Hb as (v & Hv & Hb). injection Hb as Hb.
    apply admit_claims_Ok in Hb as [[-> ->]|(user & r1 & -> & -> & Hg)]; [| |done].
    + right. unfold basic_verify in Hv. destruct (extract (ba_location b) r) as [e|].
      * destruct (basic_credentials base64_decode e) as [[u p]|]; [|done].
        apply bind_Ret_inv in Hv as ([] & _ & Hv); done.
      * destruct (ba_mode b); done.
    + left. unfold basic_verify in Hv. destruct (extract (ba_location b) r) as [e|]; [|by destruct (ba_mode b)].
      destruct (basic_credentials base64_decode e) as [[u p]|] eqn:Ec; [|done].
      apply bind_Ret_inv in Hv as ([] & Hc & Hv); [|done]. injection Hv as ->. exists e, user. split_and!; try done.
      unfold htpasswd_check in Hc. destruct (ba_htpasswd b !! user) as [h|] eqn:Eh; [|done]. by exists p, h.
Qed.

(** Anyone who knows the name of a user with an Apache MD5 entry can make
    the check of a password panic: a password of more than sixteen bytes does,
    whatever the policy's mode. *)
Theorem long_password_panics (b : BasicAuthentication) (r : AReq) encoded user password salt hash :
  extract (ba_location b) r = Some encoded → basic_credentials base64_decode encoded = Some (user, password) →
  ba_htpasswd b !! user = Some (MD5 salt hash) → (16 < String.length password)%nat →
  basic_apply base64_decode eval_str b r = Panic.
Proof.
  intros He Hc Hu Hl. unfold basic_apply, basic_verify. rewrite He, Hc. unfold htpasswd_check. rewrite Hu. simpl.
  rewrite md5_apr1_encode_eq, decide_False by lia. done.
Qed.
End facts.
