(* ===== verification/Pipeline.v ===== *)
(** * The request pipeline

    How policies are run on a request: [PolicyResponse] and [merge_in_headers]
    of [http/mod.rs], [RequestPolicy] of [store/policy.rs],
    [apply_gateway_policies], [apply_request_policies] and [detect_misdirected]
    of [proxy/httpproxy.rs], and [proxy_internal] from the arrival of a request
    to the choice of its backend.

    What a policy does is an instance of [RequestPolicyTrait] for the type of
    its configuration; authorization is the one modelled in [Authorization].
    Policies share a world: rate limiters, remote services and so on. *)
From stdpp Require Import base gmap strings list.
From Stdlib Require Import ZArith.
From S2P Require Import Prelude RustStd Authorization AgentTypes RouteSet BindStore BindStoreFacts PolicyResolution RouteSelect RouteChain HttpRequest Htpasswd Auth.

Local Open Scope string_scope.
Local Open Scope list_scope.

(** ** Header maps *)

(** The entries of [into_iter] that carry a name: the first of each name. *)
Fixpoint first_values (seen : list string) (h : HeaderMap) : HeaderMap :=
  match h with
  | [] => []
  | (k, v) :: h' => if decide (k ∈ seen) then first_values seen h' else (k, v) :: first_values (k :: seen) h'
  end.

Definition merge_in_headers (additional : option HeaderMap) (dest : HeaderMap) : HeaderMap :=
  match additional with
  | None => dest
  | Some rh => foldl (λ d kv, hm_insert kv.1 kv.2 d) dest (first_values [] rh)
  end.

(** ** Answers of policies *)

Section pipeline.
Context {UC : UriCrate} {HC : HttpCrate} {RE : RegexEngine} {PL : Payloads} {HO : HashOrder}.
Context {CK : CookieCrate} {FC : FormCrate} {JW : JsonWebToken} {HS : HashCrates}.
Context {UserMetadata Body World PolicyError Value EvalError : Type}.
Local Abbreviation AReq := (AReq (UserMetadata := UserMetadata)).

Record Response := mkResponse { rs_status : Z; rs_headers : HeaderMap; rs_body : Body }.

Record PolicyResponse := mkPolicyResponse { pr_direct_response : option Response; pr_response_headers : option HeaderMap }.

Definition policy_response_default : PolicyResponse := mkPolicyResponse None None.

(** Errors of the proxy itself, and those of policies. *)
Inductive ProxyError :=
| BindNotFound | ListenerNotFound | RouteFailed (e : RouteError) | MisdirectedRequest | NoValidBackends
| ServiceNotFound | InvalidBackendType | InvalidHost | Processing | Unauthorized (e : AuthError) | PolicyFailed (e : PolicyError).

Inductive ProxyResponse := Error (e : ProxyError) | DirectResponse (r : Response).

(** [PolicyResponse::apply]. *)
Definition policy_response_apply (p : PolicyResponse) (hm : HeaderMap) : HeaderMap * result () ProxyResponse :=
  match pr_direct_response p with
  | Some dr =>
      (hm, Err (DirectResponse (mkResponse (rs_status dr) (merge_in_headers (pr_response_headers p) (rs_headers dr)) (rs_body dr))))
  | None => (merge_in_headers (pr_response_headers p) hm, Ok ())
  end.

(** ** Running one policy *)

(** What is run on a request and the world, and what for the response. *)
Class RequestPolicyTrait (T : Type) :=
  policy_apply : T → AReq → World → outcome (AReq * World * result PolicyResponse ProxyResponse).

Record ResponsePolicies := mkRP {
  rp_timeout : option TimeoutP;
  rp_route_response_header : option HeaderModifierP;
  rp_transformation : option TransformationP;
  rp_gateway_transformation : option TransformationP;
  rp_response_headers : HeaderMap;
  rp_ext_proc : option ExtProcP;
  rp_gateway_ext_proc : option ExtProcP;
  rp_local_rate_limit : option LocalRateLimitP;
  rp_remote_rate_limit : option RemoteRateLimitP;
}.

Definition rp_default : ResponsePolicies := mkRP None None None None [] None None None None.

(** The request, the world and the response policies, on the way. *)
Record Run := mkRun { r_req : AReq; r_world : World; r_rp : ResponsePolicies }.

Definition set_rp (f : ResponsePolicies → ResponsePolicies) (s : Run) : Run := mkRun (r_req s) (r_world s) (f (r_rp s)).
Definition set_request (r : AReq) (s : Run) : Run := mkRun r (r_world s) (r_rp s).

Definition rp_set_headers h p := mkRP (rp_timeout p) (rp_route_response_header p) (rp_transformation p) (rp_gateway_transformation p) h (rp_ext_proc p) (rp_gateway_ext_proc p) (rp_local_rate_limit p) (rp_remote_rate_limit p).
Definition rp_set_timeout t p := mkRP t (rp_route_response_header p) (rp_transformation p) (rp_gateway_transformation p) (rp_response_headers p) (rp_ext_proc p) (rp_gateway_ext_proc p) (rp_local_rate_limit p) (rp_remote_rate_limit p).
Definition rp_set_route_header x p := mkRP (rp_timeout p) x (rp_transformation p) (rp_gateway_transformation p) (rp_response_headers p) (rp_ext_proc p) (rp_gateway_ext_proc p) (rp_local_rate_limit p) (rp_remote_rate_limit p).
Definition rp_set_transformation x p := mkRP (rp_timeout p) (rp_route_response_header p) x (rp_gateway_transformation p) (rp_response_headers p) (rp_ext_proc p) (rp_gateway_ext_proc p) (rp_local_rate_limit p) (rp_remote_rate_limit p).
Definition rp_set_gateway_transformation x p := mkRP (rp_timeout p) (rp_route_response_header p) (rp_transformation p) x (rp_response_headers p) (rp_ext_proc p) (rp_gateway_ext_proc p) (rp_local_rate_limit p) (rp_remote_rate_limit p).
Definition rp_set_ext_proc x p := mkRP (rp_timeout p) (rp_route_response_header p) (rp_transformation p) (rp_gateway_transformation p) (rp_response_headers p) x (rp_gateway_ext_proc p) (rp_local_rate_limit p) (rp_remote_rate_limit p).
Definition rp_set_gateway_ext_proc x p := mkRP (rp_timeout p) (rp_route_response_header p) (rp_transformation p) (rp_gateway_transformation p) (rp_response_headers p) (rp_ext_proc p) x (rp_local_rate_limit p) (rp_remote_rate_limit p).
Definition rp_set_local x p := mkRP (rp_timeout p) (rp_route_response_header p) (rp_transformation p) (rp_gateway_transformation p) (rp_response_headers p) (rp_ext_proc p) (rp_gateway_ext_proc p) x (rp_remote_rate_limit p).
Definition rp_set_remote x p := mkRP (rp_timeout p) (rp_route_response_header p) (rp_transformation p) (rp_gateway_transformation p) (rp_response_headers p) (rp_ext_proc p) (rp_gateway_ext_proc p) (rp_local_rate_limit p) x.

(** Code that may panic, or stop with a response ([?]). *)
Definition PM (A : Type) : Type := Run → outcome (Run * result A ProxyResponse).

#[local] Instance pm_ret : MRet PM := λ A a s, Ret (s, Ok a).
#[local] Instance pm_bind : MBind PM := λ A B k m s,
  '(s, r) ← m s;
  match r with Ok a => k a s | Err e => Ret (s, Err e) end.

Definition modify (f : Run → Run) : PM () := λ s, Ret (f s, Ok ()).
Definition stop {A} (e : ProxyError) : PM A := λ s, Ret (s, Err (Error e)).

(** Conditions of policies, and expressions of authorization rules, on a
    request. *)
Context (exec : AReq → Executor Expression Value EvalError).
Definition eval_cond (r : AReq) (c : Expression) : bool := eval_bool (exec r) c.

(** [RequestPolicy::apply_internal]: the policy that was run. *)
Definition apply_internal {T} `{!RequestPolicyTrait T} (p : RequestPolicy T) : PM (option T) := λ s,
  match select (eval_cond (r_req s)) p with
  | None => Ret (s, Ok None)
  | Some pol =>
      '(r, w, res) ← policy_apply pol (r_req s) (r_world s);
      let s := mkRun r w (r_rp s) in
      match res with
      | Err e => Ret (s, Err e)
      | Ok pr =>
          let '(hm, res) := policy_response_apply pr (rp_response_headers (r_rp s)) in
          Ret (set_rp (rp_set_headers hm) s, match res with Err e => Err e | Ok _ => Ok (Some pol) end)
      end
  end.

Definition apply_without_response {T} `{!RequestPolicyTrait T} (p : RequestPolicy T) : PM () := _ ← apply_internal p; mret ().

(** ** The policies of a gateway and of a route *)

Context `{!RequestPolicyTrait CorsP} `{!RequestPolicyTrait OidcP} `{!RequestPolicyTrait JwtAuthP} `{!RequestPolicyTrait BasicAuthP}
  `{!RequestPolicyTrait APIKeyP} `{!RequestPolicyTrait ExtAuthzP} `{!RequestPolicyTrait LocalRateLimitP}
  `{!RequestPolicyTrait RemoteRateLimitP} `{!RequestPolicyTrait ExtProcP} `{!RequestPolicyTrait TransformationP}
  `{!RequestPolicyTrait CsrfP} `{!RequestPolicyTrait HeaderModifierP} `{!RequestPolicyTrait UrlRewriteP}
  `{!RequestPolicyTrait RequestRedirectP} `{!RequestPolicyTrait DirectResponseP}.

(** [HTTPAuthorizationSet::apply]. *)
#[local] Instance authorization_policy : RequestPolicyTrait (RuleSets Expression) := λ (rs : RuleSets Expression) r w,
  Ret (r, w, match apply_set rs (exec r) with
             | Ok _ => Ok policy_response_default
             | Err e => Err (Error (Unauthorized e))
             end).

(** [http::oidc::RESERVED_COOKIE_PREFIX]. *)
Definition RESERVED_COOKIE_PREFIX : string := "agw_oidc_".

Definition strip_reserved_cookies : PM () := λ s,
  h ← strip_request_cookies_by_prefix RESERVED_COOKIE_PREFIX (aq_headers (r_req s));
  Ret (set_request (with_headers h (r_req s)) s, Ok ()).

(** An [ExtProc] is selected and its [mutate_request] run; it is kept for the
    response. *)
Definition run_ext_proc (p : option ExtProcP) : PM () :=
  match p with
  | None => mret ()
  | Some pol => apply_without_response (rp_single pol)
  end.

Definition select_ext_proc (p : RequestPolicy ExtProcP) : PM (option ExtProcP) := λ s, Ret (s, Ok (select (eval_cond (r_req s)) p)).

(** Whether the hostname is rewritten automatically:
    [unwrap_or(HostRedirectOverride::Auto) == Auto]. *)
Context (host_rewrite_auto : option HostRedirectOverrideP → bool).

Definition insert_auto_hostname (b : bool) (r : AReq) : AReq :=
  if b then on_head (λ h, mkHead (hd_req h) (hd_version h) (hd_path_match h) (hd_original_url h) true (hd_on_upgrade h)) r else r.

Definition apply_gateway_policies (p : GatewayPolicies) : PM () :=
  _ ← apply_without_response (gw_oidc p);
  _ ← strip_reserved_cookies;
  _ ← apply_without_response (gw_jwt p);
  _ ← apply_without_response (gw_basic_auth p);
  _ ← apply_without_response (gw_api_key p);
  _ ← apply_without_response (gw_ext_authz p);
  x ← select_ext_proc (gw_ext_proc p);
  _ ← run_ext_proc x;
  _ ← modify (set_rp (rp_set_gateway_ext_proc x));
  t ← apply_internal (gw_transformation p);
  modify (set_rp (rp_set_gateway_transformation t)).

(** [apply_request_policies], in its three parts: who asks, whether it may, and
    what is changed. *)
Definition authenticate (p : RoutePolicies) : PM () :=
  _ ← apply_without_response (cors p);
  _ ← apply_without_response (oidc p);
  _ ← strip_reserved_cookies;
  _ ← apply_without_response (jwt p);
  _ ← apply_without_response (basic_auth p);
  _ ← apply_without_response (api_key p);
  apply_without_response (ext_authz p).

Definition limit_rate (p : RoutePolicies) : PM () :=
  l ← apply_internal (local_rate_limit p);
  _ ← modify (set_rp (rp_set_local l));
  r ← apply_internal (remote_rate_limit p);
  modify (set_rp (rp_set_remote r)).

Definition change_request (p : RoutePolicies) : PM () :=
  x ← select_ext_proc (ext_proc p);
  _ ← modify (set_rp (rp_set_ext_proc x));
  _ ← run_ext_proc x;
  t ← apply_internal (transformation p);
  _ ← modify (set_rp (rp_set_transformation t));
  _ ← apply_without_response (csrf p);
  _ ← modify (set_rp (rp_set_route_header (response_header_modifier p)));
  _ ← apply_without_response (request_header_modifier p);
  _ ← modify (λ s, set_request (insert_auto_hostname (host_rewrite_auto (hostname_rewrite p)) (r_req s)) s);
  _ ← apply_without_response (url_rewrite p);
  _ ← apply_without_response (request_redirect p);
  apply_without_response (direct_response p).

Definition apply_request_policies (p : RoutePolicies) : PM () :=
  _ ← authenticate p;
  _ ← apply_without_response (authorization p);
  _ ← limit_rate p;
  change_request p.

(** ** From the arrival of a request to its backend *)

Context {Sockets BackendWithPolicies Service : Type}.
Local Abbreviation Store := (Store Sockets BackendWithPolicies).

Definition detect_misdirected (tls : bool) (bind : Bind) (r : AReq) (l : Listener) : result () ProxyError :=
  if negb tls then Ok ()
  else
    match get_host (hd_req (aq_head r)) with
    | Err _ => Err (RouteFailed RouteNotFound)
    | Ok host =>
        match best_match_tls (bind_listeners bind) host with
        | Some best => if decide (lis_key best ≠ lis_key l) then Err MisdirectedRequest
                       else if listener_matches l host then Ok () else Err (RouteFailed RouteNotFound)
        | None => if listener_matches l host then Ok () else Err (RouteFailed RouteNotFound)
        end
    end.

Inductive Backend := BService (svc : Service) (port : Z) | BConfigured (b : BackendWithPolicies) | BInvalid.

(** [get_by_namespaced_host] of the discovery store. *)
Context (get_by_namespaced_host : NamespacedHostname → option Service).

(** [resolve_backend] of [proxy/mod.rs] and of [proxy/httpproxy.rs]. *)
Definition resolve_reference (s : Store) (b : BackendReference) : result Backend ProxyError :=
  match b with
  | BRService name port =>
      match get_by_namespaced_host name with Some svc => Ok (BService svc port) | None => Err ServiceNotFound end
  | BRBackend key =>
      match backends s !! key with Some b => Ok (BConfigured b) | None => Err ServiceNotFound end
  | BRInvalid => Ok BInvalid
  end.

Definition resolve_backend (s : Store) (b : RouteBackendReference) : result Backend ProxyError :=
  match as_backend_reference (rbr_target b) with
  | None => Err InvalidBackendType
  | Some r => resolve_reference s r
  end.

Definition route_path (l : Listener) (c : SelectedRouteChain) : RoutePath :=
  mkRoutePath (lis_name l) (last (ch_routes c) ≫= route_service_key) (route_name <$> ch_routes c).

(** Tracing, which may add a header and log; and [rand]. *)
Context (start_trace : AReq → World → AReq * World) (choose_weighted : nat → list Z → option nat).

Definition lift {A} (r : result A ProxyError) : PM A := λ s, Ret (s, match r with Ok a => Ok a | Err e => Err (Error e) end).

(** A request that goes to a backend. *)
Record Forward := mkForward { fw_listener : Listener; fw_chain : SelectedRouteChain; fw_backend : Backend; fw_upgrade : option string }.

Definition insert_path_match (pm : PathMatch) (r : AReq) : AReq :=
  on_head (λ h, mkHead (hd_req h) (hd_version h) (Some pm) (hd_original_url h) (hd_auto_hostname h) (hd_on_upgrade h)) r.

(** Up to the listener: the bind, the normalized request, the upgrade it asks
    for, and its host. *)
Definition receive (s0 : Store) (tls : bool) (bind_name : string) (selected : option Listener) : PM (Bind * Listener * option string) := λ s,
  match binds s0 !! bind_name with
  | None => stop BindNotFound s
  | Some bind =>
      match normalize_uri tls (aq_head (r_req s)) with
      | Err _ => stop Processing s
      | Ok h =>
          let '(h, upgrade) := hop_by_hop_headers h in
          let s := set_request (on_head (λ _, h) (r_req s)) s in
          match get_host (hd_req h) with
          | Err _ => stop InvalidHost s
          | Ok host =>
              let '(r, w) := start_trace (r_req s) (r_world s) in
              let s := mkRun r w (r_rp s) in
              match option_or selected (best_match_http (bind_listeners bind) host) with
              | None => stop ListenerNotFound s
              | Some l => Ret (s, Ok (bind, l, upgrade))
              end
          end
      end
  end.

(** The store is read anew each time; [fuel] bounds the delegations. *)
Definition choose_chain (fuel : nat) (stores : nat → Store) (dst : SocketAddr) (l : Listener) : PM SelectedRouteChain := λ s,
  match select_route_chain choose_weighted fuel stores dst l (hd_req (aq_head (r_req s))) with
  | None => Panic                              (* not enough fuel *)
  | Some o =>
      r ← o;
      lift (match r with Ok c => Ok c | Err e => Err (RouteFailed e) end) s
  end.

Definition proxy_internal (fuel : nat) (stores : nat → Store) (tls : bool) (bind_name : string) (selected : option Listener)
    (dst : SocketAddr) : PM Forward :=
  '(bind, l, upgrade) ← receive (stores 0) tls bind_name selected;
  _ ← apply_gateway_policies (gateway_policies (stores 1) (lis_name l));
  _ ← (λ s, lift (detect_misdirected tls bind (r_req s) l) s);
  c ← choose_chain fuel (λ n, stores (2 + n)) dst l;
  _ ← modify (λ s, set_request (insert_path_match (ch_path_match c) (r_req s)) s);
  let st := stores (2 + length (ch_routes c)) in
  let p := route_policies st (route_path l c) (route_inline_policies <$> ch_routes c) in
  _ ← modify (set_rp (rp_set_timeout (timeout p)));
  _ ← apply_request_policies p;
  b ← match ch_backend c with Some b => mret b | None => stop NoValidBackends end;
  be ← lift (resolve_backend (stores (3 + length (ch_routes c))) b);
  mret (mkForward l c be upgrade).
End pipeline.
