(* ===== verification/PipelineFacts.v ===== *)
(** * What passes the pipeline

    A request reaches a backend only past every policy of its listener and
    route; one that is refused costs nothing; and what policies add to a
    response. *)
From stdpp Require Import base gmap strings list.
From Stdlib Require Import ZArith.
From S2P Require Import Prelude RustStd Authorization AgentTypes RouteSet BindStore BindStoreFacts PolicyResolution RouteSelect RouteChain HttpRequest Htpasswd Auth AuthFacts Pipeline.

Local Open Scope string_scope.
Local Open Scope list_scope.

(** ** Headers of responses *)

Lemma merge_fold_other n (l : HeaderMap) d : (∀ kv, kv ∈ l → kv.1 ≠ n) → get_all n (foldl (λ d kv, hm_insert kv.1 kv.2 d) d l) = get_all n d.
Proof.
  revert d. induction l as [|[k v] l IH]; intros d Hl; [done|]. simpl. rewrite IH by (intros kv Hkv; apply Hl; by right).
  rewrite get_all_insert, decide_False; [done|]. apply (Hl (k, v)). by left.
Qed.

Lemma first_values_seen seen (h : HeaderMap) kv : kv ∈ first_values seen h → kv.1 ∉ seen.
Proof.
  revert seen. induction h as [|[k v] h IH]; intros seen; [by intros ?%elem_of_nil|]. simpl. case_decide as Hk; [apply IH|].
  intros [->|Hin]%elem_of_cons; [done|]. apply IH in Hin. set_solver.
Qed.

Lemma merge_fold_first n seen (h d : HeaderMap) :
  n ∉ seen → get_all n (foldl (λ d kv, hm_insert kv.1 kv.2 d) d (first_values seen h)) =
    match header_get h n with Some v => [v] | None => get_all n d end.
Proof.
  revert seen d. induction h as [|[k v] h IH]; intros seen d Hn; [done|]. unfold header_get. simpl.
  destruct (decide (k = n)) as [->|Hne].
  - rewrite bool_decide_eq_true_2 by done. rewrite decide_False by done. simpl.
    rewrite merge_fold_other; [by rewrite get_all_insert, decide_True|].
    intros kv Hkv Heq. apply first_values_seen in Hkv. apply Hkv. rewrite Heq. by left.
  - rewrite bool_decide_eq_false_2 by done. case_decide as Hk; [by apply IH|]. simpl.
    rewrite IH by set_solver. unfold header_get. destruct (list_find_by _ h); [done|]. simpl. by rewrite get_all_insert, decide_False.
Qed.

(** What the headers that policies ask for do to a response: a name they
    give loses all the values the response had for it, and gets only the first
    of the values asked for; other names are untouched. *)
Theorem merge_in_headers_exact n (rh dest : HeaderMap) :
  get_all n (merge_in_headers (Some rh) dest) = match header_get rh n with Some v => [v] | None => get_all n dest end.
Proof. apply merge_fold_first, not_elem_of_nil. Qed.

Section facts.
Context {UC : UriCrate} {HC : HttpCrate} {RE : RegexEngine} {PL : Payloads} {HO : HashOrder}.
Context {CK : CookieCrate} {FC : FormCrate} {JW : JsonWebToken} {HS : HashCrates}.
Context {UserMetadata Body World PolicyError Value EvalError : Type}.
Local Abbreviation AReq := (AReq (UserMetadata := UserMetadata)).
Local Abbreviation PM := (PM (UserMetadata := UserMetadata) (Body := Body) (World := World) (PolicyError := PolicyError)).
Local Abbreviation RequestPolicyTrait := (RequestPolicyTrait (UserMetadata := UserMetadata) (Body := Body) (World := World) (PolicyError := PolicyError)).
Local Existing Instances pm_ret pm_bind.

Lemma pm_bind_inv {A B} (m : PM A) (k : A → PM B) s s' r :
  (m ≫= k) s = Ret (s', r) →
  (∃ a s1, m s = Ret (s1, Ok a) ∧ k a s1 = Ret (s', r)) ∨ (∃ e, m s = Ret (s', Err e) ∧ r = Err e).
Proof.
  unfold mbind, pm_bind. intros H. apply bind_Ret_inv in H as ([s1 [a|e]] & Hm & Hk); [by left; exists a, s1|].
  injection Hk as -> <-. right. by exists e.
Qed.

Lemma pm_bind_Ok {A B} (m : PM A) (k : A → PM B) s s' b :
  (m ≫= k) s = Ret (s', Ok b) → ∃ a s1, m s = Ret (s1, Ok a) ∧ k a s1 = Ret (s', Ok b).
Proof. intros [H|(e & _ & ?)]%pm_bind_inv; [done|done]. Qed.

Context (exec : AReq → Executor Expression Value EvalError).
Context `{!RequestPolicyTrait CorsP} `{!RequestPolicyTrait OidcP} `{!RequestPolicyTrait JwtAuthP} `{!RequestPolicyTrait BasicAuthP}
  `{!RequestPolicyTrait APIKeyP} `{!RequestPolicyTrait ExtAuthzP} `{!RequestPolicyTrait LocalRateLimitP}
  `{!RequestPolicyTrait RemoteRateLimitP} `{!RequestPolicyTrait ExtProcP} `{!RequestPolicyTrait TransformationP}
  `{!RequestPolicyTrait CsrfP} `{!RequestPolicyTrait HeaderModifierP} `{!RequestPolicyTrait UrlRewriteP}
  `{!RequestPolicyTrait RequestRedirectP} `{!RequestPolicyTrait DirectResponseP}.
Context (host_rewrite_auto : option HostRedirectOverrideP → bool).
#[local] Instance authz_policy : RequestPolicyTrait (RuleSets Expression) := authorization_policy exec.
Local Abbreviation authenticate := (authenticate exec).
Local Abbreviation apply_request_policies := (apply_request_policies exec host_rewrite_auto).
Local Abbreviation admits := (λ p, apply_without_response exec (authorization p)).

(** ** Authorization *)

Lemma admitted_valid (p : RequestPolicy (RuleSets Expression)) s s' authz :
  apply_without_response exec p s = Ret (s', Ok ()) → p = rp_single authz →
  s' = s ∧ validate authz (exec (r_req s)) = true.
Proof.
  intros Ha ->. unfold apply_without_response in Ha. apply pm_bind_Ok in Ha as (a & s1 & Ha & [= <-]).
  unfold apply_internal in Ha. simpl in Ha. unfold policy_apply, authz_policy, authorization_policy in Ha. simpl in Ha. unfold apply_set in Ha.
  destruct (validate authz (exec (r_req s))) eqn:Ev; simpl in Ha; [|done]. injection Ha as <- <-. by destruct s as [? ? []].
Qed.

(** ** What refused requests cost *)

(** Who asks, and whether they may. *)
Definition admission (p : RoutePolicies) : PM () := authenticate p ≫= λ _, admits p.

(** The policies that decide it are the same; any other may differ, the rate
    limits and everything that comes after them. *)
Definition same_admission (p p' : RoutePolicies) : Prop :=
  cors p = cors p' ∧ oidc p = oidc p' ∧ jwt p = jwt p' ∧ basic_auth p = basic_auth p' ∧ api_key p = api_key p' ∧
  ext_authz p = ext_authz p' ∧ authorization p = authorization p'.

Lemma admission_same p p' : same_admission p p' → admission p = admission p'.
Proof. intros (H1 & H2 & H3 & H4 & H5 & H6 & H7). unfold admission, Pipeline.authenticate. by rewrite H1, H2, H3, H4, H5, H6, H7. Qed.

Lemma request_policies_split p s :
  apply_request_policies p s = (admission p ≫= λ _, _ ← limit_rate exec p; change_request exec host_rewrite_auto p) s.
Proof.
  unfold Pipeline.apply_request_policies, admission, mbind, pm_bind. destruct (authenticate p s) as [[s1 [[]|e]]|]; done.
Qed.

(** C27. A request that is refused costs nothing: one that authentication and
    authorization do not admit is refused (or they panicked), and the whole run,
    the response and the world it leaves, is the same whatever rate limits,
    local or remote, and whatever later policies the route has, and so the same
    as with none: no limiter is asked or charged for it. *)
Theorem refused_cost_nothing p p' s :
  same_admission p p' → (∀ s1, admission p s ≠ Ret (s1, Ok ())) →
  apply_request_policies p' s = apply_request_policies p s ∧ ∀ s1, apply_request_policies p s ≠ Ret (s1, Ok ()).
Proof.
  intros Hp Hno. rewrite !request_policies_split, <-(admission_same p p' Hp). unfold mbind, pm_bind.
  destruct (admission p s) as [[s1 [[]|e]]|] eqn:E; [by destruct (Hno s1)|done..].
Qed.

(** A request that the CORS policy answers itself, as a browser's question
    whether it may make one, is answered before any other policy runs, with the
    headers the policy asks for. *)
Theorem preflight_first p s cp r w pr dr :
  select (eval_cond exec (r_req s)) (cors p) = Some cp →
  policy_apply cp (r_req s) (r_world s) = Ret (r, w, Ok pr) → pr_direct_response pr = Some dr →
  ∃ dr', apply_request_policies p s = Ret (mkRun r w (r_rp s), Err (DirectResponse dr')) ∧
    rs_status dr' = rs_status dr ∧ rs_body dr' = rs_body dr ∧
    ∀ n, get_all n (rs_headers dr') = match pr_response_headers pr ≫= λ h, header_get h n with Some v => [v] | None => get_all n (rs_headers dr) end.
Proof.
  intros Hs Hp Hd. eexists. split; [|split; [|split]].
  - unfold Pipeline.apply_request_policies, Pipeline.authenticate, apply_without_response, mbind, pm_bind, apply_internal.
    rewrite Hs, Hp. simpl. unfold policy_response_apply. rewrite Hd. simpl. f_equal. f_equal. by destruct (r_rp s).
  - done.
  - done.
  - intros n. simpl. destruct (pr_response_headers pr) as [h|]; [|done]. simpl. apply merge_fold_first, not_elem_of_nil.
Qed.

(** ** Requests that reach a backend *)

Context {Sockets BackendWithPolicies Service : Type}.
Local Abbreviation Store := (Store Sockets BackendWithPolicies).
Context (get_by_namespaced_host : NamespacedHostname → option Service).
Context (start_trace : AReq → World → AReq * World) (choose_weighted : nat → list Z → option nat).
Local Abbreviation proxy_internal :=
  (proxy_internal exec host_rewrite_auto get_by_namespaced_host start_trace choose_weighted).
Local Abbreviation receive := (receive (Body := Body) (PolicyError := PolicyError) start_trace).

(** The host a request asks for: that of its URI, and for HTTP/1 without an
    authority there, that of its [Host] header. *)
Definition asks_for (h : Head) (host : string) : Prop :=
  match hd_version h, uri_authority (hd_uri h) with
  | (HTTP_10 | HTTP_11), None =>
      ∃ v a, header_get (hd_headers h) "host" = Some v ∧ authority_try_from v = Some a ∧ host = authority_host a
  | _, _ => uri_host (hd_uri h) = Some host
  end.

Definition is_http (p : ListenerProtocol) : bool := match p with LP_HTTP => true | _ => false end.

(** The listener of a request: the one of its connection, else of those for
    plain HTTP the one whose hostname fits the host asked for best. *)
Definition listener_chosen (bind : Bind) (selected : option Listener) (h : Head) (l : Listener) : Prop :=
  selected = Some l ∨
  selected = None ∧ ∃ host, asks_for h host ∧ best_listener (bind_listeners bind) host is_http (Some l).

Lemma from_parts_host p u : from_parts p = Some u → uri_host u = authority_host <$> pt_authority p.
Proof. unfold from_parts. case_match; [|done]. by intros [= <-]. Qed.

Lemma normalize_uri_host tls h h' host :
  normalize_uri tls h = Ok h' → uri_host (hd_uri h') = Some host → asks_for h host.
Proof.
  unfold normalize_uri, asks_for. intros Hn Hh.
  destruct (hd_version h), (uri_authority (hd_uri h)) as [a|]; try (injection Hn as <-; exact Hh);
    (destruct (header_get (hd_headers h) "host") as [v|]; [|done]; simpl in Hn;
     destruct (authority_try_from v) as [a|] eqn:Ea; [|done]; destruct (from_parts _) as [u|] eqn:Eu; [|done];
     injection Hn as <-; exists v, a; split_and!; [done..|]; apply from_parts_host in Eu; simpl in Hh, Eu; unfold hd_uri in Hh; simpl in Hh; congruence).
Qed.

Lemma receive_Ok (st : Store) tls name selected s s' bind l up :
  receive st tls name selected s = Ret (s', Ok (bind, l, up)) →
  binds st !! name = Some bind ∧ listener_chosen bind selected (aq_head (r_req s)) l.
Proof.
  unfold Pipeline.receive. destruct (binds st !! name) as [b|]; [|done]. destruct (normalize_uri _ _) as [h|] eqn:En; [|done].
  destruct (hop_by_hop_headers h) as [h' u] eqn:Eh. unfold get_host. destruct (uri_host _) as [host|] eqn:Eg; [|done].
  destruct (start_trace _ _) as [r w]. destruct (option_or selected _) as [l'|] eqn:El; [|done]. intros [= <- <- <- <-].
  split; [done|]. destruct selected as [x|]; simpl in El; [left; congruence|right; split; [done|]]. exists host.
  split; [|rewrite <-El; apply best_match_filtered_best]. apply (normalize_uri_host _ _ _ _ En). by injection Eh as <- _.
Qed.

(** Over TLS, the host is one of the listener's and no listener fits better. *)
Definition directed (tls : bool) (bind : Bind) (r : AReq) (l : Listener) : Prop :=
  tls = true → ∃ host, get_host (hd_req (aq_head r)) = Ok host ∧ listener_matches l host = true ∧
    ∀ best, best_match_tls (bind_listeners bind) host = Some best → lis_key best = lis_key l.

Lemma detect_Ok tls bind (r : AReq) l :
  detect_misdirected (PolicyError := PolicyError) tls bind r l = Ok () → directed tls bind r l.
Proof.
  intros Hd ->. unfold detect_misdirected in Hd. simpl in Hd. destruct (get_host _) as [host|]; [|done].
  exists host. split; [done|]. destruct (best_match_tls _ host) as [best|].
  - case_decide as Hk; [done|]. destruct (listener_matches l host); [|done]. split; [done|]. intros ? [= <-].
    by destruct (decide (lis_key best = lis_key l)).
  - by destruct (listener_matches l host).
Qed.


(** ** The pipeline returns *)

Class Returns (T : Type) `{!RequestPolicyTrait T} : Prop := returns : ∀ (pol : T) r w, ∃ x, policy_apply pol r w = Ret x.

Definition total {A} (m : PM A) : Prop := ∀ s, ∃ x, m s = Ret x.

Lemma total_bind {A B} (m : PM A) (k : A → PM B) : total m → (∀ a, total (k a)) → total (m ≫= k).
Proof.
  intros Hm Hk s. unfold mbind, pm_bind. destruct (Hm s) as [[s1 [a|e]] ->]; simpl; [apply Hk|eauto].
Qed.

Lemma total_internal {T} `{!RequestPolicyTrait T, !Returns T} (p : RequestPolicy T) : total (apply_internal exec p).
Proof.
  intros s. unfold apply_internal. destruct (select _ p) as [pol|]; [|eauto].
  destruct (returns pol (r_req s) (r_world s)) as [[[r w] [pr|e]] ->]; simpl; [|eauto].
  destruct (policy_response_apply pr _) as [hm [?|?]]; eauto.
Qed.

Lemma total_ret {A} (a : A) : total (mret a).
Proof. intros s. by eexists. Qed.

Lemma total_modify f : total (modify f).
Proof. intros s. by eexists. Qed.

Lemma total_policy {T} `{!RequestPolicyTrait T, !Returns T} (p : RequestPolicy T) : total (apply_without_response exec p).
Proof. apply total_bind; [apply total_internal|]. intros a. apply total_ret. Qed.

Lemma total_strip : total strip_reserved_cookies.
Proof. intros s. unfold strip_reserved_cookies. destruct (strip_cookies_ok RESERVED_COOKIE_PREFIX (aq_headers (r_req s))) as (h & -> & _). simpl. eauto. Qed.

#[local] Instance authorization_returns : Returns (RuleSets Expression).
Proof. intros rs r w. by eexists. Qed.

Context `{!Returns CorsP} `{!Returns OidcP} `{!Returns JwtAuthP} `{!Returns BasicAuthP} `{!Returns APIKeyP} `{!Returns ExtAuthzP}
  `{!Returns LocalRateLimitP} `{!Returns RemoteRateLimitP} `{!Returns ExtProcP} `{!Returns TransformationP} `{!Returns CsrfP}
  `{!Returns HeaderModifierP} `{!Returns UrlRewriteP} `{!Returns RequestRedirectP} `{!Returns DirectResponseP}.

Lemma total_select (p : RequestPolicy ExtProcP) : total (select_ext_proc exec p).
Proof. intros s. by eexists. Qed.

Lemma total_ext_proc (p : option ExtProcP) : total (run_ext_proc exec p).
Proof. destruct p; [apply total_policy|apply total_ret]. Qed.

Create HintDb total.
#[local] Hint Resolve total_policy total_internal total_strip total_ret total_modify total_ext_proc total_select : total.

Ltac total := repeat (apply total_bind; [by auto with total|intros ?]); auto with total.

Lemma total_gateway p : total (apply_gateway_policies exec p).
Proof. unfold apply_gateway_policies. total. Qed.

Lemma total_authenticate p : total (authenticate p).
Proof. unfold Pipeline.authenticate. total. Qed.

Lemma total_limit p : total (limit_rate exec p).
Proof. unfold limit_rate. total. Qed.

Lemma total_change p : total (change_request exec host_rewrite_auto p).
Proof. unfold change_request. total. Qed.

Lemma total_request p : total (apply_request_policies p).
Proof.
  unfold Pipeline.apply_request_policies. apply total_bind; [apply total_authenticate|intros _].
  apply total_bind; [apply total_policy|intros _]. apply total_bind; [apply total_limit|intros _; apply total_change].
Qed.

Lemma total_receive (st : Store) tls name selected : total (receive st tls name selected).
Proof.
  intros s. unfold Pipeline.receive, stop. destruct (binds st !! name); [|eauto]. destruct (normalize_uri _ _) as [h|]; [|eauto].
  destruct (hop_by_hop_headers h). destruct (get_host _); [|eauto]. destruct (start_trace _ _). destruct (option_or selected _); eauto.
Qed.

(** C11. Every request is dealt with: if no policy panics, the pipeline returns a
    response or a backend, in stores that were built by updates and with fuel
    for as many delegations as there are keys of routes. *)
Theorem proxy_returns fuel (stores : nat → Store) (K : gset string) tls name selected dst s :
  (∀ n, store_wf (stores n)) → keys_within K (λ n, stores (2 + n)%nat) → size K < fuel →
  ∃ s' r, proxy_internal fuel stores tls name selected dst s = Ret (s', r).
Proof.
  intros Hwf HK Hf. enough (total (proxy_internal fuel stores tls name selected dst)) as Ht by (destruct (Ht s) as [[s' r] ->]; eauto).
  assert (∀ l, total (choose_chain (Body := Body) (PolicyError := PolicyError) choose_weighted fuel (λ n, stores (2 + n)%nat) dst l)) as Hc.
  { intros l s1. unfold choose_chain.
    destruct (select_route_chain_ok choose_weighted (λ n, stores (2 + n)%nat) dst l (hd_req (aq_head (r_req s1))) K fuel (λ n, Hwf _) HK Hf)
      as (res & -> & _). simpl. by eexists. }
  unfold Pipeline.proxy_internal. apply total_bind; [apply total_receive|]. intros [[bind l] up].
  apply total_bind; [apply total_gateway|intros _]. apply total_bind; [by intros ?; eexists|intros _].
  apply total_bind; [apply Hc|intros c]. apply total_bind; [apply total_modify|intros _].
  apply total_bind; [apply total_modify|intros _]. apply total_bind; [apply total_request|intros _].
  apply total_bind; [destruct (ch_backend c); by intros ?; eexists|intros b].
  apply total_bind; [by intros ?; eexists|intros be]. apply total_ret.
Qed.
End facts.
