(* ===== verification/RateLimit.v ===== *)
(** * Local rate limiting

    The token bucket of [http/localratelimit.rs] ([RateLimit], the forked
    [Ratelimiter] and its [Builder]) and the token true-up of [llm/mod.rs].

    Two models of the bucket: functions for a caller that is not interrupted
    ([refill], [try_wait_n], ...), and a small-step machine over the atomic
    operations in which any number of callers interleave ([step], [run]).
    Counters are [u64] with the wrap-around of a release build and of
    [fetch_add]; instants are nanoseconds; a reading of the clock is an input. *)
From stdpp Require Import base list.
From Stdlib Require Import ZArith.
From S2P Require Import Prelude RustStd.
Local Open Scope Z_scope.

(** ** Data *)

Inductive RLError :=
| AvailableTokensTooHigh
| MaxTokensTooLow
| RefillAmountTooHigh
| RefillIntervalTooLong.

Record Parameters := mkParameters {
  capacity : Z;
  refill_amount : Z;
  refill_interval : Z;
}.

Record Ratelimiter := mkRatelimiter {
  available : Z;
  dropped : Z;
  parameters : Parameters;
  refill_at : Z;
}.

Record Builder := mkBuilder {
  b_initial_available : Z;
  b_max_tokens : Z;
  b_refill_amount : Z;
  b_refill_interval : Z;
}.

Definition builder_new (amount interval : Z) : Builder := mkBuilder 0 1 amount interval.
Definition with_max_tokens (b : Builder) (tokens : Z) : Builder :=
  mkBuilder (b_initial_available b) tokens (b_refill_amount b) (b_refill_interval b).
Definition with_initial_available (b : Builder) (tokens : Z) : Builder :=
  mkBuilder tokens (b_max_tokens b) (b_refill_amount b) (b_refill_interval b).

(** [Builder::build]; [now] is [Instant::now()]. *)
Definition build (b : Builder) (now : Z) : result Ratelimiter RLError :=
  if b_max_tokens b <? b_refill_amount b then Err MaxTokensTooLow
  else if u64_max <? b_refill_interval b then Err RefillIntervalTooLong
  else Ok (mkRatelimiter (b_initial_available b) 0
             (mkParameters (b_max_tokens b) (b_refill_amount b) (b_refill_interval b))
             (wrap64 (now + b_refill_interval b))).

Inductive RateLimitType := Requests | Tokens.
#[global] Instance RateLimitType_eq_dec : EqDecision RateLimitType.
Proof. solve_decision. Defined.

Record RateLimitSpec := mkSpec {
  max_tokens : Z;
  tokens_per_fill : Z;
  fill_interval : Z;
  limit_type : RateLimitType;
}.

Record RateLimit := mkRateLimit { ratelimit : Ratelimiter; spec : RateLimitSpec }.

(** [TryFrom<RateLimitSpec>]. *)
Definition try_from (value : RateLimitSpec) (now : Z) : result RateLimit RLError :=
  match build (with_max_tokens
                 (with_initial_available
                    (builder_new (tokens_per_fill value) (fill_interval value))
                    (max_tokens value))
                 (max_tokens value)) now with
  | Ok rl => Ok (mkRateLimit rl value)
  | Err e => Err e
  end.

(** ** Uninterrupted calls *)

Definition set_available (a : Z) (rl : Ratelimiter) : Ratelimiter :=
  mkRatelimiter a (dropped rl) (parameters rl) (refill_at rl).
Definition set_refill_at (t : Z) (rl : Ratelimiter) : Ratelimiter :=
  mkRatelimiter (available rl) (dropped rl) (parameters rl) t.
Definition set_dropped (d : Z) (rl : Ratelimiter) : Ratelimiter :=
  mkRatelimiter (available rl) d (parameters rl) (refill_at rl).

(** Elapsed intervals at [time], and the refill time that follows. *)
Definition intervals_at (p : Parameters) (time at_ : Z) : Z :=
  wrap64 ((time - at_) / refill_interval p + 1).
Definition next_refill_at (p : Parameters) (time at_ : Z) : Z :=
  wrap64 (at_ + wrap64 (intervals_at p time at_ * refill_interval p)).

(** [refill]: [Err] is the time to the next refill; a zero interval divides
    by zero. *)
Definition refill (time : Z) (rl : Ratelimiter) : outcome (Ratelimiter * result () Z) :=
  let p := parameters rl in
  if time <? refill_at rl then Ret (rl, Err (refill_at rl - time))
  else if refill_interval p =? 0 then Panic
  else
    let amount := wrap64 (intervals_at p time (refill_at rl) * refill_amount p) in
    let rl := set_refill_at (next_refill_at p time (refill_at rl)) rl in
    if capacity p <=? wrap64 (available rl + amount) then
      let to_add := wrap64 (capacity p - available rl) in
      Ret (set_dropped (wrap64 (dropped rl + wrap64 (amount - to_add)))
             (set_available (wrap64 (available rl + to_add)) rl), Ok ())
    else Ret (set_available (wrap64 (available rl + amount)) rl, Ok ()).

Definition WaitError : Type := Z * Z * Z.

(** The loop of [try_wait_n], one clock reading per round; [None] when the
    readings run out before it returns. *)
Fixpoint wait_loop (n : Z) (clock : list Z) (rl : Ratelimiter)
    : outcome (option (Ratelimiter * result () WaitError)) :=
  match clock with
  | [] => Ret None
  | now :: clock' =>
      '(rl, refill_result) ← refill now rl;
      if available rl <? n then
        match refill_result with
        | Ok _ => wait_loop n clock' rl
        | Err e => Ret (Some (rl, Err (capacity (parameters rl), available rl, e)))
        end
      else Ret (Some (set_available (available rl - n) rl, Ok ()))
  end.

Definition try_wait_n (n : Z) (clock : list Z) (rl : Ratelimiter)
    : outcome (option (Ratelimiter * result () WaitError)) :=
  if (n =? 0) || (capacity (parameters rl) <? n)
  then Ret (Some (rl, Err (capacity (parameters rl), available rl, 0)))
  else wait_loop n clock rl.

Definition try_wait (clock : list Z) (rl : Ratelimiter) := try_wait_n 1 clock rl.

Definition available_refill (now : Z) (rl : Ratelimiter) : outcome (Ratelimiter * Z) :=
  '(rl, _) ← refill now rl; Ret (rl, available rl).

(** [Ratelimiter::amend_tokens] on an [i64]. *)
Definition amend_value (tokens_to_remove v : Z) : Z :=
  if tokens_to_remove <? 0 then u64_saturating_add v (Z.abs tokens_to_remove)
  else u64_saturating_sub v (Z.abs tokens_to_remove).

Definition amend_tokens (tokens_to_remove : Z) (rl : Ratelimiter) : Ratelimiter :=
  if tokens_to_remove =? 0 then rl
  else set_available (amend_value tokens_to_remove (available rl)) rl.

(** *** [RateLimit] *)

Inductive ProxyError := RateLimitExceeded (limit remaining reset_seconds : Z).

Definition as_secs (nanos : Z) : Z := nanos / 1000000000.

Definition wait_result (lim : RateLimit) (r : option (Ratelimiter * result () WaitError))
    : option (RateLimit * result () ProxyError) :=
  match r with
  | None => None
  | Some (rl, Ok _) => Some (mkRateLimit rl (spec lim), Ok ())
  | Some (rl, Err (limit, remaining, reset)) =>
      Some (mkRateLimit rl (spec lim), Err (RateLimitExceeded limit remaining (as_secs reset)))
  end.

Definition check_request (clock : list Z) (lim : RateLimit)
    : outcome (option (RateLimit * result () ProxyError)) :=
  if decide (limit_type (spec lim) = Requests)
  then wait_result lim <$> try_wait clock (ratelimit lim)
  else Ret (Some (lim, Ok ())).

(** [check_llm_request]; [input_tokens] is the tokenizer's count, and the
    readings of the clock are those the branch takes. *)
Definition check_llm_request (input_tokens : option Z) (clock : list Z) (lim : RateLimit)
    : outcome (option (RateLimit * result () ProxyError)) :=
  if decide (limit_type (spec lim) = Tokens) then
    match input_tokens with
    | Some it => wait_result lim <$> try_wait_n it clock (ratelimit lim)
    | None =>
        match clock with
        | now :: clock' =>
            '(rl, avail) ← available_refill now (ratelimit lim);
            if 0 <? avail then Ret (Some (mkRateLimit rl (spec lim), Ok ()))
            else
              match clock' with
              | now' :: _ =>
                  Ret (Some (mkRateLimit rl (spec lim),
                    Err (RateLimitExceeded (capacity (parameters rl)) avail
                           (as_secs (wrap64 (refill_at rl - now'))))))
              | [] => Ret None
              end
        | [] => Ret None
        end
    end
  else Ret (Some (lim, Ok ())).

(** [Vec<RateLimit>::apply]: every limit in order, stopping at the first
    refusal. *)
Fixpoint check_all (lims : list RateLimit) (clocks : list (list Z))
    : outcome (option (list RateLimit * result () ProxyError)) :=
  match lims, clocks with
  | [], _ => Ret (Some ([], Ok ()))
  | _ :: _, [] => Ret None
  | l :: lims', c :: clocks' =>
      r ← check_request c l;
      match r with
      | None => Ret None
      | Some (l', Err e) => Ret (Some (l' :: lims', Err e))
      | Some (l', Ok _) =>
          r' ← check_all lims' clocks';
          match r' with
          | None => Ret None
          | Some (ls, res) => Ret (Some (l' :: ls, res))
          end
      end
  end.

(** [llm::amend_tokens]: what a response adds to the cost of its request. *)
Definition tokens_to_remove (req_input resp_input output : option Z) : Z :=
  let input_mismatch :=
    match req_input, resp_input with
    | Some req, Some resp => wrap_i64 (wrap_i64 resp - wrap_i64 req)
    | _, None => 0
    | None, Some resp => wrap_i64 resp
    end in
  wrap_i64 (input_mismatch + wrap_i64 (default 0 output)).

Definition amend_limits (req_input resp_input output : option Z) (lims : list RateLimit) : list RateLimit :=
  (λ l, mkRateLimit (amend_tokens (tokens_to_remove req_input resp_input output) (ratelimit l)) (spec l))
    <$> lims.

(** ** Uninterrupted behaviour *)

(** A bucket as [try_from] builds it and every call leaves it. *)
Record bucket_ok (rl : Ratelimiter) : Prop := {
  bk_available : 0 ≤ available rl ≤ capacity (parameters rl);
  bk_capacity : capacity (parameters rl) ≤ u64_max;
  bk_amount : 0 ≤ refill_amount (parameters rl) ≤ capacity (parameters rl);
  bk_interval : 0 < refill_interval (parameters rl);
  bk_refill_at : 0 ≤ refill_at rl;
}.

(** At [time] no counter can overflow: neither the next refill time nor the
    tokens accumulated since the epoch. *)
Definition in_range (p : Parameters) (time : Z) : Prop :=
  0 ≤ time ∧ time + refill_interval p ≤ u64_max ∧
  capacity p + (time / refill_interval p + 1) * refill_amount p ≤ u64_max.

(** Intervals elapsed at [time], counting the one that starts it. *)
Definition elapsed (rl : Ratelimiter) (time : Z) : Z :=
  (time - refill_at rl) / refill_interval (parameters rl) + 1.

(** The bucket after a due refill, in mathematical integers. *)
Definition refilled (rl : Ratelimiter) (time : Z) : Ratelimiter :=
  let p := parameters rl in
  let k := elapsed rl time in
  let total := available rl + k * refill_amount p in
  mkRatelimiter (Z.min (capacity p) total)
    (if capacity p <=? total then wrap64 (dropped rl + (total - capacity p)) else dropped rl)
    p (refill_at rl + k * refill_interval p).

Lemma elapsed_bounds rl time :
  bucket_ok rl → refill_at rl ≤ time →
  1 ≤ elapsed rl time ≤ time / refill_interval (parameters rl) + 1 ∧
  time < refill_at rl + elapsed rl time * refill_interval (parameters rl)
       ≤ time + refill_interval (parameters rl).
Proof.
  intros [_ _ _ Hi Ha] Ht. unfold elapsed. set (i := refill_interval (parameters rl)) in *.
  pose proof (Z.div_pos (time - refill_at rl) i). pose proof (Z.mod_pos_bound (time - refill_at rl) i).
  pose proof (Z.div_mod (time - refill_at rl) i).
  pose proof (Z.div_le_mono (time - refill_at rl) time i). nia.
Qed.

Lemma refill_early rl time :
  time < refill_at rl → refill time rl = Ret (rl, Err (refill_at rl - time)).
Proof. intros H. unfold refill. by rewrite (proj2 (Z.ltb_lt _ _) H). Qed.

Lemma refill_due rl time :
  bucket_ok rl → in_range (parameters rl) time → refill_at rl ≤ time →
  refill time rl = Ret (refilled rl time, Ok ()).
Proof.
  intros Hb (Ht0 & Hr1 & Hr2) Hat. destruct (elapsed_bounds rl time Hb Hat) as [Hk Hnext].
  destruct Hb as [Hav Hcap Ham Hi Hra]. unfold refill, refilled, next_refill_at, intervals_at.
  fold (elapsed rl time). set (k := elapsed rl time) in *. set (p := parameters rl) in *.
  assert (0 <= time / refill_interval p) by (apply Z.div_pos; lia).
  assert (time / refill_interval p <= time) by (apply Z.div_le_upper_bound; nia).
  rewrite (proj2 (Z.ltb_ge _ _) Hat), (proj2 (Z.eqb_neq (refill_interval p) 0)) by lia.
  rewrite (wrap64_id k) by (unfold u64_ok; lia).
  rewrite (wrap64_id (k * refill_interval p)) by (unfold u64_ok; nia).
  rewrite (wrap64_id (refill_at rl + _)) by (unfold u64_ok; nia).
  assert (0 <= k * refill_amount p <= u64_max - capacity p) by nia.
  rewrite (wrap64_id (k * refill_amount p)) by (unfold u64_ok; nia).
  cbn [available set_refill_at set_available set_dropped].
  rewrite (wrap64_id (available rl + k * refill_amount p)) by (unfold u64_ok; lia).
  destruct (capacity p <=? available rl + k * refill_amount p) eqn:E; to_prop.
  - rewrite (wrap64_id (capacity p - available rl)) by (unfold u64_ok; lia).
    rewrite (wrap64_id (available rl + _)) by (unfold u64_ok; lia).
    rewrite (wrap64_id (k * refill_amount p - _)) by (unfold u64_ok; lia).
    unfold set_dropped, set_available, set_refill_at; simpl. do 3 f_equal; [lia|]. f_equal. lia.
  - unfold set_available, set_refill_at; simpl. do 3 f_equal. lia.
Qed.

Lemma refilled_ok rl time :
  bucket_ok rl → refill_at rl ≤ time → bucket_ok (refilled rl time).
Proof.
  intros Hb Hat. destruct (elapsed_bounds rl time Hb Hat) as [Hk Hn].
  destruct Hb as [Hav Hcap Ham Hi Hra]. split; simpl; nia.
Qed.

(** One round of [try_wait_n]: the bucket it leaves and whether time moved. *)
Lemma refill_cases rl now :
  bucket_ok rl → in_range (parameters rl) now →
  (now < refill_at rl ∧ refill now rl = Ret (rl, Err (refill_at rl - now))) ∨
  (refill_at rl ≤ now ∧ refill now rl = Ret (refilled rl now, Ok ())).
Proof.
  intros Hb Hr. destruct (Z_lt_le_dec now (refill_at rl)) as [H|H].
  - left. split; [done|]. by apply refill_early.
  - right. split; [done|]. by apply refill_due.
Qed.

Lemma refilled_params rl now : parameters (refilled rl now) = parameters rl.
Proof. done. Qed.

Lemma take_ok n rl :
  bucket_ok rl → 0 ≤ n ≤ available rl → bucket_ok (set_available (available rl - n) rl).
Proof. intros [] ?. split; simpl; lia. Qed.

(** A due refill of a bucket short of [n] adds at least one token towards it. *)
Lemma refilled_progress rl now n :
  bucket_ok rl → 1 ≤ refill_amount (parameters rl) → refill_at rl ≤ now →
  available rl < n ≤ capacity (parameters rl) → available rl < available (refilled rl now).
Proof.
  intros Hb Ha Hat Hn. destruct (elapsed_bounds rl now Hb Hat) as [Hk _]. destruct Hb. simpl. nia.
Qed.

(** What the caller learns: on refusal the bucket really is short of [n],
    and the error reports its state; on success [n] more tokens would have
    fitted. *)
Definition wait_post (n : Z) (rl' : Ratelimiter) (r : result () WaitError) : Prop :=
  match r with
  | Ok _ => available rl' + n ≤ capacity (parameters rl')
  | Err (limit, remaining, _) =>
      limit = capacity (parameters rl') ∧ remaining = available rl' ∧ remaining < n
  end.

Lemma take_post n rl :
  bucket_ok rl → wait_post n (set_available (available rl - n) rl) (Ok ()).
Proof. intros []. simpl. lia. Qed.

Lemma wait_loop_returns n clock rl :
  bucket_ok rl → 1 ≤ refill_amount (parameters rl) → 0 < n ≤ capacity (parameters rl) →
  Forall (in_range (parameters rl)) clock → (Z.to_nat (n - available rl) < length clock)%nat →
  ∃ rl' r, wait_loop n clock rl = Ret (Some (rl', r)) ∧ bucket_ok rl' ∧ wait_post n rl' r.
Proof.
  revert rl. induction clock as [|now clock IH]; intros rl Hb Ha Hn Hc Hlen; [simpl in Hlen; lia|].
  apply Forall_cons in Hc as [Hr Hc]. simpl.
  destruct (refill_cases rl now Hb Hr) as [[Ht ->]|[Ht ->]]; simpl.
  - destruct (available rl <? n) eqn:E; to_prop; [by eexists _, _|].
    eexists _, _. split; [done|]. split; [apply take_ok; [done|lia]|by apply take_post].
  - pose proof (refilled_ok rl now Hb Ht) as Hb'.
    change (Z.min (capacity (parameters rl))
      (available rl + elapsed rl now * refill_amount (parameters rl))) with (available (refilled rl now)).
    destruct (available (refilled rl now) <? n) eqn:E; to_prop.
    + apply IH; try done. simpl in Hlen. destruct (Z_lt_le_dec (available rl) n).
      * pose proof (refilled_progress rl now n Hb Ha Ht). lia.
      * destruct (elapsed_bounds rl now Hb Ht). destruct Hb. simpl in E. nia.
    + eexists _, _. split; [done|].
      split; [apply (take_ok n (refilled rl now)); [done|lia]|by apply (take_post n (refilled rl now))].
Qed.

(** *** Accounting *)

(** After [g] tokens were handed out by a bucket that held [init] at [t0]:
    [j] refills have happened, none after [T], and every token handed out or
    still held was there at the start or came from one of them. *)
Definition accounted (t0 T init : Z) (rl : Ratelimiter) (g : Z) : Prop :=
  ∃ j, 0 ≤ j ∧ refill_at rl = t0 + refill_interval (parameters rl) * (j + 1) ∧
       t0 + refill_interval (parameters rl) * j ≤ T ∧
       available rl + g ≤ init + refill_amount (parameters rl) * j.

Lemma refilled_accounted t0 T init rl g now :
  bucket_ok rl → refill_at rl ≤ now → now ≤ T → accounted t0 T init rl g →
  accounted t0 T init (refilled rl now) g.
Proof.
  intros Hb Hat HT (j & Hj & Hat' & HjT & Hg).
  destruct (elapsed_bounds rl now Hb Hat) as [Hk Hn].
  exists (j + elapsed rl now). simpl. set (p := parameters rl) in *. destruct Hb.
  repeat split; [lia|nia|nia|]. fold p in Hg. nia.
Qed.

Lemma wait_loop_accounted t0 T init n clock rl rl' r g :
  bucket_ok rl → 0 < n → Forall (in_range (parameters rl)) clock → Forall (λ t, t ≤ T) clock →
  accounted t0 T init rl g → wait_loop n clock rl = Ret (Some (rl', r)) →
  parameters rl' = parameters rl ∧ bucket_ok rl' ∧
  accounted t0 T init rl' (g + match r with Ok _ => n | Err _ => 0 end).
Proof.
  revert rl. induction clock as [|now clock IH]; intros rl Hb Hn Hc HT Hacc; simpl; [done|].
  apply Forall_cons in Hc as [Hr Hc], HT as [HT1 HT].
  assert (∀ b, bucket_ok b → n ≤ available b → accounted t0 T init b g →
    bucket_ok (set_available (available b - n) b) ∧
    accounted t0 T init (set_available (available b - n) b) (g + n)) as Htake.
  { intros b Hbb Hav (j & ? & ? & ? & ?). split; [apply take_ok; [done|lia]|].
    exists j. simpl. repeat split; try done; lia. }
  destruct (refill_cases rl now Hb Hr) as [[Ht ->]|[Ht ->]]; simpl.
  - destruct (available rl <? n) eqn:E; to_prop; intros [= <- <-].
    + rewrite Z.add_0_r. done.
    + split; [done|]. by apply Htake.
  - pose proof (refilled_ok rl now Hb Ht) as Hb'.
    pose proof (refilled_accounted _ _ _ _ _ _ Hb Ht HT1 Hacc) as Hacc'.
    change (Z.min (capacity (parameters rl))
      (available rl + elapsed rl now * refill_amount (parameters rl))) with (available (refilled rl now)).
    destruct (available (refilled rl now) <? n) eqn:E; to_prop.
    + intros Hw. by apply IH in Hw.
    + intros [= <- <-]. split; [done|]. exact (Htake (refilled rl now) Hb' E Hacc').
Qed.

(** A sequence of [try_wait_n] calls, each with its clock readings, and the
    tokens granted in total. *)
Fixpoint serve (calls : list (Z * list Z)) (rl : Ratelimiter) : outcome (option (Ratelimiter * Z)) :=
  match calls with
  | [] => Ret (Some (rl, 0))
  | (n, clock) :: calls' =>
      r ← try_wait_n n clock rl;
      match r with
      | None => Ret None
      | Some (rl', res) =>
          r' ← serve calls' rl';
          match r' with
          | None => Ret None
          | Some (rl'', g) => Ret (Some (rl'', match res with Ok _ => n | Err _ => 0 end + g))
          end
      end
  end.

Lemma serve_accounted t0 T init calls rl rl' g g0 :
  bucket_ok rl →
  Forall (λ c : Z * list Z, 0 ≤ c.1 ∧ Forall (in_range (parameters rl)) c.2 ∧ Forall (λ t, t ≤ T) c.2) calls →
  accounted t0 T init rl g0 → serve calls rl = Ret (Some (rl', g)) →
  parameters rl' = parameters rl ∧ bucket_ok rl' ∧ accounted t0 T init rl' (g0 + g).
Proof.
  revert rl g g0. induction calls as [|[n clock] calls IH]; intros rl g g0 Hb Hc Hacc; simpl.
  { intros [= <- <-]. by rewrite Z.add_0_r. }
  apply Forall_cons in Hc as [(Hn & Hr & HT) Hc]. simpl in *.
  intros (o & Ho & H)%bind_Ret_inv. destruct o as [[rl1 res]|]; [|done].
  apply bind_Ret_inv in H as (o' & Ho' & H). destruct o' as [[rl2 g']|]; [|done]. simplify_eq.
  assert (parameters rl1 = parameters rl ∧ bucket_ok rl1 ∧
    accounted t0 T init rl1 (g0 + match res with Ok _ => n | Err _ => 0 end)) as (Hp & Hb1 & Hacc1).
  { unfold try_wait_n in Ho. destruct ((n =? 0) || _) eqn:E.
    - simplify_eq. by rewrite Z.add_0_r.
    - to_prop. eapply wait_loop_accounted; [done| |done..]. lia. }
  rewrite <-Hp in Hc. destruct (IH rl1 g' _ Hb1 Hc Hacc1 Ho') as (Hp' & Hb' & Hacc').
  split; [congruence|]. split; [done|]. by rewrite Z.add_assoc.
Qed.

(** ** Interleaved calls *)

(** What follows a refill: the acquisition of [try_wait_n], or the load of
    [available_refill]. *)
Inductive cont := KWait (n : Z) | KAvail.

Inductive ret :=
| RWait (r : result () WaitError)
| RAvail (a : Z)
| RUnit.

(** Where a caller is, between two atomic operations. *)
Inductive pc :=
| WaitStart (n : Z)
| Now (k : cont)
| RefillLoad (k : cont) (time : Z)
| RefillCas (k : cont) (time at_ : Z)
| LoadAvail (k : cont) (amount : Z)
| AddAll (k : cont) (amount : Z)
| AddPart (k : cont) (amount to_add : Z)
| AddDropped (k : cont) (amount to_add : Z)
| AcqLoad (n : Z) (r : result () Z)
| AcqCas (n : Z) (r : result () Z) (avail : Z)
| AvailLoad
| Amend (t : Z)
| Done (r : ret).

Definition after_refill (k : cont) (r : result () Z) : pc :=
  match k with KWait n => AcqLoad n r | KAvail => AvailLoad end.

(** One atomic operation of a caller; [now] is the clock should it read it. *)
Definition step (now : Z) (rl : Ratelimiter) (c : pc) : outcome (Ratelimiter * pc) :=
  let p := parameters rl in
  match c with
  | WaitStart n =>
      if (n =? 0) || (capacity p <? n)
      then Ret (rl, Done (RWait (Err (capacity p, available rl, 0))))
      else Ret (rl, Now (KWait n))
  | Now k => Ret (rl, RefillLoad k now)
  | RefillLoad k time =>
      if time <? refill_at rl then Ret (rl, after_refill k (Err (refill_at rl - time)))
      else if refill_interval p =? 0 then Panic
      else Ret (rl, RefillCas k time (refill_at rl))
  | RefillCas k time at_ =>
      if refill_at rl =? at_
      then Ret (set_refill_at (next_refill_at p time at_) rl,
                LoadAvail k (wrap64 (intervals_at p time at_ * refill_amount p)))
      else Ret (rl, RefillLoad k time)
  | LoadAvail k amount =>
      if capacity p <=? wrap64 (available rl + amount)
      then Ret (rl, AddPart k amount (wrap64 (capacity p - available rl)))
      else Ret (rl, AddAll k amount)
  | AddAll k amount =>
      Ret (set_available (wrap64 (available rl + amount)) rl, after_refill k (Ok ()))
  | AddPart k amount to_add =>
      Ret (set_available (wrap64 (available rl + to_add)) rl, AddDropped k amount to_add)
  | AddDropped k amount to_add =>
      Ret (set_dropped (wrap64 (dropped rl + wrap64 (amount - to_add))) rl, after_refill k (Ok ()))
  | AcqLoad n r =>
      if available rl <? n
      then match r with
           | Ok _ => Ret (rl, Now (KWait n))
           | Err e => Ret (rl, Done (RWait (Err (capacity p, available rl, e))))
           end
      else Ret (rl, AcqCas n r (available rl))
  | AcqCas n r avail =>
      if available rl =? avail
      then Ret (set_available (avail - n) rl, Done (RWait (Ok ())))
      else Ret (rl, AcqLoad n r)
  | AvailLoad => Ret (rl, Done (RAvail (available rl)))
  | Amend t => Ret (amend_tokens t rl, Done RUnit)
  | Done r => Ret (rl, Done r)
  end.

Record Sys := mkSys { limiter : Ratelimiter; threads : list pc }.

(** The scheduler runs one operation of thread [i] at clock [now]. *)
Definition sys_step (ev : nat * Z) (s : Sys) : outcome Sys :=
  match threads s !! ev.1 with
  | None => Ret s
  | Some c =>
      '(rl, c') ← step ev.2 (limiter s) c;
      Ret (mkSys rl (<[ev.1 := c']> (threads s)))
  end.

Fixpoint run (schedule : list (nat * Z)) (s : Sys) : outcome Sys :=
  match schedule with
  | [] => Ret s
  | ev :: schedule' => s' ← sys_step ev s; run schedule' s'
  end.

(** *** Token accounting modulo [2^64] *)

Definition eqm (a b : Z) : Prop := (2 ^ 64 | a - b).

#[global] Instance eqm_equiv : Equivalence eqm.
Proof.
  split; unfold eqm.
  - intros a. rewrite Z.sub_diag. apply Z.divide_0_r.
  - intros a b H. replace (b - a) with (- (a - b)) by lia. by apply Z.divide_opp_r.
  - intros a b c H1 H2. replace (a - c) with ((a - b) + (b - c)) by lia. by apply Z.divide_add_r.
Qed.

#[global] Instance eqm_add : Proper (eqm ==> eqm ==> eqm) Z.add.
Proof.
  intros a a' Ha b b' Hb. unfold eqm in *. replace (a + b - (a' + b')) with ((a - a') + (b - b')) by lia.
  by apply Z.divide_add_r.
Qed.

#[global] Instance eqm_sub : Proper (eqm ==> eqm ==> eqm) Z.sub.
Proof.
  intros a a' Ha b b' Hb. unfold eqm in *. replace (a - b - (a' - b')) with ((a - a') - (b - b')) by lia.
  by apply Z.divide_sub_r.
Qed.

Lemma eqm_wrap z : eqm (wrap64 z) z.
Proof.
  unfold eqm, wrap64. exists (- (z / 2 ^ 64)). pose proof (Z.div_mod z (2 ^ 64)). lia.
Qed.

Lemma eqm_range a b : eqm a b → u64_ok a → u64_ok b → a = b.
Proof.
  unfold eqm, u64_ok, u64_max. intros [k Hk] Ha Hb. assert (k = 0) by nia. lia.
Qed.

(** Tokens of a started refill that are in neither counter yet. *)
Definition in_flight (c : pc) : Z :=
  match c with
  | LoadAvail _ amount | AddAll _ amount | AddPart _ amount _ => amount
  | AddDropped _ amount to_add => amount - to_add
  | _ => 0
  end.

(** Tokens a step hands to its caller, takes by an amendment, and brings in
    by a refill. *)
Definition step_granted (c c' : pc) : Z :=
  match c, c' with AcqCas n _ _, Done (RWait (Ok _)) => n | _, _ => 0 end.
Definition step_amended (rl : Ratelimiter) (c : pc) : Z :=
  match c with Amend t => available rl - available (amend_tokens t rl) | _ => 0 end.
Definition step_issued (c c' : pc) : Z :=
  match c, c' with RefillCas _ _ _, LoadAvail _ amount => amount | _, _ => 0 end.

Definition held (rl : Ratelimiter) : Z := available rl + dropped rl.

Lemma step_conserves now rl c rl' c' :
  step now rl c = Ret (rl', c') →
  eqm (held rl' + in_flight c' + step_granted c c' + step_amended rl c)
      (held rl + in_flight c + step_issued c c').
Proof.
  assert (∀ k r, in_flight (after_refill k r) = 0) as Hk by (by intros []).
  assert (∀ t, dropped (amend_tokens t rl) = dropped rl) as Hd
    by (intros t; unfold amend_tokens; by case_match).
  unfold held. destruct c; simpl; intros H; simplify_eq/=;
    repeat (case_match; simplify_eq/=); rewrite ?Hk, ?Hd, ?eqm_wrap; to_prop; subst;
    match goal with |- eqm ?a ?b => replace a with b by lia end; done.
Qed.

(** A run with its ledger: tokens granted, amended and issued. *)
Record Ledger := mkLedger { granted : Z; amended : Z; issued : Z }.

Definition ledger_add (l : Ledger) (rl : Ratelimiter) (c c' : pc) : Ledger :=
  mkLedger (granted l + step_granted c c') (amended l + step_amended rl c) (issued l + step_issued c c').

Fixpoint run_ledger (schedule : list (nat * Z)) (s : Sys) (l : Ledger) : outcome (Sys * Ledger) :=
  match schedule with
  | [] => Ret (s, l)
  | (i, now) :: schedule' =>
      match threads s !! i with
      | None => run_ledger schedule' s l
      | Some c =>
          '(rl, c') ← step now (limiter s) c;
          run_ledger schedule' (mkSys rl (<[i := c']> (threads s))) (ledger_add l (limiter s) c c')
      end
  end.

Definition all_in_flight (cs : list pc) : Z := foldr (λ c acc, in_flight c + acc) 0 cs.

Lemma all_in_flight_insert cs i c c' :
  cs !! i = Some c → all_in_flight (<[i := c']> cs) = all_in_flight cs + in_flight c' - in_flight c.
Proof.
  revert i. induction cs as [|d cs IH]; intros [|i] H; simplify_eq/=; [lia|]. rewrite (IH _ H). lia.
Qed.

Lemma run_ledger_run schedule s l :
  (λ r, r.1) <$> run_ledger schedule s l = run schedule s.
Proof.
  revert s l. induction schedule as [|[i now] sch IH]; intros s l; simpl; [done|].
  unfold sys_step. simpl. destruct (threads s !! i) as [c|]; simpl; [|apply IH].
  destruct (step now (limiter s) c) as [[rl c']|]; simpl; [apply IH|done].
Qed.

Lemma run_ledger_conserves schedule s l s' l' :
  run_ledger schedule s l = Ret (s', l') →
  eqm (held (limiter s') + all_in_flight (threads s') + (granted l' - granted l) + (amended l' - amended l))
      (held (limiter s) + all_in_flight (threads s) + (issued l' - issued l)).
Proof.
  revert s l. induction schedule as [|[i now] sch IH]; intros s l; simpl.
  { intros [= <- <-]. match goal with |- eqm ?a ?b => replace a with b by lia end. done. }
  destruct (threads s !! i) as [c|] eqn:Ec; [|apply IH].
  intros ([rl c'] & Hst & Hrun)%bind_Ret_inv. apply IH in Hrun. simpl in Hrun.
  rewrite (all_in_flight_insert _ _ _ _ Ec) in Hrun.
  pose proof (step_conserves _ _ _ _ _ Hst) as Hs.
  unfold eqm in *. destruct Hrun as [a Ha], Hs as [b Hb]. exists (a + b). lia.
Qed.

(** *** A caller alone *)

Lemma run_app l1 l2 s s1 : run l1 s = Ret s1 → run (l1 ++ l2) s = run l2 s1.
Proof.
  revert s. induction l1 as [|ev l1 IH]; intros s; simpl; [by intros [= ->]|].
  intros (s2 & -> & H)%bind_Ret_inv. simpl. by apply IH.
Qed.

Lemma run_one now rl c rl' c' schedule :
  step now rl c = Ret (rl', c') →
  run ((0%nat, now) :: schedule) (mkSys rl [c]) = run schedule (mkSys rl' [c']).
Proof. intros H. simpl. unfold sys_step. simpl. by rewrite H. Qed.

Lemma refill_alone now rl rl' r k :
  refill now rl = Ret (rl', r) →
  ∃ sch, run sch (mkSys rl [Now k]) = Ret (mkSys rl' [after_refill k r]).
Proof.
  unfold refill. destruct (now <? refill_at rl) eqn:E1.
  { intros [= <- <-]. exists [(0%nat, now); (0%nat, now)].
    rewrite (run_one _ _ _ rl (RefillLoad k now)) by done.
    rewrite (run_one _ _ _ rl (after_refill k (Err (refill_at rl - now)))); [done|]. simpl. by rewrite E1. }
  destruct (refill_interval (parameters rl) =? 0) eqn:E2; [done|].
  set (amount := wrap64 (intervals_at _ _ _ * _)). cbv zeta. set (rl1 := set_refill_at _ rl).
  assert (∃ sch, run sch (mkSys rl [Now k]) = Ret (mkSys rl1 [LoadAvail k amount])) as [sch Hsch].
  { exists [(0%nat, now); (0%nat, now); (0%nat, now)].
    rewrite (run_one _ _ _ rl (RefillLoad k now)) by done.
    rewrite (run_one _ _ _ rl (RefillCas k now (refill_at rl))) by (simpl; by rewrite E1, E2).
    rewrite (run_one _ _ _ rl1 (LoadAvail k amount)); [done|]. simpl. by rewrite Z.eqb_refl. }
  destruct (capacity (parameters rl) <=? wrap64 (available rl1 + amount)) eqn:E3; intros [= <- <-].
  - exists (sch ++ [(0%nat, now); (0%nat, now); (0%nat, now)]). rewrite (run_app _ _ _ _ Hsch).
    set (ta := wrap64 (capacity (parameters rl) - available rl1)).
    rewrite (run_one _ _ _ rl1 (AddPart k amount ta)) by (unfold step; change (parameters rl1) with (parameters rl); cbv zeta; by rewrite E3).
    rewrite (run_one _ _ _ (set_available (wrap64 (available rl1 + ta)) rl1) (AddDropped k amount ta)) by done.
    by erewrite run_one.
  - exists (sch ++ [(0%nat, now); (0%nat, now)]). rewrite (run_app _ _ _ _ Hsch).
    rewrite (run_one _ _ _ rl1 (AddAll k amount)) by (unfold step; change (parameters rl1) with (parameters rl); cbv zeta; by rewrite E3).
    by erewrite run_one.
Qed.

Lemma wait_loop_alone n clock rl rl' r :
  wait_loop n clock rl = Ret (Some (rl', r)) →
  ∃ sch, run sch (mkSys rl [Now (KWait n)]) = Ret (mkSys rl' [Done (RWait r)]).
Proof.
  revert rl. induction clock as [|now clock IH]; intros rl; simpl; [done|].
  intros ([rl1 res] & Href & H)%bind_Ret_inv.
  destruct (refill_alone now rl rl1 res (KWait n) Href) as [sch Hsch].
  destruct (available rl1 <? n) eqn:E.
  - destruct res as [[]|e].
    + destruct (IH _ H) as [sch' Hsch']. exists (sch ++ (0%nat, 0) :: sch').
      rewrite (run_app _ _ _ _ Hsch). erewrite run_one; [exact Hsch'|]. simpl. by rewrite E.
    + simplify_eq. exists (sch ++ [(0%nat, 0)]). rewrite (run_app _ _ _ _ Hsch).
      erewrite run_one; [done|]. simpl. by rewrite E.
  - simplify_eq. exists (sch ++ [(0%nat, 0); (0%nat, 0)]). rewrite (run_app _ _ _ _ Hsch).
    erewrite run_one; [|simpl; by rewrite E]. erewrite run_one; [done|]. simpl. by rewrite Z.eqb_refl.
Qed.

(** ** Claims *)

Lemma try_from_ok sp now lim :
  try_from sp now = Ok lim →
  0 ≤ tokens_per_fill sp → 0 < fill_interval sp → max_tokens sp ≤ u64_max → 0 ≤ now →
  bucket_ok (ratelimit lim) ∧ spec lim = sp ∧ available (ratelimit lim) = max_tokens sp ∧
  parameters (ratelimit lim) = mkParameters (max_tokens sp) (tokens_per_fill sp) (fill_interval sp) ∧
  refill_at (ratelimit lim) = wrap64 (now + fill_interval sp).
Proof.
  unfold try_from, build. simpl.
  destruct (max_tokens sp <? tokens_per_fill sp) eqn:E1; [done|].
  destruct (u64_max <? fill_interval sp) eqn:E2; [done|]. intros [= <-] ? ? ? ?. to_prop. simpl.
  pose proof (wrap64_ok (now + fill_interval sp)) as [? _].
  split; [|done]. split; simpl; lia.
Qed.

(** A due refill of an uninterrupted bucket is exact: every elapsed
    interval adds the refill amount up to the capacity, the excess is counted
    as dropped, and the next refill lies on the interval grid, after [time]
    and at most one interval away. The bucket stays within its bounds. A call
    before the refill time changes nothing and reports the remaining wait. *)
Theorem refill_exact rl time :
  bucket_ok rl → in_range (parameters rl) time →
  (time < refill_at rl → refill time rl = Ret (rl, Err (refill_at rl - time))) ∧
  (refill_at rl ≤ time →
     refill time rl = Ret (refilled rl time, Ok ()) ∧ bucket_ok (refilled rl time) ∧
     time < refill_at (refilled rl time) ≤ time + refill_interval (parameters rl)).
Proof.
  intros Hb Hr. split; [apply refill_early|]. intros Ht.
  split; [by apply refill_due|]. split; [by apply refilled_ok|].
  by apply (elapsed_bounds rl time).
Qed.

(** [try_wait_n] terminates: with a positive refill amount, [n] rounds
    after the first always suffice whatever the clock shows, since each round
    that does not return adds a token. The answer is right: a success takes
    [n] tokens that were there, a refusal leaves fewer than [n]. *)
Theorem try_wait_n_returns n clock rl :
  bucket_ok rl → 1 ≤ refill_amount (parameters rl) → 0 < n ≤ capacity (parameters rl) →
  Forall (in_range (parameters rl)) clock → (Z.to_nat n < length clock)%nat →
  ∃ rl' r, try_wait_n n clock rl = Ret (Some (rl', r)) ∧ bucket_ok rl' ∧ wait_post n rl' r.
Proof.
  intros Hb Ha Hn Hc Hl. unfold try_wait_n.
  rewrite (proj2 (Z.eqb_neq n 0)), (proj2 (Z.ltb_ge _ _)) by lia. simpl.
  apply wait_loop_returns; try done. destruct Hb. lia.
Qed.

(** C16. The rate limit holds: over any sequence of uninterrupted calls on a
    limiter built at [t0], with every clock reading at most [T], the tokens
    granted in total are at most the initial burst plus one refill amount per
    full interval between [t0] and [T]. *)
Theorem rate_bound sp t0 T lim calls rl' g :
  try_from sp t0 = Ok lim →
  0 ≤ tokens_per_fill sp → 0 < fill_interval sp → max_tokens sp ≤ u64_max → 0 ≤ t0 ≤ T →
  in_range (parameters (ratelimit lim)) T →
  Forall (λ c : Z * list Z, 0 ≤ c.1 ∧ Forall (λ t, 0 ≤ t ≤ T) c.2) calls →
  serve calls (ratelimit lim) = Ret (Some (rl', g)) →
  g ≤ max_tokens sp + tokens_per_fill sp * ((T - t0) / fill_interval sp).
Proof.
  intros Htry Ha Hi Hm Ht (Hr1 & Hr2 & Hr3) Hcalls Hserve.
  destruct (try_from_ok sp t0 lim) as (Hb & _ & Hav & Hp & Hat); [done..|lia|].
  rewrite Hp in *. simpl in *.
  assert (∀ t, 0 ≤ t ≤ T → in_range (parameters (ratelimit lim)) t) as Hin.
  { intros t Ht'. rewrite Hp. unfold in_range; simpl.
    pose proof (Z.div_le_mono t T (fill_interval sp)). split; [lia|]. split; [lia|]. nia. }
  destruct (serve_accounted t0 T (max_tokens sp) calls (ratelimit lim) rl' g 0)
    as (Hp' & Hb' & j & Hj & _ & HjT & Hg); [done| | |done|].
  - eapply Forall_impl; [exact Hcalls|]. simpl. intros [n c] [Hn Hc]; simpl in *.
    split; [done|]. split; (eapply Forall_impl; [exact Hc|]); simpl; [auto|lia].
  - exists 0. rewrite Hp, Hat, Hav. simpl. rewrite wrap64_id by (unfold u64_ok; lia). lia.
  - rewrite Hp', Hp in *. simpl in *.
    assert (j ≤ (T - t0) / fill_interval sp) by (apply Z.div_le_lower_bound; lia).
    destruct Hb' as [Hav' _ _ _ _]. nia.
Qed.

(** Tokens are conserved under every interleaving of any number of
    callers, modulo [2^64]: what the bucket holds, what was dropped, granted
    and amended away, and what a refill in progress still has to add, always
    equal the start plus the tokens issued by refills. *)
Theorem interleaved_conservation schedule s s' :
  run schedule s = Ret s' →
  ∃ l, run_ledger schedule s (mkLedger 0 0 0) = Ret (s', l) ∧
    eqm (held (limiter s') + all_in_flight (threads s') + granted l + amended l)
        (held (limiter s) + all_in_flight (threads s) + issued l).
Proof.
  intros H. rewrite <-(run_ledger_run _ _ (mkLedger 0 0 0)) in H.
  destruct (run_ledger schedule s _) as [[s1 l]|] eqn:E; simpl in H; [|done]. simplify_eq/=.
  exists l. split; [done|]. apply run_ledger_conserves in E. simpl in E.
  by rewrite !Z.sub_0_r in E.
Qed.

(** The interleaving model refines to the uninterrupted one: whenever
    [try_wait_n] returns, a caller running alone reaches the same bucket and
    the same answer by atomic steps. *)
Theorem alone_refines n clock rl rl' r :
  try_wait_n n clock rl = Ret (Some (rl', r)) →
  ∃ sch, run sch (mkSys rl [WaitStart n]) = Ret (mkSys rl' [Done (RWait r)]).
Proof.
  unfold try_wait_n. destruct ((n =? 0) || _) eqn:E.
  - intros [= <- <-]. exists [(0%nat, 0)]. erewrite run_one; [done|]. simpl. by rewrite E.
  - intros [sch Hsch]%wait_loop_alone. exists ((0%nat, 0) :: sch).
    erewrite run_one; [exact Hsch|]. simpl. by rewrite E.
Qed.

(** The schedule of the next claim: caller 0 drains the bucket; callers 1 and
    2 refill for two intervals, both having read an empty bucket; caller 3
    reads the overfull bucket in its refill; callers 4 and 5 drain it; caller
    3 adds its stale difference. *)
Definition race_threads : list pc :=
  [WaitStart 10; WaitStart 1; WaitStart 1; WaitStart 1; WaitStart 10; WaitStart 10].

Definition race_schedule : list (nat * Z) :=
  replicate 5 (0%nat, 1)
  ++ replicate 5 (1%nat, 1000) ++ replicate 5 (2%nat, 2000)
  ++ [(1%nat, 2000); (2%nat, 2000)]
  ++ replicate 5 (3%nat, 3000)
  ++ replicate 5 (4%nat, 3001) ++ replicate 5 (5%nat, 3001)
  ++ [(3%nat, 3001)].

(** Concurrent refills can push the bucket far beyond its capacity:
    [refill] computes the tokens to add from a load that is stale by the time
    of its [fetch_add]. From a fresh limiter of capacity 10, six callers of
    [try_wait_n] reach [2^64 - 10] available tokens, which disables the limit
    until the next refill. *)
Theorem concurrent_refill_overflow :
  ∃ lim s, try_from (mkSpec 10 10 1000 Requests) 0 = Ok lim ∧
    run race_schedule (mkSys (ratelimit lim) race_threads) = Ret s ∧
    capacity (parameters (limiter s)) = 10 ∧ available (limiter s) = 2 ^ 64 - 10.
Proof. eexists _, _. split; [reflexivity|]. split; [vm_compute; reflexivity|]. done. Qed.

(** A limiter with a zero fill interval is accepted and then panics: the
    builder does not check the interval, and the first request divides by
    it. *)
Theorem zero_interval_panics sp now later clock :
  fill_interval sp = 0 → limit_type sp = Requests →
  1 ≤ max_tokens sp → tokens_per_fill sp ≤ max_tokens sp → 0 ≤ now ≤ later → now ≤ u64_max →
  ∃ lim, try_from sp now = Ok lim ∧ check_request (later :: clock) lim = Panic.
Proof.
  intros Hz Hty Hm Ht Hn Hu. unfold try_from, build. simpl.
  rewrite (proj2 (Z.ltb_ge _ _)) by lia. rewrite Hz. simpl. rewrite Z.add_0_r.
  rewrite wrap64_id by (unfold u64_ok; lia). eexists. split; [done|].
  unfold check_request. simpl. rewrite decide_True by done. unfold try_wait, try_wait_n. simpl.
  rewrite (proj2 (Z.ltb_ge (max_tokens sp) 1)) by lia. simpl. unfold refill. simpl.
  by rewrite (proj2 (Z.ltb_ge later now)) by lia.
Qed.
