(* ===== verification/Cors.v ===== *)
(** * Cross-origin requests

    The CORS policy of [http/cors.rs]: configuration, origin parsing,
    wildcard matching of hosts and [Cors::apply].

    [HeaderName::from_str] and [Method::from_str] of the [http] crate are
    parameters of [cors_try_from]. *)
From stdpp Require Import base gmap strings list pretty.
From Stdlib Require Import Ascii ZArith.
From S2P Require Import Prelude RustStd Authorization AgentTypes RouteSet TcpRouteSet BindStore RouteSelect.

(** ** Configuration *)

Inductive WildcardOrList (T : Type) :=
| WNone
| WWildcard
| WList (l : list T).
Arguments WNone {T}.
Arguments WWildcard {T}.
Arguments WList {T} _.

(** [map(from_str).collect::<Result<_, _>>()]. *)
Fixpoint parse_all {T E} (from_str : string → result T E) (l : list string) : result (list T) E :=
  match l with
  | [] => Ok []
  | s :: l' =>
      match from_str s with
      | Err e => Err e
      | Ok v => match parse_all from_str l' with Err e => Err e | Ok vs => Ok (v :: vs) end
      end
  end.

Definition wol_try_from {T E} (from_str : string → result T E) (value : list string)
    : result (WildcardOrList T) E :=
  if bool_decide ("*"%string ∈ value) then Ok WWildcard
  else if bool_decide (value = []) then Ok WNone
  else match parse_all from_str value with Err e => Err e | Ok vec => Ok (WList vec) end.

(** [slice::join]. *)
Fixpoint join (sep : string) (l : list string) : string :=
  match l with
  | [] => ""
  | [s] => s
  | s :: l' => s +:+ sep +:+ join sep l'
  end.

Record Cors := mkCors {
  allow_credentials : bool;
  allow_headers : WildcardOrList string;
  allow_methods : WildcardOrList string;
  allow_origins : WildcardOrList string;
  expose_headers : WildcardOrList string;
  max_age : option string;
}.

(** [CorsSerde]; the age is in seconds. *)
Record CorsSerde := mkCorsSerde {
  cs_allow_credentials : bool;
  cs_allow_headers : list string;
  cs_allow_methods : list string;
  cs_allow_origins : list string;
  cs_expose_headers : list string;
  cs_max_age : option N;
}.

(** ** Origins *)

Inductive OriginScheme := Http | Https.
#[global] Instance OriginScheme_eq_dec : EqDecision OriginScheme.
Proof. solve_decision. Defined.

Definition origin_scheme_parse (value : string) : option OriginScheme :=
  if Str.eq_ignore_ascii_case value "http" then Some Http
  else if Str.eq_ignore_ascii_case value "https" then Some Https
  else None.

Definition default_port (s : OriginScheme) : Z :=
  match s with Http => 80 | Https => 443 end.

Record ParsedOrigin := mkOrigin { scheme : OriginScheme; host : string; oport : Z }.
#[global] Instance ParsedOrigin_eq_dec : EqDecision ParsedOrigin.
Proof. solve_decision. Defined.

(** [str::parse::<u16>] on a string of digits. *)
Definition parse_u16_digits (s : string) : option Z :=
  let v := Str.digits_value 0 s in
  if (v <=? 65535)%Z then Some v else None.

Definition parsed_origin_parse (value : string) (allow_wildcard_host : bool) : option ParsedOrigin :=
  '(sch, host_port) ← Str.split_once "://" value;
  sch ← origin_scheme_parse sch;
  if Str.is_empty host_port
     || Str.any_char (λ c, bool_decide (c = "/"%char ∨ c = "?"%char ∨ c = "#"%char)) host_port
  then None
  else
    '(h, p) ← match Str.rsplit_once ":" host_port with
              | Some (h, p) =>
                  if Str.is_empty h || Str.contains_char ":" h || Str.is_empty p
                     || negb (Str.all_chars Str.is_ascii_digit p)
                  then None
                  else
                    n ← parse_u16_digits p;
                    if (n =? 0)%Z then None else Some (h, n)
              | None => Some (host_port, default_port sch)
              end;
    if Str.is_empty h || (negb allow_wildcard_host && Str.contains_char "*" h) then None
    else Some (mkOrigin sch (Str.to_ascii_lowercase h) p).

(** ** Wildcards *)

(** The bytes of a string. *)
Definition bytes (s : string) : list ascii := String.list_ascii_of_string s.

(** The loop variables of [wildcard_match]. *)
Record WState := mkW {
  pattern_idx : nat;
  value_idx : nat;
  star_idx : option nat;
  star_match_idx : nat;
}.

Definition star : ascii := "*"%char.

(** One round of the first [while] loop; [None] is the early [return false]. *)
Definition wildcard_step (p v : list ascii) (s : WState) : option WState :=
  let backtrack :=
    match star_idx s with
    | Some star_pos => Some (mkW (star_pos + 1) (star_match_idx s + 1) (Some star_pos) (star_match_idx s + 1))
    | None => None
    end in
  match p !! pattern_idx s, v !! value_idx s with
  | Some pc, Some vc =>
      if bool_decide (pc = vc) || bool_decide (pc = star) then
        if bool_decide (pc = star)
        then Some (mkW (pattern_idx s + 1) (value_idx s) (Some (pattern_idx s)) (value_idx s))
        else Some (mkW (pattern_idx s + 1) (value_idx s + 1) (star_idx s) (star_match_idx s))
      else backtrack
  | _, _ => backtrack
  end.

(** Both loops; [None] when the fuel runs out. *)
Fixpoint skip_stars (p : list ascii) (idx fuel : nat) : nat :=
  match fuel with
  | 0 => idx
  | S fuel' => match p !! idx with
               | Some c => if bool_decide (c = star) then skip_stars p (idx + 1) fuel' else idx
               | None => idx
               end
  end.

Fixpoint wildcard_loop (fuel : nat) (p v : list ascii) (s : WState) : option bool :=
  if decide (value_idx s < length v) then
    match fuel with
    | 0 => None
    | S fuel' =>
        match wildcard_step p v s with
        | None => Some false
        | Some s' => wildcard_loop fuel' p v s'
        end
    end
  else Some (bool_decide (skip_stars p (pattern_idx s) (length p) = length p)).

(** Enough rounds for any pattern and value. *)
Definition wildcard_fuel (p v : list ascii) : nat :=
  ((length p + 1) * (length v + 1) + length v) * (length p + 1) + length p.

Definition wildcard_match (pattern value : string) : bool :=
  default false (wildcard_loop (wildcard_fuel (bytes pattern) (bytes value))
                   (bytes pattern) (bytes value) (mkW 0 0 None 0)).

Definition host_matches (pattern h : string) : bool :=
  if bool_decide (pattern = "*"%string) then true
  else if negb (Str.contains_char "*" pattern) then bool_decide (pattern = h)
  else wildcard_match pattern h.

Definition matches_allowed_origin (allowed_origin : string) (request_origin : ParsedOrigin) : bool :=
  match parsed_origin_parse allowed_origin true with
  | None => false
  | Some a =>
      bool_decide (scheme a = scheme request_origin)
      && bool_decide (oport a = oport request_origin)
      && host_matches (host a) (host request_origin)
  end.

Section cors.
Context {HC : HttpCrate}.

Definition cors_try_from (header_name_from_str method_from_str : string → result string string)
    (value : CorsSerde) : result Cors string :=
  match wol_try_from header_name_from_str (cs_allow_headers value) with
  | Err e => Err e
  | Ok ah =>
  match wol_try_from method_from_str (cs_allow_methods value) with
  | Err e => Err e
  | Ok am =>
  match wol_try_from Ok (cs_allow_origins value) with
  | Err e => Err e
  | Ok ao =>
  match wol_try_from header_name_from_str (cs_expose_headers value) with
  | Err e => Err e
  | Ok eh =>
      match cs_max_age value with
      | None => Ok (mkCors (cs_allow_credentials value) ah am ao eh None)
      | Some secs =>
          match header_value_try_from (pretty secs) with
          | Some h => Ok (mkCors (cs_allow_credentials value) ah am ao eh (Some h))
          | None => Err "invalid header value"%string
          end
      end
  end end end end.

Definition to_header_value (w : WildcardOrList string) : option string :=
  match w with
  | WNone => None
  | WWildcard => Some "*"%string
  | WList l => header_value_try_from (join "," l)
  end.

(** [str::trim] on header text, which is ASCII. *)
Definition is_space (c : ascii) : bool :=
  bool_decide (c = " "%char) || (N.leb 9 (N_of_ascii c) && N.leb (N_of_ascii c) 13).

Fixpoint trim_start (s : string) : string :=
  match s with
  | EmptyString => EmptyString
  | String c s' => if is_space c then trim_start s' else s
  end.

Fixpoint trim_end (s : string) : string :=
  match s with
  | EmptyString => EmptyString
  | String c s' =>
      match trim_end s' with
      | EmptyString => if is_space c then EmptyString else String c EmptyString
      | t => String c t
      end
  end.

Definition trim (s : string) : string := trim_end (trim_start s).

Fixpoint split_commas (s : string) : list string :=
  match s with
  | EmptyString => [EmptyString]
  | String c s' =>
      if decide (c = ","%char) then EmptyString :: split_commas s'
      else match split_commas s' with
           | [] => [String c EmptyString]
           | seg :: rest => String c seg :: rest
           end
  end.

Definition normalize_token_header_value (value : string) : option string :=
  v ← header_to_str value;
  let v := trim v in
  if Str.is_empty v then None else header_value_try_from v.

Definition normalize_csv_header_value (value : string) : option string :=
  v ← header_to_str value;
  let normalized := join ", " (filter (λ e, Str.is_empty e = false) (trim <$> split_commas v)) in
  if Str.is_empty normalized then None else header_value_try_from normalized.

Definition preflight_allow_methods (c : Cors) (hs : list (string * string)) : option string :=
  match allow_methods c with
  | WNone => None
  | WWildcard =>
      option_or (h ← header_get hs "access-control-request-method"; normalize_token_header_value h)
        (if allow_credentials c then None else Some "*"%string)
  | WList _ => to_header_value (allow_methods c)
  end.

Definition preflight_allow_headers (c : Cors) (hs : list (string * string)) : option string :=
  match allow_headers c with
  | WNone => None
  | WWildcard =>
      option_or (h ← header_get hs "access-control-request-headers"; normalize_csv_header_value h)
        (if allow_credentials c then None else Some "*"%string)
  | WList _ => to_header_value (allow_headers c)
  end.

(** ** [Cors::apply] *)

Record Response := mkResponse { status : Z; resp_headers : list (string * string) }.

Record PolicyResponse := mkPolicyResponse {
  direct_response : option Response;
  response_headers : option (list (string * string));
}.

Definition policy_response_default : PolicyResponse := mkPolicyResponse None None.

Definition opt_header (name : string) (v : option string) : list (string * string) :=
  match v with Some h => [(name, h)] | None => [] end.

Definition is_preflight (req : Request) : bool :=
  bool_decide (req_method req = "OPTIONS"%string)
  && match header_get (req_headers req) "access-control-request-method" with
     | Some v => negb (Str.is_empty v)
     | None => false
     end.

Definition origin_allowed (c : Cors) (origin : string) : bool :=
  let parsed_origin := s ← header_to_str origin; parsed_origin_parse s false in
  match allow_origins c with
  | WNone => false
  | WWildcard => true
  | WList origins =>
      match parsed_origin with
      | None => false
      | Some request_origin => existsb (λ a, matches_allowed_origin a request_origin) origins
      end
  end.

Definition apply (c : Cors) (req : Request) : PolicyResponse :=
  match header_get (req_headers req) "origin" with
  | None => policy_response_default
  | Some origin =>
      if negb (origin_allowed c origin) then
        if is_preflight req then mkPolicyResponse (Some (mkResponse 200 [])) None
        else policy_response_default
      else if bool_decide (req_method req = "OPTIONS"%string) then
        mkPolicyResponse
          (Some (mkResponse 200
             ([("access-control-allow-origin", origin)%string]
              ++ opt_header "access-control-allow-methods" (preflight_allow_methods c (req_headers req))
              ++ opt_header "access-control-allow-headers" (preflight_allow_headers c (req_headers req))
              ++ opt_header "access-control-max-age" (max_age c)
              ++ (if allow_credentials c
                  then [("access-control-allow-credentials", "true")%string] else [])
              ++ opt_header "access-control-expose-headers" (to_header_value (expose_headers c)))))
          None
      else
        mkPolicyResponse None
          (Some ([("access-control-allow-origin", origin)%string]
                 ++ (if allow_credentials c
                     then [("access-control-allow-credentials", "true")%string] else [])
                 ++ opt_header "access-control-expose-headers" (to_header_value (expose_headers c))))
  end.
End cors.

(** ** Wildcard matching is glob matching *)

(** What a pattern means: a star stands for any bytes, another byte for
    itself. *)
Fixpoint glob (p v : list ascii) : Prop :=
  match p with
  | [] => v = []
  | c :: p' =>
      if decide (c = star) then ∃ k, k ≤ length v ∧ glob p' (drop k v)
      else match v with [] => False | x :: v' => c = x ∧ glob p' v' end
  end.

Definition star_free (l : list ascii) : Prop := Forall (λ c, c ≠ star) l.

Lemma glob_literal l p v : star_free l → glob (l ++ p) (l ++ v) ↔ glob p v.
Proof.
  induction 1 as [|c l Hc _ IH]; [done|]. simpl. rewrite decide_False by done. rewrite IH. naive_solver.
Qed.

Lemma glob_literal_inv l p v : star_free l → glob (l ++ p) v → ∃ w, v = l ++ w ∧ glob p w.
Proof.
  intros Hl. revert v. induction Hl as [|c l Hc _ IH]; intros v; simpl; [by eauto|].
  rewrite decide_False by done. destruct v as [|x v]; [done|].
  intros [<- (w & -> & Hw)%IH]. by exists w.
Qed.

Lemma glob_star p v : glob (star :: p) v ↔ ∃ k, k ≤ length v ∧ glob p (drop k v).
Proof. done. Qed.

(** The loop invariant: the star seen last accounts for the bytes up to some
    position at or after [star_match_idx], and the literals after it match
    from there. *)
Definition loop_inv (p v : list ascii) (s : WState) : Prop :=
  value_idx s ≤ length v ∧ pattern_idx s ≤ length p ∧
  match star_idx s with
  | None => glob p v ↔ glob (drop (pattern_idx s) p) (drop (value_idx s) v)
  | Some st =>
      st < pattern_idx s ∧ star_match_idx s ≤ value_idx s ∧
      ∃ lit, star_free lit ∧ drop (st + 1) p = lit ++ drop (pattern_idx s) p ∧
        drop (star_match_idx s) v = lit ++ drop (value_idx s) v ∧
        (glob p v ↔ ∃ j, star_match_idx s ≤ j ≤ length v ∧ glob (drop (st + 1) p) (drop j v))
  end.

Lemma drop_lookup {A} (l : list A) i x : l !! i = Some x → drop i l = x :: drop (i + 1) l.
Proof. intros H. rewrite Nat.add_1_r. by apply drop_S. Qed.

(** Reading a star: whatever the previous star swallowed, the earliest
    placement of the literals in between loses nothing. *)
Lemma inv_star p v s :
  loop_inv p v s → p !! pattern_idx s = Some star →
  loop_inv p v (mkW (pattern_idx s + 1) (value_idx s) (Some (pattern_idx s)) (value_idx s)).
Proof.
  intros (Hv & Hp & Hinv) Hstar. pose proof (lookup_lt_Some _ _ _ Hstar) as Hlt.
  pose proof (drop_lookup _ _ _ Hstar) as Hdrop.
  split; [done|]. split; simpl; [lia|]. split; [lia|]. split; [lia|].
  exists []. split; [constructor|]. split; [done|]. split; [done|].
  assert (glob (drop (pattern_idx s) p) (drop (value_idx s) v) ↔
    ∃ j, value_idx s ≤ j ≤ length v ∧ glob (drop (pattern_idx s + 1) p) (drop j v)) as Hrem.
  { rewrite Hdrop, glob_star. rewrite length_drop. setoid_rewrite drop_drop. split.
    - intros (k & Hk & H). exists (value_idx s + k). split; [lia|done].
    - intros (j & Hj & H). exists (j - value_idx s). split; [lia|].
      by replace (value_idx s + (j - value_idx s)) with j by lia. }
  destruct (star_idx s) as [st|]; [|by rewrite Hinv].
  destruct Hinv as (Hst & Hsm & lit & Hlit & Hpd & Hvd & Hiff). rewrite Hiff. split.
  - intros (j & Hj & Hg). rewrite Hpd in Hg. apply glob_literal_inv in Hg as (w & Hw & Hg); [|done].
    rewrite Hdrop, glob_star in Hg. destruct Hg as (k & Hk & Hg).
    assert (w = drop (j + length lit) v) as ->.
    { rewrite <-drop_drop, Hw. by rewrite drop_app_length. }
    rewrite length_drop in Hk. rewrite drop_drop in Hg.
    assert (length lit + (length v - value_idx s) = length v - star_match_idx s).
    { pose proof (f_equal length Hvd) as Hl. rewrite length_app, !length_drop in Hl. lia. }
    assert (length lit ≤ length v - j).
    { pose proof (f_equal length Hw) as Hl. rewrite length_app, !length_drop in Hl. lia. }
    exists (j + length lit + k). split; [lia|done].
  - intros Hg. apply Hrem in Hg. exists (star_match_idx s). split; [lia|].
    rewrite Hpd, Hvd. by apply glob_literal.
Qed.

(** Matching a byte. *)
Lemma inv_match p v s c :
  loop_inv p v s → p !! pattern_idx s = Some c → v !! value_idx s = Some c → c ≠ star →
  loop_inv p v (mkW (pattern_idx s + 1) (value_idx s + 1) (star_idx s) (star_match_idx s)).
Proof.
  intros (Hv & Hp & Hinv) Hpc Hvc Hc.
  pose proof (lookup_lt_Some _ _ _ Hpc). pose proof (lookup_lt_Some _ _ _ Hvc).
  pose proof (drop_lookup _ _ _ Hpc) as Hpd. pose proof (drop_lookup _ _ _ Hvc) as Hvd.
  split; simpl; [lia|]. split; [lia|]. destruct (star_idx s) as [st|].
  - destruct Hinv as (? & ? & lit & Hlit & Hp1 & Hv1 & Hiff).
    split; [lia|]. split; [lia|]. exists (lit ++ [c]).
    split; [apply Forall_app; split; [done|by repeat constructor]|].
    rewrite Hp1, Hv1, Hpd, Hvd, <-!app_assoc. split; [done|]. split; [done|].
    by rewrite Hp1, Hpd in Hiff.
  - rewrite Hinv, Hpd, Hvd. simpl. rewrite decide_False by done. naive_solver.
Qed.

(** The rest of the pattern cannot match here. *)
Definition stuck (p v : list ascii) (s : WState) : Prop :=
  ¬ glob (drop (pattern_idx s) p) (drop (value_idx s) v).

Lemma inv_backtrack p v s st :
  loop_inv p v s → stuck p v s → value_idx s < length v → star_idx s = Some st →
  loop_inv p v (mkW (st + 1) (star_match_idx s + 1) (Some st) (star_match_idx s + 1)).
Proof.
  intros (Hv & Hp & Hinv) Hstuck Hlt Hst. rewrite Hst in Hinv.
  destruct Hinv as (? & ? & lit & Hlit & Hp1 & Hv1 & Hiff).
  split; simpl; [lia|]. split; [lia|]. split; [lia|]. split; [lia|]. exists [].
  split; [constructor|]. split; [done|]. split; [done|]. rewrite Hiff. split.
  - intros (j & Hj & Hg). exists j. split; [|done].
    destruct (decide (j = star_match_idx s)) as [->|]; [|lia].
    rewrite Hp1, Hv1, glob_literal in Hg by done. by destruct Hstuck.
  - intros (j & Hj & Hg). exists j. split; [lia|done].
Qed.

Lemma inv_fail p v s : loop_inv p v s → stuck p v s → star_idx s = None → ¬ glob p v.
Proof. intros (_ & _ & Hinv) Hstuck Hst. rewrite Hst in Hinv. by rewrite Hinv. Qed.

Lemma inv_end p v s :
  loop_inv p v s → value_idx s = length v → glob p v ↔ glob (drop (pattern_idx s) p) [].
Proof.
  intros (Hv & Hp & Hinv) Hend. rewrite Hend, drop_all in Hinv.
  destruct (star_idx s) as [st|]; [|done].
  destruct Hinv as (? & ? & lit & Hlit & Hp1 & Hv1 & Hiff). rewrite app_nil_r in Hv1. rewrite Hiff. split.
  - intros (j & Hj & Hg). rewrite Hp1 in Hg. apply glob_literal_inv in Hg as (w & Hw & Hg); [|done].
    pose proof (f_equal length Hw) as Hl. pose proof (f_equal length Hv1) as Hl1.
    rewrite length_app, length_drop in Hl. rewrite length_drop in Hl1.
    destruct w; [done|]. simpl in Hl. lia.
  - intros Hg. exists (star_match_idx s). split; [lia|]. rewrite Hp1, Hv1.
    rewrite <-(app_nil_r lit) at 2. by apply glob_literal.
Qed.

(** The trailing loop accepts exactly a run of stars. *)
Lemma skip_stars_glob p idx fuel :
  idx ≤ length p → length p - idx ≤ fuel →
  skip_stars p idx fuel = length p ↔ glob (drop idx p) [].
Proof.
  revert idx. induction fuel as [|fuel IH]; intros idx Hi Hf; simpl.
  { assert (idx = length p) as -> by lia. by rewrite drop_all. }
  destruct (p !! idx) as [c|] eqn:E.
  - pose proof (lookup_lt_Some _ _ _ E). rewrite (drop_lookup _ _ _ E).
    destruct (decide (c = star)) as [->|Hc].
    + rewrite bool_decide_eq_true_2 by done. rewrite IH, glob_star by lia. simpl. split.
      * intros Hg. by exists 0.
      * intros (k & Hk & Hg). by assert (k = 0) as -> by lia.
    + rewrite bool_decide_eq_false_2 by done. simpl. rewrite decide_False by done. lia.
  - apply lookup_ge_None in E. assert (idx = length p) as -> by lia. by rewrite drop_all.
Qed.

(** What decreases: the stars still to come, then the room left for the
    current one, then the pattern left. *)
Definition rounds_left (p v : list ascii) (s : WState) : nat :=
  ((match star_idx s with None => length p + 1 | Some st => length p - st end) * (length v + 1)
   + (length v - star_match_idx s)) * (length p + 1) + (length p - pattern_idx s).

Lemma lex_decrease a b p q A : a < A → p ≤ b → a * (b + 1) + p < A * (b + 1) + q.
Proof. nia. Qed.

Lemma wildcard_step_ok p v s :
  loop_inv p v s → value_idx s < length v →
  match wildcard_step p v s with
  | None => ¬ glob p v
  | Some s' => loop_inv p v s' ∧ rounds_left p v s' < rounds_left p v s
  end.
Proof.
  intros Hinv Hlt. pose proof Hinv as (Hvi & Hpi & Hst).
  assert (stuck p v s →
    match (match star_idx s with
           | Some st => Some (mkW (st + 1) (star_match_idx s + 1) (Some st) (star_match_idx s + 1))
           | None => None
           end) with
    | None => ¬ glob p v
    | Some s' => loop_inv p v s' ∧ rounds_left p v s' < rounds_left p v s
    end) as Hback.
  { intros Hs. destruct (star_idx s) as [st|] eqn:E; [|by eapply inv_fail].
    split; [by eapply inv_backtrack|]. destruct Hst as (? & ? & _). unfold rounds_left. rewrite E. simpl.
    apply lex_decrease; lia. }
  unfold wildcard_step. destruct (p !! pattern_idx s) as [c|] eqn:Ep.
  2:{ apply Hback. unfold stuck. rewrite (drop_ge p) by (by apply lookup_ge_None). simpl.
      intros Hd%(f_equal length). rewrite length_drop in Hd. simpl in Hd. lia. }
  pose proof (lookup_lt_Some _ _ _ Ep).
  destruct (v !! value_idx s) as [x|] eqn:Ev; [|apply lookup_ge_None in Ev; lia].
  destruct (decide (c = star)) as [->|Hc].
  - rewrite (bool_decide_eq_true_2 (star = star)), orb_true_r by done. split; [by apply inv_star|].
    unfold rounds_left; simpl. apply lex_decrease; [|lia].
    destruct (star_idx s) as [st|]; [destruct Hst as (? & _)|]; nia.
  - rewrite (bool_decide_eq_false_2 (c = star)), orb_false_r by done.
    destruct (decide (c = x)) as [->|Hne].
    + rewrite bool_decide_eq_true_2 by done. split; [by eapply inv_match|].
      unfold rounds_left; simpl. lia.
    + rewrite bool_decide_eq_false_2 by done. apply Hback. unfold stuck.
      rewrite (drop_lookup _ _ _ Ep), (drop_lookup _ _ _ Ev). simpl. rewrite decide_False by done. naive_solver.
Qed.

Lemma wildcard_loop_ok fuel p v s :
  loop_inv p v s → rounds_left p v s ≤ fuel →
  ∃ b, wildcard_loop fuel p v s = Some b ∧ (b = true ↔ glob p v).
Proof.
  revert s. induction fuel as [|fuel IH]; intros s Hinv Hf; simpl;
    destruct (decide (value_idx s < length v)) as [Hlt|Hge].
  - pose proof (wildcard_step_ok p v s Hinv Hlt) as Hstep. exfalso.
    destruct Hinv as (? & ? & Hst). unfold rounds_left in Hf.
    destruct (star_idx s) as [st|] eqn:E; [destruct Hst as (? & ? & _)|]; nia.
  - eexists. split; [done|]. pose proof Hinv as (? & ? & _). rewrite bool_decide_eq_true.
    rewrite (inv_end p v s) by (done || lia). apply skip_stars_glob; lia.
  - pose proof (wildcard_step_ok p v s Hinv Hlt) as Hstep.
    destruct (wildcard_step p v s) as [s'|]; [|by exists false].
    destruct Hstep as [Hinv' Hdec]. apply IH; [done|lia].
  - eexists. split; [done|]. pose proof Hinv as (? & ? & _). rewrite bool_decide_eq_true.
    rewrite (inv_end p v s) by (done || lia). apply skip_stars_glob; lia.
Qed.

Lemma loop_inv_start p v : loop_inv p v (mkW 0 0 None 0).
Proof. repeat split; simpl; try lia; done. Qed.

Lemma wildcard_match_glob pattern value :
  wildcard_match pattern value = true ↔ glob (bytes pattern) (bytes value).
Proof.
  unfold wildcard_match.
  destruct (wildcard_loop_ok (wildcard_fuel (bytes pattern) (bytes value)) (bytes pattern) (bytes value)
    (mkW 0 0 None 0)) as (b & -> & Hb); [apply loop_inv_start| |done].
  unfold rounds_left, wildcard_fuel. simpl. lia.
Qed.

(** ** Hosts and origins *)

Lemma contains_star_free s : Str.contains_char star s = false ↔ star_free (bytes s).
Proof.
  induction s as [|a s IH]; simpl; [by split; [constructor|]|].
  case_decide as Ha; simpl.
  - split; [done|]. intros [Hn _]%Forall_cons. congruence.
  - rewrite IH. split; [intros; constructor; [congruence|done]|by intros [_ ?]%Forall_cons].
Qed.

Lemma bytes_inj s t : bytes s = bytes t → s = t.
Proof.
  intros H. rewrite <-(String.string_of_list_ascii_of_string s), <-(String.string_of_list_ascii_of_string t).
  unfold bytes in H. by rewrite H.
Qed.

Lemma glob_star_free p v : star_free p → glob p v ↔ p = v.
Proof.
  intros Hp. rewrite <-(app_nil_r p) at 1. split.
  - intros (w & -> & Hw)%glob_literal_inv; [|done]. simpl in Hw. subst w. by rewrite app_nil_r.
  - intros <-. rewrite <-(app_nil_r p) at 2. by apply glob_literal.
Qed.

Lemma host_matches_glob p h : host_matches p h = true ↔ glob (bytes p) (bytes h).
Proof.
  unfold host_matches. destruct (decide (p = "*"%string)) as [->|Hp].
  - rewrite bool_decide_eq_true_2 by done. split; [|done]. intros _.
    change (bytes "*") with [star]. apply glob_star. exists (length (bytes h)). split; [done|].
    by rewrite drop_all.
  - rewrite bool_decide_eq_false_2 by done.
    destruct (Str.contains_char "*" p) eqn:E; simpl; [apply wildcard_match_glob|].
    rewrite bool_decide_eq_true, glob_star_free by (by apply contains_star_free).
    split; [by intros ->|apply bytes_inj].
Qed.

(** ** Claims *)

(** C20. The index-juggling loop of [wildcard_match] terminates within
    [wildcard_fuel] rounds on every input and decides glob matching: the
    pattern matches exactly the values obtained by replacing its stars with
    arbitrary bytes. *)
Theorem wildcard_match_is_glob pattern value :
  (∃ b, wildcard_loop (wildcard_fuel (bytes pattern) (bytes value))
          (bytes pattern) (bytes value) (mkW 0 0 None 0) = Some b) ∧
  (wildcard_match pattern value = true ↔ glob (bytes pattern) (bytes value)).
Proof.
  split; [|apply wildcard_match_glob].
  destruct (wildcard_loop_ok (wildcard_fuel (bytes pattern) (bytes value)) (bytes pattern) (bytes value)
    (mkW 0 0 None 0)) as (b & -> & _); [apply loop_inv_start| |by eauto].
  unfold rounds_left, wildcard_fuel. simpl. lia.
Qed.

(** An allowed origin admits a request origin exactly when it parses,
    scheme and (explicit or default) port agree and its host pattern globs
    the request's host; without a star that is equality of the two parsed
    origins. *)
Theorem matches_allowed_origin_spec allowed ro :
  (matches_allowed_origin allowed ro = true ↔
   ∃ ao, parsed_origin_parse allowed true = Some ao ∧ scheme ao = scheme ro ∧
         oport ao = oport ro ∧ glob (bytes (host ao)) (bytes (host ro))) ∧
  (∀ ao, parsed_origin_parse allowed true = Some ao → star_free (bytes (host ao)) →
     matches_allowed_origin allowed ro = true ↔ ao = ro).
Proof.
  assert (matches_allowed_origin allowed ro = true ↔
    ∃ ao, parsed_origin_parse allowed true = Some ao ∧ scheme ao = scheme ro ∧
          oport ao = oport ro ∧ glob (bytes (host ao)) (bytes (host ro))) as Hiff.
  { unfold matches_allowed_origin. destruct (parsed_origin_parse allowed true) as [ao|]; [|naive_solver].
    rewrite !andb_true_iff, !bool_decide_eq_true, host_matches_glob. naive_solver. }
  split; [done|]. intros ao Hao Hfree. rewrite Hiff, Hao. split.
  - intros (ao' & [= <-] & Hs & Hp & Hg). apply glob_star_free, bytes_inj in Hg; [|done].
    destruct ao, ro; simpl in *; congruence.
  - intros ->. exists ro. repeat split. by apply glob_star_free.
Qed.

Section apply_claims.
Context {HC : HttpCrate}.

(** Every header a policy response adds. *)
Definition emitted (r : PolicyResponse) : list (string * string) :=
  match direct_response r with Some d => resp_headers d | None => [] end
  ++ default [] (response_headers r).

(** CORS headers are emitted only for allowed origins and always echo
    the request's own origin, never a wildcard; a request without an origin
    is left alone; only OPTIONS requests are answered directly, and a
    preflight from a disallowed origin gets an empty 200 instead of reaching
    the backend. *)
Theorem cors_apply_safe c req :
  (∀ name value, (name, value) ∈ emitted (apply c req) →
     ∃ origin, header_get (req_headers req) "origin" = Some origin ∧ origin_allowed c origin = true ∧
       ("access-control-allow-origin"%string, origin) ∈ emitted (apply c req) ∧
       (name = "access-control-allow-origin"%string → value = origin)) ∧
  (is_Some (direct_response (apply c req)) → req_method req = "OPTIONS"%string) ∧
  (∀ origin, header_get (req_headers req) "origin" = Some origin → origin_allowed c origin = false →
     is_preflight req = true → apply c req = mkPolicyResponse (Some (mkResponse 200 [])) None).
Proof.
  unfold apply. destruct (header_get (req_headers req) "origin") as [o|]; simpl.
  2:{ split; [intros n v Hn; by apply elem_of_nil in Hn|]. split; [by intros [? ?]|done]. }
  destruct (origin_allowed c o) eqn:Ho; simpl.
  - split; [|split]; [|destruct (bool_decide _) eqn:E; to_prop; [done|by intros [? ?]]|congruence].
    intros n v Hn. exists o. split; [done|]. split; [done|].
    split; [destruct (bool_decide _); by left|]. intros ->. revert Hn.
    unfold emitted, opt_header. destruct (bool_decide _); simpl;
      rewrite ?app_nil_r, ?elem_of_cons, !elem_of_app;
      repeat case_match; rewrite ?elem_of_cons, ?elem_of_nil; naive_solver.
  - destruct (is_preflight req) eqn:Ep; simpl.
    + split; [intros n v Hn; by apply elem_of_nil in Hn|]. split; [|done].
      intros _. unfold is_preflight in Ep. by to_prop.
    + split; [intros n v Hn; by apply elem_of_nil in Hn|]. split; [by intros [? ?]|done].
Qed.
End apply_claims.
