(* ===== verification/Replay.v ===== *)
(** * Retries

    [http/retry/body.rs]: a request body that records what is read from it so
    that a retry can replay it, and the retry loop of [proxy/httpproxy.rs] that
    drives it.

    The clones of one [ReplayBody] share a slot; the clone being polled takes
    the state out of the slot and puts it back when it is dropped. The model
    keeps the slot and the live clones, and polling, cloning and dropping are
    steps on them. The inner body is the sequence of results its polls give. *)
From stdpp Require Import base gmap strings list.
From Stdlib Require Import ZArith.
From S2P Require Import Prelude RustStd.

Section replay.
(** Chunks of bytes; trailers; errors of the inner body. *)
Context {Trailers Error : Type}.

Inductive Frame := FData (chunk : list Z) | FTrailers (t : Trailers).

(** What a poll of the inner body gives; the end of the list is the end of the
    body. *)
Inductive Event :=
| EFrame (f : Frame)
| EUnknown                   (* a frame that is neither data nor trailers *)
| EPending
| EError (e : Error).

Inductive BodyError := Capped | Inner (e : Error).

Inductive PollFrame :=
| Pending
| End
| Item (f : Frame)
| Failed (e : BodyError).

(** [http/buflist.rs]. *)
Definition has_remaining (l : list (list Z)) : bool := existsb (λ b, negb (bool_decide (b = []))) l.
Definition remaining (l : list (list Z)) : nat := sum_list (length <$> l).

Record BodyState := mkBodyState {
  replay : list (list Z);
  replay_idx : nat;
  trailers : option Trailers;
  rest : list Event;
  is_completed : bool;
  max_bytes : nat;
}.

Definition is_capped_state (s : BodyState) : bool := Nat.eqb (max_bytes s) 0.

(** [record_bytes]: the state it leaves; the chunk itself is returned. *)
Definition record_bytes (data : list Z) (s : BodyState) : BodyState :=
  let m := max_bytes s - length data in
  if Nat.eqb m 0 then
    mkBodyState (if has_remaining (replay s) then [] else replay s) (replay_idx s) (trailers s) (rest s)
      (is_completed s) m
  else
    mkBodyState (replay s ++ [data]) (replay_idx s) (trailers s) (rest s) (is_completed s) m.

Record Clone := mkClone {
  cl_state : option BodyState;
  replay_body : bool;
  replay_trailers : bool;
}.

(** The end of [poll_frame]: the inner body. *)
Definition poll_inner (s : BodyState) : BodyState * PollFrame :=
  match rest s with
  | [] => (mkBodyState (replay s) (replay_idx s) (trailers s) [] true (max_bytes s), End)
  | e :: es =>
      let s' := mkBodyState (replay s) (replay_idx s) (trailers s) es (is_completed s) (max_bytes s) in
      match e with
      | EPending => (s', Pending)
      | EError err => (s', Failed (Inner err))
      | EUnknown => (s', End)
      | EFrame (FData chunk) => (record_bytes chunk s', Item (FData chunk))
      | EFrame (FTrailers t) =>
          (mkBodyState (replay s) (replay_idx s) (Some t) es true (max_bytes s), Item (FTrailers t))
      end
  end.

Definition poll_rest (s : BodyState) : BodyState * PollFrame :=
  if is_completed s then (s, End) else poll_inner s.

Definition poll_trailers (rt : bool) (s : BodyState) : BodyState * PollFrame :=
  match rt, trailers s with
  | true, Some t => (s, Item (FTrailers t))
  | _, _ => poll_rest s
  end.

(** [poll_frame] of a clone that holds the state: the flags it leaves, the
    state and the result. *)
Definition poll_frame (rb rt : bool) (s : BodyState) : Clone * PollFrame :=
  if rb then
    match replay s !! replay_idx s with
    | Some chunk =>
        (mkClone (Some (mkBodyState (replay s) (S (replay_idx s)) (trailers s) (rest s) (is_completed s) (max_bytes s)))
           true rt, Item (FData chunk))
    | None =>
        if is_capped_state s then (mkClone (Some s) false rt, Failed Capped)
        else let '(s', r) := poll_trailers rt s in (mkClone (Some s') false false, r)
    end
  else let '(s', r) := poll_trailers rt s in (mkClone (Some s') false false, r).

(** The clones alive, by number, and the shared slot. *)
Record Bodies := mkBodies { shared : option BodyState; clones : gmap nat Clone }.

(** [try_new]; [size_hint_lower] is the inner body's. The capacity is a [usize]:
    the caller's limit plus one. *)
Definition try_new (body : list Event) (size_hint_lower limit : nat) : result Bodies (list Event) :=
  if decide (limit < size_hint_lower) then Err body
  else Ok (mkBodies None {[0 := mkClone (Some (mkBodyState [] 0 None body false (limit + 1))) false false]}).

(** [acquire_state] and [poll_frame] of the clone [i]. *)
Definition poll (i : nat) (w : Bodies) : outcome (Bodies * PollFrame) :=
  match clones w !! i with
  | None => Panic
  | Some c =>
      let '(st, sh) := match cl_state c with Some s => (Some s, shared w) | None => (shared w, None) end in
      s ← expect st;
      let '(c', r) := poll_frame (replay_body c) (replay_trailers c) s in
      Ret (mkBodies sh (<[i := c']> (clones w)), r)
  end.

(** [clone] of a live clone under the number [j]. *)
Definition clone (j : nat) (w : Bodies) : Bodies :=
  mkBodies (shared w) (<[j := mkClone None true true]> (clones w)).

(** [drop]: the clone that holds the state puts it back, rewound. *)
Definition rewind (s : BodyState) : BodyState :=
  mkBodyState (replay s) 0 (trailers s) (rest s) (is_completed s) (max_bytes s).

Definition give_back (c : Clone) (sh : option BodyState) : option BodyState :=
  match cl_state c with Some s => Some (rewind s) | None => sh end.

Definition drop_body (i : nat) (w : Bodies) : Bodies :=
  mkBodies (match clones w !! i with Some c => give_back c (shared w) | None => shared w end) (delete i (clones w)).

(** [is_capped] of the clone [i]. *)
Definition is_capped (i : nat) (w : Bodies) : option bool :=
  match clones w !! i with
  | None => None
  | Some c => is_capped_state <$> option_or (cl_state c) (shared w)
  end.
End replay.

Arguments Frame : clear implicits.
Arguments Event : clear implicits.
Arguments BodyError : clear implicits.
Arguments PollFrame : clear implicits.
Arguments BodyState : clear implicits.
Arguments Clone : clear implicits.
Arguments Bodies : clear implicits.

(** ** What a clone delivers *)

Section replay_facts.
Context {Trailers Error : Type}.
Local Abbreviation Frame := (Frame Trailers).
Local Abbreviation Event := (Event Trailers Error).
Local Abbreviation BodyState := (BodyState Trailers Error).
Local Abbreviation Bodies := (Bodies Trailers Error).

(** The frames of the inner body, in order; nothing follows the trailers. *)
Fixpoint frames (es : list Event) : list Frame :=
  match es with
  | [] => []
  | EFrame (FData c) :: es' => FData c :: frames es'
  | EFrame (FTrailers t) :: _ => [FTrailers t]
  | _ :: es' => frames es'
  end.

Context (body : list Event) (limit : nat).

Definition trailer_frames (s : BodyState) : list Frame :=
  match trailers s with Some t => [FTrailers t] | None => [] end.

(** The state after the chunks [cs] have been read. *)
Record st_ok (s : BodyState) (cs : list (list Z)) : Prop := mkStOk {
  so_frames : frames body = (FData <$> cs) ++ trailer_frames s ++ (if is_completed s then [] else frames (rest s));
  so_trailers : is_completed s = false → trailers s = None;
  so_rest : rest s `suffix_of` body;
  so_max : max_bytes s = limit + 1 - remaining cs;
  so_replay : if is_capped_state s then replay s `prefix_of` cs else replay s = cs;
}.

(** What a live clone has delivered, and whether it has failed. *)
Definition delivered : Type := list Frame * bool.

(** A clone that holds the state has delivered a part of the recording, or
    everything read so far. *)
Definition owner_ok (rb rt : bool) (s : BodyState) (cs : list (list Z)) (g : delivered) : Prop :=
  g.2 = true ∨
  (rb = true ∧ rt = true ∧ replay_idx s ≤ length (replay s) ∧ g.1 = FData <$> take (replay_idx s) (replay s)) ∨
  (rb = false ∧ rt = false ∧ g.1 = (FData <$> cs) ++ trailer_frames s).

Definition idle_ok (c : Clone Trailers Error) (g : delivered) : Prop :=
  cl_state c = None ∧ replay_body c = true ∧ replay_trailers c = true ∧ g = ([], false).

Record r_inv (w : Bodies) (G : gmap nat delivered) : Prop := mkRInv {
  ri_state : ∃ s cs, st_ok s cs ∧
    ((shared w = Some s ∧ replay_idx s = 0 ∧
       ∀ i c, clones w !! i = Some c → ∃ g, G !! i = Some g ∧ idle_ok c g) ∨
     (shared w = None ∧ ∃ o co g, clones w !! o = Some co ∧ cl_state co = Some s ∧ G !! o = Some g ∧
       owner_ok (replay_body co) (replay_trailers co) s cs g ∧
       ∀ i c, clones w !! i = Some c → i ≠ o → ∃ g, G !! i = Some g ∧ idle_ok c g));
}.

(** What the result of a poll adds. *)
Definition deliver (r : PollFrame Trailers Error) (g : delivered) : delivered :=
  match r with
  | Item f => (g.1 ++ [f], g.2)
  | Failed _ => (g.1, true)
  | Pending | End => g
  end.

(** What the result of a poll may be, after what was delivered. *)
Definition faithful (g : delivered) (r : PollFrame Trailers Error) : Prop :=
  g.2 = false →
  match r with
  | Item f => (g.1 ++ [f]) `prefix_of` frames body
  | End => EUnknown ∉ body → g.1 = frames body
  | Failed Capped => limit < remaining (omap (λ f, match f with FData c => Some c | _ => None end) (frames body))
  | Failed (Inner e) => EError e ∈ body
  | Pending => EPending ∈ body
  end.

Lemma remaining_app l l' : remaining (l ++ l') = remaining l + remaining l'.
Proof. unfold remaining. rewrite fmap_app. induction (length <$> l); simpl; lia. Qed.

Lemma remaining_prefix l l' : l `prefix_of` l' → remaining l ≤ remaining l'.
Proof. intros [k ->]. rewrite remaining_app. lia. Qed.

(** Reading one more chunk. *)
Lemma record_bytes_ok s cs c es :
  st_ok s cs → is_completed s = false → rest s = EFrame (FData c) :: es →
  st_ok (record_bytes c (mkBodyState (replay s) (replay_idx s) (trailers s) es (is_completed s) (max_bytes s))) (cs ++ [c]).
Proof.
  intros [H1 H2 H3 H4 H5] Hc Hr. pose proof (H2 Hc) as Ht. unfold trailer_frames in H1. rewrite Ht, Hc, Hr in *.
  assert (max_bytes s - length c = limit + 1 - remaining (cs ++ [c])) as Hm.
  { rewrite H4, remaining_app. unfold remaining. simpl. lia. }
  assert (es `suffix_of` body) as Hes by (etrans; [|exact H3]; by exists [EFrame (FData c)]).
  assert (replay s `prefix_of` cs ++ [c]) as Hp.
  { destruct (is_capped_state s); [by apply prefix_app_r|]. rewrite H5. by apply prefix_app_r. }
  unfold record_bytes. simpl. unfold is_capped_state in *. simpl in *.
  destruct (Nat.eqb_spec (max_bytes s - length c) 0) as [E|E]; split; simpl; try done;
    unfold trailer_frames; simpl; rewrite ?fmap_app, <-?app_assoc; try done.
  - unfold is_capped_state. simpl. rewrite E. simpl. destruct (has_remaining _); [apply prefix_nil|done].
  - unfold is_capped_state. simpl. destruct (Nat.eqb_spec (max_bytes s - length c) 0); [done|].
    destruct (Nat.eqb_spec (max_bytes s) 0); [lia|]. by rewrite H5.
Qed.

(** One poll of the inner body, by a clone that has delivered all that was
    read. *)
Lemma poll_rest_ok s cs :
  st_ok s cs →
  ∃ s' cs' r, poll_rest s = (s', r) ∧ st_ok s' cs' ∧
    ∀ d, d = (FData <$> cs) ++ trailer_frames s →
      faithful (d, false) r ∧
      ((deliver r (d, false)).2 = true ∨ (deliver r (d, false)).1 = (FData <$> cs') ++ trailer_frames s').
Proof.
  intros Hok. pose proof Hok as [H1 H2 H3 H4 H5]. unfold poll_rest. destruct (is_completed s) eqn:Ec.
  { exists s, cs, End. split; [done|]. split; [done|]. intros d ->. rewrite app_nil_r in H1.
    split; [by intros _ _; rewrite H1|by right]. }
  pose proof (H2 eq_refl) as Ht. assert (trailer_frames s = []) as Htf by (unfold trailer_frames; by rewrite Ht).
  rewrite Htf in H1. simpl in H1. unfold poll_inner. destruct (rest s) as [|e es] eqn:Er.
  { eexists _, cs, End. split; [done|]. split.
    - split; simpl; try done. unfold trailer_frames. simpl. by rewrite Ht.
    - intros d ->. rewrite Htf, app_nil_r. split; [|right; unfold trailer_frames; simpl; by rewrite Ht, app_nil_r].
      intros _ _. simpl in *. by rewrite H1, app_nil_r. }
  assert (es `suffix_of` body) as Hes by (etrans; [|exact H3]; by exists [e]).
  assert (e ∈ body) as He.
  { destruct H3 as [k ->]. apply elem_of_app. right. by left. }
  assert (frames (e :: es) = frames es →
    st_ok (mkBodyState (replay s) (replay_idx s) (trailers s) es false (max_bytes s)) cs) as Hskip.
  { intros Hf. split; simpl; try done. unfold trailer_frames. simpl. rewrite Ht. simpl. by rewrite <-Hf. }
  rewrite Ec. destruct e as [[c|t]| | |err].
  - eexists _, (cs ++ [c]), _. split; [done|].
    pose proof (record_bytes_ok s cs c es Hok Ec Er) as Hr. rewrite Ec in Hr. split; [done|].
    intros d ->. rewrite Htf, app_nil_r. split.
    + intros _. simpl. rewrite H1. exists (frames es). by rewrite <-app_assoc.
    + right. simpl. rewrite fmap_app. unfold trailer_frames, record_bytes. simpl.
      destruct (_ =? 0); simpl; by rewrite Ht, app_nil_r.
  - eexists _, cs, _. split; [done|]. split; [split; simpl; try done; by rewrite H1|]. intros d ->. rewrite Htf, app_nil_r. split; [|by right].
    intros _. simpl. by rewrite H1.
  - eexists _, cs, _. split; [done|]. split; [by apply Hskip|]. intros d ->. split; [by intros _ Hn|].
    right. simpl. unfold trailer_frames. simpl. by rewrite Ht.
  - eexists _, cs, _. split; [done|]. split; [by apply Hskip|]. intros d ->. split; [by intros _|].
    right. simpl. unfold trailer_frames. simpl. by rewrite Ht.
  - eexists _, cs, _. split; [done|]. split; [by apply Hskip|]. intros d ->. split; [by intros _|by left].
Qed.

Lemma st_ok_idx s cs idx :
  st_ok s cs → st_ok (mkBodyState (replay s) idx (trailers s) (rest s) (is_completed s) (max_bytes s)) cs.
Proof. by intros [H1 H2 H3 H4 H5]. Qed.

(** The data of the body that has been read so far. *)
Lemma st_ok_total s cs :
  st_ok s cs → remaining cs ≤ remaining (omap (λ f, match f with FData c => Some c | _ => None end) (frames body)).
Proof.
  intros [H1 _ _ _ _]. apply remaining_prefix. rewrite H1, omap_app.
  assert (omap (λ f : Frame, match f with FData c => Some c | _ => None end) (FData <$> cs) = cs) as ->; [|by eexists].
  clear. induction cs as [|c cs IH]; csimpl; [done|]. by rewrite IH.
Qed.

Lemma poll_trailers_ok s cs rt :
  st_ok s cs →
  ∃ s' cs' r, poll_trailers rt s = (s', r) ∧ st_ok s' cs' ∧
    ∀ d, d = (FData <$> cs) ++ (if rt then [] else trailer_frames s) →
      faithful (d, false) r ∧
      ((deliver r (d, false)).2 = true ∨ (deliver r (d, false)).1 = (FData <$> cs') ++ trailer_frames s').
Proof.
  intros Hok. destruct (poll_rest_ok s cs Hok) as (s' & cs' & r & Hp & Hok' & Hd). unfold poll_trailers.
  destruct rt; [|by eexists _, _, _].
  destruct (trailers s) as [t|] eqn:Et.
  - exists s, cs, (Item (FTrailers t)). split; [done|]. split; [done|]. intros d ->. rewrite app_nil_r.
    destruct Hok as [H1 _ _ _ _]. unfold trailer_frames in *. rewrite Et in *. split; [|by right].
    intros _. simpl. rewrite H1, app_assoc. by eexists.
  - exists s', cs', r. split; [done|]. split; [done|]. intros d ->. apply Hd. unfold trailer_frames. by rewrite Et.
Qed.

Lemma poll_frame_ok rb rt s cs g :
  st_ok s cs → owner_ok rb rt s cs g →
  ∃ c' s' cs' r, poll_frame rb rt s = (c', r) ∧ cl_state c' = Some s' ∧ st_ok s' cs' ∧
    owner_ok (replay_body c') (replay_trailers c') s' cs' (deliver r g) ∧ faithful g r.
Proof.
  intros Hok Ho.
  assert (∀ rt : bool, (g.2 = false → g.1 = (FData <$> cs) ++ (if rt then [] else trailer_frames s)) →
    ∃ c' s' cs' r, (let '(s', r) := poll_trailers rt s in (mkClone (Some s') false false, r)) = (c', r) ∧
      cl_state c' = Some s' ∧ st_ok s' cs' ∧
      owner_ok (replay_body c') (replay_trailers c') s' cs' (deliver r g) ∧ faithful g r) as Hrest.
  { intros rt' Hg. destruct (poll_trailers_ok s cs rt' Hok) as (s' & cs' & r & -> & Hok' & Hd).
    eexists _, s', cs', r. split; [done|]. split; [done|]. split; [done|].
    destruct g as [d [|]]; simpl in *.
    - split; [|done]. left. by destruct r.
    - destruct (Hd d (Hg eq_refl)) as [Hf [Hx|Hx]]; (split; [|done]); [by left|]. right. right. by split_and!. }
  unfold poll_frame. destruct rb; [|apply Hrest; intros Hg; by destruct Ho as [Ho|[(? & _)|(_ & -> & ->)]]; [congruence|..]].
  destruct (replay s !! replay_idx s) as [chunk|] eqn:Ec.
  - eexists _, _, cs, _. split; [done|]. split; [done|]. split; [by apply st_ok_idx|].
    destruct Ho as [Ho|[(_ & -> & Hi & Hg)|(? & _)]]; [|..|done].
    { split; [by left|]. intros ?. congruence. }
    pose proof (lookup_lt_Some _ _ _ Ec) as Hlt. destruct g as [d b]; simpl in *. subst d.
    assert (FData <$> take (S (replay_idx s)) (replay s) = (FData <$> take (replay_idx s) (replay s)) ++ [FData chunk] :> list Frame) as Ht.
    { by rewrite (take_S_r _ _ _ Ec), fmap_app. }
    split; [right; left; by split_and!|]. intros _. simpl. rewrite <-Ht.
    destruct Hok as [H1 _ _ _ H5]. rewrite H1. apply prefix_app_r.
    assert (take (S (replay_idx s)) (replay s) `prefix_of` cs) as [k Hk].
    { etrans; [apply prefix_take|]. destruct (is_capped_state s); [done|by rewrite H5]. }
    rewrite Hk, fmap_app. by eexists.
  - destruct (is_capped_state s) eqn:Ecap.
    + eexists _, s, cs, _. split; [done|]. split; [done|]. split; [done|]. split; [by left|].
      intros _. pose proof (st_ok_total s cs Hok). destruct Hok as [_ _ _ H4 _]. unfold is_capped_state in Ecap.
      apply Nat.eqb_eq in Ecap. lia.
    + apply Hrest. intros Hg. destruct Ho as [Ho|[(_ & -> & Hi & ->)|(? & _)]]; [congruence| |done].
      apply lookup_ge_None in Ec. rewrite take_ge by done. destruct Hok as [_ _ _ _ H5]. rewrite Ecap in H5.
      by rewrite H5, app_nil_r.
Qed.

(** ** Runs *)

(** A clone may be polled when it holds the state or can take it: the contract
    is that no other clone is still being polled. *)
Definition can_poll (i : nat) (w : Bodies) : bool :=
  match clones w !! i with
  | Some c => bool_decide (is_Some (option_or (cl_state c) (shared w)))
  | None => false
  end.

Lemma poll_inv i w G :
  r_inv w G → can_poll i w = true →
  ∃ w' r g, poll i w = Ret (w', r) ∧ G !! i = Some g ∧ r_inv w' (<[i := deliver r g]> G) ∧ faithful g r ∧
    can_poll i w' = true ∧ dom (clones w') = dom (clones w).
Proof.
  intros [(s & cs & Hok & Hcase)] Hcan. unfold can_poll, poll in *. destruct (clones w !! i) as [c|] eqn:Ei; [|done].
  apply bool_decide_eq_true in Hcan.
  assert (∃ g, G !! i = Some g ∧ option_or (cl_state c) (shared w) = Some s ∧
    owner_ok (replay_body c) (replay_trailers c) s cs g ∧
    (match cl_state c with Some s => (Some s, shared w) | None => (shared w, None) end) = (Some s, None) ∧
    ∀ j c', clones w !! j = Some c' → j ≠ i → ∃ g, G !! j = Some g ∧ idle_ok c' g)
    as (g & Hg & _ & Ho & -> & Hidle).
  { destruct Hcase as [(Hsh & Hidx & Hall)|(Hsh & o & co & g & Hco & Hst & Hg & Ho & Hall)].
    - destruct (Hall _ _ Ei) as (g & Hg & Hc & Hrb & Hrt & ->). exists ([], false). rewrite Hc, Hsh. split_and!; try done.
      + right. left. rewrite Hrb, Hrt, Hidx. split_and!; try done; lia.
      + intros j c' Hj _. eauto.
    - destruct (decide (i = o)) as [->|Hne].
      + rewrite Ei in Hco. injection Hco as <-. exists g. rewrite Hst, Hsh. by split_and!.
      + destruct (Hall _ _ Ei Hne) as (g' & _ & Hc & _). rewrite Hc, Hsh in Hcan. by destruct Hcan. }
  destruct (poll_frame_ok _ _ _ _ _ Hok Ho) as (c' & s' & cs' & r & Hpf & Hcl & Hok' & Ho' & Hf).
  simpl. rewrite Hpf. eexists _, r, g. split; [done|]. split; [done|]. split_and!; [|done| |].
  - split. exists s', cs'. split; [done|]. right. simpl. split; [done|]. exists i, c', (deliver r g).
    rewrite !lookup_insert_eq. split_and!; try done.
    intros j cj [[? _]|[_ Hj]]%lookup_insert_Some Hne; [congruence|]. rewrite lookup_insert_ne by done. eauto.
  - simpl. rewrite lookup_insert_eq. apply bool_decide_eq_true. rewrite Hcl. by eexists.
  - simpl. apply dom_insert_lookup_L. by eexists.
Qed.

Lemma clone_inv i j w G :
  r_inv w G → is_Some (clones w !! i) → clones w !! j = None → r_inv (clone j w) (<[j := ([], false)]> G).
Proof.
  intros [(s & cs & Hok & Hcase)] Hi Hj. split. exists s, cs. split; [done|].
  assert (∀ (P : nat → Prop) k c, (∀ k c, clones w !! k = Some c → P k → ∃ g, G !! k = Some g ∧ idle_ok c g) →
    clones (clone j w) !! k = Some c → P k → ∃ g, <[j := ([], false)]> G !! k = Some g ∧ idle_ok c g) as Hidle.
  { intros P k c Hall. simpl. rewrite lookup_insert_Some. intros [[<- <-]|[Hne Hk]] HP.
    - rewrite lookup_insert_eq. eexists. split; [done|]. by split_and!.
    - rewrite lookup_insert_ne by done. eauto. }
  destruct Hcase as [(Hsh & Hidx & Hall)|(Hsh & o & co & g & Hco & Hst & Hg & Ho & Hall)]; [left|right].
  - split_and!; [done..|]. intros k c Hk. apply (Hidle (λ _, True) k c); eauto.
  - split; [done|]. assert (j ≠ o) by congruence. exists o, co, g. simpl. rewrite !lookup_insert_ne by done.
    split_and!; try done. intros k c Hk Hne. apply (Hidle (λ k, k ≠ o) k c); eauto.
Qed.

Lemma drop_inv i w G : r_inv w G → r_inv (drop_body i w) (delete i G).
Proof.
  intros [(s & cs & Hok & Hcase)]. split. unfold drop_body. simpl.
  assert (∀ (P : nat → Prop) k c, (∀ k c, clones w !! k = Some c → P k → ∃ g, G !! k = Some g ∧ idle_ok c g) →
    delete i (clones w) !! k = Some c → P k → ∃ g, delete i G !! k = Some g ∧ idle_ok c g) as Hidle.
  { intros P k c Hall [Hne Hk]%lookup_delete_Some HP. rewrite lookup_delete_ne by done. eauto. }
  assert ((∀ c, clones w !! i = Some c → ∃ g, idle_ok c g) →
    match clones w !! i with Some c => give_back c (shared w) | None => shared w end = shared w) as Hsame.
  { intros Hi. destruct (clones w !! i) as [c|]; [|done]. destruct (Hi c eq_refl) as (g & Hc & _).
    unfold give_back. by rewrite Hc. }
  destruct Hcase as [(Hsh & Hidx & Hall)|(Hsh & o & co & g & Hco & Hst & Hg & Ho & Hall)].
  - exists s, cs. split; [done|]. left. rewrite Hsame by (intros c Hc; destruct (Hall _ _ Hc) as (? & _ & ?); eauto).
    split_and!; [done..|]. intros k c Hk. apply (Hidle (λ _, True) k c); eauto.
  - destruct (decide (i = o)) as [->|Hne].
    + exists (rewind s), cs. split; [by apply st_ok_idx|]. left. rewrite Hco. unfold give_back. rewrite Hst.
      split_and!; [done..|]. intros k c [Hne Hk]%lookup_delete_Some. rewrite lookup_delete_ne by done. eauto.
    + exists s, cs. split; [done|]. right.
      rewrite Hsame by (intros c Hc; destruct (Hall _ _ Hc Hne) as (? & _ & ?); eauto). split; [done|].
      exists o, co, g. rewrite !lookup_delete_ne by done. split_and!; try done.
      intros k c Hk Hko. apply (Hidle (λ k, k ≠ o) k c); eauto.
Qed.

(** The bodies reachable by polling, cloning and dropping, with what each live
    clone has delivered. *)
Inductive r_reach : Bodies → gmap nat delivered → Prop :=
| rr_new hint w : try_new body hint limit = Ok w → r_reach w {[0 := ([], false)]}
| rr_poll i w G w' r g : r_reach w G → can_poll i w = true → poll i w = Ret (w', r) → G !! i = Some g →
    r_reach w' (<[i := deliver r g]> G)
| rr_clone i j w G : r_reach w G → is_Some (clones w !! i) → clones w !! j = None →
    r_reach (clone j w) (<[j := ([], false)]> G)
| rr_drop i w G : r_reach w G → r_reach (drop_body i w) (delete i G).

Lemma new_inv hint w : try_new body hint limit = Ok w → r_inv w {[0 := ([], false)]}.
Proof.
  unfold try_new. case_decide; [done|]. intros [= <-]. split. exists (mkBodyState [] 0 None body false (limit + 1)), []. split.
  - split; simpl; try done; [change (remaining []) with 0; lia|].
    unfold is_capped_state. simpl. destruct (Nat.eqb_spec (limit + 1) 0); [lia|done].
  - right. split; [done|]. exists 0, (mkClone (Some (mkBodyState [] 0 None body false (limit + 1))) false false), ([], false).
    simpl. rewrite !lookup_singleton_eq. split_and!; try done.
    + right. right. by split_and!.
    + intros i c. rewrite lookup_singleton_Some. intros [<- _]. done.
Qed.

Lemma r_reach_inv w G : r_reach w G → r_inv w G.
Proof.
  induction 1 as [hint w Hw|i w G w' r g _ IH Hc Hp Hg|i j w G _ IH Hi Hj|i w G _ IH].
  - by eapply new_inv.
  - destruct (poll_inv i w G IH Hc) as (w2 & r2 & g2 & Hp2 & Hg2 & Hi & _). rewrite Hp in Hp2. rewrite Hg in Hg2. by simplify_eq.
  - by eapply clone_inv.
  - by apply drop_inv.
Qed.

(** What a live clone has delivered is a beginning of the body. *)
Lemma delivered_prefix w G i c (g : delivered) :
  r_inv w G → clones w !! i = Some c → G !! i = Some g → g.2 = false → g.1 `prefix_of` frames body.
Proof.
  intros [(s & cs & [H1 H2 H3 H4 H5] & Hcase)] Hi Hg Hf.
  assert (idle_ok c g → g.1 `prefix_of` frames body) as Hid by (intros (_ & _ & _ & ->); apply prefix_nil).
  destruct Hcase as [(Hsh & Hidx & Hall)|(Hsh & o & co & g' & Hco & Hst & Hg' & Ho & Hall)].
  { destruct (Hall _ _ Hi) as (g2 & Hg2 & ?). simplify_eq. auto. }
  destruct (decide (i = o)) as [->|Hne].
  2:{ destruct (Hall _ _ Hi Hne) as (g2 & Hg2 & ?). simplify_eq. auto. }
  assert (g' = g) as -> by congruence. rewrite H1.
  destruct Ho as [?|[(_ & _ & _ & ->)|(_ & _ & ->)]]; [congruence| |rewrite app_assoc; by eexists].
  apply prefix_app_r. assert (take (replay_idx s) (replay s) `prefix_of` cs) as [k Hk].
  { etrans; [apply prefix_take|]. destruct (is_capped_state s); [done|by rewrite H5]. }
  rewrite Hk, fmap_app. by eexists.
Qed.
End replay_facts.

(** Replaying a request body: over any interleaving of polls, clones and
    drops of the clones of one body in which a clone is polled only while no
    other holds the state, polling never panics; what a clone has delivered is
    always a beginning of the frames of the original body, in order and without
    gaps or repetitions, however much earlier clones read; it ends only after
    the whole body; and it fails as capped only if the body is larger than the
    limit, instead of ending early. *)
Theorem replay_faithful {Trailers Error} (body : list (Event Trailers Error)) limit w G i :
  r_reach body limit w G → can_poll i w = true →
  ∃ w' r g, poll i w = Ret (w', r) ∧ G !! i = Some g ∧
    (g.2 = false → g.1 `prefix_of` frames body) ∧ faithful body limit g r.
Proof.
  intros H%r_reach_inv Hc. destruct (poll_inv body limit i w G H Hc) as (w' & r & g & Hp & Hg & _ & Hf & _).
  exists w', r, g. split_and!; try done. unfold can_poll in Hc. destruct (clones w !! i) as [c|] eqn:E; [|done].
  by eapply delivered_prefix.
Qed.

(** ** The retry loop *)

(** [http/retry/mod.rs]; [attempts] is a [NonZeroU8]. *)
Record RetryPolicy := mkRetryPolicy { attempts : Z; codes : list Z }.

Inductive ProxyError := UpstreamCallFailed | RequestTimeout | DnsResolution | OtherProxyError.

Definition is_retryable (e : ProxyError) : bool :=
  match e with UpstreamCallFailed | RequestTimeout | DnsResolution => true | OtherProxyError => false end.

Inductive AttemptResult := Response (status : Z) | ErrorResponse (e : ProxyError) | DirectResponse.

Definition should_retry (res : AttemptResult) (pol : RetryPolicy) : bool :=
  match res with
  | Response status => bool_decide (status ∈ codes pol)
  | ErrorResponse e => is_retryable e
  | DirectResponse => false
  end.

Section retry.
Context {Trailers Error : Type}.
Local Abbreviation Bodies := (Bodies Trailers Error).
Local Abbreviation Event := (Event Trailers Error).

(** What the upstream does with the bodies it was given, which are numbered by
    the attempt they came with: it may poll one, or drop it. *)
Inductive Action := APoll (i : nat) | ADrop (i : nat).

(** One call of [attempt_upstream]: what happens to the bodies until the loop
    goes on, what it returns, and whether the backoff that follows ends before
    the request's deadline. *)
Record Attempt := mkAttempt {
  at_actions : list Action;
  at_result : AttemptResult;
  at_in_time : bool;
}.

(** What is done during attempt [n], to bodies up to [n] that are not dropped;
    also the results of the polls, with the body polled. *)
Fixpoint run_actions (n : nat) (acts : list Action) (w : Bodies) : outcome (Bodies * list (nat * PollFrame Trailers Error)) :=
  match acts with
  | [] => Ret (w, [])
  | APoll i :: acts' =>
      if decide (i ≤ n ∧ is_Some (clones w !! i)) then
        '(w, r) ← poll i w;
        '(w, rs) ← run_actions n acts' w;
        Ret (w, (i, r) :: rs)
      else run_actions n acts' w
  | ADrop i :: acts' => run_actions n acts' (if decide (i ≤ n) then drop_body i w else w)
  end.

(** The loop, with the attempts left; also what was read during each. *)
Fixpoint retry_loop (attempt : nat → Attempt) (pol : RetryPolicy) (left n : nat) (next : option nat)
    (last_res : option AttemptResult) (w : Bodies)
    : outcome (AttemptResult * list (list (nat * PollFrame Trailers Error))) :=
  match left with
  | 0 => Panic                                  (* unreachable!() *)
  | S left' =>
      this ← expect next;
      match is_capped this w with
      | None | Some true => r ← expect last_res; Ret (r, [])
      | Some false =>
          let last := Nat.eqb left' 0 in
          let w := if last then w else clone (S n) w in
          let next := if last then None else Some (S n) in
          let a := attempt n in
          '(w, out) ← run_actions n (at_actions a) w;
          if last || negb (should_retry (at_result a) pol) then Ret (at_result a, [out])
          else if negb (at_in_time a) then Ret (ErrorResponse RequestTimeout, [out])
          else '(r, outs) ← retry_loop attempt pol left' (S n) next (Some (at_result a)) w; Ret (r, out :: outs)
      end
  end.

Definition MAX_BUFFERED_BYTES : nat := Z.to_nat (64 * 1024).

(** From the retry policy on: [attempts.get() + 1] is a [u8]. Without a replayed
    body the request is sent once. *)
Definition total_attempts (retries : option RetryPolicy) : Z :=
  match retries with Some p => ((attempts p + 1) mod 2 ^ 8)%Z | None => 1 end.

Definition send_with_retries (attempt : nat → Attempt) (retries : option RetryPolicy) (body : list Event)
    (size_hint_lower : nat) : outcome (AttemptResult * list (list (nat * PollFrame Trailers Error))) :=
  match retries with
  | Some pol =>
      if (1 <? total_attempts retries)%Z then
        match try_new body size_hint_lower MAX_BUFFERED_BYTES with
        | Err _ => Ret (at_result (attempt 0), [])
        | Ok w => retry_loop attempt pol (Z.to_nat (total_attempts retries)) 0 (Some 0) None w
        end
      else Ret (at_result (attempt 0), [])
  | None => Ret (at_result (attempt 0), [])
  end.

(** *** Facts *)

Section loop_facts.
Context (body : list Event) (limit : nat).

(** A sequence of poll results, each faithful after the ones before. *)
Fixpoint out_ok (g : delivered (Trailers := Trailers)) (rs : list (PollFrame Trailers Error)) : Prop :=
  match rs with
  | [] => True
  | r :: rs' => faithful body limit g r ∧ out_ok (deliver r g) rs'
  end.

Local Abbreviation delivered := (delivered (Trailers := Trailers)).

(** A body that has not been dropped can be polled, after what it delivered. *)
Definition readable (n : nat) (w : Bodies) (G : gmap nat delivered) (g : delivered) : Prop :=
  is_Some (clones w !! n) → can_poll n w = true ∧ G !! n = Some g.

(** The bodies after [n] are as they were. *)
Definition later_same (n : nat) (w w' : Bodies) (G G' : gmap nat delivered) : Prop :=
  (∀ j, is_Some (clones w' !! j) → is_Some (clones w !! j)) ∧
  ∀ j, n < j → (is_Some (clones w !! j) → is_Some (clones w' !! j)) ∧ G' !! j = G !! j.

Lemma later_same_trans n w1 w2 w3 G1 G2 G3 : later_same n w1 w2 G1 G2 → later_same n w2 w3 G2 G3 → later_same n w1 w3 G1 G3.
Proof. intros [H1 H2] [H3 H4]. split; [auto|]. intros j Hj. destruct (H2 j Hj), (H4 j Hj). split; [auto|congruence]. Qed.

(** Dropping a body leaves the others readable. *)
Lemma drop_readable i n w G g :
  r_inv body limit w G → readable n w G g → i ≤ n →
  readable n (drop_body i w) (delete i G) g ∧ later_same n w (drop_body i w) G (delete i G).
Proof.
  intros [(s & cs & _ & Hcase)] Hr Hi. split.
  - intros [c Hc]. simpl in Hc. apply lookup_delete_Some in Hc as [Hne Hc]. destruct (Hr (ex_intro _ c Hc)) as [Hcan Hg].
    rewrite lookup_delete_ne by done. split; [|done]. unfold can_poll in *. simpl. rewrite lookup_delete_ne by done. rewrite Hc in *.
    apply bool_decide_eq_true in Hcan. apply bool_decide_eq_true. destruct (cl_state c) as [s'|]; [by eexists|]. simpl in *.
    destruct (clones w !! i) as [ci|]; [|done]. unfold give_back. by destruct (cl_state ci).
  - split.
    + intros j [c Hj]. simpl in Hj. apply lookup_delete_Some in Hj as [_ Hj]. by eexists.
    + intros j Hj. simpl. by rewrite !lookup_delete_ne by lia.
Qed.

Lemma run_actions_ok n acts w G g :
  (∀ i, APoll i ∈ acts → i = n) → r_inv body limit w G → readable n w G g →
  ∃ w' rs G', run_actions n acts w = Ret (w', rs) ∧ r_inv body limit w' G' ∧ later_same n w w' G G' ∧
    Forall (λ e, e.1 = n) rs ∧ out_ok g rs.*2.
Proof.
  revert w G g. induction acts as [|[i|i] acts IH]; intros w G g Hacts Hw Hr; simpl.
  - exists w, [], G. by split_and!.
  - assert (i = n) as -> by (apply Hacts; by left). case_decide as Hlive; [|apply (IH w G g); [|done..]; intros; apply Hacts; by right].
    destruct (Hr (proj2 Hlive)) as [Hc Hg].
    destruct (poll_inv body limit n w G Hw Hc) as (w1 & r & g1 & -> & Hg1 & Hw1 & Hf & Hc1 & Hd). simpl.
    assert (g1 = g) as -> by congruence.
    destruct (IH w1 (<[n := deliver r g]> G) (deliver r g)) as (w' & rs & G' & -> & Hw' & Hl & Hall & Ho); [by intros; apply Hacts; right|done| |].
    { intros _. split; [done|]. by rewrite lookup_insert_eq. }
    simpl. exists w', ((n, r) :: rs), G'. split_and!; try done; [|by constructor].
    eapply later_same_trans; [|exact Hl]. split; [intros j; by rewrite <-!elem_of_dom, Hd|]. intros j Hj.
    rewrite lookup_insert_ne by lia. by rewrite <-!elem_of_dom, Hd.
  - case_decide as Hi; [|apply (IH w G g); [|done..]; intros; apply Hacts; by right].
    destruct (drop_readable i n w G g Hw Hr Hi) as [Hr' Hl'].
    destruct (IH (drop_body i w) (delete i G) g) as (w' & rs & G' & -> & Hw' & Hl & Hrest); [by intros; apply Hacts; right|by apply drop_inv|done|].
    exists w', rs, G'. split; [done|]. split; [done|]. split; [|done]. by eapply later_same_trans.
Qed.

(** What the loop maintains before attempt [n]. *)
Record loop_inv (n : nat) (w : Bodies) (G : gmap nat delivered) : Prop := mkLoopInv {
  li_inv : r_inv body limit w G;
  li_this : G !! n = Some ([], false);
  li_alive : is_Some (clones w !! n);
  li_fresh : ∀ j, is_Some (clones w !! j) → j ≤ n;
}.

Lemma is_capped_can_poll i (w : Bodies) b : is_capped i w = Some b → can_poll i w = true.
Proof.
  unfold is_capped, can_poll. destruct (clones w !! i) as [c|]; [|done].
  destruct (option_or (cl_state c) (shared w)) as [s|]; [|done]. intros _. by apply bool_decide_eq_true.
Qed.

(** The verdict of the loop: the result is that of the last attempt made, or a
    timeout in the backoff after it, and every attempt before it could be
    retried. *)
Definition verdict (attempt : nat → Attempt) (pol : RetryPolicy) (n : nat) (r : AttemptResult) : Prop :=
  (r = at_result (attempt n) ∨ (r = ErrorResponse RequestTimeout ∧ at_in_time (attempt n) = false)).

(** The upstream polls a body only during the attempt it came with. *)
Definition polls_own_body (attempt : nat → Attempt) : Prop := ∀ n i, APoll i ∈ at_actions (attempt n) → i = n.

(** What was read during attempt [n]: only its own body, faithfully. *)
Definition read_ok (n : nat) (out : list (nat * PollFrame Trailers Error)) : Prop :=
  Forall (λ e, e.1 = n) out ∧ out_ok ([], false) out.*2.

Lemma retry_loop_ok attempt pol left n w G last_res :
  polls_own_body attempt → 0 < left → loop_inv n w G →
  (match n with 0 => is_capped 0 w = Some false | S k => last_res = Some (at_result (attempt k)) end) →
  ∃ r outs m, retry_loop attempt pol left n (Some n) last_res w = Ret (r, outs) ∧
    (∀ k out, outs !! k = Some out → read_ok (n + k) out) ∧ length outs ≤ left ∧
    m < n + left ∧ n + length outs = S m ∧ verdict attempt pol m r ∧
    ∀ j, n ≤ j < m → should_retry (at_result (attempt j)) pol = true.
Proof.
  intros Hown. revert n w G last_res. induction left as [|left IH]; intros n w G last_res Hleft [Hw Ht Ha Hfr] Hlast; [lia|].
  cbn [retry_loop expect mbind outcome_bind].
  destruct (is_capped n w) as [[|]|] eqn:Ecap.
  1, 3: destruct n as [|n]; [congruence|]; rewrite Hlast; simpl; exists (at_result (attempt n)), [], n;
    split_and!; try done; try (simpl; lia); by left.
  set (last := Nat.eqb left 0). set (w1 := if last then w else clone (S n) w).
  set (G1 := if last then G else <[S n := ([], false)]> G).
  assert (clones w !! S n = None) as Hnew.
  { apply eq_None_not_Some. intros Hs%Hfr. lia. }
  assert (r_inv body limit w1 G1) as Hw1.
  { unfold w1, G1. destruct last; [done|]. by apply (clone_inv body limit n). }
  assert (readable n w1 G1 ([], false)) as Hr1.
  { intros _. apply is_capped_can_poll in Ecap. unfold w1, G1. destruct last; [done|]. unfold can_poll in *. simpl.
    by rewrite !lookup_insert_ne by lia. }
  destruct (run_actions_ok n (at_actions (attempt n)) w1 G1 _ (Hown n) Hw1 Hr1) as (w2 & out & G2 & -> & Hw2 & [Hsub Hlater] & Hread).
  assert (∀ k o, [out] !! k = Some o → read_ok (n + k) o) as Hone.
  { intros [|k] o Ho; [|done]. injection Ho as <-. by rewrite Nat.add_0_r. }
  simpl. destruct (last || negb (should_retry (at_result (attempt n)) pol)) eqn:Estop.
  { exists (at_result (attempt n)), [out], n. split_and!; try done; try (simpl; lia); by left. }
  apply orb_false_iff in Estop as [Elast Eretry]. apply negb_false_iff in Eretry.
  destruct (at_in_time (attempt n)) eqn:Etime; simpl.
  2:{ eexists _, [out], n. split_and!; try done; try (simpl; lia); by right. }
  assert (loop_inv (S n) w2 G2) as Hinv.
  { unfold w1, G1 in *. rewrite Elast in *. destruct (Hlater (S n)) as [Hal HG]; [lia|]. apply mkLoopInv; [done| | |].
    - etrans; [exact HG|]. by rewrite lookup_insert_eq.
    - apply Hal. simpl. by rewrite lookup_insert_eq.
    - intros j Hj%Hsub. simpl in Hj. destruct (decide (j = S n)) as [->|]; [done|]. rewrite lookup_insert_ne in Hj by done. specialize (Hfr j Hj). lia. }
  apply Nat.eqb_neq in Elast.
  destruct (IH (S n) w2 G2 (Some (at_result (attempt n)))) as (r & outs & m & Hrun & Hall & Hlen & Hm & Hnm & Hv & Hpre); [lia|done|done|].
  unfold last in *. apply Nat.eqb_neq in Elast. rewrite Elast. simpl. rewrite Hrun. simpl. exists r, (out :: outs), m.
  split_and!; try done; try (simpl; lia).
  - intros [|k] o Ho; [injection Ho as <-; by rewrite Nat.add_0_r|]. specialize (Hall k o Ho). by replace (n + S k) with (S n + k) by lia.
  - intros j Hj. destruct (decide (j = n)) as [->|]; [done|]. apply Hpre. lia.
Qed.
End loop_facts.

(** C17. Sending a request with a retry policy of up to 254 retries never
    panics, as long as the upstream polls a body only during the attempt it was
    given for; it may read as much as it likes and drop bodies whenever it
    likes, or never. Every attempt reads the request body faithfully; there are
    at most one more attempts than retries; the result is that of the last
    attempt, or a timeout in the backoff after it; and every earlier attempt was
    one the policy retries. *)
Theorem retries_faithful (attempt : nat → Attempt) pol (body : list Event) hint :
  (1 ≤ attempts pol ≤ 254)%Z → polls_own_body attempt →
  ∃ r outs m, send_with_retries attempt (Some pol) body hint = Ret (r, outs) ∧
    (∀ k out, outs !! k = Some out → read_ok body MAX_BUFFERED_BYTES k out) ∧
    (Z.of_nat m ≤ attempts pol)%Z ∧ length outs ≤ S m ∧ verdict attempt pol m r ∧
    ∀ j, j < m → should_retry (at_result (attempt j)) pol = true.
Proof.
  intros Ha Hown. unfold send_with_retries, total_attempts. rewrite Z.mod_small by lia.
  generalize MAX_BUFFERED_BYTES. intros cap.
  destruct (Z.ltb_spec 1 (attempts pol + 1)); [|lia].
  destruct (try_new body hint cap) as [w|] eqn:Ew.
  2:{ exists (at_result (attempt 0)), [], 0. split_and!; try done; simpl; [lia..|by left|lia]. }
  assert (is_capped 0 w = Some false ∧ loop_inv body cap 0 w {[0 := ([], false)]}) as [Hc Hinv].
  { pose proof (new_inv _ _ _ _ Ew) as Hw. unfold try_new in Ew. case_decide; [done|]. injection Ew as <-. split.
    - unfold is_capped. simpl. rewrite lookup_singleton_eq. simpl. unfold is_capped_state. simpl. f_equal.
      apply Nat.eqb_neq. lia.
    - split; simpl; [done|by rewrite lookup_singleton_eq|by rewrite lookup_singleton_eq|].
      intros j [x Hx]. apply lookup_singleton_Some in Hx as [<- _]. lia. }
  destruct (retry_loop_ok body cap attempt pol (Z.to_nat (attempts pol + 1)) 0 w {[0 := ([], false)]} None)
    as (r & outs & m & Hrun & Hall & Hlen & Hm & Hnm & Hv & Hpre); [done|lia|exact Hinv|done|].
  exists r, outs, m. split_and!; try done; [lia..|]. intros j Hj. apply Hpre. lia.
Qed.

(** The attempt count is a [u8] one above the configured number, so the
    largest number of retries a policy can ask for, 255, wraps to no attempts,
    and the request is sent once, whatever comes back. *)
Theorem max_retries_wrap (attempt : nat → Attempt) status_codes (body : list Event) hint :
  send_with_retries attempt (Some (mkRetryPolicy 255 status_codes)) body hint = Ret (at_result (attempt 0), []).
Proof. done. Qed.
End retry.
