(* ===== verification/PeekBody.v ===== *)
(** * Looking into a body

    [http/peekbody.rs]: [inspect_body] reads up to a limit of bytes of a body
    and leaves a body that gives them again. A body is what its polls give, as
    in [Replay]. *)
From stdpp Require Import base list.
From Stdlib Require Import ZArith.
From S2P Require Import Prelude RustStd Replay.

Local Open Scope list_scope.
Local Open Scope nat_scope.

Section peek.
Context {Trailers Error : Type}.
Local Abbreviation Event := (Event Trailers Error).

(** ** [PartiallyBufferedBody] *)

Record PartiallyBufferedBody := mkPartial { pb_buffer : list (list Z); pb_trailers : option Trailers; pb_inner : list Event }.

(** [poll_frame]: what it gives, [None] at the end. *)
Definition pb_poll_frame (b : PartiallyBufferedBody) : PartiallyBufferedBody * option Event :=
  match pb_buffer b with
  | br :: buffer => (mkPartial buffer (pb_trailers b) (pb_inner b), Some (EFrame (FData br)))
  | [] =>
      match pb_trailers b with
      | Some t => (mkPartial [] None (pb_inner b), Some (EFrame (FTrailers t)))
      | None =>
          match pb_inner b with
          | [] => (b, None)
          | e :: es => (mkPartial [] None es, Some e)
          end
      end
  end.

(** What its polls give, to the end. *)
Fixpoint pb_drain (fuel : nat) (b : PartiallyBufferedBody) : list Event :=
  match fuel with
  | 0 => []
  | S fuel' => match pb_poll_frame b with (_, None) => [] | (b', Some e) => e :: pb_drain fuel' b' end
  end.

Definition pb_length (b : PartiallyBufferedBody) : nat := length (pb_buffer b) + length (option_list (pb_trailers b)) + length (pb_inner b).

(** As a body: what its polls give. *)
Definition pb_body (b : PartiallyBufferedBody) : list Event := pb_drain (pb_length b) b.

(** ** [inspect_body] *)

Fixpoint inspect_loop (es : list Event) (want : nat) (buffer : list (list Z)) (trailers : option Trailers)
    : outcome (result PartiallyBufferedBody Error) :=
  match es with
  | [] => Ret (Ok (mkPartial buffer trailers []))
  | EPending :: es' => inspect_loop es' want buffer trailers
  | EError e :: _ => Ret (Err e)
  | EUnknown :: _ => Panic                      (* into_trailers().unwrap() *)
  | EFrame (FTrailers t) :: es' => inspect_loop es' want buffer (Some t)
  | EFrame (FData data) :: es' =>
      let want_this_read := length data `min` want in
      if decide (want_this_read = 0) then Ret (Ok (mkPartial buffer trailers es'))
      else
        let buffer := buffer ++ [data] in
        let want := want - want_this_read in
        if decide (want = 0) then Ret (Ok (mkPartial buffer trailers es'))
        else inspect_loop es' want buffer trailers
  end.

(** The bytes and the body that is left; an error leaves an empty body. *)
Definition inspect_body (body : list Event) (limit : nat) : outcome (list Event * result (list Z) Error) :=
  r ← inspect_loop body limit [] None;
  match r with
  | Err e => Ret ([], Err e)
  | Ok nb => Ret (pb_body nb, Ok (take (remaining (pb_buffer nb) `min` limit) (mjoin (pb_buffer nb))))
  end.

(** ** What is read, and what is left *)

(** What a body says: its polls but for those that give nothing. *)
Definition says (e : Event) : bool := match e with EPending => false | EFrame (FData []) => false | _ => true end.
Definition content (es : list Event) : list Event := List.filter says es.

(** The bytes before the first frame that is empty. *)
Fixpoint visible (es : list Event) : list Z :=
  match es with
  | EFrame (FData []) :: _ => []
  | EFrame (FData d) :: es' => d ++ visible es'
  | _ :: es' => visible es'
  | [] => []
  end.

(** Without its first frame of data. *)
Fixpoint drop_data (es : list Event) : list Event :=
  match es with
  | EFrame (FData _) :: es' => es'
  | e :: es' => e :: drop_data es'
  | [] => []
  end.

(** Frames of data and then trailers, as [http_body] promises. *)
Fixpoint well_formed (es : list Event) : bool :=
  match es with
  | [] => true
  | EUnknown :: _ => false
  | EFrame (FTrailers _) :: es' => forallb (λ e, match e with EPending => true | _ => false end) es'
  | _ :: es' => well_formed es'
  end.

Definition has_error (es : list Event) : bool := existsb (λ e, match e with EError _ => true | _ => false end) es.

Lemma pb_drain_eq fuel b :
  pb_length b ≤ fuel → pb_drain fuel b = (EFrame ∘ FData <$> pb_buffer b) ++ (EFrame ∘ FTrailers <$> option_list (pb_trailers b)) ++ pb_inner b.
Proof.
  revert b. induction fuel as [|fuel IH]; intros [buffer trailers inner] Hf; unfold pb_length in Hf; simpl in *.
  - destruct buffer, trailers, inner; simpl in *; try lia; done.
  - unfold pb_poll_frame. simpl. destruct buffer as [|br buffer]; [destruct trailers as [t|]; [|destruct inner as [|e inner]; [done|]]|];
      rewrite IH by (unfold pb_length; simpl in *; lia); done.
Qed.

Lemma pb_body_eq b : pb_body b = (EFrame ∘ FData <$> pb_buffer b) ++ (EFrame ∘ FTrailers <$> option_list (pb_trailers b)) ++ pb_inner b.
Proof. by apply pb_drain_eq. Qed.

Lemma content_app (l k : list Event) : content (l ++ k) = content l ++ content k.
Proof. apply List.filter_app. Qed.

Lemma content_pending es : forallb (λ e, match e with EPending => true | _ => false end) es = true → content es = [] ∧ visible es = [] ∧ drop_data es = es.
Proof.
  induction es as [|[[d|t]| | |e] es IH]; simpl; try done. intros H. destruct (IH H) as (Hc & Hv & Hd). by rewrite Hd.
Qed.

Lemma loop_pending es want buffer (trailers : option Trailers) :
  forallb (λ e : Event, match e with EPending => true | _ => false end) es = true →
  inspect_loop es want buffer trailers = Ret (Ok (mkPartial buffer trailers [])).
Proof. induction es as [|[[d|t]| | |e] es IH]; simpl; try done. Qed.

(** The loop, with bytes wanted. *)
Lemma inspect_loop_ok es want buffer :
  well_formed es = true → 0 < want →
  (∃ nb, inspect_loop es want buffer None = Ret (Ok nb) ∧
     (∃ tail, pb_buffer nb = buffer ++ tail ∧ take want (mjoin tail) = take want (visible es)) ∧
     content (pb_body nb) = content (EFrame ∘ FData <$> buffer) ++ content es) ∨
  (∃ e, inspect_loop es want buffer None = Ret (Err e) ∧ EError e ∈ es).
Proof.
  revert want buffer. induction es as [|ev es IH]; intros want buffer Hwf Hw.
  - left. eexists. split; [done|]. split; [exists []; by rewrite app_nil_r|]. rewrite pb_body_eq. simpl. by rewrite !app_nil_r.
  - destruct ev as [[d|t]| | |e]; simpl in Hwf |- *; [| |done| |].
    + destruct (decide (length d `min` want = 0)) as [Hz|Hz].
      * assert (d = []) as -> by (apply nil_length_inv; lia). left. eexists. split; [done|]. split; [exists []; by rewrite app_nil_r|].
        rewrite pb_body_eq. simpl. by rewrite content_app.
      * assert (d ≠ []) as Hd by (by intros ->). destruct (decide (want - length d `min` want = 0)) as [He|He].
        -- left. eexists. split; [done|]. split.
           ++ exists [d]. split; [done|]. simpl. rewrite app_nil_r. destruct d as [|z d]; [done|]. by rewrite (take_app_le (z :: d)) by lia.
           ++ rewrite pb_body_eq. simpl. rewrite fmap_app, content_app, content_app, <-app_assoc. f_equal. destruct d; [done|]. done.
        -- assert (length d < want ∧ length d `min` want = length d) as [Hlt Hmin] by (destruct (Nat.min_spec (length d) want); lia).
           rewrite Hmin in *. destruct (IH (want - length d) (buffer ++ [d]) Hwf) as [(nb & Hl & (tail & Ht & Hv) & Hc)|(e & Hl & Hin)]; [lia| |].
           ++ left. exists nb. split; [done|]. split.
              ** exists (d :: tail). split; [by rewrite Ht, <-app_assoc|]. simpl.
                 assert (visible (EFrame (FData d) :: es) = d ++ visible es) as Hvis by (by destruct d). simpl in Hvis.
                 replace (match d with [] => [] | _ :: _ => d ++ visible es end) with (d ++ visible es) by (by destruct d).
                 replace want with (length d + (want - length d)) by lia. by rewrite !take_app_add, Hv.
              ** rewrite Hc, fmap_app, content_app, <-app_assoc. f_equal. by destruct d.
           ++ right. exists e. split; [done|]. by right.
    + rewrite (loop_pending es want buffer (Some t) Hwf). left. eexists. split; [done|].
      destruct (content_pending es Hwf) as (Hc & Hv & _). split; [exists []; by rewrite app_nil_r, Hv|].
      rewrite pb_body_eq, content_app. simpl. by rewrite Hc.
    + destruct (IH want buffer Hwf Hw) as [H|(e & Hl & Hin)]; [by left|]. right. exists e. split; [done|]. by right.
    + right. exists e. split; [done|]. by left.
Qed.

(** The loop, with no bytes wanted: the first frame of data is lost. *)
Lemma inspect_loop_zero es :
  well_formed es = true →
  (∃ nb, inspect_loop es 0 [] None = Ret (Ok nb) ∧ pb_buffer nb = [] ∧ content (pb_body nb) = content (drop_data es)) ∨
  (∃ e, inspect_loop es 0 [] None = Ret (Err e) ∧ EError e ∈ es).
Proof.
  induction es as [|ev es IH]; intros Hwf; [left; by eexists|].
  destruct ev as [[d|t]| | |e]; simpl in Hwf |- *; [| |done| |].
  - rewrite Nat.min_0_r. rewrite decide_True by done. left. eexists. split; [done|]. by rewrite pb_body_eq.
  - rewrite (loop_pending es 0 [] (Some t) Hwf). left. eexists. split; [done|]. split; [done|].
    destruct (content_pending es Hwf) as (Hc & _ & Hd). rewrite pb_body_eq, Hd. simpl. by rewrite Hc.
  - destruct (IH Hwf) as [H|(e & Hl & Hin)]; [by left|]. right. exists e. split; [done|]. by right.
  - right. exists e. split; [done|]. by left.
Qed.

Lemma join_remaining (l : list (list Z)) : length (mjoin l) = remaining l.
Proof. unfold remaining. induction l as [|b l IH]; [done|]. simpl. by rewrite length_app, IH. Qed.

Lemma take_all_of {A} (l : list A) m n : length l = m → take (m `min` n) l = take n l.
Proof. intros <-. destruct (Nat.min_spec (length l) n) as [[H ->]|[H ->]]; [|done]. by rewrite !take_ge by lia. Qed.

Lemma inspect_body_ok (body : list Event) limit :
  well_formed body = true →
  ∃ nb r, inspect_body body limit = Ret (nb, r) ∧
    match r with
    | Ok bytes => bytes = take limit (visible body) ∧ content nb = content (if decide (limit = 0) then drop_data body else body)
    | Err e => nb = [] ∧ EError e ∈ body
    end.
Proof.
  intros Hwf. unfold inspect_body. destruct (decide (limit = 0)) as [->|Hl].
  - destruct (inspect_loop_zero body Hwf) as [(nb & -> & Hb & Hc)|(e & -> & Hin)]; eexists _, _; (split; [done|]); [|done].
    rewrite Nat.min_0_r. done.
  - destruct (inspect_loop_ok body limit [] Hwf) as [(nb & -> & (tail & Hb & Hv) & Hc)|(e & -> & Hin)]; [lia| |];
      eexists _, _; (split; [done|]); [|done].
    split; [|done]. simpl in Hb. subst tail. rewrite take_all_of by apply join_remaining. done.
Qed.

(** What looking into a body sees and leaves. It sees the first bytes, up
    to the limit, but nothing from the first empty frame on; and it leaves a
    body that says what the original said, except that with a limit of zero the
    first frame of data is lost. On an error of the body it fails. *)
Theorem inspect_body_exact (body : list Event) limit :
  well_formed body = true →
  ∃ nb r, inspect_body body limit = Ret (nb, r) ∧
    match r with
    | Ok bytes => bytes = take limit (visible body) ∧ content nb = content (if decide (limit = 0) then drop_data body else body)
    | Err e => nb = [] ∧ EError e ∈ body
    end.
Proof. apply inspect_body_ok. Qed.
End peek.
