(* ===== verification/EnvoyHeaders.v ===== *)
(** * Header mutations of external services

    [http/envoy_proto_common.rs] and the parts of [http/mod.rs] it uses: the
    values of headers and pseudo headers, and what a mutation does to a request
    ([apply_header] of [HttpRequest]) and to a response. *)
From stdpp Require Import base gmap strings list.
From Stdlib Require Import ZArith Ascii.
From S2P Require Import Prelude RustStd AgentTypes RouteSelect HttpRequest Pipeline.

Local Open Scope string_scope.
Local Open Scope list_scope.

(** ** The [http] crate *)

(** [HeaderValue::from_bytes], [Method::from_bytes], [Scheme::try_from] and
    [Uri::try_from]. *)
Class MessageCrate := {
  header_value_from_bytes : string → option string;
  method_from_bytes : string → option string;
  scheme_try_from : string → option string;
  uri_try_from : string → option Uri;
}.

(** [StatusCode::from_u16], and [u16::from_str]. *)
Definition status_from_u16 (c : Z) : option Z := if ((100 <=? c) && (c <? 1000))%Z then Some c else None.

Definition parse_u16 (s : string) : option Z :=
  let d := default s (Str.strip_prefix "+" s) in
  let v := Str.digits_value 0 d in
  if negb (Str.is_empty d) && Str.all_chars Str.is_ascii_digit d && (v <=? 65535)%Z then Some v else None.

(** ** Responses *)

Section responses.
Context {Body : Type}.

Local Abbreviation Resp := (Response (Body := Body)).

Definition set_status (c : Z) (r : Resp) : Resp := mkResponse c (rs_headers r) (rs_body r).
Definition on_headers (f : HeaderMap → HeaderMap) (r : Resp) : Resp := mkResponse (rs_status r) (f (rs_headers r)) (rs_body r).

(** [RequestOrResponse::apply_header], for a response. *)
Definition apply_header_response (k : HeaderOrPseudo) (v : option HeaderOrPseudoValue) (action : HeaderMutationAction) (r : Resp) : outcome Resp :=
  match k, v with
  | HPHeader k, Some (VHeader v) =>
      if negb (should_apply action (contains_key k (rs_headers r))) then Ret r
      else Ret (on_headers ((if should_append action then hm_append else hm_insert) k v) r)
  | HPHeader k, None => Ret (on_headers (hm_remove k) r)
  | _, Some (VStatus c) => Ret (set_status c r)
  | _, Some (VMethod _) | _, Some (VScheme _) | _, Some (VAuthority _) | _, Some (VPath _) => Ret r
  | _, None => Ret r
  | _, Some (VHeader _) => Panic                (* unreachable!("invalid k/v pair") *)
  end.
End responses.

(** ** The messages *)

Record ProtoHeaderValue := mkPHV { ph_key : string; ph_value : string; ph_raw_value : string }.
Record ProtoHeaderValueOption := mkPHVO { pho_header : option ProtoHeaderValue; pho_append : option bool; pho_append_action : Z }.

Definition raw_or_value_bytes (h : ProtoHeaderValue) : option string :=
  if negb (Str.is_empty (ph_raw_value h)) then Some (ph_raw_value h)
  else if negb (Str.is_empty (ph_value h)) then Some (ph_value h)
  else None.

Definition resolve_append_action (h : ProtoHeaderValueOption) : HeaderMutationAction :=
  if decide (pho_append_action h = 0%Z) then
    match pho_append h with Some true => AppendIfExistsOrAdd | _ => OverwriteIfExistsOrAdd end
  else if decide (pho_append_action h = 1%Z) then AddIfAbsent
  else if decide (pho_append_action h = 2%Z) then OverwriteIfExistsOrAdd
  else if decide (pho_append_action h = 3%Z) then OverwriteIfExists
  else AppendIfExistsOrAdd.

Section mutations.
Context {UC : UriCrate} {HC : HttpCrate} {RE : RegexEngine} {MC : MessageCrate}.

(** [HeaderOrPseudo::try_from] and [HeaderOrPseudoValue::from_raw]. *)
Definition header_or_pseudo_try_from (s : string) : option HeaderOrPseudo :=
  if bool_decide (s = ":method") then Some HPMethod
  else if bool_decide (s = ":scheme") then Some HPScheme
  else if bool_decide (s = ":authority") then Some HPAuthority
  else if bool_decide (s = ":path") then Some HPPath
  else if bool_decide (s = ":status") then Some HPStatus
  else HPHeader <$> header_name_from_bytes s.

Definition from_raw (k : HeaderOrPseudo) (raw : string) : option HeaderOrPseudoValue :=
  match k with
  | HPHeader _ => VHeader <$> header_value_from_bytes raw
  | HPStatus => VStatus <$> (parse_u16 raw ≫= status_from_u16)
  | HPMethod => VMethod <$> method_from_bytes raw
  | HPScheme => VScheme <$> scheme_try_from raw
  | HPAuthority => VAuthority <$> authority_try_from raw
  | HPPath => VPath <$> pq_try_from raw
  end.

(** [None]: the value is not valid; [Some None]: there is none. *)
Definition decode_header_value (h : ProtoHeaderValue) : option (option string) :=
  match raw_or_value_bytes h with
  | None => Some None
  | Some raw => Some <$> header_value_from_bytes raw
  end.

Definition apply_header_value_option (name : string) (h : ProtoHeaderValueOption) (hm : HeaderMap) : HeaderMap :=
  match pho_header h ≫= decode_header_value with
  | Some (Some v) =>
      match resolve_append_action h with
      | AppendIfExistsOrAdd => hm_append name v hm
      | AddIfAbsent => if contains_key name hm then hm else hm_insert name v hm
      | OverwriteIfExistsOrAdd => hm_insert name v hm
      | OverwriteIfExists => if contains_key name hm then hm_insert name v hm else hm
      end
  | _ => hm
  end.

(** What [apply_header_option] asks for, if it is valid. *)
Definition header_mutation (h : ProtoHeaderValueOption) : option (HeaderOrPseudo * HeaderOrPseudoValue * HeaderMutationAction) :=
  p ← pho_header h;
  key ← header_or_pseudo_try_from (ph_key p);
  raw ← raw_or_value_bytes p;
  value ← from_raw key raw;
  Some (key, value, resolve_append_action h).

Definition apply_header_option (h : ProtoHeaderValueOption) (r : Head) : outcome Head :=
  match header_mutation h with Some (k, v, a) => apply_header k (Some v) a r | None => Ret r end.

(** The mutation costs the request: the URI it asks for is none. *)
Definition option_loses (h : ProtoHeaderValueOption) (r : Head) : bool :=
  match header_mutation h with Some (k, v, _) => lost k (Some v) r | None => false end.

Definition apply_header_option_response {Body} (h : ProtoHeaderValueOption) (r : Response (Body := Body)) : outcome (Response (Body := Body)) :=
  match header_mutation h with Some (k, v, a) => apply_header_response k (Some v) a r | None => Ret r end.

Definition apply_header_value (h : ProtoHeaderValue) (hm : HeaderMap) : HeaderMap :=
  match header_name_from_bytes (ph_key h), decode_header_value h with
  | Some name, Some (Some v) => hm_insert name v hm
  | _, _ => hm
  end.

(** ** Mutations never panic *)

Definition kind_of (k : HeaderOrPseudo) (v : HeaderOrPseudoValue) : bool :=
  match k, v with
  | HPHeader _, VHeader _ | HPStatus, VStatus _ | HPMethod, VMethod _ | HPScheme, VScheme _ | HPAuthority, VAuthority _ | HPPath, VPath _ => true
  | _, _ => false
  end.

Lemma from_raw_kind k raw v : from_raw k raw = Some v → kind_of k v = true.
Proof. destruct k; simpl; intros (x & _ & ->)%fmap_Some; done. Qed.

Lemma header_mutation_kind h k v a : header_mutation h = Some (k, v, a) → kind_of k v = true.
Proof.
  unfold header_mutation. intros (p & _ & H)%bind_Some. apply bind_Some in H as (key & _ & H). apply bind_Some in H as (raw & _ & H).
  apply bind_Some in H as (value & Hv & H). injection H as <- <- <-. by eapply from_raw_kind.
Qed.

Lemma apply_header_kind k v a (r : Head) : kind_of k v = true → ∃ r', apply_header k (Some v) a r = Ret r'.
Proof. destruct k, v; simpl; try done; intros _; repeat case_match; eauto. Qed.

Lemma apply_header_response_kind {Body} k v a (r : Response (Body := Body)) : kind_of k v = true → ∃ r', apply_header_response k (Some v) a r = Ret r'.
Proof. destruct k, v; simpl; try done; intros _; repeat case_match; eauto. Qed.

Lemma apply_header_option_ok h (r : Head) : ∃ r', apply_header_option h r = Ret r'.
Proof.
  unfold apply_header_option. destruct (header_mutation h) as [[[k v] a]|] eqn:E; [|eauto].
  by eapply apply_header_kind, header_mutation_kind.
Qed.

Lemma apply_header_option_response_ok {Body} h (r : Response (Body := Body)) : ∃ r', apply_header_option_response h r = Ret r'.
Proof.
  unfold apply_header_option_response. destruct (header_mutation h) as [[[k v] a]|] eqn:E; [|eauto].
  by eapply apply_header_response_kind, header_mutation_kind.
Qed.

Lemma apply_header_options_ok (hs : list ProtoHeaderValueOption) (r : Head) : ∃ r', fold_out apply_header_option hs r = Ret r'.
Proof.
  revert r. induction hs as [|h hs IH]; intros r; [by exists r|]. destruct (apply_header_option_ok h r) as [r1 H1].
  destruct (IH r1) as [r2 H2]. exists r2. cbn [fold_out]. by rewrite H1.
Qed.

Lemma apply_header_options_response_ok {Body} (hs : list ProtoHeaderValueOption) (r : Response (Body := Body)) :
  ∃ r', fold_out apply_header_option_response hs r = Ret r'.
Proof.
  revert r. induction hs as [|h hs IH]; intros r; [by exists r|]. destruct (apply_header_option_response_ok h r) as [r1 H1].
  destruct (IH r1) as [r2 H2]. exists r2. cbn [fold_out]. by rewrite H1.
Qed.
End mutations.
