(* ===== verification/ExtAuthz.v ===== *)
(** * External authorization

    [http/ext_authz.rs]: a service is asked whether a request may pass, by gRPC
    or by HTTP, with the part of the request it is configured to see; its answer
    may change the request, or be the response. The call is a parameter: what
    the service answers to a question, [None] when it cannot be reached. *)
From stdpp Require Import base gmap strings list.
From Stdlib Require Import ZArith Ascii.
From S2P Require Import Prelude RustStd Authorization AgentTypes RouteSelect HttpRequest Htpasswd Auth Pipeline Replay PeekBody EnvoyHeaders.

Local Open Scope string_scope.
Local Open Scope list_scope.

(** ** Configuration *)

Record BodyOptions := mkBodyOptions { max_request_bytes : nat; allow_partial_message : bool; pack_as_bytes : bool }.

Inductive AuthzFailureMode := FMAllow | FMDeny | FMDenyWithStatus (code : Z).

(** ** What a service is asked over gRPC *)

Inductive CheckBody := CBText (bytes : list Z) | CBRaw (bytes : list Z).   (* text is decoded lossily *)

Record CheckRequest {Struct : Type} := mkCheckRequest {
  cq_source : SocketAddr;
  cq_principal : string;
  cq_destination : SocketAddr;
  cq_sni : option string;
  cq_method : string;
  cq_headers : gmap string string;
  cq_path : string;
  cq_host : string;
  cq_scheme : string;
  cq_protocol : string;
  cq_size : Z;
  cq_body : CheckBody;
  cq_metadata : gmap string Struct;
  cq_context : gmap string string;
}.
Arguments CheckRequest : clear implicits.
Arguments mkCheckRequest {Struct}.

Record DeniedHttpResponse := mkDenied { dn_status : option Z; dn_headers : list ProtoHeaderValueOption; dn_body : string }.

Record OkHttpResponse := mkOkHttp {
  ok_headers : list ProtoHeaderValueOption;
  ok_headers_to_remove : list string;
  ok_response_headers_to_add : list ProtoHeaderValueOption;
  ok_query_parameters_to_set : list (string * string);
  ok_query_parameters_to_remove : list string;
}.

Inductive HttpResponse := HRDenied (d : DeniedHttpResponse) | HROk (o : OkHttpResponse).

Record CheckResponse {PValue : Type} := mkCheckResponse {
  cr_status : option Z;
  cr_dynamic_metadata : option (list (string * PValue));
  cr_http_response : option HttpResponse;
}.
Arguments CheckResponse : clear implicits.
Arguments mkCheckResponse {PValue}.

Inductive CheckError := ExternalAuthorizationFailed (status : option Z) | ProcessingFailed.

Inductive BufferRequestBodyError := TooLarge | ReadFailed.
Record BufferedRequestBody := mkBuffered { br_body : list Z; br_is_partial : bool; br_original_size : Z }.

Section ext_authz.
Context {UC : UriCrate} {HC : HttpCrate} {RE : RegexEngine} {MC : MessageCrate} {CE : CelEngine}.
Context {CK : CookieCrate} {FC : FormCrate} {JW : JsonWebToken}.
Context {UserMetadata Trailers BErr Value EvalError Struct PValue Json : Type}.
Local Abbreviation AReq := (AReq (UserMetadata := UserMetadata)).
Local Abbreviation Event := (Event Trailers BErr).
Local Abbreviation PolicyResponse := (Pipeline.PolicyResponse (Body := string)).
Local Abbreviation Resp := (Pipeline.Response (Body := string)).

Inductive Protocol :=
| Grpc (context : option (gmap string string)) (metadata : option (list (string * Expression)))
| Http (path redirect : option Expression) (include_response_headers : list string)
    (add_request_headers : list (HeaderOrPseudo * Expression)) (metadata : list (string * Expression)).

Record ExtAuthz := mkExtAuthz {
  ea_protocol : Protocol;
  ea_failure_mode : AuthzFailureMode;
  ea_include_request_headers : list HeaderOrPseudo;
  ea_include_request_body : option BodyOptions;
}.

(** A request being checked: with its body, and the metadata left in its
    extensions. *)
Record Call := mkCall { c_req : AReq; c_body : list Event; c_metadata : option (gmap string Json) }.

Definition on_req (f : AReq → AReq) (c : Call) : Call := mkCall (f (c_req c)) (c_body c) (c_metadata c).
Definition set_body (b : list Event) (c : Call) : Call := mkCall (c_req c) b (c_metadata c).
Definition set_metadata (m : gmap string Json) (c : Call) : Call := mkCall (c_req c) (c_body c) (Some m).

(** [apply_header_option] of a request: where its edit of the URI fails, a request
    without head, body and extensions is left, as [modify_req_uri] took them. *)
Definition lost_call : Call := mkCall (mkAReq default_head None None None None) [] None.
Definition option_on_call (h : ProtoHeaderValueOption) (c : Call) : outcome Call :=
  head ← apply_header_option h (aq_head (c_req c));
  Ret (if option_loses h (aq_head (c_req c)) then lost_call else on_req (on_head (λ _, head)) c).

(** Connections: [TCPConnectionInfo] and [TLSConnectionInfo]. *)
Record Conn := mkConn { cn_peer_addr : SocketAddr; cn_local_addr : SocketAddr; cn_tls : option (option string * option string) }.

(** ** The request's body and headers *)

Definition buffer_request_body (o : BodyOptions) (body : list Event)
    : outcome (list Event * result BufferedRequestBody BufferRequestBodyError) :=
  let max_size := max_request_bytes o in
  '(body, r) ← inspect_body body (max_size + 1)%nat;
  Ret (body,
       match r with
       | Err _ => Err ReadFailed
       | Ok bytes =>
           let is_partial := bool_decide (max_size < length bytes)%nat in
           if is_partial && negb (allow_partial_message o) then Err TooLarge
           else Ok (mkBuffered (if is_partial then take max_size bytes else bytes) is_partial
                      (if is_partial then -1 else Z.of_nat (length bytes))%Z)
       end).

(** The body a service is sent, if it is sent one. *)
Definition with_request_body {A} (a : ExtAuthz) (none : A) (some : BodyOptions → BufferedRequestBody → A) (c : Call)
    : outcome (Call * result A CheckError) :=
  match ea_include_request_body a with
  | None => Ret (c, Ok none)
  | Some o =>
      '(body, r) ← buffer_request_body o (c_body c);
      Ret (set_body body c,
           match r with
           | Ok b => Ok (some o b)
           | Err TooLarge => Err (ExternalAuthorizationFailed (Some 413%Z))
           | Err ReadFailed => Err ProcessingFailed
           end)
  end.

(** [get_header_values]: the values of a name, joined. *)
Definition header_text (h : HeaderMap) (n : string) : option string :=
  match omap header_to_str (get_all n h) with
  | [] => None
  | vs => Some (join_with (if bool_decide (n = "cookie") then "; " else ", ") vs)
  end.

Definition get_header_values (h : HeaderMap) (n : string) (m : gmap string string) : gmap string string :=
  match header_text h n with Some t => <[n := t]> m | None => m end.

Definition hp_display (p : HeaderOrPseudo) : string :=
  match p with
  | HPHeader n => n
  | HPMethod => ":method" | HPScheme => ":scheme" | HPAuthority => ":authority" | HPPath => ":path" | HPStatus => ":status"
  end.

Definition get_request_pseudo_headers (q : Request) : list (HeaderOrPseudo * string) :=
  omap (λ p, pair p <$> get_pseudo_header_value p q) [HPMethod; HPScheme; HPAuthority; HPPath].

Definition check_headers (include : list HeaderOrPseudo) (q : Request) : gmap string string :=
  let pseudo := get_request_pseudo_headers q in
  match include with
  | [] =>
      let m := foldl (λ m pv, <[hp_display pv.1 := pv.2]> m) ∅ pseudo in
      foldl (λ m n, get_header_values (req_headers q) n m) m (remove_dups (req_headers q).*1)
  | _ =>
      foldl (λ m spec,
        match spec with
        | HPHeader n => get_header_values (req_headers q) n m
        | p => match list_find_by (λ pv, bool_decide (pv.1 = p)) pseudo with
               | Some (_, v) => <[hp_display p := v]> m
               | None => m
               end
        end) ∅ include
  end.

Definition version_str (v : Version) : string :=
  match v with HTTP_10 => "HTTP/1.0" | HTTP_11 => "HTTP/1.1" | HTTP_2 => "HTTP/2" | HTTP_3 => "HTTP/3" end.

Definition get_path_and_query (u : Uri) : string := default (uri_path u) (uri_path_and_query u).

(** ** Answers *)

Definition handle_auth_failure (a : ExtAuthz) (error_msg : string) : result PolicyResponse CheckError :=
  match ea_failure_mode a with
  | FMAllow => Ok policy_response_default
  | FMDeny => Err (ExternalAuthorizationFailed None)
  | FMDenyWithStatus code => Ok (mkPolicyResponse (Some (mkResponse (default 403%Z (status_from_u16 code)) [] error_msg)) None)
  end.

(** [process_raw_headers]. *)
Definition process_raw_headers (hs : list ProtoHeaderValueOption) (hm : HeaderMap) : HeaderMap :=
  foldl (λ hm h, match p ← pho_header h; header_name_from_bytes (ph_key p) with
                 | Some n => apply_header_value_option n h hm
                 | None => hm
                 end) hm hs.

Definition remove_named (n : string) (h : HeaderMap) : HeaderMap :=
  match header_name_from_bytes n with Some k => hm_remove k h | None => h end.

(** Protobuf and JSON values, and expressions evaluated to them; the claims of
    a token as a structure. *)
Context (exec : AReq → Executor Expression Value EvalError).
Context (value_string value_bytes : Value → option string) (value_unsigned : Value → option Z).
Context (eval_to_pb : AReq → Expression → option Struct) (json_to_struct : list (string * JsonMap) → option Struct).
Context (prost_value_to_json : PValue → option Json).

Definition eval_opt (r : AReq) (e : Expression) : option Value := match eval (exec r) e with Ok v => Some v | Err _ => None end.
Definition eval_string (r : AReq) (e : Expression) : option string := eval_opt r e ≫= value_string.

Definition build_metadata (metadata : option (list (string * Expression))) (r : AReq) : result (gmap string Struct) CheckError :=
  match metadata with
  | Some meta => Ok (list_to_map (omap (λ ke, pair ke.1 <$> eval_to_pb r ke.2) meta))
  | None =>
      match aq_jwt r with
      | Some claims =>
          match json_to_struct [("jwt_payload", cl_inner claims)] with
          | Some s => Ok {[ "envoy.filters.http.jwt_authn" := s ]}
          | None => Err ProcessingFailed
          end
      | None => Ok ∅
      end
  end.

(** [HeaderOrPseudoValue::from_cel_result]. *)
Definition from_cel_result (k : HeaderOrPseudo) (res : option Value) : option HeaderOrPseudoValue :=
  v ← res;
  match k with
  | HPHeader _ => VHeader <$> (value_bytes v ≫= header_value_from_bytes)
  | HPStatus => VStatus <$> (n ← value_unsigned v; if (n <=? 65535)%Z then status_from_u16 n else None)
  | HPMethod => VMethod <$> (value_bytes v ≫= method_from_bytes)
  | HPScheme => VScheme <$> (value_bytes v ≫= scheme_try_from)
  | HPAuthority => VAuthority <$> (value_bytes v ≫= authority_try_from)
  | HPPath => VPath <$> (value_bytes v ≫= pq_try_from)
  end.

Lemma from_cel_result_kind k res v : from_cel_result k res = Some v → kind_of k v = true.
Proof. destruct res as [x|]; [|done]. destruct k; simpl; intros (y & _ & ->)%fmap_Some; done. Qed.

(** ** Over gRPC *)

Definition grpc_check_request (a : ExtAuthz) (context : option (gmap string string)) (conn : Conn) (h : Head) (size : Z) (body : CheckBody)
    (metadata : gmap string Struct) : CheckRequest Struct :=
  let q := hd_req h in
  let u := req_uri q in
  mkCheckRequest (cn_peer_addr conn) (default "" (cn_tls conn ≫= fst)) (cn_local_addr conn)
    ((λ t, default "" (snd t)) <$> cn_tls conn)
    (req_method q) (check_headers (ea_include_request_headers a) q) (get_path_and_query u) (default "" (uri_authority u))
    (default "http" (uri_scheme u)) (version_str (hd_version h)) size body metadata (default ∅ context).

(** The values of the metadata that convert; one that does not is an error. *)
Fixpoint dynamic_metadata (fields : list (string * PValue)) : option (gmap string Json) :=
  match fields with
  | [] => Some ∅
  | (k, v) :: fields' => j ← prost_value_to_json v; m ← dynamic_metadata fields'; Some (<[k := j]> m)
  end.

Definition keep_metadata (cr : CheckResponse PValue) (c : Call) : Call * result () CheckError :=
  match cr_dynamic_metadata cr with
  | None => (c, Ok ())
  | Some fields =>
      match dynamic_metadata fields with
      | None => (c, Err ProcessingFailed)
      | Some m => (if decide (m = ∅) then c else set_metadata m c, Ok ())
      end
  end.

(** The answer that allows the request. *)
Definition apply_ok (o : OkHttpResponse) (c : Call) : outcome (Call * result PolicyResponse CheckError) :=
  let keep n := Str.starts_with ":" n || bool_decide (Str.to_ascii_lowercase n = "host") in
  let h := foldl (λ h n, if keep n then h else remove_named n h) (aq_headers (c_req c)) (ok_headers_to_remove o) in
  c ← fold_out option_on_call (ok_headers o) (on_req (with_headers h) c);
  let '(u, res) := modify_query_parameters (ok_query_parameters_to_set o) (ok_query_parameters_to_remove o) (hd_uri (aq_head (c_req c))) in
  let c := on_req (on_head (set_uri u)) c in
  match res with
  | Err _ => Ret (c, Err ProcessingFailed)
  | Ok _ =>
      let hm := process_raw_headers (ok_response_headers_to_add o) [] in
      Ret (c, Ok (mkPolicyResponse None (match hm with [] => None | _ => Some hm end)))
  end.

(** The answer that denies it. *)
Definition apply_denied (d : DeniedHttpResponse) : outcome PolicyResponse :=
  resp ← fold_out apply_header_option_response (dn_headers d)
           (mkResponse (default 403%Z (dn_status d ≫= λ c, status_from_u16 (c mod 65536)%Z)) [] (dn_body d));
  Ret (mkPolicyResponse (Some resp) None).

Definition apply_check_response (cr : CheckResponse PValue) (c : Call) : outcome (Call * result PolicyResponse CheckError) :=
  let '(c, res) := keep_metadata cr c in
  match res with
  | Err e => Ret (c, Err e)
  | Ok _ =>
      if decide (default 0%Z (cr_status cr) ≠ 0%Z) then
        match cr_http_response cr with
        | Some (HRDenied d) => pr ← apply_denied d; Ret (c, Ok pr)
        | _ => Ret (c, Err (ExternalAuthorizationFailed None))
        end
      else
        match cr_http_response cr with
        | Some (HROk o) => apply_ok o c
        | _ => Ret (c, Ok policy_response_default)
        end
  end.

Definition check_grpc (grpc : CheckRequest Struct → option (CheckResponse PValue)) (a : ExtAuthz) (context : option (gmap string string))
    (metadata : option (list (string * Expression))) (conn : option Conn) (c : Call) : outcome (Call * result PolicyResponse CheckError) :=
  match conn with
  | None => Ret (c, Err ProcessingFailed)
  | Some conn =>
      '(c, b) ← with_request_body a (CBText [], 0%Z)
                  (λ o b, (if pack_as_bytes o then CBRaw (br_body b) else CBText (br_body b), br_original_size b)) c;
      match b with
      | Err e => Ret (c, Err e)
      | Ok (body, size) =>
          match build_metadata metadata (c_req c) with
          | Err e => Ret (c, Err e)
          | Ok m =>
              match grpc (grpc_check_request a context conn (aq_head (c_req c)) size body m) with
              | None => Ret (c, handle_auth_failure a "Authorization service unavailable")
              | Some cr => apply_check_response cr c
              end
          end
      end
  end.

(** ** Over HTTP *)

(** The URI that is asked for. *)
Definition check_uri (path : option Expression) (r : AReq) : option Uri :=
  match path with
  | Some e => eval_string r e ≫= uri_try_from
  | None => uri_try_from (get_path_and_query (hd_uri (aq_head r)))
  end.

(** [apply_header] of the request of a check, with its body. *)
Definition put_on_check (k : HeaderOrPseudo) (v : option HeaderOrPseudoValue) (q : Head * list Z) : outcome (Head * list Z) :=
  head ← apply_header k v OverwriteIfExistsOrAdd q.1;
  Ret (head, if lost k v q.1 then [] else q.2).

Definition include_header (r : AReq) (h : HeaderOrPseudo) (q : Head * list Z) : outcome (Head * list Z) :=
  match get_pseudo_or_header_value h (hd_req (aq_head r)) with
  | Some v => put_on_check h (from_raw h v) q
  | None => Ret q
  end.

Definition add_header (r : AReq) (hv : HeaderOrPseudo * Expression) (q : Head * list Z) : outcome (Head * list Z) :=
  put_on_check hv.1 (from_cel_result hv.1 (eval_opt r hv.2)) q.

Definition included (a : ExtAuthz) : list HeaderOrPseudo :=
  match ea_include_request_headers a with [] => [HPHeader "authorization"] | l => l end.

(** The request of the check, and its body. *)
Definition http_check_request (a : ExtAuthz) (add : list (HeaderOrPseudo * Expression)) (r : AReq) (u : Uri) (body : list Z) (partial : bool)
    : outcome (Head * list Z) :=
  let q := mkHead (mkRequest (req_method (hd_req (aq_head r))) u [] None) HTTP_11 None None false false in
  '(q, body) ← fold_out (include_header r) (included a) (q, body);
  let q := match ea_include_request_body a with
           | Some _ => set_headers (hm_insert "x-envoy-auth-partial-body" (if partial then "true" else "false") (hd_headers q)) q
           | None => q
           end in
  fold_out (add_header r) add (q, body).

Definition is_success (c : Z) : bool := ((200 <=? c) && (c <? 300))%Z.

(** Expressions over the request and the answer, as JSON. *)
Context (eval_to_json : AReq → Resp → Expression → option Json).

(** The answer: a success lets the request pass, with headers of the answer;
    any other is the response, unless a refusal is to be a redirect. *)
Definition apply_http_response (redirect : option Expression) (include_response_headers : list string) (metadata : list (string * Expression))
    (resp : Resp) (c : Call) : Call * result PolicyResponse CheckError :=
  if is_success (rs_status resp) then
    let c := on_req (λ r, with_headers
               (foldl (λ h k, match header_get (rs_headers resp) k with Some v => hm_insert k v h | None => h end)
                  (aq_headers r) include_response_headers) r) c in
    let c := match metadata with
             | [] => c
             | _ => set_metadata (list_to_map (omap (λ ke, pair ke.1 <$> eval_to_json (c_req c) resp ke.2) metadata)) c
             end in
    (c, Ok policy_response_default)
  else
    match redirect with
    | Some e =>
        if bool_decide (rs_status resp = 403%Z) || bool_decide (rs_status resp = 401%Z) then
          (c, match eval_string (c_req c) e with
              | None => Err (ExternalAuthorizationFailed None)
              | Some location =>
                  match header_value_try_from location with
                  | Some v => Ok (mkPolicyResponse (Some (mkResponse 302 [("location", v)] "")) None)
                  | None => Err ProcessingFailed
                  end
              end)
        else (c, Ok (mkPolicyResponse (Some resp) None))
    | None => (c, Ok (mkPolicyResponse (Some resp) None))
    end.

(** [call]: the answer, or the error's text. *)
Definition check_http (call : Head → list Z → result Resp string) (a : ExtAuthz) (path redirect : option Expression)
    (include_response_headers : list string) (add : list (HeaderOrPseudo * Expression)) (metadata : list (string * Expression)) (c : Call)
    : outcome (Call * result PolicyResponse CheckError) :=
  '(c, b) ← with_request_body a ([], false) (λ _ b, (br_body b, br_is_partial b)) c;
  match b with
  | Err e => Ret (c, Err e)
  | Ok (body, partial) =>
      match check_uri path (c_req c) with
      | None => Ret (c, Err (ExternalAuthorizationFailed None))
      | Some u =>
          '(q, sent) ← http_check_request a add (c_req c) u body partial;
          match call q sent with
          | Err e => Ret (c, handle_auth_failure a e)
          | Ok resp => Ret (apply_http_response redirect include_response_headers metadata resp c)
          end
      end
  end.

(** [ExtAuthz::check]. *)
Definition check (grpc : CheckRequest Struct → option (CheckResponse PValue)) (call : Head → list Z → result Resp string)
    (a : ExtAuthz) (conn : option Conn) (c : Call) : outcome (Call * result PolicyResponse CheckError) :=
  match ea_protocol a with
  | Grpc context metadata => check_grpc grpc a context metadata conn c
  | Http path redirect include_response_headers add metadata => check_http call a path redirect include_response_headers add metadata c
  end.
End ext_authz.
