(* ===== verification/ExtAuthzFacts.v ===== *)
(** * What external authorization guarantees *)
From stdpp Require Import base gmap strings list.
From Stdlib Require Import ZArith Ascii.
From S2P Require Import Prelude RustStd Authorization AgentTypes RouteSelect HttpRequest Htpasswd Auth Pipeline Replay PeekBody EnvoyHeaders ExtAuthz.

Local Open Scope string_scope.
Local Open Scope list_scope.

Lemma fold_out_ok {A S} (f : A → S → outcome S) l s : (∀ a s, ∃ s', f a s = Ret s') → ∃ s', fold_out f l s = Ret s'.
Proof.
  intros Hf. revert s. induction l as [|a l IH]; intros s; [by exists s|]. destruct (Hf a s) as [s1 H1]. destruct (IH s1) as [s2 H2].
  exists s2. cbn [fold_out]. by rewrite H1.
Qed.

Section facts.
Context {UC : UriCrate} {HC : HttpCrate} {RE : RegexEngine} {MC : MessageCrate} {CE : CelEngine}.
Context {CK : CookieCrate} {FC : FormCrate} {JW : JsonWebToken}.
Context {UserMetadata Trailers BErr Value EvalError Struct PValue Json : Type}.
Local Abbreviation AReq := (AReq (UserMetadata := UserMetadata)).
Local Abbreviation Call := (Call (UserMetadata := UserMetadata) (Trailers := Trailers) (BErr := BErr) (Json := Json)).
Local Abbreviation Event := (Event Trailers BErr).

(** ** The headers a service sees *)

Lemma get_header_values_lookup (h : HeaderMap) n m k :
  get_header_values h n m !! k = if decide (k = n) then match header_text h n with Some t => Some t | None => m !! k end else m !! k.
Proof.
  unfold get_header_values. destruct (header_text h n); [|by case_decide]. case_decide as E; [subst; by rewrite lookup_insert_eq|by rewrite lookup_insert_ne].
Qed.

Lemma all_header_values (h : HeaderMap) ns m k :
  foldl (λ m n, get_header_values h n m) m ns !! k =
    if decide (k ∈ ns) then match header_text h k with Some t => Some t | None => m !! k end else m !! k.
Proof.
  revert m. induction ns as [|n ns IH]; intros m; [by rewrite decide_False by apply not_elem_of_nil|]. simpl. rewrite IH, get_header_values_lookup.
  destruct (decide (k ∈ ns)) as [Hin|Hin].
  - rewrite (decide_True (P := k ∈ n :: ns)) by set_solver. destruct (header_text h k) eqn:E; [done|]. case_decide as Ek; [|done]. subst. by rewrite E.
  - destruct (decide (k = n)) as [->|Hne]; [by rewrite (decide_True (P := n ∈ n :: ns)) by set_solver|]. by rewrite (decide_False (P := k ∈ n :: ns)) by set_solver.
Qed.

Lemma header_text_absent (h : HeaderMap) n : n ∉ h.*1 → header_text h n = None.
Proof.
  intros Hn. unfold header_text. replace (get_all n h) with (@nil string); [done|]. symmetry. unfold get_all.
  induction h as [|[k v] h IH]; [done|]. rewrite filter_cons, decide_False by (simpl; intros ->; apply Hn; by left). apply IH. intros H. apply Hn. by right.
Qed.

Lemma pseudo_lookup (ps : list (HeaderOrPseudo * string)) (m : gmap string string) k :
  (∀ p, p ∈ ps → hp_display p.1 ≠ k) → foldl (λ m pv, <[hp_display pv.1 := pv.2]> m) m ps !! k = m !! k.
Proof.
  revert m. induction ps as [|p ps IH]; intros m Hp; [done|]. simpl. rewrite IH by (intros q Hq; apply Hp; by right).
  rewrite lookup_insert_ne; [done|]. apply Hp. by left.
Qed.

(** Unless it is configured to see less, the service sees every header of
    the request: under its name, all its readable values. *)
Theorem ext_authz_sees_headers (q : Request) n :
  n ∉ [":method"; ":scheme"; ":authority"; ":path"] → check_headers [] q !! n = header_text (req_headers q) n.
Proof.
  intros Hn. unfold check_headers. rewrite all_header_values, pseudo_lookup.
  - rewrite lookup_empty. case_decide as Hin; [by destruct (header_text _ n)|].
    symmetry. apply header_text_absent. by rewrite elem_of_remove_dups in Hin.
  - intros p (x & Hx & Hp)%list_elem_of_omap Heq. apply fmap_Some in Hp as (v & _ & ->). simpl in Heq. subst n. apply Hn.
    repeat (apply elem_of_cons in Hx as [->|Hx]; [simpl; set_solver|]). by apply elem_of_nil in Hx.
Qed.

(** ** The body a service sees *)

(** What is sent of a body under the options. *)
Definition sent_of (o : BodyOptions) (body : list Event) (b : BufferedRequestBody) : Prop :=
  let v := visible body in
  br_body b = take (max_request_bytes o) v ∧
  br_is_partial b = bool_decide (max_request_bytes o < length v)%nat ∧
  br_original_size b = (if decide (max_request_bytes o < length v)%nat then -1 else Z.of_nat (length v))%Z ∧
  (allow_partial_message o = false → length v ≤ max_request_bytes o)%nat.

Lemma buffer_request_body_ok o (body : list Event) :
  well_formed body = true →
  ∃ body' r, buffer_request_body o body = Ret (body', r) ∧
    match r with
    | Ok b => sent_of o body b ∧ content body' = content body
    | Err TooLarge => (max_request_bytes o < length (visible body))%nat ∧ allow_partial_message o = false ∧ content body' = content body
    | Err ReadFailed => has_error body = true
    end.
Proof.
  intros Hwf. unfold buffer_request_body. destruct (inspect_body_ok body (max_request_bytes o + 1) Hwf) as (nb & r & -> & Hr). cbn [mbind outcome_bind].
  eexists _, _. split; [done|]. destruct r as [bytes|e].
  2:{ destruct Hr as [_ Hin]. apply existsb_exists. exists (EError e). split; [by apply list_elem_of_In|done]. }
  destruct Hr as [-> Hc]. rewrite decide_False in Hc by lia. rewrite length_take. set (v := visible body) in *. set (m := max_request_bytes o) in *.
  destruct (decide (m < length v)%nat) as [Hlt|Hge].
  - rewrite bool_decide_eq_true_2 by lia. destruct (allow_partial_message o) eqn:Ea; simpl; [|done]. split; [|done]. unfold sent_of. fold v m. simpl.
    rewrite take_take, Nat.min_l by lia. rewrite decide_True, bool_decide_eq_true_2 by done. split_and!; [done..|congruence].
  - rewrite bool_decide_eq_false_2 by lia. simpl. split; [|done]. unfold sent_of. fold v m. simpl. rewrite !take_ge by lia.
    rewrite decide_False, bool_decide_eq_false_2 by done. rewrite Nat.min_r by lia. split_and!; [done..|lia].
Qed.

Lemma with_request_body_ok {A} (a : ExtAuthz) (none : A) some (c : Call) :
  well_formed (c_body c) = true →
  ∃ c' r, with_request_body a none some c = Ret (c', r) ∧ c_req c' = c_req c ∧ c_metadata c' = c_metadata c ∧
    match r with
    | Ok x => content (c_body c') = content (c_body c) ∧
        match ea_include_request_body a with
        | None => x = none
        | Some o => ∃ b, x = some o b ∧ sent_of o (c_body c) b
        end
    | Err _ => is_Some (ea_include_request_body a)
    end.
Proof.
  intros Hwf. unfold with_request_body. destruct (ea_include_request_body a) as [o|]; [|eexists _, _; by split_and!].
  destruct (buffer_request_body_ok o (c_body c) Hwf) as (body' & r & -> & Hr). cbn [mbind outcome_bind]. eexists _, _. split; [done|].
  split; [done|]. split; [done|]. destruct r as [b|[]]; [|done|done]. destruct Hr as [Hs Hc]. split; [done|]. by exists b.
Qed.

(** ** Answers *)

Context (exec : AReq → Executor Expression Value EvalError).
Context (value_string value_bytes : Value → option string) (value_unsigned : Value → option Z).
Context (eval_to_pb : AReq → Expression → option Struct) (json_to_struct : list (string * JsonMap) → option Struct).
Context (prost_value_to_json : PValue → option Json) (eval_to_json : AReq → Pipeline.Response (Body := string) → Expression → option Json).
Local Abbreviation check := (check exec value_string value_bytes value_unsigned eval_to_pb json_to_struct prost_value_to_json eval_to_json).
Local Abbreviation http_check_request := (http_check_request exec value_bytes value_unsigned).
Local Abbreviation apply_check_response := (apply_check_response prost_value_to_json).

(** The head of a request without the headers an answer takes off. *)
Definition without_removed (o : OkHttpResponse) (h : Head) : Head :=
  set_headers (foldl (λ h n, if Str.starts_with ":" n || bool_decide (Str.to_ascii_lowercase n = "host") then h else remove_named n h)
    (hd_headers h) (ok_headers_to_remove o)) h.

(** One of the headers an answer adds asks, when its turn comes, for a URI that
    is none. *)
Definition edits_lose (o : OkHttpResponse) (h : Head) : Prop :=
  ∃ before x after head, ok_headers o = before ++ x :: after ∧ fold_out apply_header_option before (without_removed o h) = Ret head ∧
    option_loses x head = true.

Lemma options_on_call_ok hs (c : Call) :
  ∃ c', fold_out option_on_call hs c = Ret c' ∧
    (c_body c' = c_body c ∨ c_body c' = [] ∧ ∃ before x after head, hs = before ++ x :: after ∧
      fold_out apply_header_option before (aq_head (c_req c)) = Ret head ∧ option_loses x head = true).
Proof.
  revert c. induction hs as [|h hs IH]; intros c; [exists c; eauto|]. cbn [fold_out].
  destruct (apply_header_option_ok h (aq_head (c_req c))) as [head Hh].
  assert (option_on_call h c = Ret (if option_loses h (aq_head (c_req c)) then lost_call else on_req (on_head (λ _, head)) c)) as ->
    by (unfold option_on_call; by rewrite Hh). cbn [mbind outcome_bind].
  destruct (option_loses h (aq_head (c_req c))) eqn:El.
  - destruct (IH lost_call) as (c' & -> & Hb). exists c'. split; [done|]. right. split; [by destruct Hb as [->|[-> _]]|].
    exists [], h, hs, (aq_head (c_req c)). done.
  - destruct (IH (on_req (on_head (λ _, head)) c)) as (c' & -> & Hb). exists c'. split; [done|]. destruct Hb as [Hb|(Hb & pre & x & post & hd & -> & Hf & Hx)]; [by left|].
    right. split; [done|]. exists (h :: pre), x, post, hd. split_and!; [done| |done]. cbn [fold_out]. rewrite Hh. exact Hf.
Qed.

Lemma apply_ok_ok o (c : Call) :
  ∃ c' r, apply_ok o c = Ret (c', r) ∧ (c_body c' = c_body c ∨ c_body c' = [] ∧ edits_lose o (aq_head (c_req c))) ∧
    ∀ pr, r = Ok pr → pr_direct_response pr = None.
Proof.
  unfold apply_ok. set (h := foldl _ _ (ok_headers_to_remove o)).
  destruct (options_on_call_ok (ok_headers o) (on_req (with_headers h) c)) as (c1 & -> & Hb). cbn [mbind outcome_bind].
  destruct (modify_query_parameters _ _ _) as [u [[]|e]]; eexists _, _; (split; [done|]); (split; [exact Hb|]); [by intros ? [= <-]|done].
Qed.

Lemma apply_denied_ok d : ∃ pr, apply_denied d = Ret pr ∧ is_Some (pr_direct_response pr).
Proof.
  unfold apply_denied. destruct (apply_header_options_response_ok (Body := string) (dn_headers d)
    (mkResponse (default 403%Z (dn_status d ≫= λ c, status_from_u16 (c mod 65536)%Z)) [] (dn_body d))) as [r ->]. by eexists.
Qed.

Lemma keep_metadata_body cr (c c' : Call) r : keep_metadata prost_value_to_json cr c = (c', r) → c_body c' = c_body c ∧ c_req c' = c_req c.
Proof. unfold keep_metadata. repeat case_match; intros [= <- <-]; done. Qed.

(** The service's answer lets the request pass only with an OK status. *)
Lemma apply_check_response_ok cr (c : Call) :
  ∃ c' r, apply_check_response cr c = Ret (c', r) ∧
    (c_body c' = c_body c ∨ c_body c' = [] ∧ ∃ o, cr_http_response cr = Some (HROk o) ∧ edits_lose o (aq_head (c_req c))) ∧
    ∀ pr, r = Ok pr → pr_direct_response pr = None → default 0%Z (cr_status cr) = 0%Z.
Proof.
  unfold ExtAuthz.apply_check_response. destruct (keep_metadata _ cr c) as [c1 [[]|e]] eqn:Ek; apply keep_metadata_body in Ek as [Hb Hq].
  2:{ eexists _, _. split_and!; [done|by left|done]. }
  case_decide as Hs.
  - destruct (cr_http_response cr) as [[d|o]|]; [|by eexists _, _; split_and!; [|left|]..].
    destruct (apply_denied_ok d) as (pr & -> & [x Hx]). eexists _, _. split; [done|]. split; [by left|]. intros ? [= <-]. congruence.
  - assert (default 0%Z (cr_status cr) = 0%Z) as H0 by lia.
    destruct (cr_http_response cr) as [[d|o]|]; [by eexists _, _; split_and!; [|left|]| |by eexists _, _; split_and!; [|left|]].
    destruct (apply_ok_ok o c1) as (c2 & r & -> & Hb2 & _). eexists _, _. split; [done|]. split; [|done].
    rewrite Hb, Hq in Hb2. destruct Hb2 as [Hb2|[Hb2 Hl]]; [by left|right; eauto].
Qed.

Lemma handle_auth_failure_Ok (a : ExtAuthz) msg pr :
  handle_auth_failure a msg = Ok pr → pr_direct_response pr = None → ea_failure_mode a = FMAllow.
Proof. unfold handle_auth_failure. destruct (ea_failure_mode a); [done|done|]. by intros [= <-]. Qed.

Lemma apply_header_value_kind k v (q : Head) :
  (∀ x, v = Some x → kind_of k x = true) → ∃ q', apply_header k v OverwriteIfExistsOrAdd q = Ret q'.
Proof. intros Hk. destruct v as [x|]; [by apply apply_header_kind, Hk|]. destruct k; eexists; done. Qed.

Lemma put_on_check_ok k v q : (∀ x, v = Some x → kind_of k x = true) → ∃ q', put_on_check k v q = Ret q'.
Proof. intros Hk. unfold put_on_check. destruct (apply_header_value_kind k v q.1 Hk) as [h ->]. by eexists. Qed.

Lemma http_check_request_ok (a : ExtAuthz) add (r : AReq) u body partial : ∃ q sent, http_check_request a add r u body partial = Ret (q, sent).
Proof.
  unfold ExtAuthz.http_check_request.
  match goal with |- context [fold_out (include_header r) ?l ?q] => destruct (fold_out_ok (include_header r) l q) as [[q1 b1] Hq1] end.
  { intros h q. unfold include_header. destruct (get_pseudo_or_header_value h _) as [v|]; [|eauto].
    apply put_on_check_ok. intros x. apply from_raw_kind. }
  rewrite Hq1. cbn [mbind outcome_bind]. match goal with |- context [fold_out ?f add ?q] => destruct (fold_out_ok f add q) as [[q2 b2] Hq2] end.
  { intros hv q. apply put_on_check_ok. intros x. apply from_cel_result_kind. }
  by exists q2, b2.
Qed.

Lemma apply_http_response_Ok redirect inc metadata resp (c c' : Call) pr :
  apply_http_response exec value_string eval_to_json redirect inc metadata resp c = (c', Ok pr) → pr_direct_response pr = None →
  is_success (rs_status resp) = true ∧ c_body c' = c_body c.
Proof.
  unfold apply_http_response. destruct (is_success (rs_status resp)).
  - intros [= <- <-] _. split; [done|]. by destruct metadata.
  - intros H Hd. exfalso. repeat case_match; simplify_eq/=; done.
Qed.

(** The service said yes, or it could not be asked and the policy allows that;
    and what becomes of the body. *)
Definition service_allows (grpc : CheckRequest Struct → option (CheckResponse PValue))
    (call : Head → list Z → result (Pipeline.Response (Body := string)) string) (a : ExtAuthz) (conn : option Conn) (c c' : Call) : Prop :=
  let kept := content (c_body c') = content (c_body c) in
  match ea_protocol a with
  | Grpc context _ =>
      ∃ cn size body m, conn = Some cn ∧
        match ea_include_request_body a with
        | None => body = CBText [] ∧ size = 0%Z
        | Some o => ∃ b, sent_of o (c_body c) b ∧ size = br_original_size b ∧ body = (if pack_as_bytes o then CBRaw (br_body b) else CBText (br_body b))
        end ∧
        let q := grpc_check_request a context cn (aq_head (c_req c)) size body m in
        (grpc q = None ∧ ea_failure_mode a = FMAllow ∧ c_req c' = c_req c ∧ kept) ∨
        (∃ cr, grpc q = Some cr ∧ default 0%Z (cr_status cr) = 0%Z ∧
           (kept ∨ c_body c' = [] ∧ ∃ o, cr_http_response cr = Some (HROk o) ∧ edits_lose o (aq_head (c_req c))))
  | Http path _ _ add _ =>
      ∃ u q body sent partial, check_uri exec value_string path (c_req c) = Some u ∧ http_check_request a add (c_req c) u body partial = Ret (q, sent) ∧
        match ea_include_request_body a with
        | None => body = [] ∧ partial = false
        | Some o => ∃ b, sent_of o (c_body c) b ∧ body = br_body b ∧ partial = br_is_partial b
        end ∧ kept ∧
        ((∃ e, call q sent = Err e ∧ ea_failure_mode a = FMAllow ∧ c_req c' = c_req c) ∨ (∃ resp, call q sent = Ok resp ∧ is_success (rs_status resp) = true))
  end.

(** C26. External authorization always decides, and a request passes it only if
    the service, asked about this request (its headers, and of its body what is
    visible up to the configured size), says yes; or if the service cannot be
    reached and the policy allows requests then, unchanged. Whoever passes
    keeps the body, unless a header a gRPC service adds changes the scheme, the
    authority or the path so that no URI results: then the body is gone. The
    question over HTTP is built the same way and may itself be emptied so
    ([check_loses_itself]). *)
Theorem ext_authz_decides grpc call (a : ExtAuthz) conn (c : Call) :
  well_formed (c_body c) = true →
  ∃ c' r, check grpc call a conn c = Ret (c', r) ∧
    ∀ pr, r = Ok pr → pr_direct_response pr = None → service_allows grpc call a conn c c'.
Proof.
  intros Hwf. unfold ExtAuthz.check, service_allows. destruct (ea_protocol a) as [context metadata|path redirect inc add metadata].
  - unfold check_grpc. destruct conn as [cn|]; [|by eexists _, _].
    destruct (with_request_body_ok a (CBText [], 0%Z)
      (λ o b, (if pack_as_bytes o then CBRaw (br_body b) else CBText (br_body b), br_original_size b)) c Hwf) as (c1 & b & -> & Hr & _ & Hb).
    cbn [mbind outcome_bind]. destruct b as [[body size]|e]; [|by eexists _, _]. destruct Hb as [Hc Hb].
    destruct (build_metadata _ _ _ _) as [m|e]; [|by eexists _, _].
    assert (match ea_include_request_body a with
        | None => body = CBText [] ∧ size = 0%Z
        | Some o => ∃ b, sent_of o (c_body c) b ∧ size = br_original_size b ∧ body = (if pack_as_bytes o then CBRaw (br_body b) else CBText (br_body b))
        end) as Hbody.
    { destruct (ea_include_request_body a); [destruct Hb as (b' & [= -> ->] & Hs); by exists b'|by injection Hb]. }
    destruct (grpc _) as [cr|] eqn:Eg.
    + destruct (apply_check_response_ok cr c1) as (c2 & r & -> & Hb2 & Hok). eexists _, _. split; [done|]. intros pr -> Hd.
      exists cn, size, body, m. rewrite Hr in Eg, Hb2. split; [done|]. split; [done|]. right. exists cr. split; [done|]. split; [by apply (Hok pr)|].
      destruct Hb2 as [->|Hl]; [by left|by right].
    + eexists _, _. split; [done|]. intros pr Hf Hd. exists cn, size, body, m. rewrite Hr in Eg. split; [done|]. split; [done|].
      left. split_and!; [done| |done..]. by eapply handle_auth_failure_Ok.
  - unfold check_http. destruct (with_request_body_ok a ([], false) (λ _ b, (br_body b, br_is_partial b)) c Hwf) as (c1 & b & -> & Hr & _ & Hb).
    cbn [mbind outcome_bind]. destruct b as [[body partial]|e]; [|by eexists _, _]. destruct Hb as [Hc Hb]. rewrite Hr.
    destruct (check_uri _ _ path (c_req c)) as [u|] eqn:Eu; [|by eexists _, _].
    destruct (http_check_request_ok a add (c_req c) u body partial) as (q & sent & Hq). rewrite Hq. cbn [mbind outcome_bind].
    assert (match ea_include_request_body a with
        | None => body = [] ∧ partial = false
        | Some o => ∃ b, sent_of o (c_body c) b ∧ body = br_body b ∧ partial = br_is_partial b
        end) as Hbody.
    { destruct (ea_include_request_body a); [destruct Hb as (b' & [= -> ->] & Hs); by exists b'|by injection Hb]. }
    destruct (call q sent) as [resp|e] eqn:Ec.
    + destruct (apply_http_response _ _ _ _ _ _ resp c1) as [c2 r] eqn:Ea. eexists _, _. split; [done|]. intros pr -> Hd.
      apply apply_http_response_Ok in Ea as [Hs Hb2]; [|done]. exists u, q, body, sent, partial. split_and!; [done..|by rewrite Hb2|]. right. by exists resp.
    + eexists _, _. split; [done|]. intros pr Hf Hd. exists u, q, body, sent, partial. split_and!; [done..|]. left. exists e.
      split_and!; [done| |done]. by eapply handle_auth_failure_Ok.
Qed.
End facts.
