(* ===== verification/Transformation.v ===== *)
(** * Transformations

    [http/transformation_cel.rs]: headers, metadata and bodies computed by CEL
    expressions. The first part compiles a configuration, strictly or with
    warnings; the second applies one to a request or a response. Metadata, the
    added headers, the set ones, the removed ones and the body come in that
    order, each seeing what those before it did. *)
From stdpp Require Import base gmap strings list.
From Stdlib Require Import ZArith Lia.
From S2P Require Import Prelude RustStd AgentTypes RouteSelect HttpRequest Rewrite Pipeline EnvoyHeaders ExtAuthz.

Local Open Scope string_scope.
Local Open Scope list_scope.

(** ** Configuration *)

Record LocalTransform := mkLocalTransform {
  lt_add : list (string * string);
  lt_set : list (string * string);
  lt_remove : list string;
  lt_body : option string;
  lt_metadata : list (string * string);
}.

Record LocalTransformationConfig := mkLocalTransformationConfig { lc_request : option LocalTransform; lc_response : option LocalTransform }.

Inductive TransformError := BadHeaderName | BadExpression (e : string).

(** A compilation with the pairs its [warnings] closure is called with. *)
Definition TM (A : Type) : Type := list (string * string) → list (string * string) * result A TransformError.

#[export] Instance tm_ret : MRet TM := λ A a ws, (ws, Ok a).
#[export] Instance tm_bind : MBind TM := λ A B k m ws,
  let '(ws, r) := m ws in match r with Ok a => k a ws | Err e => (ws, Err e) end.

(** [map(f).collect::<Result<_, _>>()], and [map(f).transpose()]. *)
Fixpoint tm_collect {A B} (f : A → TM B) (l : list A) : TM (list B) :=
  match l with
  | [] => mret []
  | a :: l' => b ← f a; bs ← tm_collect f l'; mret (b :: bs)
  end.

Definition tm_transpose {A B} (f : A → TM B) (o : option A) : TM (option B) :=
  match o with None => mret None | Some a => b ← f a; mret (Some b) end.

Definition tm_option {A} (e : TransformError) (o : option A) : TM A := λ ws, (ws, ok_or e o).

Section transformation.
Context {UC : UriCrate} {HC : HttpCrate} {RE : RegexEngine} {MC : MessageCrate} {CE : CelEngine}.

Record TransformerConfig := mkTransformerConfig {
  tc_add : list (HeaderOrPseudo * Expression);
  tc_set : list (HeaderOrPseudo * Expression);
  tc_remove : list string;
  tc_body : option Expression;
  tc_metadata : list (string * Expression);
}.

Definition transformer_default : TransformerConfig := mkTransformerConfig [] [] [] None [].

Record Transformation := mkTransformation { tr_request : TransformerConfig; tr_response : TransformerConfig }.

Section compile.
Context {CO : Compilers}.

Definition compile (strict : bool) (s : string) : TM Expression := λ ws,
  if strict then (ws, match new_strict s with Ok e => Ok e | Err e => Err (BadExpression e) end)
  else let '(expression, err) := new_permissive s in
       (match err with Some e => ws ++ [(s, e)] | None => ws end, Ok expression).

Definition named_header (strict : bool) (kv : string * string) : TM (HeaderOrPseudo * Expression) :=
  tk ← tm_option BadHeaderName (header_or_pseudo_try_from kv.1); tv ← compile strict kv.2; mret (tk, tv).

(** [TransformerConfig::try_from_local_config]. *)
Definition transformer_try_from (strict : bool) (req : LocalTransform) : TM TransformerConfig :=
  set ← tm_collect (named_header strict) (lt_set req);
  add ← tm_collect (named_header strict) (lt_add req);
  remove ← tm_collect (λ k, tm_option BadHeaderName (header_name_from_bytes k)) (lt_remove req);
  body ← tm_transpose (compile strict) (lt_body req);
  metadata ← tm_collect (λ kv, e ← compile strict kv.2; mret (kv.1, e)) (lt_metadata req);
  mret (mkTransformerConfig add set remove body metadata).

Definition or_default (strict : bool) (o : option LocalTransform) : TM TransformerConfig :=
  match o with Some t => transformer_try_from strict t | None => mret transformer_default end.

Definition try_from_local_config_with_warnings (value : LocalTransformationConfig) (strict : bool) : TM Transformation :=
  request ← or_default strict (lc_request value);
  response ← or_default strict (lc_response value);
  mret (mkTransformation request response).

Definition try_from_local_config (value : LocalTransformationConfig) (strict : bool) : result Transformation TransformError :=
  (try_from_local_config_with_warnings value strict []).2.
End compile.

(** ** Application *)

Context {Value Json Body Snapshot : Type}.
(** A request or a response with its metadata extension. *)
Local Abbreviation Metadata := (gmap string Json).
Local Abbreviation Resp := (Response (Body := Body)).

Inductive RequestOrResponse :=
| TRequest (head : Head) (body : Body) (metadata : option Metadata)
| TResponse (resp : Resp) (metadata : option Metadata).

(** The CEL engine over both, its values, and what a snapshot kept of a
    request's metadata. *)
Context (eval_request : Head → Body → option Metadata → Expression → option Value).
Context (eval_response : option Snapshot → Resp → option Metadata → Expression → option Value).
Context (value_bytes : Value → option string) (value_unsigned : Value → option Z) (value_json : Value → option Json).
Context (json_to_vec : Json → option string) (body_from : string → Body) (body_empty : Body) (snapshot_metadata : Snapshot → option Metadata).

Definition eval_message (request : option Snapshot) (r : RequestOrResponse) (e : Expression) : option Value :=
  match r with TRequest h b m => eval_request h b m e | TResponse p m => eval_response request p m e end.

Definition rr_headers (r : RequestOrResponse) : HeaderMap := match r with TRequest h _ _ => hd_headers h | TResponse p _ => rs_headers p end.
Definition rr_body (r : RequestOrResponse) : Body := match r with TRequest _ b _ => b | TResponse p _ => rs_body p end.
Definition rr_metadata (r : RequestOrResponse) : option Metadata := match r with TRequest _ _ m => m | TResponse _ m => m end.

Definition with_rr_headers (f : HeaderMap → HeaderMap) (r : RequestOrResponse) : RequestOrResponse :=
  match r with
  | TRequest h b m => TRequest (set_headers (f (hd_headers h)) h) b m
  | TResponse p m => TResponse (on_headers f p) m
  end.

Definition with_rr_body (b : Body) (r : RequestOrResponse) : RequestOrResponse :=
  match r with TRequest h _ m => TRequest h b m | TResponse p m => TResponse (mkResponse (rs_status p) (rs_headers p) b) m end.

Definition with_rr_metadata (m : option Metadata) (r : RequestOrResponse) : RequestOrResponse :=
  match r with TRequest h b _ => TRequest h b m | TResponse p _ => TResponse p m end.

(** [RequestOrResponse::apply_header]. *)
Definition rr_apply_header (k : HeaderOrPseudo) (v : option HeaderOrPseudoValue) (a : HeaderMutationAction) (r : RequestOrResponse) : outcome RequestOrResponse :=
  match r with
  | TRequest h b m => h' ← apply_header k v a h; Ret (if lost k v h then TRequest h' body_empty None else TRequest h' b m)
  | TResponse p m => p' ← apply_header_response k v a p; Ret (TResponse p' m)
  end.

(** [value_as_byte_or_json], and [eval_body] with [unwrap_or_default]. *)
Definition value_as_byte_or_json (v : Value) : option string :=
  match value_bytes v with Some b => Some b | None => value_json v ≫= json_to_vec end.

Definition eval_body (request : option Snapshot) (r : RequestOrResponse) (e : Expression) : option string :=
  eval_message request r e ≫= value_as_byte_or_json.

Definition eval_metadata (request : option Snapshot) (r : RequestOrResponse) (e : Expression) : option Json :=
  eval_message request r e ≫= value_json.

Definition exec_header (request : option Snapshot) (r : RequestOrResponse) (e : Expression) (k : HeaderOrPseudo) : option HeaderOrPseudoValue :=
  from_cel_result value_bytes value_unsigned k (eval_message request r e).

Definition put_metadata (request : option Snapshot) (r : RequestOrResponse) (ne : string * Expression) : RequestOrResponse :=
  match eval_metadata request r ne.2 with
  | Some v => with_rr_metadata (Some (<[ne.1 := v]> (default ∅ (rr_metadata r)))) r
  | None => r
  end.

Definition put_header (request : option Snapshot) (a : HeaderMutationAction) (ke : HeaderOrPseudo * Expression) (r : RequestOrResponse) : outcome RequestOrResponse :=
  rr_apply_header ke.1 (exec_header request r ke.2 ke.1) a r.

Definition put_body (request : option Snapshot) (body : option Expression) (r : RequestOrResponse) : RequestOrResponse :=
  match body with
  | Some e => with_rr_headers (hm_remove "content-length") (with_rr_body (body_from (default "" (eval_body request r e))) r)
  | None => r
  end.

(** [Transformation::apply]. *)
Definition transform (cfg : TransformerConfig) (request : option Snapshot) (r : RequestOrResponse) : outcome RequestOrResponse :=
  let r := foldl (put_metadata request) r (tc_metadata cfg) in
  r ← fold_out (put_header request AppendIfExistsOrAdd) (tc_add cfg) r;
  r ← fold_out (put_header request OverwriteIfExistsOrAdd) (tc_set cfg) r;
  let r := with_rr_headers (λ h, foldl (λ h k, hm_remove k h) h (tc_remove cfg)) r in
  Ret (put_body request (tc_body cfg) r).

Definition apply_request (t : Transformation) (h : Head) (b : Body) (m : option Metadata) : outcome RequestOrResponse :=
  transform (tr_request t) None (TRequest h b m).

Definition apply_response (t : Transformation) (request : option Snapshot) (p : Resp) (m : option Metadata) : outcome RequestOrResponse :=
  let m := match request ≫= snapshot_metadata with
           | Some rm => Some (match m with Some own => own ∪ rm | None => rm end)
           | None => m
           end in
  transform (tr_response t) request (TResponse p m).

(** [RequestPolicyTrait::expressions]. *)
Definition transformation_expressions (t : Transformation) : list Expression :=
  let config c := (tc_add c).*2 ++ (tc_set c).*2 ++ option_list (tc_body c) ++ (tc_metadata c).*2 in
  config (tr_request t) ++ config (tr_response t).

(** ** One header *)

(** The text of a header an expression stands for. *)
Definition header_of (request : option Snapshot) (r : RequestOrResponse) (e : Expression) : option string :=
  (eval_message request r e ≫= value_bytes) ≫= header_value_from_bytes.

Lemma exec_header_of request r e n : exec_header request r e (HPHeader n) = VHeader <$> header_of request r e.
Proof. unfold exec_header, header_of. by destruct (eval_message request r e). Qed.

Lemma put_header_ret request a ke r : ∃ r', put_header request a ke r = Ret r'.
Proof.
  unfold put_header. destruct (exec_header request r ke.2 ke.1) as [v|] eqn:E.
  - apply from_cel_result_kind in E. destruct r as [h b m|p m]; simpl.
    + destruct (apply_header_kind ke.1 v a h E) as [h' ->]. by eexists.
    + destruct (apply_header_response_kind ke.1 v a p E) as [p' ->]. by eexists.
  - destruct r, (ke.1); simpl; by eexists.
Qed.

Lemma rr_headers_with f r : rr_headers (with_rr_headers f r) = f (rr_headers r).
Proof. by destruct r. Qed.

Definition edits_uri (k : HeaderOrPseudo) : bool :=
  match k with HPScheme | HPAuthority | HPPath => true | HPHeader n => bool_decide (n = "host") | _ => false end.

Lemma lost_edits k v h : (∀ x, v = Some x → kind_of k x = true) → lost k v h = true → edits_uri k = true ∧ ∀ a, apply_header k v a h = Ret default_head.
Proof.
  unfold lost. destruct (uri_edit k v) as [f|] eqn:E; [|done]. intros Hk Hf%bool_decide_eq_true.
  destruct k as [n| | | | |], v as [[]|]; simpl in E; simplify_eq; unfold apply_header, set_authority, modify_req_uri;
    try (by specialize (Hk _ eq_refl)); try (split; [done|]; intros a0; by rewrite Hf).
  unfold edits_uri. destruct (bool_decide (n = "host")); [|done]. destruct (authority_try_from v) as [a|]; [|done]. injection E as <-.
  split; [done|]. intros _. f_equal. change (hd_uri (set_headers (hm_remove "host" (hd_headers h)) h)) with (hd_uri h). by rewrite Hf.
Qed.

Lemma set_headers_headers x h : hd_headers (set_headers x h) = x.
Proof. done. Qed.

Lemma modify_req_uri_headers f h : from_parts (f (into_parts (hd_uri h))) ≠ None → hd_headers (modify_req_uri f h) = hd_headers h.
Proof. unfold modify_req_uri. by destruct (from_parts _). Qed.

(** What a request that is not lost keeps. *)
Lemma apply_header_headers k v a h h' n :
  apply_header k v a h = Ret h' → lost k v h = false → k ≠ HPHeader n → n ≠ "host" ∨ edits_uri k = false →
  get_all n (hd_headers h') = get_all n (hd_headers h).
Proof.
  intros H Hl Hk Hn. unfold lost in Hl. destruct k as [m| | | | |], v as [[]|]; cbn [apply_header uri_edit] in H, Hl; simplify_eq; try done;
    try (by apply bool_decide_eq_false in Hl; unfold set_authority; rewrite modify_req_uri_headers).
  - simpl in Hn. case_bool_decide; simplify_eq.
    + destruct Hn as [Hn|]; [|done]. destruct (authority_try_from v) as [au|]; simplify_eq; [|done]. simpl in Hl. apply bool_decide_eq_false in Hl.
      unfold set_authority. rewrite modify_req_uri_headers by exact Hl. rewrite set_headers_headers. by rewrite get_all_remove, decide_False by congruence.
    + case_match; simplify_eq; [done|]. rewrite set_headers_headers.
      destruct (should_append a); by rewrite ?get_all_append, ?get_all_insert, ?decide_False, ?app_nil_r by congruence.
  - rewrite set_headers_headers. by rewrite get_all_remove, decide_False by congruence.
Qed.

Lemma apply_header_response_headers k v a (p p' : Resp) n :
  apply_header_response k v a p = Ret p' → k ≠ HPHeader n → get_all n (rs_headers p') = get_all n (rs_headers p).
Proof.
  intros H Hk. destruct k as [m| | | | |], v as [[]|]; simpl in H; simplify_eq; try done; simpl.
  - case_match; simplify_eq; [done|]. simpl. destruct (should_append a); by rewrite ?get_all_append, ?get_all_insert, ?decide_False, ?app_nil_r by congruence.
  - by rewrite get_all_remove, decide_False by congruence.
Qed.

Lemma exec_header_kind request r e k x : exec_header request r e k = Some x → kind_of k x = true.
Proof. apply from_cel_result_kind. Qed.

(** Entries that leave the URI of a request alone. *)
Definition keeps (r : RequestOrResponse) (k : HeaderOrPseudo) : Prop := match r with TRequest _ _ _ => edits_uri k = false | TResponse _ _ => True end.

Lemma put_header_keeps request a ke r r' :
  put_header request a ke r = Ret r' → keeps r ke.1 →
  (∀ n, ke.1 ≠ HPHeader n → get_all n (rr_headers r') = get_all n (rr_headers r)) ∧ rr_body r' = rr_body r ∧ (∀ k, keeps r' k ↔ keeps r k).
Proof.
  unfold put_header. intros H Hs. pose proof (exec_header_kind request r ke.2 ke.1) as Hkind. destruct r as [h b m|p m]; simpl in H, Hs.
  - destruct (lost _ _ h) eqn:El; [apply lost_edits in El as [El _]; [congruence|done]|].
    destruct (apply_header _ _ _ h) as [h'|] eqn:E; [|done]. simpl in H. injection H as <-. split_and!; [|done..]. intros n Hk.
    eapply apply_header_headers; [exact E|done|done|by right].
  - destruct (apply_header_response _ _ _ p) as [p'|] eqn:E; [|done]. simpl in H. injection H as <-. simpl.
    split_and!; [by intros n; eapply apply_header_response_headers| |done].
    destruct (ke.1), (exec_header _ _ _ _) as [[]|]; simpl in E; repeat case_match; by simplify_eq.
Qed.

Lemma put_header_other request a ke r r' n :
  put_header request a ke r = Ret r' → ke.1 ≠ HPHeader n → n ≠ "host" →
  get_all n (rr_headers r') = get_all n (rr_headers r) ∨ get_all n (rr_headers r') = [].
Proof.
  unfold put_header. intros H Hk Hn. pose proof (exec_header_kind request r ke.2 ke.1) as Hkind. destruct r as [h b m|p m]; simpl in H.
  - destruct (lost _ _ h) eqn:El.
    + apply lost_edits in El as [_ El]; [|done]. rewrite El in H. simpl in H. injection H as <-. by right.
    + destruct (apply_header _ _ _ h) as [h'|] eqn:E; [|done]. simpl in H. injection H as <-. left.
      eapply apply_header_headers; [exact E|done|done|by left].
  - destruct (apply_header_response _ _ _ p) as [p'|] eqn:E; [|done]. simpl in H. injection H as <-. left. by eapply apply_header_response_headers.
Qed.

Definition overwrite (n : string) (o : option string) (h : HeaderMap) : HeaderMap :=
  match o with Some v => hm_insert n v h | None => hm_remove n h end.

Lemma get_all_overwrite n o h : get_all n (overwrite n o h) = option_list o.
Proof. destruct o; simpl; by rewrite ?get_all_insert, ?get_all_remove, decide_True. Qed.

Lemma put_header_set request n e r r' :
  put_header request OverwriteIfExistsOrAdd (HPHeader n, e) r = Ret r' → n ≠ "host" →
  rr_headers r' = overwrite n (header_of request r e) (rr_headers r).
Proof.
  unfold put_header. cbn [fst snd]. rewrite exec_header_of. intros H Hn. unfold rr_apply_header, lost in H.
  destruct r as [h b m|p m], (header_of _ _ e) as [v|]; simpl in H; rewrite ?(bool_decide_eq_false_2 _ Hn) in H; simpl in H; by injection H as <-.
Qed.

(** ** Lists of headers *)

Lemma put_headers_ret request a l r : ∃ r', fold_out (put_header request a) l r = Ret r'.
Proof.
  revert r. induction l as [|ke l IH]; intros r; [by eexists|]. destruct (put_header_ret request a ke r) as [r1 H1].
  destruct (IH r1) as [r2 H2]. exists r2. cbn [fold_out]. by rewrite H1.
Qed.

Lemma put_headers_cons request a ke l r r' :
  fold_out (put_header request a) (ke :: l) r = Ret r' → ∃ r1, put_header request a ke r = Ret r1 ∧ fold_out (put_header request a) l r1 = Ret r'.
Proof. cbn [fold_out]. destruct (put_header request a ke r) as [r1|]; [|done]. eauto. Qed.

Lemma put_headers_keep request a l r r' :
  fold_out (put_header request a) l r = Ret r' → Forall (keeps r) l.*1 →
  (∀ n, HPHeader n ∉ l.*1 → get_all n (rr_headers r') = get_all n (rr_headers r)) ∧ rr_body r' = rr_body r ∧ (∀ k, keeps r' k ↔ keeps r k).
Proof.
  revert r. induction l as [|ke l IH]; intros r H Hk; [by injection H as <-|]. apply put_headers_cons in H as (r1 & H1 & H).
  cbn [fmap list_fmap] in Hk |- *. apply Forall_cons in Hk as [Hk Hks].
  destruct (put_header_keeps _ _ _ _ _ H1 Hk) as (E1 & E2 & E3).
  destruct (IH r1 H) as (F1 & F2 & F3); [by eapply Forall_impl; [exact Hks|]; intros k; apply E3|].
  split_and!; [|congruence|intros k; by rewrite F3]. intros n [Hne Hn]%not_elem_of_cons. rewrite (F1 n Hn). by apply E1, not_eq_sym.
Qed.

(** The values of a header that an expression of [l] computed, if any. *)
Definition computed (request : option Snapshot) (l : list (HeaderOrPseudo * Expression)) (n : string) (vs : list string) : Prop :=
  vs = [] ∨ ∃ e r v, (HPHeader n, e) ∈ l ∧ header_of request r e = Some v ∧ vs = [v].

Lemma put_headers_computed request l l' r r' n :
  fold_out (put_header request OverwriteIfExistsOrAdd) l' r = Ret r' → n ≠ "host" → l' ⊆ l →
  HPHeader n ∈ l'.*1 ∨ computed request l n (get_all n (rr_headers r)) → computed request l n (get_all n (rr_headers r')).
Proof.
  intros H Hn. revert r H. induction l' as [|[k e] l' IH]; intros r H Hl Hin.
  { injection H as <-. destruct Hin as [Hin%elem_of_nil|]; done. }
  apply put_headers_cons in H as (r1 & H1 & H). apply (IH r1 H); [set_solver|].
  destruct (decide (k = HPHeader n)) as [->|Hk].
  - right. rewrite (put_header_set _ _ _ _ _ H1 Hn), get_all_overwrite. destruct (header_of request r e) as [v|] eqn:E; [|by left].
    right. exists e, r, v. split; [set_solver|done].
  - destruct Hin as [Hin|Hc]; [left; set_solver|right].
    destruct (put_header_other _ _ _ _ _ n H1 Hk Hn) as [->| ->]; [done|by left].
Qed.

(** ** Metadata *)

Lemma put_metadata_rest request l r :
  let r' := foldl (put_metadata request) r l in
  rr_headers r' = rr_headers r ∧ rr_body r' = rr_body r ∧ (∀ k, keeps r' k ↔ keeps r k) ∧
  ∀ k, k ∉ l.*1 → (rr_metadata r' ≫= lookup k) = (rr_metadata r ≫= lookup k).
Proof.
  revert r. induction l as [|[n e] l IH]; intros r; [done|]. cbn [foldl]. specialize (IH (put_metadata request r (n, e))).
  destruct IH as (E1 & E2 & E3 & E4).
  assert (rr_headers (put_metadata request r (n, e)) = rr_headers r ∧ rr_body (put_metadata request r (n, e)) = rr_body r ∧
    (∀ k, keeps (put_metadata request r (n, e)) k ↔ keeps r k) ∧
    ∀ k, k ≠ n → (rr_metadata (put_metadata request r (n, e)) ≫= lookup k) = (rr_metadata r ≫= lookup k)) as (F1 & F2 & F3 & F4).
  { unfold put_metadata. destruct (eval_metadata _ _ _) as [v|]; [|done]. destruct r as [h b m|p m]; (split_and!; [done..|]);
      intros k Hk; simpl; rewrite lookup_insert_ne by done; by destruct m; simpl; rewrite ?lookup_empty. }
  split_and!; [congruence..|intros k; by rewrite E3|]. intros k Hk. cbn [fmap list_fmap] in Hk. apply not_elem_of_cons in Hk as [Hk Hks].
  by rewrite (E4 k Hks), (F4 k Hk).
Qed.

(** ** What a transformation does *)

Definition removed (cfg : TransformerConfig) (n : string) : Prop := n ∈ tc_remove cfg ∨ (n = "content-length" ∧ is_Some (tc_body cfg)).

Lemma put_body_headers request body r n :
  get_all n (rr_headers (put_body request body r)) =
  if decide (n = "content-length" ∧ is_Some body) then [] else get_all n (rr_headers r).
Proof.
  destruct body as [e|]; simpl; [|case_decide as Hd; [by destruct Hd as [_ []%is_Some_None]|done]].
  rewrite rr_headers_with, get_all_remove. destruct r; case_decide; case_decide; subst; simpl; try done; tauto || (exfalso; naive_solver).
Qed.

Lemma removals_headers ks r n :
  get_all n (rr_headers (with_rr_headers (λ h, foldl (λ h k, hm_remove k h) h ks) r)) =
  if decide (n ∈ ks) then [] else get_all n (rr_headers r).
Proof. rewrite rr_headers_with, get_all_removes. done. Qed.

(** C35. A transformation never panics. A header that it removes is gone, and so
    is the length of a body that it replaces; a header that it sets, other than
    the host, has the value of its expression, or none: the client's own never
    survives, not even when the expression fails. (Of a host that it sets and
    whose expression fails, the authority stays the client's.) Every other header, and a body without an expression,
    are as they were, as long as no entry edits the URI of a request. *)
Theorem transform_sanitizes cfg request r : ∃ r', transform cfg request r = Ret r' ∧ ∀ n,
  (removed cfg n → get_all n (rr_headers r') = []) ∧
  (n ≠ "host" → HPHeader n ∈ (tc_set cfg).*1 → computed request (tc_set cfg) n (get_all n (rr_headers r'))) ∧
  (Forall (keeps r) (tc_add cfg ++ tc_set cfg).*1 →
   (tc_body cfg = None → rr_body r' = rr_body r) ∧
   (HPHeader n ∉ (tc_add cfg ++ tc_set cfg).*1 → ¬ removed cfg n → get_all n (rr_headers r') = get_all n (rr_headers r))).
Proof.
  unfold transform. destruct (put_metadata_rest request (tc_metadata cfg) r) as (E1 & E2 & E3 & _).
  set (r0 := foldl _ r _) in *. destruct (put_headers_ret request AppendIfExistsOrAdd (tc_add cfg) r0) as [r1 H1]. rewrite H1.
  destruct (put_headers_ret request OverwriteIfExistsOrAdd (tc_set cfg) r1) as [r2 H2]. simpl. rewrite H2. simpl.
  eexists. split; [done|]. intros n. rewrite put_body_headers, removals_headers. unfold removed. split_and!.
  - intros [Hr|Hr]; repeat case_decide; done || tauto.
  - intros Hn Hin. pose proof (put_headers_computed _ (tc_set cfg) _ _ _ n H2 Hn (reflexivity _) (or_introl Hin)) as Hc.
    repeat case_decide; [by left..|done].
  - rewrite fmap_app. intros [Ha Hs]%Forall_app.
    destruct (put_headers_keep _ _ _ _ _ H1) as (F1 & F2 & F3); [by eapply Forall_impl; [exact Ha|]; intros k; apply E3|].
    destruct (put_headers_keep _ _ _ _ _ H2) as (G1 & G2 & _); [by eapply Forall_impl; [exact Hs|]; intros k; rewrite F3, E3|].
    split; [intros ->; destruct r2; simpl in *; congruence|]. intros [Hna Hns]%not_elem_of_app Hr.
    repeat case_decide; [tauto..|]. rewrite (G1 n Hns), (F1 n Hna). by rewrite E1.
Qed.

Lemma put_headers_response request a l p m r' :
  fold_out (put_header request a) l (TResponse p m) = Ret r' → ∃ p', r' = TResponse p' m.
Proof.
  revert p. induction l as [|ke l IH]; intros p H; [by injection H as <-; eexists|]. apply put_headers_cons in H as (r1 & H1 & H).
  unfold put_header in H1. simpl in H1. destruct (apply_header_response _ _ _ p) as [p1|]; [|done]. simpl in H1. injection H1 as <-. eauto.
Qed.

(** In the metadata of a response, what the response itself and its
    transformation put there has precedence over what the request carried, and
    the rest is what the request carried. *)
Theorem response_metadata_wins t snap p m : ∃ p' m',
  apply_response t (Some snap) p m = Ret (TResponse p' m') ∧
  ∀ k, k ∉ (tc_metadata (tr_response t)).*1 → (m' ≫= lookup k) = option_or (m ≫= lookup k) (snapshot_metadata snap ≫= lookup k).
Proof.
  unfold apply_response. simpl. set (m0 := match snapshot_metadata snap with Some _ => _ | None => _ end). unfold transform.
  destruct (put_metadata_rest (Some snap) (tc_metadata (tr_response t)) (TResponse p m0)) as (_ & _ & E3 & E4).
  destruct (foldl _ _ _) as [h b m1|p1 m1]; [by specialize (E3 HPScheme); simpl in E3; exfalso; apply (diff_true_false); apply E3|].
  destruct (put_headers_ret (Some snap) AppendIfExistsOrAdd (tc_add (tr_response t)) (TResponse p1 m1)) as [r1 H1].
  rewrite H1. apply put_headers_response in H1 as [p2 ->].
  destruct (put_headers_ret (Some snap) OverwriteIfExistsOrAdd (tc_set (tr_response t)) (TResponse p2 m1)) as [r2 H2].
  simpl. rewrite H2. apply put_headers_response in H2 as [p3 ->]. simpl.
  destruct (tc_body (tr_response t)); (eexists _, m1; split; [done|]); intros k Hk; (etrans; [exact (E4 k Hk)|]); simpl; subst m0;
    destruct (snapshot_metadata snap) as [rm|], m as [own|]; simpl; rewrite ?lookup_union; try done;
    (by destruct (own !! k), (rm !! k)) || (by destruct (own !! k)).
Qed.

(** ** Strict and permissive compilation *)

Section strictness.
Context {CO : Compilers}.

Definition agrees {A} (s p : TM A) : Prop := ∀ ws,
  (∀ a, s ws = (ws, Ok a) ↔ p ws = (ws, Ok a)) ∧ ws `prefix_of` (s ws).1 ∧ ws `prefix_of` (p ws).1.

Lemma bind_clean {A B} (m : TM A) (k : A → TM B) ws b :
  (∀ ws, ws `prefix_of` (m ws).1) → (∀ a ws, ws `prefix_of` (k a ws).1) →
  (m ≫= k) ws = (ws, Ok b) ↔ ∃ a, m ws = (ws, Ok a) ∧ k a ws = (ws, Ok b).
Proof.
  intros Hm Hk. unfold mbind, tm_bind. split.
  - specialize (Hm ws). destruct (m ws) as [w [a|e]] eqn:E; [|by intros [=]]. intros H. specialize (Hk a w). rewrite H in Hk. simpl in Hm, Hk.
    assert (w = ws) as -> by (by apply (anti_symm prefix)). eauto.
  - by intros (a & -> & H).
Qed.

Lemma bind_prefix {A B} (m : TM A) (k : A → TM B) ws :
  (∀ ws, ws `prefix_of` (m ws).1) → (∀ a ws, ws `prefix_of` (k a ws).1) → ws `prefix_of` ((m ≫= k) ws).1.
Proof.
  intros Hm Hk. unfold mbind, tm_bind. specialize (Hm ws). destruct (m ws) as [w [a|e]]; [|done]. simpl in *. by etrans.
Qed.

Lemma agrees_bind {A B} (s p : TM A) (ks kp : A → TM B) : agrees s p → (∀ a, agrees (ks a) (kp a)) → agrees (s ≫= ks) (p ≫= kp).
Proof.
  intros Hm Hk ws. split; [|split; apply bind_prefix; intros; (apply Hm || apply Hk)].
  intros b. rewrite !bind_clean by (intros; (apply Hm || apply Hk)). split; intros (a & H1 & H2); exists a; (split; [by apply Hm|by apply Hk]).
Qed.

Lemma agrees_same {A} (m : TM A) : (∀ ws, ws `prefix_of` (m ws).1) → agrees m m.
Proof. intros H ws. split; [done|]. split; apply H. Qed.

Lemma agrees_ret {A} (a : A) : agrees (mret a) (mret a).
Proof. by apply agrees_same. Qed.

Lemma agrees_option {A} e (o : option A) : agrees (tm_option e o) (tm_option e o).
Proof. by apply agrees_same. Qed.

Lemma agrees_compile s : agrees (compile true s) (compile false s).
Proof.
  intros ws. unfold compile, new_permissive. simpl. destruct (new_strict s) as [e|err]; simpl; [done|]. split_and!; [|done|by apply prefix_app_r].
  intros a. split; [by intros [=]|]. intros [= H]. exfalso. apply (f_equal length) in H. rewrite length_app in H. simpl in H. lia.
Qed.

Lemma agrees_collect {A B} (f g : A → TM B) l : (∀ a, agrees (f a) (g a)) → agrees (tm_collect f l) (tm_collect g l).
Proof.
  intros H. induction l as [|a l IH]; simpl; [apply agrees_ret|]. apply agrees_bind; [done|]. intros b. apply agrees_bind; [done|]. intros. apply agrees_ret.
Qed.

Lemma agrees_or_default o : agrees (or_default true o) (or_default false o).
Proof.
  destruct o as [t|]; [|apply agrees_ret]. unfold or_default, transformer_try_from, named_header.
  repeat first
    [ apply agrees_bind | apply agrees_ret | apply agrees_option | apply agrees_compile | apply agrees_collect | progress (intros; simpl)
    | match goal with |- agrees (tm_transpose _ ?o) _ => destruct o end ].
Qed.

(** A strict compilation accepts a configuration exactly when a permissive
    one accepts it without warnings, and the results are the same. *)
Theorem strict_iff_no_warnings v t :
  try_from_local_config_with_warnings v true [] = ([], Ok t) ↔ try_from_local_config_with_warnings v false [] = ([], Ok t).
Proof.
  apply agrees_bind; [apply agrees_or_default|]. intros req. apply agrees_bind; [apply agrees_or_default|]. intros resp. apply agrees_ret.
Qed.
End strictness.
End transformation.
