(* ===== verification/RemoteLimit.v ===== *)
(** * Remote rate limiting

    [http/remoteratelimit.rs]: descriptors evaluated on a request are sent to a
    service that counts them; the service's answer lets the request pass or is
    the response, and the tokens a model used are reported afterwards. *)
From stdpp Require Import base gmap strings list.
From Stdlib Require Import ZArith.
From S2P Require Import Prelude RustStd Authorization AgentTypes RouteSelect HttpRequest Auth Pipeline RateLimit EnvoyHeaders.

Local Open Scope string_scope.
Local Open Scope list_scope.

Inductive RemoteFailureMode := FailClosed | FailOpen.

#[global] Instance RemoteFailureMode_eq_dec : EqDecision RemoteFailureMode.
Proof. solve_decision. Defined.

Inductive RateLimitUnit := Second | Minute | Hour | Day | Month | Year.

(** ** Messages *)

Record RateLimitDescriptor := mkDescriptor {
  rd_entries : list (string * string);
  rd_limit : option (Z * RateLimitUnit);
  rd_hits_addend : option Z;
}.

Record RateLimitRequest := mkRateLimitRequest { rq_domain : string; rq_descriptors : list RateLimitDescriptor }.

Record RateLimitResponse := mkRateLimitResponse {
  rr_overall_code : Z;
  rr_response_headers_to_add : list ProtoHeaderValue;
  rr_request_headers_to_add : list ProtoHeaderValue;
  rr_raw_body : string;
}.

Definition CODE_OK : Z := 1.

Section remote.
Context {UC : UriCrate} {HC : HttpCrate} {RE : RegexEngine} {MC : MessageCrate} {CE : CelEngine} {JW : JsonWebToken}.
Context {UserMetadata Value EvalError : Type}.
Local Abbreviation AReq := (AReq (UserMetadata := UserMetadata)).
Local Abbreviation PolicyResponse := (Pipeline.PolicyResponse (Body := string)).

Record DescriptorEntry := mkEntry {
  de_entries : list (string * Expression);
  de_limit_type : RateLimitType;
  de_cost : option Expression;
  de_limit_override : option Expression;
}.

(** [RemoteRateLimit], less the backend that is called. *)
Record RemoteRateLimit := mkRemote { rl_domain : string; rl_descriptors : list DescriptorEntry; rl_failure_mode : RemoteFailureMode }.

(** Expressions on a request, and values: [Value::as_string] and
    [Value::as_unsigned]; the [unit] and [requestsPerUnit] of a value. *)
Context (exec : AReq → Executor Expression Value EvalError).
Context (as_string : Value → option string) (as_unsigned : Value → option Z) (as_override : Value → option (string * Z)).

Definition eval_value (r : AReq) (e : Expression) : option Value := match eval (exec r) e with Ok v => Some v | Err _ => None end.

(** ** Building the request *)

(** [eval_descriptor]: all the entries, or nothing. *)
Fixpoint eval_descriptor (r : AReq) (entries : list (string * Expression)) : option (list (string * string)) :=
  match entries with
  | [] => Some []
  | (k, lookup) :: entries' =>
      v ← eval_value r lookup ≫= as_string;
      rest ← eval_descriptor r entries';
      Some ((k, v) :: rest)
  end.

(** [eval_cost]: [None] when the expression fails. *)
Definition eval_cost (r : AReq) (cost : option Expression) (default_cost : option Z) : option (option Z) :=
  match cost with
  | Some e => Some <$> (eval_value r e ≫= as_unsigned)
  | None => Some default_cost
  end.

Definition limit_unit (u : string) : option RateLimitUnit :=
  let u := Str.to_ascii_lowercase u in
  if bool_decide (u = "second") then Some Second
  else if bool_decide (u = "minute") then Some Minute
  else if bool_decide (u = "hour") then Some Hour
  else if bool_decide (u = "day") then Some Day
  else if bool_decide (u = "month") then Some Month
  else if bool_decide (u = "year") then Some Year
  else None.

Definition eval_limit_override (r : AReq) (o : option Expression) : option (option (Z * RateLimitUnit)) :=
  match o with
  | None => Some None
  | Some e =>
      '(unit, n) ← eval_value r e ≫= as_override;
      u ← limit_unit unit;
      Some (Some (n, u))
  end.

(** One descriptor, unless it is skipped. *)
Definition build_descriptor (r : AReq) (t : RateLimitType) (default_cost : option Z) (d : DescriptorEntry) : option RateLimitDescriptor :=
  entries ← eval_descriptor r (de_entries d);
  match entries with
  | [] => None
  | _ =>
      hits ← (if decide (is_Some (de_cost d) ∧ t = Tokens) then Some (Some 0%Z) else eval_cost r (de_cost d) default_cost);
      limit ← eval_limit_override r (de_limit_override d);
      Some (mkDescriptor entries limit hits)
  end.

(** [build_request]: the request and, descriptor by descriptor, the costs. *)
Definition build_request (rl : RemoteRateLimit) (r : AReq) (t : RateLimitType) (default_cost : option Z)
    : option (RateLimitRequest * list (option Expression)) :=
  let built := omap (λ d, (λ m, (m, de_cost d)) <$> build_descriptor r t default_cost d)
                 (filter (λ d, de_limit_type d = t) (rl_descriptors rl)) in
  match built with
  | [] => None
  | _ => Some (mkRateLimitRequest (rl_domain rl) built.*1, built.*2)
  end.

(** ** The answer *)

Definition process_headers (hs : list ProtoHeaderValue) (hm : HeaderMap) : HeaderMap := foldl (λ hm h, apply_header_value h hm) hm hs.

Definition remote_apply (cr : RateLimitResponse) (r : AReq) : AReq * PolicyResponse :=
  if decide (rr_overall_code cr ≠ CODE_OK) then
    (r, mkPolicyResponse (Some (mkResponse 429 (process_headers (rr_response_headers_to_add cr) []) (rr_raw_body cr))) None)
  else
    (with_headers (process_headers (rr_request_headers_to_add cr) (aq_headers r)) r,
     mkPolicyResponse None (match rr_response_headers_to_add cr with [] => None | hs => Some (process_headers hs []) end)).

Inductive RemoteError := RateLimitFailed.

(** [call]: what the service answers, [None] when the call fails. *)
Definition remote_check (call : RateLimitRequest → option RateLimitResponse) (rl : RemoteRateLimit) (r : AReq)
    : AReq * result PolicyResponse RemoteError :=
  if negb (existsb (λ d, bool_decide (de_limit_type d = Requests)) (rl_descriptors rl)) then (r, Ok policy_response_default)
  else
    match build_request rl r Requests None with
    | None => (r, Ok policy_response_default)
    | Some (q, _) =>
        match call q with
        | Some cr => let '(r, pr) := remote_apply cr r in (r, Ok pr)
        | None => (r, if decide (rl_failure_mode rl = FailOpen) then Ok policy_response_default else Err RateLimitFailed)
        end
    end.

(** ** Tokens *)

(** [LLMResponseAmend]. *)
Record LLMResponseAmend := mkAmend { am_request : RateLimitRequest; am_descriptor_costs : list (option Expression) }.

Definition check_llm (call : RateLimitRequest → option RateLimitResponse) (rl : RemoteRateLimit) (default_cost : Z) (r : AReq)
    : AReq * result (PolicyResponse * option LLMResponseAmend) RemoteError :=
  if negb (existsb (λ d, bool_decide (de_limit_type d = Tokens)) (rl_descriptors rl)) then (r, Ok (policy_response_default, None))
  else
    match build_request rl r Tokens (Some default_cost) with
    | None => (r, Ok (policy_response_default, None))
    | Some (q, costs) =>
        let amend := Some (mkAmend q costs) in
        match call q with
        | Some cr => let '(r, pr) := remote_apply cr r in (r, Ok (pr, amend))
        | None => (r, if decide (rl_failure_mode rl = FailOpen) then Ok (policy_response_default, amend) else Err RateLimitFailed)
        end
    end.

(** What is reported of one descriptor once the answer of the model is known;
    [eval_end] evaluates with the answer. *)
Definition amend_descriptor (eval_end : Expression → option Value) (default_tokens : Z) (dc : RateLimitDescriptor * option Expression)
    : option RateLimitDescriptor :=
  hits ← match dc.2 with
         | Some cost => eval_end cost ≫= as_unsigned
         | None => if (0 <=? default_tokens)%Z then Some default_tokens else None
         end;
  Some (mkDescriptor (rd_entries dc.1) (rd_limit dc.1) (Some hits)).

Definition apply_token_amend (eval_end : Expression → option Value) (default_tokens : Z) (a : LLMResponseAmend) : RateLimitRequest :=
  mkRateLimitRequest (rq_domain (am_request a))
    (omap (amend_descriptor eval_end default_tokens) (zip (rq_descriptors (am_request a)) (am_descriptor_costs a))).

(** ** What it guarantees *)

(** The descriptors of a kind that evaluate, in order. *)
Definition counted (rl : RemoteRateLimit) (r : AReq) (t : RateLimitType) (default_cost : option Z) (m : RateLimitDescriptor) (cost : option Expression) : Prop :=
  ∃ d, d ∈ rl_descriptors rl ∧ de_limit_type d = t ∧ build_descriptor r t default_cost d = Some m ∧ cost = de_cost d.

Lemma build_request_Some rl r t default_cost q costs :
  build_request rl r t default_cost = Some (q, costs) →
  rq_domain q = rl_domain rl ∧ rq_descriptors q ≠ [] ∧ length costs = length (rq_descriptors q) ∧
  ∀ m cost, (m, cost) ∈ zip (rq_descriptors q) costs → counted rl r t default_cost m cost.
Proof.
  unfold build_request. set (built := omap _ _). intros H. assert (built ≠ [] ∧ q = mkRateLimitRequest (rl_domain rl) built.*1 ∧ costs = built.*2) as (Hb & -> & ->).
  { destruct built; [done|]. by injection H as <- <-. }
  simpl. split; [done|]. split; [by destruct built|]. split; [by rewrite !length_fmap|]. intros m cost Hin.
  rewrite zip_fst_snd in Hin. apply list_elem_of_omap in Hin as (d & Hd & Hm). apply list_elem_of_filter in Hd as [Ht Hd].
  apply fmap_Some in Hm as (m' & Hm' & [= -> ->]). by exists d.
Qed.

Lemma build_request_None rl r t default_cost :
  build_request rl r t default_cost = None → ∀ m cost, ¬ counted rl r t default_cost m cost.
Proof.
  unfold build_request. set (built := omap _ _). intros H m cost (d & Hd & Ht & Hm & _). assert (built = []) as Hb by (by destruct built).
  assert ((m, de_cost d) ∈ built) as Hin; [|rewrite Hb in Hin; by apply elem_of_nil in Hin].
  apply list_elem_of_omap. exists d. split; [by apply list_elem_of_filter|]. by rewrite Hm.
Qed.

Lemma filter_none {A} (P : A → Prop) `{∀ x, Decision (P x)} (l : list A) : (∀ x, x ∈ l → ¬ P x) → filter P l = [].
Proof.
  induction l as [|x l IH]; intros Hl; [done|]. rewrite filter_cons, decide_False by (apply Hl; by left). apply IH. intros y Hy. apply Hl. by right.
Qed.

(** A request passes remote rate limiting exactly if nothing of it is to be
    counted, or the service, told of every descriptor that evaluates, says it is
    within its limits, or the service does not answer and the policy is to fail
    open. Over a limit, the response is 429. *)
Theorem remote_limit_exact call rl r r' res :
  remote_check call rl r = (r', res) →
  (build_request rl r Requests None = None ∧ (∀ m cost, ¬ counted rl r Requests None m cost) ∧ res = Ok policy_response_default ∧ r' = r) ∨
  ∃ q costs, build_request rl r Requests None = Some (q, costs) ∧ rq_descriptors q ≠ [] ∧
    match call q with
    | None => r' = r ∧ res = (if decide (rl_failure_mode rl = FailOpen) then Ok policy_response_default else Err RateLimitFailed)
    | Some cr => ∃ pr, res = Ok pr ∧
        if decide (rr_overall_code cr = CODE_OK) then pr_direct_response pr = None
        else r' = r ∧ ∃ dr, pr_direct_response pr = Some dr ∧ rs_status dr = 429%Z
    end.
Proof.
  unfold remote_check. destruct (existsb _ _) eqn:Ee; simpl.
  - destruct (build_request rl r Requests None) as [[q costs]|] eqn:Eb.
    + intros H. right. exists q, costs. split; [done|]. apply build_request_Some in Eb as (_ & Hne & _). split; [done|].
      destruct (call q) as [cr|]; [|by injection H as <- <-]. unfold remote_apply in H.
      destruct (decide (rr_overall_code cr ≠ CODE_OK)) as [Hc|Hc]; injection H as <- <-; eexists; (split; [done|]).
      * rewrite decide_False by done. split; [done|]. by eexists.
      * by rewrite decide_True by lia.
    + intros [= <- <-]. left. split_and!; try done. by apply build_request_None.
  - intros [= <- <-]. left. assert (∀ d, d ∈ rl_descriptors rl → de_limit_type d ≠ Requests) as Hn.
    { intros d Hd Ht. apply not_true_iff_false in Ee. apply Ee, existsb_exists. exists d. split; [by apply list_elem_of_In|]. by apply bool_decide_eq_true_2. }
    split; [|split_and!; try done; intros m cost (d & Hd & Ht & _); by eapply Hn].
    unfold build_request. replace (filter _ (rl_descriptors rl)) with (@nil DescriptorEntry); [done|]. symmetry. by apply filter_none.
Qed.

(** What is reported once a model has answered: exactly the descriptors
    that were counted for the request, each with its own cost, evaluated then
    or the tokens used; those whose cost fails, or is not to be added because
    fewer tokens were used than assumed, are left out. *)
Theorem token_amend_exact call rl default_cost r r' pr amend eval_end default_tokens m :
  check_llm call rl default_cost r = (r', Ok (pr, Some amend)) →
  m ∈ rq_descriptors (apply_token_amend eval_end default_tokens amend) ↔
  ∃ m0 cost hits, (m0, cost) ∈ zip (rq_descriptors (am_request amend)) (am_descriptor_costs amend) ∧
    counted rl r Tokens (Some default_cost) m0 cost ∧ m = mkDescriptor (rd_entries m0) (rd_limit m0) (Some hits) ∧
    match cost with Some e => eval_end e ≫= as_unsigned = Some hits | None => hits = default_tokens ∧ (0 ≤ default_tokens)%Z end.
Proof.
  unfold check_llm. destruct (negb _); [done|]. destruct (build_request rl r Tokens _) as [[q costs]|] eqn:Eb; [|done]. intros H.
  assert (amend = mkAmend q costs) as ->.
  { destruct (call q) as [cr|]; [destruct (remote_apply cr r) as [r1 pr1]; congruence|]. case_decide; congruence. }
  apply build_request_Some in Eb as (_ & _ & _ & Hc). unfold apply_token_amend. simpl. rewrite list_elem_of_omap. split.
  - intros ([m0 cost] & Hin & Hm). unfold amend_descriptor in Hm. simpl in Hm. apply bind_Some in Hm as (hits & Hh & [= <-]).
    exists m0, cost, hits. split_and!; [done|by apply Hc|done|]. destruct cost as [e|]; [done|]. destruct (0 <=? default_tokens)%Z eqn:E; [|done].
    injection Hh as <-. split; [done|lia].
  - intros (m0 & cost & hits & Hin & _ & -> & Hh). exists (m0, cost). split; [done|]. unfold amend_descriptor. simpl. destruct cost as [e|]; [by rewrite Hh|].
    destruct Hh as [-> Hp]. destruct (0 <=? default_tokens)%Z eqn:E; [done|lia].
Qed.
End remote.
