(* ===== verification/ExtProc.v ===== *)
(** * External processing

    [http/ext_proc.rs]: the headers and the body of a request, and later of its
    response, are sent to a processor as they arrive; what goes on is what the
    processor sends back. The processor is the sequence of its answers; the end
    of the sequence is the end of its stream.

    Metadata and attributes computed for the processor, and metadata it leaves
    for expressions, are not modelled. *)
From stdpp Require Import base gmap strings list.
From Stdlib Require Import ZArith.
From S2P Require Import Prelude RustStd AgentTypes RouteSelect HttpRequest Auth Pipeline Replay PeekBody EnvoyHeaders ExtAuthz.

Local Open Scope string_scope.
Local Open Scope list_scope.

(** ** Messages *)

Inductive ProcFailureMode := ProcFailClosed | ProcFailOpen.

#[global] Instance ProcFailureMode_eq_dec : EqDecision ProcFailureMode.
Proof. solve_decision. Defined.

Record HeaderMutation := mkHeaderMutation { set_headers_of : list ProtoHeaderValueOption; remove_headers : list string }.

Inductive BodyMutation := StreamedResponse (body : list Z) (end_of_stream : bool) | MutationBody | ClearBody.

Record CommonResponse := mkCommon { header_mutation_of : option HeaderMutation; body_mutation : option BodyMutation }.

Record ImmediateResponse := mkImmediate { im_status : option Z; im_headers : option HeaderMutation; im_body : string }.

(** The answers of a processor. *)
Inductive ProcResponse :=
| PRRequestHeaders (r : option CommonResponse)
| PRRequestBody (r : option CommonResponse)
| PRRequestTrailers
| PRResponseHeaders (r : option CommonResponse)
| PRResponseBody (r : option CommonResponse)
| PRResponseTrailers
| PRImmediate (r : ImmediateResponse)
| PRNone.

(** The task that hands answers to the request's or the response's side. *)
Definition for_request (p : ProcResponse) : bool :=
  match p with PRRequestHeaders _ | PRRequestBody _ | PRRequestTrailers | PRImmediate _ => true | _ => false end.
Definition for_response (p : ProcResponse) : bool :=
  match p with PRResponseHeaders _ | PRResponseBody _ | PRResponseTrailers | PRImmediate _ => true | _ => false end.

Inductive ProcError := RequestSend | NoMoreResponses.

Section ext_proc.
Context {UC : UriCrate} {HC : HttpCrate} {RE : RegexEngine} {MC : MessageCrate} {Trailers BErr : Type}.
Local Abbreviation Event := (Event Trailers BErr).
Local Abbreviation Resp := (Pipeline.Response (Body := string)).

(** ** What is sent to the processor *)

Inductive ProcRequest :=
| PQHeaders (headers : list (string * string)) (end_of_stream : bool)
| PQBody (body : list Z) (end_of_stream : bool)
| PQTrailers (t : Trailers).

Definition req_to_header_map (q : Request) : list (string * string) :=
  let pseudo := get_request_pseudo_headers q in
  let has_scheme := existsb (λ pv, bool_decide (pv.1 = HPScheme)) pseudo in
  let pseudo := if has_scheme then pseudo else pseudo ++ [(HPScheme, "http")] in
  req_headers q ++ ((λ pv, (hp_display pv.1, pv.2)) <$> pseudo).

(** [handle_body_stream], while the processor's stream takes messages. *)
Fixpoint handle_body_stream (es : list Event) : list ProcRequest :=
  match es with
  | EPending :: es' => handle_body_stream es'
  | EFrame (FData d) :: es' => PQBody d false :: handle_body_stream es'
  | EFrame (FTrailers t) :: es' => PQTrailers t :: handle_body_stream es'
  | [] | EError _ :: _ => [PQBody [] true]
  | EUnknown :: _ => []                        (* unreachable!() *)
  end.

(** ** Answers *)

Definition apply_header_mutations_request (h : option HeaderMutation) (r : Head) : outcome Head :=
  match h with
  | None => Ret r
  | Some hm =>
      let r := foldl (λ r n, set_headers (remove_named n (hd_headers r)) r) r (remove_headers hm) in
      fold_out apply_header_option (set_headers_of hm) r
  end.

Definition apply_header_mutations_response (h : option HeaderMutation) (r : Resp) : outcome Resp :=
  match h with
  | None => Ret r
  | Some hm =>
      let r := foldl (λ r n, on_headers (remove_named n) r) r (remove_headers hm) in
      fold_out apply_header_option_response (set_headers_of hm) r
  end.

(** [to_immediate_response]: a status that is none makes the builder fail, and
    the result is unwrapped. *)
Definition to_immediate_response (p : ProcResponse) : outcome (option Resp) :=
  match p with
  | PRImmediate ir =>
      c ← expect (status_from_u16 (default 200%Z (im_status ir) mod 65536)%Z);
      r ← apply_header_mutations_response (im_headers ir) (mkResponse c [] (im_body ir));
      Ret (Some r)
  | _ => Ret None
  end.

(** What an answer does: the head, a chunk for the body, whether the headers
    are done, and whether the body is. *)
Definition Handled (H : Type) : Type := H * option (list Z) * bool * bool.

Definition body_done (had_body res : bool) (m : option BodyMutation) : option (list Z) * bool * bool :=
  match m with
  | Some (StreamedResponse b eos) => (Some b, res, eos)
  | Some _ => (None, res, false)
  | None => (None, res, negb had_body)
  end.

(** [handle_response_for_request_mutation]; [req]: whether the request is
    still here. *)
Definition handle_for_request (had_body : bool) (req : option Head) (p : ProcResponse) : outcome (Handled (option Head)) :=
  let common res cr :=
    req ← match req with
          | Some r => r ← apply_header_mutations_request (header_mutation_of cr) r; Ret (Some r)
          | None => Ret None
          end;
    let '(chunk, h, eos) := body_done had_body res (body_mutation cr) in
    Ret (req, chunk, h, eos) in
  match p with
  | PRRequestHeaders None => Ret (req, None, true, negb had_body)
  | PRRequestHeaders (Some cr) => common true cr
  | PRRequestBody None => Ret (req, None, false, true)
  | PRRequestBody (Some cr) => common false cr
  | PRImmediate _ => Ret (req, None, true, true)
  | _ => Ret (req, None, false, false)
  end.

Definition handle_for_response (had_body : bool) (resp : option Resp) (p : ProcResponse) : outcome (Handled (option Resp)) :=
  let common res cr :=
    resp ← match resp with
           | Some r => r ← apply_header_mutations_response (header_mutation_of cr) r; Ret (Some r)
           | None => Ret None
           end;
    let '(chunk, h, eos) := body_done had_body res (body_mutation cr) in
    Ret (resp, chunk, h, eos) in
  match p with
  | PRResponseHeaders None => Ret (resp, None, true, false)
  | PRResponseHeaders (Some cr) => common true cr
  | PRResponseBody None => Ret (resp, None, false, true)
  | PRResponseBody (Some cr) => common false cr
  | _ => Ret (resp, None, false, false)
  end.

(** The task that forwards the rest of a body: its chunks; the body then ends,
    whether the processor ended it or stopped. *)
Fixpoint forward_rest {H} (handle : option H → ProcResponse → outcome (Handled (option H))) (had_body : bool) (ps : list ProcResponse)
    : outcome (list (list Z)) :=
  match ps with
  | [] => Ret []
  | p :: ps' =>
      '(_, chunk, _, eos) ← handle None p;
      rest ← (if eos || negb had_body then Ret [] else forward_rest handle had_body ps');
      Ret (option_list chunk ++ rest)
  end.

(** ** The loop *)

(** How it ends: with a head and a body to send on, with a response, with an
    error, unprocessed, or never. The channel of the new body holds one chunk,
    and nobody reads it before the loop has ended. *)
Inductive Processed (H : Type) :=
| Continue (head : H) (body : list (list Z))
| Unprocessed (head : H) (body : option (list (list Z)))   (* [None]: the original body *)
| Answered (head : H) (r : Resp)
| Failed (e : ProcError)
| Blocked.
#[global] Arguments Continue {H}.
#[global] Arguments Unprocessed {H}.
#[global] Arguments Answered {H}.
#[global] Arguments Failed {H}.
#[global] Arguments Blocked {H}.

Fixpoint proc_loop {H} (handle : option H → ProcResponse → outcome (Handled (option H))) (finish : H → H) (had_body open : bool)
    (ps : list ProcResponse) (head : H) (queued : option (list Z)) : outcome (Processed H) :=
  match ps with
  | [] => Ret (if negb had_body && open then Unprocessed head (Some (option_list queued)) else Failed NoMoreResponses)
  | p :: ps' =>
      im ← to_immediate_response p;
      match im with
      | Some r => Ret (Answered head r)
      | None =>
          '(head', chunk, headers_done, eos) ← handle (Some head) p;
          let head := default head head' in
          match queued, chunk with
          | Some _, Some _ => Ret Blocked
          | _, _ =>
              let queued := option_or queued chunk in
              if headers_done : bool then
                rest ← (if eos : bool then Ret [] else forward_rest handle had_body ps');
                Ret (Continue (finish head) (option_list queued ++ rest))
              else proc_loop handle finish had_body open ps' head queued
          end
      end
  end.

Definition without_length (r : Head) : Head := set_headers (hm_remove "content-length" (hd_headers r)) r.

(** [mutate_request]: [sent] whether the headers could be sent; the original
    body goes on only with a request nothing was sent of. *)
Definition mutate_request (mode : ProcFailureMode) (sent had_body : bool) (answers : list ProcResponse) (r : Head)
    : outcome (bool * Processed Head) :=
  let open := bool_decide (mode = ProcFailOpen) in
  if negb sent then Ret (open, if open then Unprocessed r None else Failed RequestSend)
  else
    res ← proc_loop (handle_for_request had_body) without_length had_body open (List.filter for_request answers) (without_length r) None;
    Ret (match res with Unprocessed _ _ => true | _ => false end, res).

(** [mutate_response]; [skipped]: what [mutate_request] left. *)
Definition mutate_response (skipped sent had_body : bool) (answers : list ProcResponse) (r : Resp) : outcome (Processed Resp) :=
  if skipped then Ret (Unprocessed r None)
  else if negb sent then Ret (Failed RequestSend)
  else
    let bare := on_headers (hm_remove "content-length") in
    proc_loop (handle_for_response had_body) bare had_body false (List.filter for_response answers) (bare r) None.

(** ** Requests that go on unprocessed *)

Lemma proc_loop_unprocessed {H} handle (finish : H → H) had_body open ps head queued h b :
  proc_loop handle finish had_body open ps head queued = Ret (Unprocessed h b) → had_body = false ∧ open = true ∧ is_Some b.
Proof.
  revert head queued. induction ps as [|p ps IH]; intros head queued; simpl.
  - destruct had_body, open; simpl; try done. intros [= <- <-]. eauto.
  - intros (im & _ & Hr)%bind_Ret_inv. destruct im as [r|]; [done|]. apply bind_Ret_inv in Hr as ([[[head' chunk] hd] eos] & _ & Hr).
    assert (∀ q, (if hd : bool then rest ← (if eos : bool then Ret [] else forward_rest handle had_body ps);
                Ret (Continue (finish (default head head')) (option_list q ++ rest))
              else proc_loop handle finish had_body open ps (default head head') q) = Ret (Unprocessed h b) →
              had_body = false ∧ open = true ∧ is_Some b) as Hq.
    { intros q Hq. destruct hd; [|by eapply IH]. apply bind_Ret_inv in Hq as (rest & _ & Hq). done. }
    destruct queued as [c|], chunk as [d|]; [done|exact (Hq (Some c) Hr)|exact (Hq (Some d) Hr)|exact (Hq None Hr)].
Qed.

(** A request goes on unprocessed only if the policy is to fail open, and
    then either nothing of it was sent, and it goes on as it is, or it has no
    body; its response is then left alone too. *)
Theorem unprocessed_only_if_open mode sent had_body answers (r h : Head) b skipped :
  mutate_request mode sent had_body answers r = Ret (skipped, Unprocessed h b) →
  mode = ProcFailOpen ∧ skipped = true ∧ (sent = false ∧ h = r ∧ b = None ∨ sent = true ∧ had_body = false) ∧
  ∀ sent' had_body' answers' resp, mutate_response skipped sent' had_body' answers' resp = Ret (Unprocessed resp None).
Proof.
  unfold mutate_request. destruct sent; simpl.
  - intros (res & Hl & [= <- ->])%bind_Ret_inv. apply proc_loop_unprocessed in Hl as (-> & Ho & _).
    apply bool_decide_eq_true_1 in Ho. split_and!; [done|done|by right|done].
  - case_bool_decide as Hm; intros [= <- <-]; try done. split_and!; [done|done|left|done]. by simplify_eq.
Qed.

(** ** A processor that sends back what it gets *)

Definition echo (q : ProcRequest) : ProcResponse :=
  match q with
  | PQHeaders _ _ => PRRequestHeaders (Some (mkCommon None None))
  | PQBody d eos => PRRequestBody (Some (mkCommon None (Some (StreamedResponse d eos))))
  | PQTrailers _ => PRRequestTrailers
  end.

(** The data of a body, to its end or to its first error. *)
Fixpoint data_of (es : list Event) : list (list Z) :=
  match es with
  | [] | EError _ :: _ | EUnknown :: _ => []
  | EFrame (FData d) :: es' => d :: data_of es'
  | _ :: es' => data_of es'
  end.

Definition complete (es : list Event) : bool := forallb (λ e, match e with EUnknown => false | _ => true end) es.

Lemma echo_rest (es : list Event) :
  complete es = true → forward_rest (handle_for_request true) true (echo <$> handle_body_stream es) = Ret (data_of es ++ [[]]).
Proof. induction es as [|[[d|t]| | |e] es IH]; simpl; try done; intros H; specialize (IH H); unfold fmap in IH; by rewrite IH. Qed.

Lemma echo_for_request qs : List.filter for_request (echo <$> qs) = echo <$> qs.
Proof. induction qs as [|[] qs IH]; simpl; [done|..]; unfold fmap in IH; by rewrite IH. Qed.

(** C38. With a processor that sends back what it gets, the request goes on with
    its head, but for the length, and with its data, whole and in order. Also a
    body that failed on its way in goes on as if it had ended there. *)
Theorem echo_forwards mode (es : list Event) (r : Head) :
  complete es = true →
  mutate_request mode true true (echo <$> PQHeaders (req_to_header_map (hd_req r)) false :: handle_body_stream es) r =
    Ret (false, Continue (without_length (without_length r)) (data_of es ++ [[]])).
Proof.
  intros Hc. unfold mutate_request. rewrite echo_for_request. simpl. pose proof (echo_rest es Hc) as He. unfold fmap in He. by rewrite He.
Qed.

(** Of a body whose processor stops in the middle, what it sent back so far
    goes on as the whole body. *)
Theorem stopped_processor_truncates mode (chunks : list (list Z)) (r : Head) :
  mutate_request mode true true
    (PRRequestHeaders (Some (mkCommon None None)) :: ((λ d, PRRequestBody (Some (mkCommon None (Some (StreamedResponse d false))))) <$> chunks)) r =
    Ret (false, Continue (without_length (without_length r)) chunks).
Proof.
  set (f := λ d : list Z, PRRequestBody (Some (mkCommon None (Some (StreamedResponse d false))))).
  assert (∀ cs, List.filter for_request (f <$> cs) = f <$> cs) as Hf.
  { induction cs as [|c cs IH]; simpl; [done|]. unfold fmap in IH. by rewrite IH. }
  assert (∀ cs, forward_rest (handle_for_request true) true (f <$> cs) = Ret cs) as Hr.
  { induction cs as [|c cs IH]; simpl; [done|]. unfold fmap in IH. by rewrite IH. }
  unfold mutate_request. cbn [List.filter for_request]. rewrite Hf. simpl. unfold fmap in Hr. by rewrite Hr.
Qed.

(** ** Panics and waits *)

Lemma header_mutations_request_ok h (r : Head) : ∃ r', apply_header_mutations_request h r = Ret r'.
Proof. destruct h as [hm|]; [apply apply_header_options_ok|by exists r]. Qed.

Lemma header_mutations_response_ok h (r : Resp) : ∃ r', apply_header_mutations_response h r = Ret r'.
Proof. destruct h as [hm|]; [apply apply_header_options_response_ok|by exists r]. Qed.

Lemma handle_for_request_ok had_body (r : option Head) p : ∃ x, handle_for_request had_body r p = Ret x.
Proof.
  assert (∀ res cr, ∃ x, (req ← match r with
          | Some r => r ← apply_header_mutations_request (header_mutation_of cr) r; Ret (Some r)
          | None => Ret None
          end;
    let '(chunk, h, eos) := body_done had_body res (body_mutation cr) in
    Ret (req, chunk, h, eos)) = Ret x) as Hc.
  { intros res cr. destruct r as [r|].
    - destruct (header_mutations_request_ok (header_mutation_of cr) r) as [r' ->]. simpl. destruct (body_done _ _ _) as [[? ?] ?]. eauto.
    - simpl. destruct (body_done _ _ _) as [[? ?] ?]. eauto. }
  destruct p as [[cr|]|[cr|]| |[cr|]|[cr|]| |ir|]; simpl; eauto.
Qed.

Lemma forward_rest_ok {H} handle had_body ps : (∀ (r : option H) p, ∃ x, handle r p = Ret x) → ∃ cs, forward_rest handle had_body ps = Ret cs.
Proof.
  intros Hh. induction ps as [|p ps [cs IH]]; simpl; [eauto|]. destruct (Hh None p) as [[[[h' chunk] hd] eos] ->]. simpl.
  destruct (eos || negb had_body); [|rewrite IH]; simpl; eauto.
Qed.

(** An answer that leaves the headers open, and the chunk of a body it may have. *)
Definition leaves_open (p : ProcResponse) : Prop := match p with PRRequestHeaders _ | PRImmediate _ => False | _ => True end.
Definition chunk_of (p : ProcResponse) : option (list Z) :=
  match p with PRRequestBody (Some (mkCommon _ (Some (StreamedResponse b _)))) => Some b | _ => None end.
Definition no_status (ir : ImmediateResponse) : Prop := status_from_u16 (default 200 (im_status ir) mod 65536)%Z = None.

(** An immediate response without a status comes while the headers are open,
    after no more than [n] chunks of a body. *)
Definition bad_answer (n : nat) (answers : list ProcResponse) : Prop :=
  ∃ before ir after, answers = before ++ PRImmediate ir :: after ∧ no_status ir ∧ Forall leaves_open before ∧ (length (omap chunk_of before) ≤ n)%nat.

Lemma bad_answer_immediate n ir answers : bad_answer n (PRImmediate ir :: answers) ↔ no_status ir.
Proof.
  split.
  - intros ([|p before] & ir' & after & Heq & Hs & Hl & _); [by injection Heq as -> ->|]. injection Heq as <- _. by apply Forall_cons in Hl as [[] _].
  - intros Hs. exists [], ir, answers. split_and!; [done..|simpl; lia].
Qed.

Lemma bad_answer_headers n r answers : ¬ bad_answer n (PRRequestHeaders r :: answers).
Proof. intros ([|p before] & ir & after & Heq & _ & Hl & _); [done|]. injection Heq as <- _. by apply Forall_cons in Hl as [[] _]. Qed.

Lemma bad_answer_cons n p answers :
  leaves_open p → bad_answer n (p :: answers) ↔
  match chunk_of p, n with None, _ => bad_answer n answers | Some _, 0%nat => False | Some _, S n => bad_answer n answers end.
Proof.
  intros Hp. split.
  - intros ([|q before] & ir & after & Heq & Hs & Hl & Hn); [injection Heq as -> _; by destruct Hp|]. injection Heq as <- ->.
    apply Forall_cons in Hl as [_ Hl]. cbn [omap list_omap] in Hn. destruct (chunk_of p); [|by exists before, ir, after].
    simpl in Hn. destruct n as [|n]; [lia|]. exists before, ir, after. split_and!; [done..|by apply le_S_n].
  - intros H. destruct (chunk_of p) eqn:Ec; [destruct n as [|n]; [done|]|]; destruct H as (before & ir & after & -> & Hs & Hl & Hn);
      exists (p :: before), ir, after; (split_and!; [done..|by constructor|]); cbn [omap list_omap]; rewrite Ec; [by apply le_n_S|done].
Qed.

Lemma to_immediate_none p : leaves_open p → to_immediate_response p = Ret None.
Proof. by destruct p. Qed.

Lemma handled_open had_body (r : Head) p : leaves_open p → ∃ h eos, handle_for_request had_body (Some r) p = Ret (Some h, chunk_of p, false, eos).
Proof.
  destruct p as [|[[hm bm]|]| | | | | |]; simpl; try done; intros _; eauto.
  destruct (header_mutations_request_ok hm r) as [r' ->]. simpl. destruct bm as [[]|]; simpl; eauto.
Qed.

Lemma proc_loop_panics finish had_body open answers (head : Head) queued :
  proc_loop (handle_for_request had_body) finish had_body open (List.filter for_request answers) head queued = Panic ↔
  bad_answer (match queued with Some _ => 0 | None => 1 end) answers.
Proof.
  revert head queued. induction answers as [|p answers IH]; intros head queued.
  { split; [done|]. by intros ([] & ir & after & ? & _). }
  destruct (decide (for_request p = true)) as [Hf|Hf]; cbn [List.filter].
  2:{ apply not_true_is_false in Hf. rewrite Hf, bad_answer_cons by (by destruct p). by destruct p; [..|simpl; apply IH]. }
  rewrite Hf. cbn [proc_loop]. assert (∀ q, leaves_open q ∨ (∃ r, q = PRRequestHeaders r) ∨ ∃ ir, q = PRImmediate ir) as Hcases
    by (intros []; simpl; eauto).
  destruct (Hcases p) as [Hp|[[r ->]|[ir ->]]].
  - rewrite to_immediate_none, bad_answer_cons by done. cbn [mbind outcome_bind].
    destruct (handled_open had_body head p Hp) as (h & eos & ->). cbn [default].
    destruct queued, (chunk_of p); simpl; [done|apply IH..].
  - split; [|by intros ?%bad_answer_headers]. intros Hpanic. exfalso. simpl in Hpanic.
    destruct (handle_for_request_ok had_body (Some head) (PRRequestHeaders r)) as [[[[h' chunk] hd] eos] Hh]. simpl in Hh.
    assert (hd = true) as ->.
    { destruct r as [cr|]; [|by injection Hh]. apply bind_Ret_inv in Hh as (q & _ & Hh). destruct (body_done _ _ _) as [[c d] e] eqn:Eb.
      injection Hh as _ _ <- _. unfold body_done in Eb. destruct (body_mutation cr) as [[]|]; by injection Eb. }
    rewrite Hh in Hpanic. simpl in Hpanic.
    destruct (forward_rest_ok (handle_for_request had_body) had_body (List.filter for_request answers)) as [cs Hcs]; [apply handle_for_request_ok|].
    rewrite Hcs in Hpanic. by destruct queued, chunk, eos.
  - rewrite bad_answer_immediate. unfold no_status. simpl. destruct (status_from_u16 _) as [c|]; simpl; [|done].
    destruct (header_mutations_response_ok (im_headers ir) (mkResponse c [] (im_body ir))) as [x ->]. by split.
Qed.


(** Two chunks of the body before the answer to the headers block the
    request for good: the channel of its new body holds one, and is not read
    before the headers are done. *)
Theorem early_chunks_block mode d1 d2 e1 e2 answers (r : Head) :
  mutate_request mode true true
    (PRRequestBody (Some (mkCommon None (Some (StreamedResponse d1 e1)))) :: PRRequestBody (Some (mkCommon None (Some (StreamedResponse d2 e2)))) :: answers) r =
    Ret (false, Blocked).
Proof. done. Qed.
End ext_proc.
