(* ===== verification/DiscoveryTypes.v ===== *)
(** * Data of service discovery

    [types/discovery.rs]: namespaced hostnames, network addresses, identities,
    workloads, services and endpoints, and their conversion from the workload
    API's messages ([protos/proto/workload.proto]). *)
From stdpp Require Import base gmap strings list.
From Stdlib Require Import ZArith Ascii.
From S2P Require Import Prelude RustStd AgentTypes.

Local Open Scope string_scope.
Local Open Scope list_scope.

(** ** Errors *)

(** The variants of [ProtoError] these conversions return. *)
Inductive ProtoError :=
| NamespacedHostnameParse (s : string)
| ByteAddressParse (n : nat)
| EnumParse (s : string)
| MissingGatewayAddress
| EnumError (value : Z).

(** ** Namespaced hostnames *)

(** [NamespacedHostname::from_str]. *)
Definition nh_from_str (value : string) : result NamespacedHostname ProtoError :=
  match Str.split_once "/" value with
  | None => Err (NamespacedHostnameParse value)
  | Some (namespace, hostname) => Ok (mkNH namespace hostname)
  end.

(** [Display for NamespacedHostname]. *)
Definition nh_display (n : NamespacedHostname) : string := nh_namespace n +:+ "/" +:+ nh_hostname n.

(** ** Waypoints *)

Record WaypointIdentity := mkWaypointIdentity { wi_gateway : string; wi_namespace : string }.

Definition waypoint_hostname (w : WaypointIdentity) : string :=
  wi_gateway w +:+ "." +:+ wi_namespace w +:+ ".svc.cluster.local".

Definition matches_hostname (w : WaypointIdentity) (nh : NamespacedHostname) : bool :=
  bool_decide (nh_namespace nh = wi_namespace w) &&
  match
    s ← Str.strip_prefix (wi_gateway w) (nh_hostname nh);
    s ← Str.strip_prefix "." s;
    Str.strip_prefix (wi_namespace w) s
  with
  | Some s => Str.starts_with "." s && (1 <? String.length s)%nat
  | None => false
  end.

(** ** Network addresses *)

#[global] Instance IpAddr_countable : Countable IpAddr.
Proof.
  refine (inj_countable' (λ a, match a with V4 b => inl b | V6 b => inr b end)
    (λ s, match s with inl b => V4 b | inr b => V6 b end) _).
  by intros [].
Defined.

Record NetworkAddress := mkNetworkAddress { na_network : string; na_address : IpAddr }.

#[global] Instance NetworkAddress_eq_dec : EqDecision NetworkAddress.
Proof. solve_decision. Defined.
#[global] Instance NetworkAddress_countable : Countable NetworkAddress.
Proof.
  refine (inj_countable' (λ a, (na_network a, na_address a)) (λ p, mkNetworkAddress p.1 p.2) _).
  by intros [].
Defined.

Definition network_addr (network : string) (vip : IpAddr) : NetworkAddress := mkNetworkAddress network vip.

(** [WaypointIdentity::matches_address]; [get_service_at] resolves the service
    at an address to its name and namespace. *)
Definition matches_address (w : WaypointIdentity) (addr : NetworkAddress)
    (get_service_at : NetworkAddress → option (string * string)) : bool :=
  match get_service_at addr with
  | Some (name, ns) => bool_decide (name = wi_gateway w) && bool_decide (ns = wi_namespace w)
  | None => false
  end.

(** [byte_to_ip]: network byte order. *)
Definition be_value (bytes : list Z) : Z := foldl (λ acc b, (acc * 256 + b)%Z) 0%Z bytes.

Definition byte_to_ip (b : list Z) : result IpAddr ProtoError :=
  match length b with
  | 4 => Ok (V4 (be_value b))
  | 16 => Ok (V6 (be_value b))
  | n => Err (ByteAddressParse n)
  end.

(** ** Identities *)

Record Identity := mkSpiffe { trust_domain : string; id_namespace : string; service_account : string }.

Definition identity_display (i : Identity) : string :=
  "spiffe://" +:+ trust_domain i +:+ "/ns/" +:+ id_namespace i +:+ "/sa/" +:+ service_account i.

(** [Identity::from_str]; [None] is the error. *)
Definition identity_from_str (s : string) : option Identity :=
  match Str.strip_prefix "spiffe://" s with
  | None => None
  | Some rest =>
      match Str.split "/" rest with
      | [td; ns; n; sa; a] =>
          if bool_decide (ns = "ns") && bool_decide (sa = "sa") then Some (mkSpiffe td n a) else None
      | _ => None
      end
  end.

(** ** Enumerations *)

Inductive NetworkMode := NMStandard | NMHostNetwork.
Inductive HealthStatus := Healthy | Unhealthy.
Inductive InboundProtocol := IPTCP | IPHBONE | IPLegacyIstioMtls.
Inductive AppProtocol := APHttp11 | APHttp2 | APGrpc | APTls | APTcp.
Inductive IpFamily := Dual | IPv4 | IPv6.
Inductive LoadBalancerMode := Standard | Strict | Failover | Passthrough.
Inductive LoadBalancerHealthPolicy := OnlyHealthy | AllowAll.
Inductive LoadBalancerScopes := Region | Zone | Subzone | Node | Cluster | Network.

#[global] Instance NetworkMode_eq_dec : EqDecision NetworkMode.
Proof. solve_decision. Defined.
#[global] Instance HealthStatus_eq_dec : EqDecision HealthStatus.
Proof. solve_decision. Defined.
#[global] Instance InboundProtocol_eq_dec : EqDecision InboundProtocol.
Proof. solve_decision. Defined.
#[global] Instance LoadBalancerMode_eq_dec : EqDecision LoadBalancerMode.
Proof. solve_decision. Defined.
#[global] Instance LoadBalancerHealthPolicy_eq_dec : EqDecision LoadBalancerHealthPolicy.
Proof. solve_decision. Defined.
#[global] Instance LoadBalancerScopes_eq_dec : EqDecision LoadBalancerScopes.
Proof. solve_decision. Defined.

Definition accepts_ip (f : IpFamily) (a : IpAddr) : bool :=
  match f, a with
  | Dual, _ => true
  | IPv4, V4 _ => true
  | IPv6, V6 _ => true
  | _, _ => false
  end.

(** ** Locality and gateways *)

Record Locality := mkLocality { region : string; zone : string; subzone : string }.

(** [Locality::parse]: [splitn(3, '/')], the parts left out being empty. *)
Definition locality_parse (s : string) : Locality :=
  match Str.split_once "/" s with
  | None => mkLocality s "" ""
  | Some (r, s') =>
      match Str.split_once "/" s' with
      | None => mkLocality r s' ""
      | Some (z, s'') => mkLocality r z s''
      end
  end.

Inductive Destination :=
| DAddress (a : NetworkAddress)
| DHostname (n : NamespacedHostname).

Record GatewayAddress := mkGatewayAddress { ga_destination : Destination; hbone_mtls_port : Z }.

(** ** Load balancing settings *)

Record LoadBalancer := mkLoadBalancer {
  routing_preferences : list LoadBalancerScopes;
  mode : LoadBalancerMode;
  health_policy : LoadBalancerHealthPolicy;
}.

#[global] Instance LoadBalancer_eq_dec : EqDecision LoadBalancer.
Proof. solve_decision. Defined.

(** ** Workloads, services and endpoints *)

Record Workload := mkWorkload {
  wl_ips : list IpAddr;
  wl_waypoint : option GatewayAddress;
  wl_network_gateway : option GatewayAddress;
  wl_protocol : InboundProtocol;
  wl_network_mode : NetworkMode;
  wl_uid : string;
  wl_name : string;
  wl_namespace : string;
  wl_trust_domain : string;
  wl_service_account : string;
  wl_network : string;
  wl_workload_name : string;
  wl_workload_type : string;
  wl_canonical_name : string;
  wl_canonical_revision : string;
  wl_hostname : string;
  wl_node : string;
  wl_authorization_policies : list string;
  wl_status : HealthStatus;
  wl_cluster_id : string;
  wl_locality : Locality;
  wl_services : gmap NamespacedHostname (gmap Z Z);
  wl_capacity : Z;
}.

(** [Workload::default]. *)
Definition workload_default : Workload :=
  mkWorkload [] None None IPTCP NMStandard "" "" "" "" "" "" "" "" "" "" "" "" [] Healthy ""
    (mkLocality "" "" "") ∅ 1.

Record Endpoint := mkEndpoint {
  workload_uid : string;
  ep_port : gmap Z Z;
  status : HealthStatus;
}.

(** [Service]; [svc_endpoints] names the shared endpoint set its [Arc]s point
    at. *)
Record Service := mkService {
  svc_name : string;
  svc_namespace : string;
  svc_hostname : string;
  svc_vips : list NetworkAddress;
  svc_ports : gmap Z Z;
  svc_app_protocols : gmap Z AppProtocol;
  svc_endpoints : nat;
  svc_subject_alt_names : list Identity;
  svc_waypoint : option GatewayAddress;
  svc_load_balancer : option LoadBalancer;
  svc_ip_families : option IpFamily;
  svc_ingress_use_waypoint : bool;
}.

Definition with_endpoints (l : nat) (s : Service) : Service :=
  mkService (svc_name s) (svc_namespace s) (svc_hostname s) (svc_vips s) (svc_ports s)
    (svc_app_protocols s) l (svc_subject_alt_names s) (svc_waypoint s) (svc_load_balancer s)
    (svc_ip_families s) (svc_ingress_use_waypoint s).

Definition namespaced_hostname_of (s : Service) : NamespacedHostname :=
  mkNH (svc_namespace s) (svc_hostname s).

Definition should_include_endpoint (s : Service) (ep_health : HealthStatus) : bool :=
  bool_decide (ep_health = Healthy) ||
  match svc_load_balancer s with
  | Some lb => bool_decide (health_policy lb = AllowAll)
  | None => false
  end.

Definition port_is_http2 (s : Service) (p : Z) : bool :=
  match svc_app_protocols s !! p with Some (APHttp2 | APGrpc) => true | _ => false end.
Definition port_is_http1 (s : Service) (p : Z) : bool :=
  match svc_app_protocols s !! p with Some APHttp11 => true | _ => false end.
Definition port_is_tcp (s : Service) (p : Z) : bool :=
  match svc_app_protocols s !! p with Some (APTcp | APTls) => true | _ => false end.
Definition port_is_tls (s : Service) (p : Z) : bool :=
  match svc_app_protocols s !! p with Some APTls => true | _ => false end.

(** ** Conversion from the workload API

    The messages are those of [workload.proto], with the fields read here.
    Enumeration fields carry the integer received; [try_from] fails on a value
    the schema does not declare. *)

Record XdsPort := mkXdsPort { xp_service_port : Z; xp_target_port : Z; xp_app_protocol : Z }.

Inductive XdsDestination :=
| XDHostname (namespace hostname : string)
| XDAddress (network : string) (address : list Z).

Record XdsGatewayAddress := mkXdsGatewayAddress {
  xg_destination : option XdsDestination;
  xg_hbone_mtls_port : Z;
}.

Record XdsWorkload := mkXdsWorkload {
  xw_uid : string;
  xw_name : string;
  xw_namespace : string;
  xw_addresses : list (list Z);
  xw_hostname : string;
  xw_network : string;
  xw_tunnel_protocol : Z;
  xw_trust_domain : string;
  xw_service_account : string;
  xw_waypoint : option XdsGatewayAddress;
  xw_network_gateway : option XdsGatewayAddress;
  xw_node : string;
  xw_canonical_name : string;
  xw_canonical_revision : string;
  xw_workload_type : Z;
  xw_workload_name : string;
  xw_services : gmap string (list XdsPort);
  xw_authorization_policies : list string;
  xw_status : Z;
  xw_cluster_id : string;
  xw_locality : option Locality;
  xw_network_mode : Z;
  xw_capacity : option Z;
}.

Record XdsLoadBalancing := mkXdsLoadBalancing {
  xl_routing_preference : list Z;
  xl_mode : Z;
  xl_health_policy : Z;
}.

Record XdsService := mkXdsService {
  xs_name : string;
  xs_namespace : string;
  xs_hostname : string;
  xs_addresses : list (string * list Z);
  xs_ports : list XdsPort;
  xs_subject_alt_names : list string;
  xs_waypoint : option XdsGatewayAddress;
  xs_load_balancing : option XdsLoadBalancing;
  xs_ip_families : Z;
  xs_ingress_use_waypoint : bool;
}.

(** [as u16]. *)
Definition as_u16 (z : Z) : Z := (z mod 2 ^ 16)%Z.

(** [collect] into a map: a later entry replaces an earlier one. *)
Definition collect_map {K V} `{Countable K} (l : list (K * V)) : gmap K V :=
  foldl (λ m kv, <[kv.1 := kv.2]> m) ∅ l.

Definition ports_from_xds (ports : list XdsPort) : gmap Z Z :=
  collect_map ((λ p, (as_u16 (xp_service_port p), as_u16 (xp_target_port p))) <$> ports).

Definition inbound_protocol_from_xds (v : Z) : result InboundProtocol ProtoError :=
  match v with
  | 0%Z => Ok IPTCP
  | 1%Z => Ok IPHBONE
  | 2%Z => Ok IPLegacyIstioMtls
  | _ => Err (EnumError v)
  end.

Definition network_mode_from_xds (v : Z) : result NetworkMode ProtoError :=
  match v with 0%Z => Ok NMStandard | 1%Z => Ok NMHostNetwork | _ => Err (EnumError v) end.

Definition health_status_from_xds (v : Z) : result HealthStatus ProtoError :=
  match v with 0%Z => Ok Healthy | 1%Z => Ok Unhealthy | _ => Err (EnumError v) end.

(** [resource.workload_type().as_str_name().to_lowercase()]: an unknown value
    reads as the default. *)
Definition workload_type_from_xds (v : Z) : string :=
  match v with 1%Z => "cronjob" | 2%Z => "pod" | 3%Z => "job" | _ => "deployment" end.

Definition gateway_address_from_xds (value : XdsGatewayAddress) : result GatewayAddress ProtoError :=
  match xg_destination value with
  | Some (XDAddress network address) =>
      let? ip := byte_to_ip address in
      Ok (mkGatewayAddress (DAddress (network_addr network ip)) (as_u16 (xg_hbone_mtls_port value)))
  | Some (XDHostname ns host) =>
      Ok (mkGatewayAddress (DHostname (mkNH ns host)) (as_u16 (xg_hbone_mtls_port value)))
  | None => Err MissingGatewayAddress
  end.

Definition opt_result {A B E} (f : A → result B E) (o : option A) : result (option B) E :=
  match o with None => Ok None | Some a => let? b := f a in Ok (Some b) end.

Definition or_if_empty (s d : string) : string := if Str.is_empty s then d else s.

Section conversion.
Context {HO : HashOrder}.

Definition service_entry_from_xds (kv : string * list XdsPort)
    : result (NamespacedHostname * gmap Z Z) ProtoError :=
  match Str.split_once "/" kv.1 with
  | None => Err (NamespacedHostnameParse kv.1)
  | Some (namespace, hostname) => Ok (mkNH namespace hostname, ports_from_xds kv.2)
  end.

Definition try_from_xds_with_services (r : XdsWorkload)
    : result (Workload * gmap string (list XdsPort)) ProtoError :=
  let? wp := opt_result gateway_address_from_xds (xw_waypoint r) in
  let? network_gw := opt_result gateway_address_from_xds (xw_network_gateway r) in
  let? addresses := collect_results byte_to_ip (xw_addresses r) in
  let? services := collect_results service_entry_from_xds (map_iter (xw_services r)) in
  let? protocol := inbound_protocol_from_xds (xw_tunnel_protocol r) in
  let? net_mode := network_mode_from_xds (xw_network_mode r) in
  let? st := health_status_from_xds (xw_status r) in
  Ok ({|
    wl_ips := addresses;
    wl_waypoint := wp;
    wl_network_gateway := network_gw;
    wl_protocol := protocol;
    wl_network_mode := net_mode;
    wl_uid := xw_uid r;
    wl_name := xw_name r;
    wl_namespace := xw_namespace r;
    wl_trust_domain := or_if_empty (xw_trust_domain r) "cluster.local";
    wl_service_account := or_if_empty (xw_service_account r) "default";
    wl_network := xw_network r;
    wl_workload_name := xw_workload_name r;
    wl_workload_type := workload_type_from_xds (xw_workload_type r);
    wl_canonical_name := xw_canonical_name r;
    wl_canonical_revision := xw_canonical_revision r;
    wl_hostname := xw_hostname r;
    wl_node := xw_node r;
    wl_authorization_policies := xw_authorization_policies r;
    wl_status := st;
    wl_cluster_id := or_if_empty (xw_cluster_id r) "Kubernetes";
    wl_locality := default (mkLocality "" "" "") (xw_locality r);
    wl_services := collect_map services;
    wl_capacity := default 1%Z (xw_capacity r) |},
    xw_services r).
End conversion.

Definition scope_from_xds (v : Z) : result LoadBalancerScopes ProtoError :=
  match v with
  | 0%Z => Err (EnumParse "invalid target")
  | 1%Z => Ok Region
  | 2%Z => Ok Zone
  | 3%Z => Ok Subzone
  | 4%Z => Ok Node
  | 5%Z => Ok Cluster
  | 6%Z => Ok Network
  | _ => Err (EnumError v)
  end.

Definition lb_mode_from_xds (v : Z) : result LoadBalancerMode ProtoError :=
  match v with
  | 0%Z => Ok Standard
  | 1%Z => Ok Strict
  | 2%Z => Ok Failover
  | 3%Z => Ok Passthrough
  | _ => Err (EnumError v)
  end.

Definition health_policy_from_xds (v : Z) : result LoadBalancerHealthPolicy ProtoError :=
  match v with 0%Z => Ok OnlyHealthy | 1%Z => Ok AllowAll | _ => Err (EnumError v) end.

Definition load_balancer_from_xds (lb : XdsLoadBalancing) : result LoadBalancer ProtoError :=
  let? prefs := collect_results scope_from_xds (xl_routing_preference lb) in
  let? m := lb_mode_from_xds (xl_mode lb) in
  let? hp := health_policy_from_xds (xl_health_policy lb) in
  Ok (mkLoadBalancer prefs m hp).

Definition app_protocol_from_xds (v : Z) : result (option AppProtocol) ProtoError :=
  match v with
  | 0%Z => Ok None
  | 1%Z => Ok (Some APHttp11)
  | 2%Z => Ok (Some APHttp2)
  | 3%Z => Ok (Some APGrpc)
  | 4%Z => Ok (Some APTcp)
  | 5%Z => Ok (Some APTls)
  | _ => Err (EnumError v)
  end.

Definition ip_family_from_xds (v : Z) : result (option IpFamily) ProtoError :=
  match v with
  | 0%Z => Ok None
  | 1%Z => Ok (Some IPv4)
  | 2%Z => Ok (Some IPv6)
  | 3%Z => Ok (Some Dual)
  | _ => Err (EnumError v)
  end.

Definition app_protocol_entry (p : XdsPort) : result (option (Z * AppProtocol)) ProtoError :=
  let? ap := app_protocol_from_xds (xp_app_protocol p) in
  Ok ((λ ap, (as_u16 (xp_service_port p), ap)) <$> ap).

(** [TryFrom<&XdsService> for Service]; the endpoint set is filled in by the
    store. *)
Definition service_from_xds (s : XdsService) : result Service ProtoError :=
  let? nw_addrs := collect_results
    (λ a : string * list Z, let? ip := byte_to_ip a.2 in Ok (network_addr a.1 ip)) (xs_addresses s) in
  let? waypoint := opt_result gateway_address_from_xds (xs_waypoint s) in
  let? lb := opt_result load_balancer_from_xds (xs_load_balancing s) in
  let? app_protocols := collect_results app_protocol_entry (xs_ports s) in
  let? families := ip_family_from_xds (xs_ip_families s) in
  Ok {|
    svc_name := xs_name s;
    svc_namespace := xs_namespace s;
    svc_hostname := xs_hostname s;
    svc_vips := nw_addrs;
    svc_ports := ports_from_xds (xs_ports s);
    svc_app_protocols := collect_map (omap id app_protocols);
    svc_endpoints := 0;
    svc_subject_alt_names := omap identity_from_str (xs_subject_alt_names s);
    svc_waypoint := waypoint;
    svc_load_balancer := lb;
    svc_ip_families := families;
    svc_ingress_use_waypoint := xs_ingress_use_waypoint s |}.

(** ** Round trips *)

Definition no_slash (s : string) : Prop := Str.contains_char "/"%char s = false.

Lemma nh_from_str_display s nh : nh_from_str s = Ok nh ↔ s = nh_display nh ∧ no_slash (nh_namespace nh).
Proof.
  unfold nh_from_str, nh_display, no_slash. split.
  - destruct (Str.split_once "/" s) as [[a b]|] eqn:E; [|done]. intros [= <-]. simpl.
    split; [by apply Str.split_once_Some in E as [-> _]|by eapply Str.split_once_char_fst].
  - intros [-> Hn]. destruct nh as [a b]; simpl in *. by rewrite Str.split_once_char.
Qed.

Lemma identity_display_join i :
  identity_display i = "spiffe://" +:+ Str.join "/" [trust_domain i; "ns"; id_namespace i; "sa"; service_account i].
Proof. done. Qed.

Lemma identity_from_str_display s i :
  identity_from_str s = Some i ↔
  s = identity_display i ∧ no_slash (trust_domain i) ∧ no_slash (id_namespace i) ∧ no_slash (service_account i).
Proof.
  rewrite identity_display_join. unfold identity_from_str, no_slash. split.
  - destruct (Str.strip_prefix "spiffe://" s) as [rest|] eqn:E; [|done]. apply Str.strip_prefix_Some in E as ->.
    pose proof (Str.split_join "/" rest) as [Hj Hf].
    destruct (Str.split "/" rest) as [|td [|ns [|n [|sa [|a []]]]]]; try done.
    destruct (_ && _) eqn:Eb; [|done]. to_prop. subst ns sa. intros [= <-]. simpl trust_domain. rewrite <-Hj.
    rewrite !Forall_cons in Hf. naive_solver.
  - intros (-> & Ht & Hn & Ha). destruct i as [td n a]; simpl trust_domain in *; simpl id_namespace in *; simpl service_account in *.
    rewrite (proj2 (Str.strip_prefix_Some "spiffe://" _ (Str.join "/" [td; "ns"; n; "sa"; a]))) by done.
    rewrite Str.join_split; [done|done|]. by repeat constructor.
Qed.

(** Names round-trip: a namespaced hostname parses from exactly its printed
    form, at the first slash, and a SPIFFE identity parses from exactly its
    printed form, with no slash in its parts; anything else is refused, and
    distinct names print differently. *)
Theorem names_roundtrip s :
  (∀ nh, nh_from_str s = Ok nh ↔ s = nh_display nh ∧ no_slash (nh_namespace nh)) ∧
  (∀ i, identity_from_str s = Some i ↔
     s = identity_display i ∧ no_slash (trust_domain i) ∧ no_slash (id_namespace i) ∧ no_slash (service_account i)).
Proof. split; [apply nh_from_str_display|apply identity_from_str_display]. Qed.
