(* ===== verification/LoadBalancer.v ===== *)
(** * Load balancing

    [types/loadbalancer.rs]: endpoint groups with their cached sampler,
    endpoint sets bucketed by locality, the locality ranking, endpoint
    selection, and the eviction worker's mutations.

    The mutators of an [EndpointSet] run under one mutex, so a set is a list of
    groups and each mutator a function on it. Endpoint infos are shared by
    reference and only compared here, through [score_cmp]; random picks are
    inputs. The [indexmap] and [rand] crates are the classes [IndexMap] and
    [RandCrate]. *)
From stdpp Require Import base gmap strings list.
From Stdlib Require Import ZArith.
From S2P Require Import Prelude RustStd AgentTypes DiscoveryTypes.

(** ** Third-party code *)

(** [indexmap::IndexMap] with string keys: an ordered map. [insert] replaces
    in place or appends; [swap_remove] fills the gap with the last entry. *)
Class IndexMap := {
  imap : Type → Type;
  im_empty : ∀ {V}, imap V;
  im_iter : ∀ {V}, imap V → list (string * V);
  im_insert : ∀ {V}, string → V → imap V → imap V;
  im_swap_remove : ∀ {V}, string → imap V → imap V * option V;
  im_iter_keys : ∀ V (m : imap V), NoDup (im_iter m).*1;
  im_iter_empty : ∀ V, im_iter (im_empty (V := V)) = [];
  im_iter_insert : ∀ V k (v : V) m k' v',
    (k', v') ∈ im_iter (im_insert k v m) ↔ (k' = k ∧ v' = v) ∨ (k' ≠ k ∧ (k', v') ∈ im_iter m);
  im_iter_remove : ∀ V k (m : imap V) k' v',
    (k', v') ∈ im_iter (im_swap_remove k m).1 ↔ k' ≠ k ∧ (k', v') ∈ im_iter m;
  im_removed : ∀ V k (m : imap V) v, (im_swap_remove k m).2 = Some v ↔ (k, v) ∈ im_iter m;
  im_remove_absent : ∀ V k (m : imap V), (im_swap_remove k m).2 = None → (im_swap_remove k m).1 = m;
}.

Definition u32_max : Z := 2 ^ 32 - 1.

(** [rand]'s [WeightedIndex]: construction fails on no weights, on a zero sum
    and on overflow, and succeeds otherwise. *)
Definition sum_weights (ws : list Z) : Z := foldr Z.add 0%Z ws.

Class RandCrate := {
  WeightedIndex : Type;
  weighted_new : list Z → option WeightedIndex;
  weighted_new_ok : ∀ ws, ws ≠ [] → Forall (λ w, 0 ≤ w)%Z ws → (0 < sum_weights ws ≤ u64_max)%Z →
    is_Some (weighted_new ws);
}.

Section groups.
Context {IM : IndexMap} {RC : RandCrate} {T Info Health : Type}.

(** ** Endpoint groups *)

Record EndpointWithInfo := mkEWI { ewi_endpoint : T; ewi_info : Info; ewi_capacity : Z }.

Inductive Sampler := Uniform | Weighted (w : WeightedIndex) | Drained.

Definition is_drained (s : Sampler) : bool := match s with Drained => true | _ => false end.

Definition im_values (m : imap EndpointWithInfo) : list EndpointWithInfo := (im_iter m).*2.

Definition im_is_empty {V} (m : imap V) : bool :=
  match im_iter m with [] => true | _ => false end.

Definition contains_key {V} (k : string) (m : imap V) : bool :=
  bool_decide (k ∈ (im_iter m).*1).

Definition build_sampler (active : imap EndpointWithInfo) : outcome Sampler :=
  if im_is_empty active then Ret Uniform
  else
    let any_nonzero := existsb (λ e, negb (ewi_capacity e =? 0)%Z) (im_values active) in
    let all_ones := forallb (λ e, (ewi_capacity e =? 1)%Z) (im_values active) in
    if negb any_nonzero then Ret Drained
    else if all_ones then Ret Uniform
    else Weighted <$> expect (weighted_new (ewi_capacity <$> im_values active)).

Record EndpointGroup := mkGroup {
  active : imap EndpointWithInfo;
  rejected : imap EndpointWithInfo;
  sampler : Sampler;
}.

Definition group_default : EndpointGroup := mkGroup im_empty im_empty Uniform.

Definition from_pools (act rej : imap EndpointWithInfo) : outcome EndpointGroup :=
  s ← build_sampler act; Ret (mkGroup act rej s).

Definition update_sampler (g : EndpointGroup) (added_ep_cap : option Z) : outcome EndpointGroup :=
  let preserved :=
    match sampler g, added_ep_cap with
    | Uniform, Some c => (c =? 1)%Z
    | Uniform, None => true
    | Drained, Some c => (c =? 0)%Z
    | Drained, None => negb (im_is_empty (active g))
    | _, _ => false
    end in
  if preserved then Ret g
  else s ← build_sampler (active g); Ret (mkGroup (active g) (rejected g) s).

Definition group_add (key : string) (ep : EndpointWithInfo) (g : EndpointGroup) : outcome EndpointGroup :=
  update_sampler
    (mkGroup (im_insert key ep (active g)) (im_swap_remove key (rejected g)).1 (sampler g))
    (Some (ewi_capacity ep)).

(** [||] stops at the first pool that held the key. *)
Definition group_remove (key : string) (g : EndpointGroup) : outcome EndpointGroup :=
  let '(act, o) := im_swap_remove key (active g) in
  match o with
  | Some _ => update_sampler (mkGroup act (rejected g) (sampler g)) None
  | None =>
      let '(rej, o') := im_swap_remove key (rejected g) in
      match o' with
      | Some _ => update_sampler (mkGroup act rej (sampler g)) None
      | None => Ret (mkGroup act rej (sampler g))
      end
  end.

Definition group_evict (key : string) (g : EndpointGroup) : outcome EndpointGroup :=
  let '(act, o) := im_swap_remove key (active g) in
  match o with
  | Some ep => update_sampler (mkGroup act (im_insert key ep (rejected g)) (sampler g)) None
  | None => Ret (mkGroup act (rejected g) (sampler g))
  end.

(** Returns the endpoint whose info the caller's closure edits. *)
Definition group_unevict (key : string) (g : EndpointGroup)
    : outcome (EndpointGroup * option EndpointWithInfo) :=
  let '(rej, o) := im_swap_remove key (rejected g) in
  match o with
  | Some ep =>
      g' ← update_sampler (mkGroup (im_insert key ep (active g)) rej (sampler g)) (Some (ewi_capacity ep));
      Ret (g', Some ep)
  | None => Ret (mkGroup (active g) rej (sampler g), None)
  end.

(** ** Endpoint sets *)

Local Abbreviation EndpointSet := (list EndpointGroup).

Definition new_empty (priority_levels : nat) : EndpointSet := replicate priority_levels group_default.

Definition holds_key (key : string) (g : EndpointGroup) : bool :=
  contains_key key (active g) || contains_key key (rejected g).

(** [find_bucket_atomic]: the index of the first bucket holding the key. *)
Fixpoint find_bucket (key : string) (s : EndpointSet) : option nat :=
  match s with
  | [] => None
  | g :: s' => if holds_key key g then Some 0 else S <$> find_bucket key s'
  end.

Inductive EndpointEvent :=
| Add (key : string) (ep : EndpointWithInfo) (bucket : nat)
| Delete (key : string).

Definition event (item : EndpointEvent) (s : EndpointSet) : outcome EndpointSet :=
  match item with
  | Add key ep bucket =>
      match s !! bucket with
      | None => Ret s
      | Some slot => g ← group_add key ep slot; Ret (<[bucket := g]> s)
      end
  | Delete key =>
      match find_bucket key s with
      | None => Ret s
      | Some i =>
          match s !! i with
          | None => Ret s
          | Some slot => g ← group_remove key slot; Ret (<[i := g]> s)
          end
      end
  end.

(** *** The eviction worker *)

Record UnevictEntry := mkUnevict { ue_until : Z; ue_key : string; ue_restore_health : option Health }.

(** [UnevictEntry]'s [Ord]: the earliest instant is the greatest. *)
Definition unevict_cmp (a b : UnevictEntry) : comparison :=
  then_cmp (Z.compare (ue_until b) (ue_until a)) (String.compare (ue_key a) (ue_key b)).

(** [BinaryHeap::pop]: a greatest entry and the rest. *)
Fixpoint heap_pop (h : list UnevictEntry) : option (UnevictEntry * list UnevictEntry) :=
  match h with
  | [] => None
  | e :: h' =>
      match heap_pop h' with
      | None => Some (e, [])
      | Some (m, rest) =>
          match unevict_cmp e m with Lt => Some (m, e :: rest) | _ => Some (e, m :: rest) end
      end
  end.

Record Worker := mkWorker { w_set : EndpointSet; w_heap : list UnevictEntry }.

(** [handle_recv_evict]. *)
Definition handle_recv_evict (key : string) (until : Z) (restore_health : option Health) (w : Worker)
    : outcome Worker :=
  match find_bucket key (w_set w) with
  | None => Ret w
  | Some i =>
      match w_set w !! i with
      | None => Ret w
      | Some slot =>
          g ← group_evict key slot;
          Ret (mkWorker (<[i := g]> (w_set w)) (mkUnevict until key restore_health :: w_heap w))
      end
  end.

(** [handle_eviction], when the earliest timer fires; also the endpoint whose
    info is reset and the health it gets. *)
Definition handle_eviction (w : Worker)
    : outcome (Worker * option (EndpointWithInfo * option Health)) :=
  match heap_pop (w_heap w) with
  | None => Panic
  | Some (e, heap) =>
      match find_bucket (ue_key e) (w_set w) with
      | None => Ret (mkWorker (w_set w) heap, None)
      | Some i =>
          match w_set w !! i with
          | None => Ret (mkWorker (w_set w) heap, None)
          | Some slot =>
              ge ← group_unevict (ue_key e) slot;
              Ret (mkWorker (<[i := ge.1]> (w_set w)) heap,
                   match ge.2 with Some ep => Some (ep, ue_restore_health e) | None => None end)
          end
      end
  end.

(** *** Rebucketing *)

Definition place (ranker : T → option nat) (into : list (imap EndpointWithInfo))
    (kv : string * EndpointWithInfo) : list (imap EndpointWithInfo) :=
  match ranker (ewi_endpoint kv.2) with
  | None => into
  | Some b =>
      match into !! b with
      | None => into
      | Some m => <[b := im_insert kv.1 kv.2 m]> into
      end
  end.

Definition redistribute (ranker : T → option nat) (n : nat) (pools : list (imap EndpointWithInfo))
    : list (imap EndpointWithInfo) :=
  foldl (λ into m, foldl (place ranker) into (im_iter m)) (replicate n im_empty) pools.

Fixpoint build_groups (acts rejs : list (imap EndpointWithInfo)) : outcome EndpointSet :=
  match acts, rejs with
  | a :: acts', r :: rejs' => g ← from_pools a r; gs ← build_groups acts' rejs'; Ret (g :: gs)
  | _, _ => Ret []
  end.

Definition rebucket (ranker : T → option nat) (s : EndpointSet) : outcome EndpointSet :=
  let n := length s in
  build_groups (redistribute ranker n (active <$> s)) (redistribute ranker n (rejected <$> s)).

(** *** Reads *)

(** [best_bucket]; indexing an empty vector panics. *)
Definition best_bucket (s : EndpointSet) : outcome EndpointGroup :=
  expect (option_or (list_find_by (λ g, negb (im_is_empty (active g))) s) (head s)).

(** [find_endpoint]: all active endpoints before any rejected one. *)
Definition find_endpoint {R} (f : EndpointWithInfo → option R) (s : EndpointSet) : option R :=
  find_map f ((s ≫= λ g, im_values (active g)) ++ (s ≫= λ g, im_values (rejected g))).

(** [any]. *)
Definition any_endpoint (f : T → bool) (s : EndpointSet) : bool :=
  existsb (λ g, existsb (λ e, f (ewi_endpoint e)) (im_values (active g))
                || existsb (λ e, f (ewi_endpoint e)) (im_values (rejected g))) s.

(** [ActiveEndpointsIter]. *)
Definition index_of (g : EndpointGroup) : imap EndpointWithInfo :=
  if negb (im_is_empty (active g)) then active g else rejected g.
Definition sampler_of (g : EndpointGroup) : option Sampler :=
  if negb (im_is_empty (active g)) then Some (sampler g) else None.
End groups.

Arguments EndpointWithInfo : clear implicits.
Arguments EndpointGroup {_ _} _ _.
Abbreviation EndpointSet T Info := (list (EndpointGroup T Info)).
Arguments EndpointEvent : clear implicits.
Arguments UnevictEntry : clear implicits.
Arguments Worker {_ _} _ _ _.

(** ** Locality *)

Record LocalityRanker := mkRanker { lb : option LoadBalancer; source : option Workload }.

Definition uses_buckets (l : LoadBalancer) : bool :=
  match mode l with Standard | Passthrough => false | _ => true end.

Definition priority_levels (r : LocalityRanker) : nat :=
  match lb r with
  | Some l => if uses_buckets l then length (routing_preferences l) + 1 else 1
  | None => 1
  end.

Definition scope_matches (src wl : Workload) (scope : LoadBalancerScopes) : bool :=
  match scope with
  | Region => bool_decide (region (wl_locality src) = region (wl_locality wl))
  | Zone => bool_decide (zone (wl_locality src) = zone (wl_locality wl))
  | Subzone => bool_decide (subzone (wl_locality src) = subzone (wl_locality wl))
  | Node => bool_decide (wl_node src = wl_node wl)
  | Cluster => bool_decide (wl_cluster_id src = wl_cluster_id wl)
  | Network => bool_decide (wl_network src = wl_network wl)
  end.

Fixpoint rank_loop (src wl : Workload) (scopes : list LoadBalancerScopes) : nat :=
  match scopes with
  | [] => 0
  | scope :: scopes' => if scope_matches src wl scope then S (rank_loop src wl scopes') else 0
  end.

Definition rank (r : LocalityRanker) (wl : Workload) : option nat :=
  match lb r, source r with
  | Some l, Some src =>
      let rk := rank_loop src wl (routing_preferences l) in
      if bool_decide (mode l = Strict) && negb (Nat.eqb rk (length (routing_preferences l)))
      then None else Some rk
  | _, _ => Some 0
  end.

Definition bucket_for (r : LocalityRanker) (wl : Workload) : option nat :=
  match source r with
  | None => Some 0
  | Some _ =>
      if match lb r with Some l => negb (uses_buckets l) | None => false end then Some 0
      else
        rk ← rank r wl;
        let n := match lb r with Some l => length (routing_preferences l) | None => 0 end in
        Some (n - rk)
  end.

(** ** Selection *)

Section select.
Context {IM : IndexMap} {RC : RandCrate} {Info : Type}.
(** [EndpointInfo::score] compared with [f64::total_cmp]. *)
Context (score_cmp : Info → Info → comparison).
(** [WorkloadStore::find_uid]. *)
Context (find_uid : string → option Workload).

Local Abbreviation Set_ := (EndpointSet Endpoint Info).

Record Candidate := mkCandidate {
  c_endpoint : Endpoint;
  c_info : Info;
  c_workload : Workload;
}.

Definition contains_target_port (ep : Endpoint) (wanted_target : Z) : bool :=
  existsb (λ kv, (kv.2 =? wanted_target)%Z) (map_to_list (ep_port ep)).

(** [EndpointSet<Endpoint>::insert]. *)
Definition insert_endpoint (ep : Endpoint) (info : Info) (dest_workload : Workload)
    (ranker : LocalityRanker) (s : Set_) : outcome Set_ :=
  match bucket_for ranker dest_workload with
  | None => Ret s
  | Some bucket => event (Add (workload_uid ep) (mkEWI ep info (wl_capacity dest_workload)) bucket) s
  end.

Definition viable (target_port svc_port : Z) (ep : Endpoint) : option Workload :=
  wl ← find_uid (workload_uid ep);
  if (target_port =? 0)%Z && negb (bool_decide (is_Some (ep_port ep !! svc_port))) then None
  else if (wl_capacity wl =? 0)%Z then None
  else Some wl.

Definition candidate_of (target_port svc_port : Z) (ewi : EndpointWithInfo Endpoint Info) : option Candidate :=
  (λ wl, mkCandidate (ewi_endpoint ewi) (ewi_info ewi) wl) <$> viable target_port svc_port (ewi_endpoint ewi).

(** [Iterator::max_by]: the last greatest element. *)
Definition max_by {A} (cmp : A → A → comparison) (l : list A) : option A :=
  foldl (λ best x, match best with
                   | None => Some x
                   | Some b => match cmp b x with Gt => Some b | _ => Some x end
                   end) None l.

Definition candidate_cmp (a b : Candidate) : comparison := score_cmp (c_info a) (c_info b).

(** [select_override]. *)
Definition select_override (o : SocketAddr) (s : Set_) : option Candidate :=
  find_endpoint (λ ewi : EndpointWithInfo Endpoint Info,
    if negb (contains_target_port (ewi_endpoint ewi) (port o)) then None
    else
      wl ← find_uid (workload_uid (ewi_endpoint ewi));
      if negb (bool_decide (ip o ∈ wl_ips wl)) then None
      else Some (mkCandidate (ewi_endpoint ewi) (ewi_info ewi) wl)) s.

(** [select_p2c]; [pick_weighted] samples the distribution and [pick_uniform]
    a range, each called twice. *)
Definition select_p2c (pick_weighted : WeightedIndex → nat * nat) (pick_uniform : nat → nat * nat)
    (svc_port target_port : Z) (s : Set_) : outcome (option Candidate) :=
  g ← best_bucket s;
  let index := im_iter (index_of g) in
  match index with
  | [] => Ret None
  | _ =>
      let picks := match sampler_of g with
                   | Some Drained => None
                   | Some (Weighted dist) => Some (pick_weighted dist)
                   | Some Uniform | None => Some (pick_uniform (length index))
                   end in
      match picks with
      | None => Ret None
      | Some (a, b) =>
          ea ← expect (index !! a);
          eb ← expect (index !! b);
          Ret (max_by candidate_cmp (omap (candidate_of target_port svc_port) [ea.2; eb.2]))
      end
  end.

(** [select_fallback]. *)
Definition fallback_bucket (svc_port target_port : Z) (g : EndpointGroup Endpoint Info) : option Candidate :=
  if is_drained (sampler g) then None
  else max_by candidate_cmp (omap (candidate_of target_port svc_port) (im_values (index_of g))).

Definition select_fallback (svc_port target_port : Z) (s : Set_) : option Candidate :=
  find_map (fallback_bucket svc_port target_port) s.

(** [select_endpoint], without the request handle it opens; [ports] is
    [svc.ports]. *)
Definition select_endpoint (pick_weighted : WeightedIndex → nat * nat) (pick_uniform : nat → nat * nat)
    (ports : gmap Z Z) (svc_port : Z) (override_dest : option SocketAddr) (s : Set_)
    : outcome (option Candidate) :=
  match ports !! svc_port with
  | None => Ret None
  | Some target_port =>
      match override_dest with
      | Some o => Ret (select_override o s)
      | None =>
          c ← select_p2c pick_weighted pick_uniform svc_port target_port s;
          match c with
          | Some c => Ret (Some c)
          | None => Ret (select_fallback svc_port target_port s)
          end
      end
  end.
End select.

(** ** Facts on groups *)

Section group_facts.
Context {IM : IndexMap} {RC : RandCrate} {T Info Health : Type}.
Local Abbreviation EWI := (EndpointWithInfo T Info).
Local Abbreviation Group := (EndpointGroup T Info).
Implicit Types (m : imap EWI) (g : Group).

(** Capacities a sampler can be built from without overflow. *)
Definition caps_ok m : Prop :=
  Forall (λ e, 0 ≤ ewi_capacity e)%Z (im_values m) ∧
  (sum_weights (ewi_capacity <$> im_values m) ≤ u64_max)%Z.

(** The sampler is the one a rebuild would give, and no key is in both
    pools. *)
Definition group_ok g : Prop :=
  build_sampler (active g) = Ret (sampler g) ∧
  ∀ k e e', (k, e) ∈ im_iter (active g) → (k, e') ∈ im_iter (rejected g) → False.

Lemma elem_of_im_values m e : e ∈ im_values m ↔ ∃ k, (k, e) ∈ im_iter m.
Proof.
  unfold im_values. rewrite list_elem_of_fmap. split.
  - intros ([k e'] & -> & H). by exists k.
  - intros [k H]. by exists (k, e).
Qed.

Lemma im_is_empty_true {V} (m : imap V) : im_is_empty m = true ↔ im_iter m = [].
Proof. unfold im_is_empty. by destruct (im_iter m). Qed.

Lemma values_forallb (p : EWI → bool) m :
  forallb p (im_values m) = true ↔ ∀ k e, (k, e) ∈ im_iter m → p e = true.
Proof.
  rewrite forallb_Forall, Forall_forall. setoid_rewrite elem_of_im_values. naive_solver.
Qed.

Lemma values_any_false (p : EWI → bool) m :
  existsb p (im_values m) = false ↔ ∀ k e, (k, e) ∈ im_iter m → p e = false.
Proof.
  rewrite <-not_true_iff_false, existsb_Exists, Exists_exists. setoid_rewrite elem_of_im_values. split.
  - intros H k e He. apply not_true_iff_false. intros Hp. apply H. eauto.
  - intros H (e & [k He] & Hp). rewrite (H k e He) in Hp. done.
Qed.

Lemma build_uniform m : (∀ k e, (k, e) ∈ im_iter m → ewi_capacity e = 1%Z) → build_sampler m = Ret Uniform.
Proof.
  intros H. unfold build_sampler. destruct (im_is_empty m) eqn:E; [done|].
  assert (forallb (λ e, (ewi_capacity e =? 1)%Z) (im_values m) = true) as ->.
  { apply values_forallb. intros k e He. by rewrite (H k e He). }
  destruct (existsb _ _) eqn:Ex; [done|]. exfalso.
  rewrite values_any_false in Ex. unfold im_is_empty in E. destruct (im_iter m) as [|[k e] l] eqn:Em; [done|].
  assert ((k, e) ∈ im_iter m) as He by (rewrite Em; by left). rewrite Em in *.
  specialize (Ex k e He). by rewrite (H k e He) in Ex.
Qed.

Lemma build_drained m :
  im_iter m ≠ [] → (∀ k e, (k, e) ∈ im_iter m → ewi_capacity e = 0%Z) → build_sampler m = Ret Drained.
Proof.
  intros Hne H. unfold build_sampler.
  destruct (im_is_empty m) eqn:E; [by apply im_is_empty_true in E|].
  assert (existsb (λ e, negb (ewi_capacity e =? 0)%Z) (im_values m) = false) as ->; [|done].
  apply values_any_false. intros k e He. by rewrite (H k e He).
Qed.

Lemma build_sampler_inv m s :
  build_sampler m = Ret s →
  match s with
  | Uniform => ∀ k e, (k, e) ∈ im_iter m → ewi_capacity e = 1%Z
  | Drained => im_iter m ≠ [] ∧ ∀ k e, (k, e) ∈ im_iter m → ewi_capacity e = 0%Z
  | Weighted _ => True
  end.
Proof.
  unfold build_sampler. destruct (im_is_empty m) eqn:E.
  { intros [= <-] k e He. apply im_is_empty_true in E. rewrite E in He. by apply elem_of_nil in He. }
  destruct (existsb _ _) eqn:Ex; simpl.
  - destruct (forallb _ _) eqn:Ea; [|by destruct (weighted_new _); intros [= <-]].
    intros [= <-] k e He. by apply Z.eqb_eq, (proj1 (values_forallb _ m) Ea k).
  - intros [= <-]. split.
    + intros Hn. apply im_is_empty_true in Hn. congruence.
    + intros k e He. rewrite values_any_false in Ex. specialize (Ex k e He).
      by apply negb_false_iff, Z.eqb_eq in Ex.
Qed.

Lemma sum_weights_pos ws : Forall (λ w, 0 ≤ w)%Z ws → (∃ w, w ∈ ws ∧ w ≠ 0%Z) → (0 < sum_weights ws)%Z.
Proof.
  induction 1 as [|w ws Hw Hws IH]; intros (x & Hx & Hne); [by apply elem_of_nil in Hx|]. simpl.
  assert (0 <= sum_weights ws)%Z.
  { clear -Hws. induction Hws; simpl; lia. }
  apply elem_of_cons in Hx as [->|Hx]; [lia|].
  enough (0 < sum_weights ws)%Z by lia. apply IH. eauto.
Qed.

Lemma build_sampler_ret m : caps_ok m → ∃ s, build_sampler m = Ret s.
Proof.
  intros [Hnn Hsum]. unfold build_sampler. destruct (im_is_empty m) eqn:E; [by eauto|].
  destruct (existsb _ _) eqn:Ex; simpl; [|by eauto]. destruct (forallb _ _); [by eauto|].
  destruct (weighted_new_ok (ewi_capacity <$> im_values m)) as [w ->]; [| | |simpl; by eauto].
  - intros Hn. apply fmap_nil_inv in Hn. by rewrite Hn in Ex.
  - by apply Forall_fmap.
  - split; [|done]. apply sum_weights_pos; [by apply Forall_fmap|].
    apply existsb_Exists, Exists_exists in Ex as (e & He & Hc). exists (ewi_capacity e).
    split; [by apply list_elem_of_fmap_2|]. by to_prop.
Qed.

(** The shortcut of [update_sampler] is sound: [m0] is the active pool the
    sampler was built for. *)
Lemma update_sampler_ok g added m0 :
  build_sampler m0 = Ret (sampler g) →
  (∀ k e, (k, e) ∈ im_iter (active g) → (k, e) ∈ im_iter m0 ∨ added = Some (ewi_capacity e)) →
  (added ≠ None → im_iter (active g) ≠ []) → caps_ok (active g) →
  ∃ s, update_sampler g added = Ret (mkGroup (active g) (rejected g) s) ∧
       build_sampler (active g) = Ret s.
Proof.
  intros H0 Hsub Hne Hcaps. pose proof (build_sampler_inv _ _ H0) as Hinv.
  destruct (build_sampler_ret _ Hcaps) as [s Hs].
  assert (∃ s, (s0 ← build_sampler (active g); Ret (mkGroup (active g) (rejected g) s0)) =
    Ret (mkGroup (active g) (rejected g) s) ∧ build_sampler (active g) = Ret s) as Hre.
  { exists s. by rewrite Hs. }
  assert (g = mkGroup (active g) (rejected g) (sampler g)) as Heta by (by destruct g).
  unfold update_sampler. destruct (sampler g) eqn:Es; [|done|].
  - destruct added as [c|]; [destruct (Z.eqb_spec c 1) as [->|]; [|done]|];
      (exists Uniform; split; [by rewrite <-Heta|]; apply build_uniform; intros k e He;
       destruct (Hsub k e He) as [?|Hc]; [by eapply Hinv|congruence]).
  - destruct Hinv as [Hm0 Hz]. destruct added as [c|].
    + destruct (Z.eqb_spec c 0) as [->|]; [|done]. exists Drained. split; [by rewrite <-Heta|].
      apply build_drained; [by apply Hne|]. intros k e He.
      destruct (Hsub k e He) as [?|Hc]; [by eapply Hz|congruence].
    + destruct (im_is_empty (active g)) eqn:E; simpl; [done|]. exists Drained. split; [by rewrite <-Heta|].
      apply build_drained; [intros Hn; apply im_is_empty_true in Hn; congruence|].
      intros k e He. destruct (Hsub k e He) as [?|Hc]; [by eapply Hz|done].
Qed.
End group_facts.

(** ** Refinement

    What a set of endpoints promises: a map from keys to the endpoint, the
    bucket it is in, and whether it is active. *)

Section refinement.
Context {IM : IndexMap} {RC : RandCrate} {T Info Health : Type}.
Local Abbreviation EWI := (EndpointWithInfo T Info).
Local Abbreviation Group := (EndpointGroup T Info).
Local Abbreviation Set_ := (list Group).

Record Placed := mkPlaced { pl_ewi : EWI; pl_bucket : nat; pl_active : bool }.
Local Abbreviation Spec := (gmap string Placed).
Implicit Types (m : imap EWI) (g : Group) (s : Set_) (M : Spec).

(** The mutators of a set: xDS events, eviction requests, the eviction timer
    and rebucketing. *)
Inductive SetOp :=
| OpEvent (item : EndpointEvent T Info)
| OpEvict (key : string) (until : Z) (restore_health : option Health)
| OpTimer
| OpRebucket (ranker : T → option nat).

(** One iteration of the worker, or one call of a mutator. The timer is only
    armed while the heap has an entry. *)
Definition set_step (op : SetOp) (w : Worker T Info Health) : outcome (Worker T Info Health) :=
  match op with
  | OpEvent item => s ← event item (w_set w); Ret (mkWorker s (w_heap w))
  | OpEvict key until h => handle_recv_evict key until h w
  | OpTimer => match w_heap w with [] => Ret w | _ => fst <$> handle_eviction w end
  | OpRebucket ranker => s ← rebucket ranker (w_set w); Ret (mkWorker s (w_heap w))
  end.

Fixpoint set_run (ops : list SetOp) (w : Worker T Info Health) : outcome (Worker T Info Health) :=
  match ops with
  | [] => Ret w
  | op :: ops' => w' ← set_step op w; set_run ops' w'
  end.

Definition spec_move (key : string) (act : bool) M : Spec :=
  match M !! key with
  | Some p => <[key := mkPlaced (pl_ewi p) (pl_bucket p) act]> M
  | None => M
  end.

Definition spec_rank (ranker : T → option nat) (n : nat) (p : Placed) : option Placed :=
  b ← ranker (ewi_endpoint (pl_ewi p));
  if decide (b < n) then Some (mkPlaced (pl_ewi p) b (pl_active p)) else None.

Definition spec_step (n : nat) (op : SetOp) (Mh : Spec * list (UnevictEntry Health))
    : Spec * list (UnevictEntry Health) :=
  let '(M, h) := Mh in
  match op with
  | OpEvent (Add key ep b) => (if decide (b < n) then <[key := mkPlaced ep b true]> M else M, h)
  | OpEvent (Delete key) => (delete key M, h)
  | OpEvict key until rh =>
      (spec_move key false M,
       match M !! key with Some _ => mkUnevict until key rh :: h | None => h end)
  | OpTimer =>
      match heap_pop h with
      | None => (M, h)
      | Some (e, h') => (spec_move (ue_key e) true M, h')
      end
  | OpRebucket ranker => (omap (spec_rank ranker n) M, h)
  end.

Definition spec_run (n : nat) (ops : list SetOp) (Mh : Spec * list (UnevictEntry Health)) :=
  foldl (λ Mh op, spec_step n op Mh) Mh ops.

(** An endpoint is added under a key that is free or already in that bucket
    (the discovery store removes a workload before it inserts it), with a [u32]
    capacity, to fewer than [2^32] endpoints. *)
Definition add_ok (op : SetOp) M : Prop :=
  match op with
  | OpEvent (Add key ep b) =>
      (0 ≤ ewi_capacity ep ≤ u32_max)%Z ∧ (Z.of_nat (size M) < 2 ^ 32)%Z ∧
      ∀ p, M !! key = Some p → pl_bucket p = b
  | _ => True
  end.

Fixpoint adds_ok (n : nat) (ops : list SetOp) (Mh : Spec * list (UnevictEntry Health)) : Prop :=
  match ops with
  | [] => True
  | op :: ops' => add_ok op Mh.1 ∧ adds_ok n ops' (spec_step n op Mh)
  end.

(** The set represents the map, and every group's cached sampler is the one a
    rebuild gives. *)
Record repr s M : Prop := mkRepr {
  repr_active : ∀ i g k e, s !! i = Some g →
    (k, e) ∈ im_iter (active g) ↔ M !! k = Some (mkPlaced e i true);
  repr_rejected : ∀ i g k e, s !! i = Some g →
    (k, e) ∈ im_iter (rejected g) ↔ M !! k = Some (mkPlaced e i false);
  repr_bound : ∀ k p, M !! k = Some p → pl_bucket p < length s;
  repr_sampler : ∀ i g, s !! i = Some g → build_sampler (active g) = Ret (sampler g);
}.

Record spec_ok M : Prop := mkSpecOk {
  spec_size : (Z.of_nat (size M) ≤ 2 ^ 32)%Z;
  spec_caps : ∀ k p, M !! k = Some p → (0 ≤ ewi_capacity (pl_ewi p) ≤ u32_max)%Z;
}.

Lemma sum_weights_bound ws c :
  Forall (λ w, w ≤ c)%Z ws → (sum_weights ws ≤ Z.of_nat (length ws) * c)%Z.
Proof. induction 1; simpl; lia. Qed.

Lemma caps_of_spec m M :
  spec_ok M → (∀ k e, (k, e) ∈ im_iter m → ∃ i b, M !! k = Some (mkPlaced e i b)) → caps_ok m.
Proof.
  intros [Hsize Hcap] Hsub.
  assert (∀ e, e ∈ im_values m → (0 ≤ ewi_capacity e ≤ u32_max)%Z) as Hb.
  { intros e [k He]%elem_of_im_values. apply Hsub in He as (i & b & He). by apply Hcap in He. }
  split; [by apply Forall_forall; intros e He; apply Hb|].
  etrans; [apply (sum_weights_bound _ u32_max)|].
  { apply Forall_fmap, Forall_forall. intros e He. simpl. by apply Hb. }
  assert (length (im_values m) ≤ size M) as Hlen.
  { unfold im_values. rewrite length_fmap, <-(length_fmap fst), <-size_dom.
    rewrite <-(size_list_to_set (C := gset string)); [|apply im_iter_keys].
    apply subseteq_size. intros k Hk. apply elem_of_list_to_set, list_elem_of_fmap in Hk as ([k' e] & -> & He).
    apply Hsub in He as (i & b & He). by eapply elem_of_dom_2. }
  rewrite length_fmap. unfold u32_max, u64_max in *. nia.
Qed.

Lemma repr_holds s M i g k :
  repr s M → s !! i = Some g → holds_key k g = true ↔ ∃ p, M !! k = Some p ∧ pl_bucket p = i.
Proof.
  intros H Hi. unfold holds_key, contains_key.
  rewrite orb_true_iff, !bool_decide_eq_true, !list_elem_of_fmap. split.
  - intros [([k' e] & -> & He)|([k' e] & -> & He)]; simpl.
    + apply (repr_active _ _ H _ _ _ _ Hi) in He. eauto.
    + apply (repr_rejected _ _ H _ _ _ _ Hi) in He. eauto.
  - intros ([e j []] & HM & <-); simpl in *; [left|right]; exists (k, e); (split; [done|]).
    + by apply (repr_active _ _ H _ _ _ _ Hi).
    + by apply (repr_rejected _ _ H _ _ _ _ Hi).
Qed.

Lemma find_bucket_Some k s i :
  find_bucket k s = Some i → ∃ g, s !! i = Some g ∧ holds_key k g = true.
Proof.
  revert i. induction s as [|g s IH]; simpl; intros i; [done|].
  destruct (holds_key k g) eqn:E; [intros [= <-]; eauto|].
  destruct (find_bucket k s) as [j|]; simpl; [|done]. intros [= <-]. by apply IH.
Qed.

Lemma find_bucket_None k s i g : find_bucket k s = None → s !! i = Some g → holds_key k g = false.
Proof.
  revert i. induction s as [|g' s IH]; simpl; intros i; [done|].
  destruct (holds_key k g') eqn:E; [done|].
  destruct (find_bucket k s) as [j|]; simpl; [done|]. intros _. destruct i; simpl; [congruence|by apply IH].
Qed.

(** The lookup by key finds the bucket of the map. *)
Lemma repr_find s M k : repr s M → find_bucket k s = pl_bucket <$> M !! k.
Proof.
  intros H. destruct (find_bucket k s) as [i|] eqn:E.
  - apply find_bucket_Some in E as (g & Hi & Hh).
    apply (repr_holds _ _ _ _ _ H Hi) in Hh as (p & -> & <-). done.
  - destruct (M !! k) as [p|] eqn:HM; [|done].
    destruct (lookup_lt_is_Some_2 s (pl_bucket p)) as [g Hg]; [by eapply repr_bound|].
    assert (holds_key k g = true) as Hh by (apply (repr_holds _ _ _ _ _ H Hg); eauto).
    by rewrite (find_bucket_None _ _ _ _ E Hg) in Hh.
Qed.

Lemma repr_group s M k p : repr s M → M !! k = Some p → ∃ g, s !! pl_bucket p = Some g.
Proof. intros H Hk. apply lookup_lt_is_Some_2. by eapply repr_bound. Qed.

(** Replacing one group changes the map at one key. *)
Lemma repr_update s M M' i g g' k :
  repr s M → s !! i = Some g →
  (∀ e, (k, e) ∈ im_iter (active g') ↔ M' !! k = Some (mkPlaced e i true)) →
  (∀ e, (k, e) ∈ im_iter (rejected g') ↔ M' !! k = Some (mkPlaced e i false)) →
  (∀ k' e, k' ≠ k → (k', e) ∈ im_iter (active g') ↔ (k', e) ∈ im_iter (active g)) →
  (∀ k' e, k' ≠ k → (k', e) ∈ im_iter (rejected g') ↔ (k', e) ∈ im_iter (rejected g)) →
  (∀ k', k' ≠ k → M' !! k' = M !! k') →
  (∀ p, M !! k = Some p → pl_bucket p = i) → (∀ p, M' !! k = Some p → pl_bucket p = i) →
  build_sampler (active g') = Ret (sampler g') →
  repr (<[i := g']> s) M'.
Proof.
  intros H Hi Ha Hr Ha' Hr' HM Hk Hk' Hs.
  assert (i < length s) as Hlt by (by eapply lookup_lt_Some).
  split.
  - intros j gj k' e Hj. destruct (decide (j = i)) as [->|Hne].
    + rewrite list_lookup_insert_eq in Hj by done. simplify_eq.
      destruct (decide (k' = k)) as [->|Hk2]; [apply Ha|]. rewrite Ha', HM by done. by eapply repr_active.
    + rewrite list_lookup_insert_ne in Hj by done. rewrite (repr_active _ _ H _ _ _ _ Hj).
      destruct (decide (k' = k)) as [->|Hk2]; [|by rewrite HM].
      split; intros E; [apply Hk in E|apply Hk' in E]; simpl in E; congruence.
  - intros j gj k' e Hj. destruct (decide (j = i)) as [->|Hne].
    + rewrite list_lookup_insert_eq in Hj by done. simplify_eq.
      destruct (decide (k' = k)) as [->|Hk2]; [apply Hr|]. rewrite Hr', HM by done. by eapply repr_rejected.
    + rewrite list_lookup_insert_ne in Hj by done. rewrite (repr_rejected _ _ H _ _ _ _ Hj).
      destruct (decide (k' = k)) as [->|Hk2]; [|by rewrite HM].
      split; intros E; [apply Hk in E|apply Hk' in E]; simpl in E; congruence.
  - intros k' p Hp. rewrite length_insert. destruct (decide (k' = k)) as [->|Hk2].
    + by rewrite (Hk' _ Hp).
    + rewrite HM in Hp by done. by eapply repr_bound.
  - intros j gj Hj. destruct (decide (j = i)) as [->|Hne].
    + rewrite list_lookup_insert_eq in Hj by done. by simplify_eq.
    + rewrite list_lookup_insert_ne in Hj by done. by eapply repr_sampler.
Qed.

(** A group of a set that represents [M] and its pools after an edit that
    leaves [M']; the sampler update returns, exactly. *)
Lemma update_sampler_repr s M M' i g act rej added :
  repr s M → s !! i = Some g → spec_ok M' →
  (∀ k e, (k, e) ∈ im_iter act → (k, e) ∈ im_iter (active g) ∨ added = Some (ewi_capacity e)) →
  (added ≠ None → im_iter act ≠ []) →
  (∀ k e, (k, e) ∈ im_iter act → ∃ j b, M' !! k = Some (mkPlaced e j b)) →
  ∃ sm, update_sampler (mkGroup act rej (sampler g)) added = Ret (mkGroup act rej sm) ∧
        build_sampler act = Ret sm.
Proof.
  intros H Hi HM Hsub Hne Hin.
  destruct (update_sampler_ok (mkGroup act rej (sampler g)) added (active g)) as (sm & E1 & E2);
    simpl in *; eauto using repr_sampler, caps_of_spec.
Qed.

Lemma spec_ok_insert M k p :
  spec_ok M → (Z.of_nat (size M) < 2 ^ 32)%Z ∨ is_Some (M !! k) →
  (0 ≤ ewi_capacity (pl_ewi p) ≤ u32_max)%Z → spec_ok (<[k := p]> M).
Proof.
  intros [Hs Hc] Hk Hp. split.
  - destruct (M !! k) as [q|] eqn:E.
    + by rewrite map_size_insert_Some.
    + rewrite map_size_insert_None by done. destruct Hk as [?|[? ?]]; [lia|done].
  - intros k' q. destruct (decide (k' = k)) as [->|].
    + rewrite lookup_insert_eq. by intros [= <-].
    + rewrite lookup_insert_ne by done. eauto.
Qed.

Lemma spec_ok_sub M M' :
  spec_ok M → (∀ k p', M' !! k = Some p' → ∃ p, M !! k = Some p ∧ pl_ewi p = pl_ewi p') → spec_ok M'.
Proof.
  intros [Hs Hc] Hsub. split.
  - enough (size M' ≤ size M) by lia. rewrite <-!size_dom. apply subseteq_size. intros k Hk.
    apply elem_of_dom in Hk as [p' Hp]. apply Hsub in Hp as (p & Hp & _). by eapply elem_of_dom_2.
  - intros k p' Hp. apply Hsub in Hp as (p & Hp & <-). eauto.
Qed.

Lemma im_insert_nonempty {V} k (v : V) (m : imap V) : im_iter (im_insert k v m) ≠ [].
Proof.
  intros E. assert ((k, v) ∈ im_iter (im_insert k v m)) as Hin by (apply im_iter_insert; by left).
  rewrite E in Hin. by apply elem_of_nil in Hin.
Qed.

(** Destructs a removal with its specification. *)
Ltac swap_remove k m act o Hact Ho Hn :=
  pose proof (im_iter_remove _ k m) as Hact; pose proof (im_removed _ k m) as Ho;
  pose proof (im_remove_absent _ k m) as Hn;
  destruct (im_swap_remove k m) as [act o]; simpl in Hact, Ho, Hn; cbn [fst snd].

Lemma add_repr s M k ep b g :
  repr s M → s !! b = Some g → spec_ok M → add_ok (OpEvent (Add k ep b)) M →
  let M' := <[k := mkPlaced ep b true]> M in
  spec_ok M' ∧ ∃ g', group_add k ep g = Ret g' ∧ repr (<[b := g']> s) M'.
Proof.
  intros H Hi HM (Hcap & Hsz & Hk) M'.
  assert (spec_ok M') as HM' by (apply spec_ok_insert; auto).
  split; [done|]. unfold group_add. swap_remove k (rejected g) rej o Hrej Ho Hn.
  destruct (update_sampler_repr s M M' b g (im_insert k ep (active g)) rej
    (Some (ewi_capacity ep))) as (sm & -> & Hsm); try done.
  - intros k' e [[-> ->]|[_ ?]]%im_iter_insert; auto.
  - intros _. apply im_insert_nonempty.
  - intros k' e [[-> ->]|[? He]]%im_iter_insert; unfold M'.
    + rewrite lookup_insert_eq. eauto.
    + rewrite lookup_insert_ne by done. apply (repr_active _ _ H _ _ _ _ Hi) in He. eauto.
  - eexists; split; [done|]. apply (repr_update s M M' b g _ k); simpl; try done.
    + intros e. unfold M'. rewrite im_iter_insert, lookup_insert_eq. naive_solver.
    + intros e. unfold M'. rewrite Hrej, lookup_insert_eq. naive_solver.
    + intros k' e Hne. rewrite im_iter_insert. naive_solver.
    + intros k' e Hne. rewrite Hrej. naive_solver.
    + intros k' Hne. unfold M'. by rewrite lookup_insert_ne.
    + intros p. unfold M'. rewrite lookup_insert_eq. by intros [= <-].
Qed.

Lemma delete_repr s M k p g :
  repr s M → spec_ok M → M !! k = Some p → s !! pl_bucket p = Some g →
  ∃ g', group_remove k g = Ret g' ∧ repr (<[pl_bucket p := g']> s) (delete k M).
Proof.
  intros H HM Hk Hi.
  assert (spec_ok (delete k M)) as HM'.
  { apply (spec_ok_sub M); [done|]. intros k' p' [_ ?]%lookup_delete_Some. eauto. }
  pose proof (repr_active _ _ H _ _ k (pl_ewi p) Hi) as Hka.
  pose proof (repr_rejected _ _ H _ _ k (pl_ewi p) Hi) as Hkr.
  rewrite Hk in Hka, Hkr.
  unfold group_remove. swap_remove k (active g) act o Hact Ho Hn. swap_remove k (rejected g) rej o' Hrej Ho' Hn'.
  assert (∀ r, (∀ k' e, (k', e) ∈ im_iter r ↔ k' ≠ k ∧ (k', e) ∈ im_iter (rejected g)) →
    ∃ g', update_sampler (mkGroup act r (sampler g)) None = Ret g' ∧
          repr (<[pl_bucket p := g']> s) (delete k M)) as Hend.
  { intros r Hr.
    destruct (update_sampler_repr s M (delete k M) (pl_bucket p) g act r None) as (sm & -> & Hsm); try done.
    - intros k' e. rewrite Hact. naive_solver.
    - intros k' e [Hne He]%Hact. rewrite lookup_delete_ne by done.
      apply (repr_active _ _ H _ _ _ _ Hi) in He. eauto.
    - eexists; split; [done|]. apply (repr_update s M _ (pl_bucket p) g _ k); simpl; try done.
      + intros e. rewrite Hact, lookup_delete_eq. naive_solver.
      + intros e. rewrite Hr, lookup_delete_eq. naive_solver.
      + intros k' e Hne. rewrite Hact. naive_solver.
      + intros k' e Hne. rewrite Hr. naive_solver.
      + intros k' Hne. by rewrite lookup_delete_ne.
      + intros q Hq. congruence.
      + intros q. by rewrite lookup_delete_eq. }
  destruct o as [ep|].
  - apply Hend. intros k' e. split; [|naive_solver]. intros He. split; [|done]. intros ->.
    apply (repr_rejected _ _ H _ _ _ _ Hi) in He. rewrite Hk in He.
    assert ((k, ep) ∈ im_iter (active g)) as Ha by (by apply Ho).
    apply (repr_active _ _ H _ _ _ _ Hi) in Ha. congruence.
  - destruct o' as [ep|]; [by apply Hend|]. exfalso. destruct p as [e i []]; simpl in *.
    + assert ((k, e) ∈ im_iter (active g)) as Ha by (by apply Hka). by apply Ho in Ha.
    + assert ((k, e) ∈ im_iter (rejected g)) as Ha by (by apply Hkr). by apply Ho' in Ha.
Qed.
Lemma spec_move_ok M k b : spec_ok M → spec_ok (spec_move k b M).
Proof.
  intros H. apply (spec_ok_sub M); [done|]. unfold spec_move. intros k' p'.
  destruct (M !! k) as [p|] eqn:E; [|eauto].
  destruct (decide (k' = k)) as [->|]; [|by rewrite lookup_insert_ne by done; eauto].
  rewrite lookup_insert_eq. intros [= <-]. eauto.
Qed.

Lemma spec_move_id M k p : M !! k = Some p → spec_move k (pl_active p) M = M.
Proof. intros H. unfold spec_move. rewrite H. apply insert_id. by destruct p. Qed.

Lemma repr_self s M i g : repr s M → s !! i = Some g → repr (<[i := g]> s) M.
Proof. intros. by rewrite list_insert_id. Qed.

(** Moving one key between the pools of its group. *)
Lemma move_repr s M k e i g act rej sm b :
  repr s M → s !! i = Some g → M !! k = Some (mkPlaced e i (negb b)) →
  (∀ k' e', (k', e') ∈ im_iter act ↔ (k' = k ∧ e' = e ∧ b = true) ∨ (k' ≠ k ∧ (k', e') ∈ im_iter (active g))) →
  (∀ k' e', (k', e') ∈ im_iter rej ↔ (k' = k ∧ e' = e ∧ b = false) ∨ (k' ≠ k ∧ (k', e') ∈ im_iter (rejected g))) →
  build_sampler act = Ret sm → repr (<[i := mkGroup act rej sm]> s) (spec_move k b M).
Proof.
  intros H Hi Hk Ha Hr Hs. unfold spec_move. rewrite Hk. simpl.
  apply (repr_update s M _ i g _ k); simpl; try done.
  - intros e'. rewrite Ha, lookup_insert_eq. naive_solver.
  - intros e'. rewrite Hr, lookup_insert_eq. naive_solver.
  - intros k' e' Hne. rewrite Ha. naive_solver.
  - intros k' e' Hne. rewrite Hr. naive_solver.
  - intros k' Hne. by rewrite lookup_insert_ne.
  - intros q Hq. by simplify_eq.
  - intros q. rewrite lookup_insert_eq. by intros [= <-].
Qed.

Lemma evict_repr s M k p g :
  repr s M → spec_ok M → M !! k = Some p → s !! pl_bucket p = Some g →
  ∃ g', group_evict k g = Ret g' ∧ repr (<[pl_bucket p := g']> s) (spec_move k false M).
Proof.
  intros H HM Hk Hi. destruct p as [e i b]; simpl in *.
  unfold group_evict. swap_remove k (active g) act o Hact Ho Hn. destruct o as [ep|].
  - assert (M !! k = Some (mkPlaced ep i true)) as Hk' by (by apply (repr_active _ _ H _ _ _ _ Hi), Ho).
    rewrite Hk in Hk'. injection Hk' as <- ->.
    destruct (update_sampler_repr s M M i g act (im_insert k e (rejected g)) None)
      as (sm & -> & Hsm); try done.
    + intros k' e'. rewrite Hact. naive_solver.
    + intros k' e' [_ He]%Hact. apply (repr_active _ _ H _ _ _ _ Hi) in He. eauto.
    + eexists; split; [done|]. apply move_repr with (e := e) (g := g); try done.
      * intros k' e'. rewrite Hact. naive_solver.
      * intros k' e'. rewrite im_iter_insert. naive_solver.
  - rewrite (Hn eq_refl). destruct b.
    { apply (repr_active _ _ H _ _ _ _ Hi) in Hk. by apply Ho in Hk. }
    rewrite (spec_move_id M k _ Hk : spec_move k false M = M).
    exists g. split; [by destruct g|]. by apply repr_self.
Qed.

Lemma unevict_repr s M k p g :
  repr s M → spec_ok M → M !! k = Some p → s !! pl_bucket p = Some g →
  ∃ g' o, group_unevict k g = Ret (g', o) ∧ repr (<[pl_bucket p := g']> s) (spec_move k true M).
Proof.
  intros H HM Hk Hi. destruct p as [e i b]; simpl in *.
  unfold group_unevict. swap_remove k (rejected g) rej o Hrej Ho Hn. destruct o as [ep|].
  - assert (M !! k = Some (mkPlaced ep i false)) as Hk' by (by apply (repr_rejected _ _ H _ _ _ _ Hi), Ho).
    rewrite Hk in Hk'. injection Hk' as <- ->.
    destruct (update_sampler_repr s M M i g (im_insert k e (active g)) rej (Some (ewi_capacity e)))
      as (sm & -> & Hsm); try done.
    + intros k' e'. rewrite im_iter_insert. naive_solver.
    + intros _. apply im_insert_nonempty.
    + intros k' e' [[-> ->]|[_ He]]%im_iter_insert; [eauto|].
      apply (repr_active _ _ H _ _ _ _ Hi) in He. eauto.
    + eexists _, _; split; [done|]. apply move_repr with (e := e) (g := g); try done.
      * intros k' e'. rewrite im_iter_insert. naive_solver.
      * intros k' e'. rewrite Hrej. naive_solver.
  - rewrite (Hn eq_refl). destruct b.
    + rewrite (spec_move_id M k _ Hk : spec_move k true M = M).
      exists g, None. split; [by destruct g|]. by apply repr_self.
    + apply (repr_rejected _ _ H _ _ _ _ Hi) in Hk. by apply Ho in Hk.
Qed.
Lemma length_place (ranker : T → option nat) (into : list (imap EWI)) kv : length (place ranker into kv) = length into.
Proof. unfold place. split_matches; by rewrite ?length_insert. Qed.

Lemma redistribute_flat (ranker : T → option nat) n (pools : list (imap EWI)) :
  redistribute ranker n pools = foldl (place ranker) (replicate n im_empty) (pools ≫= im_iter).
Proof.
  unfold redistribute. generalize (replicate n (im_empty (V := EWI))).
  induction pools as [|m pools IH]; intros into; simpl; [done|].
  by rewrite IH, foldl_app.
Qed.

(** Redistributing entries whose keys do not clash puts each at its rank. *)
Lemma place_all (ranker : T → option nat) n (l : list (string * EWI)) :
  (∀ k e e', (k, e) ∈ l → (k, e') ∈ l → e = e') →
  let r := foldl (place ranker) (replicate n im_empty) l in
  length r = n ∧
  ∀ b m k e, r !! b = Some m →
    (k, e) ∈ im_iter m ↔ (k, e) ∈ l ∧ ranker (ewi_endpoint e) = Some b.
Proof.
  induction l as [|[k0 e0] l IH] using rev_ind; intros Hf; simpl.
  - rewrite length_replicate. split; [done|]. intros b m k e [-> _]%lookup_replicate.
    rewrite im_iter_empty. split; [by intros ?%elem_of_nil|]. by intros [?%elem_of_nil _].
  - rewrite foldl_app. simpl. destruct IH as [Hlen IH].
    { intros k e e' H1 H2. eapply Hf; apply elem_of_app; eauto. }
    rewrite length_place. split; [done|]. intros b m k e. unfold place. simpl.
    setoid_rewrite elem_of_app. rewrite list_elem_of_singleton.
    destruct (ranker (ewi_endpoint e0)) as [b0|] eqn:Er; [|intros Hm; rewrite (IH _ _ _ _ Hm); naive_solver].
    destruct (_ !! b0) as [m0|] eqn:E0.
    + destruct (decide (b = b0)) as [->|Hne].
      * rewrite list_lookup_insert_eq by (by eapply lookup_lt_Some). intros [= <-].
        rewrite im_iter_insert, (IH _ _ _ _ E0).
        assert (k = k0 → (k, e) ∈ l → e = e0).
        { intros -> ?. eapply (Hf k0); apply elem_of_app; [by left|right; by left]. }
        destruct (decide (k = k0)); naive_solver.
      * rewrite list_lookup_insert_ne by done. intros Hm. rewrite (IH _ _ _ _ Hm). naive_solver.
    + intros Hm. rewrite (IH _ _ _ _ Hm). naive_solver.
Qed.

Lemma build_groups_ok acts rejs :
  length acts = length rejs → Forall caps_ok acts →
  ∃ gs, build_groups acts rejs = Ret gs ∧ length gs = length acts ∧
    ∀ i g, gs !! i = Some g →
      acts !! i = Some (active g) ∧ rejs !! i = Some (rejected g) ∧
      build_sampler (active g) = Ret (sampler g).
Proof.
  intros Hlen Hc. revert rejs Hlen.
  induction Hc as [|a acts Ha _ IH]; intros [|r rejs] Hlen; try done; simpl in *.
  { exists []. split; [done|]. split; [done|]. intros i g. by rewrite lookup_nil. }
  destruct (IH rejs) as (gs & -> & Hl & Hgs); [lia|]. destruct (build_sampler_ret _ Ha) as [sm Hsm].
  unfold from_pools. rewrite Hsm. simpl. eexists; split; [done|]. split; [simpl; lia|].
  intros [|i] g; simpl; [|apply Hgs]. by intros [= <-].
Qed.
(** The entries of all the pools on one side. *)
Lemma repr_entries s M (b : bool) k e :
  repr s M →
  (k, e) ∈ ((λ g, if b then active g else rejected g) <$> s) ≫= im_iter ↔
  ∃ i, M !! k = Some (mkPlaced e i b).
Proof.
  intros H. rewrite list_elem_of_bind. split.
  - intros (m & Hin & (g & -> & [i Hi]%list_elem_of_lookup)%list_elem_of_fmap). exists i. destruct b.
    + by apply (repr_active _ _ H _ _ _ _ Hi).
    + by apply (repr_rejected _ _ H _ _ _ _ Hi).
  - intros [i Hi]. destruct (lookup_lt_is_Some_2 s i) as [g Hg].
    { by apply (repr_bound _ _ H) in Hi. }
    exists (if b then active g else rejected g). split.
    + destruct b; [by apply (repr_active _ _ H _ _ _ _ Hg)|by apply (repr_rejected _ _ H _ _ _ _ Hg)].
    + apply list_elem_of_fmap. exists g. split; [done|]. by eapply list_elem_of_lookup_2.
Qed.

(** Redistribution of one side of a set. *)
Lemma redistribute_repr s M (b : bool) (ranker : T → option nat) :
  repr s M →
  let r := redistribute ranker (length s) ((λ g, if b then active g else rejected g) <$> s) in
  length r = length s ∧
  ∀ i m k e, r !! i = Some m →
    (k, e) ∈ im_iter m ↔ omap (spec_rank ranker (length s)) M !! k = Some (mkPlaced e i b).
Proof.
  intros H. rewrite redistribute_flat. simpl.
  destruct (place_all ranker (length s)
    (((λ g, if b then active g else rejected g) <$> s) ≫= im_iter)) as [Hlen Hr].
  { intros k e e' [i H1]%(repr_entries _ _ _ _ _ H) [i' H2]%(repr_entries _ _ _ _ _ H). congruence. }
  split; [done|]. intros i m k e Hm. rewrite (Hr _ _ _ _ Hm), (repr_entries _ _ _ _ _ H), lookup_omap.
  assert (i < length s) as Hi by (rewrite <-Hlen; by eapply lookup_lt_Some).
  unfold spec_rank. split.
  - intros [[i0 ->] Hrk]. simpl. rewrite Hrk. simpl. by rewrite decide_True.
  - destruct (M !! k) as [[e' i' b']|] eqn:E; simpl; [|done].
    destruct (ranker (ewi_endpoint e')) as [i2|] eqn:Er; simpl; [|done]. case_decide; [|done].
    intros [= -> -> ->]. eauto.
Qed.

Lemma spec_rank_ok M (ranker : T → option nat) n : spec_ok M → spec_ok (omap (spec_rank ranker n) M).
Proof.
  intros H. apply (spec_ok_sub M); [done|]. intros k p'. rewrite lookup_omap.
  destruct (M !! k) as [p|]; simpl; [|done]. unfold spec_rank.
  destruct (ranker _); simpl; [|done]. case_decide; [|done]. intros [= <-]. eauto.
Qed.

Lemma rebucket_repr s M (ranker : T → option nat) :
  repr s M → spec_ok M →
  ∃ s', rebucket ranker s = Ret s' ∧ length s' = length s ∧ repr s' (omap (spec_rank ranker (length s)) M).
Proof.
  intros H HM. pose proof (spec_rank_ok M ranker (length s) HM) as HM'.
  destruct (redistribute_repr s M true ranker H) as [La Ra].
  destruct (redistribute_repr s M false ranker H) as [Lr Rr]. simpl in La, Lr, Ra, Rr.
  unfold rebucket.
  destruct (build_groups_ok (redistribute ranker (length s) (active <$> s))
    (redistribute ranker (length s) (rejected <$> s))) as (gs & -> & Hl & Hgs).
  { by etrans. }
  { apply Forall_forall. intros m [i Hm]%list_elem_of_lookup. eapply caps_of_spec; [exact HM'|].
    intros k e He. apply (Ra _ _ _ _ Hm) in He. eauto. }
  assert (length gs = length s) as Hl' by (etrans; [exact Hl|exact La]).
  exists gs. split; [done|]. split; [done|]. split.
  - intros i g k e (Ha & _ & _)%Hgs. by apply Ra.
  - intros i g k e (_ & Hr & _)%Hgs. by apply Rr.
  - intros k p. rewrite Hl', lookup_omap. destruct (M !! k) as [q|]; simpl; [|done]. unfold spec_rank.
    destruct (ranker _); simpl; [|done]. case_decide; [|done]. by intros [= <-].
  - intros i g Hi. by apply Hgs in Hi as (_ & _ & ?).
Qed.

(** One mutator refines one step of the map. *)
Lemma set_step_refines n op s h M :
  repr s M → spec_ok M → length s = n → add_ok op M →
  let '(M', h') := spec_step n op (M, h) in
  ∃ s', set_step op (mkWorker s h) = Ret (mkWorker s' h') ∧
        repr s' M' ∧ spec_ok M' ∧ length s' = n.
Proof.
  intros H HM Hn Hadd. destruct op as [[k ep b|k]|k until rh| |ranker]; simpl.
  - case_decide as Hb.
    + destruct (lookup_lt_is_Some_2 s b) as [g Hg]; [lia|]. rewrite Hg.
      destruct (add_repr s M k ep b g H Hg HM Hadd) as (HM' & g' & -> & Hr'). simpl.
      eexists; split; [done|]. rewrite length_insert. done.
    + rewrite (lookup_ge_None_2 s b) by lia. simpl. eauto.
  - rewrite (repr_find _ _ _ H). destruct (M !! k) as [p|] eqn:Hk; simpl.
    + destruct (repr_group _ _ _ _ H Hk) as [g Hg]. rewrite Hg.
      destruct (delete_repr s M k p g H HM Hk Hg) as (g' & -> & Hr'). simpl.
      eexists; split; [done|]. rewrite length_insert. split; [done|]. split; [|done].
      apply (spec_ok_sub M); [done|]. intros k' p' [_ ?]%lookup_delete_Some. eauto.
    + rewrite delete_id by done. eauto.
  - unfold handle_recv_evict. simpl. rewrite (repr_find _ _ _ H). destruct (M !! k) as [p|] eqn:Hk; simpl.
    + destruct (repr_group _ _ _ _ H Hk) as [g Hg]. rewrite Hg.
      destruct (evict_repr s M k p g H HM Hk Hg) as (g' & -> & Hr'). simpl.
      eexists; split; [done|]. rewrite length_insert. auto using spec_move_ok.
    + unfold spec_move. rewrite Hk. eauto.
  - destruct h as [|e0 h0]; [simpl; eauto|]. unfold handle_eviction. cbn [w_heap w_set].
    destruct (heap_pop (e0 :: h0)) as [[e h']|] eqn:Hp.
    2:{ simpl in Hp. destruct (heap_pop h0) as [[? ?]|]; [|done]. by destruct (unevict_cmp _ _). }
    rewrite (repr_find _ _ _ H). destruct (M !! ue_key e) as [p|] eqn:Hk; simpl.
    + destruct (repr_group _ _ _ _ H Hk) as [g Hg]. rewrite Hg.
      destruct (unevict_repr s M (ue_key e) p g H HM Hk Hg) as (g' & o & -> & Hr'). simpl.
      eexists; split; [done|]. rewrite length_insert. auto using spec_move_ok.
    + unfold spec_move. rewrite Hk. eauto.
  - destruct (rebucket_repr s M ranker H HM) as (s' & -> & Hl & Hr). simpl. rewrite <-Hn.
    eexists; split; [done|]. auto using spec_rank_ok.
Qed.

Lemma repr_empty n : repr (new_empty n) ∅.
Proof.
  unfold new_empty. split.
  - intros i g k e [-> _]%lookup_replicate. simpl. rewrite im_iter_empty, lookup_empty.
    split; [by intros ?%elem_of_nil|done].
  - intros i g k e [-> _]%lookup_replicate. simpl. rewrite im_iter_empty, lookup_empty.
    split; [by intros ?%elem_of_nil|done].
  - intros k p. by rewrite lookup_empty.
  - intros i g [-> _]%lookup_replicate. apply build_uniform. simpl. intros k e.
    rewrite im_iter_empty. by intros ?%elem_of_nil.
Qed.

(** C39. Any sequence of endpoint additions (under a key that is free or in the
    same bucket, of a [u32] capacity, to fewer than [2^32] endpoints), deletions,
    evictions, timer expiries and rebucketings runs without a panic from the empty set, and leaves a set that represents the map
    the same steps give: every key is in exactly the bucket and pool of the map,
    nothing else is in the set, the pending evictions agree, and each group's
    incrementally maintained sampler is the one a rebuild would give. *)
Theorem endpoint_set_refines n ops :
  adds_ok n ops (∅, []) →
  ∃ s, set_run ops (mkWorker (new_empty n) []) = Ret (mkWorker s (spec_run n ops (∅, [])).2) ∧
       repr s (spec_run n ops (∅, [])).1 ∧ length s = n.
Proof.
  intros Hops.
  enough (∀ s h M, repr s M → spec_ok M → length s = n → adds_ok n ops (M, h) →
    ∃ s', set_run ops (mkWorker s h) = Ret (mkWorker s' (spec_run n ops (M, h)).2) ∧
      repr s' (spec_run n ops (M, h)).1 ∧ length s' = n) as Hgen.
  { apply Hgen; [apply repr_empty| |apply length_replicate|done].
    split; [by rewrite map_size_empty|]. intros k p. by rewrite lookup_empty. }
  clear Hops. induction ops as [|op ops IH]; intros s h M H HM Hn Hok; simpl; [eauto|].
  destruct Hok as [Hadd Hok]. pose proof (set_step_refines n op s h M H HM Hn Hadd) as Hst.
  destruct (spec_step n op (M, h)) as [M' h'] eqn:E. destruct Hst as (s' & -> & Hr & HM' & Hn').
  simpl in *. rewrite E. apply (IH s' h' M'); eauto.
Qed.
End refinement.

(** ** Locality *)

Lemma rank_loop_prefix src wl scopes :
  let k := rank_loop src wl scopes in
  k ≤ length scopes ∧ Forall (λ sc, scope_matches src wl sc = true) (take k scopes) ∧
  ∀ sc, scopes !! k = Some sc → scope_matches src wl sc = false.
Proof.
  induction scopes as [|sc scopes (Hle & Hall & Hnext)]; simpl; [by split_and!|].
  destruct (scope_matches src wl sc) eqn:E; simpl; split_and!; try lia; try done.
  - by constructor.
  - by intros ? [= <-].
Qed.

(** A bucket is below the number of buckets the set is created with. *)
Lemma bucket_for_lt r wl b : bucket_for r wl = Some b → b < priority_levels r.
Proof.
  destruct r as [[l|] [src|]]; unfold bucket_for, priority_levels, rank; simpl;
    [|intros [= <-]; try destruct (uses_buckets _); lia..].
  destruct (uses_buckets l); simpl; [|intros [= <-]; lia].
  destruct (_ && _); simpl; [done|]. intros [= <-]. lia.
Qed.

(** The locality bucket of a workload is the number of routing preferences
    minus the length of the longest prefix of preferences that match; under
    [Strict] anything but a full match is dropped; without a source workload or
    in the modes that do not bucket everything is in bucket 0; and a bucket is
    always below the number of buckets the set is created with. *)
Theorem bucket_for_spec r wl :
  match lb r, source r with
  | Some l, Some src =>
      let prefs := routing_preferences l in
      if uses_buckets l then
        ∃ k, k ≤ length prefs ∧
          Forall (λ sc, scope_matches src wl sc = true) (take k prefs) ∧
          (∀ sc, prefs !! k = Some sc → scope_matches src wl sc = false) ∧
          bucket_for r wl =
            if decide (mode l = Strict ∧ k < length prefs) then None else Some (length prefs - k)
      else bucket_for r wl = Some 0
  | _, _ => bucket_for r wl = Some 0
  end ∧
  ∀ b, bucket_for r wl = Some b → b < priority_levels r.
Proof.
  split; [|apply bucket_for_lt].
  destruct r as [[l|] [src|]]; unfold bucket_for, rank; simpl; [|done..].
  destruct (uses_buckets l); simpl; [|done].
  destruct (rank_loop_prefix src wl (routing_preferences l)) as (Hle & Hall & Hnext).
  set (k := rank_loop _ _ _) in *.
  assert (bool_decide (mode l = Strict) && negb (k =? length (routing_preferences l))%nat = true ↔
    mode l = Strict ∧ k < length (routing_preferences l)) as Hd.
  { rewrite andb_true_iff, bool_decide_eq_true, negb_true_iff, Nat.eqb_neq. intuition lia. }
  exists k. do 3 (split; [done|]). destruct (_ && _).
  - rewrite decide_True; [done|]. by apply Hd.
  - rewrite decide_False; [done|]. by intros Hs%Hd.
Qed.

(** ** Selection *)

Section select_facts.
Context {IM : IndexMap} {RC : RandCrate} {Info : Type}.
Context (score_cmp : Info → Info → comparison) (find_uid : string → option Workload).
Context (pick_weighted : WeightedIndex → nat * nat) (pick_uniform : nat → nat * nat).
Local Abbreviation Set_ := (EndpointSet Endpoint Info).
Implicit Types (s : Set_) (c : Candidate (Info := Info)).

(** A uniform pick is in its range; a weighted pick is an index of a positive
    weight. *)
Definition picks_ok : Prop :=
  (∀ n, 0 < n → (pick_uniform n).1 < n ∧ (pick_uniform n).2 < n) ∧
  (∀ ws w, weighted_new ws = Some w →
    Forall (λ i, ∃ x, ws !! i = Some x ∧ (0 < x)%Z) [(pick_weighted w).1; (pick_weighted w).2]).

Definition samplers_ok s : Prop := Forall (λ g, build_sampler (active g) = Ret (sampler g)) s.

(** A candidate of an undrained bucket's active endpoints, or of its rejected
    ones when it has no active ones. *)
Definition usable s (target_port svc_port : Z) c : Prop :=
  ∃ g ewi, g ∈ s ∧ is_drained (sampler g) = false ∧ ewi ∈ im_values (index_of g) ∧
    candidate_of find_uid target_port svc_port ewi = Some c.

(** A candidate at an address, in any bucket and pool. *)
Definition addressed s (o : SocketAddr) c : Prop :=
  ∃ g ewi, g ∈ s ∧ (ewi ∈ im_values (active g) ∨ ewi ∈ im_values (rejected g)) ∧
    contains_target_port (ewi_endpoint ewi) (port o) = true ∧
    ip o ∈ wl_ips (c_workload c) ∧ find_uid (workload_uid (ewi_endpoint ewi)) = Some (c_workload c) ∧
    c_endpoint c = ewi_endpoint ewi ∧ c_info c = ewi_info ewi.

(** What selection relies on holds of every set the mutators build. *)
Lemma repr_samplers_ok s M : repr s M → samplers_ok s.
Proof. intros H. apply Forall_forall. intros g [i Hi]%list_elem_of_lookup. by eapply repr_sampler. Qed.

Lemma max_by_in {A} (cmp : A → A → comparison) l x : max_by cmp l = Some x → x ∈ l.
Proof.
  induction l as [|y l IH] using rev_ind; unfold max_by in *; [done|].
  rewrite foldl_app. simpl. rewrite elem_of_app, list_elem_of_singleton.
  destruct (foldl _ None l) as [b|]; [destruct (cmp b y)|]; intros [= ->]; auto.
Qed.

Lemma max_by_None {A} (cmp : A → A → comparison) l : max_by cmp l = None → l = [].
Proof.
  induction l as [|y l IH] using rev_ind; unfold max_by in *; [done|].
  rewrite foldl_app. simpl. destruct (foldl _ None l) as [b|]; [by destruct (cmp b y)|done].
Qed.

Lemma select_fallback_usable svc_port tp s :
  match select_fallback score_cmp find_uid svc_port tp s with
  | Some c => usable s tp svc_port c
  | None => ∀ c, ¬ usable s tp svc_port c
  end.
Proof.
  unfold select_fallback. destruct (find_map _ s) as [c|] eqn:E.
  - apply find_map_Some in E as (l1 & g & l2 & -> & Hc & _). unfold fallback_bucket in Hc.
    destruct (is_drained (sampler g)) eqn:Hd; [done|]. apply max_by_in, list_elem_of_omap in Hc as (ewi & Hin & Hc).
    exists g, ewi. split_and!; try done. apply elem_of_app. right. by left.
  - intros c (g & ewi & Hg & Hd & Hin & Hc). apply find_map_None in E. rewrite Forall_forall in E.
    specialize (E g Hg). unfold fallback_bucket in E. rewrite Hd in E. apply max_by_None in E.
    assert (c ∈ omap (candidate_of find_uid tp svc_port) (im_values (index_of g))) as Hm
      by (apply list_elem_of_omap; eauto).
    rewrite E in Hm. by apply elem_of_nil in Hm.
Qed.

Lemma best_bucket_in s : s ≠ [] → ∃ g, best_bucket s = Ret g ∧ g ∈ s.
Proof.
  intros Hs. unfold best_bucket. destruct (list_find_by _ s) as [g|] eqn:E; simpl.
  - apply list_find_by_Some in E as (l1 & l2 & -> & _ & _). exists g. split; [done|].
    apply elem_of_app. right. by left.
  - destruct s as [|g s]; [done|]. exists g. split; [done|by left].
Qed.

(** Where the best bucket has no endpoint to try, none is active in any, and
    none is rejected in the first. *)
Lemma best_bucket_empty s g :
  best_bucket s = Ret g → im_values (index_of g) = [] →
  ∃ g0 gs, s = g0 :: gs ∧ Forall (λ g, im_iter (active g) = []) s ∧ im_iter (rejected g0) = [].
Proof.
  unfold best_bucket, index_of. destruct (list_find_by _ s) as [g'|] eqn:E; simpl.
  - apply list_find_by_Some in E as (_ & _ & _ & Hg & _). intros [= ->]. rewrite Hg. intros Hnil%fmap_nil_inv.
    apply im_is_empty_true in Hnil. by rewrite Hnil in Hg.
  - destruct s as [|g0 gs]; [done|]. simpl. intros [= ->] Hnil. exists g, gs. split; [done|].
    apply list_find_by_None in E. split.
    + eapply Forall_impl; [exact E|]. intros x Hx%negb_false_iff. by apply im_is_empty_true.
    + apply Forall_cons in E as [Hg _]. rewrite Hg in Hnil. by apply fmap_nil_inv in Hnil.
Qed.

(** The two picks of a bucket that is sampled at all are in range. *)
Lemma picks_in_range (g : EndpointGroup Endpoint Info) :
  picks_ok → build_sampler (active g) = Ret (sampler g) → im_iter (index_of g) ≠ [] →
  match sampler_of g with
  | Some Drained => True
  | Some (Weighted w) => is_Some (im_iter (index_of g) !! (pick_weighted w).1) ∧
                         is_Some (im_iter (index_of g) !! (pick_weighted w).2)
  | Some Uniform | None =>
      let n := length (im_iter (index_of g)) in
      is_Some (im_iter (index_of g) !! (pick_uniform n).1) ∧ is_Some (im_iter (index_of g) !! (pick_uniform n).2)
  end ∧ is_drained (sampler g) = match sampler_of g with Some Drained => true | _ => false end.
Proof.
  intros [Hu Hw] Hs Hne. set (l := im_iter (index_of g)) in *.
  assert (is_Some (l !! (pick_uniform (length l)).1) ∧ is_Some (l !! (pick_uniform (length l)).2)) as Huni.
  { rewrite !lookup_lt_is_Some. apply Hu. destruct l; [done|simpl; lia]. }
  unfold sampler_of, index_of in *. unfold build_sampler in Hs.
  destruct (im_is_empty (active g)) eqn:E; simpl in *.
  - injection Hs as <-. done.
  - destruct (sampler g) as [|w|] eqn:Esm; [done| |done]. split; [|done].
    destruct (existsb _ _); simpl in Hs; [|done]. destruct (forallb _ _); [done|].
    destruct (weighted_new _) as [w'|] eqn:Ew; [|done]. simpl in Hs. injection Hs as ->.
    apply Hw in Ew. rewrite !Forall_cons in Ew. destruct Ew as ((x & Hx & _) & (y & Hy & _) & _).
    unfold im_values in *. rewrite !list_lookup_fmap, !fmap_Some in Hx, Hy.
    destruct Hx as (? & (? & Hx & _)%fmap_Some & _), Hy as (? & (? & Hy & _)%fmap_Some & _).
    subst l. by rewrite Hx, Hy.
Qed.

Lemma select_p2c_usable svc_port tp s :
  picks_ok → s ≠ [] → samplers_ok s →
  ∃ r, select_p2c score_cmp find_uid pick_weighted pick_uniform svc_port tp s = Ret r ∧
       ∀ c, r = Some c → usable s tp svc_port c.
Proof.
  intros Hp Hs Hok. destruct (best_bucket_in s Hs) as (g & Hb & Hg). unfold select_p2c. rewrite Hb. simpl.
  assert (∀ a b, is_drained (sampler g) = false →
    is_Some (im_iter (index_of g) !! a) ∧ is_Some (im_iter (index_of g) !! b) →
    ∃ r, (ea ← expect (im_iter (index_of g) !! a); eb ← expect (im_iter (index_of g) !! b);
          Ret (max_by (candidate_cmp score_cmp) (omap (candidate_of find_uid tp svc_port) [ea.2; eb.2]))) = Ret r ∧
         ∀ c, r = Some c → usable s tp svc_port c) as Hend.
  { intros a b Hd [[ea Ha] [eb Hb']]. rewrite Ha, Hb'. eexists; split; [done|].
    intros c (ewi & Hin & Hc)%max_by_in%list_elem_of_omap. exists g, ewi. split_and!; try done.
    unfold im_values. rewrite !elem_of_cons in Hin.
    destruct Hin as [->|[->|?%elem_of_nil]]; [..|done]; apply list_elem_of_fmap_2; by eapply list_elem_of_lookup_2. }
  unfold samplers_ok in Hok. rewrite Forall_forall in Hok. specialize (Hok g Hg).
  destruct (im_iter (index_of g)) as [|x l] eqn:El; [by eexists|]. rewrite <-El in *.
  destruct (picks_in_range g Hp Hok) as [Hr Hd]; [by rewrite El|].
  destruct (sampler_of g) as [[|w|]|]; simpl in Hr.
  - destruct (pick_uniform _) as [a b]. by apply Hend.
  - destruct (pick_weighted w) as [a b]. by apply Hend.
  - by eexists.
  - destruct (pick_uniform _) as [a b]. by apply Hend.
Qed.

Lemma select_override_addressed o s :
  match select_override find_uid o s with
  | Some c => addressed s o c
  | None => ∀ c, ¬ addressed s o c
  end.
Proof.
  unfold select_override, find_endpoint. set (l := _ ++ _).
  assert (∀ ewi, ewi ∈ l ↔ ∃ g, g ∈ s ∧ (ewi ∈ im_values (active g) ∨ ewi ∈ im_values (rejected g))) as Hl.
  { intros ewi. unfold l. rewrite elem_of_app, !list_elem_of_bind. naive_solver. }
  destruct (find_map _ l) as [c|] eqn:E.
  - apply find_map_Some in E as (l1 & ewi & l2 & El & Hc & _).
    destruct (proj1 (Hl ewi)) as (g & Hg & Hin); [rewrite El; apply elem_of_app; right; by left|].
    exists g, ewi. destruct (contains_target_port _ _) eqn:Ep; simpl in Hc; [|done].
    destruct (find_uid _) as [wl|] eqn:Ew; simpl in Hc; [|done]. case_bool_decide; simpl in Hc; [|done].
    injection Hc as <-. by split_and!.
  - intros c (g & ewi & Hg & Hin & Hp & Hip & Hw & _). apply find_map_None in E. rewrite Forall_forall in E.
    specialize (E ewi). rewrite Hp, Hw in E. simpl in E. rewrite bool_decide_true in E by done.
    discriminate E. apply Hl. eauto.
Qed.

Lemma select_endpoint_ok ports svc_port target_port override s :
  picks_ok → s ≠ [] → samplers_ok s → ports !! svc_port = Some target_port →
  ∃ r, select_endpoint score_cmp find_uid pick_weighted pick_uniform ports svc_port override s = Ret r ∧
    match override, r with
    | Some o, Some c => addressed s o c
    | Some o, None => ∀ c, ¬ addressed s o c
    | None, Some c => usable s target_port svc_port c ∧ wl_capacity (c_workload c) ≠ 0%Z ∧
                      find_uid (workload_uid (c_endpoint c)) = Some (c_workload c)
    | None, None => ∀ c, ¬ usable s target_port svc_port c
    end.
Proof.
  intros Hp Hs Hok Hport. unfold select_endpoint. rewrite Hport. destruct override as [o|].
  { eexists; split; [done|]. pose proof (select_override_addressed o s) as Ho.
    by destruct (select_override _ o s). }
  assert (∀ c, usable s target_port svc_port c → wl_capacity (c_workload c) ≠ 0%Z ∧
    find_uid (workload_uid (c_endpoint c)) = Some (c_workload c)) as Hviable.
  { intros c (g & ewi & _ & _ & _ & Hc). unfold candidate_of, viable in Hc.
    destruct (find_uid _) as [wl|] eqn:Ew; simpl in Hc; [|done].
    destruct (_ && _); simpl in Hc; [done|]. destruct (wl_capacity wl =? 0)%Z eqn:E0; simpl in Hc; [done|].
    injection Hc as <-. simpl. to_prop. done. }
  destruct (select_p2c_usable svc_port target_port s Hp Hs Hok) as ([c|] & -> & Hc); simpl.
  - eexists; split; [done|]. split; [by apply Hc|]. by apply Hviable, Hc.
  - eexists; split; [done|]. pose proof (select_fallback_usable svc_port target_port s) as Hf.
    destruct (select_fallback _ _ _ _ s); [|done]. split; [done|]. by apply Hviable.
Qed.

(** Selecting an endpoint never panics and is exact. Without an override
    it returns a candidate of a bucket that is not drained (an evicted endpoint
    only where the bucket has no active one) whose workload is known and has
    capacity, and returns none only when there is no such candidate, whatever
    the random picks. With an override it returns an endpoint at that address,
    evicted or not, and none only when no endpoint has it. *)
Theorem select_endpoint_exact ports svc_port target_port override s :
  picks_ok → s ≠ [] → samplers_ok s → ports !! svc_port = Some target_port →
  ∃ r, select_endpoint score_cmp find_uid pick_weighted pick_uniform ports svc_port override s = Ret r ∧
    match override, r with
    | Some o, Some c => addressed s o c
    | Some o, None => ∀ c, ¬ addressed s o c
    | None, Some c => usable s target_port svc_port c ∧ wl_capacity (c_workload c) ≠ 0%Z ∧
                      find_uid (workload_uid (c_endpoint c)) = Some (c_workload c)
    | None, None => ∀ c, ¬ usable s target_port svc_port c
    end.
Proof. apply select_endpoint_ok. Qed.
End select_facts.
