(* ===== verification/Discovery.v ===== *)
(** * The discovery store

    [store/discovery.rs]: the workload and service stores, the xDS and local
    updates that change them, and the endpoint sets of services, which the
    store edits through [types/loadbalancer.rs].

    A [Service] holds its endpoint set behind shared pointers: cloning the
    service or its set shares it. The store therefore keeps the sets in a heap,
    [sets], and a service names its set by a handle; each set carries the state
    of its eviction worker. *)
From stdpp Require Import base gmap strings list.
From Stdlib Require Import ZArith Ascii.
From S2P Require Import Prelude RustStd XdsClient AgentTypes DiscoveryTypes LoadBalancer.

Local Open Scope string_scope.
Local Open Scope list_scope.

(** ** Workloads *)

Inductive WorkloadByAddr :=
| Single (w : Workload)
| Many (ws : list Workload).

(** [WorkloadByAddr::insert]. *)
Definition wba_insert (w : Workload) (e : WorkloadByAddr) : WorkloadByAddr :=
  match e with Single x => Many [x; w] | Many v => Many (v ++ [w]) end.

(** [WorkloadByAddr::remove_uid], with the entry left. *)
Definition wba_remove_uid (uid : string) (e : WorkloadByAddr) : WorkloadByAddr * bool :=
  match e with
  | Single wl => (Single wl, bool_decide (wl_uid wl = uid))
  | Many ws =>
      let ws' := filter (λ w, wl_uid w ≠ uid) ws in
      match ws' with
      | [] => (Many ws', true)
      | [wl] => (Single wl, false)
      | _ => (Many ws', false)
      end
  end.

(** The ranking key of [WorkloadByAddr::get]. *)
Definition wba_rank (w : Workload) : nat :=
  let is_pod := Str.contains "//Pod/" (wl_uid w) in
  let is_hbone := bool_decide (wl_protocol w = IPHBONE) in
  match is_pod, is_hbone with
  | true, true => 3
  | true, false => 2
  | false, true => 1
  | false, false => 0
  end.

Definition wba_get (e : WorkloadByAddr) : outcome Workload :=
  match e with
  | Single w => Ret w
  | Many ws => expect (max_by (λ a b, Nat.compare (wba_rank a) (wba_rank b)) ws)
  end.

Record WorkloadStore := mkWorkloadStore {
  by_service : gmap NamespacedHostname (gset string);
  by_addr : gmap NetworkAddress WorkloadByAddr;
  by_uid : gmap string Workload;
  insert_epoch : nat;            (* insert_notifier *)
}.

(** The keys [by_addr] files a workload under. *)
Definition wl_addrs (w : Workload) : list NetworkAddress :=
  if bool_decide (wl_network_mode w = NMHostNetwork) then []
  else network_addr (wl_network w) <$> wl_ips w.

Definition addr_add (w : Workload) (m : gmap NetworkAddress WorkloadByAddr) (k : NetworkAddress)
    : gmap NetworkAddress WorkloadByAddr :=
  <[k := match m !! k with Some ws => wba_insert w ws | None => Single w end]> m.

Definition addr_remove (uid : string) (m : gmap NetworkAddress WorkloadByAddr) (k : NetworkAddress)
    : gmap NetworkAddress WorkloadByAddr :=
  match m !! k with
  | None => m
  | Some e => let '(e', none_left) := wba_remove_uid uid e in
              if none_left then delete k m else <[k := e']> m
  end.

Definition service_add (uid : string) (m : gmap NamespacedHostname (gset string)) (k : NamespacedHostname)
    : gmap NamespacedHostname (gset string) :=
  <[k := {[uid]} ∪ default ∅ (m !! k)]> m.

Definition service_remove (uid : string) (m : gmap NamespacedHostname (gset string)) (k : NamespacedHostname)
    : gmap NamespacedHostname (gset string) :=
  match m !! k with
  | None => m
  | Some X => let X' := X ∖ {[uid]} in
              if bool_decide (X' = ∅) then delete k m else <[k := X']> m
  end.

Definition find_uid (st : WorkloadStore) (uid : string) : option Workload := by_uid st !! uid.

Definition find_address (st : WorkloadStore) (addr : NetworkAddress) : outcome (option Workload) :=
  match by_addr st !! addr with
  | None => Ret None
  | Some e => w ← wba_get e; Ret (Some w)
  end.

Section workloads.
Context {HO : HashOrder}.

(** [WorkloadStore::remove]. *)
Definition ws_remove (uid : string) (st : WorkloadStore) : WorkloadStore * option Workload :=
  match by_uid st !! uid with
  | None => (st, None)
  | Some prev =>
      (mkWorkloadStore
         (foldl (service_remove uid) (by_service st) (map_iter (wl_services prev)).*1)
         (foldl (addr_remove uid) (by_addr st) (wl_addrs prev))
         (delete uid (by_uid st))
         (insert_epoch st), Some prev)
  end.

(** [WorkloadStore::insert]. *)
Definition ws_insert (w : Workload) (st : WorkloadStore) : WorkloadStore :=
  let st := (ws_remove (wl_uid w) st).1 in
  mkWorkloadStore
    (foldl (service_add (wl_uid w)) (by_service st) (map_iter (wl_services w)).*1)
    (foldl (addr_add w) (by_addr st) (wl_addrs w))
    (<[wl_uid w := w]> (by_uid st))
    (S (insert_epoch st)).

Definition iter_by_service (st : WorkloadStore) (svc : NamespacedHostname) : list Workload :=
  match by_service st !! svc with
  | None => []
  | Some uids => omap (λ uid, by_uid st !! uid) (set_iter uids)
  end.

Definition find_by_name (st : WorkloadStore) (name namespace : string) : list Workload :=
  filter (λ w, wl_name w = name ∧ wl_namespace w = namespace) (map_iter (by_uid st)).*2.
End workloads.

(** ** Services *)

Record ServiceStore := mkServiceStore {
  staged_services : gmap NamespacedHostname (gmap string Endpoint);
  by_vip : gmap NetworkAddress Service;
  by_host : gmap string (list Service);
}.

Definition get_by_namespaced_host (st : ServiceStore) (host : NamespacedHostname) : option Service :=
  match by_host st !! nh_hostname host with
  | None => None
  | Some services => list_find_by (λ s, bool_decide (svc_namespace s = nh_namespace host)) services
  end.

Definition get_by_vip (st : ServiceStore) (vip : NetworkAddress) : option Service := by_vip st !! vip.

(** The loop of [ServiceStore::remove]: the first service of the namespace and
    the others. *)
Fixpoint take_namespace (ns : string) (services : list Service) : option (Service * list Service) :=
  match services with
  | [] => None
  | s :: rest =>
      if bool_decide (svc_namespace s = ns) then Some (s, rest)
      else match take_namespace ns rest with
           | Some (prev, rest') => Some (prev, s :: rest')
           | None => None
           end
  end.

Definition svc_remove (nh : NamespacedHostname) (st : ServiceStore) : ServiceStore * bool :=
  match by_host st !! nh_hostname nh with
  | None => (st, false)
  | Some services =>
      match take_namespace (nh_namespace nh) services with
      | None => (st, false)
      | Some (prev, rest) =>
          (mkServiceStore (delete nh (staged_services st))
             (foldl (λ m addr, delete addr m) (by_vip st) (svc_vips prev))
             (match rest with
              | [] => delete (nh_hostname nh) (by_host st)
              | _ => <[nh_hostname nh := rest]> (by_host st)
              end), true)
      end
  end.

(** Replaces the service of the same namespace, or appends. *)
Fixpoint put_service (s : Service) (services : list Service) : list Service :=
  match services with
  | [] => [s]
  | x :: rest => if bool_decide (svc_namespace x = svc_namespace s) then s :: rest else x :: put_service s rest
  end.

Definition svc_insert (s : Service) (st : ServiceStore) : ServiceStore :=
  let st := (svc_remove (namespaced_hostname_of s) st).1 in
  mkServiceStore (staged_services st)
    (foldl (λ m vip, <[vip := s]> m) (by_vip st) (svc_vips s))
    (<[svc_hostname s := put_service s (default [] (by_host st !! svc_hostname s))]> (by_host st)).

(** ** The store *)

Section store.
Context {HO : HashOrder} {IM : IndexMap} {RC : RandCrate} {Info Health : Type}.
(** [EndpointInfo::default]. *)
Context (info_default : Info).

Record DStore := mkDStore {
  workloads : WorkloadStore;
  services : ServiceStore;
  self_workload : option Workload;
  sets : gmap nat (Worker Endpoint Info Health);
  next_set : nat;
}.

Definition d_new : DStore := mkDStore (mkWorkloadStore ∅ ∅ ∅ 0) (mkServiceStore ∅ ∅ ∅) None ∅ 0.

Definition set_workloads w (s : DStore) := mkDStore w (services s) (self_workload s) (sets s) (next_set s).
Definition set_services v (s : DStore) := mkDStore (workloads s) v (self_workload s) (sets s) (next_set s).
Definition set_sets h (s : DStore) := mkDStore (workloads s) (services s) (self_workload s) h (next_set s).
Definition set_self o (s : DStore) := mkDStore (workloads s) (services s) o (sets s) (next_set s).

(** A mutator of the set a handle names; a handle never dangles. *)
Definition edit_set (l : nat) (f : EndpointSet Endpoint Info → outcome (EndpointSet Endpoint Info))
    (s : DStore) : outcome DStore :=
  match sets s !! l with
  | None => Panic
  | Some w => es ← f (w_set w); Ret (set_sets (<[l := mkWorker es (w_heap w)]> (sets s)) s)
  end.

(** [EndpointSet::new_empty]: a set of its own. *)
Definition alloc_set (levels : nat) (s : DStore) : DStore * nat :=
  (mkDStore (workloads s) (services s) (self_workload s)
     (<[next_set s := mkWorker (new_empty levels) []]> (sets s)) (S (next_set s)), next_set s).

(** [ServiceStore::insert_endpoint]. *)
Definition d_insert_endpoint (service_name : NamespacedHostname) (ep : Endpoint) (dest : Workload)
    (locality_source : option Workload) (s : DStore) : outcome DStore :=
  match get_by_namespaced_host (services s) service_name with
  | Some svc =>
      if negb (should_include_endpoint svc (status ep)) then Ret s
      else edit_set (svc_endpoints svc)
             (insert_endpoint ep info_default dest (mkRanker (svc_load_balancer svc) locality_source)) s
  | None =>
      let st := services s in
      Ret (set_services (mkServiceStore
             (<[service_name := <[workload_uid ep := ep]> (default ∅ (staged_services st !! service_name))]>
                (staged_services st)) (by_vip st) (by_host st)) s)
  end.

(** [ServiceStore::insert_endpoint_for_services]: stops at the first name that
    does not parse. *)
Fixpoint insert_endpoints (w : Workload) (svcs : list (string * list XdsPort)) (source : option Workload)
    (s : DStore) : outcome (DStore * result () ProtoError) :=
  match svcs with
  | [] => Ret (s, Ok ())
  | (host, ports) :: rest =>
      match nh_from_str host with
      | Err e => Ret (s, Err e)
      | Ok nh =>
          s' ← d_insert_endpoint nh (mkEndpoint (wl_uid w) (ports_from_xds ports) (wl_status w)) w source s;
          insert_endpoints w rest source s'
      end
  end.

Definition insert_endpoint_for_services (w : Workload) (svcs : gmap string (list XdsPort))
    (source : option Workload) (s : DStore) : outcome (DStore * result () ProtoError) :=
  insert_endpoints w (map_iter svcs) source s.

(** [ServiceStore::remove_endpoint]: unstages the workload, then deletes its
    endpoint from its services. *)
Definition unstage (uid : string) (m : gmap NamespacedHostname (gmap string Endpoint)) (svc : NamespacedHostname)
    : gmap NamespacedHostname (gmap string Endpoint) :=
  let e := delete uid (default ∅ (m !! svc)) in
  if bool_decide (e = ∅) then delete svc m else <[svc := e]> m.

Definition remove_endpoint_of (uid : string) (svc : NamespacedHostname) (s : DStore) : outcome DStore :=
  match get_by_namespaced_host (services s) svc with
  | None => Ret s
  | Some sv => edit_set (svc_endpoints sv) (event (Delete uid)) s
  end.

Definition remove_endpoint (prev : Workload) (s : DStore) : outcome DStore :=
  let st := services s in
  let keys := (map_iter (wl_services prev)).*1 in
  let s := set_services (mkServiceStore (foldl (unstage (wl_uid prev)) (staged_services st) keys)
                           (by_vip st) (by_host st)) s in
  fold_out (remove_endpoint_of (wl_uid prev)) (set_iter (list_to_set keys : gset NamespacedHostname)) s.

(** [Store::remove_internal]. *)
Definition remove_internal (xds_name : string) (for_workload_insert : bool) (s : DStore) : outcome DStore :=
  match ws_remove xds_name (workloads s) with
  | (ws, Some prev) => remove_endpoint prev (set_workloads ws s)
  | (_, None) =>
      if for_workload_insert then Ret s
      else match nh_from_str xds_name with
           | Err _ => Ret s
           | Ok name =>
               if Str.contains_char "/"%char (nh_hostname name) then Ret s
               else Ret (set_services (svc_remove name (services s)).1 s)
           end
  end.

Definition d_remove (xds_name : string) := remove_internal xds_name false.

(** What [insert_workload] and [sync_local] do with a converted workload. *)
Definition put_workload (w : Workload) (svcs : gmap string (list XdsPort)) (s : DStore)
    : outcome (DStore * result () ProtoError) :=
  s ← remove_internal (wl_uid w) true s;
  let s := set_workloads (ws_insert w (workloads s)) s in
  insert_endpoint_for_services w svcs (self_workload s) s.

Definition insert_workload (w : XdsWorkload) (s : DStore) : outcome (DStore * result () ProtoError) :=
  match try_from_xds_with_services w with
  | Err e => Ret (s, Err e)
  | Ok (workload, svcs) => put_workload workload svcs s
  end.

(** The rebuild loop of [insert_service_internal], over the new set. *)
Definition service_endpoint (key : NamespacedHostname) (svc : Service) (source : option Workload)
    (l : nat) (wl : Workload) (s : DStore) : outcome DStore :=
  match wl_services wl !! key with
  | None => Ret s
  | Some ports =>
      if negb (should_include_endpoint svc (wl_status wl)) then Ret s
      else edit_set l (insert_endpoint (mkEndpoint (wl_uid wl) ports (wl_status wl)) info_default wl
                         (mkRanker (svc_load_balancer svc) source)) s
  end.

Definition insert_service_internal (service : Service) (s : DStore) : outcome DStore :=
  let key := namespaced_hostname_of service in
  let prev := get_by_namespaced_host (services s) key in
  let had_staged := bool_decide (is_Some (staged_services (services s) !! key)) in
  let s := set_services (mkServiceStore (delete key (staged_services (services s)))
                           (by_vip (services s)) (by_host (services s))) s in
  match prev with
  | Some p =>
      if bool_decide (svc_load_balancer p = svc_load_balancer service) && negb had_staged
      then Ret (set_services (svc_insert (with_endpoints (svc_endpoints p) service) (services s)) s)
      else
        let ranker := mkRanker (svc_load_balancer service) (self_workload s) in
        let '(s, l) := alloc_set (priority_levels ranker) s in
        s ← fold_out (service_endpoint key service (self_workload s) l) (iter_by_service (workloads s) key) s;
        Ret (set_services (svc_insert (with_endpoints l service) (services s)) s)
  | None =>
      let ranker := mkRanker (svc_load_balancer service) (self_workload s) in
      let '(s, l) := alloc_set (priority_levels ranker) s in
      s ← fold_out (service_endpoint key service (self_workload s) l) (iter_by_service (workloads s) key) s;
      Ret (set_services (svc_insert (with_endpoints l service) (services s)) s)
  end.

Definition insert_service (service : XdsService) (s : DStore) : outcome (DStore * result () ProtoError) :=
  match service_from_xds service with
  | Err e => Ret (s, Err e)
  | Ok svc => s' ← insert_service_internal svc s; Ret (s', Ok ())
  end.

(** [Store::rebucket_all]. *)
Definition rebucket_service (source : Workload) (svc : Service) (s : DStore) : outcome DStore :=
  edit_set (svc_endpoints svc)
    (rebucket (λ ep : Endpoint,
       wl ← find_uid (workloads s) (workload_uid ep);
       bucket_for (mkRanker (svc_load_balancer svc) (Some source)) wl)) s.

Definition rebucket_all (s : DStore) : outcome DStore :=
  match self_workload s with
  | None => Ret s
  | Some source => fold_out (rebucket_service source) ((map_iter (by_host (services s))).*2 ≫= id) s
  end.

(** The self workload resolves: the first call of [SelfWorkload::set] wins, and
    the endpoints are bucketed again. *)
Definition resolve_self (w : Workload) (s : DStore) : outcome DStore :=
  rebucket_all (set_self (option_or (self_workload s) (Some w)) s).

(** *** xDS updates *)

Inductive XdsAddress :=
| XAWorkload (w : XdsWorkload)
| XAService (s : XdsService).

Inductive AddressError :=
| AEProto (e : ProtoError)
| AEUnknownType.

Definition proto_result (r : result () ProtoError) : result () AddressError :=
  match r with Ok u => Ok u | Err e => Err (AEProto e) end.

Definition insert_address (a : option XdsAddress) (s : DStore) : outcome (DStore * result () AddressError) :=
  match a with
  | Some (XAWorkload w) => '(s, r) ← insert_workload w s; Ret (s, proto_result r)
  | Some (XAService v) => '(s, r) ← insert_service v s; Ret (s, proto_result r)
  | None => Ret (s, Err AEUnknownType)
  end.

(** [Handler<XdsAddress> for StoreUpdater]; [display] prints an error. *)
Definition handle_address (display : AddressError → string) (u : XdsUpdate (option XdsAddress)) (s : DStore)
    : outcome (DStore * result () string) :=
  match u with
  | XUpdate _ a =>
      '(s, r) ← insert_address a s;
      Ret (s, match r with Ok _ => Ok () | Err e => Err (display e) end)
  | XRemove name => s ← d_remove name s; Ret (s, Ok ())
  end.

Definition d_handle (display : AddressError → string) (us : list (XdsUpdate (option XdsAddress))) (s : DStore)
    : outcome (DStore * result () (list RejectedConfig)) :=
  handle_single_resource (handle_address display) us s.

(** *** Local configuration *)

Record LocalWorkload := mkLocalWorkload {
  lw_workload : Workload;
  lw_services : gmap string (gmap Z Z);
}.

Record DPrev := mkDPrev { dp_workloads : gset string; dp_services : gset NamespacedHostname }.

Definition port_list_from_ports (ports : gmap Z Z) : list XdsPort :=
  (λ kv, mkXdsPort kv.1 kv.2 0) <$> map_iter ports.

Definition with_services (svcs : gmap NamespacedHostname (gmap Z Z)) (w : Workload) : Workload :=
  mkWorkload (wl_ips w) (wl_waypoint w) (wl_network_gateway w) (wl_protocol w) (wl_network_mode w) (wl_uid w)
    (wl_name w) (wl_namespace w) (wl_trust_domain w) (wl_service_account w) (wl_network w)
    (wl_workload_name w) (wl_workload_type w) (wl_canonical_name w) (wl_canonical_revision w)
    (wl_hostname w) (wl_node w) (wl_authorization_policies w) (wl_status w) (wl_cluster_id w)
    (wl_locality w) svcs (wl_capacity w).

(** The services named in a local workload's map, where the name parses, join
    its own. *)
Definition merge_local_services (lw : LocalWorkload) : Workload :=
  with_services
    (foldl (λ m kv, match Str.split_once "/" kv.1 with
                    | Some (namespace, hostname) => <[mkNH namespace hostname := kv.2]> m
                    | None => m
                    end) (wl_services (lw_workload lw)) (map_iter (lw_services lw)))
    (lw_workload lw).

Fixpoint sync_workloads (wls : list LocalWorkload) (old new : gset string) (s : DStore)
    : outcome (DStore * result (gset string * gset string) ProtoError) :=
  match wls with
  | [] => Ret (s, Ok (old, new))
  | lw :: rest =>
      let w := merge_local_services lw in
      '(s, r) ← put_workload w (port_list_from_ports <$> lw_services lw) s;
      match r with
      | Err e => Ret (s, Err e)
      | Ok _ => sync_workloads rest (old ∖ {[wl_uid w]}) ({[wl_uid w]} ∪ new) s
      end
  end.

Definition sync_remove_workload (uid : string) (s : DStore) : outcome DStore :=
  match ws_remove uid (workloads s) with
  | (ws, Some prev) => remove_endpoint prev (set_workloads ws s)
  | (_, None) => Ret s
  end.

Definition d_sync_local (svcs : list Service) (wls : list LocalWorkload) (prev : DPrev) (s : DStore)
    : outcome (DStore * result DPrev ProtoError) :=
  '(s, r) ← sync_workloads wls (dp_workloads prev) ∅ s;
  match r with
  | Err e => Ret (s, Err e)
  | Ok (old_workloads, new_workloads) =>
      s ← fold_out insert_service_internal svcs s;
      let keys : gset NamespacedHostname := list_to_set (namespaced_hostname_of <$> svcs) in
      let s := foldl (λ s k, set_services (svc_remove k (services s)).1 s) s
                 (set_iter (dp_services prev ∖ keys)) in
      s ← fold_out sync_remove_workload (set_iter old_workloads) s;
      Ret (s, Ok (mkDPrev new_workloads keys))
  end.
End store.
