(* ===== verification/DiscoveryFacts.v ===== *)
(** * The indexes of the discovery store

    The workload indexes agree with the workloads held, the address lookup
    picks a best-ranked workload, and the service indexes agree with the
    services held. *)
From stdpp Require Import base gmap strings list.
From Stdlib Require Import ZArith.
From S2P Require Import Prelude RustStd XdsClient AgentTypes DiscoveryTypes LoadBalancer Discovery.

Local Open Scope list_scope.

(** ** The workload store *)

(** The workloads filed under an address. *)
Definition wba_list (e : WorkloadByAddr) : list Workload :=
  match e with Single w => [w] | Many ws => ws end.

Definition addr_list (m : gmap NetworkAddress WorkloadByAddr) (k : NetworkAddress) : list Workload :=
  from_option wba_list [] (m !! k).

(** What the indexes of a workload store hold. *)
Record ws_inv (st : WorkloadStore) : Prop := mkWsInv {
  wi_uid : ∀ u w, by_uid st !! u = Some w → wl_uid w = u;
  wi_service : ∀ k u, u ∈ default ∅ (by_service st !! k) ↔
    ∃ w, by_uid st !! u = Some w ∧ is_Some (wl_services w !! k);
  wi_service_used : ∀ k X, by_service st !! k = Some X → X ≠ ∅;
  wi_addr : ∀ k w, w ∈ addr_list (by_addr st) k ↔
    by_uid st !! wl_uid w = Some w ∧ k ∈ wl_addrs w;
  wi_addr_used : ∀ k e, by_addr st !! k = Some e → wba_list e ≠ [];
}.

Section workload_facts.
Context {HO : HashOrder}.

Lemma keys_elem {K V} `{Countable K} (m : gmap K V) k : k ∈ (map_iter m).*1 ↔ is_Some (m !! k).
Proof.
  rewrite list_elem_of_fmap. split.
  - intros ([k' v] & -> & Hin). apply map_iter_elem in Hin. by eexists.
  - intros [v Hv]. exists (k, v). split; [done|]. by apply map_iter_elem.
Qed.

Lemma foldl_service_remove uid ks m k :
  default ∅ (foldl (service_remove uid) m ks !! k) =
  if decide (k ∈ ks) then default ∅ (m !! k) ∖ {[uid]} else default ∅ (m !! k).
Proof.
  revert m. induction ks as [|k0 ks IH]; intros m; simpl; [by destruct (decide (k ∈ [])) as [?%elem_of_nil|]|].
  rewrite IH. assert (default ∅ (service_remove uid m k0 !! k) =
    if decide (k = k0) then default ∅ (m !! k) ∖ {[uid]} else default ∅ (m !! k)) as ->.
  { unfold service_remove. destruct (m !! k0) as [X|] eqn:E.
    - case_bool_decide as HX; destruct (decide (k = k0)) as [->|Hk].
      + rewrite lookup_delete_eq, E. simpl. by rewrite HX.
      + by rewrite lookup_delete_ne.
      + by rewrite lookup_insert_eq, E.
      + by rewrite lookup_insert_ne.
    - destruct (decide (k = k0)) as [->|]; [|done]. rewrite E. simpl. set_solver. }
  clear IH. set (D := default ∅ (m !! k)).
  repeat case_decide; set_solver.
Qed.

Lemma foldl_service_remove_used uid ks m :
  (∀ k X, m !! k = Some X → X ≠ ∅) → ∀ k X, foldl (service_remove uid) m ks !! k = Some X → X ≠ ∅.
Proof.
  revert m. induction ks as [|k0 ks IH]; intros m Hm; simpl; [done|]. apply IH.
  intros k X. unfold service_remove. destruct (m !! k0) as [Y|] eqn:E; [|by apply Hm].
  case_bool_decide as HX.
  - intros [_ ?]%lookup_delete_Some. by eapply Hm.
  - rewrite lookup_insert_Some. intros [[_ <-]|[_ ?]]; [done|by eapply Hm].
Qed.

Lemma foldl_service_add uid ks m k :
  default ∅ (foldl (service_add uid) m ks !! k) =
  if decide (k ∈ ks) then {[uid]} ∪ default ∅ (m !! k) else default ∅ (m !! k).
Proof.
  revert m. induction ks as [|k0 ks IH]; intros m; simpl; [by destruct (decide (k ∈ [])) as [?%elem_of_nil|]|].
  rewrite IH. clear IH. unfold service_add. destruct (decide (k = k0)) as [->|Hk].
  - rewrite lookup_insert_eq. simpl. repeat case_decide; set_solver.
  - rewrite lookup_insert_ne by done. repeat case_decide; set_solver.
Qed.

Lemma foldl_service_add_used uid ks m :
  (∀ k X, m !! k = Some X → X ≠ ∅) → ∀ k X, foldl (service_add uid) m ks !! k = Some X → X ≠ ∅.
Proof.
  revert m. induction ks as [|k0 ks IH]; intros m Hm; simpl; [done|]. apply IH.
  intros k X. unfold service_add. rewrite lookup_insert_Some. intros [[_ <-]|[_ ?]]; [set_solver|by eapply Hm].
Qed.

Lemma wba_remove_spec uid e :
  wba_list e ≠ [] →
  let '(e', none_left) := wba_remove_uid uid e in
  let l := filter (λ w, wl_uid w ≠ uid) (wba_list e) in
  if none_left then l = [] else wba_list e' = l ∧ l ≠ [].
Proof.
  intros He. destruct e as [w|ws]; simpl.
  - rewrite filter_cons, filter_nil. case_bool_decide as Hu; case_decide; naive_solver.
  - destruct (filter _ ws) as [|a [|b l]] eqn:E; simpl; by rewrite ?E.
Qed.

Lemma addr_remove_list uid m k0 k :
  (∀ k e, m !! k = Some e → wba_list e ≠ []) →
  addr_list (addr_remove uid m k0) k =
    (if decide (k = k0) then filter (λ w, wl_uid w ≠ uid) (addr_list m k) else addr_list m k) ∧
  (∀ k e, addr_remove uid m k0 !! k = Some e → wba_list e ≠ []).
Proof.
  intros Hm. unfold addr_remove, addr_list. destruct (m !! k0) as [e|] eqn:E.
  2:{ split; [|done]. case_decide; [|done]. subst. by rewrite E. }
  pose proof (wba_remove_spec uid e (Hm _ _ E)) as Hr. destruct (wba_remove_uid uid e) as [e' []]; split.
  - case_decide; [subst; by rewrite lookup_delete_eq, E|by rewrite lookup_delete_ne].
  - intros k' x [_ ?]%lookup_delete_Some. by eapply Hm.
  - destruct Hr as [Hr _]. case_decide; [subst; by rewrite lookup_insert_eq, E|by rewrite lookup_insert_ne].
  - intros k' x. rewrite lookup_insert_Some. destruct Hr as [Hr Hn].
    intros [[_ <-]|[_ ?]]; [by rewrite Hr|by eapply Hm].
Qed.

Lemma foldl_addr_remove uid ks m k :
  (∀ k e, m !! k = Some e → wba_list e ≠ []) →
  addr_list (foldl (addr_remove uid) m ks) k =
    (if decide (k ∈ ks) then filter (λ w, wl_uid w ≠ uid) (addr_list m k) else addr_list m k) ∧
  (∀ k e, foldl (addr_remove uid) m ks !! k = Some e → wba_list e ≠ []).
Proof.
  revert m. induction ks as [|k0 ks IH]; intros m Hm; simpl; [by destruct (decide (k ∈ [])) as [?%elem_of_nil|]|].
  destruct (addr_remove_list uid m k0 k Hm) as [Hk Hm']. destruct (IH _ Hm') as [-> ?]. clear IH. split; [|done].
  rewrite Hk. repeat case_decide; try set_solver. by rewrite list_filter_filter_l by done.
Qed.

Lemma addr_add_list w m k0 k :
  addr_list (addr_add w m k0) k = if decide (k = k0) then addr_list m k ++ [w] else addr_list m k.
Proof.
  unfold addr_add, addr_list. case_decide; [subst|by rewrite lookup_insert_ne].
  rewrite lookup_insert_eq. destruct (m !! k0) as [[x|v]|]; done.
Qed.

Lemma foldl_addr_add w ks m k w' :
  (∀ k e, m !! k = Some e → wba_list e ≠ []) →
  (w' ∈ addr_list (foldl (addr_add w) m ks) k ↔ w' ∈ addr_list m k ∨ (w' = w ∧ k ∈ ks)) ∧
  (∀ k e, foldl (addr_add w) m ks !! k = Some e → wba_list e ≠ []).
Proof.
  revert m. induction ks as [|k0 ks IH]; intros m Hm; simpl; [split; [set_solver|done]|].
  assert (∀ k e, addr_add w m k0 !! k = Some e → wba_list e ≠ []) as Hm'.
  { intros k' e. unfold addr_add. rewrite lookup_insert_Some. intros [[_ <-]|[_ ?]]; [|by eapply Hm].
    destruct (m !! k0) as [[]|]; simpl; [done| |done]. by destruct ws. }
  destruct (IH _ Hm') as [-> ?]. clear IH. split; [|done]. rewrite addr_add_list. case_decide; set_solver.
Qed.

(** Removing a workload keeps the indexes exact. *)
Lemma ws_remove_spec uid st :
  ws_inv st →
  ws_inv (ws_remove uid st).1 ∧ by_uid (ws_remove uid st).1 = delete uid (by_uid st) ∧
  (ws_remove uid st).2 = by_uid st !! uid.
Proof.
  intros H. unfold ws_remove. destruct (by_uid st !! uid) as [p|] eqn:E; simpl.
  2:{ split; [done|]. split; [|done]. by rewrite delete_id. }
  assert (wl_uid p = uid) as Hp by (by eapply wi_uid). split; [|done]. split; simpl.
  - intros u w [_ ?]%lookup_delete_Some. by eapply wi_uid.
  - intros k u. rewrite foldl_service_remove. setoid_rewrite lookup_delete_Some.
    pose proof (wi_service _ H k u) as Hk.
    destruct (decide (k ∈ _)) as [Hin|Hin]; rewrite keys_elem in Hin;
      rewrite ?elem_of_difference, ?elem_of_singleton, Hk; [naive_solver|].
    split; [|naive_solver]. intros (w & Hw & Hs). exists w. split_and!; try done. intros <-. naive_solver.
  - apply foldl_service_remove_used, H.
  - intros k w. destruct (foldl_addr_remove uid (wl_addrs p) (by_addr st) k (wi_addr_used _ H)) as [-> _].
    rewrite lookup_delete_Some. pose proof (wi_addr _ H k w) as Hk.
    case_decide as Hin; rewrite ?list_elem_of_filter, Hk; [naive_solver|].
    split; [|naive_solver]. intros [Hw Hs]. split; [|done]. split; [|done]. intros Hu. rewrite <-Hu, E in Hw.
    by injection Hw as ->.
  - intros k. by apply (foldl_addr_remove uid (wl_addrs p) (by_addr st) k (wi_addr_used _ H)).
Qed.

(** Inserting a workload replaces the one of its uid. *)
Lemma ws_insert_spec w st :
  ws_inv st → ws_inv (ws_insert w st) ∧ by_uid (ws_insert w st) = <[wl_uid w := w]> (by_uid st).
Proof.
  intros H0. destruct (ws_remove_spec (wl_uid w) st H0) as (H & Hd & _). unfold ws_insert.
  set (st' := (ws_remove _ st).1) in *. rewrite Hd, insert_delete_eq. split; [|done].
  assert (∀ u x, by_uid st' !! u = Some x → u ≠ wl_uid w) as Hnew.
  { intros u x. rewrite Hd, lookup_delete_Some. naive_solver. }
  rewrite <-insert_delete_eq, <-Hd. split; simpl.
  - intros u x. rewrite lookup_insert_Some. intros [[<- <-]|[_ ?]]; [done|by eapply wi_uid].
  - intros k u. rewrite foldl_service_add. setoid_rewrite lookup_insert_Some.
    pose proof (wi_service _ H k u) as Hk.
    destruct (decide (k ∈ _)) as [Hin|Hin]; rewrite keys_elem in Hin;
      rewrite ?elem_of_union, ?elem_of_singleton, Hk; naive_solver.
  - apply foldl_service_add_used, H.
  - intros k x. destruct (foldl_addr_add w (wl_addrs w) (by_addr st') k x (wi_addr_used _ H)) as [-> _].
    rewrite lookup_insert_Some, (wi_addr _ H k x). naive_solver.
  - intros k. by apply (foldl_addr_add w (wl_addrs w) (by_addr st') k w (wi_addr_used _ H)).
Qed.

Lemma ws_empty_inv n : ws_inv (mkWorkloadStore ∅ ∅ ∅ n).
Proof.
  split; simpl; unfold addr_list; try (intros *; by rewrite lookup_empty).
  - intros k u. rewrite lookup_empty. setoid_rewrite lookup_empty. set_solver.
  - intros k w. rewrite !lookup_empty. set_solver.
Qed.

(** The workloads of a service. *)
Lemma iter_by_service_elem st k w :
  ws_inv st → w ∈ iter_by_service st k ↔ by_uid st !! wl_uid w = Some w ∧ is_Some (wl_services w !! k).
Proof.
  intros H. unfold iter_by_service. pose proof (wi_service _ H k) as Hk.
  destruct (by_service st !! k) as [X|]; simpl in Hk.
  - rewrite list_elem_of_omap. setoid_rewrite set_iter_elem. setoid_rewrite Hk. split.
    + intros (u & (w' & Hw & Hs) & Hu). rewrite Hw in Hu. injection Hu as <-. by rewrite (wi_uid _ H _ _ Hw).
    + intros [Hw Hs]. eauto.
  - split; [by intros ?%elem_of_nil|]. intros [Hw Hs]. by destruct (not_elem_of_empty (C := gset string) (wl_uid w)); apply Hk; eauto.
Qed.

Lemma iter_by_service_NoDup st k : ws_inv st → NoDup (wl_uid <$> iter_by_service st k).
Proof.
  intros H. unfold iter_by_service. destruct (by_service st !! k) as [X|]; [|constructor].
  assert (NoDup (set_iter X)) as Hnd by apply set_iter_NoDup. induction Hnd as [|u l Hu _ IH]; simpl; [constructor|].
  destruct (by_uid st !! u) as [w|] eqn:E; simpl; [|done]. constructor; [|done].
  rewrite (wi_uid _ H _ _ E), list_elem_of_fmap. setoid_rewrite list_elem_of_omap.
  intros (w' & Hu' & u' & Hin & Hw'). rewrite (wi_uid _ H _ _ Hw') in Hu'. by subst.
Qed.
End workload_facts.

Lemma max_by_greatest {A} (f : A → nat) l x :
  max_by (λ a b, Nat.compare (f a) (f b)) l = Some x → ∀ y, y ∈ l → f y ≤ f x.
Proof.
  revert x. induction l as [|z l IH] using rev_ind; intros x; unfold max_by in *; [done|].
  rewrite foldl_app. simpl. intros Hx y. rewrite elem_of_app, list_elem_of_singleton.
  destruct (foldl _ None l) as [b|] eqn:E.
  - specialize (IH b eq_refl). destruct (Nat.compare_spec (f b) (f z)); simplify_eq;
      (intros [Hy| ->]; [specialize (IH y Hy)|]; lia).
  - change (max_by (λ a b, Nat.compare (f a) (f b)) l = None) in E. apply max_by_None in E as ->.
    simplify_eq. set_solver.
Qed.

Lemma find_address_spec st a :
  ws_inv st →
  ∃ r, find_address st a = Ret r ∧
    match r with
    | Some w => by_uid st !! wl_uid w = Some w ∧ a ∈ wl_addrs w ∧
                ∀ u w', by_uid st !! u = Some w' → a ∈ wl_addrs w' → wba_rank w' ≤ wba_rank w
    | None => ∀ u w, by_uid st !! u = Some w → a ∉ wl_addrs w
    end.
Proof.
  intros H. unfold find_address. pose proof (wi_addr _ H a) as Ha. unfold addr_list in Ha.
  assert (∀ u w, by_uid st !! u = Some w → by_uid st !! wl_uid w = Some w) as Hu.
  { intros u w Hw. by rewrite (wi_uid _ H _ _ Hw). }
  destruct (by_addr st !! a) as [e|] eqn:E; simpl in Ha.
  - assert (∃ w, wba_get e = Ret w ∧ w ∈ wba_list e ∧ ∀ w', w' ∈ wba_list e → wba_rank w' ≤ wba_rank w)
      as (w & Hg & Hin & Hmax).
    { destruct e as [w|ws]; simpl; [exists w; set_solver|].
      destruct (max_by _ ws) as [w|] eqn:Em.
      - exists w. split; [done|]. split; [by eapply max_by_in|by apply max_by_greatest].
      - apply max_by_None in Em. by apply (wi_addr_used _ H) in E. }
    rewrite Hg. eexists; split; [done|]. apply Ha in Hin as [Hw Hk]. split_and!; [done..|].
    intros u w' Hw' Hk'. apply Hmax, Ha. eauto.
  - eexists; split; [done|]. intros u w Hw Hk. eapply not_elem_of_nil, Ha. eauto.
Qed.

(** ** The service store *)

Local Abbreviation find_ns := (λ ns, list_find_by (λ s, bool_decide (svc_namespace s = ns))).
Local Abbreviation get := get_by_namespaced_host.

Record ss_inv (st : ServiceStore) : Prop := mkSsInv {
  si_host : ∀ h l, by_host st !! h = Some l →
    l ≠ [] ∧ NoDup (svc_namespace <$> l) ∧ Forall (λ s, svc_hostname s = h) l;
  si_vip : ∀ v s, by_vip st !! v = Some s → get st (namespaced_hostname_of s) = Some s ∧ v ∈ svc_vips s;
}.

Lemma find_ns_iff ns l s :
  NoDup (svc_namespace <$> l) → find_ns ns l = Some s ↔ s ∈ l ∧ svc_namespace s = ns.
Proof.
  induction l as [|x l IH]; simpl; [set_solver|]. intros [Hx Hl]%NoDup_cons.
  case_bool_decide as Hn.
  - split; [intros [= <-]; set_solver|]. intros [[->|Hs]%elem_of_cons Hns]; [done|].
    destruct Hx. apply list_elem_of_fmap. exists s. by rewrite Hn.
  - rewrite (IH Hl), elem_of_cons. naive_solver.
Qed.

Lemma get_key st nh s : ss_inv st → get st nh = Some s → namespaced_hostname_of s = nh.
Proof.
  intros H. unfold get. destruct (by_host st !! nh_hostname nh) as [l|] eqn:E; [|done].
  destruct (si_host _ H _ _ E) as (_ & Hnd & Hh). intros [Hin Hns]%(find_ns_iff _ _ _ Hnd).
  rewrite Forall_forall in Hh. specialize (Hh _ Hin). destruct nh; simpl in *. unfold namespaced_hostname_of.
  by subst.
Qed.

Lemma take_namespace_None ns l : take_namespace ns l = None ↔ find_ns ns l = None.
Proof.
  induction l as [|x l IH]; simpl; [done|]. case_bool_decide; [done|].
  destruct (take_namespace ns l) as [[]|]; rewrite <-IH; naive_solver.
Qed.

Lemma take_namespace_Some ns l p rest :
  take_namespace ns l = Some (p, rest) → find_ns ns l = Some p ∧ l ≡ₚ p :: rest.
Proof.
  revert rest. induction l as [|x l IH]; intros rest; simpl; [done|]. case_bool_decide.
  - by intros [= -> ->].
  - destruct (take_namespace ns l) as [[q r]|]; [|done]. intros [= -> <-].
    destruct (IH r eq_refl) as [-> ->]. split; [done|]. by rewrite perm_swap.
Qed.

Lemma put_service_fresh s l : find_ns (svc_namespace s) l = None → put_service s l = l ++ [s].
Proof. induction l as [|x l IH]; simpl; [done|]. case_bool_decide; [done|]. intros Hl. by rewrite IH. Qed.

Lemma find_ns_snoc ns s l :
  find_ns (svc_namespace s) l = None →
  find_ns ns (l ++ [s]) = if decide (ns = svc_namespace s) then Some s else find_ns ns l.
Proof.
  induction l as [|x l IH]; simpl; [by intros _; case_bool_decide; case_decide|].
  case_bool_decide; [done|]. intros Hl. case_bool_decide; [|by apply IH]. rewrite decide_False; [done|]. congruence.
Qed.

(** How a store answers is determined by what it holds per host. *)
Lemma get_of_host st h l ns s :
  by_host st !! h = Some l → NoDup (svc_namespace <$> l) →
  get st (mkNH ns h) = Some s ↔ s ∈ l ∧ svc_namespace s = ns.
Proof. intros Hl Hnd. unfold get. simpl. rewrite Hl. by apply find_ns_iff. Qed.

Lemma foldl_delete_lookup {V} ks (m : gmap NetworkAddress V) v x :
  foldl (λ m k, delete k m) m ks !! v = Some x → m !! v = Some x ∧ v ∉ ks.
Proof.
  revert m. induction ks as [|k ks IH]; intros m; simpl; [set_solver|].
  intros [[? ?]%lookup_delete_Some ?]%IH. set_solver.
Qed.

Lemma foldl_insert_lookup {V} ks (s : V) (m : gmap NetworkAddress V) v x :
  foldl (λ m k, <[k := s]> m) m ks !! v = Some x → (v ∈ ks ∧ x = s) ∨ m !! v = Some x.
Proof.
  revert m. induction ks as [|k ks IH]; intros m; simpl; [by right|].
  intros [?|[[<- <-]|[_ ?]]%lookup_insert_Some]%IH; set_solver.
Qed.

(** Removing a service hides it and nothing else. *)
Lemma svc_remove_spec nh st :
  ss_inv st →
  ss_inv (svc_remove nh st).1 ∧
  ∀ nh', get (svc_remove nh st).1 nh' = if decide (nh' = nh) then None else get st nh'.
Proof.
  intros H. destruct nh as [ns h].
  assert (get st (mkNH ns h) = None →
    ss_inv st ∧ ∀ nh', get st nh' = if decide (nh' = mkNH ns h) then None else get st nh') as Hnone.
  { intros Hg. split; [done|]. intros nh'. by case_decide; subst. }
  unfold svc_remove. simpl. destruct (by_host st !! h) as [l|] eqn:E.
  2:{ apply Hnone. unfold get. simpl. by rewrite E. }
  destruct (take_namespace ns l) as [[p rest]|] eqn:Et.
  2:{ apply Hnone. unfold get. simpl. rewrite E. by apply take_namespace_None. }
  apply take_namespace_Some in Et as [Hf Hp]. destruct (si_host _ H _ _ E) as (_ & Hnd & Hh).
  apply find_ns_iff in Hf as [_ Hns]; [|done]. assert (NoDup (svc_namespace <$> p :: rest)) as Hnd' by (by rewrite <-Hp).
  apply NoDup_cons in Hnd' as [Hpr Hndr]. simpl.
  set (bh := match rest with [] => _ | _ => _ end).
  assert (∀ h', bh !! h' = if decide (h' = h) then match rest with [] => None | _ => Some rest end
                           else by_host st !! h') as Hbh.
  { intros h'. unfold bh. case_decide; [subst|destruct rest; by rewrite ?lookup_delete_ne, ?lookup_insert_ne].
    destruct rest; by rewrite ?lookup_delete_eq, ?lookup_insert_eq. }
  assert (∀ vip nh', get (mkServiceStore (delete (mkNH ns h) (staged_services st)) vip bh) nh' =
    if decide (nh' = mkNH ns h) then None else get st nh') as Hget.
  { intros vip [ns' h']. unfold get. simpl. rewrite Hbh.
    destruct (decide (h' = h)) as [->|Hne]; [|rewrite decide_False; [done|congruence]].
    rewrite E. assert (find_ns ns' rest = if decide (mkNH ns' h = mkNH ns h) then None else find_ns ns' l) as Hr.
    { apply option_eq. intros s. rewrite find_ns_iff by done. destruct (decide _) as [He|He].
      - injection He as ->. split; [|done]. intros [Hs Hss]. destruct Hpr. apply list_elem_of_fmap. exists s.
        split; [congruence|done].
      - rewrite find_ns_iff, Hp, elem_of_cons by done. naive_solver. }
    rewrite <-Hr. by destruct rest. }
  split; [|done]. split; simpl.
  - intros h' l'. rewrite Hbh. case_decide; [subst|by apply (si_host _ H)]. intros Hr.
    assert (l' = rest ∧ rest ≠ []) as [-> ?] by (destruct rest; naive_solver). split_and!; [done..|].
    rewrite Hp in Hh. by inversion Hh.
  - intros v s [Hv Hn]%foldl_delete_lookup. destruct (si_vip _ H _ _ Hv) as [Hg Hin]. split; [|done].
    rewrite Hget. rewrite decide_False; [done|]. intros He. rewrite He in Hg.
    assert (Some p = get st (mkNH ns h)) as Hpp.
    { symmetry. apply (get_of_host st h l); [done..|]. split; [|done]. rewrite Hp. by left. }
    rewrite Hg in Hpp. injection Hpp as ->. done.
Qed.

(** Inserting a service makes it the answer for its key. *)
Lemma svc_insert_spec s st :
  ss_inv st →
  ss_inv (svc_insert s st) ∧
  ∀ nh, get (svc_insert s st) nh = if decide (nh = namespaced_hostname_of s) then Some s else get st nh.
Proof.
  intros H0. destruct (svc_remove_spec (namespaced_hostname_of s) st H0) as [H Hg]. unfold svc_insert.
  set (st' := (svc_remove _ st).1) in *. set (l := default [] (by_host st' !! svc_hostname s)).
  assert (find_ns (svc_namespace s) l = None) as Hfresh.
  { specialize (Hg (namespaced_hostname_of s)). rewrite decide_True in Hg by done. unfold get in Hg. simpl in Hg.
    unfold l. by destruct (by_host st' !! svc_hostname s). }
  rewrite (put_service_fresh _ _ Hfresh).
  assert (NoDup (svc_namespace <$> l) ∧ Forall (λ x, svc_hostname x = svc_hostname s) l) as [Hnd Hh].
  { unfold l. destruct (by_host st' !! svc_hostname s) eqn:E; [|by split; constructor].
    by destruct (si_host _ H _ _ E) as (_ & ? & ?). }
  assert (NoDup (svc_namespace <$> l ++ [s])) as Hnd'.
  { rewrite fmap_app. apply NoDup_app. split; [done|]. split; [|by apply NoDup_singleton].
    intros x Hx ->%list_elem_of_singleton. apply list_elem_of_fmap in Hx as (y & Hy & Hin).
    assert (find_ns (svc_namespace s) l = Some y) by (by apply find_ns_iff). congruence. }
  assert (∀ vip nh, get (mkServiceStore (staged_services st') vip (<[svc_hostname s := l ++ [s]]> (by_host st'))) nh =
    if decide (nh = namespaced_hostname_of s) then Some s else get st nh) as Hget.
  { intros vip [ns h]. specialize (Hg (mkNH ns h)). unfold get in *. simpl in *. unfold namespaced_hostname_of in *.
    destruct (decide (h = svc_hostname s)) as [->|Hne].
    - rewrite lookup_insert_eq, find_ns_snoc by done. fold (get st (mkNH ns (svc_hostname s))).
      assert (find_ns ns l = match by_host st' !! svc_hostname s with Some l => find_ns ns l | None => None end) as ->
        by (unfold l; by destruct (by_host st' !! svc_hostname s)).
      rewrite Hg. repeat case_decide; congruence.
    - rewrite lookup_insert_ne, decide_False by congruence. rewrite Hg, decide_False by congruence. done. }
  split; [|done]. split; simpl.
  - intros h l'. rewrite lookup_insert_Some. intros [[<- <-]|[_ Hl]]; [|by apply (si_host _ H)].
    split_and!; [by destruct l|done|]. apply Forall_app. by split; [|constructor].
  - intros v x [[Hv ->]|Hv]%foldl_insert_lookup; rewrite Hget; [by rewrite decide_True|].
    destruct (si_vip _ H _ _ Hv) as [Hx Hin]. rewrite Hg in Hx. case_decide; [done|]. by split.
Qed.
