(* ===== verification/DiscoveryEndpoints.v ===== *)
(** * The endpoints of the discovery store

    Every service's endpoint set holds exactly the endpoints of the workloads
    that name the service, each in the locality bucket of its workload, through
    every update of workloads and services, the resolution of the gateway's own
    workload and the eviction workers. *)
From stdpp Require Import base gmap strings list.
From Stdlib Require Import ZArith.
From S2P Require Import Prelude RustStd XdsClient AgentTypes DiscoveryTypes LoadBalancer Discovery DiscoveryFacts.

Local Open Scope list_scope.
Local Abbreviation get := get_by_namespaced_host.

Section endpoint_facts.
Context {HO : HashOrder} {IM : IndexMap} {RC : RandCrate} {Info Health : Type} (info_default : Info).
Local Abbreviation Set_ := (EndpointSet Endpoint Info).
Local Abbreviation DStore := (DStore (Info := Info) (Health := Health)).

(** What a set is seen to hold: for a workload's uid, its endpoint, capacity
    and bucket. Whether it is evicted is the worker's business. *)
Definition View : Type := string → option (Endpoint * Z * nat).

Definition placed_view (p : Placed (T := Endpoint) (Info := Info)) : Endpoint * Z * nat :=
  (ewi_endpoint (pl_ewi p), ewi_capacity (pl_ewi p), pl_bucket p).

Definition holds (n : nat) (E : View) (es : Set_) : Prop :=
  length es = n ∧ ∃ M, repr es M ∧ spec_ok M ∧ ∀ u, placed_view <$> M !! u = E u.

Lemma holds_ext n E E' es : (∀ u, E u = E' u) → holds n E es → holds n E' es.
Proof. intros HE (? & M & ? & ? & HM). split; [done|]. exists M. split_and!; [done..|]. intros u. by rewrite <-HE. Qed.

Lemma holds_empty n : holds n (λ _, None) (new_empty n).
Proof.
  split; [apply length_replicate|]. exists ∅. split; [apply repr_empty|]. split; [|intros u; by rewrite lookup_empty].
  split; [by rewrite map_size_empty|]. intros k p. by rewrite lookup_empty.
Qed.

(** One mutator of the set, through its refinement of the map. *)
Lemma holds_event n E es item :
  holds n E es → (∀ M, spec_ok M → (∀ u, placed_view <$> M !! u = E u) → add_ok (Health := Health) (OpEvent item) M) →
  ∃ es', event item es = Ret es' ∧
    holds n (match item with
             | Add k ep b => if decide (b < n)
                 then λ v, if decide (v = k) then Some (ewi_endpoint ep, ewi_capacity ep, b) else E v else E
             | Delete k => λ v, if decide (v = k) then None else E v
             end) es'.
Proof.
  intros (Hn & M & Hr & Hok & HM) Hadd.
  pose proof (set_step_refines (Health := Health) n (OpEvent item) es [] M Hr Hok Hn (Hadd M Hok HM)) as Hst.
  assert (∀ es' (h : list (UnevictEntry Health)),
    set_step (OpEvent item) (mkWorker es []) = Ret (mkWorker es' h) → event item es = Ret es') as Hev.
  { intros es' h. simpl. destruct (event item es); by intros [= -> _]. }
  destruct item as [k ep b|k]; cbn [spec_step] in Hst; destruct Hst as (es' & He & Hr' & Hok' & Hn');
    (exists es'; split; [by eapply Hev|]).
  - case_decide; [|split; [done|]; eauto]. split; [done|]. eexists; split_and!; [done..|]. intros u. case_decide.
    + subst. by rewrite lookup_insert_eq.
    + by rewrite lookup_insert_ne.
  - split; [done|]. eexists; split_and!; [done..|]. intros u. case_decide.
    + subst. by rewrite lookup_delete_eq.
    + by rewrite lookup_delete_ne.
Qed.

Lemma holds_size (M : gmap string (Placed (T := Endpoint) (Info := Info))) (E : View) (D : gset string) :
  (∀ u, placed_view <$> M !! u = E u) → (∀ v, is_Some (E v) → v ∈ D) → size M ≤ size D.
Proof.
  intros HM HE. rewrite <-size_dom. apply subseteq_size. intros u [p Hp]%elem_of_dom.
  apply HE. rewrite <-HM, Hp. by eexists.
Qed.

Lemma holds_add n E es u ep cap b (D : gset string) :
  holds n E es → b < n → (0 ≤ cap ≤ u32_max)%Z → (∀ v, is_Some (E v) → v ∈ D) →
  (Z.of_nat (size D) < 2 ^ 32)%Z → (∀ x, E u = Some x → x.2 = b) →
  ∃ es', event (Add u (mkEWI ep info_default cap) b) es = Ret es' ∧
    holds n (λ v, if decide (v = u) then Some (ep, cap, b) else E v) es'.
Proof.
  intros Hh Hb Hcap HE HD Hu.
  destruct (holds_event n E es (Add u (mkEWI ep info_default cap) b) Hh) as (es' & Hev & Hh').
  - intros M Hok HM. simpl. pose proof (holds_size M E D HM HE). split_and!; [lia..|].
    intros p Hp. specialize (HM u). rewrite Hp in HM. by apply (Hu (placed_view p)).
  - rewrite decide_True in Hh' by done. eauto.
Qed.

Lemma holds_delete n E es u :
  holds n E es →
  ∃ es', event (Delete u) es = Ret es' ∧ holds n (λ v, if decide (v = u) then None else E v) es'.
Proof. intros Hh. by apply (holds_event n E es (Delete u) Hh). Qed.

Lemma holds_rebucket n (E : View) es (ranker : Endpoint → option nat) :
  holds n E es →
  ∃ es', rebucket ranker es = Ret es' ∧
    holds n (λ u, '(ep, cap, _) ← E u; b ← ranker ep; if decide (b < n) then Some (ep, cap, b) else None) es'.
Proof.
  intros (Hn & M & Hr & Hok & HM). destruct (rebucket_repr es M ranker Hr Hok) as (es' & -> & Hl & Hr').
  eexists; split; [done|]. split; [congruence|]. eexists; split; [exact Hr'|]. rewrite Hn.
  split; [by apply spec_rank_ok|]. intros u. rewrite <-HM, lookup_omap. destruct (M !! u) as [p|]; simpl; [|done].
  unfold spec_rank. destruct (ranker _); simpl; [|done]. by case_decide.
Qed.

(** ** The store's invariant *)

Definition ranker_of (svc : Service) (src : option Workload) : LocalityRanker :=
  mkRanker (svc_load_balancer svc) src.

(** Where a workload's endpoint belongs in the set of a service. *)
Definition expected (src : option Workload) (svc : Service) (w : Workload) : option (Endpoint * Z * nat) :=
  ports ← wl_services w !! namespaced_hostname_of svc;
  if should_include_endpoint svc (wl_status w) then
    b ← bucket_for (ranker_of svc src) w;
    Some (mkEndpoint (wl_uid w) ports (wl_status w), wl_capacity w, b)
  else None.

Definition wanted (W : gmap string Workload) (src : option Workload) (svc : Service) : View :=
  λ u, W !! u ≫= expected src svc.

Definition levels (svc : Service) : nat := priority_levels (ranker_of svc None).

(** Every service of the store has a set of its own that shows the view [V]
    gives it. *)
Record sets_show (V : Service → View) (s : DStore) : Prop := mkSetsShow {
  sh_holds : ∀ nh svc, get (services s) nh = Some svc →
    ∃ wk, sets s !! svc_endpoints svc = Some wk ∧ holds (levels svc) (V svc) (w_set wk);
  sh_alias : ∀ nh nh' svc svc', get (services s) nh = Some svc → get (services s) nh' = Some svc' →
    svc_endpoints svc = svc_endpoints svc' → nh = nh';
  sh_fresh : ∀ l, next_set s ≤ l → sets s !! l = None;
  sh_any : ∀ l wk, sets s !! l = Some wk → ∃ n E, holds n E (w_set wk);   (* also a set no longer in use *)
}.

Record d_inv (s : DStore) : Prop := mkDInv {
  di_workloads : ws_inv (workloads s);
  di_services : ss_inv (services s);
  di_caps : ∀ u w, by_uid (workloads s) !! u = Some w → (0 ≤ wl_capacity w ≤ u32_max)%Z;
  di_size : (Z.of_nat (size (by_uid (workloads s))) < 2 ^ 32)%Z;
  di_sets : sets_show (wanted (by_uid (workloads s)) (self_workload s)) s;
}.

(** What a loop that only edits endpoint sets and the staging area leaves
    alone. *)
Definition frame (s s' : DStore) : Prop :=
  workloads s' = workloads s ∧ self_workload s' = self_workload s ∧ next_set s' = next_set s ∧
  by_host (services s') = by_host (services s) ∧ by_vip (services s') = by_vip (services s).

#[local] Instance frame_preorder : PreOrder frame.
Proof.
  split; [intros s; by split_and!|]. intros a b c (?&?&?&?&?) (?&?&?&?&?). split_and!; congruence.
Qed.

Lemma frame_get s s' nh : frame s s' → get (services s') nh = get (services s) nh.
Proof. intros (_ & _ & _ & Hh & _). unfold get. by rewrite Hh. Qed.

Lemma frame_ss_inv s s' : frame s s' → ss_inv (services s) → ss_inv (services s').
Proof.
  intros Hf [H1 H2]. pose proof (frame_get s s') as Hg. destruct Hf as (? & ? & ? & Hh & Hv). split.
  - by rewrite Hh.
  - intros v x. rewrite Hv, Hg by done. apply H2.
Qed.

Lemma sets_show_ext V V' s :
  (∀ nh svc, get (services s) nh = Some svc → ∀ u, V svc u = V' svc u) → sets_show V s → sets_show V' s.
Proof.
  intros HV [H1 H2 H3 H4]. split; [|done..]. intros nh svc Hs. destruct (H1 _ _ Hs) as (wk & Hw & Hh).
  exists wk. split; [done|]. eapply holds_ext; [|done]. eauto.
Qed.

Lemma sets_show_frame V s s' : frame s s' → sets s' = sets s → sets_show V s → sets_show V s'.
Proof.
  intros Hf Hs [H1 H2 H3 H4]. pose proof (frame_get s s') as Hg. split.
  - intros nh svc. rewrite Hg, Hs by done. apply H1.
  - intros nh nh' svc svc'. rewrite !Hg by done. apply H2.
  - destruct Hf as (_ & _ & -> & _). by rewrite Hs.
  - by rewrite Hs.
Qed.

Lemma sets_show_frame' V s s' :
  services s' = services s → sets s' = sets s → next_set s' = next_set s → sets_show V s → sets_show V s'.
Proof. intros Hs He Hn [H1 H2 H3 H4]. split; by rewrite ?Hs, ?He, ?Hn. Qed.

(** Editing the set of one service changes its view only. *)
Lemma edit_set_show V V' s nh svc f :
  ss_inv (services s) → sets_show V s → get (services s) nh = Some svc →
  (∀ es, holds (levels svc) (V svc) es → ∃ es', f es = Ret es' ∧ holds (levels svc) (V' svc) es') →
  ∃ s', edit_set (svc_endpoints svc) f s = Ret s' ∧ frame s s' ∧
    sets_show (λ x, if decide (namespaced_hostname_of x = nh) then V' x else V x) s'.
Proof.
  intros Hss [H1 H2 H3 H4] Hs Hf. destruct (H1 _ _ Hs) as (wk & Hw & Hh). destruct (Hf _ Hh) as (es' & He & Hh').
  unfold edit_set. rewrite Hw, He. simpl. eexists; split; [done|]. split; [by split_and!|]. split; simpl.
  - intros nh' svc' Hs'. pose proof (get_key _ _ _ Hss Hs'). destruct (decide (svc_endpoints svc' = svc_endpoints svc)) as [Hl|Hl].
    + assert (nh' = nh) as -> by (by eapply H2). rewrite Hs in Hs'. injection Hs' as <-.
      rewrite decide_True, lookup_insert_eq by done. eauto.
    + rewrite lookup_insert_ne by done. rewrite decide_False; [by eapply H1|]. intros He'. apply Hl.
      assert (nh' = nh) as -> by congruence. congruence.
  - done.
  - intros l Hl. rewrite lookup_insert_ne; [by apply H3|]. intros <-. by rewrite H3 in Hw.
  - intros l x. rewrite lookup_insert_Some. intros [[_ <-]|[_ ?]]; [simpl; eauto|by eapply H4].
Qed.

(** A service whose view is already the new one. *)
Lemma skip_show V V' s nh :
  ss_inv (services s) → sets_show V s →
  (∀ svc, get (services s) nh = Some svc → ∀ u, V svc u = V' svc u) →
  sets_show (λ x, if decide (namespaced_hostname_of x = nh) then V' x else V x) s.
Proof.
  intros Hss Hs HV. eapply sets_show_ext; [|done]. intros nh' svc Hg u. case_decide as Hk; [|done].
  apply HV. by rewrite <-Hk, (get_key _ _ _ Hss Hg).
Qed.

(** A loop over services that moves each from the view [V] to [V']. *)
Lemma fold_show {A} (key : A → NamespacedHostname) (g : A → DStore → outcome DStore) V V' l s0 :
  (∀ a s E, a ∈ l → frame s0 s → sets_show E s →
     (∀ nh svc, get (services s) nh = Some svc → (∀ u, E svc u = V svc u) ∨ (∀ u, E svc u = V' svc u)) →
     ∃ s', g a s = Ret s' ∧ frame s s' ∧
       sets_show (λ x, if decide (namespaced_hostname_of x = key a) then V' x else E x) s') →
  sets_show V s0 →
  ∃ s', fold_out g l s0 = Ret s' ∧ frame s0 s' ∧
    sets_show (λ x, if decide (namespaced_hostname_of x ∈ key <$> l) then V' x else V x) s'.
Proof.
  intros Hstep Hs0.
  enough (∀ l' s E, l' ⊆ l → frame s0 s → sets_show E s →
    (∀ nh svc, get (services s) nh = Some svc → (∀ u, E svc u = V svc u) ∨ (∀ u, E svc u = V' svc u)) →
    ∃ s', fold_out g l' s = Ret s' ∧ frame s0 s' ∧
      sets_show (λ x, if decide (namespaced_hostname_of x ∈ key <$> l') then V' x else E x) s') as H.
  { by apply H; eauto. }
  clear Hs0. induction l' as [|a l' IH]; intros s E Hsub Hf Hs HE; simpl.
  - exists s. split; [done|]. split; [done|]. eapply sets_show_ext; [|done]. done.
  - destruct (Hstep a s E) as (s1 & -> & Hf1 & Hs1); [apply Hsub; by left|done..|]. simpl.
    destruct (IH s1 _ (λ x Hx, Hsub x (list_elem_of_further _ _ _ Hx)) (transitivity Hf Hf1) Hs1) as (s' & -> & Hf' & Hs').
    { intros nh svc. rewrite (frame_get s s1) by done. intros Hg. case_decide; eauto. }
    exists s'. split; [done|]. split; [done|]. eapply sets_show_ext; [|done]. intros nh svc _ u. simpl.
    repeat case_decide; set_solver.
Qed.

(** ** Workloads *)

(** Inserting an endpoint in a set puts it where it belongs. *)
Lemma insert_endpoint_holds (E : View) es src svc w ports (D : gset string) :
  holds (levels svc) E es → wl_services w !! namespaced_hostname_of svc = Some ports →
  should_include_endpoint svc (wl_status w) = true → (0 ≤ wl_capacity w ≤ u32_max)%Z →
  (∀ v, is_Some (E v) → v ∈ D) → (Z.of_nat (size D) < 2 ^ 32)%Z →
  (E (wl_uid w) = None ∨ E (wl_uid w) = expected src svc w) →
  ∃ es', insert_endpoint (mkEndpoint (wl_uid w) ports (wl_status w)) info_default w (ranker_of svc src) es = Ret es' ∧
    holds (levels svc) (λ v, if decide (v = wl_uid w) then expected src svc w else E v) es'.
Proof.
  intros Hh Hp Hi Hc HE HD Hu. unfold insert_endpoint, expected in *. rewrite Hp, Hi in *. simpl in *.
  destruct (bucket_for (ranker_of svc src) w) as [b|] eqn:Eb; simpl in *.
  - apply (holds_add (levels svc) E es _ _ _ _ D); try done; [by apply (bucket_for_lt (ranker_of svc src) w)|].
    intros x. destruct Hu as [->| ->]; [done|]. by intros [= <-].
  - exists es. split; [done|]. eapply holds_ext; [|done]. intros u. simpl. case_decide; [subst|done]. by destruct Hu.
Qed.

(** The gate on health in front of it. *)
Lemma expected_excluded src svc w : should_include_endpoint svc (wl_status w) = false → expected src svc w = None.
Proof. intros Hi. unfold expected. rewrite Hi. by destruct (wl_services w !! _). Qed.

Lemma expected_unnamed src svc w : wl_services w !! namespaced_hostname_of svc = None → expected src svc w = None.
Proof. intros Hp. unfold expected. by rewrite Hp. Qed.

Lemma wanted_dom W src svc v : is_Some (wanted W src svc v) → v ∈ dom W.
Proof. unfold wanted. intros [x Hx]. apply elem_of_dom. destruct (W !! v); [by eexists|done]. Qed.

Lemma wanted_delete W src svc u v :
  wanted (delete u W) src svc v = if decide (v = u) then None else wanted W src svc v.
Proof.
  unfold wanted. case_decide; [subst; by rewrite lookup_delete_eq|by rewrite lookup_delete_ne].
Qed.

Section one_workload.
Context (W : gmap string Workload) (src : option Workload) (w : Workload).
Context (Hw : W !! wl_uid w = Some w) (Hcap : (0 ≤ wl_capacity w ≤ u32_max)%Z).
Context (HW : (Z.of_nat (size W) < 2 ^ 32)%Z).

Local Abbreviation before := (wanted (delete (wl_uid w) W) src).
Local Abbreviation after := (wanted W src).

Lemma wanted_at svc : after svc (wl_uid w) = expected src svc w.
Proof. unfold wanted. by rewrite Hw. Qed.

Lemma view_split svc (E : View) :
  (∀ u, E u = before svc u) ∨ (∀ u, E u = after svc u) →
  (∀ v, is_Some (E v) → v ∈ dom W) ∧ (E (wl_uid w) = None ∨ E (wl_uid w) = expected src svc w) ∧
  ∀ v, (if decide (v = wl_uid w) then expected src svc w else E v) = after svc v.
Proof.
  intros HE. split_and!.
  - intros v. destruct HE as [->| ->]; [|apply wanted_dom]. rewrite wanted_delete. case_decide; [by intros []|].
    apply wanted_dom.
  - destruct HE as [->| ->]; [left|right; apply wanted_at]. by rewrite wanted_delete, decide_True.
  - intros v. case_decide; [subst; by rewrite wanted_at|]. destruct HE as [->| ->]; [|done].
    by rewrite wanted_delete, decide_False.
Qed.

Lemma d_insert_endpoint_show nh ports E s :
  ss_inv (services s) → sets_show E s → wl_services w !! nh = Some ports →
  (∀ nh svc, get (services s) nh = Some svc → (∀ u, E svc u = before svc u) ∨ (∀ u, E svc u = after svc u)) →
  ∃ s', d_insert_endpoint info_default nh (mkEndpoint (wl_uid w) ports (wl_status w)) w src s = Ret s' ∧
    frame s s' ∧ sets_show (λ x, if decide (namespaced_hostname_of x = nh) then after x else E x) s'.
Proof.
  intros Hss Hs Hp HE. unfold d_insert_endpoint. destruct (get (services s) nh) as [svc|] eqn:Eg.
  - pose proof (get_key _ _ _ Hss Eg) as Hk. destruct (view_split svc (E svc) (HE _ _ Eg)) as (Hd & Hu & Hv).
    destruct (should_include_endpoint svc _) eqn:Ei; simpl.
    + apply edit_set_show; [done..|]. intros es Hes.
      destruct (insert_endpoint_holds (E svc) es src svc w ports (dom W)) as (es' & Hins & Hh); try done;
        [by rewrite Hk|by rewrite size_dom|]. exists es'. split; [exact Hins|].
      eapply holds_ext; [exact Hv|exact Hh].
    + exists s. split; [done|]. split; [done|]. apply skip_show; [done..|]. intros svc'. rewrite Eg. intros [= <-] u.
      rewrite <-Hv. case_decide; [subst|done]. rewrite (expected_excluded _ _ _ Ei) in Hu |- *. by destruct Hu.
  - eexists; split; [done|]. split; [by split_and!|]. eapply (sets_show_frame _ s); [by split_and!|done|].
    apply skip_show; [done..|]. intros svc. by rewrite Eg.
Qed.

(** The name a key of a workload's service map parses to. *)
Definition host_key (kv : string * list XdsPort) : NamespacedHostname :=
  match nh_from_str kv.1 with Ok nh => nh | Err _ => mkNH "" "" end.

(** The service map of a message names the services of its workload. *)
Definition services_agree (svcs : gmap string (list XdsPort)) : Prop :=
  (∀ h ports, svcs !! h = Some ports →
     ∃ nh, nh_from_str h = Ok nh ∧ wl_services w !! nh = Some (ports_from_xds ports)) ∧
  (∀ nh, is_Some (wl_services w !! nh) → ∃ h, is_Some (svcs !! h) ∧ nh_from_str h = Ok nh).

Lemma insert_endpoints_fold l (s : DStore) :
  Forall (λ kv, ∃ nh, nh_from_str kv.1 = Ok nh) l →
  insert_endpoints info_default w l src s =
    (s' ← fold_out (λ kv, d_insert_endpoint info_default (host_key kv)
             (mkEndpoint (wl_uid w) (ports_from_xds kv.2) (wl_status w)) w src) l s; Ret (s', Ok ())).
Proof.
  intros Hl. revert s. induction Hl as [|[h ports] l [nh Hnh] _ IH]; intros s; simpl in *; [done|].
  assert (host_key (h, ports) = nh) as -> by (unfold host_key; simpl; by rewrite Hnh). rewrite Hnh. destruct (d_insert_endpoint _ _ _ _ _ _); simpl; [apply IH|done].
Qed.

(** Inserting the endpoints of a workload moves every service to the view that
    has the workload. *)
Lemma insert_endpoint_for_services_show svcs s :
  ss_inv (services s) → services_agree svcs → sets_show before s →
  ∃ s', insert_endpoint_for_services info_default w svcs src s = Ret (s', Ok ()) ∧ frame s s' ∧ sets_show after s'.
Proof.
  intros Hss [Hag Hall] Hs. unfold insert_endpoint_for_services.
  assert (∀ kv, kv ∈ map_iter svcs → nh_from_str kv.1 = Ok (host_key kv) ∧
    wl_services w !! host_key kv = Some (ports_from_xds kv.2)) as Hkey.
  { intros [h ports] (nh & Hnh & Hp)%map_iter_elem%Hag. unfold host_key. simpl. by rewrite Hnh. }
  rewrite insert_endpoints_fold by (apply Forall_forall; intros kv Hkv; eexists; by apply Hkey).
  edestruct (fold_show host_key) as (s' & -> & Hf & Hs'); [|exact Hs|].
  { intros kv s1 E Hin Hf HE Hor. apply d_insert_endpoint_show; [by eapply frame_ss_inv|done|by apply Hkey|exact Hor]. }
  simpl. exists s'. split; [done|]. split; [done|]. eapply sets_show_ext; [|exact Hs']. intros nh svc Hg u. simpl.
  case_decide as Hin; [done|]. rewrite wanted_delete. case_decide; [subst|done]. rewrite wanted_at.
  symmetry. apply expected_unnamed, eq_None_not_Some. intros Hsome. apply Hin.
  destruct (Hall _ Hsome) as (h & [ports Hh] & Hnh). apply list_elem_of_fmap. exists (h, ports).
  unfold host_key. simpl. rewrite Hnh. split; [done|]. by apply map_iter_elem.
Qed.

Lemma remove_endpoint_of_show nh E s :
  ss_inv (services s) → sets_show E s →
  (∀ nh svc, get (services s) nh = Some svc → (∀ u, E svc u = after svc u) ∨ (∀ u, E svc u = before svc u)) →
  ∃ s', remove_endpoint_of (wl_uid w) nh s = Ret s' ∧ frame s s' ∧
    sets_show (λ x, if decide (namespaced_hostname_of x = nh) then before x else E x) s'.
Proof.
  intros Hss Hs HE. unfold remove_endpoint_of. destruct (get (services s) nh) as [svc|] eqn:Eg.
  - apply edit_set_show; [done..|]. intros es Hes. destruct (holds_delete _ _ _ (wl_uid w) Hes) as (es' & -> & Hh).
    exists es'. split; [done|]. eapply holds_ext; [|done]. intros u. simpl. rewrite wanted_delete.
    case_decide; [done|]. destruct (HE _ _ Eg) as [->| ->]; [done|]. by rewrite wanted_delete, decide_False.
  - exists s. split; [done|]. split; [done|]. apply skip_show; [done..|]. by rewrite Eg.
Qed.

(** Removing them is the converse. *)
Lemma remove_endpoint_show s :
  ss_inv (services s) → sets_show after s →
  ∃ s', remove_endpoint w s = Ret s' ∧ frame s s' ∧ sets_show before s'.
Proof.
  intros Hss Hs. unfold remove_endpoint. set (s1 := set_services _ s).
  assert (frame s s1) as Hf1 by (by split_and!).
  edestruct (fold_show id (remove_endpoint_of (wl_uid w)) after before) as (s' & -> & Hf & Hs').
  2:{ by apply (sets_show_frame _ s). }
  { intros nh s2 E _ Hf HE Hor. apply remove_endpoint_of_show; [|done..]. eapply frame_ss_inv; [etrans; [exact Hf1|exact Hf]|exact Hss]. }
  exists s'. split; [done|]. split; [by etrans|]. eapply sets_show_ext; [|exact Hs']. intros nh svc Hg u. simpl.
  case_decide as Hin; [done|]. rewrite wanted_delete. case_decide; [subst|done]. rewrite wanted_at.
  apply expected_unnamed, eq_None_not_Some. intros Hsome. apply Hin. rewrite list_fmap_id.
  by apply set_iter_elem, elem_of_list_to_set, keys_elem.
Qed.
End one_workload.

(** ** Operations of the store *)

Lemma remove_service_show V nh s :
  ss_inv (services s) → sets_show V s → sets_show V (set_services (svc_remove nh (services s)).1 s).
Proof.
  intros Hss [H1 H2 H3 H4]. destruct (svc_remove_spec nh _ Hss) as [_ Hg].
  assert (∀ nh' svc, get (svc_remove nh (services s)).1 nh' = Some svc → get (services s) nh' = Some svc) as Hsub.
  { intros nh' svc. rewrite Hg. by case_decide. }
  split; simpl; eauto.
Qed.

Lemma remove_service_inv nh s : d_inv s → d_inv (set_services (svc_remove nh (services s)).1 s).
Proof.
  intros [H1 H2 H3 H4 H5]. split; simpl; [done|by apply svc_remove_spec|done..|by apply remove_service_show].
Qed.

(** Removing a workload. *)
Lemma remove_workload_inv uid s ws prev :
  d_inv s → ws_remove uid (workloads s) = (ws, Some prev) →
  ∃ s', remove_endpoint prev (set_workloads ws s) = Ret s' ∧ d_inv s' ∧
    by_uid (workloads s') = delete uid (by_uid (workloads s)) ∧ self_workload s' = self_workload s.
Proof.
  intros [H1 H2 H3 H4 H5] Hr. destruct (ws_remove_spec uid _ H1) as (Hws & Hd & Hp). rewrite Hr in Hws, Hd, Hp.
  simpl in *. symmetry in Hp. pose proof (wi_uid _ H1 _ _ Hp) as <-.
  destruct (remove_endpoint_show (by_uid (workloads s)) (self_workload s) prev Hp (set_workloads ws s))
    as (s' & -> & Hf & Hs'); [done|by apply (sets_show_frame' _ s)|].
  exists s'. split; [done|]. pose proof Hf as (Hfw & Hfs & _). simpl in Hfw, Hfs. rewrite Hfw, Hfs. split; [|done].
  split; [by rewrite Hfw|by eapply frame_ss_inv| | |]; rewrite Hfw, ?Hd.
  - intros u w [_ ?]%lookup_delete_Some. eauto.
  - rewrite map_size_delete, Hp. simpl. lia.
  - by rewrite Hfs.
Qed.

Lemma remove_internal_inv name b s :
  d_inv s →
  ∃ s', remove_internal name b s = Ret s' ∧ d_inv s' ∧
    by_uid (workloads s') = delete name (by_uid (workloads s)) ∧ self_workload s' = self_workload s.
Proof.
  intros H. unfold remove_internal. destruct (ws_remove name (workloads s)) as [ws [prev|]] eqn:Hr.
  { by eapply remove_workload_inv. }
  destruct (ws_remove_spec name _ (di_workloads _ H)) as (_ & _ & Hp). rewrite Hr in Hp. simpl in Hp.
  assert (delete name (by_uid (workloads s)) = by_uid (workloads s)) as -> by (by rewrite delete_id).
  assert (∃ s', Ret s = Ret s' ∧ d_inv s' ∧ by_uid (workloads s') = by_uid (workloads s) ∧
    self_workload s' = self_workload s) as Hsame by eauto.
  destruct b; [done|]. destruct (nh_from_str name) as [nh|]; [|done].
  destruct (Str.contains_char _ _); [done|]. eexists; split; [done|]. split; [by apply remove_service_inv|done].
Qed.

(** Inserting a workload, in place of the one of its uid. *)
Lemma put_workload_inv w svcs s :
  d_inv s → services_agree w svcs → (0 ≤ wl_capacity w ≤ u32_max)%Z →
  (Z.of_nat (S (size (by_uid (workloads s)))) < 2 ^ 32)%Z →
  ∃ s', put_workload info_default w svcs s = Ret (s', Ok ()) ∧ d_inv s' ∧
    by_uid (workloads s') = <[wl_uid w := w]> (by_uid (workloads s)) ∧ self_workload s' = self_workload s.
Proof.
  intros H Hag Hc Hsz. unfold put_workload.
  destruct (remove_internal_inv (wl_uid w) true s H) as (s1 & -> & [H1 H2 H3 H4 H5] & Hd & Hself). simpl.
  destruct (ws_insert_spec w _ H1) as [Hws Hi]. rewrite Hd, insert_delete_eq in Hi.
  set (W := <[wl_uid w := w]> (by_uid (workloads s))) in *.
  assert (delete (wl_uid w) W = by_uid (workloads s1)) as HW by (unfold W; by rewrite delete_insert_eq, Hd).
  assert ((Z.of_nat (size W) < 2 ^ 32)%Z) as HszW.
  { unfold W. rewrite map_size_insert. destruct (_ !! _); simpl; lia. }
  destruct (insert_endpoint_for_services_show W (self_workload s1) w) with (svcs := svcs)
    (s := set_workloads (ws_insert w (workloads s1)) s1) as (s' & -> & Hf & Hs'); try done.
  { by apply lookup_insert_eq. }
  { rewrite HW. by apply (sets_show_frame' _ s1). }
  exists s'. split; [done|]. pose proof Hf as (Hfw & Hfs & _). simpl in Hfw, Hfs. rewrite Hfw, Hfs. split; [|done].
  split; [by rewrite Hfw|by eapply frame_ss_inv| | |]; rewrite Hfw, ?Hi; [|done|by rewrite Hfs].
  intros u x. unfold W. rewrite lookup_insert_Some. intros [[_ <-]|[Hne Hx]]; [done|]. eapply H3.
  rewrite Hd, lookup_delete_ne; done.
Qed.

(** *** Services *)

Lemma wanted_same W src svc svc' u :
  namespaced_hostname_of svc = namespaced_hostname_of svc' → svc_load_balancer svc = svc_load_balancer svc' →
  wanted W src svc u = wanted W src svc' u.
Proof.
  intros Hk Hl. unfold wanted, expected, should_include_endpoint, ranker_of. by rewrite Hk, Hl.
Qed.

(** The rebuild loop fills the new set with the view [T]. *)
Lemma service_endpoints_loop svc src l (D : gset string) (T : View) ws (E : View) (s : DStore) wk :
  sets s !! l = Some wk → holds (levels svc) E (w_set wk) →
  NoDup (wl_uid <$> ws) →
  (∀ w, w ∈ ws → is_Some (wl_services w !! namespaced_hostname_of svc) ∧ (0 ≤ wl_capacity w ≤ u32_max)%Z ∧
     wl_uid w ∈ D ∧ T (wl_uid w) = expected src svc w ∧ E (wl_uid w) = None) →
  (∀ u, u ∉ wl_uid <$> ws → T u = E u) → (∀ v, is_Some (T v) → v ∈ D) → (Z.of_nat (size D) < 2 ^ 32)%Z →
  ∃ wk', fold_out (service_endpoint info_default (namespaced_hostname_of svc) svc src l) ws s =
           Ret (set_sets (<[l := wk']> (sets s)) s) ∧ holds (levels svc) T (w_set wk').
Proof.
  intros Hl Hh Hnd Hws HT HD Hsz. revert E s wk Hl Hh Hws HT.
  induction ws as [|w ws IH]; intros E s wk Hl Hh Hws HT; simpl.
  { exists wk. rewrite insert_id by done. split; [by destruct s|]. eapply holds_ext; [|done]. intros u.
    symmetry. apply HT, not_elem_of_nil. }
  simpl in Hnd. apply NoDup_cons in Hnd as [Hw Hnd].
  destruct (Hws w) as ([ports Hp] & Hc & HwD & HTw & HEw); [by left|].
  assert (∀ v, is_Some (E v) → v ∈ D) as HE.
  { intros v Hv. apply HD. destruct (decide (v ∈ wl_uid <$> w :: ws)) as [Hin|Hin]; [|by rewrite HT].
    apply list_elem_of_fmap in Hin as (x & -> & Hx). destruct (Hws x Hx) as (_ & _ & _ & _ & Hn).
    rewrite Hn in Hv. by destruct Hv. }
  assert (∀ u, u ∉ wl_uid <$> ws → T u = if decide (u = wl_uid w) then expected src svc w else E u) as HT'.
  { intros u Hu. case_decide; [by subst|]. apply HT. simpl. set_solver. }
  assert (∀ x, x ∈ ws → is_Some (wl_services x !! namespaced_hostname_of svc) ∧ (0 ≤ wl_capacity x ≤ u32_max)%Z ∧
    wl_uid x ∈ D ∧ T (wl_uid x) = expected src svc x ∧
    (if decide (wl_uid x = wl_uid w) then expected src svc w else E (wl_uid x)) = None) as Hws'.
  { intros x Hx. destruct (Hws x) as (? & ? & ? & ? & ?); [by right|]. do 4 (split; [done|]).
    rewrite decide_False; [done|]. intros He. apply Hw. rewrite <-He. by apply list_elem_of_fmap_2. }
  assert (service_endpoint info_default (namespaced_hostname_of svc) svc src l w s =
    if negb (should_include_endpoint svc (wl_status w)) then Ret s
    else edit_set l (insert_endpoint (mkEndpoint (wl_uid w) ports (wl_status w)) info_default w
                       (mkRanker (svc_load_balancer svc) src)) s) as -> by (unfold service_endpoint; by rewrite Hp).
  destruct (should_include_endpoint svc (wl_status w)) eqn:Ei; simpl.
  - destruct (insert_endpoint_holds E (w_set wk) src svc w ports D) as (es' & Hins & Hh'); auto.
    unfold edit_set. rewrite Hl. unfold ranker_of in Hins. rewrite Hins. simpl.
    destruct (IH Hnd _ (set_sets (<[l := mkWorker es' (w_heap wk)]> (sets s)) s) (mkWorker es' (w_heap wk))
      (lookup_insert_eq _ _ _) Hh' Hws' HT') as (wk' & -> & Hwk'). exists wk'. split; [|done]. simpl.
    by rewrite insert_insert_eq.
  - apply (IH Hnd E s wk Hl Hh); [intros x Hx|intros u Hu].
    + destruct (Hws x) as (? & ? & ? & ? & ?); [by right|]. done.
    + rewrite HT' by done. case_decide; [subst|done]. by rewrite expected_excluded.
Qed.

(** Registering a service whose set shows what it should. *)
Lemma register_service_inv s svc wk :
  d_inv s → sets s !! svc_endpoints svc = Some wk →
  holds (levels svc) (wanted (by_uid (workloads s)) (self_workload s) svc) (w_set wk) →
  (∀ nh svc', get (services s) nh = Some svc' → nh ≠ namespaced_hostname_of svc → svc_endpoints svc' ≠ svc_endpoints svc) →
  d_inv (set_services (svc_insert svc (services s)) s).
Proof.
  intros [H1 H2 H3 H4 [S1 S2 S3 S4]] Hl Hh Hfresh. destruct (svc_insert_spec svc _ H2) as [Hss Hg].
  split; simpl; try done. split; simpl; [| |done..].
  - intros nh svc'. rewrite Hg. case_decide; [|apply S1]. intros [= <-]. eauto.
  - intros nh nh' svc1 svc2. rewrite !Hg. destruct (decide (nh = _)) as [->|Hn], (decide (nh' = _)) as [->|Hn'];
      intros Hs1 Hs2 He; simplify_eq; [done|by destruct (Hfresh _ _ Hs2 Hn')|by destruct (Hfresh _ _ Hs1 Hn)|by eapply S2].
Qed.

Lemma d_inv_frame s s' : frame s s' → sets s' = sets s → d_inv s → d_inv s'.
Proof.
  intros Hf Hs [H1 H2 H3 H4 H5]. pose proof Hf as (Hw & Hself & _). split; rewrite ?Hw, ?Hself; try done.
  - by eapply frame_ss_inv.
  - by eapply sets_show_frame.
Qed.

(** The rebuild path: a fresh set, filled from the workloads. *)
Lemma rebuild_service_inv service s :
  d_inv s →
  let '(s1, l) := alloc_set (levels service) s in
  ∃ s2, fold_out (service_endpoint info_default (namespaced_hostname_of service) service (self_workload s1) l)
          (iter_by_service (workloads s1) (namespaced_hostname_of service)) s1 = Ret s2 ∧
    services s2 = services s ∧ workloads s2 = workloads s ∧ self_workload s2 = self_workload s ∧
    d_inv (set_services (svc_insert (with_endpoints l service) (services s2)) s2).
Proof.
  intros H. pose proof H as [H1 H2 H3 H4 H5]. simpl.
  set (s1 := mkDStore _ _ _ (<[next_set s := _]> _) _). set (W := by_uid (workloads s)).
  assert (∀ l, l ≠ next_set s → sets s1 !! l = sets s !! l) as Hold
    by (intros l Hl; simpl; by rewrite lookup_insert_ne).
  destruct (service_endpoints_loop service (self_workload s) (next_set s) (dom W) (wanted W (self_workload s) service)
    (iter_by_service (workloads s) (namespaced_hostname_of service)) (λ _, None) s1
    (mkWorker (new_empty (levels service)) [])) as (wk & -> & Hwk).
  - apply lookup_insert_eq.
  - apply holds_empty.
  - by apply iter_by_service_NoDup.
  - intros w [Hw Hsv]%iter_by_service_elem; [|done]. split_and!; try done; [by eapply H3..|by eapply elem_of_dom_2|].
    unfold wanted, W. by rewrite Hw.
  - intros u Hu. unfold wanted, W. destruct (by_uid (workloads s) !! u) as [w|] eqn:Hw; simpl; [|done].
    apply expected_unnamed, eq_None_not_Some. intros Hsv. apply Hu, list_elem_of_fmap. exists w.
    pose proof (wi_uid _ H1 _ _ Hw) as <-. split; [done|]. by apply iter_by_service_elem.
  - intros v. apply wanted_dom.
  - by rewrite size_dom.
  - eexists; split; [done|]. split_and!; try done. simpl. rewrite insert_insert_eq.
    assert (d_inv (mkDStore (workloads s) (services s) (self_workload s) (<[next_set s := wk]> (sets s)) (S (next_set s))))
      as Hinv.
    { destruct H5 as [S1 S2 S3 S4]. split; simpl; try done. split; simpl; [|done| |].
      - intros nh svc Hg. destruct (S1 _ _ Hg) as (x & Hx & Hh). exists x. split; [|done]. rewrite lookup_insert_ne; [done|].
        intros Hl. rewrite <-Hl, S3 in Hx; done.
      - intros l Hl. rewrite lookup_insert_ne by lia. apply S3. lia.
      - intros l x. rewrite lookup_insert_Some. intros [[_ <-]|[_ ?]]; [eauto|by eapply S4]. }
    eapply (register_service_inv _ (with_endpoints (next_set s) service) wk Hinv); simpl.
    + apply lookup_insert_eq.
    + eapply holds_ext; [|exact Hwk]. intros u. by apply wanted_same.
    + intros nh svc' Hg _ Hl. destruct H5 as [S1 S2 S3 S4]. destruct (S1 _ _ Hg) as (x & Hx & _). rewrite Hl, S3 in Hx; done.
Qed.

Lemma insert_service_internal_inv service s :
  d_inv s →
  ∃ s', insert_service_internal info_default service s = Ret s' ∧ d_inv s' ∧
    workloads s' = workloads s ∧ self_workload s' = self_workload s.
Proof.
  intros H. unfold insert_service_internal. set (key := namespaced_hostname_of service).
  set (s0 := set_services (mkServiceStore (delete key _) _ _) s).
  assert (d_inv s0) as H0 by (apply (d_inv_frame s); [by split_and!|done|done]).
  pose proof (rebuild_service_inv service s0 H0) as Hre.
  change (priority_levels (mkRanker (svc_load_balancer service) (self_workload s0))) with (levels service).
  assert (∃ s', (let '(s1, l) := alloc_set (levels service) s0 in
     s2 ← fold_out (service_endpoint info_default key service (self_workload s1) l) (iter_by_service (workloads s1) key) s1;
     Ret (set_services (svc_insert (with_endpoints l service) (services s2)) s2)) = Ret s' ∧ d_inv s' ∧
     workloads s' = workloads s ∧ self_workload s' = self_workload s) as Hreb.
  { simpl in Hre |- *. destruct Hre as (s2 & Hl & _ & Hw & Hself & Hinv). fold key in Hl.
    rewrite Hl. simpl. eauto. }
  destruct (get (services s) key) as [p|] eqn:Eg; [|done]. destruct (_ && _) eqn:Ereuse; [|done].
  apply andb_true_iff in Ereuse as [Hlb%bool_decide_eq_true _].
  pose proof (get_key _ _ _ (di_services _ H) Eg) as Hk. pose proof (di_sets _ H0) as [S1 S2 S3 S4].
  destruct (S1 key p Eg) as (wk & Hwk & Hh).
  eexists; split; [done|]. split; [|done]. apply (register_service_inv s0 _ wk); simpl; [done..| |].
  - assert (levels (with_endpoints (svc_endpoints p) service) = levels p) as ->
      by (unfold levels, ranker_of; simpl; by rewrite Hlb).
    eapply holds_ext; [|exact Hh]. intros u. apply wanted_same; [|done]. by rewrite Hk.
  - intros nh svc' Hg Hne He. apply Hne. by apply (S2 nh key svc' p).
Qed.

(** *** The gateway's own workload *)

Lemma rebucket_view W src source svc u :
  (∀ u w, W !! u = Some w → wl_uid w = u) → src = None ∨ src = Some source →
  ('(ep, cap, _) ← wanted W src svc u;
   b ← (wl ← W !! workload_uid ep; bucket_for (mkRanker (svc_load_balancer svc) (Some source)) wl);
   if decide (b < levels svc) then Some (ep, cap, b) else None) = wanted W (Some source) svc u.
Proof.
  intros HW Hsrc. unfold wanted. destruct (W !! u) as [w|] eqn:E; simpl; [|done]. unfold expected.
  destruct (wl_services w !! _) as [ports|]; simpl; [|done].
  destruct (should_include_endpoint svc _); [|done].
  assert (∀ b, bucket_for (ranker_of svc (Some source)) w = Some b → b < levels svc) as Hlt
    by (intros b; apply bucket_for_lt).
  pose proof (HW _ _ E) as Hu. destruct Hsrc as [->| ->].
  - change (bucket_for (ranker_of svc None) w) with (Some 0). simpl. rewrite Hu, E. simpl. unfold ranker_of in *.
    destruct (bucket_for _ w) as [b|]; simpl; [|done]. by rewrite decide_True by auto.
  - destruct (bucket_for (ranker_of svc (Some source)) w) as [b|] eqn:Eb; simpl; [|done]. rewrite Hu, E. simpl.
    unfold ranker_of in Eb. rewrite Eb. simpl. by rewrite decide_True by auto.
Qed.

Lemma services_list_elem st svc :
  ss_inv st → svc ∈ (map_iter (by_host st)).*2 ≫= id ↔ get st (namespaced_hostname_of svc) = Some svc.
Proof.
  intros H. rewrite list_elem_of_bind. setoid_rewrite list_elem_of_fmap. split.
  - intros (l & Hin & [h l'] & Hl' & Hl%map_iter_elem). simpl in *. subst l'. destruct (si_host _ H _ _ Hl) as (_ & Hnd & Hh).
    rewrite Forall_forall in Hh. rewrite <-(Hh _ Hin) in Hl. by apply (get_of_host st (svc_hostname svc) l).
  - unfold get. simpl. destruct (by_host st !! svc_hostname svc) as [l|] eqn:E; [|done].
    destruct (si_host _ H _ _ E) as (_ & Hnd & _). intros [Hin _]%find_ns_iff; [|done].
    exists l. split; [done|]. exists (svc_hostname svc, l). split; [done|]. by apply map_iter_elem.
Qed.

Lemma resolve_self_inv w s :
  d_inv s →
  ∃ s', resolve_self w s = Ret s' ∧ d_inv s' ∧ workloads s' = workloads s ∧
    self_workload s' = option_or (self_workload s) (Some w).
Proof.
  intros [H1 H2 H3 H4 H5]. unfold resolve_self, rebucket_all. set (W := by_uid (workloads s)) in *.
  set (s0 := set_self _ s). destruct (self_workload s0) as [source|] eqn:Es0.
  2:{ unfold s0 in Es0. simpl in Es0. by destruct (self_workload s). }
  assert (self_workload s = None ∨ self_workload s = Some source) as Hsrc.
  { unfold s0 in Es0. simpl in Es0. destruct (self_workload s); simpl in *; auto. }
  destruct (fold_show namespaced_hostname_of (rebucket_service source) (wanted W (self_workload s))
    (wanted W (Some source)) ((map_iter (by_host (services s0))).*2 ≫= id) s0) as (s' & Hs' & Hf & Hsh).
  2:{ by apply (sets_show_frame' _ s). }
  { intros svc s1 E Hin%services_list_elem Hf HE Hor; [|done]. rewrite <-(frame_get s0 s1) in Hin by done.
    apply edit_set_show; [by eapply frame_ss_inv|done..|]. intros es Hes.
    destruct (holds_rebucket _ _ _ (λ ep, wl ← find_uid (workloads s1) (workload_uid ep);
      bucket_for (mkRanker (svc_load_balancer svc) (Some source)) wl) Hes) as (es' & He & Hh'). exists es'. split; [exact He|].
    eapply holds_ext; [|exact Hh']. intros u. simpl. pose proof Hf as (Hfw & _). rewrite Hfw.
    assert (∃ src, (src = None ∨ src = Some source) ∧ E svc u = wanted W src svc u) as (src & Hs & ->).
    { destruct (Hor _ _ Hin) as [HE'|HE']; rewrite HE'; eauto. }
    apply rebucket_view; [|done]. apply (wi_uid _ H1). }
  exists s'. split; [exact Hs'|]. pose proof Hf as (Hfw & Hfs & _). rewrite Hfw, Hfs. split; [|done].
  split; rewrite ?Hfw, ?Hfs; try done; [by eapply frame_ss_inv|]. rewrite Es0.
  eapply sets_show_ext; [|exact Hsh]. intros nh svc Hg u. simpl. rewrite decide_True; [done|].
  apply list_elem_of_fmap_2, services_list_elem; [done|]. rewrite (frame_get s0 s') in Hg by done.
  by rewrite (get_key _ _ _ H2 Hg).
Qed.

(** *** Eviction workers *)

Definition worker_op (op : SetOp (T := Endpoint) (Info := Info) (Health := Health)) : bool :=
  match op with OpEvict _ _ _ | OpTimer => true | _ => false end.

Lemma spec_move_view k b M u :
  placed_view <$> spec_move k b M !! u = placed_view <$> M !! u.
Proof.
  unfold spec_move. destruct (M !! k) as [p|] eqn:E; [|done]. destruct (decide (u = k)) as [->|].
  - by rewrite lookup_insert_eq, E.
  - by rewrite lookup_insert_ne.
Qed.

Lemma holds_worker n E op wk :
  worker_op op = true → holds n E (w_set wk) → ∃ wk', set_step op wk = Ret wk' ∧ holds n E (w_set wk').
Proof.
  intros Hop (Hn & M & Hr & Hok & HM). destruct wk as [es h]. simpl in *.
  pose proof (set_step_refines n op es h M Hr Hok Hn) as Hst. destruct (spec_step n op (M, h)) as [M' h'] eqn:Esp.
  destruct Hst as (es' & Hst & Hr' & Hok' & Hn'); [by destruct op|]. eexists; split; [done|]. split; [done|].
  exists M'. split_and!; [done..|]. intros u. rewrite <-HM. destruct op; try done; simpl in Esp.
  - injection Esp as <- _. apply spec_move_view.
  - destruct (heap_pop h) as [[e rest]|]; injection Esp as <- _; [apply spec_move_view|done].
Qed.

(** One step of the worker of the set [l]. *)
Definition work (l : nat) (op : SetOp) (s : DStore) : outcome DStore :=
  match sets s !! l with
  | None => Ret s
  | Some wk => wk' ← set_step op wk; Ret (set_sets (<[l := wk']> (sets s)) s)
  end.

Lemma work_inv l op s :
  worker_op op = true → d_inv s →
  ∃ s', work l op s = Ret s' ∧ d_inv s' ∧ workloads s' = workloads s.
Proof.
  intros Hop [H1 H2 H3 H4 [S1 S2 S3 S4]]. unfold work. destruct (sets s !! l) as [wk|] eqn:Hl; [|by exists s].
  destruct (S4 _ _ Hl) as (n & E & Hh). destruct (holds_worker _ _ op _ Hop Hh) as (wk' & Hst & Hh'). rewrite Hst. simpl.
  eexists; split; [done|]. split; [|done]. split; simpl; try done. split; simpl; [|done| |].
  - intros nh svc Hg. destruct (S1 _ _ Hg) as (x & Hx & Hhx). destruct (decide (svc_endpoints svc = l)) as [<-|].
    + rewrite lookup_insert_eq. rewrite Hl in Hx. injection Hx as <-.
      destruct (holds_worker _ _ op _ Hop Hhx) as (x & Hst' & Hhx'). rewrite Hst in Hst'. injection Hst' as <-. eauto.
    + rewrite lookup_insert_ne by done. eauto.
  - intros l' Hl'. rewrite lookup_insert_ne; [by apply S3|]. intros <-. by rewrite S3 in Hl.
  - intros l' x. rewrite lookup_insert_Some. intros [[_ <-]|[_ ?]]; [eauto|by eapply S4].
Qed.
End endpoint_facts.
