(* ===== verification/DiscoveryRun.v ===== *)
(** * Runs of the discovery store

    The updates the store receives as steps, the invariant over every run, and
    what it gives the callers: the discovery handler of the xDS client, the
    address lookup, and endpoint selection for a service. *)
From stdpp Require Import base gmap strings list.
From Stdlib Require Import ZArith.
From S2P Require Import Prelude RustStd XdsClient AgentTypes DiscoveryTypes LoadBalancer Discovery DiscoveryFacts DiscoveryEndpoints.

Local Open Scope list_scope.
Local Abbreviation get := get_by_namespaced_host.

(** ** The service maps of workloads *)

Lemma foldl_insert_map {K V} `{Countable K} (l : list (K * V)) (m : gmap K V) k v :
  NoDup (l.*1) →
  (foldl (λ m kv, <[kv.1 := kv.2]> m) m l) !! k = Some v ↔ (k, v) ∈ l ∨ ((k ∉ l.*1) ∧ m !! k = Some v).
Proof.
  revert m. induction l as [|[k0 v0] l IH]; intros m; simpl.
  - intros _. split; [|by intros [?%elem_of_nil|[]]]. intros Hm. right. split; [apply not_elem_of_nil|done].
  - intros [Hk0 Hl]%NoDup_cons. rewrite (IH _ Hl), lookup_insert_Some, !elem_of_cons.
    assert ((k0, v) ∈ l → False) by (intros Hin; apply Hk0; by apply (list_elem_of_fmap_2 fst _ (k0, v))).
    destruct (decide (k = k0)); naive_solver.
Qed.

Lemma collect_map_lookup {K V} `{Countable K} (l : list (K * V)) k v :
  NoDup l.*1 → collect_map l !! k = Some v ↔ (k, v) ∈ l.
Proof. intros Hl. unfold collect_map. rewrite foldl_insert_map by done. rewrite lookup_empty. naive_solver. Qed.

Lemma nh_from_str_inj a b nh : nh_from_str a = Ok nh → nh_from_str b = Ok nh → a = b.
Proof.
  unfold nh_from_str. destruct (Str.split_once "/" a) as [[n1 h1]|] eqn:Ea; [|done].
  destruct (Str.split_once "/" b) as [[n2 h2]|] eqn:Eb; [|done]. intros [= <-] [= <- <-].
  by eapply Str.split_once_inj.
Qed.

Section conversion_facts.
Context {HO : HashOrder}.

(** The map a workload is converted to names the services of the message. *)
Lemma xds_services_agree (svcs : gmap string (list XdsPort)) l w :
  collect_results service_entry_from_xds (map_iter svcs) = Ok l → wl_services w = collect_map l →
  services_agree w svcs.
Proof.
  intros Hc%collect_results_ok Hw.
  assert (∀ kv e, service_entry_from_xds kv = Ok e → nh_from_str kv.1 = Ok e.1 ∧ e.2 = ports_from_xds kv.2) as Hentry.
  { intros [h ports] e. unfold service_entry_from_xds, nh_from_str. simpl.
    destruct (Str.split_once "/" h) as [[]|]; [|done]. by intros [= <-]. }
  assert (NoDup l.*1) as Hnd.
  { pose proof (map_iter_keys_NoDup svcs) as Hn. clear Hw. induction Hc as [|kv e kvs es He Hc IH]; simpl in *; [constructor|].
    apply NoDup_cons in Hn as [Hn1 Hn2]. constructor; [|by apply IH]. intros Hin. apply Hn1.
    apply list_elem_of_fmap in Hin as (e' & Hee & [i Hi]%list_elem_of_lookup).
    destruct (Forall2_lookup_r _ _ _ _ _ Hc Hi) as (kv' & Hkv & He').
    apply Hentry in He as [He _]. apply Hentry in He' as [He' _]. rewrite Hee in He.
    rewrite (nh_from_str_inj _ _ _ He He'). apply list_elem_of_fmap_2. by eapply list_elem_of_lookup_2. }
  split.
  - intros h ports [i Hi]%map_iter_elem%list_elem_of_lookup.
    destruct (Forall2_lookup_l _ _ _ _ _ Hc Hi) as (e & He & Hent). apply Hentry in Hent as [Hnh He2]. simpl in *.
    exists e.1. split; [done|]. rewrite Hw. apply collect_map_lookup; [done|]. rewrite <-He2. destruct e.
    by eapply list_elem_of_lookup_2.
  - intros nh [ports Hp]. rewrite Hw in Hp. apply collect_map_lookup in Hp as [i Hi]%list_elem_of_lookup; [|done].
    destruct (Forall2_lookup_r _ _ _ _ _ Hc Hi) as ([h xs] & Hkv & He). apply Hentry in He as [Hnh _]. simpl in *.
    exists h. split; [|done]. exists xs. apply map_iter_elem. by eapply list_elem_of_lookup_2.
Qed.

Lemma try_from_xds_agree r w svcs :
  try_from_xds_with_services r = Ok (w, svcs) →
  services_agree w svcs ∧ wl_capacity w = default 1%Z (xw_capacity r) ∧ wl_uid w = xw_uid r.
Proof.
  unfold try_from_xds_with_services. intros H. repeat (match type of H with
    | and_then ?x _ = _ => destruct x eqn:?; simpl in H; [|done] end).
  injection H as <- <-. split; [|done]. by eapply xds_services_agree.
Qed.

(** A local workload the file format admits: its services are only in the
    outer map, whose names parse and whose ports are [u16]. *)
Definition local_ok (lw : LocalWorkload) : Prop :=
  wl_services (lw_workload lw) = ∅ ∧ (0 ≤ wl_capacity (lw_workload lw) ≤ u32_max)%Z ∧
  ∀ h ports, lw_services lw !! h = Some ports →
    (∃ nh, nh_from_str h = Ok nh) ∧ ∀ k v, ports !! k = Some v → (0 ≤ k < 2 ^ 16 ∧ 0 ≤ v < 2 ^ 16)%Z.

Lemma ports_roundtrip (ports : gmap Z Z) :
  (∀ k v, ports !! k = Some v → (0 ≤ k < 2 ^ 16 ∧ 0 ≤ v < 2 ^ 16)%Z) →
  ports_from_xds (port_list_from_ports ports) = ports.
Proof.
  intros Hr. unfold ports_from_xds, port_list_from_ports. rewrite <-list_fmap_compose.
  assert (((λ p, (as_u16 (xp_service_port p), as_u16 (xp_target_port p))) ∘ (λ kv : Z * Z, mkXdsPort kv.1 kv.2 0)) <$>
    map_iter ports = map_iter ports) as ->.
  { transitivity (id <$> map_iter ports); [|apply list_fmap_id]. apply list_fmap_ext. intros i [k v] Hi.
    apply list_elem_of_lookup_2, map_iter_elem, Hr in Hi as [Hk Hv]. unfold as_u16. simpl.
    by rewrite !Z.mod_small. }
  apply map_eq. intros k. apply option_eq. intros v.
  rewrite collect_map_lookup by apply map_iter_keys_NoDup. apply map_iter_elem.
Qed.

Lemma local_services_agree lw :
  local_ok lw → services_agree (merge_local_services lw) (port_list_from_ports <$> lw_services lw).
Proof.
  intros (Hown & _ & Hs).
  set (key := λ kv : string * gmap Z Z, (host_key (kv.1, []), kv.2)).
  assert (∀ h, is_Some (lw_services lw !! h) → nh_from_str h = Ok (host_key (h, []))) as Hkey.
  { intros h [ports Hp]. destruct (Hs h ports Hp) as [[nh Hnh] _]. unfold host_key. simpl. by rewrite Hnh. }
  assert (wl_services (merge_local_services lw) = collect_map (key <$> map_iter (lw_services lw))) as Hw.
  { unfold merge_local_services. simpl. rewrite Hown. unfold collect_map. rewrite foldl_fmap. apply foldl_ext_in.
    intros m [h ports] Hin%map_iter_elem. unfold key. simpl. assert (nh_from_str h = Ok (host_key (h, []))) as Hh by eauto.
    unfold nh_from_str in Hh. destruct (Str.split_once "/" h) as [[]|]; [|done]. by injection Hh as <-. }
  assert (NoDup (key <$> map_iter (lw_services lw)).*1) as Hnd.
  { rewrite <-list_fmap_compose. apply NoDup_fmap_2_strong; [|eapply NoDup_fmap_1, map_iter_keys_NoDup].
    intros [h p] [h' p'] H1%map_iter_elem H2%map_iter_elem. simpl. intros He.
    assert (h = h') as <- by (eapply nh_from_str_inj; [eauto|rewrite He; eauto]). by rewrite H1 in H2; injection H2 as ->. }
  split.
  - intros h xs. rewrite lookup_fmap. destruct (lw_services lw !! h) as [ports|] eqn:E; [|done]. intros [= <-].
    exists (host_key (h, [])). split; [eauto|]. rewrite ports_roundtrip by (by eapply Hs). rewrite Hw.
    apply collect_map_lookup; [done|]. apply list_elem_of_fmap. exists (h, ports). split; [done|]. by apply map_iter_elem.
  - intros nh [ports Hp]. rewrite Hw in Hp. apply collect_map_lookup in Hp as ([h p] & Hk & Hin%map_iter_elem)%list_elem_of_fmap; [|done].
    injection Hk as -> ->. exists h. rewrite lookup_fmap, Hin. split; [by eexists|]. eauto.
Qed.
End conversion_facts.

(** ** Steps *)

Section runs.
Context {HO : HashOrder} {IM : IndexMap} {RC : RandCrate} {Info Health : Type} (info_default : Info).
Context (display : AddressError → string).
Local Abbreviation DStore := (DStore (Info := Info) (Health := Health)).

(** What changes the store: an xDS update, a reload of the local
    configuration, the resolution of the gateway's own workload, and the
    eviction worker of a set. *)
Inductive DOp :=
| DUpdate (u : XdsUpdate (option XdsAddress))
| DLocal (svcs : list Service) (wls : list LocalWorkload) (prev : DPrev)
| DResolve (w : Workload)
| DEvict (l : nat) (key : string) (until : Z) (restore_health : option Health)
| DTimer (l : nat).

Definition d_step (op : DOp) (s : DStore) : outcome DStore :=
  match op with
  | DUpdate u => fst <$> handle_address info_default display u s
  | DLocal svcs wls prev => fst <$> d_sync_local info_default svcs wls prev s
  | DResolve w => resolve_self w s
  | DEvict l key until h => work l (OpEvict key until h) s
  | DTimer l => work l OpTimer s
  end.

(** Capacities are [u32] and the store stays below [2^32] workloads. *)
Definition room (n : nat) (s : DStore) : Prop :=
  (Z.of_nat (n + size (by_uid (workloads s))) < 2 ^ 32)%Z.

Definition update_ok (u : XdsUpdate (option XdsAddress)) : Prop :=
  match u with
  | XUpdate _ (Some (XAWorkload w)) => (0 ≤ default 1 (xw_capacity w) ≤ u32_max)%Z
  | _ => True
  end.

Definition d_ok (op : DOp) (s : DStore) : Prop :=
  match op with
  | DUpdate u => update_ok u ∧ room 1 s
  | DLocal _ wls _ => Forall local_ok wls ∧ room (length wls) s
  | _ => True
  end.

Inductive d_reach : DStore → Prop :=
| reach_new : d_reach d_new
| reach_step s op s' : d_reach s → d_ok op s → d_step op s = Ret s' → d_reach s'.

Lemma d_new_inv : d_inv (d_new : DStore).
Proof.
  split; simpl; try (intros *; by rewrite lookup_empty); [apply ws_empty_inv| |done|].
  - split; simpl; intros *; by rewrite lookup_empty.
  - split; simpl; try (intros *; unfold get; simpl; by rewrite lookup_empty).
Qed.

(** An update changes the number of workloads by at most one. *)
Lemma handle_address_inv u s :
  d_inv s → update_ok u → room 1 s →
  ∃ s' r, handle_address info_default display u s = Ret (s', r) ∧ d_inv s' ∧
    size (by_uid (workloads s')) ≤ S (size (by_uid (workloads s))).
Proof.
  intros H Hu Hroom. destruct u as [name [[w|v]|]|name]; simpl.
  - unfold insert_workload. destruct (try_from_xds_with_services w) as [[wl svcs]|e] eqn:E; simpl; [|eauto 10].
    apply try_from_xds_agree in E as (Hag & Hc & _). simpl in Hu.
    destruct (put_workload_inv info_default wl svcs s) as (s' & -> & Hinv & Hw & _); try done.
    { by rewrite Hc. }
    simpl. eexists _, _; split; [done|]. split; [done|]. rewrite Hw, map_size_insert. destruct (_ !! _); simpl; lia.
  - unfold insert_service. destruct (service_from_xds v) as [svc|e]; simpl; [|eauto 10].
    destruct (insert_service_internal_inv info_default svc s H) as (s' & -> & Hinv & Hw & _). simpl.
    eexists _, _; split; [done|]. split; [done|]. rewrite Hw. lia.
  - eauto 10.
  - destruct (remove_internal_inv name false s H) as (s' & Hr & Hinv & Hw & _). unfold d_remove. rewrite Hr. simpl.
    eexists _, _; split; [done|]. split; [done|]. rewrite Hw, map_size_delete. destruct (_ !! _); simpl; lia.
Qed.

Lemma sync_workloads_inv wls old new s :
  d_inv s → Forall local_ok wls → room (length wls) s →
  ∃ s' r, sync_workloads info_default wls old new s = Ret (s', Ok r) ∧ d_inv s'.
Proof.
  intros H Hl. revert old new s H. induction Hl as [|lw wls Hlw _ IH]; intros old new s H Hroom; simpl; [eauto|].
  destruct (put_workload_inv info_default (merge_local_services lw) (port_list_from_ports <$> lw_services lw) s)
    as (s' & -> & Hinv & Hw & _); try done.
  { by apply local_services_agree. }
  { by apply Hlw. }
  { unfold room in Hroom. simpl in Hroom. lia. }
  simpl. apply IH; [done|]. unfold room in *. rewrite Hw, map_size_insert. simpl in Hroom. destruct (_ !! _); simpl; lia.
Qed.

Lemma fold_out_inv {A S} (P : S → Prop) (f : A → S → outcome S) l s :
  (∀ a s, P s → ∃ s', f a s = Ret s' ∧ P s') → P s → ∃ s', fold_out f l s = Ret s' ∧ P s'.
Proof.
  intros Hf. revert s. induction l as [|a l IH]; intros s Hs; simpl; [eauto|].
  destruct (Hf a s Hs) as (s' & -> & Hs'). simpl. eauto.
Qed.

Lemma d_sync_local_inv svcs wls prev s :
  d_inv s → Forall local_ok wls → room (length wls) s →
  ∃ s' r, d_sync_local info_default svcs wls prev s = Ret (s', Ok r) ∧ d_inv s'.
Proof.
  intros H Hl Hroom. unfold d_sync_local.
  destruct (sync_workloads_inv wls (dp_workloads prev) ∅ s H Hl Hroom) as (s1 & [old new] & -> & H1). simpl.
  destruct (fold_out_inv d_inv (insert_service_internal info_default) svcs s1) as (s2 & -> & H2); [|done|].
  { intros svc x Hx. destruct (insert_service_internal_inv info_default svc x Hx) as (x' & ? & ? & _). eauto. }
  simpl. set (s3 := foldl _ s2 _).
  assert (d_inv s3) as H3.
  { unfold s3. clearbody s3. generalize (set_iter (dp_services prev ∖ list_to_set (namespaced_hostname_of <$> svcs))).
    intros ks. revert s2 H2. induction ks as [|k ks IH]; intros s2 H2; simpl; [done|]. by apply IH, remove_service_inv. }
  destruct (fold_out_inv d_inv sync_remove_workload (set_iter old) s3) as (s4 & -> & H4); [|done|].
  { intros uid x Hx. unfold sync_remove_workload. destruct (ws_remove uid (workloads x)) as [ws [p|]] eqn:E; [|eauto].
    destruct (remove_workload_inv uid x ws p Hx E) as (x' & ? & ? & _). eauto. }
  simpl. eauto.
Qed.

Lemma d_step_inv op s : d_inv s → d_ok op s → ∃ s', d_step op s = Ret s' ∧ d_inv s'.
Proof.
  intros H Hok. destruct op as [u|svcs wls prev|w|l key until h|l]; simpl in *.
  - destruct (handle_address_inv u s H) as (s' & r & -> & ? & _); [by apply Hok..|]. simpl. eauto.
  - destruct (d_sync_local_inv svcs wls prev s H) as (s' & r & -> & ?); [by apply Hok..|]. simpl. eauto.
  - destruct (resolve_self_inv w s H) as (s' & ? & ? & _). eauto.
  - destruct (work_inv l (OpEvict key until h) s) as (s' & ? & ? & _); eauto.
  - destruct (work_inv l OpTimer s) as (s' & ? & ? & _); eauto.
Qed.

Lemma d_reach_inv s : d_reach s → d_inv s.
Proof.
  induction 1 as [|s op s' _ IH Hok Hst]; [apply d_new_inv|].
  destruct (d_step_inv op s IH Hok) as (s2 & Hst2 & H2). rewrite Hst in Hst2. by injection Hst2 as ->.
Qed.

(** ** What callers see *)

(** An endpoint in a bucket of a set, in service or evicted. *)
Definition in_bucket (es : EndpointSet Endpoint Info) (u : string) (ep : Endpoint) (cap : Z) (i : nat) : Prop :=
  ∃ g e, es !! i = Some g ∧ ((u, e) ∈ im_iter (active g) ∨ (u, e) ∈ im_iter (rejected g)) ∧
    ewi_endpoint e = ep ∧ ewi_capacity e = cap.

Lemma holds_in_bucket n E es u ep cap i : holds n E es → in_bucket es u ep cap i ↔ E u = Some (ep, cap, i).
Proof.
  intros (Hn & M & Hr & _ & HM). rewrite <-HM. unfold in_bucket, placed_view. split.
  - intros (g & e & Hg & [Hin|Hin] & <- & <-).
    + apply (repr_active _ _ Hr _ _ _ _ Hg) in Hin. by rewrite Hin.
    + apply (repr_rejected _ _ Hr _ _ _ _ Hg) in Hin. by rewrite Hin.
  - destruct (M !! u) as [[e j b]|] eqn:E1; simpl; [|done]. intros [= <- <- <-].
    destruct (repr_group _ _ _ _ Hr E1) as [g Hg]. simpl in Hg. exists g, e. split; [done|]. split; [|done].
    destruct b; [left; by apply (repr_active _ _ Hr _ _ _ _ Hg)|right; by apply (repr_rejected _ _ Hr _ _ _ _ Hg)].
Qed.

(** The sets of a reachable store, by their endpoints. *)
Lemma in_bucket_iff (s : DStore) nh svc wk u ep cap i :
  d_inv s → get (services s) nh = Some svc → sets s !! svc_endpoints svc = Some wk →
  in_bucket (w_set wk) u ep cap i ↔
  ∃ w ports, by_uid (workloads s) !! u = Some w ∧ wl_services w !! nh = Some ports ∧
    should_include_endpoint svc (wl_status w) = true ∧
    bucket_for (mkRanker (svc_load_balancer svc) (self_workload s)) w = Some i ∧
    ep = mkEndpoint u ports (wl_status w) ∧ cap = wl_capacity w.
Proof.
  intros H Hg Hwk. destruct (sh_holds _ _ (di_sets _ H) _ _ Hg) as (wk' & Hwk' & Hh).
  rewrite Hwk in Hwk'. injection Hwk' as <-.
  rewrite (holds_in_bucket _ _ _ _ _ _ _ Hh). unfold wanted, expected, ranker_of.
  rewrite (get_key _ _ _ (di_services _ H) Hg). split.
  - destruct (by_uid (workloads s) !! u) as [w|] eqn:Ew; simpl; [|done].
    destruct (wl_services w !! nh) as [ports|] eqn:Ep; simpl; [|done].
    destruct (should_include_endpoint svc _) eqn:Ei; [|done].
    destruct (bucket_for _ w) as [b|] eqn:Eb; simpl; [|done]. intros [= <- <- <-].
    exists w, ports. by rewrite (wi_uid _ (di_workloads _ H) _ _ Ew).
  - intros (w & ports & Hw & Hp & Hi & Hb & -> & ->). rewrite Hw. simpl. rewrite Hp. simpl. rewrite Hi, Hb. simpl.
    by rewrite (wi_uid _ (di_workloads _ H) _ _ Hw).
Qed.

Lemma service_set (s : DStore) nh svc :
  d_inv s → get (services s) nh = Some svc →
  ∃ wk, sets s !! svc_endpoints svc = Some wk ∧ w_set wk ≠ [] ∧ samplers_ok (w_set wk).
Proof.
  intros H Hg. destruct (sh_holds _ _ (di_sets _ H) _ _ Hg) as (wk & Hwk & Hh). exists wk. split; [done|].
  destruct Hh as (Hn & M & Hr & _ & _). split; [|by eapply repr_samplers_ok].
  intros E. rewrite E in Hn. unfold levels, priority_levels in Hn. split_matches; simpl in Hn; lia.
Qed.

(** Every endpoint of a bucket, by its pool. *)
Lemma pool_in_bucket (es : EndpointSet Endpoint Info) g e :
  g ∈ es → e ∈ im_values (active g) ∨ e ∈ im_values (rejected g) →
  ∃ u i, in_bucket es u (ewi_endpoint e) (ewi_capacity e) i.
Proof.
  intros [i Hi]%list_elem_of_lookup Hin. rewrite !elem_of_im_values in Hin.
  destruct Hin as [[u Hin]|[u Hin]]; exists u, i, g, e; auto.
Qed.

Lemma index_of_pools (g : EndpointGroup Endpoint Info) e :
  e ∈ im_values (index_of g) → e ∈ im_values (active g) ∨ e ∈ im_values (rejected g).
Proof. unfold index_of. destruct (negb _); auto. Qed.

(** C5. From the empty store, no sequence of admissible xDS updates, local
    reloads, resolutions of the gateway's own workload and eviction steps
    panics; and in every store it reaches, the endpoint set of a service holds
    exactly the endpoints of the workloads that name the service and pass its
    health policy, each once, with the workload's ports, health and capacity, in
    the locality bucket its workload has for the service's load balancer. *)
Theorem discovery_endpoints_exact (s : DStore) :
  d_reach s →
  (∀ op, d_ok op s → ∃ s', d_step op s = Ret s') ∧
  ∀ nh svc, get (services s) nh = Some svc →
    ∃ wk, sets s !! svc_endpoints svc = Some wk ∧
      ∀ u ep cap i, in_bucket (w_set wk) u ep cap i ↔
        ∃ w ports, by_uid (workloads s) !! u = Some w ∧ wl_services w !! nh = Some ports ∧
          should_include_endpoint svc (wl_status w) = true ∧
          bucket_for (mkRanker (svc_load_balancer svc) (self_workload s)) w = Some i ∧
          ep = mkEndpoint u ports (wl_status w) ∧ cap = wl_capacity w.
Proof.
  intros H%d_reach_inv. split; [intros op Hop; destruct (d_step_inv op s H Hop) as (s' & ? & _); eauto|].
  intros nh svc Hg. destruct (service_set s nh svc H Hg) as (wk & Hwk & _). exists wk. split; [done|].
  intros u ep cap i. by apply in_bucket_iff.
Qed.

(** Looking up an address returns a workload that has the address and
    whose rank (a pod over HBONE, then a pod, then another HBONE workload, then
    the rest) no other workload at the address exceeds; it returns none exactly
    when no workload has the address (a host-network workload has none), and the
    [expect] on the candidates never panics. *)
Theorem find_address_best (s : DStore) a :
  d_reach s →
  ∃ r, find_address (workloads s) a = Ret r ∧
    match r with
    | Some w => by_uid (workloads s) !! wl_uid w = Some w ∧ a ∈ wl_addrs w ∧
                ∀ u w', by_uid (workloads s) !! u = Some w' → a ∈ wl_addrs w' → wba_rank w' ≤ wba_rank w
    | None => ∀ u w, by_uid (workloads s) !! u = Some w → a ∉ wl_addrs w
    end.
Proof. intros H%d_reach_inv. by apply find_address_spec, di_workloads. Qed.

(** An active endpoint with capacity makes its group usable. *)
Lemma active_usable fu (es : EndpointSet Endpoint Info) i g u e tp svc_port c :
  samplers_ok es → es !! i = Some g → (u, e) ∈ im_iter (active g) → ewi_capacity e ≠ 0%Z →
  candidate_of fu tp svc_port e = Some c → usable fu es tp svc_port c.
Proof.
  intros Hs Hg Hin Hc Hcand. exists g, e. unfold samplers_ok in Hs. rewrite Forall_forall in Hs.
  assert (g ∈ es) as Hges by (by eapply list_elem_of_lookup_2).
  pose proof (build_sampler_inv _ _ (Hs g Hges)) as Hinv. split; [done|]. split_and!; try done.
  - destruct (sampler g); try done. destruct Hinv as [_ Hz]. by apply Hz in Hin.
  - unfold index_of. destruct (im_is_empty (active g)) eqn:Ee; simpl.
    + apply im_is_empty_true in Ee. rewrite Ee in Hin. by apply elem_of_nil in Hin.
    + apply elem_of_im_values. eauto.
Qed.

Section routing.
Context (score_cmp : Info → Info → comparison).
Context (pick_weighted : WeightedIndex → nat * nat) (pick_uniform : nat → nat * nat).

(** A workload a request to a port of the service can go to. *)
Definition serves (s : DStore) (nh : NamespacedHostname) (svc : Service) (tp svc_port : Z) (w : Workload) (i : nat) : Prop :=
  by_uid (workloads s) !! wl_uid w = Some w ∧ should_include_endpoint svc (wl_status w) = true ∧
  bucket_for (mkRanker (svc_load_balancer svc) (self_workload s)) w = Some i ∧ wl_capacity w ≠ 0%Z ∧
  ∃ ports, wl_services w !! nh = Some ports ∧ (tp = 0%Z → is_Some (ports !! svc_port)).

Lemma candidate_serves s nh svc tp svc_port wk c :
  d_inv s → get (services s) nh = Some svc → sets s !! svc_endpoints svc = Some wk →
  usable (find_uid (workloads s)) (w_set wk) tp svc_port c →
  ∃ i ports, serves s nh svc tp svc_port (c_workload c) i ∧ wl_services (c_workload c) !! nh = Some ports ∧
    c_endpoint c = mkEndpoint (wl_uid (c_workload c)) ports (wl_status (c_workload c)).
Proof.
  intros H Hg Hwk (g & e & Hin & _ & He%index_of_pools & Hcand).
  destruct (pool_in_bucket _ _ _ Hin He) as (u & i & Hb).
  apply (in_bucket_iff s nh svc) in Hb as (w & ports & Hw & Hp & Hi & Hb & Hep & Hcap); [|done..].
  pose proof (wi_uid _ (di_workloads _ H) _ _ Hw) as Hu. unfold candidate_of in Hcand.
  destruct (viable _ _ _ _) as [wl|] eqn:Ev; simpl in Hcand; [|done]. injection Hcand as <-. simpl.
  unfold viable, find_uid in Ev. rewrite Hep in Ev. simpl in Ev. rewrite Hw in Ev. simpl in Ev.
  destruct ((tp =? 0)%Z && _) eqn:Etp; [done|]. destruct (wl_capacity w =? 0)%Z eqn:Ec; [done|]. injection Ev as <-.
  exists i, ports. rewrite Hu. split; [|done]. unfold serves. rewrite Hu. to_prop. split_and!; try done.
  exists ports. split; [done|]. intros ->. simpl in Etp. by case_bool_decide.
Qed.

(** A workload in service that could serve a request is a candidate. *)
Lemma serves_usable s nh svc tp svc_port wk w i :
  d_inv s → get (services s) nh = Some svc → sets s !! svc_endpoints svc = Some wk → samplers_ok (w_set wk) →
  serves s nh svc tp svc_port w i →
  (∃ c, usable (find_uid (workloads s)) (w_set wk) tp svc_port c) ∨
  ∃ g e, w_set wk !! i = Some g ∧ (wl_uid w, e) ∈ im_iter (rejected g).
Proof.
  intros H Hg Hwk Hsm (Hw & Hi & Hb & Hc & ports & Hps & Htp).
  destruct (proj2 (in_bucket_iff s nh svc wk (wl_uid w) (mkEndpoint (wl_uid w) ports (wl_status w)) (wl_capacity w) i H Hg Hwk))
    as (g & e & Hgi & Hin & He & Hcap); [by eauto 10|].
  destruct Hin as [Hin|Hin]; [left|right; eauto]. exists (mkCandidate (ewi_endpoint e) (ewi_info e) w).
  eapply (active_usable _ _ i g (wl_uid w) e); try done; [congruence|].
  unfold candidate_of, viable, find_uid. rewrite He. simpl. rewrite Hw. simpl.
  destruct (Z.eqb_spec tp 0) as [->|]; simpl; [rewrite bool_decide_true by auto; simpl|];
    (destruct (Z.eqb_spec (wl_capacity w) 0); [done|]); done.
Qed.

(** Routing a request to a port of a service, in any store the updates
    can reach: selection never panics, whatever the random picks; an endpoint it
    returns belongs to a known workload that names the service, passes its
    health policy, has a locality bucket, capacity, and (when the service names
    no target port) a target for the port; and when it returns none, every such
    workload is evicted. *)
Theorem service_routing s nh svc svc_port tp :
  picks_ok pick_weighted pick_uniform → d_reach s → get (services s) nh = Some svc → svc_ports svc !! svc_port = Some tp →
  ∃ wk r, sets s !! svc_endpoints svc = Some wk ∧
    select_endpoint score_cmp (find_uid (workloads s)) pick_weighted pick_uniform
      (svc_ports svc) svc_port None (w_set wk) = Ret r ∧
    match r with
    | Some c => ∃ i, serves s nh svc tp svc_port (c_workload c) i
    | None => ∀ w i, serves s nh svc tp svc_port w i →
        ∃ g e, w_set wk !! i = Some g ∧ (wl_uid w, e) ∈ im_iter (rejected g)
    end.
Proof.
  intros Hp H%d_reach_inv Hg Hport. destruct (service_set s nh svc H Hg) as (wk & Hwk & Hne & Hsm). exists wk.
  destruct (select_endpoint_ok score_cmp (find_uid (workloads s)) pick_weighted pick_uniform (svc_ports svc) svc_port tp
    None (w_set wk) Hp) as (r & Hsel & Hres); [done..|].
  exists r. split; [done|]. split; [done|]. destruct r as [c|].
  - destruct Hres as [Hu _]. destruct (candidate_serves s nh svc tp svc_port wk c) as (i & ports & Hs & _); eauto.
  - intros w i Hs. destruct (serves_usable s nh svc tp svc_port wk w i) as [[c Hc]|He]; [done..| |done].
    by destruct (Hres c).
Qed.
End routing.
End runs.
