(* ===== verification/ServiceCall.v ===== *)
(** * Calls to a service

    [build_service_call] of [proxy/httpproxy.rs], which turns the service a
    route names into the connection to make: directly to a workload, through a
    waypoint, or through the gateway of another network. *)
From stdpp Require Import base gmap strings list.
From Stdlib Require Import ZArith.
From S2P Require Import Prelude RustStd XdsClient AgentTypes RouteSelect HttpRequest DiscoveryTypes LoadBalancer Discovery DiscoveryFacts DiscoveryEndpoints DiscoveryRun.

Local Open Scope string_scope.
Local Open Scope list_scope.
Local Abbreviation get := get_by_namespaced_host.

#[global] Instance Identity_eq_dec : EqDecision Identity.
Proof. solve_decision. Defined.

Inductive HboneSourceRole := HSWaypoint | HSGateway.

#[global] Instance HboneSourceRole_eq_dec : EqDecision HboneSourceRole.
Proof. solve_decision. Defined.

Record WaypointTarget := mkWaypointTarget {
  wt_address : SocketAddr;
  wt_service_hostname : string;
  wt_identities : list Identity;
}.

Record ServiceCallOverride := mkOverride {
  destination : option SocketAddr;
  destination_passthrough : bool;
  inference_failed_open : bool;
}.

Record BackendCall (BackendPolicies : Type) := mkBackendCall {
  bc_target : Target;
  bc_http_version_override : option Version;
  bc_transport_override : option (InboundProtocol * list Identity);
  bc_network_gateway : option (GatewayAddress * Identity);
  bc_waypoint : option WaypointTarget;
  bc_backend_policies : BackendPolicies;
}.
Arguments mkBackendCall {_}.
Arguments bc_target {_}.
Arguments bc_http_version_override {_}.
Arguments bc_transport_override {_}.
Arguments bc_network_gateway {_}.
Arguments bc_waypoint {_}.
Arguments bc_backend_policies {_}.

Inductive CallError := NoHealthyEndpoints.

Definition DEFAULT_HBONE_PORT : Z := 15008.

Definition identity (w : Workload) : Identity := mkSpiffe (wl_trust_domain w) (wl_namespace w) (wl_service_account w).

Definition workload_and_service_sans (wl : Workload) (svc : Service) : list Identity :=
  identity wl :: filter (λ id, id ≠ identity wl) (svc_subject_alt_names svc).

Definition resolved_workload_target_hostname (workload_hostname : string) (request_host : option string) : option string :=
  if Str.is_empty workload_hostname then None
  else match Str.strip_prefix "*." workload_hostname with
       | Some wildcard_suffix =>
           let suffix := "." +:+ wildcard_suffix in
           match request_host with
           | Some host => if Str.ends_with suffix host then Some host else None
           | None => None
           end
       | None => Some workload_hostname
       end.

Section calls.
Context {HO : HashOrder} {IM : IndexMap} {RC : RandCrate} {Info Health BackendPolicies : Type}.
Local Abbreviation DStore := (DStore (Info := Info) (Health := Health)).
Local Abbreviation BackendCall := (BackendCall BackendPolicies).

Context (score_cmp : Info → Info → comparison).
Context (pick_weighted : WeightedIndex → nat * nat) (pick_uniform : nat → nat * nat).
(** [IteratorRandom::choose]. *)
Context (choose : list Z → option Z).
(** [inputs.cfg.network]. *)
Context (network : string).

Definition select_service_target_port (ep : Endpoint) (svc : Service) (svc_port : Z)
    (override_dest : option SocketAddr) (inference_failed_open : bool) : option Z :=
  let svc_target_port := default 0%Z (svc_ports svc !! svc_port) in
  match override_dest with
  | Some ov => Some (port ov)
  | None =>
      match (if inference_failed_open then choose (map_iter (ep_port ep)).*2 else None) with
      | Some target_port => Some target_port
      | None =>
          match ep_port ep !! svc_port with
          | Some ep_target_port => Some ep_target_port
          | None => if (0 <? svc_target_port)%Z then Some svc_target_port else None
          end
      end
  end.

Definition http_version_override_of (svc : Service) (port : Z) : option Version :=
  if port_is_http2 svc port then Some HTTP_2
  else if port_is_http1 svc port then Some HTTP_11
  else None.

(** The gateway of the workload's network, when that is another network. *)
Definition network_gateway_of (s : DStore) (wl : Workload) : outcome (option (GatewayAddress * Identity)) :=
  if bool_decide (wl_network wl = network) then Ret None
  else match wl_network_gateway wl with
       | None => Ret None
       | Some gw_addr =>
           match ga_destination gw_addr with
           | DAddress net_addr =>
               gw ← find_address (workloads s) net_addr;
               Ret (option_map (λ gw_wl, (gw_addr, identity gw_wl)) gw)
           | DHostname _ => Ret None           (* not supported: a warning is logged *)
           end
       end.

Definition waypoint_ip (s : DStore) (wp : GatewayAddress) : option IpAddr :=
  match ga_destination wp with
  | DAddress net_addr => Some (na_address net_addr)
  | DHostname nh =>
      wp_svc ← get (services s) nh;
      v ← option_or (list_find_by (λ v, bool_decide (na_network v = network)) (svc_vips wp_svc)) (head (svc_vips wp_svc));
      Some (na_address v)
  end.

(** The identity of the waypoint at an address: of the workload there, or of a
    workload behind the service with that address. *)
Definition waypoint_identity (s : DStore) (ip : IpAddr) : outcome (option Identity) :=
  let net_addr := mkNetworkAddress network ip in
  wp_wl ← find_address (workloads s) net_addr;
  match wp_wl with
  | Some wp_wl => Ret (Some (identity wp_wl))
  | None =>
      match get_by_vip (services s) net_addr with
      | None => Ret None
      | Some wp_svc =>
          wk ← expect (sets s !! svc_endpoints wp_svc);       (* a handle never dangles *)
          g ← best_bucket (w_set wk);
          Ret (find_map (λ e, identity <$> find_uid (workloads s) (workload_uid (ewi_endpoint e))) (im_values (index_of g)))
      end
  end.

Definition waypoint_of (s : DStore) (svc : Service) (hbone_source : option HboneSourceRole)
    : outcome (option WaypointTarget) :=
  if svc_ingress_use_waypoint svc && negb (bool_decide (hbone_source = Some HSWaypoint)) then
    match svc_waypoint svc with
    | None => Ret None
    | Some wp =>
        match waypoint_ip s wp with
        | None => Ret None
        | Some ip =>
            id ← waypoint_identity s ip;
            Ret (option_map (λ id, mkWaypointTarget
                   (mkSocketAddr ip (if (0 <? hbone_mtls_port wp)%Z then hbone_mtls_port wp else DEFAULT_HBONE_PORT))
                   (svc_hostname svc) [id]) id)
        end
    end
  else Ret None.

(** The target when neither applies. *)
Definition direct_target (wl : Workload) (target_port : Z) (request_host : option string) : option Target :=
  match wl_ips wl with
  | [] => (λ h, THostname h target_port) <$> resolved_workload_target_hostname (wl_hostname wl) request_host
  | ip :: _ => Some (TAddress (mkSocketAddr ip target_port))
  end.

(** [build_service_call] once an endpoint is selected. *)
Definition call_candidate (s : DStore) (backend_policies : BackendPolicies) (ov : ServiceCallOverride)
    (svc : Service) (port : Z) (request_host : option string) (hbone_source : option HboneSourceRole)
    (c : Candidate (Info := Info)) : outcome (result BackendCall CallError) :=
  let wl := c_workload c in
  match select_service_target_port (c_endpoint c) svc port (destination ov) (inference_failed_open ov) with
  | None => Ret (Err NoHealthyEndpoints)
  | Some target_port =>
      network_gateway ← network_gateway_of s wl;
      waypoint ← waypoint_of s svc hbone_source;
      let target := match waypoint, network_gateway with
                    | Some wp, _ => Some (THostname (wt_service_hostname wp) port)
                    | None, Some _ => Some (THostname (svc_hostname svc) port)
                    | None, None => direct_target wl target_port request_host
                    end in
      Ret (match target with
           | None => Err NoHealthyEndpoints
           | Some target =>
               Ok (mkBackendCall target (http_version_override_of svc port)
                     (Some (wl_protocol wl, workload_and_service_sans wl svc))
                     network_gateway waypoint backend_policies)
           end)
  end.

Definition build_service_call (s : DStore) (backend_policies : BackendPolicies) (ov : ServiceCallOverride)
    (svc : Service) (port : Z) (request_host : option string) (hbone_source : option HboneSourceRole)
    : outcome (result BackendCall CallError) :=
  match destination ov, destination_passthrough ov with
  | Some dst, true =>
      Ret (Ok (mkBackendCall (TAddress dst) (http_version_override_of svc port) None None None backend_policies))
  | _, _ =>
      wk ← expect (sets s !! svc_endpoints svc);
      c ← select_endpoint score_cmp (find_uid (workloads s)) pick_weighted pick_uniform
            (svc_ports svc) port (destination ov) (w_set wk);
      match c with
      | None => Ret (Err NoHealthyEndpoints)
      | Some c => call_candidate s backend_policies ov svc port request_host hbone_source c
      end
  end.

(** ** What a call is *)

Context (info_default : Info) (display : AddressError → string).

Definition choose_ok : Prop := ∀ l, match choose l with Some x => x ∈ l | None => l = [] end.

Definition known (s : DStore) (w : Workload) : Prop := by_uid (workloads s) !! wl_uid w = Some w.

(** A workload the request may go to, and the ports it gives the service. *)
Definition eligible (s : DStore) (nh : NamespacedHostname) (svc : Service) (tp svc_port : Z) (o : option SocketAddr)
    (w : Workload) (ports : gmap Z Z) : Prop :=
  wl_services w !! nh = Some ports ∧
  match o with
  | None => ∃ i, serves s nh svc tp svc_port w i
  | Some o => known s w ∧ should_include_endpoint svc (wl_status w) = true ∧
              is_Some (bucket_for (mkRanker (svc_load_balancer svc) (self_workload s)) w) ∧
              ip o ∈ wl_ips w ∧ ∃ k, ports !! k = Some (port o)
  end.

(** The port of the workload to connect to. *)
Definition right_port (ov : ServiceCallOverride) (ports : gmap Z Z) (tp svc_port p : Z) : Prop :=
  match destination ov with
  | Some o => p = port o
  | None => if inference_failed_open ov then (∃ k, ports !! k = Some p) ∨ ports = ∅ ∧ p = tp
            else p = default tp (ports !! svc_port)
  end.

(** The gateway and the waypoint of a call are known workloads at the addresses
    the workload and the service give, and are given when they are. *)
Definition gateway_ok (s : DStore) (wl : Workload) (gw : option (GatewayAddress * Identity)) : Prop :=
  match gw with
  | Some (gw_addr, id) => wl_network wl ≠ network ∧ wl_network_gateway wl = Some gw_addr ∧
      ∃ a w, ga_destination gw_addr = DAddress a ∧ known s w ∧ a ∈ wl_addrs w ∧ id = identity w
  | None => ∀ gw_addr a w, wl_network wl ≠ network → wl_network_gateway wl = Some gw_addr →
      ga_destination gw_addr = DAddress a → known s w → a ∉ wl_addrs w
  end.

(** The address of a waypoint: the one it gives, or of the service it names the
    first one in the gateway's network, or else the first one. *)
Definition waypoint_at (s : DStore) (wp : GatewayAddress) (i : IpAddr) : Prop :=
  match ga_destination wp with
  | DAddress a => i = na_address a
  | DHostname nh => ∃ v x, get (services s) nh = Some v ∧ i = na_address x ∧
      ((∃ l1 l2, svc_vips v = l1 ++ x :: l2 ∧ na_network x = network ∧ Forall (λ y, na_network y ≠ network) l1) ∨
       Forall (λ y, na_network y ≠ network) (svc_vips v) ∧ head (svc_vips v) = Some x)
  end.

(** A workload behind a service, in the bucket [i]. *)
Definition behind (s : DStore) (v : Service) (w : Workload) (i : nat) : Prop :=
  known s w ∧ is_Some (wl_services w !! namespaced_hostname_of v) ∧ should_include_endpoint v (wl_status w) = true ∧
  bucket_for (mkRanker (svc_load_balancer v) (self_workload s)) w = Some i.

(** A workload behind a service that is evicted, and not from its first bucket. *)
Definition evicted_later (s : DStore) (v : Service) (w : Workload) (i : nat) : Prop :=
  i ≠ 0 ∧ ∃ wk g e, sets s !! svc_endpoints v = Some wk ∧ w_set wk !! i = Some g ∧ (wl_uid w, e) ∈ im_iter (rejected g).

(** A waypoint is identified by the workload at its address; when there is none,
    by a workload behind the service with that address; and it is unknown only
    when there is neither. *)
Definition waypoint_ok (s : DStore) (svc : Service) (role : option HboneSourceRole) (wt : option WaypointTarget) : Prop :=
  match wt with
  | Some wt => svc_ingress_use_waypoint svc = true ∧ role ≠ Some HSWaypoint ∧
      wt_service_hostname wt = svc_hostname svc ∧
      ∃ wp w, svc_waypoint svc = Some wp ∧ waypoint_at s wp (ip (wt_address wt)) ∧
        port (wt_address wt) = (if (0 <? hbone_mtls_port wp)%Z then hbone_mtls_port wp else 15008)%Z ∧
        wt_identities wt = [identity w] ∧ known s w ∧
        let a := mkNetworkAddress network (ip (wt_address wt)) in
        a ∈ wl_addrs w ∨
        (∀ w', known s w' → a ∉ wl_addrs w') ∧ ∃ v i, by_vip (services s) !! a = Some v ∧ behind s v w i
  | None => svc_ingress_use_waypoint svc = true → role ≠ Some HSWaypoint →
      ∀ wp ip, svc_waypoint svc = Some wp → waypoint_at s wp ip →
        let a := mkNetworkAddress network ip in
        (∀ w, known s w → a ∉ wl_addrs w) ∧
        ∀ v w i, by_vip (services s) !! a = Some v → behind s v w i → evicted_later s v w i
  end.

Definition no_one_eligible (s : DStore) (nh : NamespacedHostname) (svc : Service) (tp svc_port : Z)
    (o : option SocketAddr) (es : EndpointSet Endpoint Info) : Prop :=
  match o with
  | None => ∀ w i, serves s nh svc tp svc_port w i →
      ∃ g e, es !! i = Some g ∧ (wl_uid w, e) ∈ im_iter (rejected g)
  | Some _ => ∀ w ports, ¬ eligible s nh svc tp svc_port o w ports
  end.

(** The call made once workload [w] is picked, or why there is none. *)
Definition call_to (s : DStore) (svc : Service) (tp svc_port : Z) (bp : BackendPolicies) (ov : ServiceCallOverride)
    (request_host : option string) (role : option HboneSourceRole) (w : Workload) (ports : gmap Z Z)
    (res : result BackendCall CallError) : Prop :=
  ∃ gw wt p, gateway_ok s w gw ∧ waypoint_ok s svc role wt ∧ right_port ov ports tp svc_port p ∧
    match res with
    | Ok call => ∃ t,
        call = mkBackendCall t (http_version_override_of svc svc_port)
                 (Some (wl_protocol w, workload_and_service_sans w svc)) gw wt bp ∧
        if decide (gw = None ∧ wt = None) then direct_target w p request_host = Some t
        else t = THostname (svc_hostname svc) svc_port
    | Err NoHealthyEndpoints => gw = None ∧ wt = None ∧ wl_ips w = [] ∧
        resolved_workload_target_hostname (wl_hostname w) request_host = None
    end.

(** ** Calls in a reachable store *)

Lemma network_gateway_of_ok s wl : d_inv s → ∃ gw, network_gateway_of s wl = Ret gw ∧ gateway_ok s wl gw.
Proof.
  intros H. unfold network_gateway_of. case_bool_decide as Hn; [exists None; split; [done|]; simpl; congruence|].
  destruct (wl_network_gateway wl) as [gw_addr|] eqn:Eg; [|exists None; split; [done|]; simpl; intros; congruence].
  destruct (ga_destination gw_addr) as [a|] eqn:Ed; [|exists None; split; [done|]; simpl; intros; congruence].
  destruct (find_address_spec (workloads s) a (di_workloads _ H)) as (r & Hr & Hspec). simpl. rewrite Hr. simpl.
  eexists. split; [done|]. destruct r as [w|]; simpl.
  - destruct Hspec as (Hw & Ha & _). split_and!; try done. by exists a, w.
  - intros gw' a' w _ Hgw Ha Hw. assert (gw' = gw_addr) as -> by congruence. assert (a' = a) as -> by congruence. by eapply Hspec.
Qed.

Lemma waypoint_ip_at s wp i : waypoint_ip s wp = Some i ↔ waypoint_at s wp i.
Proof.
  unfold waypoint_ip, waypoint_at. destruct (ga_destination wp) as [a|nh]; [naive_solver|].
  destruct (get (services s) nh) as [v|]; simpl; [|naive_solver].
  destruct (list_find_by _ (svc_vips v)) as [x|] eqn:E; simpl.
  - apply list_find_by_Some in E as (l1 & l2 & El & Hx%bool_decide_eq_true & Hl1).
    assert (Forall (λ y, na_network y ≠ network) l1) as Hl1'.
    { eapply Forall_impl; [exact Hl1|]. intros y Hy%bool_decide_eq_false. done. }
    split; [intros [= <-]; exists v, x; split_and!; try done; left; by exists l1, l2|].
    intros (v' & y & [= <-] & -> & Hy). do 2 f_equal. destruct Hy as [(k1 & k2 & Ek & Hy & Hk1)|[Hno _]].
    + rewrite El in Ek. clear -Ek Hx Hy Hl1' Hk1. revert k1 Ek Hk1. induction Hl1' as [|z l1 Hz _ IH]; intros [|z' k1] Ek Hk1; simplify_eq/=.
      * congruence.
      * apply Forall_cons in Hk1 as [? _]. congruence.
      * apply Forall_cons in Hk1 as [_ ?]. eauto.
    + rewrite El in Hno. apply Forall_app in Hno as [_ [? _]%Forall_cons]. done.
  - apply list_find_by_None in E. assert (Forall (λ y, na_network y ≠ network) (svc_vips v)) as Hno.
    { eapply Forall_impl; [exact E|]. intros y Hy%bool_decide_eq_false. done. }
    destruct (head (svc_vips v)) as [x|] eqn:Eh; simpl.
    + split; [intros [= <-]; exists v, x; split_and!; try done; by right|]. intros (v' & y & [= <-] & -> & [(l1 & l2 & El & Hy & _)|[_ Hy]]); [|congruence].
      rewrite El in Hno. apply Forall_app in Hno as [_ [? _]%Forall_cons]. done.
    + split; [done|]. intros (v' & y & [= <-] & -> & [(l1 & l2 & El & _)|[_ Hy]]); [|congruence]. rewrite El in Eh. by destruct l1.
Qed.

(** The endpoints a waypoint is looked for among are workloads behind its
    service; there are none only if all are evicted, none from the first bucket. *)
Lemma waypoint_endpoints_ok s v wk g :
  d_inv s → get (services s) (namespaced_hostname_of v) = Some v → sets s !! svc_endpoints v = Some wk → best_bucket (w_set wk) = Ret g → g ∈ w_set wk →
  match find_map (λ e, identity <$> find_uid (workloads s) (workload_uid (ewi_endpoint e))) (im_values (index_of g)) with
  | Some id => ∃ w i, id = identity w ∧ behind s v w i
  | None => ∀ w i, behind s v w i → evicted_later s v w i
  end.
Proof.
  intros H Hv Hwk Hb Hg.
  assert (∀ e, e ∈ im_values (index_of g) → ∃ w i, find_uid (workloads s) (workload_uid (ewi_endpoint e)) = Some w ∧ behind s v w i) as Hall.
  { intros e Hin%index_of_pools. destruct (pool_in_bucket _ _ _ Hg Hin) as (u & j & Hbu).
    apply (in_bucket_iff s (namespaced_hostname_of v) v) in Hbu as (w & ports & Hw & Hp & Hi & Hr & Hep & _); [|done..].
    exists w, j. rewrite Hep. split; [exact Hw|]. unfold behind, known. rewrite (wi_uid _ (di_workloads _ H) _ _ Hw). eauto. }
  destruct (find_map _ _) as [id|] eqn:E.
  - apply find_map_Some in E as (l1 & e & l2 & El & He & _).
    destruct (Hall e) as (w & i & Hw & Hbe); [rewrite El; apply elem_of_app; right; by left|]. rewrite Hw in He. injection He as <-. eauto.
  - apply find_map_None in E. assert (im_values (index_of g) = []) as Hnil.
    { destruct (im_values (index_of g)) as [|e l]; [done|]. destruct (Hall e) as (w & i & Hw & _); [by left|].
      apply Forall_cons in E as [E _]. by rewrite Hw in E. }
    apply best_bucket_empty in Hb as (g0 & gs & Hset & Hact & Hrej); [|done].
    intros w i (Hw & [ports Hp] & Hi & Hr).
    destruct (proj2 (in_bucket_iff s (namespaced_hostname_of v) v wk (wl_uid w) (mkEndpoint (wl_uid w) ports (wl_status w)) (wl_capacity w) i H Hv Hwk))
      as (g' & e & Hg' & Hin & _); [by eauto 10|].
    rewrite Forall_forall in Hact. assert (im_iter (active g') = []) as Ha by (apply Hact; by eapply list_elem_of_lookup_2).
    rewrite Ha in Hin. destruct Hin as [Hin|Hin]; [by apply elem_of_nil in Hin|]. split; [|by exists wk, g', e].
    intros ->. rewrite Hset in Hg'. injection Hg' as <-. rewrite Hrej in Hin. by apply elem_of_nil in Hin.
Qed.

Lemma waypoint_identity_ok s i :
  d_inv s → let a := mkNetworkAddress network i in
  ∃ r, waypoint_identity s i = Ret r ∧
    match r with
    | Some id => ∃ w, id = identity w ∧ known s w ∧
        (a ∈ wl_addrs w ∨ (∀ w', known s w' → a ∉ wl_addrs w') ∧ ∃ v i, by_vip (services s) !! a = Some v ∧ behind s v w i)
    | None => (∀ w, known s w → a ∉ wl_addrs w) ∧ ∀ v w i, by_vip (services s) !! a = Some v → behind s v w i → evicted_later s v w i
    end.
Proof.
  intros H a. unfold waypoint_identity. fold a.
  destruct (find_address_spec (workloads s) a (di_workloads _ H)) as (r & Hr & Hspec). rewrite Hr. simpl.
  destruct r as [w|]; [eexists; split; [done|]; destruct Hspec as (Hw & Ha & _); exists w; auto|].
  assert (∀ w, known s w → a ∉ wl_addrs w) as Hno by (intros w Hw; by eapply Hspec).
  destruct (get_by_vip (services s) a) as [v|] eqn:Ev; [|exists None; split; [done|]; split; [done|]; intros v w j Hv; unfold get_by_vip in Ev; congruence].
  destruct (si_vip _ (di_services _ H) _ _ Ev) as [Hv Ha].
  destruct (service_set s _ v H Hv) as (wk & Hwk & Hne & _). rewrite Hwk. simpl.
  destruct (best_bucket_in _ Hne) as (g & Hb & Hg). rewrite Hb. simpl. eexists. split; [done|].
  pose proof (waypoint_endpoints_ok s v wk g H Hv Hwk Hb Hg) as Hw. destruct (find_map _ _) as [id|].
  - destruct Hw as (w & j & -> & Hbe). exists w. split_and!; [done|apply Hbe|]. right. split; [done|]. by exists v, j.
  - split; [done|]. intros v' w j Hv'. unfold get_by_vip in Ev. assert (v' = v) as -> by congruence. apply Hw.
Qed.

Lemma waypoint_of_ok s svc role : d_inv s → ∃ wt, waypoint_of s svc role = Ret wt ∧ waypoint_ok s svc role wt.
Proof.
  intros H. unfold waypoint_of. destruct (svc_ingress_use_waypoint svc) eqn:Eu; [|exists None; split; [done|]; simpl; congruence].
  case_bool_decide as Hr; simpl; [exists None; split; [done|]; simpl; congruence|].
  destruct (svc_waypoint svc) as [wp|] eqn:Ew; [|exists None; split; [done|]; simpl; congruence].
  assert (∀ wp' j, Some wp = Some wp' → waypoint_at s wp' j → waypoint_ip s wp = Some j) as Hat.
  { intros wp' j [= <-] Hj. by apply waypoint_ip_at. }
  destruct (waypoint_ip s wp) as [i|] eqn:Ei; [|exists None; split; [done|]; simpl; rewrite Ew; intros _ _ wp' j Hwp Hj; by specialize (Hat _ _ Hwp Hj)].
  destruct (waypoint_identity_ok s i H) as (r & Hres & Hspec). rewrite Hres. simpl. eexists. split; [done|].
  destruct r as [id|]; simpl.
  - destruct Hspec as (w & -> & Hw & Ha). split_and!; try done. exists wp, w. split_and!; try done. by apply waypoint_ip_at.
  - rewrite Ew. intros _ _ wp' j Hwp Hj. specialize (Hat _ _ Hwp Hj). injection Hat as <-. apply Hspec.
Qed.

Lemma target_port_ok uid st svc ov ports tp svc_port :
  choose_ok → svc_ports svc !! svc_port = Some tp → (0 ≤ tp)%Z →
  (destination ov = None → tp = 0%Z → is_Some (ports !! svc_port)) →
  ∃ p, select_service_target_port (mkEndpoint uid ports st) svc svc_port (destination ov) (inference_failed_open ov) = Some p ∧
       right_port ov ports tp svc_port p.
Proof.
  intros Hch Hp Htp Hz. unfold select_service_target_port, right_port. rewrite Hp. simpl.
  destruct (destination ov) as [o|]; [by eauto|]. specialize (Hz eq_refl).
  assert (∃ p, match ports !! svc_port with Some q => Some q | None => if (0 <? tp)%Z then Some tp else None end = Some p ∧
    p = default tp (ports !! svc_port)) as Hlast.
  { destruct (ports !! svc_port) as [q|]; [by eauto|]. destruct (Z.ltb_spec 0 tp); [by eauto|].
    destruct Hz as [? ?]; [lia|done]. }
  destruct (inference_failed_open ov); [|exact Hlast]. specialize (Hch (map_iter ports).*2).
  destruct (choose _) as [q|].
  - eexists. split; [done|]. apply list_elem_of_fmap in Hch as ([k q'] & -> & Hin). left. exists k. by apply map_iter_elem.
  - apply fmap_nil_inv in Hch. assert (ports = ∅) as ->.
    { apply map_empty. intros k. destruct (ports !! k) as [q|] eqn:E; [|done]. apply map_iter_elem in E. rewrite Hch in E.
      by apply elem_of_nil in E. }
    destruct Hlast as (p & -> & ->). rewrite lookup_empty. eauto.
Qed.

(** Picking an endpoint, at an address or not. *)
Lemma pick_ok s nh svc svc_port tp o :
  picks_ok pick_weighted pick_uniform → d_inv s → get (services s) nh = Some svc → svc_ports svc !! svc_port = Some tp →
  ∃ wk r, sets s !! svc_endpoints svc = Some wk ∧
    select_endpoint score_cmp (find_uid (workloads s)) pick_weighted pick_uniform
      (svc_ports svc) svc_port o (w_set wk) = Ret r ∧
    match r with
    | Some c => ∃ ports, eligible s nh svc tp svc_port o (c_workload c) ports ∧
        c_endpoint c = mkEndpoint (wl_uid (c_workload c)) ports (wl_status (c_workload c))
    | None => no_one_eligible s nh svc tp svc_port o (w_set wk)
    end.
Proof.
  intros Hp H Hg Hport. destruct (service_set s nh svc H Hg) as (wk & Hwk & Hne & Hsm). exists wk.
  destruct (select_endpoint_ok score_cmp (find_uid (workloads s)) pick_weighted pick_uniform (svc_ports svc) svc_port tp
    o (w_set wk) Hp) as (r & Hsel & Hres); [done..|].
  exists r. split; [done|]. split; [done|]. destruct o as [o|], r as [c|].
  - destruct Hres as (g & e & Hin & He & Htp & Hip & Hfu & Hep & _).
    destruct (pool_in_bucket _ _ _ Hin He) as (u & i & Hb).
    apply (in_bucket_iff s nh svc) in Hb as (w & ports & Hw & Hps & Hi & Hb & Hep' & _); [|done..].
    unfold find_uid in Hfu. rewrite Hep' in Hfu, Htp, Hep. simpl in Hfu. rewrite Hw in Hfu. injection Hfu as Hcw. rewrite <-Hcw in *.
    exists ports. unfold eligible, known. rewrite (wi_uid _ (di_workloads _ H) _ _ Hw). split_and!; try done.
    apply existsb_exists in Htp as ([k q] & Hk%list_elem_of_In & Hq). exists k. simpl in *. to_prop. subst.
    by apply elem_of_map_to_list in Hk.
  - intros w ports (Hps & Hw & Hi & [i Hb] & Hip & k & Hk).
    destruct (proj2 (in_bucket_iff s nh svc wk (wl_uid w) (mkEndpoint (wl_uid w) ports (wl_status w)) (wl_capacity w) i H Hg Hwk))
      as (g & e & Hgi & Hin & He & Hcap); [by eauto 10|].
    apply (Hres (mkCandidate (ewi_endpoint e) (ewi_info e) w)). exists g, e. rewrite !elem_of_im_values. rewrite He.
    split_and!; try done; [by eapply list_elem_of_lookup_2|destruct Hin; eauto|].
    apply existsb_exists. exists (k, port o). simpl. split; [|by apply Z.eqb_eq].
    by apply list_elem_of_In, elem_of_map_to_list.
  - destruct Hres as [Hu _]. destruct (candidate_serves s nh svc tp svc_port wk c) as (i & ports & Hs & Hps & Hep); [done..|].
    exists ports. split; [|done]. split; [done|]. by exists i.
  - intros w i Hs. destruct (serves_usable s nh svc tp svc_port wk w i) as [[c Hc]|He]; [done..| |done].
    by destruct (Hres c).
Qed.

Lemma call_candidate_ok s nh svc svc_port tp bp ov request_host role c ports :
  choose_ok → d_inv s → svc_ports svc !! svc_port = Some tp → (0 ≤ tp)%Z →
  eligible s nh svc tp svc_port (destination ov) (c_workload c) ports →
  c_endpoint c = mkEndpoint (wl_uid (c_workload c)) ports (wl_status (c_workload c)) →
  ∃ res, call_candidate s bp ov svc svc_port request_host role c = Ret res ∧
    call_to s svc tp svc_port bp ov request_host role (c_workload c) ports res.
Proof.
  intros Hch H Hport Htp [Hps He] Hep. unfold call_candidate. rewrite Hep.
  destruct (target_port_ok (wl_uid (c_workload c)) (wl_status (c_workload c)) svc ov ports tp svc_port) as (p & -> & Hrp);
    [done..| |].
  { intros E Hz. rewrite E in He. destruct He as (i & _ & _ & _ & _ & ports' & Hps' & Hk). rewrite Hps in Hps'.
    injection Hps' as <-. auto. }
  destruct (network_gateway_of_ok s (c_workload c) H) as (gw & -> & Hgw). simpl.
  destruct (waypoint_of_ok s svc role H) as (wt & -> & Hwt). simpl. eexists. split; [done|].
  exists gw, wt, p. split_and!; [done..|].
  destruct wt as [wt|]; [|destruct gw as [gw|]].
  - destruct Hwt as (_ & _ & <- & _). eexists. split; [done|]. rewrite decide_False by naive_solver. done.
  - eexists. split; [done|]. by rewrite decide_False by naive_solver.
  - destruct (direct_target (c_workload c) p request_host) as [t|] eqn:Et.
    + eexists. split; [done|]. by rewrite decide_True by done.
    + unfold direct_target in Et. destruct (wl_ips (c_workload c)); [|done]. split_and!; try done.
      by destruct (resolved_workload_target_hostname _ _).
Qed.

End calls.
