(* ===== verification/Gateway.v ===== *)
(** * The control plane of the gateway

    [state_manager.rs]: the delta-xDS client with the discovery store and the
    configuration store as its handlers. Each store discharges the [Handler]
    interface with its own invariant, and the client's theorems apply. *)
From stdpp Require Import base gmap strings list.
From Stdlib Require Import ZArith.
From S2P Require Import Prelude RustStd XdsClient XdsFacts AgentTypes RouteSet BindStore BindStoreFacts DiscoveryTypes LoadBalancer Discovery DiscoveryEndpoints DiscoveryRun.

Local Open Scope string_scope.
Local Open Scope list_scope.

Definition ADDRESS_TYPE : string := "type.googleapis.com/istio.workload.Address".
Definition ADP_TYPE : string := "type.googleapis.com/agentgateway.dev.resource.Resource".

Section gateway.
Context {RE : RegexEngine} {PL : Payloads} {HO : HashOrder} {IM : IndexMap} {RC : RandCrate}.
Context {Sockets BackendWithPolicies Info Health : Type}.
Context (info_default : Info) (display : AddressError → string).
Context (C : XdsConv BackendWithPolicies) (os_bind : SocketAddr → option Sockets) (HC : binds_keyed C).
Local Abbreviation Store := (Store Sockets BackendWithPolicies).
Local Abbreviation DStore := (DStore (Info := Info) (Health := Health)).

(** ** The stores as handlers *)

Lemma discovery_total us n (s : DStore) :
  Forall (payload_ok (λ a, update_ok (XUpdate "" a))) us → d_inv s ∧ room (length us + n)%nat s →
  ∃ s' r, d_handle info_default display us s = Ret (s', r) ∧ d_inv s' ∧ room n s'.
Proof.
  intros Hus H. unfold d_handle, handle_single_resource.
  destruct (handle_each_inv (handle_address info_default display) (λ a, update_ok (XUpdate "" a))
    (λ n s, d_inv s ∧ room n s) us n s []) as (s' & rej & -> & Hs'); [|done..|].
  - intros u m x Hu [Hx Hroom]. destruct (handle_address_inv info_default display u x) as (x' & r & Hh & Hx' & Hsz).
    + done.
    + by destruct u.
    + unfold room in *. lia.
    + exists x', r. split_and!; try done. unfold room in *. lia.
  - simpl. eauto.
Qed.

Lemma discovery_mono (m n : nat) (s : DStore) : (m ≤ n)%nat → d_inv s ∧ room n s → d_inv s ∧ room m s.
Proof. intros Hmn [Hs Hr]. split; [done|]. unfold room in *. lia. Qed.

#[local] Instance discovery_handler : Handler (option XdsAddress) DStore := {
  h_handle := d_handle info_default display;
  h_ok a := update_ok (XUpdate "" a);
  h_inv n s := d_inv s ∧ room n s;
  h_total := discovery_total;
  h_mono := discovery_mono;
}.

Lemma binds_total us (s : Store) :
  Forall (payload_ok (converts C)) us → store_wf s → ∃ s' r, handle C os_bind us s = Ret (s', r) ∧ store_wf s'.
Proof.
  intros Hus Hs. unfold handle. pose proof (handle_loop_ok C os_bind us s [] HC Hs) as Hl.
  destruct (handle_loop C os_bind us s []) as [[s' rej]|]; [|done]. simpl. destruct Hl. eauto.
Qed.

#[local] Instance binds_handler : Handler (option (XdsKind C)) Store := {
  h_handle := handle C os_bind;
  h_ok := converts C;
  h_inv _ s := store_wf s;
  h_total us n s Hus Hs := binds_total us s Hus Hs;
  h_mono _ _ _ _ Hs := Hs;
}.

(** ** The client of [StateManager::new] *)

Record Stores := mkStores { st_binds : Store; st_discovery : DStore }.

Section config.
(** [prost]'s decoders. A [u32] field decodes to a [u32]. *)
Context (decode_address : list Z → result (option XdsAddress) string).
Context (decode_resource : list Z → result (option (XdsKind C)) string).
Context (to_json : list RejectedConfigMessage → string).

Definition address_slot : HandlerSlot (W := Stores) :=
  mkSlot _ _ decode_address discovery_handler st_discovery (λ d w, mkStores (st_binds w) d).
Definition adp_slot : HandlerSlot (W := Stores) :=
  mkSlot _ _ decode_resource binds_handler st_binds (λ b w, mkStores b (st_discovery w)).

Definition gateway_config (gateway namespace ip pod pod_ns node : string) : Config (W := Stores) :=
  with_watched_handler ADP_TYPE adp_slot
    (with_watched_handler ADDRESS_TYPE address_slot (config_new gateway namespace ip pod pod_ns node)).

Definition stores_inv (n : nat) (w : Stores) : Prop := store_wf (st_binds w) ∧ d_inv (st_discovery w) ∧ room n (st_discovery w).

Lemma gateway_world gateway namespace ip pod pod_ns node arrives :
  (∀ body a, decode_address body = Ok a → update_ok (XUpdate "" a)) →
  (∀ body k, arrives body → decode_resource body = Ok k → converts C k) →
  world_ok (gateway_config gateway namespace ip pod pod_ns node) arrives stores_inv.
Proof.
  intros Hdec Hconv. assert (∀ t h, handlers (gateway_config gateway namespace ip pod pod_ns node) !! t = Some h →
    h = adp_slot ∨ h = address_slot) as Hh.
  { intros t h. simpl. rewrite !lookup_insert_Some, lookup_empty. naive_solver. }
  split.
  - intros t h body x Ht Ha. destruct (Hh _ _ Ht) as [->| ->]; [by apply Hconv|apply Hdec].
  - intros t h n w Ht (Hb & Hd & Hr). destruct (Hh _ _ Ht) as [->| ->]; simpl; auto.
  - intros t h m n w st Ht Hmn (Hb & Hd & Hr). destruct (Hh _ _ Ht) as [->| ->]; simpl.
    + intros Hst. split; [done|]. by apply (discovery_mono m n).
    + intros [Hst Hroom]. by split_and!.
  - intros m n w Hmn (Hb & Hd & Hr). split; [done|]. by apply (discovery_mono m n).
Qed.

(** Every watched type has its handler. *)
Lemma gateway_watched gateway namespace ip pod pod_ns node q :
  q ∈ initial_requests (gateway_config gateway namespace ip pod pod_ns node) →
  is_Some (handlers (gateway_config gateway namespace ip pod pod_ns node) !! dq_type_url q).
Proof.
  unfold gateway_config, with_watched_handler. simpl. rewrite lookup_insert_is_Some, lookup_insert_is_Some.
  intros [->|[->|[]%elem_of_nil]%elem_of_cons]%elem_of_cons; simpl; [right; split; [done|]|]; by left.
Qed.

(** C12. The whole control plane: over whatever connections and responses, as
    long as the server sends fewer than [2^32] resources in all and none of them
    panics while it is converted, capacities decode to [u32]s and conversion
    files a bind's listeners under their keys, the client and both stores run
    without a panic; the route sets, policy index and listener maps of the
    configuration store and the indexes and endpoint sets of the discovery store
    stay consistent; every connection opens with one request per
    watched type and queues one answer for every message, with its type and
    nonce; and the reconnection delay stays between 10 ms and 15 s. *)
Theorem gateway_client_safe gateway namespace ip pod pod_ns node ipv6 cns :
  (∀ body a, decode_address body = Ok a → update_ok (XUpdate "" a)) →
  (∀ body k, received cns body → decode_resource body = Ok k → converts C k) →
  (Z.of_nat (total_cost (run_messages cns)) < 2 ^ 32)%Z →
  let cfg := gateway_config gateway namespace ip pod pod_ns node in
  ∃ w' c' sents b,
    ads_run to_json cns INITIAL_BACKOFF (mkStores (store_new ipv6) d_new) (ads_new cfg) = Ret (w', c', sents, b) ∧
    store_wf (st_binds w') ∧ d_inv (st_discovery w') ∧ (10 ≤ b ≤ 15000)%Z ∧
    Forall2 (λ cn sent, ∃ opening acks, sent = opening ++ acks ∧
      dq_type_url <$> opening = [ADDRESS_TYPE; ADP_TYPE] ∧ Forall2 answers (cn_received cn) acks) cns sents.
Proof.
  intros Hdec Hconv Hcost cfg.
  destruct (ads_run_total to_json cfg (received cns) stores_inv (gateway_world _ _ _ _ _ _ _ Hdec Hconv) cns INITIAL_BACKOFF 0
    (mkStores (store_new ipv6) d_new) (ads_new cfg)) as (w' & c' & sents & b & Hrun & (Hb & Hd & _) & Hbk & Hsent & _).
  - done.
  - apply received_arrive.
  - split; [apply store_new_wf|]. split; [apply d_new_inv|]. unfold room. simpl. rewrite map_size_empty. lia.
  - by vm_compute.
  - exists w', c', sents, b. split_and!; try done; [by apply Hbk..|].
    eapply Forall2_impl; [exact Hsent|]. intros cn sent (c & qs & Hc & -> & Hqs).
    exists (opening_requests c), qs. split; [done|]. split; [|done]. unfold opening_requests. by rewrite Hc.
Qed.
End config.
End gateway.
