(* ===== verification/MergeStream.v ===== *)
(** * Merging upstream streams

    [mcp/mergestream.rs]: a request fanned out to several MCP servers gives one
    stream per server; [MergeStream] forwards their messages as they come and
    ends with one message merged from the servers' responses.

    A stream is the sequence of results its polls give. [streams] and
    [terminal_messages] are indexed alike in the source; the model pairs them in
    slots. *)
From stdpp Require Import base strings list.
From S2P Require Import Prelude RustStd.

Inductive FailureMode := FailClosed | FailOpen.

#[global] Instance FailureMode_eq_dec : EqDecision FailureMode.
Proof. solve_decision. Defined.

Section merge.
(** Notifications and other messages that are not responses; results of
    responses; errors of a client. *)
Context {Msg Res Err_ : Type}.
(** The error for a stream that ends without a response. *)
Context (ended_unexpectedly : Err_).
(** The merge function of the request. *)
Context (merge : list (string * Res) → result Res Err_).

(** One poll of a server's stream; the end of the list is the end of the
    stream. *)
Inductive StreamEvent :=
| SOther (m : Msg)
| SResponse (r : Res)
| SErr (e : Err_)
| SPending.

Inductive Message := Other (m : Msg) | Merged (r : Res).

Inductive PollNext :=
| Pending
| Ready (item : option (result Message Err_)).

Record Slot := mkSlot {
  sl_stream : option (string * list StreamEvent);
  sl_terminal : option (string * Res);
}.

Record MergeStream := mkMergeStream {
  ms_slots : list Slot;
  ms_complete : bool;
  ms_merge : bool;                 (* the merge function has not been taken *)
  ms_failure_mode : FailureMode;
}.

Definition merge_new (streams : list (string * list StreamEvent)) (with_merge : bool) (mode : FailureMode)
    : MergeStream :=
  mkMergeStream ((λ s, mkSlot (Some s) None) <$> streams) false with_merge mode.

(** How the loop over the streams ends. *)
Inductive LoopEnd :=
| Emit (m : Msg)
| Fatal (e : Err_)
| Polled (any_pending : bool).

Definition or_pending (b : bool) (o : LoopEnd) : LoopEnd :=
  match o with Polled p => Polled (b || p) | _ => o end.

Fixpoint poll_slots (mode : FailureMode) (slots : list Slot) : list Slot * LoopEnd :=
  match slots with
  | [] => ([], Polled false)
  | s :: rest =>
      let continue (s' : Slot) (pending : bool) :=
        let '(rest', o) := poll_slots mode rest in (s' :: rest', or_pending pending o) in
      match sl_stream s with
      | None => continue s false
      | Some (k, evs) =>
          match evs with
          | SResponse r :: _ => continue (mkSlot None (Some (k, r))) false
          | SErr e :: evs' =>
              match mode with
              | FailOpen => continue (mkSlot None (sl_terminal s)) false
              | FailClosed => (mkSlot (Some (k, evs')) (sl_terminal s) :: rest, Fatal e)
              end
          | SOther m :: evs' => (mkSlot (Some (k, evs')) (sl_terminal s) :: rest, Emit m)
          | SPending :: evs' => continue (mkSlot (Some (k, evs')) (sl_terminal s)) true
          | [] =>
              match mode with
              | FailOpen => continue (mkSlot None (sl_terminal s)) false
              | FailClosed => (s :: rest, Fatal ended_unexpectedly)
              end
          end
      end
  end.

(** [merge_terminal_messages]. *)
Definition merge_terminal_messages (ms : MergeStream) : outcome (MergeStream * result Message Err_) :=
  let msgs := omap sl_terminal (ms_slots ms) in
  _ ← expect (if ms_merge ms then Some () else None);
  Ret (mkMergeStream ((λ s, mkSlot (sl_stream s) None) <$> ms_slots ms) (ms_complete ms) false (ms_failure_mode ms),
       match merge msgs with Ok r => Ok (Merged r) | Err e => Err e end).

Definition poll_next (ms : MergeStream) : outcome (MergeStream * PollNext) :=
  if ms_complete ms then Ret (ms, Ready None)
  else
    let '(slots, o) := poll_slots (ms_failure_mode ms) (ms_slots ms) in
    let ms' complete := mkMergeStream slots complete (ms_merge ms) (ms_failure_mode ms) in
    match o with
    | Emit m => Ret (ms' false, Ready (Some (Ok (Other m))))
    | Fatal e => Ret (ms' true, Ready (Some (Err e)))
    | Polled true => Ret (ms' false, Pending)
    | Polled false =>
        if ms_merge ms then '(ms, r) ← merge_terminal_messages (ms' true); Ret (ms, Ready (Some r))
        else Ret (ms' true, Ready None)
    end.

(** A reader polls until the stream ends; the items it gets, and whether the
    end was reached in [n] polls. *)
Fixpoint drive (n : nat) (ms : MergeStream) : outcome (list (result Message Err_) * bool) :=
  match n with
  | 0 => Ret ([], false)
  | S n' =>
      '(ms, p) ← poll_next ms;
      match p with
      | Pending => drive n' ms
      | Ready None => Ret ([], true)
      | Ready (Some item) => '(items, fin) ← drive n' ms; Ret (item :: items, fin)
      end
  end.

(** ** Reference: what each stream contributes *)

(** The messages of a stream before it ends, and how it ends: with a response,
    or with a failure. *)
Fixpoint others (evs : list StreamEvent) : list Msg :=
  match evs with
  | SOther m :: evs' => m :: others evs'
  | SPending :: evs' => others evs'
  | _ => []
  end.

Fixpoint ending (evs : list StreamEvent) : result Res Err_ :=
  match evs with
  | SOther _ :: evs' | SPending :: evs' => ending evs'
  | SResponse r :: _ => Ok r
  | SErr e :: _ => Err e
  | [] => Err ended_unexpectedly
  end.

(** The responses, in the order of the streams. *)
Definition responses (streams : list (string * list StreamEvent)) : list (string * Res) :=
  omap (λ s, match ending s.2 with Ok r => Some (s.1, r) | Err _ => None end) streams.

(** The events left. *)
Definition weight (s : Slot) : nat := match sl_stream s with Some (_, evs) => length evs | None => 0 end.
Definition total (slots : list Slot) : nat := sum_list (weight <$> slots).

(** ** Facts *)

Section facts.
Context (mode : FailureMode).

(** A slot whose stream has delivered [done]. *)
Definition slot_ok (s : string * list StreamEvent) (sl : Slot) (done : list Msg) : Prop :=
  match sl_stream sl with
  | Some (k, evs) => k = s.1 ∧ sl_terminal sl = None ∧ others s.2 = done ++ others evs ∧ ending s.2 = ending evs
  | None => others s.2 = done ∧
      match ending s.2 with
      | Ok r => sl_terminal sl = Some (s.1, r)
      | Err _ => sl_terminal sl = None ∧ mode = FailOpen
      end
  end.

Definition finished (sl : Slot) : Prop := sl_stream sl = None.

Lemma total_cons sl slots : total (sl :: slots) = weight sl + total slots.
Proof. done. Qed.

Lemma total_finished slots : Forall finished slots → total slots = 0.
Proof. induction 1 as [|sl l Hsl _ IH]; [done|]. rewrite total_cons, IH. unfold weight. by rewrite Hsl. Qed.

Lemma poll_slots_ok ss slots dones :
  Forall3 slot_ok ss slots dones →
  let '(slots', o) := poll_slots mode slots in
  match o with
  | Emit m => ∃ dones', Forall3 slot_ok ss slots' dones' ∧ total slots' < total slots ∧
      concat dones' ≡ₚ concat dones ++ [m] ∧ Forall2 (λ d d', d' = d ∨ d' = d ++ [m]) dones dones'
  | Fatal e => mode = FailClosed ∧ ∃ s, s ∈ ss ∧ ending s.2 = Err e
  | Polled p => Forall3 slot_ok ss slots' dones ∧
      if p then total slots' < total slots else Forall finished slots'
  end.
Proof.
  induction 1 as [|s sl done ss slots dones Hs Hrest IH]; simpl; [by repeat constructor|].
  destruct (poll_slots mode slots) as [rest' o] eqn:Ep.
  (* the loop goes on with the slot [sl'] *)
  assert (∀ sl' (pending : bool), slot_ok s sl' done →
    (if pending then weight sl' < weight sl else finished sl' ∧ weight sl' ≤ weight sl) →
    match or_pending pending o with
    | Emit m => ∃ dones', Forall3 slot_ok (s :: ss) (sl' :: rest') dones' ∧ total (sl' :: rest') < total (sl :: slots) ∧
        concat dones' ≡ₚ concat (done :: dones) ++ [m] ∧
        Forall2 (λ d d', d' = d ∨ d' = d ++ [m]) (done :: dones) dones'
    | Fatal e => mode = FailClosed ∧ ∃ x, x ∈ s :: ss ∧ ending x.2 = Err e
    | Polled p => Forall3 slot_ok (s :: ss) (sl' :: rest') (done :: dones) ∧
        if p then total (sl' :: rest') < total (sl :: slots) else Forall finished (sl' :: rest')
    end) as Hgo.
  { intros sl' pending Hsl' Hp. rewrite !total_cons.
    assert (weight sl' ≤ weight sl) as Hle by (destruct pending; [lia|by apply Hp]).
    destruct o as [m|e|p]; simpl.
    - destruct IH as (dones' & Hd & Ht & Hc & Hf). exists (done :: dones'). split_and!; [by constructor|lia| |by constructor; [left|]].
      simpl. by rewrite Hc, app_assoc.
    - destruct IH as [Hm (x & Hx & He)]. split; [done|]. exists x. split; [by right|done].
    - destruct IH as [Hd Hx]. split; [by constructor|]. destruct pending, p; simpl; [lia| |lia|by constructor; [apply Hp|]].
      rewrite (total_finished rest' Hx). lia. }
  destruct s as [k0 evs0]. unfold slot_ok in Hs. destruct (sl_stream sl) as [[k evs]|] eqn:Esl; simpl in Hs.
  2:{ apply Hgo; [unfold slot_ok; by rewrite Esl|]. by split. }
  assert (weight sl = length evs) as Hwt by (unfold weight; by rewrite Esl).
  destruct Hs as (-> & Hterm & Ho & He). destruct evs as [|ev evs]; simpl in Ho, He, Hwt.
  - rewrite app_nil_r in Ho. destruct mode eqn:Em.
    + split; [done|]. exists (k0, evs0). split; [by left|done].
    + apply Hgo; [unfold slot_ok; simpl; by rewrite He|]. split; [done|]. unfold weight at 1; simpl. lia.
  - destruct ev as [m|r|e|].
    + exists ((done ++ [m]) :: dones). split_and!.
      * constructor; [|done]. unfold slot_ok. simpl. split_and!; try done. by rewrite <-app_assoc.
      * rewrite !total_cons, Hwt. unfold weight. simpl. lia.
      * simpl. rewrite <-!app_assoc. f_equiv. apply Permutation_app_comm.
      * constructor; [by right|]. clear. induction dones; constructor; auto.
    + rewrite app_nil_r in Ho. apply Hgo; [unfold slot_ok; simpl; by rewrite He|]. split; [done|].
      unfold weight at 1; simpl. lia.
    + rewrite app_nil_r in Ho. destruct mode eqn:Em.
      * split; [done|]. exists (k0, evs0). split; [by left|done].
      * apply Hgo; [unfold slot_ok; simpl; by rewrite He|]. split; [done|]. unfold weight at 1; simpl. lia.
    + apply Hgo; [unfold slot_ok; simpl; by rewrite Hterm|]. rewrite Hwt. unfold weight. simpl. lia.
Qed.

(** When every stream is done, everything has been delivered. *)
Lemma finished_done ss slots dones :
  Forall3 slot_ok ss slots dones → Forall finished slots →
  dones = (λ s, others s.2) <$> ss ∧ omap sl_terminal slots = responses ss ∧
  (mode = FailClosed → Forall (λ s, ∃ r, ending s.2 = Ok r) ss).
Proof.
  induction 1 as [|s sl done ss slots dones Hs _ IH]; intros Hf; [by split_and!|].
  apply Forall_cons in Hf as [Hsl Hf]. destruct (IH Hf) as (-> & IHr & IHm). unfold slot_ok in Hs. rewrite Hsl in Hs.
  destruct Hs as [<- Hend]. unfold responses in *. csimpl. rewrite IHr. destruct (ending s.2) as [r|e] eqn:Ee.
  - rewrite Hend. split_and!; try done. intros Hm. constructor; eauto.
  - destruct Hend as [-> Hopen]. split_and!; try done. congruence.
Qed.

Definition final_items (ss : list (string * list StreamEvent)) (with_merge : bool) : list (result Message Err_) :=
  if with_merge then [match merge (responses ss) with Ok r => Ok (Merged r) | Err e => Err e end] else [].

Definition forwarded (xs : list Msg) : list (result Message Err_) := (λ m, Ok (Other m)) <$> xs.

Lemma sublists_snoc (dones dones' : list (list Msg)) out m :
  Forall (λ d, d `sublist_of` out) dones → Forall2 (λ d d', d' = d ∨ d' = d ++ [m]) dones dones' →
  Forall (λ d, d `sublist_of` out ++ [m]) dones'.
Proof.
  intros Hs Hd. induction Hd as [|d d' ds ds' Hd _ IH]; [constructor|]. apply Forall_cons in Hs as [H1 H2].
  constructor; [|by apply IH]. destruct Hd as [->| ->]; [by apply sublist_inserts_r|by apply sublist_app].
Qed.

Lemma drive_ok n ss slots dones out m0 :
  Forall3 slot_ok ss slots dones → out ≡ₚ concat dones → Forall (λ d, d `sublist_of` out) dones →
  total slots + 2 ≤ n →
  ∃ items, drive n (mkMergeStream slots false m0 mode) = Ret (items, true) ∧
    ((∃ xs, items = forwarded xs ++ final_items ss m0 ∧ out ++ xs ≡ₚ concat ((λ s, others s.2) <$> ss) ∧
        Forall (λ s, others s.2 `sublist_of` out ++ xs) ss ∧
        (mode = FailClosed → Forall (λ s, ∃ r, ending s.2 = Ok r) ss)) ∨
     (mode = FailClosed ∧ ∃ xs e s, items = forwarded xs ++ [Err e] ∧ s ∈ ss ∧ ending s.2 = Err e)).
Proof.
  revert slots dones out. induction n as [|n IH]; intros slots dones out Hok Hout Hsub Hn; [lia|]. simpl.
  unfold poll_next. simpl. pose proof (poll_slots_ok _ _ _ Hok) as Hp.
  destruct (poll_slots mode slots) as [slots' o]. destruct o as [m|e|[|]].
  - destruct Hp as (dones' & Hok' & Ht & Hc & Hd). simpl.
    destruct (IH slots' dones' (out ++ [m])) as (items & -> & Hitems); [done| | |lia|].
    { by rewrite Hout, Hc. }
    { by eapply sublists_snoc. }
    simpl. exists (Ok (Other m) :: items). split; [done|].
    destruct Hitems as [(xs & -> & Hperm & Hsubs & Hm)|(Hm & xs & e & s & -> & Hs & He)].
    + left. exists (m :: xs). rewrite <-app_assoc in Hperm, Hsubs. by split_and!.
    + right. split; [done|]. exists (m :: xs), e, s. by split_and!.
  - destruct Hp as (Hm & s & Hs & He). simpl. destruct n as [|n]; [lia|]. simpl.
    eexists. split; [done|]. right. split; [done|]. by exists [], e, s.
  - destruct Hp as (Hok' & Ht). simpl. apply (IH slots' dones out); (done || lia).
  - destruct Hp as (Hok' & Hf). destruct (finished_done _ _ _ Hok' Hf) as (-> & Hr & Hm).
    assert (out ++ [] ≡ₚ concat ((λ s, others s.2) <$> ss) ∧
      Forall (λ s : string * list StreamEvent, others s.2 `sublist_of` out ++ []) ss) as [Hperm Hsubs].
    { rewrite app_nil_r. split; [done|]. by apply Forall_fmap in Hsub. }
    destruct m0; simpl.
    + unfold merge_terminal_messages. simpl. rewrite Hr. destruct n as [|n]; [lia|]. simpl.
      eexists. split; [done|]. left. exists []. by split_and!.
    + eexists. split; [done|]. left. exists []. by split_and!.
Qed.
End facts.
End merge.

(** C29. Merging the answers of several servers. Polled until it ends, which
    takes at most two more polls than the streams have events, the merged stream
    never panics and either every stream ended with a response (or, failing
    open, was skipped): then every message of every stream has been forwarded
    exactly once, each stream's in order, followed by the one merged response
    made from the streams' responses in the order of the servers. Or, failing
    closed, some stream failed, and the merged stream ends with that failure and
    no merged response. *)
Theorem merge_stream_correct {Msg Res E} (ended : E) (merge : list (string * Res) → result Res E)
    (streams : list (string * list (StreamEvent (Msg := Msg) (Res := Res) (Err_ := E)))) with_merge mode n :
  total (ms_slots (merge_new streams with_merge mode)) + 2 ≤ n →
  ∃ items, drive ended merge n (merge_new streams with_merge mode) = Ret (items, true) ∧
    ((∃ xs, items = forwarded xs ++ final_items ended merge streams with_merge ∧
        xs ≡ₚ concat ((λ s, others s.2) <$> streams) ∧ Forall (λ s, others s.2 `sublist_of` xs) streams ∧
        (mode = FailClosed → Forall (λ s, ∃ r, ending ended s.2 = Ok r) streams)) ∨
     (mode = FailClosed ∧ ∃ xs e s, items = forwarded xs ++ [Err e] ∧ s ∈ streams ∧ ending ended s.2 = Err e)).
Proof.
  intros Hn. apply (drive_ok ended merge mode n streams _ ((λ _, []) <$> streams) []); [| | |done]; clear Hn; simpl.
  - induction streams as [|[k evs] ss IH]; constructor; [|done]. by split_and!.
  - induction streams as [|s ss IH]; [done|]. simpl. done.
  - apply Forall_fmap, Forall_true. intros s. simpl. constructor.
Qed.
