(* ===== verification/Mcp.v ===== *)
(** * The MCP relay

    [mcp/handler.rs], [mcp/upstream/mod.rs], [mcp/rbac.rs] and the request
    dispatch of [mcp/session.rs]: the servers behind one MCP backend, the names
    their tools, prompts and resources get in a merged listing, the server and
    name a request is sent to, the authorization in between, and the session
    state of the servers.

    Listed items carry their name and an opaque payload. The CEL executor for a
    resource is a parameter, as for HTTP authorization. *)
From stdpp Require Import base gmap strings list.
From Stdlib Require Import ZArith Ascii.
From S2P Require Import Prelude RustStd Authorization AgentTypes DiscoveryTypes LoadBalancer MergeStream.

Local Open Scope string_scope.
Local Open Scope list_scope.

(** ** Target names *)

Definition is_label_char (a : ascii) : bool :=
  let n := N_of_ascii a in
  (((97 <=? n) && (n <=? 122)) || ((48 <=? n) && (n <=? 57)))%N.

Fixpoint last_char (s : string) : option ascii :=
  match s with
  | EmptyString => None
  | String a EmptyString => Some a
  | String _ s' => last_char s'
  end.

(** [[a-z0-9]([-a-z0-9]*[a-z0-9])?] *)
Definition is_label (s : string) : bool :=
  match s with
  | EmptyString => false
  | String a _ =>
      is_label_char a && match last_char s with Some z => is_label_char z | None => false end &&
      Str.all_chars (λ c, is_label_char c || bool_decide (c = "-"%char)) s
  end.

Definition MCP_TARGET_NAME_MAX_LEN : nat := 253.

(** [validate_mcp_target_name]; the pattern is a sequence of labels between
    dots. *)
Definition validate_mcp_target_name (name : string) : bool :=
  negb (Str.is_empty name) && (String.length name <=? MCP_TARGET_NAME_MAX_LEN)%nat &&
  forallb is_label (Str.split "."%char name).

(** ** Names in a merged listing *)

Definition DELIMITER : string := "_".

Definition resource_name (default_target_name : option string) (target name : string) : string :=
  match default_target_name with None => target +:+ DELIMITER +:+ name | Some _ => name end.

Definition resource_uri (default_target_name : option string) (target uri : string) : string :=
  match default_target_name with
  | None =>
      match Str.split_once "://" uri with
      | Some (scheme, rest) => target +:+ "+" +:+ scheme +:+ "://" +:+ rest
      | None => uri
      end
  | Some _ => uri
  end.

(** ** Upstreams *)

Inductive UpstreamKind := McpStreamable | McpSSE | McpStdio | OpenAPI.

(** A connected server: its kind, the session it has and the endpoint it is
    pinned to. *)
Record Upstream := mkUpstream {
  us_kind : UpstreamKind;
  us_target : string;
  us_session : option string;
  us_pinned : option SocketAddr;
}.

Record MCPSession := mkMCPSession {
  target_name : option string;
  session : option string;
  backend : option SocketAddr;
}.

Definition get_session_state (u : Upstream) : option MCPSession :=
  match us_kind u with
  | McpStreamable => Some (mkMCPSession (Some (us_target u)) (us_session u) (us_pinned u))
  | McpSSE | OpenAPI => Some (mkMCPSession (Some (us_target u)) None (us_pinned u))
  | McpStdio => None
  end.

Definition set_session_id (id : option string) (pinned : option SocketAddr) (u : Upstream) : Upstream :=
  match us_kind u with
  | McpStreamable => mkUpstream (us_kind u) (us_target u) id (option_or pinned (us_pinned u))
  | McpSSE | OpenAPI => mkUpstream (us_kind u) (us_target u) (us_session u) (option_or pinned (us_pinned u))
  | McpStdio => u
  end.

Section relay.
Context {IM : IndexMap} {HO : HashOrder}.
Context {Target McpError : Type}.
Context (tgt_name : Target → string) (always_use_prefix : Target → bool).
(** [setup_upstream]: connects to a target. *)
Context (setup_upstream : Target → result Upstream McpError).
Context (no_backends : McpError).

Record UpstreamGroup := mkUpstreamGroup {
  by_name : imap Upstream;
  default_target_name : option string;
  is_multiplexing : bool;
  failure_mode : FailureMode;
}.

Definition group_size (g : UpstreamGroup) : nat := length (im_iter (by_name g)).

(** [IndexMap::get]. *)
Definition upstream_get (g : UpstreamGroup) (name : string) : option Upstream :=
  snd <$> list_find_by (λ kv : string * Upstream, bool_decide (kv.1 = name)) (im_iter (by_name g)).

Fixpoint setup_connections (mode : FailureMode) (targets : list Target) (m : imap Upstream)
    : result (imap Upstream) McpError :=
  match targets with
  | [] => Ok m
  | t :: ts =>
      match setup_upstream t with
      | Ok u => setup_connections mode ts (im_insert (tgt_name t) u m)
      | Err e => match mode with FailOpen => setup_connections mode ts m | FailClosed => Err e end
      end
  end.

Definition upstream_group_new (targets : list Target) (mode : FailureMode) : result UpstreamGroup McpError :=
  let '(default, multiplexing) :=
    match targets with
    | [t] => (if always_use_prefix t then None else Some (tgt_name t), false)
    | _ => (None, true)
    end in
  let? m := setup_connections mode targets im_empty in
  let g := mkUpstreamGroup m default multiplexing mode in
  if im_is_empty m then
    match targets, mode with
    | [], FailOpen => Ok g
    | _, _ => Err no_backends
    end
  else Ok g.

(** ** Sessions of the upstreams *)

Definition with_upstreams (m : imap Upstream) (g : UpstreamGroup) : UpstreamGroup :=
  mkUpstreamGroup m (default_target_name g) (is_multiplexing g) (failure_mode g).

Definition get_sessions (g : UpstreamGroup) : option (list MCPSession) :=
  mapM (λ kv, get_session_state kv.2) (im_iter (by_name g)).

Definition set_one (name : string) (s : MCPSession) (m : imap Upstream) : imap Upstream :=
  match list_find_by (λ kv : string * Upstream, bool_decide (kv.1 = name)) (im_iter m) with
  | Some (_, u) => im_insert name (set_session_id (session s) (backend s) u) m
  | None => m
  end.

(** The duplicate check of [set_sessions]. *)
Fixpoint key_sessions (ss : list MCPSession) (m : gmap string MCPSession) : outcome (option (gmap string MCPSession)) :=
  match ss with
  | [] => Ret (Some m)
  | s :: ss' =>
      t ← expect (target_name s);
      match m !! t with
      | Some _ => Ret None
      | None => key_sessions ss' (<[t := s]> m)
      end
  end.

(** The loop that hands each upstream its session, with the state left. *)
Fixpoint assign_sessions (names : list string) (keyed : gmap string MCPSession) (m : imap Upstream)
    : imap Upstream * bool :=
  match names with
  | [] => (m, true)
  | n :: ns =>
      match keyed !! n with
      | None => (m, false)
      | Some s => assign_sessions ns (delete n keyed) (set_one n s m)
      end
  end.

(** [set_sessions]: the group it leaves, and whether it succeeded. *)
Definition set_sessions (ss : list MCPSession) (g : UpstreamGroup) : outcome (UpstreamGroup * bool) :=
  let names := (im_iter (by_name g)).*1 in
  if forallb (λ s, bool_decide (target_name s = None)) ss then
    if Nat.eqb (length ss) (group_size g)
    then Ret (with_upstreams (foldl (λ m ns, set_one ns.1 ns.2 m) (by_name g) (zip names ss)) g, true)
    else Ret (g, false)
  else if existsb (λ s, bool_decide (target_name s = None)) ss then Ret (g, false)
  else
    o ← key_sessions ss ∅;
    match o with
    | None => Ret (g, false)
    | Some keyed =>
        if Nat.eqb (size keyed) (group_size g) then
          let '(m, ok) := assign_sessions names keyed (by_name g) in Ret (with_upstreams m g, ok)
        else Ret (g, false)
    end.
End relay.

(** ** Requests *)

(** A listed tool, prompt (by name), resource or template (by URI). *)
Record Item {P : Type} := mkItem { it_name : string; it_payload : P }.
Arguments Item : clear implicits.

Inductive ResourceType :=
| RTool (target id : string)
| RPrompt (target id : string)
| RResource (target id : string).

Record ServerInfo := mkServerInfo { si_version : string; si_prompts : bool; si_instructions : string }.

Inductive ServerResult {P : Type} :=
| ListToolsResult (tools : list (Item P))
| ListPromptsResult (prompts : list (Item P))
| ListResourcesResult (resources : list (Item P))
| ListResourceTemplatesResult (templates : list (Item P))
| InitializeResult (protocol_version : string) (instructions : option string) (payload : P)
| InfoResult (info : ServerInfo)                  (* an [InitializeResult] the gateway makes *)
| EmptyResult
| OtherResult (payload : P).
Arguments ServerResult : clear implicits.

Inductive ClientRequest {A : Type} :=
| InitializeRequest (protocol_version : string) (roots : bool) (args : A)
| ListToolsRequest (args : A)
| PingRequest
| SetLevelRequest (args : A)
| ListPromptsRequest (args : A)
| ListResourcesRequest (args : A)
| ListResourceTemplatesRequest (args : A)
| CallToolRequest (name : string) (args : A)
| GetPromptRequest (name : string) (args : A)
| ReadResourceRequest (uri : string) (args : A)
| CompletePromptRequest (name : string) (args : A)
| CompleteResourceRequest (uri : string) (args : A)
| UnsupportedRequest (method : string) (args : A).   (* tasks, subscriptions, custom requests *)
Arguments ClientRequest : clear implicits.

Inductive UpstreamError :=
| EAuthorization (resource_type resource_name : string)
| EInvalidRequest (message : string)
| EInvalidMethod
| EInvalidMethodWithMultiplexing.

Inductive MergeKind :=
| MInitialize (protocol_version : string) (multiplexing : bool)
| MTools
| MPrompts
| MResources
| MTemplates
| MEmpty.

(** What a request turns into: sent to every upstream with a merge of the
    answers, or to one. *)
Inductive Action {A : Type} :=
| Fanout (r : ClientRequest A) (merge : MergeKind)
| Single (service : string) (r : ClientRequest A).
Arguments Action : clear implicits.

Inductive Notification {A : Type} :=
| InitializedNotification
| OtherNotification (payload : A).   (* cancelled, progress, roots changed, custom *)
Arguments Notification : clear implicits.

(** [ClientJsonRpcMessage]. *)
Inductive ClientMessage {A : Type} :=
| ClientRequestMessage (r : ClientRequest A)
| ClientNotificationMessage (n : Notification A)
| OtherMessage.                      (* responses and errors *)
Arguments ClientMessage : clear implicits.

(** What is sent to servers. *)
Inductive Sent {A : Type} :=
| SentRequest (a : Action A)
| NotifyAll (n : Notification A)
| NotifySingle (service : string) (n : Notification A).
Arguments Sent : clear implicits.

Inductive SendFailure := Refused (e : UpstreamError) | UpstreamFailed.

Section dispatch.
Context {IM : IndexMap} {Expression Value EvalError Cel A P : Type}.
(** [Executor::new_mcp_request]. *)
Context (mcp_executor : Cel → ResourceType → Executor Expression Value EvalError).

Record Relay := mkRelay { upstreams : UpstreamGroup; policies : RuleSets Expression }.

(** [McpAuthorizationSet::validate]. *)
Definition mcp_validate (rs : RuleSets Expression) (res : ResourceType) (cel : Cel) : bool :=
  validate rs (mcp_executor cel res).

Definition parse_resource_name (relay : Relay) (res : string) : result (string * string) UpstreamError :=
  match default_target_name (upstreams relay) with
  | Some d => Ok (d, res)
  | None =>
      match Str.split_once DELIMITER res with
      | Some (target, name) => Ok (target, name)
      | None => Err (EInvalidRequest "invalid resource name")
      end
  end.

Definition send_single (relay : Relay) (r : ClientRequest A) (service : string) : result (Action A) UpstreamError :=
  match upstream_get (upstreams relay) service with
  | None => Err (EInvalidRequest ("unknown service " +:+ service))
  | Some _ => Ok (Single service r)
  end.

Definition send_single_without_multiplexing (relay : Relay) (r : ClientRequest A) : result (Action A) UpstreamError :=
  match default_target_name (upstreams relay) with
  | None => Err EInvalidMethod
  | Some d => send_single relay r d
  end.

Definition authorize_prompt_request (relay : Relay) (cel : Cel) (name : string)
    : result (string * string) UpstreamError :=
  let? sp := parse_resource_name relay name in
  if mcp_validate (policies relay) (RPrompt sp.1 sp.2) cel then Ok sp
  else Err (EAuthorization "prompt" name).

Definition authorize_resource_request (relay : Relay) (cel : Cel) (service uri : string) : result () UpstreamError :=
  if mcp_validate (policies relay) (RResource service uri) cel then Ok () else Err (EAuthorization "resource" uri).

(** The request arm of [send_internal]. *)
Definition dispatch (relay : Relay) (cel : Cel) (r : ClientRequest A) : result (Action A) UpstreamError :=
  match r with
  | InitializeRequest pv _ args =>                 (* roots are not offered *)
      Ok (Fanout (InitializeRequest pv false args) (MInitialize pv (is_multiplexing (upstreams relay))))
  | ListToolsRequest _ => Ok (Fanout r MTools)
  | PingRequest | SetLevelRequest _ => Ok (Fanout r MEmpty)
  | ListPromptsRequest _ => Ok (Fanout r MPrompts)
  | ListResourcesRequest _ => Ok (Fanout r MResources)
  | ListResourceTemplatesRequest _ =>
      if negb (is_multiplexing (upstreams relay)) then Ok (Fanout r MTemplates)
      else Err EInvalidMethodWithMultiplexing
  | CallToolRequest name args =>
      let? st := parse_resource_name relay name in
      if negb (mcp_validate (policies relay) (RTool st.1 st.2) cel) then Err (EAuthorization "tool" name)
      else send_single relay (CallToolRequest st.2 args) st.1
  | GetPromptRequest name args =>
      let? sp := authorize_prompt_request relay cel name in
      send_single relay (GetPromptRequest sp.2 args) sp.1
  | ReadResourceRequest uri _ =>
      match default_target_name (upstreams relay) with
      | Some service =>
          let? u := authorize_resource_request relay cel service uri in
          send_single_without_multiplexing relay r
      | None => Err EInvalidMethodWithMultiplexing
      end
  | UnsupportedRequest _ _ => Err EInvalidMethod
  | CompletePromptRequest name args =>
      let? sp := authorize_prompt_request relay cel name in
      send_single relay (CompletePromptRequest sp.2 args) sp.1
  | CompleteResourceRequest uri _ =>
      match default_target_name (upstreams relay) with
      | Some service =>
          let? u := authorize_resource_request relay cel service uri in
          send_single_without_multiplexing relay r
      | None => Err EInvalidMethodWithMultiplexing
      end
  end.

(** *** Sending *)

(** Whether the servers take what is sent to them. *)
Context (taken : Sent A → bool).
(** [get_client_info], apart from its protocol version. *)
Context (client_info : A).

Definition deliver (s : Sent A) : list (Sent A) * result () SendFailure := ([s], if taken s then Ok () else Err UpstreamFailed).

(** What is sent in turn, until something fails. *)
Definition and_send (first : list (Sent A) * result () SendFailure) (next : list (Sent A) * result () SendFailure)
    : list (Sent A) * result () SendFailure :=
  match first.2 with Ok _ => (first.1 ++ next.1, next.2) | Err _ => first end.

(** [send] and [send_internal]: what is sent, and whether it succeeds. *)
Definition send_message (relay : Relay) (cel : Cel) (m : ClientMessage A) : list (Sent A) * result () SendFailure :=
  match m with
  | ClientRequestMessage r =>
      match dispatch relay cel r with
      | Ok a => deliver (SentRequest a)
      | Err e => ([], Err (Refused e))
      end
  | ClientNotificationMessage n => deliver (NotifyAll n)
  | OtherMessage => ([], Err (Refused (EInvalidRequest "unsupported message type")))
  end.

Definition init_request : ClientRequest A := InitializeRequest "2025-11-25" false client_info.

(** [send_init_single] and [send_initialized_notification_single]. *)
Definition send_init_single (relay : Relay) (service : string) : list (Sent A) * result () SendFailure :=
  match send_single relay init_request service with
  | Ok a => deliver (SentRequest a)
  | Err e => ([], Err (Refused e))
  end.

Definition send_initialized_notification_single (relay : Relay) (service : string) : list (Sent A) * result () SendFailure :=
  match upstream_get (upstreams relay) service with
  | Some _ => deliver (NotifySingle service InitializedNotification)
  | None => ([], Err (Refused (EInvalidRequest ("unknown service " +:+ service))))
  end.

(** [stateless_send_and_initialize]: before a message that is no initialization,
    the servers it may go to are initialized. *)
Definition stateless_send_and_initialize (relay : Relay) (cel : Cel) (m : ClientMessage A) : list (Sent A) * result () SendFailure :=
  match m with
  | ClientRequestMessage (InitializeRequest _ _ _) => send_message relay cel m
  | ClientRequestMessage (CallToolRequest name _) | ClientRequestMessage (GetPromptRequest name _) =>
      match parse_resource_name relay name with
      | Err e => ([], Err (Refused e))
      | Ok (service, _) =>
          and_send (send_init_single relay service)
            (and_send (send_initialized_notification_single relay service) (send_message relay cel m))
      end
  | _ =>
      and_send (send_message relay cel (ClientRequestMessage init_request))
        (and_send (send_message relay cel (ClientNotificationMessage InitializedNotification)) (send_message relay cel m))
  end.

(** *** Merging the answers *)

Definition rename (f : string → string) (i : Item P) : Item P := mkItem _ (f (it_name i)) (it_payload i).

(** The common shape of the list merges: of each server's items, those that are
    allowed, renamed. *)
Definition merge_items (select : ServerResult P → list (Item P)) (kind : string → string → ResourceType)
    (naming : string → string → string) (relay : Relay) (cel : Cel) (streams : list (string * ServerResult P))
    : list (Item P) :=
  streams ≫= λ s,
    rename (naming s.1) <$> filter (λ i, mcp_validate (policies relay) (kind s.1 (it_name i)) cel = true) (select s.2).

Definition tools_of (r : ServerResult P) : list (Item P) := match r with ListToolsResult l => l | _ => [] end.
Definition prompts_of (r : ServerResult P) : list (Item P) := match r with ListPromptsResult l => l | _ => [] end.
Definition resources_of (r : ServerResult P) : list (Item P) := match r with ListResourcesResult l => l | _ => [] end.
Definition templates_of (r : ServerResult P) : list (Item P) :=
  match r with ListResourceTemplatesResult l => l | _ => [] end.

Definition merge_tools (relay : Relay) (cel : Cel) streams : ServerResult P :=
  ListToolsResult (merge_items tools_of RTool (resource_name (default_target_name (upstreams relay))) relay cel streams).
Definition merge_prompts (relay : Relay) (cel : Cel) streams : ServerResult P :=
  ListPromptsResult (merge_items prompts_of RPrompt (resource_name (default_target_name (upstreams relay))) relay cel streams).
Definition merge_resources (relay : Relay) (cel : Cel) streams : ServerResult P :=
  ListResourcesResult (merge_items resources_of RResource (resource_uri (default_target_name (upstreams relay))) relay cel streams).
Definition merge_resource_templates (relay : Relay) (cel : Cel) streams : ServerResult P :=
  ListResourceTemplatesResult (merge_items templates_of RResource (λ _ n, n) relay cel streams).

Definition gateway_preamble : string :=
  "This server is a gateway to a set of mcp servers. It is responsible for routing requests to the correct server and aggregating the results.".

Definition newline : string := String (ascii_of_nat 10) "".

Definition get_info (pv : string) (multiplexing : bool) (instructions : list (string * string)) : ServerInfo :=
  mkServerInfo pv (negb multiplexing)
    (foldl (λ s i, s +:+ newline +:+ newline +:+ "[" +:+ i.1 +:+ "]" +:+ newline +:+ i.2) gateway_preamble instructions).

(** The loop over the servers of [merge_initialize]. *)
Fixpoint lowest_version (pv : string) (instr : list (string * string)) (streams : list (string * ServerResult P))
    : string * list (string * string) :=
  match streams with
  | [] => (pv, instr)
  | (name, InitializeResult v i _) :: ss =>
      lowest_version (match String.compare v pv with Lt => v | _ => pv end)
        (match i with Some t => if Str.is_empty t then instr else instr ++ [(name, t)] | None => instr end) ss
  | _ :: ss => lowest_version pv instr ss
  end.

Definition merge_initialize (pv : string) (multiplexing : bool) (streams : list (string * ServerResult P)) : ServerResult P :=
  if negb multiplexing then
    match streams with
    | (_, InitializeResult v i p) :: _ => InitializeResult v i p
    | _ => InfoResult (get_info pv multiplexing [])
    end
  else let '(v, instr) := lowest_version pv [] streams in InfoResult (get_info v multiplexing instr).

Definition run_merge (m : MergeKind) (relay : Relay) (cel : Cel) (streams : list (string * ServerResult P)) : ServerResult P :=
  match m with
  | MInitialize pv multiplexing => merge_initialize pv multiplexing streams
  | MTools => merge_tools relay cel streams
  | MPrompts => merge_prompts relay cel streams
  | MResources => merge_resources relay cel streams
  | MTemplates => merge_resource_templates relay cel streams
  | MEmpty => EmptyResult
  end.
End dispatch.

(** ** Facts *)

Lemma all_chars_contains p c s : Str.all_chars p s = true → p c = false → Str.contains_char c s = false.
Proof.
  intros Hs Hc. induction s as [|a s IH]; simpl in *; [done|]. apply andb_true_iff in Hs as [Ha Hs].
  case_decide; [subst; congruence|]. by apply IH.
Qed.

Lemma join_contains c d l :
  c ≠ d → Forall (λ x, Str.contains_char c x = false) l → Str.contains_char c (Str.join d l) = false.
Proof.
  assert (∀ a b, Str.contains_char c a = false → Str.contains_char c b = false → Str.contains_char c (a +:+ b) = false) as Happ.
  { induction a as [|x a IH]; intros b Ha Hb; [done|]. rewrite Str.string_app_cons. simpl in Ha |- *.
    case_decide; [done|]. by apply IH. }
  intros Hcd. induction 1 as [|x l Hx Hl IH]; [done|]. destruct l as [|y l]; [done|].
  change (Str.join d (x :: y :: l)) with (x +:+ String d (Str.join d (y :: l))). apply Happ; [done|]. simpl.
  by case_decide.
Qed.

(** A valid target name has neither delimiter. *)
Lemma valid_name_no_delimiter name c :
  validate_mcp_target_name name = true → c = "_"%char ∨ c = "+"%char → Str.contains_char c name = false.
Proof.
  unfold validate_mcp_target_name. intros [_ Hl]%andb_true_iff Hc.
  destruct (Str.split_join "." name) as [<- _]. apply join_contains; [by destruct Hc as [->| ->]|].
  apply forallb_Forall in Hl. eapply Forall_impl; [exact Hl|]. intros s Hs. simpl in Hs. unfold is_label in Hs.
  destruct s as [|a s]; [done|]. apply andb_true_iff in Hs as [_ Hs]. eapply all_chars_contains; [exact Hs|].
  by destruct Hc as [->| ->].
Qed.

Section group_facts.
Context {IM : IndexMap} {Target McpError : Type}.
Context (tgt_name : Target → string) (always_use_prefix : Target → bool).
Context (setup_upstream : Target → result Upstream McpError) (no_backends : McpError).

Lemma upstream_get_Some g k u : upstream_get g k = Some u ↔ (k, u) ∈ im_iter (by_name g).
Proof.
  unfold upstream_get. pose proof (im_iter_keys _ (by_name g)) as Hnd. induction (im_iter (by_name g)) as [|[k' u'] l IH]; simpl.
  - split; [done|]. by intros ?%elem_of_nil.
  - simpl in Hnd. apply NoDup_cons in Hnd as [Hn Hnd]. rewrite elem_of_cons. case_bool_decide; simpl in *; [subst|rewrite IH by done; naive_solver].
    split; [intros [= ->]; by left|]. intros [[= ->]|Hin]; [done|]. destruct Hn. by apply (list_elem_of_fmap_2 fst _ (k, u)).
Qed.

Lemma setup_connections_keys mode ts m m' k :
  setup_connections tgt_name setup_upstream mode ts m = Ok m' → k ∈ (im_iter m').*1 →
  k ∈ (im_iter m).*1 ∨ k ∈ tgt_name <$> ts.
Proof.
  revert m. induction ts as [|t ts IH]; intros m; simpl; [intros [= <-]; by left|].
  destruct (setup_upstream t) as [u|e].
  - intros H Hk. destruct (IH _ H Hk) as [Hin|Hin]; [|right; by right].
    apply list_elem_of_fmap in Hin as ([k' u'] & -> & [[-> ->]|[_ Hin]]%im_iter_insert); [right; by left|].
    left. by apply (list_elem_of_fmap_2 fst _ (k', u')).
  - destruct mode; [done|]. intros H Hk. destruct (IH _ H Hk); [by left|right; by right].
Qed.

(** What the names of a group's servers promise its relay: the default name is
    the only server's, and without one no server name has the delimiter. *)
Definition names_ok (g : UpstreamGroup) : Prop :=
  ∀ k, is_Some (upstream_get g k) →
    match default_target_name g with
    | Some d => k = d
    | None => Str.contains_char "_"%char k = false
    end.

Lemma upstream_group_names targets mode g :
  upstream_group_new tgt_name always_use_prefix setup_upstream no_backends targets mode = Ok g →
  Forall (λ t, validate_mcp_target_name (tgt_name t) = true) targets → names_ok g.
Proof.
  unfold upstream_group_new. intros Hg Hv k [u Hu%upstream_get_Some].
  set (dm := match targets with [t] => _ | _ => _ end) in Hg. destruct dm as [d mp] eqn:Edm. unfold and_then in Hg.
  destruct (setup_connections tgt_name setup_upstream mode targets im_empty) as [m|e] eqn:Es; [|done].
  assert (g = mkUpstreamGroup m d mp mode) as ->.
  { destruct (im_is_empty m); [|by injection Hg as <-]. destruct targets; [|done]. destruct mode; [done|]. by injection Hg as <-. }
  simpl in *. assert (k ∈ tgt_name <$> targets) as Hk.
  { destruct (setup_connections_keys mode targets im_empty m k Es) as [Hin|?]; [by apply (list_elem_of_fmap_2 fst _ (k, u))| |done].
    rewrite im_iter_empty in Hin. by apply elem_of_nil in Hin. }
  assert (Str.contains_char "_" k = false) as Hno.
  { apply list_elem_of_fmap in Hk as (t & -> & Ht). rewrite Forall_forall in Hv. apply valid_name_no_delimiter; auto. }
  destruct d as [d|]; [|done]. unfold dm in Edm. destruct targets as [|t [|t' ts]]; try done.
  destruct (always_use_prefix t); [done|]. injection Edm as <- _. simpl in Hk.
  apply elem_of_cons in Hk as [->|?%elem_of_nil]; done.
Qed.
End group_facts.

Section relay_facts.
Context {IM : IndexMap} {Expression Value EvalError Cel A P : Type}.
Context (mcp_executor : Cel → ResourceType → Executor Expression Value EvalError).
Local Abbreviation Relay := (Relay (Expression := Expression)).

(** A name given to a server's item leads back to the server and the item. *)
Lemma parse_resource_name_back (relay : Relay) k n :
  names_ok (upstreams relay) → is_Some (upstream_get (upstreams relay) k) →
  parse_resource_name relay (resource_name (default_target_name (upstreams relay)) k n) = Ok (k, n).
Proof.
  intros Hn Hk. specialize (Hn k Hk). unfold parse_resource_name, resource_name.
  destruct (default_target_name (upstreams relay)) as [d|]; [by subst|].
  unfold DELIMITER. by rewrite Str.split_once_char.
Qed.

Lemma send_single_known (relay : Relay) (r : ClientRequest A) k :
  is_Some (upstream_get (upstreams relay) k) → send_single relay r k = Ok (Single k r).
Proof. intros [u Hu]. unfold send_single. by rewrite Hu. Qed.

Lemma send_single_inv (relay : Relay) (r : ClientRequest A) k a :
  send_single relay r k = Ok a → a = Single k r ∧ is_Some (upstream_get (upstreams relay) k).
Proof. unfold send_single. destruct (upstream_get _ k); [|done]. by intros [= <-]. Qed.

Lemma merge_items_elem select kind naming (relay : Relay) (cel : Cel) (streams : list (string * ServerResult P)) i :
  i ∈ merge_items mcp_executor select kind naming relay cel streams ↔
  ∃ k r j, (k, r) ∈ streams ∧ j ∈ select r ∧ mcp_validate mcp_executor (policies relay) (kind k (it_name j)) cel = true ∧
    i = rename (naming k) j.
Proof.
  unfold merge_items. rewrite list_elem_of_bind. split.
  - intros ([k r] & (j & -> & [Hv Hj]%list_elem_of_filter)%list_elem_of_fmap & Hs). eauto 10.
  - intros (k & r & j & Hs & Hj & Hv & ->). exists (k, r). split; [|done]. apply list_elem_of_fmap_2, list_elem_of_filter. done.
Qed.

(** C15. Listing and calling agree. With target names that pass validation, a
    tool appears in the merged listing exactly when some server offers it and
    calling it by its listed name is allowed; the call then goes to that very
    server, under the server's own name for the tool. The same holds of
    prompts. *)
Theorem listed_items_callable {Target McpError} (tgt_name : Target → string) prefixed setup (nb : McpError)
    targets mode g (rs : RuleSets Expression) (cel : Cel) (streams : list (string * ServerResult P)) (args : A) :
  upstream_group_new tgt_name prefixed setup nb targets mode = Ok g →
  Forall (λ t, validate_mcp_target_name (tgt_name t) = true) targets →
  Forall (λ s, is_Some (upstream_get g s.1)) streams →
  let relay := mkRelay g rs in
  (∀ i, i ∈ tools_of (merge_tools mcp_executor relay cel streams) ↔
     ∃ k r j, (k, r) ∈ streams ∧ j ∈ tools_of r ∧ it_payload i = it_payload j ∧
       it_name i = resource_name (default_target_name g) k (it_name j) ∧
       dispatch mcp_executor relay cel (CallToolRequest (it_name i) args) = Ok (Single k (CallToolRequest (it_name j) args))) ∧
  (∀ i, i ∈ prompts_of (merge_prompts mcp_executor relay cel streams) ↔
     ∃ k r j, (k, r) ∈ streams ∧ j ∈ prompts_of r ∧ it_payload i = it_payload j ∧
       it_name i = resource_name (default_target_name g) k (it_name j) ∧
       dispatch mcp_executor relay cel (GetPromptRequest (it_name i) args) = Ok (Single k (GetPromptRequest (it_name j) args))).
Proof.
  intros Hg Hv Hs relay. pose proof (upstream_group_names _ _ _ _ _ _ _ Hg Hv) as Hn. rewrite Forall_forall in Hs.
  assert (∀ k r n, (k, r) ∈ streams →
    parse_resource_name relay (resource_name (default_target_name g) k n) = Ok (k, n) ∧
    ∀ q : ClientRequest A, send_single relay q k = Ok (Single k q)) as Hback.
  { intros k r n Hk. specialize (Hs _ Hk). simpl in Hs. split; [by apply parse_resource_name_back|].
    intros q. by apply send_single_known. }
  split; intros i; simpl; rewrite merge_items_elem; split.
  - intros (k & r & j & Hk & Hj & Hval & ->). exists k, r, j. destruct (Hback k r (it_name j) Hk) as [Hp Hsend].
    split_and!; try done. unfold dispatch. simpl. rewrite Hp. simpl. simpl in Hval. rewrite Hval. simpl. apply Hsend.
  - intros (k & r & j & Hk & Hj & Hpay & Hname & Hd). exists k, r, j. destruct (Hback k r (it_name j) Hk) as [Hp Hsend].
    split_and!; try done; [|destruct i; unfold rename; simpl in *; congruence].
    unfold dispatch in Hd. rewrite Hname, Hp in Hd. simpl in Hd. by destruct (mcp_validate _ _ _ _).
  - intros (k & r & j & Hk & Hj & Hval & ->). exists k, r, j. destruct (Hback k r (it_name j) Hk) as [Hp Hsend].
    split_and!; try done. unfold dispatch, authorize_prompt_request. simpl. rewrite Hp. simpl. simpl in Hval. rewrite Hval.
    simpl. apply Hsend.
  - intros (k & r & j & Hk & Hj & Hpay & Hname & Hd). exists k, r, j. destruct (Hback k r (it_name j) Hk) as [Hp Hsend].
    split_and!; try done; [|destruct i; unfold rename; simpl in *; congruence].
    unfold dispatch, authorize_prompt_request in Hd. rewrite Hname, Hp in Hd. simpl in Hd. by destruct (mcp_validate _ _ _ _).
Qed.

(** A server is asked only for what the rule sets allow there. *)
Definition item_authorized (relay : Relay) (cel : Cel) (service : string) (sent : ClientRequest A) : Prop :=
  is_Some (upstream_get (upstreams relay) service) ∧
  ∃ res, authorized (policies relay) (mcp_executor cel res) ∧
    match sent with
    | CallToolRequest name _ => res = RTool service name
    | GetPromptRequest name _ | CompletePromptRequest name _ => res = RPrompt service name
    | ReadResourceRequest uri _ | CompleteResourceRequest uri _ => res = RResource service uri
    | _ => False
    end.

Definition sent_authorized (relay : Relay) (cel : Cel) (s : Sent A) : Prop :=
  match s with
  | SentRequest (Single service r) => item_authorized relay cel service r
  | NotifySingle _ _ => False
  | SentRequest (Fanout _ _) | NotifyAll _ => True
  end.

Lemma dispatch_authorized (relay : Relay) (cel : Cel) (req : ClientRequest A) service sent :
  dispatch mcp_executor relay cel req = Ok (Single service sent) → item_authorized relay cel service sent.
Proof.
  unfold item_authorized.
  assert (∀ uri r, match default_target_name (upstreams relay) with
      | Some service => let? u := authorize_resource_request mcp_executor relay cel service uri in
                        send_single_without_multiplexing relay r
      | None => Err EInvalidMethodWithMultiplexing
      end = Ok (Single service sent) →
    is_Some (upstream_get (upstreams relay) service) ∧ sent = r ∧
    authorized (policies relay) (mcp_executor cel (RResource service uri))) as Hres.
  { intros uri r. unfold send_single_without_multiplexing, authorize_resource_request.
    destruct (default_target_name (upstreams relay)) as [d|]; [|done].
    destruct (mcp_validate _ _ _ _) eqn:Ev; simpl; [|done]. intros [Ha Hu]%send_single_inv. injection Ha as -> ->.
    split_and!; try done. by apply validate_authorized. }
  assert (∀ name r, (let? sp := authorize_prompt_request mcp_executor relay cel name in send_single relay (r sp.2) sp.1) =
      Ok (Single service sent) →
    ∃ n, is_Some (upstream_get (upstreams relay) service) ∧ sent = r n ∧
      authorized (policies relay) (mcp_executor cel (RPrompt service n))) as Hpr.
  { intros name r. unfold authorize_prompt_request. destruct (parse_resource_name relay name) as [[k n]|]; simpl; [|done].
    destruct (mcp_validate _ _ _ _) eqn:Ev; simpl; [|done]. intros [Ha Hu]%send_single_inv. injection Ha as -> ->.
    exists n. split_and!; try done. by apply validate_authorized. }
  destruct req as [pv a|a| |a|a|a|a|name a|name a|uri a|name a|uri a|m a]; simpl; try done.
  - by destruct (negb _).
  - destruct (parse_resource_name relay name) as [[k n]|]; simpl; [|done].
    destruct (mcp_validate _ _ _ _) eqn:Ev; simpl; [|done]. intros [Ha Hu]%send_single_inv. injection Ha as -> ->.
    split; [done|]. eexists. split; [by apply validate_authorized|done].
  - intros (n & Hu & -> & Hau)%(Hpr name (λ n, GetPromptRequest n a)). eauto.
  - intros (Hu & -> & Hau)%Hres. eauto.
  - intros (n & Hu & -> & Hau)%(Hpr name (λ n, CompletePromptRequest n a)). eauto.
  - intros (Hu & -> & Hau)%Hres. eauto.
Qed.

(** The message names a tool or a prompt of the server: by its plain name where
    there is only one server, after the server's name otherwise. *)
Definition names_server (relay : Relay) (m : ClientMessage A) (service : string) : Prop :=
  ∃ name args, (m = ClientRequestMessage (CallToolRequest name args) ∨ m = ClientRequestMessage (GetPromptRequest name args)) ∧
    match default_target_name (upstreams relay) with
    | Some d => service = d
    | None => ∃ item, name = service +:+ "_" +:+ item ∧ Str.contains_char "_" service = false
    end.

Context (taken : Sent A → bool) (client_info : A).
Local Abbreviation send_message := (send_message mcp_executor taken).
Local Abbreviation stateless_send_and_initialize := (stateless_send_and_initialize mcp_executor taken client_info).

Lemma send_message_authorized (relay : Relay) (cel : Cel) m : Forall (sent_authorized relay cel) (send_message relay cel m).1.
Proof.
  destruct m as [r|n|]; simpl; [|by repeat constructor..]. destruct (dispatch mcp_executor relay cel r) as [[r' merge|service sent]|e] eqn:E; simpl; [by repeat constructor| |done].
  constructor; [|done]. by eapply dispatch_authorized.
Qed.

Lemma and_send_Forall (Q : Sent A → Prop) x y : Forall Q x.1 → Forall Q y.1 → Forall Q (and_send x y).1.
Proof. intros Hx Hy. unfold and_send. destruct x.2; [by apply Forall_app|done]. Qed.

Lemma parse_resource_name_names (relay : Relay) name service item :
  parse_resource_name relay name = Ok (service, item) →
  match default_target_name (upstreams relay) with Some d => service = d | None => ∃ item, name = service +:+ "_" +:+ item ∧ Str.contains_char "_" service = false end.
Proof.
  unfold parse_resource_name. destruct (default_target_name _) as [d|]; [by intros [= <- _]|].
  destruct (Str.split_once DELIMITER name) as [[t n]|] eqn:E; [|done]. intros [= <- <-]. exists n. split; [by apply Str.split_once_Some in E as [-> _]|by eapply Str.split_once_char_fst].
Qed.

(** C30. Every request that reaches one server is authorized for exactly what
    it asks of that server: the tool, prompt or resource named in the request
    sent is allowed by the rule sets on that server, and the server is one of
    the relay's. In a session nothing else is ever sent to a single server;
    without sessions, a call of a tool or a request for a prompt is preceded by
    an initialization of the one server it names, a server of the relay, before
    it is authorized. *)
Theorem single_requests_authorized (relay : Relay) (cel : Cel) (m : ClientMessage A) :
  Forall (sent_authorized relay cel) (send_message relay cel m).1 ∧
  Forall (λ s, sent_authorized relay cel s ∨
    ∃ service, names_server relay m service ∧ is_Some (upstream_get (upstreams relay) service) ∧
      (s = SentRequest (Single service (InitializeRequest "2025-11-25" false client_info)) ∨ s = NotifySingle service InitializedNotification))
    (stateless_send_and_initialize relay cel m).1.
Proof.
  split; [apply send_message_authorized|].
  set (Q := λ s, sent_authorized relay cel s ∨ _).
  assert (∀ m, Forall Q (send_message relay cel m).1) as Hsend.
  { intros m'. eapply Forall_impl; [apply (send_message_authorized relay cel m')|]. intros s Hs. by left. }
  assert (∀ service, names_server relay m service →
    Forall Q (send_init_single taken client_info relay service).1 ∧ Forall Q (send_initialized_notification_single taken relay service).1) as Hsingle.
  { intros service Hn. unfold send_init_single, send_initialized_notification_single, send_single.
    destruct (upstream_get (upstreams relay) service) as [u|] eqn:Eu; simpl; [|done].
    assert (is_Some (upstream_get (upstreams relay) service)) as Hu by (by exists u).
    split; (constructor; [|done]); right; exists service; (split; [done|]); (split; [done|]); [by left|by right]. }
  assert (∀ name, (∃ args, m = ClientRequestMessage (CallToolRequest name args) ∨ m = ClientRequestMessage (GetPromptRequest name args)) →
    Forall Q match parse_resource_name relay name with
      | Err e => ([], Err (Refused e))
      | Ok (service, _) => and_send (send_init_single taken client_info relay service)
          (and_send (send_initialized_notification_single taken relay service) (send_message relay cel m))
      end.1) as Hone.
  { intros name [args Hm]. destruct (parse_resource_name relay name) as [[service item]|e] eqn:Ep; [|done].
    apply parse_resource_name_names in Ep. destruct (Hsingle service) as [H1 H2]; [by exists name, args|].
    by repeat apply and_send_Forall. }
  destruct m as [[]|n|]; cbn [Mcp.stateless_send_and_initialize]; try (by repeat apply and_send_Forall); try apply Hsend; apply Hone; eauto.
Qed.
End relay_facts.
