(* ===== verification/McpSession.v ===== *)
(** * MCP sessions

    [mcp/session.rs]'s session manager: sessions by identifier with the idle
    reaper, resumption of persisted sessions, and the policies a request is
    served under.

    A session shares its upstream connections with its clones: the manager keeps
    the groups of connections in a heap, and a relay names its group by a
    handle. Time is in milliseconds and an argument of every operation that
    reads the clock. *)
From stdpp Require Import base gmap strings list.
From Stdlib Require Import ZArith.
From S2P Require Import Prelude RustStd Authorization AgentTypes DiscoveryTypes LoadBalancer MergeStream Mcp.

Local Open Scope list_scope.

(** ** Resuming the sessions of upstreams *)

Section resume_facts.
Context {IM : IndexMap}.

Lemma set_one_elem k s (m : imap Upstream) k' u' :
  (k', u') ∈ im_iter (set_one k s m) ↔
  if decide (k' = k) then ∃ u, (k, u) ∈ im_iter m ∧ u' = set_session_id (session s) (backend s) u
  else (k', u') ∈ im_iter m.
Proof.
  unfold set_one. pose proof (im_iter_keys _ m) as Hnd.
  assert (∀ u1 u2, (k, u1) ∈ im_iter m → (k, u2) ∈ im_iter m → u1 = u2) as Huniq.
  { intros u1 u2 H1 H2. by eapply NoDup_fst_elem. }
  destruct (list_find_by _ (im_iter m)) as [[k0 u]|] eqn:E.
  - apply list_find_by_Some in E as (l1 & l2 & El & Hk%bool_decide_eq_true & _). simpl in Hk. subst k0.
    assert ((k, u) ∈ im_iter m) as Hu by (rewrite El; apply elem_of_app; right; by left).
    rewrite im_iter_insert. destruct (decide (k' = k)) as [->|Hne]; [|naive_solver]. split.
    + intros [[_ ->]|[? _]]; [eauto|done].
    + intros (u2 & Hu2 & ->). left. by rewrite (Huniq u2 u).
  - apply list_find_by_None in E. rewrite Forall_forall in E.
    assert (∀ u, (k, u) ∉ im_iter m) as Hno.
    { intros u Hu%E. simpl in Hu. by rewrite bool_decide_true in Hu. }
    destruct (decide (k' = k)) as [->|Hne]; [|done]. split; [by intros ?%Hno|]. by intros (u & ?%Hno & _).
Qed.

Lemma set_one_keys k s (m : imap Upstream) k' : k' ∈ (im_iter (set_one k s m)).*1 ↔ k' ∈ (im_iter m).*1.
Proof.
  rewrite !list_elem_of_fmap. split.
  - intros ([k0 u'] & -> & Hin%set_one_elem). case_decide; [|by exists (k0, u')]. destruct Hin as (u & Hu & _).
    subst. by exists (k, u).
  - intros ([k0 u] & -> & Hin). simpl. destruct (decide (k0 = k)) as [->|Hne].
    + exists (k, set_session_id (session s) (backend s) u). split; [done|]. apply set_one_elem. rewrite decide_True by done. eauto.
    + exists (k0, u). split; [done|]. apply set_one_elem. by rewrite decide_False.
Qed.

Lemma key_sessions_ok (l : list (string * MCPSession)) m :
  Forall (λ ks, target_name ks.2 = Some ks.1) l → NoDup l.*1 → (∀ k, k ∈ l.*1 → m !! k = None) →
  ∃ m', key_sessions l.*2 m = Ret (Some m') ∧ size m' = length l + size m ∧
    (∀ k s, (k, s) ∈ l → m' !! k = Some s) ∧ (∀ k, k ∉ l.*1 → m' !! k = m !! k).
Proof.
  intros Ht. revert m. induction Ht as [|[k s] l Hk Ht IH]; intros m Hnd Hm; csimpl in *.
  { exists m. split_and!; try done. by intros k s ?%elem_of_nil. }
  rewrite Hk. csimpl. rewrite (Hm k) by (by left). apply NoDup_cons in Hnd as [Hn Hnd].
  destruct (IH (<[k := s]> m)) as (m' & -> & Hsz & Hin & Hout); [done| |].
  { intros k' Hk'. rewrite lookup_insert_ne; [apply Hm; by right|]. intros ->. done. }
  exists m'. split; [done|]. rewrite map_size_insert_None in Hsz by (apply Hm; by left). split; [lia|]. split.
  - intros k' s' [[= -> ->]|Hin']%elem_of_cons; [|by apply Hin]. rewrite Hout by done. by rewrite lookup_insert_eq.
  - intros k' Hk'. apply not_elem_of_cons in Hk' as [Hne Hk']. rewrite Hout by done. by rewrite lookup_insert_ne.
Qed.

Lemma assign_sessions_ok names keyed (m : imap Upstream) (f : string → MCPSession) :
  NoDup names → (∀ k, k ∈ names → keyed !! k = Some (f k)) →
  ∃ m', assign_sessions names keyed m = (m', true) ∧
    ∀ k u', (k, u') ∈ im_iter m' ↔
      if decide (k ∈ names) then ∃ u, (k, u) ∈ im_iter m ∧ u' = set_session_id (session (f k)) (backend (f k)) u
      else (k, u') ∈ im_iter m.
Proof.
  intros Hnd. revert keyed m. induction Hnd as [|n names Hn Hnd IH]; intros keyed m Hk; simpl.
  { exists m. by split. }
  rewrite (Hk n) by (by left). destruct (IH (delete n keyed) (set_one n (f n) m)) as (m' & -> & Hm').
  { intros k Hin. rewrite lookup_delete_ne; [apply Hk; by right|]. by intros ->. }
  exists m'. split; [done|]. intros k u'. rewrite Hm'. clear IH Hm'. destruct (decide (k = n)) as [->|Hne].
  - rewrite decide_False, decide_True by (done || by left). rewrite set_one_elem. by rewrite decide_True.
  - assert (∀ u, (k, u) ∈ im_iter (set_one n (f n) m) ↔ (k, u) ∈ im_iter m) as Hs
      by (intros u; rewrite set_one_elem; by rewrite decide_False).
    destruct (decide (k ∈ names)) as [Hin|Hin].
    + rewrite decide_True by (by right). by setoid_rewrite Hs.
    + rewrite decide_False by (rewrite elem_of_cons; naive_solver). apply Hs.
Qed.

(** Two groups with the same servers, the second freshly connected. *)
Definition same_servers (g g0 : UpstreamGroup) : Prop :=
  (im_iter (by_name g)).*1 ≡ₚ (im_iter (by_name g0)).*1 ∧
  (∀ k u, (k, u) ∈ im_iter (by_name g) → us_target u = k) ∧
  (∀ k u u0, (k, u) ∈ im_iter (by_name g) → (k, u0) ∈ im_iter (by_name g0) →
     us_kind u0 = us_kind u ∧ us_target u0 = k ∧ us_session u0 = None ∧ us_pinned u0 = None).

Lemma get_session_state_set u u0 s :
  get_session_state u = Some s → us_kind u0 = us_kind u → us_target u0 = us_target u →
  us_session u0 = None → us_pinned u0 = None →
  get_session_state (set_session_id (session s) (backend s) u0) = Some s.
Proof.
  unfold get_session_state, set_session_id. intros Hs Hk Ht Hn Hp. rewrite Hk.
  destruct (us_kind u); simplify_eq/=; rewrite ?Hk, ?Ht, ?Hp; by destruct (us_pinned u).
Qed.

(** The reported states, paired with the servers. *)
Lemma get_sessions_keyed g ss :
  (∀ k u, (k, u) ∈ im_iter (by_name g) → us_target u = k) → get_sessions g = Some ss →
  ∃ l, l.*1 = (im_iter (by_name g)).*1 ∧ l.*2 = ss ∧ Forall (λ ks, target_name ks.2 = Some ks.1) l ∧
    ∀ k s, (k, s) ∈ l → ∃ u, (k, u) ∈ im_iter (by_name g) ∧ get_session_state u = Some s.
Proof.
  intros Hself Hget. unfold get_sessions in Hget. apply mapM_Some_1 in Hget as HF.
  set (l := zip (im_iter (by_name g)).*1 ss).
  assert (length (im_iter (by_name g)) = length ss) as Hlen by (by eapply Forall2_length).
  assert (∀ k s, (k, s) ∈ l → ∃ u, (k, u) ∈ im_iter (by_name g) ∧ get_session_state u = Some s) as Hl.
  { intros k s [i Hi]%list_elem_of_lookup. unfold l in Hi. apply lookup_zip_Some in Hi as [Hk Hs].
    rewrite list_lookup_fmap, fmap_Some in Hk. destruct Hk as ([k' u] & Hk & Hkk). simpl in Hkk. subst k'. exists u.
    split; [by eapply list_elem_of_lookup_2|]. by pose proof (Forall2_lookup_lr _ _ _ _ _ _ HF Hk Hs). }
  exists l. unfold l at 1 2. rewrite fst_zip, snd_zip by (rewrite length_fmap; lia). split_and!; try done.
  apply Forall_forall. intros [k s] (u & Hu & Hs)%Hl. simpl. pose proof (Hself _ _ Hu). unfold get_session_state in Hs.
  destruct (us_kind u); simplify_eq/=; congruence.
Qed.

(** Handing the reported states to a relay that has just connected to the same
    servers, in whatever order. *)
Lemma set_sessions_ok g g0 ss :
  same_servers g g0 → get_sessions g = Some ss →
  ∃ g', set_sessions ss g0 = Ret (g', true) ∧
    ∀ k u, (k, u) ∈ im_iter (by_name g) →
      ∃ u', (k, u') ∈ im_iter (by_name g') ∧ get_session_state u' = get_session_state u.
Proof.
  intros (Hkeys & Hself & Hfresh) Hget. destruct (get_sessions_keyed g ss Hself Hget) as (l & Hl1 & Hl2 & Htn & Hl).
  assert (NoDup l.*1) as Hnd by (rewrite Hl1; apply im_iter_keys).
  set (names := (im_iter (by_name g0)).*1). unfold set_sessions. fold names.
  assert (∀ k u, (k, u) ∈ im_iter (by_name g) → ∃ u0, (k, u0) ∈ im_iter (by_name g0)) as Hin0.
  { intros k u Hu. assert (k ∈ (im_iter (by_name g0)).*1) as Hk.
    { rewrite <-Hkeys. by apply (list_elem_of_fmap_2 fst _ (k, u)). }
    apply list_elem_of_fmap in Hk as ([k' u0] & -> & H0). eauto. }
  destruct (decide (ss = [])) as [->|Hne].
  { simpl. assert (im_iter (by_name g) = []) as Hnil.
    { apply fmap_nil_inv in Hl2 as ->. symmetry in Hl1. by apply fmap_nil_inv in Hl1. }
    assert (im_iter (by_name g0) = []) as Hnil0.
    { rewrite Hnil in Hkeys. simpl in Hkeys. symmetry in Hkeys. by apply Permutation_nil_r, fmap_nil_inv in Hkeys. }
    unfold group_size. rewrite Hnil0. simpl. eexists. split; [done|]. intros k u. rewrite Hnil. by intros ?%elem_of_nil. }
  assert (∀ s, s ∈ ss → target_name s ≠ None) as Hsome.
  { intros s Hs. rewrite <-Hl2 in Hs. apply list_elem_of_fmap in Hs as (ks & -> & Hks).
    rewrite Forall_forall in Htn. rewrite (Htn _ Hks). done. }
  destruct (forallb _ ss) eqn:Eall.
  { apply forallb_Forall in Eall. destruct ss as [|s ss]; [done|]. apply Forall_cons in Eall as [Hs _].
    apply bool_decide_eq_true in Hs. destruct (Hsome s); [by left|done]. }
  destruct (existsb _ ss) eqn:Eany.
  { apply existsb_Exists, Exists_exists in Eany as (s & Hs & Hb%bool_decide_eq_true). by destruct (Hsome s). }
  destruct (key_sessions_ok l ∅ Htn Hnd) as (keyed & Hkeyed & Hsz & Hin & _); [by intros; rewrite lookup_empty|].
  rewrite Hl2 in Hkeyed. rewrite Hkeyed. simpl. rewrite map_size_empty in Hsz.
  assert (length l = group_size g0) as Hgs.
  { unfold group_size. rewrite <-(length_fmap fst l), Hl1, Hkeys. by rewrite length_fmap. }
  destruct (Nat.eqb_spec (size keyed) (group_size g0)) as [_|]; [|lia].
  assert (∀ k, k ∈ names → ∃ s, (k, s) ∈ l) as Hnames.
  { intros k Hk. unfold names in Hk. rewrite <-Hkeys, <-Hl1 in Hk. apply list_elem_of_fmap in Hk as ([k' s] & -> & ?). eauto. }
  destruct (assign_sessions_ok names keyed (by_name g0) (λ k, default (mkMCPSession None None None) (keyed !! k)))
    as (m' & -> & Hm'); [apply im_iter_keys| |].
  { intros k (s & Hs)%Hnames. by rewrite (Hin _ _ Hs). }
  eexists. split; [done|]. intros k u Hu. destruct (Hin0 k u Hu) as [u0 Hu0].
  assert (k ∈ names) as Hkn by (by apply (list_elem_of_fmap_2 fst _ (k, u0))).
  destruct (Hnames k Hkn) as [s Hs]. destruct (Hl k s Hs) as (u1 & Hu1 & Hstate).
  assert (u1 = u) as -> by (eapply NoDup_fst_elem; [apply im_iter_keys|done..]).
  exists (set_session_id (session s) (backend s) u0). split.
  - simpl. apply Hm'. rewrite decide_True by done. exists u0. by rewrite (Hin _ _ Hs).
  - destruct (Hfresh _ _ _ Hu Hu0) as (Hkind & Htgt & Hsn & Hpn). rewrite Hstate.
    apply (get_session_state_set u); try done. rewrite Htgt. by rewrite (Hself _ _ Hu).
Qed.
End resume_facts.

(** ** The session manager *)

Section manager.
Context {IM : IndexMap} {Expression : Type}.

Record Session := mkSession {
  s_id : string;
  s_group : nat;                       (* the relay's upstreams *)
  s_policies : RuleSets Expression;    (* the relay's policies *)
  s_tx : bool;                         (* a legacy SSE session has a channel *)
}.

Record SessionEntry := mkEntry { e_session : Session; last_access : Z; idle_ttl : Z }.

Record Manager := mkManager {
  sessions : gmap string SessionEntry;
  groups : gmap nat UpstreamGroup;
  next_group : nat;
}.

(** [RelayInputs]: the request's policies, the idle limit of its backend, and
    [build_new_connections]. *)
Record RelayInputs := mkInputs {
  in_policies : RuleSets Expression;
  in_idle_ttl : Z;
  in_connect : result UpstreamGroup ();
}.

(** [Session::with_inputs]. *)
Definition with_inputs (i : RelayInputs) (s : Session) : Session :=
  mkSession (s_id s) (s_group s) (in_policies i) (s_tx s).

Definition touch (now : Z) (e : SessionEntry) : SessionEntry := mkEntry (e_session e) now (idle_ttl e).

Definition set_sessions_map m (st : Manager) : Manager := mkManager m (groups st) (next_group st).

Definition get_session (id : string) (i : RelayInputs) (now : Z) (st : Manager) : Manager * option Session :=
  match sessions st !! id with
  | None => (st, None)
  | Some e => (set_sessions_map (<[id := touch now e]> (sessions st)) st, Some (with_inputs i (e_session e)))
  end.

Definition insert_session (s : Session) (ttl now : Z) (st : Manager) : Manager :=
  set_sessions_map (<[s_id s := mkEntry s now ttl]> (sessions st)) st.

(** A new group of connections. *)
Definition connect (g : UpstreamGroup) (st : Manager) : Manager * nat :=
  (mkManager (sessions st) (<[next_group st := g]> (groups st)) (S (next_group st)), next_group st).

Inductive ResumeError := InvalidSessionIdHeader | ConnectFailed.

(** [get_or_resume_session]; [decode] is [SessionState::decode], with the MCP
    state if it is one. *)
Definition get_or_resume_session (decode : string → result (option (list MCPSession)) ())
    (id : string) (i : RelayInputs) (now : Z) (st : Manager)
    : outcome (Manager * result (option Session) ResumeError) :=
  match sessions st !! id with
  | Some e => Ret (set_sessions_map (<[id := touch now e]> (sessions st)) st, Ok (Some (with_inputs i (e_session e))))
  | None =>
      match decode id with
      | Err _ => Ret (st, Err InvalidSessionIdHeader)
      | Ok None => Ret (st, Ok None)
      | Ok (Some persisted) =>
          match in_connect i with
          | Err _ => Ret (st, Err ConnectFailed)
          | Ok g =>
              '(g, ok) ← set_sessions persisted g;
              if negb ok then Ret (st, Ok None)
              else
                let '(st, h) := connect g st in
                let s := mkSession id h (in_policies i) false in
                Ret (insert_session s (in_idle_ttl i) now st, Ok (Some s))
          end
      end
  end.

(** [create_session] and [create_stateless_session] register nothing;
    [fresh_id] is the UUID drawn. *)
Definition create_session (fresh_id : string) (g : UpstreamGroup) (rs : RuleSets Expression) (st : Manager)
    : Manager * Session :=
  let '(st, h) := connect g st in (st, mkSession fresh_id h rs false).

Definition create_legacy_session (fresh_id : string) (g : UpstreamGroup) (rs : RuleSets Expression) (ttl now : Z)
    (st : Manager) : Manager * Session :=
  let '(st, h) := connect g st in
  let s := mkSession fresh_id h rs true in (insert_session s ttl now st, s).

(** The manager's side of [delete_session] and of a dropped [SessionDropper]. *)
Definition forget_session (id : string) (st : Manager) : Manager := set_sessions_map (delete id (sessions st)) st.

(** What an initialize request does to the session's identifier: it becomes the
    encoded states of the upstreams, where they all have one. [encode] is
    [SessionState::encode]. *)
Definition initialized_id (encode : list MCPSession → result string ()) (g : UpstreamGroup) (id : string) : string :=
  match get_sessions g with
  | Some ss => match encode ss with Ok id' => id' | Err _ => id end
  | None => id
  end.

Definition SESSION_REAP_INTERVAL : Z := 30000.

(** [reap_expired_entries]; [duration_since] saturates at zero. *)
Definition reap_expired_entries (now : Z) (st : Manager) : Manager :=
  set_sessions_map (filter (λ ie, (Z.max 0 (now - last_access ie.2) < idle_ttl ie.2)%Z) (sessions st)) st.

(** ** Runs of the manager

    What requests and the reaper do to the manager, one timed operation after
    the other: each holds the lock on the sessions while it works. *)
Inductive Op :=
| OpGet (id : string) (i : RelayInputs)
| OpResume (id : string) (i : RelayInputs)
| OpCreate (fresh_id : string) (g : UpstreamGroup) (rs : RuleSets Expression)
| OpInsert (s : Session) (ttl : Z)
| OpLegacy (fresh_id : string) (g : UpstreamGroup) (rs : RuleSets Expression) (ttl : Z)
| OpForget (id : string)
| OpReap.

Section runs.
Variable decode : string → result (option (list MCPSession)) ().

Definition m_step (op : Op) (now : Z) (st : Manager) : outcome Manager :=
  match op with
  | OpGet id i => Ret (get_session id i now st).1
  | OpResume id i => r ← get_or_resume_session decode id i now st; Ret r.1
  | OpCreate x g rs => Ret (create_session x g rs st).1
  | OpInsert s ttl => Ret (insert_session s ttl now st)
  | OpLegacy x g rs ttl => Ret (create_legacy_session x g rs ttl now st).1
  | OpForget id => Ret (forget_session id st)
  | OpReap => Ret (reap_expired_entries now st)
  end.

Definition m_run (ops : list (Z * Op)) (st : Manager) : outcome Manager :=
  fold_out (λ o st, m_step o.2 o.1 st) ops st.

(** When session [id], last used at [last], was last used once the operations
    are done; [None] if one of them drops or replaces it. *)
Fixpoint last_use (id : string) (ttl last : Z) (ops : list (Z * Op)) : option Z :=
  match ops with
  | [] => Some last
  | (t, op) :: ops =>
      match op with
      | OpGet id' _ | OpResume id' _ => last_use id ttl (if decide (id' = id) then t else last) ops
      | OpInsert s _ => if decide (s_id s = id) then None else last_use id ttl last ops
      | OpLegacy id' _ _ _ | OpForget id' => if decide (id' = id) then None else last_use id ttl last ops
      | OpCreate _ _ _ => last_use id ttl last ops
      | OpReap => if decide (t < last + ttl)%Z then last_use id ttl last ops else None
      end
  end.

(** Handles not yet given out name no group. *)
Definition m_inv (st : Manager) : Prop := ∀ h, (next_group st ≤ h)%nat → groups st !! h = None.

Lemma key_sessions_total ss m :
  Forall (λ s, target_name s ≠ None) ss → ∃ o, key_sessions ss m = Ret o.
Proof.
  intros HF. revert m. induction HF as [|s ss Hs HF IH]; intros m; simpl; [eauto|].
  destruct (target_name s) as [t|]; [|done]. simpl. destruct (m !! t); eauto.
Qed.

(** No persisted state, however malformed, makes resumption panic. *)
Lemma set_sessions_total ss g : ∃ r, set_sessions ss g = Ret r.
Proof.
  unfold set_sessions. destruct (forallb _ ss); [case_match; eauto|].
  destruct (existsb _ ss) eqn:E; [eauto|]. destruct (key_sessions_total ss ∅) as [o ->].
  - apply Forall_forall. intros s Hs Hn. apply not_true_iff_false in E. apply E.
    apply existsb_Exists, Exists_exists. exists s. by rewrite bool_decide_true.
  - simpl. destruct o as [m|]; [|eauto]. case_match; [|eauto]. case_match. eauto.
Qed.

(** An operation that leaves session [id] alone keeps its entry; every operation
    keeps the groups that are open. *)
Lemma m_step_kept op now id e st :
  m_inv st → sessions st !! id = Some e → (0 < idle_ttl e)%Z →
  ∃ st', m_step op now st = Ret st' ∧ m_inv st' ∧
    (∀ h g, groups st !! h = Some g → groups st' !! h = Some g) ∧
    ∀ last, last_use id (idle_ttl e) (last_access e) [(now, op)] = Some last →
      sessions st' !! id = Some (mkEntry (e_session e) last (idle_ttl e)).
Proof.
  intros Hinv He Httl. destruct st as [m gs nx], e as [s la ttl]; simpl in *.
  assert (∀ g : UpstreamGroup, (∀ h g', gs !! h = Some g' → <[nx := g]> gs !! h = Some g') ∧
      m_inv (mkManager m (<[nx := g]> gs) (S nx))) as Hconn.
  { intros g. split.
    - intros h g' Hh. rewrite lookup_insert_ne; [done|]. intros <-. by rewrite Hinv in Hh.
    - intros h Hh. simpl in *. rewrite lookup_insert_ne by lia. apply Hinv. simpl. lia. }
  destruct op as [id' i|id' i|x g rs|s' ttl'|x g rs ttl'|id'|]; simpl.
  - unfold get_session. simpl. destruct (m !! id') as [e'|] eqn:E; simpl.
    + eexists. split_and!; [done..|]. intros last [= <-]. unfold set_sessions_map; simpl. case_decide; simplify_eq/=; [by rewrite lookup_insert_eq|].
      by rewrite lookup_insert_ne.
    + eexists. split_and!; [done..|]. intros last [= <-]. rewrite decide_False by congruence. done.
  - unfold get_or_resume_session. simpl. destruct (m !! id') as [e'|] eqn:E; simpl.
    { eexists. split_and!; [done..|]. intros last [= <-]. unfold set_sessions_map; simpl. case_decide; simplify_eq/=; [by rewrite lookup_insert_eq|].
      by rewrite lookup_insert_ne. }
    assert (id' ≠ id) as Hne by congruence. rewrite decide_False by done.
    assert (∃ st', Ret (mkManager m gs nx) = Ret st' ∧ m_inv st' ∧
      (∀ h g, gs !! h = Some g → groups st' !! h = Some g) ∧
      ∀ last, Some la = Some last → sessions st' !! id = Some (mkEntry s last ttl)) as Hsame.
    { eexists. split_and!; [done..|]. by intros last [= <-]. }
    destruct (decode id') as [[persisted|]|]; [|done..]. destruct (in_connect i) as [g|]; [|done].
    destruct (set_sessions_total persisted g) as [[g' ok] ->]. simpl. destruct ok; simpl; [|done].
    eexists. split_and!; [done|apply Hconn|apply Hconn|]. intros last [= <-]. simpl. rewrite lookup_insert_ne by done. done.
  - eexists. split_and!; [done|apply Hconn|apply Hconn|]. by intros last [= <-].
  - eexists. split_and!; [done..|]. intros last. case_decide; [done|]. intros [= <-]; simpl. by rewrite lookup_insert_ne.
  - eexists. split_and!; [done|apply Hconn|apply Hconn|]. intros last. case_decide; [done|]. intros [= <-]; simpl.
    by rewrite lookup_insert_ne.
  - eexists. split_and!; [done..|]. intros last. case_decide; [done|]. intros [= <-]; simpl. by rewrite lookup_delete_ne.
  - eexists. split_and!; [done..|]. intros last. case_decide; [|done]. intros [= <-].
    apply map_lookup_filter_Some. simpl. split; [done|lia].
Qed.

Lemma last_use_cons id ttl last t op ops :
  last_use id ttl last ((t, op) :: ops) = last_use id ttl last [(t, op)] ≫= λ l, last_use id ttl l ops.
Proof. destruct op; simpl; repeat case_decide; done. Qed.

Lemma m_run_kept ops id e st last :
  m_inv st → sessions st !! id = Some e → (0 < idle_ttl e)%Z →
  last_use id (idle_ttl e) (last_access e) ops = Some last →
  ∃ st', m_run ops st = Ret st' ∧ sessions st' !! id = Some (mkEntry (e_session e) last (idle_ttl e)) ∧
    ∀ h g, groups st !! h = Some g → groups st' !! h = Some g.
Proof.
  revert e st. induction ops as [|[t op] ops IH]; intros e st Hinv He Httl Hlast.
  { simpl in Hlast. simplify_eq. exists st. by destruct e. }
  rewrite last_use_cons in Hlast. apply bind_Some in Hlast as (l & Hl & Hlast).
  destruct (m_step_kept op t id e st Hinv He Httl) as (st1 & Hst1 & Hinv1 & Hg & He1).
  destruct (IH (mkEntry (e_session e) l (idle_ttl e)) st1 Hinv1 (He1 _ Hl) Httl Hlast) as (st' & Hst' & He' & Hg').
  exists st'. unfold m_run. simpl. rewrite Hst1. simpl. split_and!; [done..|]. eauto.
Qed.

(** The life of a session. Whatever other requests and the reaper do in
    the meantime, a session that is never left idle for its whole idle limit is
    still there: no operation panics, a request that names it is handed the same
    session on the same upstream connections, under the policies of that request
    and no others, and the reaper drops it exactly when it runs the idle limit
    or more after the last use. *)
Theorem session_lifetime ops id e g st last :
  m_inv st → sessions st !! id = Some e → (0 < idle_ttl e)%Z →
  groups st !! s_group (e_session e) = Some g →
  last_use id (idle_ttl e) (last_access e) ops = Some last →
  ∃ st', m_run ops st = Ret st' ∧ groups st' !! s_group (e_session e) = Some g ∧
    (∀ i now, (get_session id i now st').2 = Some (with_inputs i (e_session e)) ∧
       ∃ st2, get_or_resume_session decode id i now st' = Ret (st2, Ok (Some (with_inputs i (e_session e))))) ∧
    ∀ now, is_Some (sessions (reap_expired_entries now st') !! id) ↔ (now < last + idle_ttl e)%Z.
Proof.
  intros Hinv He Httl Hg Hlast. destruct (m_run_kept ops id e st last) as (st' & Hrun & He' & Hgs); [done..|].
  exists st'. split; [done|]. split; [auto|]. split.
  - intros i now. unfold get_session, get_or_resume_session. rewrite He'. simpl. eauto.
  - intros now. simpl. split.
    + intros [x [Hx Hlt]%map_lookup_filter_Some]. rewrite He' in Hx. simplify_eq/=. lia.
    + intros Hlt. eexists. apply map_lookup_filter_Some. split; [done|]. simpl. lia.
Qed.

(** Where the identifier of a session decodes to the states it was made of, the
    session is resumed. *)
Lemma resumed_ok encode g g0 ss id i now st :
  get_sessions g = Some ss → encode ss = Ok id → decode id = Ok (Some ss) →
  same_servers g g0 → in_connect i = Ok g0 → m_inv st → sessions st !! id = None →
  ∀ fresh, let id' := initialized_id encode g fresh in
  ∃ st' s g', get_or_resume_session decode id' i now st = Ret (st', Ok (Some s)) ∧
    s_policies s = in_policies i ∧ (∀ h g, groups st !! h = Some g → h ≠ s_group s) ∧
    sessions st' !! id' = Some (mkEntry s now (in_idle_ttl i)) ∧ groups st' !! s_group s = Some g' ∧
    ∀ k u, (k, u) ∈ im_iter (by_name g) →
      ∃ u', (k, u') ∈ im_iter (by_name g') ∧ get_session_state u' = get_session_state u.
Proof.
  intros Hget Henc Hdec Hsame Hconn Hinv Hnone fresh. unfold initialized_id. rewrite Hget, Henc. simpl.
  destruct (set_sessions_ok g g0 ss Hsame Hget) as (g' & Hset & Hst).
  unfold get_or_resume_session. rewrite Hnone, Hdec, Hconn, Hset. simpl. eexists _, _, g'. split; [done|].
  simpl. rewrite !lookup_insert_eq. split_and!; try done. intros h gh Hh ->. by rewrite Hinv in Hh.
Qed.
End runs.
End manager.
