(* ===== verification/XdsProto.v ===== *)
(** * Messages of the control plane

    The messages of [crates/protos/proto/resource.proto] as [prost] hands them
    to [types/agent_xds.rs]: an enumeration is the number that was sent, a
    [oneof] is an option, a message field an option, a map a [gmap]. Parts of
    policies the gateway's model does not look into are the types of the class
    [OpaqueMessages]. *)
From stdpp Require Import base gmap strings list.
From Stdlib Require Import ZArith Lia.
From S2P Require Import Prelude RustStd AgentTypes.

(** [google.protobuf.Duration]: seconds and nanoseconds, signed. *)
Record PDuration := mkPDuration { d_seconds : Z; d_nanos : Z }.

Class OpaqueMessages := {
  StructMsg : Type; ValueMsg : Type; Double : Type;
}.

(** ** Names and references *)

Module proto.
Record ResourceName := mkResourceName { rs_name : string; rs_namespace : string }.

Record RouteName := mkRouteName { rn_kind : string; rn_name : string; rn_namespace : string; rn_rule_name : option string }.

Record ListenerName := mkListenerName {
  ln_gateway_name : string;
  ln_gateway_namespace : string;
  ln_listener_name : string;
  ln_listener_set : option ResourceName;
}.

(** [istio.workload.NamespacedHostname] and [BackendReference.Service]. *)
Record Hostname := mkHostname { h_namespace : string; h_hostname : string }.

Inductive ReferenceKind := RService (s : Hostname) | RBackend (key : string).
Record BackendReference := mkBackendReference { br_kind : option ReferenceKind; br_port : Z }.

(** ** Matches *)

Inductive StringMatch := MExact (s : string) | MRegex (s : string).
Inductive PathKind := KExact (s : string) | KPathPrefix (s : string) | KRegex (s : string).

(** [HeaderMatch] and [QueryMatch]. *)
Record ValueMatch := mkValueMatch { vm_name : string; vm_value : option StringMatch }.

Record RouteMatch := mkRouteMatch {
  rm_path : option (option PathKind);          (* a [PathMatch] with its [kind] *)
  rm_headers : list ValueMatch;
  rm_method : option string;
  rm_query_params : list ValueMatch;
}.

(** ** Policies *)

(** [RBAC], [McpAuthorization] and [NetworkAuthorization]. *)
Record Rbac := mkRbac { rb_allow : list string; rb_deny : list string; rb_require : list string }.

Inductive LocationKind := LKHeader (name : string) (prefix : option string) | LKQueryParameter (name : string)
| LKCookie (name : string) | LKExpression (e : string).
Definition AuthorizationLocation : Type := option LocationKind.

(** [HeaderModifier]; a [Header] is a name and a value. *)
Record HeaderModifier := mkHeaderModifier { hm_add : list (string * string); hm_set : list (string * string); hm_remove : list string }.

Inductive RedirectPath := RPFull (f : string) | RPPrefix (p : string).

Record RequestRedirect := mkRequestRedirect {
  rr_scheme : string; rr_host : string; rr_path : option RedirectPath; rr_port : Z; rr_status : Z;
}.

Record UrlRewrite := mkUrlRewrite { ur_host : string; ur_path : option RedirectPath }.

Record Cors := mkCors {
  co_allow_credentials : bool; co_allow_headers : list string; co_allow_methods : list string;
  co_allow_origins : list string; co_expose_headers : list string; co_max_age : option PDuration;
}.

Record Timeout := mkTimeout { to_request : option PDuration; to_backend_request : option PDuration }.
Record Retry := mkRetry { re_retry_status_codes : list Z; re_attempts : Z; re_backoff : option PDuration }.

Record LocalRateLimit := mkLocalRateLimit { lr_max_tokens : Z; lr_tokens_per_fill : Z; lr_fill_interval : option PDuration; lr_type : Z }.

Record Descriptor := mkDescriptor { de_entries : list (string * string); de_type : Z; de_limit_override : option string; de_cost : option string }.
Record RemoteRateLimit := mkRemoteRateLimit {
  rl_domain : string; rl_descriptors : list Descriptor; rl_target : option BackendReference; rl_failure_mode : Z;
}.

Record BodyOptions := mkBodyOptions { bo_max_request_bytes : Z; bo_allow_partial_message : bool; bo_pack_as_bytes : bool }.
Inductive AuthProtocol :=
| APGrpc (context metadata : gmap string string)
| APHttp (path redirect : option string) (include_response_headers : list string) (add_request_headers metadata : gmap string string).
Record ExternalAuth := mkExternalAuth {
  ea_target : option BackendReference; ea_protocol : option AuthProtocol; ea_failure_mode : Z; ea_status_on_error : option Z;
  ea_include_request_headers : list string; ea_include_request_body : option BodyOptions;
}.

Record ExtProc := mkExtProc {
  ep_target : option BackendReference; ep_failure_mode : Z; ep_request_attributes : gmap string string;
  ep_response_attributes : gmap string string; ep_metadata_context : gmap string (gmap string string);
}.

(** [JWTProvider]; its validation options are the required claims. *)
Record JwtProvider := mkJwtProvider {
  jp_issuer : string; jp_audiences : list string; jp_jwks_source : option string; jp_validation_options : option (list string);
}.

Record KeepaliveConfig := mkKeepalive { ka_time : option PDuration; ka_interval : option PDuration; ka_retries : option Z }.

Section messages.
Context {OM : OpaqueMessages}.

Definition ResourceMetadata : Type := option (gmap string ValueMsg).

Record Jwt := mkJwt {
  jw_mode : Z; jw_providers : list JwtProvider; jw_mcp : option (Z * ResourceMetadata);
  jw_authorization_location : option AuthorizationLocation;
}.

Record McpAuthentication := mkMcpAuthentication {
  ma_issuer : string; ma_audiences : list string; ma_jwks_inline : string; ma_provider : Z; ma_resource_metadata : ResourceMetadata;
  ma_mode : Z; ma_validation_options : option (list string); ma_authorization_location : option AuthorizationLocation;
}.

Record BasicAuthentication := mkBasicAuthentication {
  ba_htpasswd_content : string; ba_realm : option string; ba_mode : Z; ba_authorization_location : option AuthorizationLocation;
}.

Record ApiKey := mkApiKey {
  ak_api_keys : list (string * option StructMsg); ak_mode : Z; ak_authorization_location : option AuthorizationLocation;
}.

(** [RequestMirrors]: a backend and a percentage each. *)
Definition Mirrors : Type := list (option BackendReference * Double).

(** [TransformationPolicy]; a [HeaderTransformation] is a name and an expression. *)
Record Transform := mkTransform {
  tf_set : list (string * string); tf_add : list (string * string); tf_remove : list string; tf_body : option string;
  tf_metadata : gmap string string;
}.
Record TransformationPolicy := mkTransformationPolicy { tfp_request : option Transform; tfp_response : option Transform }.

Inductive TrafficKind :=
| TKTimeout (t : Timeout) | TKRetry (r : Retry) | TKLocalRateLimit (l : LocalRateLimit) | TKExtAuthz (e : ExternalAuth)
| TKAuthorization (r : Rbac) | TKJwt (j : Jwt) | TKTransformation (t : TransformationPolicy) | TKRemoteRateLimit (r : RemoteRateLimit)
| TKCsrf (additional_origins : list string) | TKExtProc (e : ExtProc) | TKRequestHeaderModifier (h : HeaderModifier)
| TKResponseHeaderModifier (h : HeaderModifier) | TKRequestRedirect (r : RequestRedirect) | TKUrlRewrite (u : UrlRewrite)
| TKRequestMirror (m : Mirrors) | TKDirectResponse (status : Z) (body : string) | TKCors (c : Cors)
| TKBasicAuth (b : BasicAuthentication) | TKApiKeyAuth (a : ApiKey) | TKHostRewrite (mode : Z).

Record TrafficPolicySpec := mkTrafficPolicySpec { tps_phase : Z; tps_kind : option TrafficKind }.

(** [Gcp], with its token type; [Aws]; [Azure]. *)
Inductive GcpTokenType := AccessToken | IdToken (audience : option string).
Inductive AwsKind := AwsExplicit (access_key_id secret_access_key region : string) (session_token : option string) | AwsImplicit.
Inductive AzureIdentityId := ClientId (s : string) | ObjectId (s : string) | ResourceId (s : string).
Inductive AzureSource :=
| ClientSecret (tenant_id client_id client_secret : string) | ManagedIdentityCredential (identity : option (option AzureIdentityId))
| WorkloadIdentityCredential.
Inductive AzureKind := AzureExplicit (source : option AzureSource) | AzureDeveloperImplicit | AzureImplicit.

(** [BackendAuthPolicy]. *)
Inductive BackendAuthKind :=
| AKPassthrough (l : option AuthorizationLocation) | AKKey (secret : string) (l : option AuthorizationLocation) 
| AKGcp (credential : option string) (token_type : option GcpTokenType) | AKAws (a : option AwsKind) | AKAzure (a : option AzureKind).

Record BackendTls := mkBackendTls {
  bt_cert : option string; bt_key : option string; bt_root : option string; bt_verification : Z; bt_hostname : option string;
  bt_verify_subject_alt_names : list string; bt_alpn : option (list string); bt_key_exchange_groups : list Z;
}.

Record Eviction := mkEviction {
  ev_duration : option PDuration; ev_restore_health : option Double; ev_consecutive_failures : option Z; ev_health_threshold : option Double;
}.

(** [BackendPolicySpec.Ai]. Its guards have policies of their own, of type [P]. *)
Record Rejection := mkRejection { rj_body : string; rj_status : Z }.
Inductive RegexRuleKind := RRBuiltin (n : Z) | RRRegex (s : string).
Record RegexRules := mkRegexRules { rx_action : Z; rx_rules : list (option RegexRuleKind) }.
Record Webhook := mkWebhook { wh_backend : option BackendReference; wh_forward_header_matches : list ValueMatch }.
Record PromptEnrichment := mkPromptEnrichment { pe_append : list (string * string); pe_prepend : list (string * string) }.
Record PromptCaching := mkPromptCaching {
  pc_cache_system : bool; pc_cache_messages : bool; pc_cache_tools : bool; pc_min_tokens : option Z; pc_cache_message_offset : option Z;
}.

Inductive RequestGuardKind {P : Type} :=
| QGRegex (r : RegexRules) | QGWebhook (w : Webhook) | QGOpenaiModeration (model : option string) (inline : list P)
| QGGoogleModelArmor (template_id project_id : string) (location : option string) (inline : list P)
| QGBedrockGuardrails (identifier version region : string) (inline : list P)
| QGAzureContentSafety (endpoint : string) (severity_threshold : option Z) (api_version : option string) (blocklist_names : list string)
    (halt_on_blocklist_hit : option bool) (inline : list P).

Inductive ResponseGuardKind {P : Type} :=
| SGRegex (r : RegexRules) | SGWebhook (w : Webhook)
| SGGoogleModelArmor (template_id project_id : string) (location : option string) (inline : list P)
| SGBedrockGuardrails (identifier version region : string) (inline : list P)
| SGAzureContentSafety (endpoint : string) (severity_threshold : option Z) (api_version : option string) (blocklist_names : list string)
    (halt_on_blocklist_hit : option bool) (inline : list P).

Record RequestGuard {P : Type} := mkRequestGuard { qg_rejection : option Rejection; qg_kind : option (RequestGuardKind (P := P)) }.
Record ResponseGuard {P : Type} := mkResponseGuard { sg_rejection : option Rejection; sg_kind : option (ResponseGuardKind (P := P)) }.
Record PromptGuard {P : Type} := mkPromptGuard { pg_request : list (RequestGuard (P := P)); pg_response : list (ResponseGuard (P := P)) }.

Record Ai {P : Type} := mkAi {
  ai_prompt_guard : option (PromptGuard (P := P)); ai_defaults : gmap string string; ai_overrides : gmap string string;
  ai_transformations : gmap string string; ai_prompts : option PromptEnrichment; ai_model_aliases : gmap string string;
  ai_prompt_caching : option PromptCaching; ai_routes : gmap string Z;
}.

Local Unset Elimination Schemes.
Inductive BackendKind :=
| BKA2a | BKInferenceRouting (endpoint_picker : option BackendReference) (failure_mode : Z) | BKBackendTls (t : BackendTls)
| BKAuth (a : option BackendAuthKind) | BKMcpAuthorization (r : Rbac) | BKMcpAuthentication (m : McpAuthentication) | BKAi (a : Ai (P := option BackendKind))
| BKRequestHeaderModifier (h : HeaderModifier) | BKResponseHeaderModifier (h : HeaderModifier) | BKRequestRedirect (r : RequestRedirect)
| BKRequestMirror (m : Mirrors) | BKBackendHttp (version : Z) (request_timeout : option PDuration)
| BKBackendTcp (keepalive : option KeepaliveConfig) (connect_timeout : option PDuration) | BKTransformation (t : TransformationPolicy)
| BKHealth (unhealthy_condition : string) (eviction : option Eviction) | BKBackendTunnel (proxy : option BackendReference)
| BKExtAuthz (e : ExternalAuth).
Local Set Elimination Schemes.
Definition BackendPolicySpec : Type := option BackendKind.

Record FrontendHttp := mkFrontendHttp {
  fh_max_buffer_size : option Z; fh_http1_max_headers : option Z; fh_http1_idle_timeout : option PDuration; fh_http2_window_size : option Z;
  fh_http2_connection_window_size : option Z; fh_http2_frame_size : option Z; fh_http2_keepalive_interval : option PDuration;
  fh_http2_keepalive_timeout : option PDuration; fh_max_connection_duration : option PDuration; fh_http2_max_header_size : option Z;
}.

Record FrontendTls := mkFrontendTls {
  ft_handshake_timeout : option PDuration; ft_alpn : option (list string); ft_cipher_suites : list Z; ft_min_version : option Z;
  ft_max_version : option Z; ft_key_exchange_groups : list Z;
}.

(** An attribute of [Tracing], and a field of [Metrics], is a name and an
    expression. *)
Record Tracing := mkTracing {
  tg_provider_backend : option BackendReference; tg_attributes : list (string * string); tg_resources : list (string * string);
  tg_remove : list string; tg_random_sampling : option string; tg_client_sampling : option string; tg_path : option string; tg_protocol : Z;
}.

(** [Logging], with its [OtlpAccessLog]. *)
Record OtlpAccessLog := mkOtlpAccessLog {
  ol_provider_backend : option BackendReference; ol_inline_policies : list BackendPolicySpec; ol_protocol : Z; ol_path : option string;
}.
Record LoggingFields := mkLoggingFields { lf_add : list (string * string); lf_remove : list string }.
Record Logging := mkLogging { lo_filter : option string; lo_fields : option LoggingFields; lo_otlp_access_log : option OtlpAccessLog }.

Inductive FrontendKind :=
| FKTcp (keepalives : option KeepaliveConfig) | FKTls (t : FrontendTls) | FKHttp (h : FrontendHttp) | FKLogging (l : Logging)
| FKTracing (t : Tracing) | FKNetworkAuthorization (r : Rbac) | FKProxyProtocol (version mode : Z) | FKMetrics (fields : option (list (string * string))).

Inductive TargetKind :=
| TGGateway (name namespace : string) (listener : option string) (port : option Z)
| TGRoute (name namespace : string) (route_rule : option string) (kind : string)
| TGBackend (name namespace : string) (section : option string)
| TGService (namespace hostname : string) (port : option Z)
| TGListenerSet (name namespace : string) (section : option string).
Definition PolicyTarget : Type := option TargetKind.

(** [ConditionalPolicy]: a condition, and a traffic policy if its kind is set. *)
Record ConditionalPolicy := mkConditionalPolicy { cp_condition : option string; cp_kind : option TrafficPolicySpec }.

Inductive PolicyKind :=
| PKTraffic (t : TrafficPolicySpec) | PKBackend (b : BackendPolicySpec) | PKFrontend (f : option FrontendKind)
| PKConditional (l : list ConditionalPolicy).

Record Policy := mkPolicy { po_key : string; po_target : option PolicyTarget; po_kind : option PolicyKind }.

(** ** Binds, listeners, routes and backends *)

Record Bind := mkBind { bi_key : string; bi_port : Z; bi_protocol : Z; bi_tunnel_protocol : Z }.

Record TlsConfig := mkTlsConfig {
  tl_cert : string; tl_private_key : string; tl_root : option string; tl_cipher_suites : list Z; tl_min_version : option Z;
  tl_max_version : option Z; tl_mtls_mode : Z; tl_key_exchange_groups : list Z; tl_certificate_source : Z;
}.

Record Listener := mkListener {
  li_key : string; li_bind_key : string; li_name : option ListenerName; li_hostname : string; li_protocol : Z; li_tls : option TlsConfig;
}.

Record RouteBackend := mkRouteBackend {
  rb_backend : option BackendReference; rb_route_group_key : option string; rb_weight : Z; rb_backend_policies : list BackendPolicySpec;
}.

Record Route := mkRoute {
  ro_key : string; ro_listener_key : string; ro_service_key : option Hostname; ro_route_group_key : option string; ro_name : option RouteName;
  ro_hostnames : list string; ro_matches : list RouteMatch; ro_backends : list RouteBackend; ro_traffic_policies : list TrafficPolicySpec;
}.

Record TcpRoute := mkTcpRoute {
  tr_key : string; tr_listener_key : string; tr_service_key : option Hostname; tr_name : option RouteName; tr_hostnames : list string;
  tr_backends : list RouteBackend;
}.

Inductive ProviderKind :=
| POpenai (model : option string) | PGemini (model : option string) | PVertex (model : option string) (region project_id : string)
| PAnthropic (model : option string) | PBedrock (model : option string) (region : string) (guardrail_identifier guardrail_version : option string)
| PAzure (resource_name : string) (resource_type : Z) (model api_version project_name : option string) | PAzureopenai.

Record Provider := mkProvider {
  pr_name : string; pr_host_override : option (string * Z); pr_path_override : option string; pr_path_prefix : option string;
  pr_provider : option ProviderKind; pr_inline_policies : list BackendPolicySpec;
}.

Record McpTarget := mkMcpTarget { mt_name : string; mt_backend : option BackendReference; mt_path : string; mt_protocol : Z }.

Inductive BackendOf :=
| BStatic (host : string) (port : Z) (unix_path : string)
| BAi (provider_groups : list (list Provider))
| BMcp (targets : list McpTarget) (stateful_mode prefix_mode failure_mode : Z)
| BDynamic
| BAws (agent_core : option (string * option string)).

Record Backend := mkBackend { bk_key : string; bk_name : option ResourceName; bk_kind : option BackendOf; bk_inline_policies : list BackendPolicySpec }.
(** ** Policies within policies *)

Definition request_guard_policies {P} (g : RequestGuard (P := P)) : list P :=
  match qg_kind g with
  | Some (QGOpenaiModeration _ l) | Some (QGGoogleModelArmor _ _ _ l) | Some (QGBedrockGuardrails _ _ _ l)
  | Some (QGAzureContentSafety _ _ _ _ _ l) => l
  | _ => []
  end.

Definition response_guard_policies {P} (g : ResponseGuard (P := P)) : list P :=
  match sg_kind g with
  | Some (SGGoogleModelArmor _ _ _ l) | Some (SGBedrockGuardrails _ _ _ l) | Some (SGAzureContentSafety _ _ _ _ _ l) => l
  | _ => []
  end.

(** The policies of the guards of a message. *)
Definition ai_policies {P} (a : Ai (P := P)) : list P :=
  match ai_prompt_guard a with
  | Some pg => (pg_request pg ≫= request_guard_policies) ++ (pg_response pg ≫= response_guard_policies)
  | None => []
  end.

(** [k'] is a policy of a guard of [k]. *)
Definition inline_in (k' k : BackendKind) : Prop := ∃ a, k = BKAi a ∧ Some k' ∈ ai_policies a.

Section sums.
Context {A : Type} (f : A → nat).
Fixpoint sum_of (l : list A) : nat := match l with [] => 0 | x :: l' => f x + sum_of l' end.
Lemma sum_of_elem x l : x ∈ l → f x ≤ sum_of l.
Proof. induction 1; simpl; lia. Qed.
End sums.

Definition request_guard_sum {P} (f : P → nat) (g : RequestGuard (P := P)) : nat :=
  match qg_kind g with
  | Some (QGOpenaiModeration _ l) | Some (QGGoogleModelArmor _ _ _ l) | Some (QGBedrockGuardrails _ _ _ l)
  | Some (QGAzureContentSafety _ _ _ _ _ l) => sum_of f l
  | _ => 0
  end.

Definition response_guard_sum {P} (f : P → nat) (g : ResponseGuard (P := P)) : nat :=
  match sg_kind g with
  | Some (SGGoogleModelArmor _ _ _ l) | Some (SGBedrockGuardrails _ _ _ l) | Some (SGAzureContentSafety _ _ _ _ _ l) => sum_of f l
  | _ => 0
  end.

Definition ai_sum {P} (f : P → nat) (a : Ai (P := P)) : nat :=
  match ai_prompt_guard a with
  | Some pg => sum_of (request_guard_sum f) (pg_request pg) + sum_of (response_guard_sum f) (pg_response pg)
  | None => 0
  end.

Fixpoint kind_size (k : BackendKind) : nat :=
  match k with BKAi a => S (ai_sum (λ o, match o with Some k => kind_size k | None => 0 end) a) | _ => 0 end.

Lemma ai_sum_elem {P} (f : P → nat) (a : Ai (P := P)) p : p ∈ ai_policies a → f p ≤ ai_sum f a.
Proof.
  unfold ai_policies, ai_sum. destruct (ai_prompt_guard a) as [pg|]; [|by intros ?%elem_of_nil].
  intros [(g & Hp & Hg)%list_elem_of_bind|(g & Hp & Hg)%list_elem_of_bind]%elem_of_app.
  - apply (sum_of_elem (request_guard_sum f)) in Hg. assert (f p ≤ request_guard_sum f g); [|lia]. clear Hg.
    unfold request_guard_policies, request_guard_sum in *. destruct (qg_kind g) as [[]|]; try (by apply elem_of_nil in Hp); by apply sum_of_elem.
  - apply (sum_of_elem (response_guard_sum f)) in Hg. assert (f p ≤ response_guard_sum f g); [|lia]. clear Hg.
    unfold response_guard_policies, response_guard_sum in *. destruct (sg_kind g) as [[]|]; try (by apply elem_of_nil in Hp); by apply sum_of_elem.
Qed.

(** What holds of a policy when it holds of the policies within it holds of all. *)
Lemma backend_kind_ind (Q : BackendKind → Prop) : (∀ k, (∀ k', inline_in k' k → Q k') → Q k) → ∀ k, Q k.
Proof.
  intros H k. remember (kind_size k) as n eqn:Hn. revert k Hn. induction (lt_wf n) as [n _ IH]. intros k ->. apply H.
  intros k' (a & -> & Hk'). eapply IH; [|reflexivity]. simpl.
  apply (ai_sum_elem (λ o, match o with Some k => kind_size k | None => 0 end)) in Hk'. lia.
Qed.
End messages.
End proto.
