(* ===== verification/PolicyTypes.v ===== *)
(** * The policies of the gateway

    The payloads of policies as the components that apply them know them
    ([types/agent.rs], [types/backend.rs], [types/frontend.rs] and the modules
    of [http/]): an instance of [Payloads]. The payloads of policies that no
    file applies are the types of the class [OpaquePolicies]. *)
From stdpp Require Import base gmap strings list.
From Stdlib Require Import ZArith.
From S2P Require Import Prelude RustStd Authorization AgentTypes RouteSelect HttpRequest Rewrite Htpasswd Auth RateLimit Cors Replay ExtAuthz Transformation RemoteLimit ExtProc XdsProto.

Class OpaquePolicies := {
  UserMetadata : Type; Json : Type;
  OidcPolicy : Type; LlmPolicy : Type; BackendTls : Type; GcpCredential : Type; SessionPersistence : Type;
  LoggingPolicy : Type; AccessLogOtlp : Type;
  access_log_policy : LoggingPolicy → option AccessLogOtlp;
}.

Section policies.
Context {UC : UriCrate} {HC : HttpCrate} {RE : RegexEngine} {CE : CelEngine} {JW : JsonWebToken} {OM : OpaqueMessages} {OP : OpaquePolicies}.

(** ** Traffic *)

(** [timeout::Policy], in nanoseconds. *)
Record TimeoutPolicy := mkTimeoutPolicy { request_timeout : option Z; backend_request_timeout : option Z }.

(** [http::ext_proc::ExtProc]. *)
Record ExtProcPolicy := mkExtProcPolicy {
  xp_target : SimpleBackendReference;
  xp_failure_mode : ProcFailureMode;
  xp_request_attributes : option (list (string * Expression));
  xp_response_attributes : option (list (string * Expression));
  xp_metadata_context : option (list (string * list (string * Expression)));
}.

Inductive McpIDP := Auth0 | Keycloak.

(** [McpAuthentication]; its mode is that of the validator. *)
Record McpAuthentication := mkMcpAuthentication {
  mcp_issuer : string;
  mcp_audiences : list string;
  mcp_provider : option McpIDP;
  mcp_resource_metadata : list (string * Json);
  mcp_jwt_validator : Jwt;
  mcp_mode : Mode;
}.

(** [JwtAuthentication]. *)
Record JwtAuthentication := mkJwtAuthentication { ja_jwt : Jwt; ja_mcp : option McpAuthentication }.

Inductive HostRedirectOverride := HOAuto | HONone.

(** [filters::DirectResponse] and [filters::RequestMirror]; the percentage is
    that of the message, which the code divides by a hundred. *)
Record DirectResponse := mkDirectResponse { dr_body : string; dr_status : Z }.
Record RequestMirror := mkRequestMirror { mi_backend : SimpleBackendReference; mi_percentage : Double }.

(** ** Backends *)

Record KeepaliveConfig := mkKeepaliveConfig { ka_enabled : bool; ka_time : Z; ka_interval : Z; ka_retries : Z }.

Record BackendHTTP := mkBackendHTTP { bh_version : option Version; bh_request_timeout : option Z }.
Record BackendTCP := mkBackendTCP { bt_connect_timeout : Z; bt_keepalives : KeepaliveConfig }.

(** [ext_proc::InferenceRouting]; its destination mode is always [Validated]. *)
Record InferenceRouting := mkInferenceRouting { ir_target : SimpleBackendReference; ir_failure_mode : ProcFailureMode }.

(** [health::Policy]. *)
Record HealthEviction := mkHealthEviction {
  he_duration : option Z;
  he_restore_health : option Double;
  he_consecutive_failures : option Z;
  he_health_threshold : option Double;
}.
Record HealthPolicy := mkHealthPolicy { unhealthy_expression : option Expression; hp_eviction : option HealthEviction }.

(** [backendtls::ResolvedBackendTLS]. *)
Record ResolvedBackendTLS := mkResolvedBackendTLS {
  rt_cert : option string; rt_key : option string; rt_root : option string; rt_hostname : option string; rt_insecure : bool;
  rt_insecure_host : bool; rt_alpn : option (list string); rt_subject_alt_names : option (list string); rt_key_exchange_groups : option (list Z);
}.

(** Credentials whose token is fetched when a request is sent: [GcpAuth] and
    [AzureAuth]. *)
Inductive AzureUserAssignedIdentity := AzClientId (s : string) | AzObjectId (s : string) | AzResourceId (s : string).
Inductive AzureAuthCredentialSource :=
| AzClientSecret (tenant_id client_id client_secret : string) | AzManagedIdentity (i : option AzureUserAssignedIdentity) | AzWorkloadIdentity.
Inductive CloudCredential :=
| GcpAccessToken (credential : option GcpCredential) | GcpIdToken (audience : option string) (credential : option GcpCredential)
| AzExplicitConfig (s : AzureAuthCredentialSource) | AzDeveloperImplicit | AzImplicit.

(** ** Language models: [llm::Policy]

    The policies of guards are of type [P]: in the code, of the type that a
    policy for language models is itself a case of. *)

Inductive GuardAction := Mask | Reject.
Inductive Builtin := Ssn | CreditCard | PhoneNumber | Email | CaSin.
Inductive RegexRule := RuleBuiltin (b : Builtin) | RuleRegex (r : Regex).
Record RegexRules := mkRegexRules { rx_action : GuardAction; rx_rules : list RegexRule }.
Record Webhook := mkWebhook { wh_target : SimpleBackendReference; wh_forward_header_matches : list HeaderMatch }.

(** [RequestRejection]; it has no headers here. *)
Record RequestRejection := mkRequestRejection { rj_body : string; rj_status : Z }.
Definition rejection_default : RequestRejection := mkRequestRejection "The request was rejected due to inappropriate content" 403.

Record AnalyzeTextConfig := mkAnalyzeTextConfig {
  at_severity_threshold : option Z; at_api_version : option string; at_blocklist_names : option (list string); at_halt_on_blocklist_hit : option bool;
}.

Record GoogleModelArmor {P : Type} := mkGoogleModelArmor { ga_template_id : string; ga_project_id : string; ga_location : option string; ga_policies : list P }.
Record BedrockGuardrails {P : Type} := mkBedrockGuardrails { bg_identifier : string; bg_version : string; bg_region : string; bg_policies : list P }.
(** Neither kind of jailbreak detection nor a cached credential comes from the control plane. *)
Record AzureContentSafety {P : Type} := mkAzureContentSafety { as_endpoint : string; as_policies : list P; as_analyze_text : option AnalyzeTextConfig }.
Record Moderation {P : Type} := mkModeration { mo_model : option string; mo_policies : list P }.

Inductive RequestGuardKind {P : Type} :=
| QRegex (r : RegexRules) | QWebhook (w : Webhook) | QOpenAIModeration (m : Moderation (P := P)) | QGoogleModelArmor (g : GoogleModelArmor (P := P))
| QBedrockGuardrails (b : BedrockGuardrails (P := P)) | QAzureContentSafety (a : AzureContentSafety (P := P)).
Inductive ResponseGuardKind {P : Type} :=
| SRegex (r : RegexRules) | SWebhook (w : Webhook) | SGoogleModelArmor (g : GoogleModelArmor (P := P))
| SBedrockGuardrails (b : BedrockGuardrails (P := P)) | SAzureContentSafety (a : AzureContentSafety (P := P)).

Record PromptGuard {P : Type} := mkPromptGuard {
  pg_request : list (RequestRejection * RequestGuardKind (P := P)); pg_response : list (RequestRejection * ResponseGuardKind (P := P));
}.

Record PromptEnrichment := mkPromptEnrichment { pe_append : list (string * string); pe_prepend : list (string * string) }.
Record PromptCachingConfig := mkPromptCachingConfig {
  pc_cache_system : bool; pc_cache_messages : bool; pc_cache_tools : bool; pc_min_tokens : option Z; pc_cache_message_offset : Z;
}.
Record ModelAliasPattern := mkModelAliasPattern { ma_regex : Regex; ma_pattern_len : nat }.
Inductive RouteType := Completions | Messages | Models | LlmPassthrough | Detect | Responses | AnthropicTokenCount | Embeddings | Realtime.

Record LlmPolicyOf {P : Type} := mkLlmPolicy {
  ll_prompt_guard : option (PromptGuard (P := P)); ll_defaults : option (gmap string Json); ll_overrides : option (gmap string Json);
  ll_transformations : option (gmap string Expression); ll_prompts : option PromptEnrichment; ll_model_aliases : gmap string string;
  ll_wildcard_patterns : list (ModelAliasPattern * string); ll_prompt_caching : option PromptCachingConfig; ll_routes : list (string * RouteType);
}.

(** [slice::sort_by], which is stable. *)
Fixpoint insert_sorted_by {A} (le : A → A → bool) (x : A) (l : list A) : list A :=
  match l with [] => [x] | y :: l' => if le x y then x :: l else y :: insert_sorted_by le x l' end.
Definition sort_by {A} (le : A → A → bool) (l : list A) : list A := foldr (insert_sorted_by le) [] l.

(** [SortedRoutes::from_iter]: longer keys first, the wildcard last. *)
Definition route_key_le (a b : string) : bool :=
  if bool_decide (a = "*") then bool_decide (b = "*")
  else if bool_decide (b = "*") then true
  else if (String.length b <? String.length a)%nat then true
  else if (String.length a <? String.length b)%nat then false
  else match String.compare a b with Gt => false | _ => true end.
Definition sorted_routes (l : list (string * RouteType)) : list (string * RouteType) := sort_by (λ x y, route_key_le x.1 y.1) l.

(** ** Frontends *)

(** [OrderedStringMap]: the values by name, and the names in the order they came. *)
Record OrderedStringMap {V : Type} := mkOrderedStringMap { os_map : gmap string V; os_order : list string }.

Definition os_from_iter {V} (items : list (string * V)) : OrderedStringMap (V := V) :=
  mkOrderedStringMap _ (foldl (λ m kv, <[kv.1 := kv.2]> m) ∅ items) items.*1.

Definition os_iter {V} (m : OrderedStringMap (V := V)) : outcome (list (string * V)) :=
  fold_out (λ k acc, v ← expect (os_map m !! k); Ret (acc ++ [(k, v)])) (os_order m) [].

Inductive TracingProtocol := ProtocolHttp | ProtocolGrpc.

(** [TracingConfig]; it has no policies of its own. *)
Record TracingConfig := mkTracingConfig {
  tn_provider_backend : SimpleBackendReference; tn_attributes : OrderedStringMap (V := Expression); tn_resources : OrderedStringMap (V := Expression);
  tn_remove : list string; tn_random_sampling : option Expression; tn_client_sampling : option Expression; tn_path : string; tn_protocol : TracingProtocol;
}.

(** [frontend::LoggingPolicy]; its OTLP exporter has policies of type [P]. *)
Record OtlpLoggingConfig {P : Type} := mkOtlpLoggingConfig {
  og_provider_backend : SimpleBackendReference; og_policies : list P; og_protocol : TracingProtocol; og_path : string;
}.
Record LoggingPolicyOf {P : Type} := mkLoggingPolicy {
  lg_filter : option Expression; lg_add : OrderedStringMap (V := Expression); lg_remove : gset string; lg_otlp : option (OtlpLoggingConfig (P := P));
}.

Inductive TLSVersion := TLS_V1_0 | TLS_V1_1 | TLS_V1_2 | TLS_V1_3.

Record FrontendHTTP := mkFrontendHTTP {
  fe_max_buffer_size : Z; fe_http1_max_headers : option Z; fe_http1_idle_timeout : Z; fe_http2_window_size : option Z;
  fe_http2_connection_window_size : option Z; fe_http2_frame_size : option Z; fe_http2_max_header_size : option Z;
  fe_http2_keepalive_interval : option Z; fe_http2_keepalive_timeout : option Z; fe_max_connection_duration : option Z;
}.

(** Cipher suites and key exchange groups are known by their numbers. *)
Record FrontendTLS := mkFrontendTLS {
  fe_handshake_timeout : Z; fe_alpn : option (list string); fe_min_version : option TLSVersion; fe_max_version : option TLSVersion;
  fe_cipher_suites : option (list Z); fe_key_exchange_groups : option (list Z);
}.

Inductive ProxyVersion := ProxyV1 | ProxyV2 | ProxyAll.
Inductive ProxyMode := ProxyStrict | ProxyOptional.

Definition gateway_payloads : Payloads := {|
  payloads_cel := CE;
  LocalRateLimitP := list RateLimit; RemoteRateLimitP := SimpleBackendReference * RemoteRateLimit; ExtAuthzP := SimpleBackendReference * ExtAuthz;
  ExtProcP := ExtProcPolicy; JwtAuthP := JwtAuthentication; OidcP := OidcPolicy; BasicAuthP := BasicAuthentication;
  APIKeyP := APIKeyAuthentication (UserMetadata := UserMetadata); TransformationP := Transformation; CsrfP := Csrf;
  DirectResponseP := DirectResponse; LlmP := LlmPolicy; TimeoutP := TimeoutPolicy; RetryP := RetryPolicy * option Z;
  HeaderModifierP := HeaderModifier; RequestRedirectP := RequestRedirect; UrlRewriteP := UrlRewrite;
  HostRedirectOverrideP := HostRedirectOverride; RequestMirrorP := RequestMirror; CorsP := Cors;
  BackendTLSP := BackendTls; BackendAuthP := BackendAuth (UserMetadata := UserMetadata); A2aP := (); InferenceRoutingP := InferenceRouting;
  McpAuthenticationP := McpAuthentication; BackendHTTPP := BackendHTTP; BackendTCPP := BackendTCP; TunnelP := SimpleBackendReference;
  SessionPersistenceP := SessionPersistence; HealthP := HealthPolicy; FrontendHTTPP := FrontendHTTP; FrontendTLSP := FrontendTLS;
  FrontendTCPP := KeepaliveConfig; FrontendProxyP := ProxyVersion * ProxyMode; LoggingP := LoggingPolicy; AccessLogOtlpP := AccessLogOtlp;
  TracingP := TracingConfig; MetricsFieldsP := OrderedStringMap (V := Expression); logging_access_log_policy := access_log_policy |}.

(** Every name of a map has a value: the last that came with it. *)
Lemma os_lookup {V} (items : list (string * V)) (m : gmap string V) k :
  k ∈ items.*1 ∨ is_Some (m !! k) → is_Some (foldl (λ m kv, <[kv.1 := kv.2]> m) m items !! k).
Proof.
  revert m. induction items as [|[k' v] items IH]; intros m H; simpl in *.
  - by destruct H as [?%elem_of_nil|].
  - apply IH. destruct (decide (k = k')) as [->|Hne]; [right; rewrite lookup_insert_eq; eauto|]. rewrite lookup_insert_ne by done. set_solver.
Qed.

Lemma os_iter_ret {V} (items : list (string * V)) : ∃ l, os_iter (os_from_iter items) = Ret l ∧ l.*1 = items.*1.
Proof.
  assert (∀ (m : gmap string V) ks acc, (∀ k, k ∈ ks → is_Some (m !! k)) →
    ∃ l, fold_out (λ k acc, v ← expect (m !! k); Ret (acc ++ [(k, v)])) ks acc = Ret l ∧ l.*1 = acc.*1 ++ ks) as H.
  { intros m ks. induction ks as [|k ks IH]; intros acc Hall; simpl; [exists acc; by rewrite app_nil_r|].
    destruct (Hall k) as [v Hv]; [left|]. rewrite Hv. simpl. destruct (IH (acc ++ [(k, v)])) as (l & Hl & El); [intros; apply Hall; by right|].
    exists l. split; [done|]. by rewrite El, fmap_app, <-app_assoc. }
  apply (H _ _ []). intros k Hk. apply os_lookup. by left.
Qed.
End policies.
