(* ===== verification/ProxyProtocol.v ===== *)
(** * Connections with a PROXY header

    [transport/rewind.rs] and [proxy/proxy_protocol.rs], and the part of
    [proxy/gateway.rs] that uses them: a socket that remembers what was read
    from it so that it can be read again, the detection of a PROXY header at the
    start of a connection, what it changes of the connection, and the choice
    between TLS and plain HTTP by the first byte.

    The parser of headers (the crate [ppp]) is a parameter. *)
From stdpp Require Import base strings list.
From Stdlib Require Import ZArith Lia.
From S2P Require Import Prelude RustStd Authorization AgentTypes BindStore DiscoveryTypes PolicyTypes.

Local Open Scope list_scope.
Local Open Scope nat_scope.

(** ** Sockets *)

(** What the network will deliver: data, or an error; then the end. The timeout
    of the detection ends it as an error does. *)
Inductive IoEvent := Data (bs : list Z) | IoError.
Abbreviation Io := (list IoEvent).

(** A read of at most [n] bytes; no bytes are the end. *)
Definition io_read (n : nat) (io : Io) : Io * result (list Z) () :=
  match io with
  | [] => ([], Ok [])
  | IoError :: io' => (io', Err ())
  | Data bs :: io' => (if decide (length bs ≤ n) then io' else Data (drop n bs) :: io', Ok (take n bs))
  end.

Inductive RewindState := Filling (b : list Z) | Draining (pre : option (list Z)).
Record RewindSocket := mkRewindSocket { rw_state : RewindState; rw_io : Io }.

Definition rw_new (io : Io) : RewindSocket := mkRewindSocket (Filling []) io.

Definition rw_buffered (s : RewindSocket) : option (list Z) := match rw_state s with Filling b => Some b | Draining _ => None end.

(** [(!l.is_empty()).then_some(l)]. *)
Definition unless_empty (l : list Z) : option (list Z) := match l with [] => None | _ => Some l end.

Definition rw_rewind (s : RewindSocket) : outcome RewindSocket :=
  match rw_state s with
  | Filling b => Ret (mkRewindSocket (Draining (Some b)) (rw_io s))
  | Draining _ => Panic                          (* rewind() may only be called once *)
  end.

Definition rw_keep_after (consumed : nat) (s : RewindSocket) : outcome RewindSocket :=
  match rw_state s with
  | Filling b =>
      if decide (consumed ≤ length b) then
        Ret (mkRewindSocket (Draining (unless_empty (drop consumed b))) (rw_io s))
      else Panic
  | Draining _ => Panic
  end.

(** [poll_read] into a buffer with room for [n] bytes. *)
Definition rw_read (n : nat) (s : RewindSocket) : RewindSocket * result (list Z) () :=
  match rw_state s with
  | Filling b =>
      let '(io, r) := io_read n (rw_io s) in
      (mkRewindSocket (Filling (match r with Ok bs => b ++ bs | Err _ => b end)) io, r)
  | Draining (Some (x :: pre)) =>
      let copy_len := min (length (x :: pre)) n in
      (mkRewindSocket (Draining (unless_empty (drop copy_len (x :: pre)))) (rw_io s), Ok (take copy_len (x :: pre)))
  | Draining _ =>
      let '(io, r) := io_read n (rw_io s) in (mkRewindSocket (Draining None) io, r)
  end.

(** ** Headers *)

Definition PROXY_PROTOCOL_AUTHORITY_TLV : Z := 0xD0.
Definition PROXY_V1_PREFIX : list Z := [0x50; 0x52; 0x4F; 0x58; 0x59]%Z.
Definition PROXY_V1_MAX_HEADER_LEN : nat := 107.
Definition PROXY_V2_SIGNATURE : list Z := [0x0D; 0x0A; 0x0D; 0x0A; 0x00; 0x0D; 0x0A; 0x51; 0x55; 0x49; 0x54; 0x0A]%Z.
Definition PROXY_V2_MAX_HEADER_LEN : nat := 16 + 512.
Definition READ_CHUNK_LEN : nat := 64.

(** Headers as the parser gives them, with their length. *)
Inductive V1Addresses := V1Tcp4 (source destination : SocketAddr) | V1Tcp6 (source destination : SocketAddr) | V1Unknown.
Record V1Header := mkV1Header { v1_addresses : V1Addresses; v1_len : nat }.
Inductive V2Addresses := V2Unspecified | V2IPv4 (source destination : SocketAddr) | V2IPv6 (source destination : SocketAddr) | V2Unix.
Record V2Header := mkV2Header { v2_local : bool; v2_addresses : V2Addresses; v2_tlvs : list (option (Z * list Z)); v2_len : nat }.
(** A failure says whether more input might make it a header. *)
Inductive HeaderResult := HV1 (r : result V1Header bool) | HV2 (r : result V2Header bool).

Record ProxyProtocolInfo := mkProxyInfo { pp_src_addr : option SocketAddr; pp_dst_addr : option SocketAddr; pp_peer_identity : option Identity }.
Record ParsedProxyProtocol := mkParsed { pp_info : ProxyProtocolInfo; pp_consumed_len : nat }.

Inductive ProxyError :=
| VersionNotAllowed | UnsupportedFamily | HeaderTooLong | InvalidHeader | UnexpectedEof | ReadFailed | HeaderMissing.

Definition allows_v1 (v : ProxyVersion) : bool := match v with ProxyV1 | ProxyAll => true | ProxyV2 => false end.
Definition allows_v2 (v : ProxyVersion) : bool := match v with ProxyV2 | ProxyAll => true | ProxyV1 => false end.

Definition starts_with (p l : list Z) : bool := bool_decide (p `prefix_of` l).

Definition could_be (signature buffer : list Z) : bool :=
  if decide (length buffer ≤ length signature) then starts_with buffer signature else starts_with signature buffer.
Definition could_be_v1_prefix : list Z → bool := could_be PROXY_V1_PREFIX.
Definition could_be_v2_prefix : list Z → bool := could_be PROXY_V2_SIGNATURE.

Fixpoint v1_header_complete (buffer : list Z) : bool :=
  match buffer with
  | 13%Z :: ((10%Z :: _) as rest) => true
  | _ :: rest => v1_header_complete rest
  | [] => false
  end.

Section detection.
Context (parse : list Z → HeaderResult) (from_utf8 : list Z → option string).

Definition parse_spiffe_identity (data : list Z) : option Identity := from_utf8 data ≫= identity_from_str.

Definition parse_v1_header (h : V1Header) : ProxyProtocolInfo :=
  match v1_addresses h with
  | V1Tcp4 s d | V1Tcp6 s d => mkProxyInfo (Some s) (Some d) None
  | V1Unknown => mkProxyInfo None None None
  end.

Definition find_identity (tlvs : list (option (Z * list Z))) : option Identity :=
  match list_find_by (λ t : Z * list Z, (t.1 =? PROXY_PROTOCOL_AUTHORITY_TLV)%Z) (omap id tlvs) with
  | Some t => parse_spiffe_identity t.2
  | None => None
  end.

Definition parse_v2_header (h : V2Header) : result ProxyProtocolInfo ProxyError :=
  if v2_local h then Ok (mkProxyInfo None None None)
  else
    match v2_addresses h with
    | V2IPv4 s d | V2IPv6 s d => Ok (mkProxyInfo (Some s) (Some d) (find_identity (v2_tlvs h)))
    | V2Unspecified => Ok (mkProxyInfo None None (find_identity (v2_tlvs h)))
    | V2Unix => Err UnsupportedFamily
    end.

(** What the loop makes of the bytes so far; [None]: it reads on. *)
Definition inspect (allowed : ProxyVersion) (buffer : list Z) : option (result (option ParsedProxyProtocol) ProxyError) :=
  let could_be_proxy := could_be_v1_prefix buffer || could_be_v2_prefix buffer in
  let incomplete :=
    if negb could_be_proxy then Some (Ok None)
    else if starts_with PROXY_V1_PREFIX buffer && (PROXY_V1_MAX_HEADER_LEN <? length buffer) then Some (Err HeaderTooLong)
    else if could_be_v2_prefix buffer && (PROXY_V2_MAX_HEADER_LEN <? length buffer) then Some (Err HeaderTooLong)
    else None in
  match parse buffer with
  | HV1 (Ok h) => Some (if allows_v1 allowed then Ok (Some (mkParsed (parse_v1_header h) (v1_len h))) else Err VersionNotAllowed)
  | HV2 (Ok h) => Some (if allows_v2 allowed then
                       match parse_v2_header h with Ok info => Ok (Some (mkParsed info (v2_len h))) | Err e => Err e end
                     else Err VersionNotAllowed)
  | HV1 (Err true) | HV2 (Err true) => incomplete
  | HV1 (Err false) =>
      if could_be_v1_prefix buffer && negb (v1_header_complete buffer) && (length buffer <? PROXY_V1_MAX_HEADER_LEN) then None
      else Some (if could_be_proxy then Err InvalidHeader else Ok None)
  | HV2 (Err false) => Some (if could_be_proxy then Err InvalidHeader else Ok None)
  end.

(** The loop of [detect_proxy_protocol]; [None] is lack of fuel. *)
Fixpoint detect_loop (fuel : nat) (allowed : ProxyVersion) (buffer : list Z) (s : RewindSocket)
    : option (RewindSocket * result (option ParsedProxyProtocol) ProxyError) :=
  match fuel with
  | 0 => None
  | S fuel =>
      match inspect allowed buffer with
      | Some r => Some (s, r)
      | None =>
          match rw_read READ_CHUNK_LEN s with
          | (s, Err _) => Some (s, Err ReadFailed)
          | (s, Ok []) =>
              Some (s, if is_nil buffer then Ok None
                       else if could_be_v1_prefix buffer || could_be_v2_prefix buffer then Err UnexpectedEof else Ok None)
          | (s, Ok bs) => detect_loop fuel allowed (buffer ++ bs) s
          end
      end
  end.

Definition detect_fuel : nat := 530.
Definition detect_proxy_protocol (allowed : ProxyVersion) (s : RewindSocket) := detect_loop detect_fuel allowed [] s.

(** ** Connections *)

(** [TCPConnectionInfo] and the identity of [TLSConnectionInfo]. *)
Record ConnInfo := mkConnInfo { ci_peer_addr : SocketAddr; ci_local_addr : SocketAddr; ci_raw_peer_addr : option SocketAddr; ci_identity : option Identity }.

Definition apply_proxy_protocol_info (c : ConnInfo) (i : ProxyProtocolInfo) : ConnInfo :=
  let c := match pp_src_addr i, pp_dst_addr i with
           | Some src, Some dst => mkConnInfo src dst (Some (ci_peer_addr c)) (ci_identity c)
           | _, _ => c
           end in
  match pp_peer_identity i with
  | Some id => mkConnInfo (ci_peer_addr c) (ci_local_addr c) (ci_raw_peer_addr c) (Some id)
  | None => c
  end.

(** [terminate_proxy_protocol] up to the handling of what is in the tunnel. *)
Definition terminate_proxy_protocol (policy : ProxyVersion * ProxyMode) (c : ConnInfo) (io : Io)
    : option (outcome (result (ConnInfo * RewindSocket) ProxyError)) :=
  '(s, r) ← detect_proxy_protocol policy.1 (rw_new io);
  Some (match r with
        | Err e => Ret (Err e)
        | Ok (Some p) => s ← rw_keep_after (pp_consumed_len p) s; Ret (Ok (apply_proxy_protocol_info c (pp_info p), s))
        | Ok None =>
            match policy.2 with
            | ProxyStrict => Ret (Err HeaderMissing)
            | ProxyOptional => s ← rw_rewind s; Ret (Ok (c, s))
            end
        end).

(** The tunnel of a connection: the policy overrides the bind. *)
Definition tunnel_protocol_of {P} (proxy : option P) (bind : TunnelProtocol) : TunnelProtocol :=
  match proxy with Some _ => TPProxy | None => bind end.

(** The [auto] protocol of a bind: TLS if the first byte says so; [None] if it
    cannot be read. *)
Definition auto_detect (io : Io) : option (outcome (bool * RewindSocket)) :=
  match rw_read 1 (rw_new io) with
  | (s, Ok [b]) => Some (s ← rw_rewind s; Ret ((b =? 0x16)%Z, s))
  | _ => None
  end.

(** ** What a socket holds *)

(** The bytes to come, [None] for an error. *)
Fixpoint content (io : Io) : list (option Z) :=
  match io with [] => [] | Data bs :: io' => (Some <$> bs) ++ content io' | IoError :: io' => None :: content io' end.

(** Data that arrives is not empty: that would be the end. *)
Definition delivers (io : Io) : Prop := Forall (λ e, e ≠ Data []) io.

Definition rw_content (s : RewindSocket) : list (option Z) :=
  match rw_state s with Filling _ => content (rw_io s) | Draining pre => (Some <$> default [] pre) ++ content (rw_io s) end.

Lemma io_read_ok n io io' bs :
  0 < n → delivers io → io_read n io = (io', Ok bs) → content io = (Some <$> bs) ++ content io' ∧ delivers io' ∧ (bs = [] → io = []).
Proof.
  intros Hn Hd. destruct io as [|[d|] io]; simpl; [by intros [= <- <-]| |by intros [=]]. apply Forall_cons in Hd as [Hd Hds].
  case_decide as Hl; intros [= <- <-].
  - rewrite take_ge by done. split_and!; [done|done|]. intros ->. done.
  - simpl. split_and!.
    + by rewrite app_assoc, <-fmap_app, take_drop.
    + constructor; [|done]. intros [= Hnil]. apply (f_equal length) in Hnil. rewrite length_drop in Hnil. simpl in Hnil. lia.
    + intros Ht. apply (f_equal length) in Ht. rewrite length_take in Ht. simpl in Ht. lia.
Qed.

Lemma default_rest l : default [] (unless_empty l) = l.
Proof. by destruct l. Qed.

(** A socket is read from the front of what it holds. *)
Lemma rw_read_content n s s' bs :
  0 < n → delivers (rw_io s) → rw_read n s = (s', Ok bs) → rw_content s = (Some <$> bs) ++ rw_content s' ∧ delivers (rw_io s').
Proof.
  intros Hn Hd H. destruct s as [[b|[[|x pre]|]] io]; unfold rw_read in H; cbn [rw_state rw_io] in H, Hd.
  - destruct (io_read n io) as [io' [r|]] eqn:E; simplify_eq. destruct (io_read_ok _ _ _ _ Hn Hd E) as (Hc & Hd' & _). done.
  - destruct (io_read n io) as [io' [r|]] eqn:E; simplify_eq. destruct (io_read_ok _ _ _ _ Hn Hd E) as (Hc & Hd' & _). done.
  - injection H as <- <-. unfold rw_content. cbn [rw_state rw_io]. split; [|done]. rewrite app_assoc. f_equal.
    change (default [] (Some (x :: pre))) with (x :: pre).
    by rewrite default_rest, <-fmap_app, take_drop.
  - destruct (io_read n io) as [io' [r|]] eqn:E; simplify_eq. destruct (io_read_ok _ _ _ _ Hn Hd E) as (Hc & Hd' & _). done.
Qed.

(** ** Detection *)

Lemma could_be_length signature buffer : could_be signature buffer = true → length buffer ≤ length signature ∨ starts_with signature buffer = true.
Proof. unfold could_be. case_decide; [by left|by right]. Qed.

Lemma inspect_none allowed buffer :
  inspect allowed buffer = None → could_be_v1_prefix buffer || could_be_v2_prefix buffer = true ∧ length buffer ≤ PROXY_V2_MAX_HEADER_LEN.
Proof.
  unfold inspect.
  assert ((if negb (could_be_v1_prefix buffer || could_be_v2_prefix buffer) then Some (Ok None)
     else if starts_with PROXY_V1_PREFIX buffer && (PROXY_V1_MAX_HEADER_LEN <? length buffer) then Some (Err HeaderTooLong)
     else if could_be_v2_prefix buffer && (PROXY_V2_MAX_HEADER_LEN <? length buffer) then Some (Err HeaderTooLong) else None)
    = (None : option (result (option ParsedProxyProtocol) ProxyError)) →
    could_be_v1_prefix buffer || could_be_v2_prefix buffer = true ∧ length buffer ≤ PROXY_V2_MAX_HEADER_LEN) as Hinc.
  { destruct (could_be_v1_prefix buffer || could_be_v2_prefix buffer) eqn:E; [|done]. simpl.
    destruct (starts_with PROXY_V1_PREFIX buffer && _) eqn:E1; [done|]. destruct (could_be_v2_prefix buffer && _) eqn:E2; [done|]. intros _.
    split; [done|]. apply orb_true_iff in E as [E|E]; [|rewrite E in E2; apply Nat.ltb_ge in E2; done].
    apply could_be_length in E as [E|E]; [unfold PROXY_V2_MAX_HEADER_LEN; simpl in *; lia|]. rewrite E in E1. apply Nat.ltb_ge in E1.
    unfold PROXY_V1_MAX_HEADER_LEN, PROXY_V2_MAX_HEADER_LEN in *. lia. }
  destruct (parse buffer) as [[h|[]]|[h|[]]]; [done|by apply Hinc| |done|by apply Hinc|done].
  destruct (could_be_v1_prefix buffer) eqn:E1; simpl; [|done]. destruct (negb (v1_header_complete buffer)); simpl; [|done].
  destruct (length buffer <? PROXY_V1_MAX_HEADER_LEN) eqn:El; [|done]. apply Nat.ltb_lt in El.
  split; [done|]. unfold PROXY_V1_MAX_HEADER_LEN, PROXY_V2_MAX_HEADER_LEN in *. lia.
Qed.

(** The connection with the addresses and the identity a header gives it; the
    peer it really comes from is kept. *)
Definition conn_from (c c' : ConnInfo) (addresses : option (SocketAddr * SocketAddr)) (id : option Identity) : Prop :=
  match addresses with
  | Some (source, destination) => ci_peer_addr c' = source ∧ ci_local_addr c' = destination ∧ ci_raw_peer_addr c' = Some (ci_peer_addr c)
  | None => ci_peer_addr c' = ci_peer_addr c ∧ ci_local_addr c' = ci_local_addr c ∧ ci_raw_peer_addr c' = ci_raw_peer_addr c
  end ∧
  ci_identity c' = match id with Some i => Some i | None => ci_identity c end.

(** The identity in the first readable field of the kind 0xD0, if that is one. *)
Definition identity_in (tlvs : list (option (Z * list Z))) (id : option Identity) : Prop :=
  (∃ before data after, tlvs = before ++ Some (0xD0%Z, data) :: after ∧ Forall (λ t, ∀ d, t ≠ Some (0xD0%Z, d)) before ∧
     id = (from_utf8 data ≫= identity_from_str)) ∨
  Forall (λ t, ∀ d, t ≠ Some (0xD0%Z, d)) tlvs ∧ id = None.

(** The bytes begin with a header of an allowed version, of this length, that
    makes this of the connection. *)
Definition accepted (allowed : ProxyVersion) (buffer : list Z) (len : nat) (c c' : ConnInfo) : Prop :=
  match parse buffer with
  | HV1 (Ok h) => allowed ≠ ProxyV2 ∧ len = v1_len h ∧
      conn_from c c' match v1_addresses h with V1Tcp4 s d | V1Tcp6 s d => Some (s, d) | V1Unknown => None end None
  | HV2 (Ok h) => allowed ≠ ProxyV1 ∧ len = v2_len h ∧
      if v2_local h then c' = c
      else ∃ id, identity_in (v2_tlvs h) id ∧
        match v2_addresses h with
        | V2IPv4 s d | V2IPv6 s d => conn_from c c' (Some (s, d)) id
        | V2Unspecified => conn_from c c' None id
        | V2Unix => False
        end
  | _ => False
  end.

Lemma find_identity_in tlvs : identity_in tlvs (find_identity tlvs).
Proof.
  unfold find_identity, identity_in. induction tlvs as [|[[k d]|] tlvs IH]; simpl; [by right| |].
  - destruct (k =? PROXY_PROTOCOL_AUTHORITY_TLV)%Z eqn:E; [apply Z.eqb_eq in E|apply Z.eqb_neq in E].
    + left. exists [], d, tlvs. rewrite E. done.
    + assert (∀ d', Some (k, d) ≠ Some (0xD0%Z, d')) as Hne by (intros d' [= ? _]; done).
      destruct IH as [(b & x & r & -> & Hb & Hid)|[Hall Hid]]; [left; exists (Some (k, d) :: b), x, r|right]; (split_and!; [done|..]) || split; try done; by constructor.
  - destruct IH as [(b & x & r & -> & Hb & Hid)|[Hall Hid]]; [left; exists (None :: b), x, r|right]; (split_and!; [done|..]) || split; try done; by constructor.
Qed.

Lemma apply_conn_from c addresses id :
  conn_from c (apply_proxy_protocol_info c (mkProxyInfo (fst <$> addresses) (snd <$> addresses) id)) addresses id.
Proof. by destruct addresses as [[s d]|], id. Qed.

Lemma inspect_some allowed buffer p c :
  inspect allowed buffer = Some (Ok (Some p)) → accepted allowed buffer (pp_consumed_len p) c (apply_proxy_protocol_info c (pp_info p)).
Proof.
  unfold inspect, accepted. destruct (parse buffer) as [[h|[]]|[h|[]]]; try (by repeat case_match).
  - destruct (allows_v1 allowed) eqn:Ea; [|done]. intros [= <-]. simpl. split_and!; [by destruct allowed|done|].
    unfold parse_v1_header. destruct (v1_addresses h) as [s d|s d|]; [apply (apply_conn_from c (Some (s, d)) None)..|apply (apply_conn_from c None None)].
  - destruct (allows_v2 allowed) eqn:Ea; [|done]. unfold parse_v2_header. intros H.
    destruct (v2_local h); [injection H as <-; split_and!; by destruct allowed|].
    pose proof (find_identity_in (v2_tlvs h)) as Hid.
    destruct (v2_addresses h) as [|s d|s d|]; [..|done]; injection H as <-; simpl; (split; [by destruct allowed|]); (split; [done|]); eexists; (split; [exact Hid|]);
      [apply (apply_conn_from c None)|apply (apply_conn_from c (Some (s, d)))..].
Qed.

Lemma inspect_plain allowed buffer :
  inspect allowed buffer = Some (Ok None) → could_be_v1_prefix buffer = false ∧ could_be_v2_prefix buffer = false.
Proof.
  unfold inspect. destruct (could_be_v1_prefix buffer), (could_be_v2_prefix buffer); simpl;
    destruct (parse buffer) as [[h|[]]|[h|[]]]; simpl; repeat case_match; by try discriminate.
Qed.

Lemma io_read_length n io io' bs : io_read n io = (io', Ok bs) → length bs ≤ n.
Proof. destruct io as [|[d|] io]; simpl; intros [= _ <-]; simpl; [lia|]. rewrite length_take. lia. Qed.

Lemma detect_loop_ok fuel allowed buffer io :
  delivers io → 1 ≤ fuel → PROXY_V2_MAX_HEADER_LEN + 2 ≤ fuel + length buffer →
  length buffer ≤ PROXY_V2_MAX_HEADER_LEN + READ_CHUNK_LEN →
  ∃ buf io' r, detect_loop fuel allowed buffer (mkRewindSocket (Filling buffer) io) = Some (mkRewindSocket (Filling buf) io', r) ∧
    delivers io' ∧ length buf ≤ PROXY_V2_MAX_HEADER_LEN + READ_CHUNK_LEN ∧
    (∃ e, (Some <$> buffer) ++ content io = (Some <$> buf) ++ e ++ content io' ∧ (e = [] ∨ e = [None] ∧ r = Err ReadFailed)) ∧
    (∀ p, r = Ok p → (inspect allowed buf = Some (Ok p) ∨ p = None ∧ (Some <$> buffer) ++ content io = [])).
Proof.
  revert buffer io. induction fuel as [|fuel IH]; intros buffer io Hd H1 Hf Hl; [lia|]. cbn [detect_loop].
  destruct (inspect allowed buffer) as [r|] eqn:Ei.
  { exists buffer, io, r. split_and!; [done..|by exists []; auto|]. intros p ->. auto. }
  apply inspect_none in Ei as [Hcb Hlen]. unfold rw_read. cbn [rw_state rw_io].
  destruct (io_read READ_CHUNK_LEN io) as [io' [bs|[]]] eqn:Er.
  2:{ exists buffer, io', (Err ReadFailed). destruct io as [|[d|] io]; simpl in Er; simplify_eq. apply Forall_cons in Hd as [_ Hd].
      split_and!; [done..| |done]. exists [None]. auto. }
  pose proof (io_read_length _ _ _ _ Er) as Hbl.
  destruct (io_read_ok READ_CHUNK_LEN io io' bs) as (Hc & Hd' & Hnil); [unfold READ_CHUNK_LEN; lia|done|done|].
  destruct bs as [|x bs].
  - rewrite app_nil_r, Hcb. specialize (Hnil eq_refl). subst io. simpl in Er. injection Er as <-.
    exists buffer, [], (if is_nil buffer then Ok None else Err UnexpectedEof). split_and!; [done..|by exists []; auto|]. intros p Hp.
    destruct buffer; simpl in Hp; [|done]. injection Hp as <-. by right.
  - destruct (IH (buffer ++ x :: bs) io') as (buf & io'' & r & Hr & Hdd & Hlb & He & Hp); [done|lia|rewrite length_app, length_cons; lia|rewrite length_app; lia|].
    rewrite fmap_app, <-app_assoc, <-Hc in He, Hp. exists buf, io'', r. by split_and!.
Qed.

(** ** Connections *)

Lemma omap_fmap_Some (l : list Z) : omap id (Some <$> l) = l.
Proof. induction l as [|x l IH]; [done|]. simpl. f_equal. exact IH. Qed.

Lemma could_be_prefix signature buffer rest rest' :
  (Some <$> buffer) ++ rest = (Some <$> signature) ++ rest' → could_be signature buffer = true.
Proof.
  intros H. assert (buffer `prefix_of` signature ∨ signature `prefix_of` buffer) as Hp.
  { destruct (prefix_weak_total (Some <$> buffer) (Some <$> signature) ((Some <$> buffer) ++ rest)) as [[k Hk]|[k Hk]];
      [by exists rest|by exists rest'|left|right]; exists (omap id k);
      apply (f_equal (omap id)) in Hk; by rewrite omap_app, !omap_fmap_Some in Hk. }
  unfold could_be, starts_with. case_decide as Hl; apply bool_decide_eq_true; destruct Hp as [Hp|Hp]; try done.
  - pose proof (prefix_length _ _ Hp). assert (length signature = length buffer) as Hlen by lia.
    destruct Hp as [k ->]. rewrite length_app in Hlen. assert (k = []) as -> by (destruct k; [done|simpl in Hlen; lia]). by rewrite app_nil_r.
  - by apply prefix_length in Hp.
Qed.

Lemma accepted_len allowed buffer len c c' :
  (∀ b h, parse b = HV1 (Ok h) → v1_len h ≤ length b) → (∀ b h, parse b = HV2 (Ok h) → v2_len h ≤ length b) →
  accepted allowed buffer len c c' → len ≤ length buffer.
Proof.
  intros H1 H2. unfold accepted. destruct (parse buffer) as [[h|[]]|[h|[]]] eqn:E; try done; intros (_ & -> & _); eauto.
Qed.

(** C33. A connection to which the PROXY protocol applies is always decided upon,
    whatever arrives and in whatever pieces, and whatever the decision it is made
    on the first bytes, at most 592. If the connection goes on, either it began
    with a header of an allowed version: then its peer and local address are the
    source and the destination the header gives, if any, its identity is the one
    in the header's first field for it, if any, and what is read next is what
    followed the header; or headers are optional and it began like none: then
    nothing of it has changed and it is read from its first byte. *)
Theorem proxy_header_exact version mode c io :
  (∀ b h, parse b = HV1 (Ok h) → v1_len h ≤ length b) → (∀ b h, parse b = HV2 (Ok h) → v2_len h ≤ length b) → delivers io →
  ∃ s d r, detect_proxy_protocol version (rw_new io) = Some (s, d) ∧ terminate_proxy_protocol (version, mode) c io = Some (Ret r) ∧
    ∃ buf e, rw_buffered s = Some buf ∧ length buf ≤ 592 ∧ content io = (Some <$> buf) ++ e ++ content (rw_io s) ∧ (e = [] ∨ e = [None]) ∧
    ∀ c' s', r = Ok (c', s') →
      (∃ len, accepted version buf len c c' ∧ len ≤ length buf ∧ rw_content s' = drop len (content io)) ∨
      (mode = ProxyOptional ∧ c' = c ∧ rw_content s' = content io ∧
         ∀ rest, content io ≠ (Some <$> PROXY_V1_PREFIX) ++ rest ∧ content io ≠ (Some <$> PROXY_V2_SIGNATURE) ++ rest).
Proof.
  intros H1 H2 Hd. unfold terminate_proxy_protocol, detect_proxy_protocol, rw_new. cbn [fst snd].
  destruct (detect_loop_ok detect_fuel version [] io Hd) as (buf & io' & d & -> & Hd' & Hlen & (e & Hc & He) & Hr);
    [unfold detect_fuel, PROXY_V2_MAX_HEADER_LEN; simpl; lia..|]. cbn [mbind option_bind fst snd]. simpl in Hc.
  exists (mkRewindSocket (Filling buf) io'), d. cbn [rw_buffered rw_state rw_io].
  assert (∀ p, d = Ok p → content io = (Some <$> buf) ++ content io') as Hok.
  { intros p ->. by destruct He as [->|[_ ?]]. }
  assert (e = [] ∨ e = [None]) as He' by naive_solver.
  destruct d as [[p|]|x]; [| |eexists; split_and!; [done..|]; by exists buf, e].
  - destruct (Hr _ eq_refl) as [Hi|[? _]]; [|done]. apply (inspect_some _ _ _ c) in Hi. pose proof (accepted_len _ _ _ _ _ H1 H2 Hi) as Hl.
    unfold rw_keep_after. cbn [rw_state rw_io]. rewrite decide_True by done. simpl. eexists. split_and!; [done..|]. exists buf, e.
    split_and!; [done..|]. intros c' s [= <- <-]. left. exists (pp_consumed_len p). split_and!; [done..|].
    unfold rw_content. cbn [rw_state rw_io]. rewrite default_rest, (Hok _ eq_refl), drop_app_le by by rewrite length_fmap. by rewrite fmap_drop.
  - specialize (Hok _ eq_refl). specialize (Hr _ eq_refl). simpl in Hr. destruct mode; simpl; eexists; (split_and!; [done..|]); exists buf, e; (split_and!; [done..|]); [by intros|].
    intros c' s [= <- <-]. right. split_and!; [done..|]. intros rest. destruct Hr as [Hi|[_ Hnil]].
    + apply inspect_plain in Hi as [E1 E2]. rewrite Hok. unfold could_be_v1_prefix, could_be_v2_prefix in *.
      split; intros H; [apply (could_be_prefix PROXY_V1_PREFIX) in H|apply (could_be_prefix PROXY_V2_SIGNATURE) in H]; congruence.
    + rewrite Hnil. by split.
Qed.

Lemma auto_detect_keeps io :
  delivers io → ∀ o, auto_detect io = Some o → ∃ tls s b rest, o = Ret (tls, s) ∧ content io = Some b :: rest ∧ tls = (b =? 0x16)%Z ∧ rw_content s = content io.
Proof.
  intros Hd o. unfold auto_detect, rw_read, rw_new. cbn [rw_state rw_io]. destruct (io_read 1 io) as [io' [bs|]] eqn:E; [|done].
  destruct (io_read_ok 1 io io' bs) as (Hc & _ & _); [lia|done|done|]. destruct bs as [|b []]; [done| |done]. intros [= <-]. simpl.
  eexists _, _, b, (content io'). split_and!; [done|done|done|]. unfold rw_content. simpl. by rewrite Hc.
Qed.
End detection.
