(* ===== verification/SessionCookies.v ===== *)
(** * Encrypted state

    [http/sessionpersistence.rs]: state of the gateway that a client keeps for
    it, as text: encoded in base64, or encrypted. The base64, hex and cipher
    crates are the class [CipherCrates]; the nonce that is drawn for an
    encryption is an argument. *)
From stdpp Require Import base gmap strings list.
From Stdlib Require Import ZArith Lia.
From S2P Require Import Prelude RustStd Authorization AgentTypes DiscoveryTypes LoadBalancer MergeStream Mcp McpSession.

Local Open Scope string_scope.
Local Open Scope list_scope.

(** AES-256-GCM, with the key and the nonce, and base64 with and without
    padding. *)
Class CipherCrates := {
  CipherKey : Type;
  cipher_key : string → option CipherKey;
  seal : CipherKey → string → string → option string;
  open : CipherKey → string → string → option string;
  open_seal : ∀ k n p c, seal k n p = Some c → open k n c = Some p;
  hex_decode : string → option string;
  b64_encode : string → string;
  b64_decode : string → option string;
  b64_decode_encode : ∀ s, b64_decode (b64_encode s) = Some s;
  b64url_encode : string → string;
  b64url_decode : string → option string;
  b64url_decode_encode : ∀ s, b64url_decode (b64url_encode s) = Some s;
}.

Section cookies.
Context {CC : CipherCrates}.

Inductive AesError := InvalidKey | EncryptionFailed | DecryptionFailed | InvalidFormat.
Inductive SessionError := InvalidSessionEncoding | InvalidSessionFormat | Encryption (e : AesError).
Inductive Encoder := EncBase64 | EncAes (key : CipherKey).

Definition NONCE_LEN : nat := 12.

Definition aes_encrypt (k : CipherKey) (nonce plaintext : string) : result string AesError :=
  match seal k nonce plaintext with
  | Some c => Ok (b64_encode (nonce +:+ c))
  | None => Err EncryptionFailed
  end.

Definition aes_decrypt (k : CipherKey) (encoded : string) : result string AesError :=
  match b64_decode encoded with
  | None => Err InvalidFormat
  | Some data =>
      if (String.length data <? NONCE_LEN)%nat then Err InvalidFormat
      else
        match open k (String.substring 0 NONCE_LEN data) (String.substring NONCE_LEN (String.length data - NONCE_LEN) data) with
        | Some p => Ok p
        | None => Err DecryptionFailed
        end
  end.

Definition encrypt (e : Encoder) (nonce plaintext : string) : result string SessionError :=
  match e with
  | EncBase64 => Ok (b64url_encode plaintext)
  | EncAes k => match aes_encrypt k nonce plaintext with Ok s => Ok s | Err x => Err (Encryption x) end
  end.

Definition decrypt (e : Encoder) (encoded : string) : result string SessionError :=
  match e with
  | EncBase64 => match b64url_decode encoded with Some s => Ok s | None => Err InvalidSessionEncoding end
  | EncAes k => match aes_decrypt k encoded with Ok s => Ok s | Err x => Err (Encryption x) end
  end.

(** [Encoder::aes]; [None] is any of its errors. *)
Definition encoder_aes (key : string) : option Encoder :=
  key ← hex_decode key;
  if decide (String.length key = 32%nat) then EncAes <$> cipher_key key else None.

(** ** Session identifiers *)

Record MCPSessionState := mkMCPSessionState { ms_sessions : list MCPSession; ms_random_identifier : option string }.
Inductive SessionState := SSHttp (backend : SocketAddr) | SSMcp (s : MCPSessionState).

(** [MCPSessionState::new], with the UUID it may draw. *)
Definition mcp_state_new (uuid : string) (sessions : list MCPSession) : MCPSessionState :=
  mkMCPSessionState sessions (if existsb (λ s, bool_decide (session s = None)) sessions then Some uuid else None).

(** The JSON of a state. *)
Context (state_to_json : SessionState → option string) (state_from_json : string → option SessionState).

Definition state_encode (e : Encoder) (nonce : string) (s : SessionState) : result string SessionError :=
  match state_to_json s with Some j => encrypt e nonce j | None => Err InvalidSessionFormat end.

Definition state_decode (e : Encoder) (id : string) : result SessionState SessionError :=
  match decrypt e id with
  | Err x => Err x
  | Ok j => match state_from_json j with Some s => Ok s | None => Err InvalidSessionEncoding end
  end.

(** The identifier of an MCP session after its initialize request, and the
    sessions it is resumed with. *)
Definition mcp_encode (e : Encoder) (nonce uuid : string) (ss : list MCPSession) : result string () :=
  match state_encode e nonce (SSMcp (mcp_state_new uuid ss)) with Ok id => Ok id | Err _ => Err () end.

Definition mcp_decode (e : Encoder) (id : string) : result (option (list MCPSession)) () :=
  match state_decode e id with
  | Err _ => Err ()
  | Ok (SSMcp s) => Ok (Some (ms_sessions s))
  | Ok (SSHttp _) => Ok None
  end.

(** ** What is decrypted is what was encrypted *)

Lemma substring_app (a b : string) : String.substring (String.length a) (String.length (a +:+ b) - String.length a) (a +:+ b) = b.
Proof.
  induction a as [|x a IH]; [|exact IH]. simpl. rewrite Nat.sub_0_r.
  induction b as [|y b IH]; [done|]. simpl. f_equal. exact IH.
Qed.

Lemma substring_first (a b : string) : String.substring 0 (String.length a) (a +:+ b) = a.
Proof. induction a as [|x a IH]; [by destruct b|]. simpl. f_equal. exact IH. Qed.

Lemma decrypt_encrypt e nonce p c : String.length nonce = NONCE_LEN → encrypt e nonce p = Ok c → decrypt e c = Ok p.
Proof.
  intros Hn. destruct e as [|k]; simpl; [intros [= <-]; by rewrite b64url_decode_encode|].
  unfold aes_encrypt, aes_decrypt. destruct (seal k nonce p) as [s|] eqn:Es; simpl; [|done]. intros [= <-].
  rewrite b64_decode_encode, (proj2 (Nat.ltb_ge _ _)) by (rewrite Str.string_length_app; lia).
  rewrite <-Hn, substring_first, substring_app. by rewrite (open_seal _ _ _ _ Es).
Qed.

Section roundtrip.
Hypothesis json_roundtrip : ∀ s j, state_to_json s = Some j → state_from_json j = Some s.

Lemma state_decode_encode e nonce s id : String.length nonce = NONCE_LEN → state_encode e nonce s = Ok id → state_decode e id = Ok s.
Proof.
  unfold state_encode, state_decode. intros Hn. destruct (state_to_json s) as [j|] eqn:Ej; [|done]. intros H.
  rewrite (decrypt_encrypt _ _ _ _ Hn H). by rewrite (json_roundtrip _ _ Ej).
Qed.

(** The states of an MCP session are read back from its identifier. *)
Lemma mcp_decode_encode e nonce uuid ss id : String.length nonce = NONCE_LEN → mcp_encode e nonce uuid ss = Ok id → mcp_decode e id = Ok (Some ss).
Proof.
  unfold mcp_encode, mcp_decode. intros Hn. destruct (state_encode _ _ _) as [id'|] eqn:E; [|done]. intros [= <-].
  by rewrite (state_decode_encode _ _ _ _ Hn E).
Qed.

Context {IM : IndexMap} {Expression : Type}.

Lemma get_sessions_total g : (∀ k u, (k, u) ∈ im_iter (by_name g) → us_kind u ≠ McpStdio) → ∃ ss, get_sessions g = Some ss.
Proof.
  intros Hk. apply mapM_is_Some, Forall_forall. intros [k u] Hin. specialize (Hk k u Hin). unfold get_session_state. simpl.
  destruct (us_kind u); [by eexists..|done|by eexists].
Qed.

(** C36. Resuming a session elsewhere. The identifier of a session none of whose
    servers is a child process, once its initialize request is done and its
    states could be encrypted, carries the states of its servers: a manager with
    the same key that has never seen it, or has reaped it, and can connect to the
    same servers (in whatever order) accepts it without a panic. The session gets
    connections of its own on which every server is back in the state it had,
    serves the request under that request's policies, and is registered from then
    on. *)
Theorem sessions_resume e nonce uuid g g0 (i : RelayInputs (Expression := Expression)) now st fresh :
  String.length nonce = NONCE_LEN → (∀ k u, (k, u) ∈ im_iter (by_name g) → us_kind u ≠ McpStdio) →
  (∀ ss, get_sessions g = Some ss → ∃ id, mcp_encode e nonce uuid ss = Ok id) →
  same_servers g g0 → in_connect i = Ok g0 → m_inv st →
  let id := initialized_id (mcp_encode e nonce uuid) g fresh in
  sessions st !! id = None →
  ∃ st' s g', get_or_resume_session (mcp_decode e) id i now st = Ret (st', Ok (Some s)) ∧
    s_policies s = in_policies i ∧ (∀ h g, groups st !! h = Some g → h ≠ s_group s) ∧
    sessions st' !! id = Some (McpSession.mkEntry s now (in_idle_ttl i)) ∧ groups st' !! s_group s = Some g' ∧
    ∀ k u, (k, u) ∈ im_iter (by_name g) →
      ∃ u', (k, u') ∈ im_iter (by_name g') ∧ get_session_state u' = get_session_state u.
Proof.
  intros Hn Hkind Henc Hsame Hconn Hinv id Hnone. destruct (get_sessions_total g Hkind) as [ss Hss]. destruct (Henc ss Hss) as [x Hx].
  assert (id = x) as Hid by (unfold id, initialized_id; by rewrite Hss, Hx). rewrite Hid in Hnone.
  exact (resumed_ok _ (mcp_encode e nonce uuid) g g0 ss x i now st Hss Hx (mcp_decode_encode _ _ _ _ _ Hn Hx) Hsame Hconn Hinv Hnone fresh).
Qed.
End roundtrip.
End cookies.
