(* ===== verification/Oidc.v ===== *)
(** * OpenID Connect login

    [http/oidc/] and [http/oauth.rs]: a policy that sends a browser without a
    session to the provider's login ([start_login]), exchanges the code it comes
    back with for an ID token ([handle_callback], [exchange_code]), and from then
    on accepts the session it gave the browser in an encrypted cookie. The state
    of a login under way is in an encrypted cookie as well.

    What one request needs of the world is its [OidcEnv]: the random bytes drawn,
    the clock when it is read first and second, and the provider's answer. *)
From stdpp Require Import base gmap strings list.
From Stdlib Require Import ZArith Ascii Lia.
From S2P Require Import Prelude RustStd AgentTypes RouteSelect HttpRequest Rewrite Htpasswd Auth Pipeline SessionCookies.

Local Open Scope string_scope.
Local Open Scope list_scope.

Record CallbackTransactionState := mkCallbackState { cts_transaction_id : string; cts_csrf_state : string }.

(** Times are seconds since the epoch. *)
Record TransactionState := mkTransaction {
  tx_policy_id : string; tx_transaction_id : string; tx_csrf_state : string; tx_nonce : string; tx_pkce_verifier : string;
  tx_original_uri : string; tx_expires_at_unix : Z;
}.

Record BrowserSession := mkBrowserSession { bs_policy_id : string; bs_raw_id_token : string; bs_expires_at_unix : option Z }.

Inductive SameSiteMode := SameSiteLax | SameSiteStrict | SameSiteNone.
Inductive CookieSecureMode := SecureAuto | SecureAlways | SecureNever.

(** A cookie as the crate [cookie] builds it here. *)
Record SetCookie := mkSetCookie {
  sc_name : string; sc_value : string; sc_path : string; sc_http_only : bool; sc_same_site : SameSiteMode; sc_secure : bool;
  sc_max_age : option Z;
}.

(** The crates [url], [http] for URIs, [percent_encoding], [cookie], [serde_json]
    and SHA-256. What is written as JSON is read back. *)
Class OidcCrates {JW : JsonWebToken} := {
  Url : Type;
  url_parse : string → option Url;
  url_scheme : Url → string;
  url_username : Url → string;
  url_password : Url → option string;
  url_fragment : Url → option string;
  url_query : Url → option string;
  url_host_str : Url → option string;
  url_port_or_known_default : Url → option Z;
  url_append_pairs : list (string * string) → Url → Url;
  url_to_string : Url → string;
  http_uri_parse : string → option Uri;
  percent_decode : string → string;
  byte_serialize : string → string;
  set_cookie_string : SetCookie → string;
  sha256 : string → string;
  callback_state_to_json : CallbackTransactionState → string;
  callback_state_from_json : string → option CallbackTransactionState;
  transaction_to_json : TransactionState → string;
  transaction_from_json : string → option TransactionState;
  session_to_json : BrowserSession → string;
  session_from_json : string → option BrowserSession;
  token_response_from_json : string → option (option string);
  (* claims that are strings, or numbers *)
  claim_str : JsonMap → string → option string;
  claim_u64 : JsonMap → string → option Z;
  callback_state_json : ∀ s, callback_state_from_json (callback_state_to_json s) = Some s;
  transaction_json : ∀ t, transaction_from_json (transaction_to_json t) = Some t;
  session_json : ∀ s, session_from_json (session_to_json s) = Some s;
}.

Section oidc.
Context {UC : UriCrate} {HC : HttpCrate} {RE : RegexEngine} {CE : CelEngine}.
Context {CK : CookieCrate} {FC : FormCrate} {JW : JsonWebToken} {CC : CipherCrates} {OC : OidcCrates}.
Context {UserMetadata Body : Type} (empty_body : Body).
Local Abbreviation AReq := (AReq (UserMetadata := UserMetadata)).
Local Abbreviation Response := (Response (Body := Body)).
Local Abbreviation PolicyResponse := (PolicyResponse (Body := Body)).

Inductive ExchangeFailure := CallFailed | BodyFailed | BadStatus (status : Z) | BadTokenResponse.
Inductive OidcError :=
| MissingSession | InvalidSession | AuthenticationRequired | SessionCookieTooLarge | MissingTransaction | InvalidTransaction | PolicyMismatch | CsrfMismatch
| TokenExchangeFailed (e : ExchangeFailure) | MissingIdToken | InvalidIdToken (e : TokenError) | NonceMismatch | InvalidCallback
| ProviderCallback (e : string) | OidcConfig (m : string) | OidcHttp.

(** ** Endpoints: [mod.rs], [redirect.rs], [oauth.rs] *)

Definition policy_id_route (key : string) : string := "route/" +:+ key.
Definition policy_id_policy (key : string) : string := "policy/" +:+ key.

Definition endpoint_with_query (e : Url) (params : list (string * string)) : string := url_to_string (url_append_pairs params e).

Definition provider_endpoint (value : string) : option Url :=
  u ← url_parse value;
  if decide (url_scheme u = "http" ∨ url_scheme u = "https") then Some u else None.

Record RedirectUri := mkRedirectUri {
  ru_redirect_uri : string; ru_host : string; ru_port : Z; ru_https : bool; ru_callback_path : string * option string;
}.

Fixpoint check_segments (segments : list string) : result () OidcError :=
  match segments with
  | [] => Ok ()
  | s :: rest =>
      match from_utf8 (percent_decode s) with
      | None => Err (OidcConfig "redirectURI path contains invalid percent-encoding")
      | Some d =>
          if decide (d = "." ∨ d = "..") then Err (OidcConfig "redirectURI path must not contain dot segments")
          else if Str.contains_char "/" d || Str.contains_char "\" d
          then Err (OidcConfig "redirectURI path must not contain encoded slash or backslash characters")
          else check_segments rest
      end
  end.

Definition normalize_callback_path (path : string) : result (string * option string) OidcError :=
  if Str.is_empty path || bool_decide (path = "/") then Err (OidcConfig "redirectURI path must be explicit and non-root")
  else if negb (Str.starts_with "/" path) then Err (OidcConfig "redirectURI path must start with '/'")
  else
    let? _ := check_segments (drop 1 (Str.split "/" path)) in
    match pq_try_from path with Some pq => Ok pq | None => Err (OidcConfig "invalid redirectURI path") end.

Definition redirect_uri_parse (redirect_uri : string) : result RedirectUri OidcError :=
  match http_uri_parse redirect_uri, url_parse redirect_uri with
  | Some http_uri, Some url =>
      if negb (Str.is_empty (url_username url)) || bool_decide (is_Some (url_password url))
      then Err (OidcConfig "redirectURI must not contain userinfo")
      else if bool_decide (is_Some (url_fragment url)) then Err (OidcConfig "redirectURI must not contain a fragment")
      else if bool_decide (is_Some (url_query url)) then Err (OidcConfig "redirectURI must not contain query parameters")
      else
        let? https := if decide (url_scheme url = "https") then Ok true
                      else if decide (url_scheme url = "http") then Ok false
                      else Err (OidcConfig "redirectURI must use http or https") in
        let? host := match url_host_str url with Some h => Ok (Str.to_ascii_lowercase h)
                     | None => Err (OidcConfig "redirectURI must include a host") end in
        let? port := match url_port_or_known_default url with Some p => Ok p
                     | None => Err (OidcConfig "redirectURI must include an http or https authority") end in
        let? path := normalize_callback_path (uri_path http_uri) in
        Ok (mkRedirectUri redirect_uri host port https path)
  | _, _ => Err (OidcConfig "invalid redirectURI")
  end.

Inductive TokenEndpointAuth := ClientSecretBasic | ClientSecretPost.

Definition openid_configuration_metadata_url (issuer : string) : string :=
  Str.trim_end_matches "/" issuer +:+ "/.well-known/openid-configuration".

Definition parse_token_endpoint_auth_methods (methods : option (list string)) : result TokenEndpointAuth string :=
  let methods := default ["client_secret_basic"] methods in
  if decide ("client_secret_basic" ∈ methods) then Ok ClientSecretBasic
  else if decide ("client_secret_post" ∈ methods) then Ok ClientSecretPost
  else Err "token endpoint auth methods must include clientSecretBasic or clientSecretPost".

(** ** Cookies: [session.rs] *)

Definition MAX_BROWSER_COOKIE_VALUE_SIZE : nat := 3800.
Definition ORIGINAL_URI_LIMIT : nat := 2048.

(** Durations are nanoseconds. *)
Definition as_secs (d : Z) : Z := d / 1000000000.
Definition default_session_ttl : Z := 3600 * 1000000000.
Definition default_transaction_ttl : Z := 300 * 1000000000.

Record SessionConfig := mkSessionConfig {
  se_cookie_name : string; se_transaction_cookie_prefix : string; se_same_site : SameSiteMode; se_secure : CookieSecureMode;
  se_ttl : Z; se_transaction_ttl : Z; se_encoder : Encoder;
}.

Definition is_expired (now : Z) (s : BrowserSession) : bool :=
  match bs_expires_at_unix s with Some at_ => (at_ <=? now)%Z | None => false end.

Definition decode_transaction (c : SessionConfig) (now : Z) (cookie : string) : result TransactionState OidcError :=
  match decrypt (se_encoder c) cookie with
  | Err _ => Err InvalidTransaction
  | Ok j =>
      match transaction_from_json j with
      | None => Err InvalidTransaction
      | Some t => if (tx_expires_at_unix t <=? now)%Z then Err InvalidTransaction else Ok t
      end
  end.

Definition encode_transaction (c : SessionConfig) (nonce : string) (t : TransactionState) : result string OidcError :=
  match encrypt (se_encoder c) nonce (transaction_to_json t) with Ok s => Ok s | Err _ => Err InvalidTransaction end.

Definition decode_browser_session (c : SessionConfig) (now : Z) (cookie : string) : result BrowserSession OidcError :=
  match decrypt (se_encoder c) cookie with
  | Err _ => Err InvalidSession
  | Ok j =>
      match session_from_json j with
      | None => Err InvalidSession
      | Some s => if is_expired now s then Err InvalidSession else Ok s
      end
  end.

Definition encode_browser_session (c : SessionConfig) (nonce : string) (s : BrowserSession) : result string OidcError :=
  match encrypt (se_encoder c) nonce (session_to_json s) with
  | Err _ => Err InvalidSession
  | Ok e => if (MAX_BROWSER_COOKIE_VALUE_SIZE <? String.length e)%nat then Err SessionCookieTooLarge else Ok e
  end.

Definition i64_max : Z := 2 ^ 63 - 1.

Definition cookie_header (c : SessionConfig) (name value : string) (is_https : bool) (max_age : option Z) (expire_now : bool) : SetCookie :=
  let secure := match se_secure c with SecureAlways => true | SecureNever => false | SecureAuto => is_https end in
  mkSetCookie name value "/" true (se_same_site c) secure
    ((λ d, Z.min i64_max (if expire_now then 0 else as_secs d)) <$> max_age).

Definition set_cookie (c : SessionConfig) (name value : string) (is_https : bool) (ttl : Z) : SetCookie :=
  cookie_header c name value is_https (Some ttl) false.
Definition clear_cookie (c : SessionConfig) (name : string) (is_https : bool) : SetCookie :=
  cookie_header c name "" is_https (Some 0%Z) true.
Definition transaction_cookie_name (c : SessionConfig) (id : string) : string := se_transaction_cookie_prefix c +:+ "." +:+ id.

Definition hex_digit (n : N) : ascii := ascii_of_N (if (n <? 10)%N then n + 48 else n + 87)%N.
Fixpoint hex_of (s : string) : string :=
  match s with
  | EmptyString => ""
  | String a s' => String (hex_digit (N_of_ascii a / 16)) (String (hex_digit (N_of_ascii a mod 16)) (hex_of s'))
  end.

Definition derive_cookie_names (policy_id : string) : string * string :=
  let hex := hex_of (String.substring 0 8 (sha256 policy_id)) in
  (RESERVED_COOKIE_PREFIX +:+ "s_" +:+ hex, RESERVED_COOKIE_PREFIX +:+ "t_" +:+ hex).

(** Replacing what is not UTF-8 leaves the slashes and backslashes where they
    are, so the decoded bytes are looked at. *)
Definition is_safe_local_redirect_target (target : string) : bool :=
  let local s := Str.starts_with "/" s && negb (Str.starts_with "//" s) && negb (Str.contains_char "\" s) in
  local target && local (percent_decode target).

Definition normalize_original_uri (path_and_query : option string) : string :=
  let original := default "/" path_and_query in
  if (ORIGINAL_URI_LIMIT <? String.length original)%nat || negb (is_safe_local_redirect_target original) then "/" else original.

(** ** The policy *)

Record OidcProvider := mkOidcProvider {
  op_issuer : string; op_authorization_endpoint : Url; op_token_endpoint : Url; op_id_token_validator : Jwt;
}.
Record ClientConfig := mkClientConfig { cc_client_id : string; cc_client_secret : string; cc_token_endpoint_auth : TokenEndpointAuth }.
Record OidcPolicy := mkOidcPolicy {
  oi_policy_id : string; oi_provider : OidcProvider; oi_client : ClientConfig; oi_redirect_uri : RedirectUri;
  oi_session : SessionConfig; oi_scopes : list string;
}.

Record TokenRequest := mkTokenRequest { tr_method : string; tr_uri : Uri; tr_headers : HeaderMap; tr_body : string; tr_timeout : Z }.

(** The bytes drawn for a login and for the nonce of an encryption, the first and
    the second reading of the clock, and the answer to the exchange of a code:
    its status, and its body if that can be read. *)
Record OidcEnv := mkOidcEnv {
  en_transaction_id : string; en_state : string; en_nonce : string; en_pkce_verifier : string; en_seal : string;
  en_now : Z; en_later : Z; en_call : TokenRequest → option (Z * option string);
}.

Definition random_token (bytes : string) : string := b64url_encode bytes.

(** [build_redirect_response]. *)
Definition header_value (m s : string) : result string OidcError :=
  match header_value_try_from s with Some v => Ok v | None => Err (OidcConfig m) end.

Definition build_redirect_response (location : string) (set_cookies : list SetCookie) : result Response OidcError :=
  let? l := header_value "failed to build redirect response" location in
  let? cs := collect_results (λ c, header_value "invalid set-cookie header" (set_cookie_string c)) set_cookies in
  Ok (mkResponse 302 (("location", l) :: (pair "set-cookie" <$> cs)) empty_body).

Definition with_response (r : Response) : PolicyResponse := mkPolicyResponse (Some r) None.

(** [dedupe_scopes]. *)
Fixpoint retain_first (seen : gset string) (l : list string) : list string :=
  match l with
  | [] => []
  | x :: l' => if decide (x ∈ seen) then retain_first seen l' else x :: retain_first ({[x]} ∪ seen) l'
  end.
Definition dedupe_scopes (scopes : list string) : list string := retain_first ∅ ("openid" :: scopes).

Definition cap_session_expiry (now ttl : Z) (claims : JsonMap) : Z :=
  let ttl_exp := u64_saturating_add now (as_secs ttl) in
  match claim_u64 claims "exp" with Some e => Z.min e ttl_exp | None => ttl_exp end.

(** ** The exchange of a code: [provider.rs] *)

Definition DEFAULT_TOKEN_EXCHANGE_TIMEOUT : Z := 10 * 1000000000.
Definition TOKEN_RESPONSE_BODY_LIMIT : nat := 64 * 1024.

Definition exchange_request (p : OidcPolicy) (code verifier : string) : result TokenRequest OidcError :=
  let c := oi_client p in
  let form := [("grant_type", "authorization_code"); ("code", code); ("redirect_uri", ru_redirect_uri (oi_redirect_uri p)); ("code_verifier", verifier)] in
  let headers := [("content-type", "application/x-www-form-urlencoded"); ("accept", "application/json")] in
  let failed := "failed to build token exchange request" in
  let? hf := match cc_token_endpoint_auth c with
             | ClientSecretBasic =>
                 let? v := header_value failed ("Basic " +:+ b64_encode (byte_serialize (cc_client_id c) +:+ ":" +:+ byte_serialize (cc_client_secret c))) in
                 Ok (headers ++ [("authorization", v)], form)
             | ClientSecretPost => Ok (headers, form ++ [("client_id", cc_client_id c); ("client_secret", cc_client_secret c)])
             end in
  match http_uri_parse (url_to_string (op_token_endpoint (oi_provider p))) with
  | Some u => Ok (mkTokenRequest "POST" u hf.1 (form_serialize hf.2) DEFAULT_TOKEN_EXCHANGE_TIMEOUT)
  | None => Err (OidcConfig failed)
  end.

Definition read_body_with_limit (body : option string) (limit : nat) : option string :=
  b ← body; if (limit <? String.length b)%nat then None else Some b.

(** The ID token, if the answer has one. *)
Definition exchange_code (env : OidcEnv) (p : OidcPolicy) (code verifier : string) : result (option string) OidcError :=
  let? req := exchange_request p code verifier in
  match en_call env req with
  | None => Err (TokenExchangeFailed CallFailed)
  | Some (status, body) =>
      match read_body_with_limit body TOKEN_RESPONSE_BODY_LIMIT with
      | None => Err (TokenExchangeFailed BodyFailed)
      | Some body =>
          if decide (status = 200%Z) then
            match token_response_from_json body with
            | Some t => Ok t
            | None => Err (TokenExchangeFailed BadTokenResponse)
            end
          else Err (TokenExchangeFailed (BadStatus status))
      end
  end.

(** ** Login and callback: [callback.rs] *)

Definition callback_encode (s : CallbackTransactionState) : string := b64url_encode (callback_state_to_json s).
Definition callback_decode (value : string) : result CallbackTransactionState OidcError :=
  match b64url_decode value ≫= callback_state_from_json with Some s => Ok s | None => Err InvalidCallback end.

(** The login that is started for a request, and where the browser is sent. *)
Definition login_transaction (env : OidcEnv) (p : OidcPolicy) (path_and_query : option string) : TransactionState :=
  mkTransaction (oi_policy_id p) (random_token (en_transaction_id env)) (random_token (en_state env)) (random_token (en_nonce env))
    (random_token (en_pkce_verifier env)) (normalize_original_uri path_and_query)
    (u64_saturating_add (en_later env) (as_secs (se_transaction_ttl (oi_session p)))).

Definition login_location (p : OidcPolicy) (t : TransactionState) : string :=
  endpoint_with_query (op_authorization_endpoint (oi_provider p))
    [("response_type", "code"); ("client_id", cc_client_id (oi_client p)); ("redirect_uri", ru_redirect_uri (oi_redirect_uri p));
     ("scope", join_with " " (oi_scopes p)); ("state", callback_encode (mkCallbackState (tx_transaction_id t) (tx_csrf_state t)));
     ("nonce", tx_nonce t); ("code_challenge", b64url_encode (sha256 (tx_pkce_verifier t))); ("code_challenge_method", "S256")].

Definition start_login (env : OidcEnv) (p : OidcPolicy) (r : AReq) : result PolicyResponse OidcError :=
  let t := login_transaction env p (uri_path_and_query (hd_uri (aq_head r))) in
  let? encoded := encode_transaction (oi_session p) (en_seal env) t in
  let cookie := set_cookie (oi_session p) (transaction_cookie_name (oi_session p) (tx_transaction_id t)) encoded
                  (ru_https (oi_redirect_uri p)) (se_transaction_ttl (oi_session p)) in
  let? response := build_redirect_response (login_location p t) [cookie] in
  Ok (with_response response).

Definition handle_callback (env : OidcEnv) (p : OidcPolicy) (code : string) (s : CallbackTransactionState)
    (cookie_name cookie : string) : result PolicyResponse OidcError :=
  let? t := decode_transaction (oi_session p) (en_now env) cookie in
  if negb (bool_decide (tx_policy_id t = oi_policy_id p)) then Err PolicyMismatch
  else if negb (bool_decide (tx_transaction_id t = cts_transaction_id s)) then Err InvalidTransaction
  else if negb (bool_decide (tx_csrf_state t = cts_csrf_state s)) then Err CsrfMismatch
  else
    let? token := exchange_code env p code (tx_pkce_verifier t) in
    match token with
    | None => Err MissingIdToken
    | Some id_token =>
        let? claims := map_err InvalidIdToken (validate_claims (op_id_token_validator (oi_provider p)) id_token) in
        match claim_str (cl_inner claims) "nonce" with
        | None => Err NonceMismatch
        | Some nonce =>
            if negb (bool_decide (nonce = tx_nonce t)) then Err NonceMismatch
            else
              let session := mkBrowserSession (oi_policy_id p) id_token
                               (Some (cap_session_expiry (en_later env) (se_ttl (oi_session p)) (cl_inner claims))) in
              let? encoded := encode_browser_session (oi_session p) (en_seal env) session in
              let https := ru_https (oi_redirect_uri p) in
              let? response := build_redirect_response (tx_original_uri t)
                [set_cookie (oi_session p) (se_cookie_name (oi_session p)) encoded https (se_ttl (oi_session p));
                 clear_cookie (oi_session p) cookie_name https] in
              Ok (with_response response)
        end
    end.

(** ** [OidcPolicy::apply]: [mod.rs] *)

Record CallbackQuery := mkCallbackQuery { cq_state : string; cq_code : option string; cq_error : option string }.

Definition read_pair (q : option string * option string * option string) (kv : string * string) : option string * option string * option string :=
  let '(state, code, error) := q in
  if decide (kv.1 = "state") then (Some kv.2, code, error)
  else if decide (kv.1 = "code") then (state, Some kv.2, error)
  else if decide (kv.1 = "error") then (state, code, Some kv.2)
  else q.

Definition callback_query (u : Uri) : option CallbackQuery :=
  let '(state, code, error) := foldl read_pair (None, None, None) (form_urlencoded_parse (default "" (uri_query u))) in
  state ← state;
  match code, error with
  | None, None => None
  | _, _ => Some (mkCallbackQuery state code error)
  end.

Definition is_cors_preflight (r : AReq) : bool :=
  bool_decide (req_method (hd_req (aq_head r)) = "OPTIONS") && contains_key "origin" (aq_headers r)
  && match header_get (aq_headers r) "access-control-request-method" with Some v => negb (Str.is_empty v) | None => false end.

Definition maybe_handle_callback (env : OidcEnv) (p : OidcPolicy) (r : AReq) : result (option PolicyResponse) OidcError :=
  if negb (bool_decide (req_method (hd_req (aq_head r)) = "GET"))
     || negb (bool_decide (uri_path (hd_uri (aq_head r)) = (ru_callback_path (oi_redirect_uri p)).1)) then Ok None
  else
    match callback_query (hd_uri (aq_head r)) with
    | None => Ok None
    | Some query =>
        let? s := callback_decode (cq_state query) in
        let name := transaction_cookie_name (oi_session p) (cts_transaction_id s) in
        match read_request_cookie name (aq_headers r) with
        | None => Err MissingTransaction
        | Some cookie =>
            match cq_error query with
            | Some e => Err (ProviderCallback e)
            | None =>
                match cq_code query with
                | None => Err InvalidCallback
                | Some code => let? response := handle_callback env p code s name cookie in Ok (Some response)
                end
            end
        end
    end.

(** The session of a request, and the claims of its token. *)
Definition session_claims (now : Z) (p : OidcPolicy) (cookie : string) : option JwtClaims :=
  match decode_browser_session (oi_session p) now cookie with
  | Err _ => None
  | Ok s =>
      if decide (bs_policy_id s = oi_policy_id p) then
        match validate_claims (op_id_token_validator (oi_provider p)) (bs_raw_id_token s) with Ok claims => Some claims | Err _ => None end
      else None
  end.

Definition oidc_apply (env : OidcEnv) (p : OidcPolicy) (r : AReq) : AReq * result PolicyResponse OidcError :=
  match maybe_handle_callback env p r with
  | Err e => (r, Err e)
  | Ok (Some response) => (r, Ok response)
  | Ok None =>
      if is_cors_preflight r then (r, Ok policy_response_default)
      else
        match read_request_cookie (se_cookie_name (oi_session p)) (aq_headers r) ≫= session_claims (en_now env) p with
        | Some claims => (set_jwt claims r, Ok policy_response_default)
        | None => (r, start_login env p r)
        end
  end.

(** ** Configuration: [local.rs] *)

Inductive FileInlineOrRemote := FromFile (file : string) | FromInline (text : string) | FromRemote (url : Uri).

Record OidcDiscoveryDocument := mkDocument {
  dd_issuer : string; dd_authorization_endpoint : string; dd_token_endpoint : string; dd_jwks_uri : string;
  dd_token_endpoint_auth_methods_supported : option (list string);
}.

Record LocalOidcConfig := mkLocalOidc {
  lo_issuer : string; lo_discovery : option FileInlineOrRemote; lo_authorization_endpoint : option Url; lo_token_endpoint : option Url;
  lo_token_endpoint_auth : option TokenEndpointAuth; lo_jwks : option FileInlineOrRemote; lo_client_id : string; lo_client_secret : string;
  lo_redirect_uri : string; lo_scopes : list string;
}.

Record PreparedOidcProvider := mkPrepared {
  pp_issuer : string; pp_authorization_endpoint : Url; pp_token_endpoint : Url; pp_token_endpoint_auth : TokenEndpointAuth; pp_id_token_jwks : list JwkIn;
}.

(** [FileInlineOrRemote::load] of a document and of a key set. *)
Context (load_document : FileInlineOrRemote → option OidcDiscoveryDocument) (load_key_set : FileInlineOrRemote → option (list JwkIn)).

Definition or_config {A} (m : string) (o : option A) : result A OidcError := match o with Some a => Ok a | None => Err (OidcConfig m) end.

Definition load_jwks (source : FileInlineOrRemote) : result (list JwkIn) OidcError := or_config "failed to load oidc jwks" (load_key_set source).

Definition default_discovery_url (issuer : string) : result Uri OidcError :=
  or_config "invalid discovery uri derived from issuer" (http_uri_parse (openid_configuration_metadata_url issuer)).

(** [discover_provider_metadata], and the key set it leads to. *)
Definition discover_provider (issuer : string) (discovery : FileInlineOrRemote) : result PreparedOidcProvider OidcError :=
  let? d := or_config "failed to decode oidc discovery response" (load_document discovery) in
  if negb (bool_decide (dd_issuer d = issuer)) then Err (OidcConfig "oidc discovery issuer mismatch")
  else
    let? auth := map_err OidcConfig (parse_token_endpoint_auth_methods (dd_token_endpoint_auth_methods_supported d)) in
    let? jwks_uri := or_config "invalid jwks uri" (http_uri_parse (dd_jwks_uri d)) in
    let? authorization := or_config "invalid authorization endpoint" (provider_endpoint (dd_authorization_endpoint d)) in
    let? token := or_config "invalid token endpoint" (provider_endpoint (dd_token_endpoint d)) in
    let? jwks := load_jwks (FromRemote jwks_uri) in
    Ok (mkPrepared issuer authorization token auth jwks).

Definition resolve_explicit_provider (issuer : string) (authorization token : Url) (auth : TokenEndpointAuth) (jwks : FileInlineOrRemote)
    : result PreparedOidcProvider OidcError :=
  let? jwks := load_jwks jwks in Ok (mkPrepared issuer authorization token auth jwks).

(** [LocalOidcConfig::resolve]. *)
Definition oidc_resolve (c : LocalOidcConfig) : result (RedirectUri * PreparedOidcProvider) OidcError :=
  let? redirect_uri := redirect_uri_parse (lo_redirect_uri c) in
  let explicit := bool_decide (is_Some (lo_authorization_endpoint c)) && bool_decide (is_Some (lo_token_endpoint c)) && bool_decide (is_Some (lo_jwks c)) in
  if bool_decide (is_Some (lo_token_endpoint_auth c)) && negb explicit
  then Err (OidcConfig "tokenEndpointAuth must be omitted unless authorizationEndpoint, tokenEndpoint, and jwks are configured explicitly")
  else
    let? provider :=
      match lo_authorization_endpoint c, lo_token_endpoint c, lo_jwks c with
      | None, None, None =>
          let? discovery := match lo_discovery c with
                            | Some d => Ok d
                            | None => let? u := default_discovery_url (lo_issuer c) in Ok (FromRemote u)
                            end in
          discover_provider (lo_issuer c) discovery
      | Some authorization, Some token, Some jwks =>
          if bool_decide (is_Some (lo_discovery c))
          then Err (OidcConfig "oidc discovery must be omitted when authorizationEndpoint, tokenEndpoint, and jwks are configured explicitly")
          else resolve_explicit_provider (lo_issuer c) authorization token (default ClientSecretBasic (lo_token_endpoint_auth c)) jwks
      | _, _, _ => Err (OidcConfig "authorizationEndpoint, tokenEndpoint, and jwks must either all be set or all be omitted")
      end in
    Ok (redirect_uri, provider).

(** [PreparedOidcProvider::compile]; tokens must have an expiry. *)
Definition provider_compile (p : PreparedOidcProvider) (client_id : string) : result OidcProvider OidcError :=
  let? keys := map_err (λ _, OidcConfig "failed to create id token validator") (from_jwks (pp_id_token_jwks p) (pp_issuer p) (Some [client_id]) {["exp"]}) in
  Ok (mkOidcProvider (pp_issuer p) (pp_authorization_endpoint p) (pp_token_endpoint p) (mkJwt Strict [keys] bearer_header)).

(** [LocalOidcConfig::compile]. *)
Definition oidc_compile (c : LocalOidcConfig) (policy_id : string) (encoder : Encoder) : result OidcPolicy OidcError :=
  let? rp := oidc_resolve c in
  let '(cookie_name, prefix) := derive_cookie_names policy_id in
  let? provider := provider_compile rp.2 (lo_client_id c) in
  Ok (mkOidcPolicy policy_id provider (mkClientConfig (lo_client_id c) (lo_client_secret c) (pp_token_endpoint_auth rp.2)) rp.1
        (mkSessionConfig cookie_name prefix SameSiteLax SecureAuto default_session_ttl default_transaction_ttl encoder)
        (dedupe_scopes (lo_scopes c))).
End oidc.
