(* ===== verification/OidcFacts.v ===== *)
(** * What OpenID Connect login guarantees

    Who is let through, that a login comes to its end, and what a policy is
    compiled to. *)
From stdpp Require Import base gmap strings list.
From Stdlib Require Import ZArith Ascii Lia.
From S2P Require Import Prelude RustStd Authorization AgentTypes BindStore PolicyResolution RouteSelect HttpRequest Rewrite Htpasswd Auth AuthFacts Pipeline PipelineFacts SessionCookies Oidc.

Local Open Scope string_scope.
Local Open Scope list_scope.

Section oidc_facts.
Context {UC : UriCrate} {HC : HttpCrate} {RE : RegexEngine} {CE : CelEngine}.
Context {CK : CookieCrate} {FC : FormCrate} {JW : JsonWebToken} {CC : CipherCrates} {OC : OidcCrates}.
Context {UserMetadata Body : Type} (empty_body : Body).
Local Abbreviation AReq := (AReq (UserMetadata := UserMetadata)).
Local Abbreviation oidc_apply := (oidc_apply empty_body (UserMetadata := UserMetadata)).
Local Abbreviation build_redirect_response := (build_redirect_response empty_body).
Local Abbreviation handle_callback := (handle_callback empty_body).
Local Abbreviation start_login := (start_login empty_body (UserMetadata := UserMetadata)).

Lemma and_then_Ok {A B E} (x : result A E) (k : A → result B E) b : (let? a := x in k a) = Ok b → ∃ a, x = Ok a ∧ k a = Ok b.
Proof. destruct x; simpl; [eauto|done]. Qed.

(** ** Tokens *)

Lemma load_keys_validation iss aud req jwks ks ks' kid key :
  load_keys iss aud req jwks ks = Ok ks' → ks' !! kid = Some key →
  ks !! kid = Some key ∨ ∃ k, k ∈ jwks ∧ validation key = key_validation iss aud req k.
Proof.
  revert ks. induction jwks as [|k jwks IH]; intros ks; simpl; [intros [= <-]; by left|].
  destruct (jwk_key_id k) as [id|]; [|done]. intros (d & Hd & Hl)%and_then_Ok Hk. destruct (IH _ Hl Hk) as [H|(k' & Hin & Hv)].
  - apply lookup_insert_Some in H as [[<- <-]|[_ H]]; [|by left]. right. exists k. split; [by left|done].
  - right. exists k'. split; [by right|done].
Qed.

(** A token that was checked against a key for this issuer and this audience. *)
Definition token_for (issuer client : string) (token : string) (claims : JwtClaims) : Prop :=
  ∃ kid key v, decode_header token = Ok (Some kid) ∧ decode token key v = Ok (cl_inner claims) ∧ cl_jwt claims = token ∧
    v_iss v = [issuer] ∧ v_aud v = Some [client] ∧ v_validate_aud v = true ∧ v_required_spec_claims v = {["exp"]}.

Lemma compiled_validator c (pr : PreparedOidcProvider) p token claims :
  provider_compile pr c = Ok p → validate_claims (op_id_token_validator p) token = Ok claims → token_for (pp_issuer pr) c token claims.
Proof.
  unfold provider_compile. intros (keys & Hk & [= <-])%and_then_Ok. unfold map_err in Hk.
  destruct (from_jwks _ _ _ _) as [ks|] eqn:Ef; simplify_eq/=.
  unfold from_jwks in Ef. apply and_then_Ok in Ef as (m & Hl & [= <-]).
  unfold validate_claims. destruct (decode_header token) as [[kid|]|] eqn:Eh; try done. simpl.
  destruct (m !! kid) as [key|] eqn:Em; [|done].
  destruct (decode token (decoding key) (validation key)) as [cl|] eqn:Ed; [|done]. intros [= <-].
  destruct (load_keys_validation _ _ _ _ _ _ _ _ Hl Em) as [H|(k & _ & Hv)]; [by rewrite lookup_empty in H|].
  exists kid, (decoding key), (validation key). rewrite Hv in *. split_and!; done.
Qed.

(** ** Configuration *)

Lemma retain_first_elem seen l x : x ∈ retain_first seen l ↔ x ∈ l ∧ x ∉ seen.
Proof.
  revert seen. induction l as [|y l IH]; intros seen; simpl; [set_solver|]. case_decide as Hy.
  - rewrite IH. set_solver.
  - rewrite elem_of_cons, IH. destruct (decide (x = y)); set_solver.
Qed.

Lemma retain_first_NoDup seen l : NoDup (retain_first seen l).
Proof.
  revert seen. induction l as [|y l IH]; intros seen; simpl; [constructor|]. case_decide; [done|]. constructor; [|done].
  rewrite retain_first_elem. set_solver.
Qed.

Lemma reserved_names id : Str.starts_with RESERVED_COOKIE_PREFIX (derive_cookie_names id).1 = true ∧
  ∀ t, Str.starts_with RESERVED_COOKIE_PREFIX ((derive_cookie_names id).2 +:+ t) = true.
Proof. split; [done|]. intros t. done. Qed.

(** ** Redirects *)

Definition redirects (location : string) (cookies : list SetCookie) (res : PolicyResponse (Body := Body)) : Prop :=
  ∃ l cs, header_value_try_from location = Some l ∧ Forall2 (λ c v, header_value_try_from (set_cookie_string c) = Some v) cookies cs ∧
    res = mkPolicyResponse (Some (mkResponse 302 (("location", l) :: (pair "set-cookie" <$> cs)) empty_body)) None.

Lemma redirects_direct location cookies res : redirects location cookies res → ∃ d, pr_direct_response res = Some d.
Proof. intros (l & cs & _ & _ & ->). by eexists. Qed.

Definition header_ok (s : string) : Prop := is_Some (header_value_try_from s).

Lemma header_value_Ok m s v : header_value m s = Ok v ↔ header_value_try_from s = Some v.
Proof. unfold header_value. by destruct (header_value_try_from s); split; intros [= <-]. Qed.

Lemma set_cookies_Ok m cookies cs :
  collect_results (λ c, header_value m (set_cookie_string c)) cookies = Ok cs ↔
  Forall2 (λ c v, header_value_try_from (set_cookie_string c) = Some v) cookies cs.
Proof.
  rewrite collect_results_ok. split; intros H; eapply Forall2_impl; try exact H; intros c v; apply header_value_Ok.
Qed.

Lemma build_redirect_Ok location cookies resp : build_redirect_response location cookies = Ok resp → redirects location cookies (with_response resp).
Proof.
  intros (l & Hl%header_value_Ok & (cs & Hcs%set_cookies_Ok & [= <-])%and_then_Ok)%and_then_Ok. by exists l, cs.
Qed.

Lemma build_redirect_total location cookies :
  header_ok location → Forall (λ c, header_ok (set_cookie_string c)) cookies →
  ∃ resp, build_redirect_response location cookies = Ok resp.
Proof.
  intros [l Hl] Hc. unfold Oidc.build_redirect_response. rewrite (proj2 (header_value_Ok _ _ _) Hl). simpl.
  assert (∃ cs, Forall2 (λ c v, header_value_try_from (set_cookie_string c) = Some v) cookies cs) as [cs Hcs].
  { induction Hc as [|c cookies [v Hv] _ [vs IH]]; [by exists []|]. exists (v :: vs). by constructor. }
  rewrite (proj2 (set_cookies_Ok _ _ _) Hcs). simpl. by eexists.
Qed.

(** ** Who is let through *)

(** The request has a session of this policy that has not ended, with these
    claims. *)
Definition has_session (now : Z) (p : OidcPolicy) (r : AReq) (claims : JwtClaims) : Prop :=
  ∃ cookie j s, read_request_cookie (se_cookie_name (oi_session p)) (aq_headers r) = Some cookie ∧
    decrypt (se_encoder (oi_session p)) cookie = Ok j ∧ session_from_json j = Some s ∧ bs_policy_id s = oi_policy_id p ∧
    (∀ e, bs_expires_at_unix s = Some e → (now < e)%Z) ∧
    validate_claims (op_id_token_validator (oi_provider p)) (bs_raw_id_token s) = Ok claims.

(** What a query last says of a key. *)
Definition last_of (k : string) (u : Uri) : option string :=
  snd <$> last (filter (λ kv, kv.1 = k) (form_urlencoded_parse (default "" (uri_query u)))).

(** The request is one with which the provider sends a browser back. *)
Definition callback_of (p : OidcPolicy) (r : AReq) (state : string) (code error : option string) : Prop :=
  req_method (hd_req (aq_head r)) = "GET" ∧ uri_path (hd_uri (aq_head r)) = (ru_callback_path (oi_redirect_uri p)).1 ∧
  last_of "state" (hd_uri (aq_head r)) = Some state ∧ last_of "code" (hd_uri (aq_head r)) = code ∧
  last_of "error" (hd_uri (aq_head r)) = error ∧ (is_Some code ∨ is_Some error).
Definition no_callback (p : OidcPolicy) (r : AReq) : Prop := ∀ state code error, ¬ callback_of p r state code error.

Definition preflight (r : AReq) : Prop :=
  req_method (hd_req (aq_head r)) = "OPTIONS" ∧ is_Some (header_get (aq_headers r) "origin") ∧
  ∃ v, header_get (aq_headers r) "access-control-request-method" = Some v ∧ v ≠ "".

(** The token endpoint gives a token for the code. *)
Definition token_given (env : OidcEnv) (p : OidcPolicy) (code verifier token : string) : Prop :=
  ∃ req body, exchange_request p code verifier = Ok req ∧ en_call env req = Some (200%Z, Some body) ∧
    (String.length body ≤ TOKEN_RESPONSE_BODY_LIMIT)%nat ∧ token_response_from_json body = Some (Some token).

(** The request comes back from the provider with the state of a login the same
    browser has under way, and the provider gives a valid token for that login in
    return for the code. *)
Definition logged_in (env : OidcEnv) (p : OidcPolicy) (r : AReq) (t : TransactionState) (token : string) (claims : JwtClaims) : Prop :=
  ∃ state code cookie j, let name := transaction_cookie_name (oi_session p) (tx_transaction_id t) in
    callback_of p r state (Some code) None ∧
    b64url_decode state ≫= callback_state_from_json = Some (mkCallbackState (tx_transaction_id t) (tx_csrf_state t)) ∧
    read_request_cookie name (aq_headers r) = Some cookie ∧ decrypt (se_encoder (oi_session p)) cookie = Ok j ∧
    transaction_from_json j = Some t ∧ tx_policy_id t = oi_policy_id p ∧ (en_now env < tx_expires_at_unix t)%Z ∧
    token_given env p code (tx_pkce_verifier t) token ∧
    validate_claims (op_id_token_validator (oi_provider p)) token = Ok claims ∧ claim_str (cl_inner claims) "nonce" = Some (tx_nonce t).

(** The session that is then begun, and the cookies of a login and of a session. *)
Definition begun_session (env : OidcEnv) (p : OidcPolicy) (token : string) (claims : JwtClaims) : BrowserSession :=
  mkBrowserSession (oi_policy_id p) token (Some (cap_session_expiry (en_later env) (se_ttl (oi_session p)) (cl_inner claims))).
Definition login_cookie (p : OidcPolicy) (t : TransactionState) (sealed : string) : SetCookie :=
  set_cookie (oi_session p) (transaction_cookie_name (oi_session p) (tx_transaction_id t)) sealed (ru_https (oi_redirect_uri p)) (se_transaction_ttl (oi_session p)).
Definition session_cookie (p : OidcPolicy) (sealed : string) : SetCookie :=
  set_cookie (oi_session p) (se_cookie_name (oi_session p)) sealed (ru_https (oi_redirect_uri p)) (se_ttl (oi_session p)).
Definition cleared_cookie (p : OidcPolicy) (t : TransactionState) : SetCookie :=
  clear_cookie (oi_session p) (transaction_cookie_name (oi_session p) (tx_transaction_id t)) (ru_https (oi_redirect_uri p)).

(** What is kept in those cookies is encrypted; a session must fit. *)
Definition login_sealed (env : OidcEnv) (p : OidcPolicy) (t : TransactionState) (sealed : string) : Prop :=
  encrypt (se_encoder (oi_session p)) (en_seal env) (transaction_to_json t) = Ok sealed.
Definition session_sealed (env : OidcEnv) (p : OidcPolicy) (s : BrowserSession) (sealed : string) : Prop :=
  encrypt (se_encoder (oi_session p)) (en_seal env) (session_to_json s) = Ok sealed ∧ (String.length sealed ≤ 3800)%nat.

Lemma encode_transaction_Ok env p t sealed : encode_transaction (oi_session p) (en_seal env) t = Ok sealed ↔ login_sealed env p t sealed.
Proof. unfold encode_transaction, login_sealed. destruct (encrypt _ _ _); naive_solver. Qed.

Lemma encode_session_Ok env p s sealed : encode_browser_session (oi_session p) (en_seal env) s = Ok sealed ↔ session_sealed env p s sealed.
Proof.
  unfold encode_browser_session, session_sealed. destruct (encrypt _ _ _) as [x|]; [|naive_solver].
  destruct (MAX_BROWSER_COOKIE_VALUE_SIZE <? String.length x)%nat eqn:E; [apply Nat.ltb_lt in E|apply Nat.ltb_ge in E];
    unfold MAX_BROWSER_COOKIE_VALUE_SIZE in E; split.
  - done.
  - intros [[= <-] ?]. exfalso. lia.
  - by intros [= <-].
  - by intros [[= <-] _].
Qed.

Lemma start_login_Ok env p r res :
  start_login env p r = Ok res → ∃ sealed, let t := login_transaction env p (uri_path_and_query (hd_uri (aq_head r))) in
    login_sealed env p t sealed ∧ redirects (login_location p t) [login_cookie p t sealed] res.
Proof.
  intros (sealed & He%encode_transaction_Ok & (resp & Hr & [= <-])%and_then_Ok)%and_then_Ok. exists sealed. split; [done|]. by apply build_redirect_Ok.
Qed.

Lemma start_login_total env p r sealed :
  let t := login_transaction env p (uri_path_and_query (hd_uri (aq_head r))) in
  login_sealed env p t sealed → header_ok (login_location p t) → header_ok (set_cookie_string (login_cookie p t sealed)) →
  ∃ res, start_login env p r = Ok res ∧ redirects (login_location p t) [login_cookie p t sealed] res.
Proof.
  intros t Henc Hl Hc. destruct (build_redirect_total (login_location p t) [login_cookie p t sealed]) as [resp Hr]; [done|by repeat constructor|].
  exists (with_response resp). split; [|by apply build_redirect_Ok]. unfold Oidc.start_login. fold t.
  rewrite (proj2 (encode_transaction_Ok _ _ _ _) Henc). cbn [and_then]. unfold login_cookie in Hr. by rewrite Hr.
Qed.

Lemma decode_transaction_Ok c now cookie t :
  decode_transaction c now cookie = Ok t ↔ ∃ j, decrypt (se_encoder c) cookie = Ok j ∧ transaction_from_json j = Some t ∧ (now < tx_expires_at_unix t)%Z.
Proof.
  unfold decode_transaction. destruct (decrypt _ cookie) as [j|]; [|naive_solver]. destruct (transaction_from_json j) as [t'|] eqn:Ej; [|naive_solver].
  destruct (tx_expires_at_unix t' <=? now)%Z eqn:El; [apply Z.leb_le in El|apply Z.leb_gt in El].
  - split; [done|]. intros (j' & [= <-] & H & ?). rewrite Ej in H. injection H as <-. lia.
  - split; [intros [= <-]; eauto|]. intros (j' & [= <-] & H & ?). rewrite Ej in H. by injection H as <-.
Qed.

Lemma session_claims_Some now p cookie claims :
  session_claims now p cookie = Some claims ↔ ∃ j s, decrypt (se_encoder (oi_session p)) cookie = Ok j ∧ session_from_json j = Some s ∧
    bs_policy_id s = oi_policy_id p ∧ (∀ e, bs_expires_at_unix s = Some e → (now < e)%Z) ∧
    validate_claims (op_id_token_validator (oi_provider p)) (bs_raw_id_token s) = Ok claims.
Proof.
  unfold session_claims, decode_browser_session. destruct (decrypt _ cookie) as [j|]; [|naive_solver].
  destruct (session_from_json j) as [s|] eqn:Ej; [|naive_solver].
  assert (is_expired now s = false ↔ ∀ e, bs_expires_at_unix s = Some e → (now < e)%Z) as Hexp.
  { unfold is_expired. destruct (bs_expires_at_unix s) as [e|]; [|naive_solver]. rewrite Z.leb_gt. naive_solver. }
  destruct (is_expired now s) eqn:Ex.
  - split; [done|]. intros (j' & s' & [= <-] & H & _ & He & _). rewrite Ej in H. injection H as <-. by apply Hexp in He.
  - case_decide as Hp; [destruct (validate_claims _ _) as [cl|] eqn:Ev|]; split; try done.
    + intros [= <-]. exists j, s. split_and!; try done. by apply Hexp.
    + intros (j' & s' & [= <-] & H & _ & _ & Hv). rewrite Ej in H. injection H as <-. congruence.
    + intros (j' & s' & [= <-] & H & _ & _ & Hv). rewrite Ej in H. injection H as <-. congruence.
    + intros (j' & s' & [= <-] & H & ? & _). rewrite Ej in H. by injection H as <-.
Qed.

Lemma session_of_request now p r claims :
  read_request_cookie (se_cookie_name (oi_session p)) (aq_headers r) ≫= session_claims now p = Some claims ↔ has_session now p r claims.
Proof.
  rewrite bind_Some. unfold has_session. setoid_rewrite session_claims_Some. naive_solver.
Qed.

Lemma preflight_true r : is_cors_preflight r = true ↔ preflight r.
Proof.
  unfold is_cors_preflight, preflight. rewrite !andb_true_iff, bool_decide_eq_true.
  assert (contains_key "origin" (aq_headers r) = true ↔ is_Some (header_get (aq_headers r) "origin")) as ->.
  { unfold contains_key, header_get. rewrite fmap_is_Some. induction (aq_headers r) as [|kv h IH]; simpl; [by split; [|intros []]|].
    destruct (bool_decide (kv.1 = "origin")); [by split; eauto|done]. }
  destruct (header_get _ "access-control-request-method") as [v|]; [|naive_solver]. destruct v; simpl; naive_solver.
Qed.

Lemma exchange_code_Ok env p code verifier token :
  exchange_code env p code verifier = Ok (Some token) ↔ token_given env p code verifier token.
Proof.
  unfold exchange_code, token_given. destruct (exchange_request p code verifier) as [req|]; simpl; [|naive_solver].
  destruct (en_call env req) as [[status [body|]]|] eqn:Ec; simpl; [|naive_solver..].
  destruct (TOKEN_RESPONSE_BODY_LIMIT <? String.length body)%nat eqn:El; [apply Nat.ltb_lt in El|apply Nat.ltb_ge in El].
  { split; [done|]. intros (req' & body' & [= <-] & H & ? & _). rewrite Ec in H. injection H as _ <-. lia. }
  case_decide as Hs; [subst status|].
  - destruct (token_response_from_json body) as [t|] eqn:Et; split.
    + intros [= ->]. by exists req, body.
    + intros (req' & body' & [= <-] & H & _ & Hb). rewrite Ec in H. injection H as <-. rewrite Et in Hb. by injection Hb as ->.
    + done.
    + intros (req' & body' & [= <-] & H & _ & Hb). rewrite Ec in H. injection H as <-. congruence.
  - split; [done|]. intros (req' & body' & [= <-] & H & _). rewrite Ec in H. by injection H as ->.
Qed.

Definition or_last (k : string) (l : list (string * string)) (o : option string) : option string :=
  match last (filter (λ kv, kv.1 = k) l) with Some kv => Some kv.2 | None => o end.

Lemma or_last_snoc k l kv o : or_last k (l ++ [kv]) o = if decide (kv.1 = k) then Some kv.2 else or_last k l o.
Proof.
  unfold or_last. rewrite filter_app, filter_cons. case_decide; [by rewrite filter_nil, last_snoc|by rewrite filter_nil, app_nil_r].
Qed.

Lemma read_pairs l a b c : foldl read_pair (a, b, c) l = (or_last "state" l a, or_last "code" l b, or_last "error" l c).
Proof.
  induction l as [|[k v] l IH] using rev_ind; [done|]. rewrite foldl_snoc, IH, !or_last_snoc. unfold read_pair. simpl.
  repeat case_decide; congruence.
Qed.

Lemma or_last_None k u : or_last k (form_urlencoded_parse (default "" (uri_query u))) None = last_of k u.
Proof. unfold or_last, last_of. by destruct (last _). Qed.

Lemma callback_query_Some u q :
  callback_query u = Some q ↔ last_of "state" u = Some (cq_state q) ∧ last_of "code" u = cq_code q ∧ last_of "error" u = cq_error q ∧
    (is_Some (cq_code q) ∨ is_Some (cq_error q)).
Proof.
  unfold callback_query. rewrite read_pairs, !or_last_None. destruct (last_of "state" u) as [st|]; simpl; [|naive_solver].
  destruct (last_of "code" u), (last_of "error" u), q as [st' co er]; simpl; split; try done; try (intros [= <- <- <-]; eauto).
  - by intros ([= <-] & <- & <- & _).
  - by intros ([= <-] & <- & <- & _).
  - by intros ([= <-] & <- & <- & _).
  - intros (_ & <- & <- & [[? [=]]|[? [=]]]).
Qed.

(** A request is a callback, and is handled as one, or is none. *)
Lemma callback_cases env p r :
  (no_callback p r ∧ maybe_handle_callback empty_body env p r = Ok None) ∨
  ∃ q, callback_of p r (cq_state q) (cq_code q) (cq_error q) ∧ maybe_handle_callback empty_body env p r ≠ Ok None.
Proof.
  unfold maybe_handle_callback. case_bool_decide as Hm; simpl; [|left; split; [|done]; by intros ??? (? & _)].
  case_bool_decide as Hp; simpl; [|left; split; [|done]; by intros ??? (_ & ? & _)].
  destruct (callback_query _) as [q|] eqn:Eq.
  - right. exists q. apply callback_query_Some in Eq as (? & ? & ? & ?). split; [done|]. destruct (callback_decode _) as [s|]; simpl; [|done].
    destruct (read_request_cookie _ _); [|done]. destruct (cq_error q); [done|]. destruct (cq_code q); [|done]. by destruct (Oidc.handle_callback _ _ _ _ _ _ _).
  - left. split; [|done]. intros st co er (_ & _ & Hq). enough (callback_query (hd_uri (aq_head r)) = Some (mkCallbackQuery st co er)) by congruence.
    by apply callback_query_Some.
Qed.

(** A callback that is answered. *)
Lemma handle_callback_Ok env p code s name cookie res :
  handle_callback env p code s name cookie = Ok res ↔ ∃ t token claims sealed resp,
    decode_transaction (oi_session p) (en_now env) cookie = Ok t ∧ tx_policy_id t = oi_policy_id p ∧
    s = mkCallbackState (tx_transaction_id t) (tx_csrf_state t) ∧ token_given env p code (tx_pkce_verifier t) token ∧
    validate_claims (op_id_token_validator (oi_provider p)) token = Ok claims ∧ claim_str (cl_inner claims) "nonce" = Some (tx_nonce t) ∧
    session_sealed env p (begun_session env p token claims) sealed ∧
    build_redirect_response (tx_original_uri t) [session_cookie p sealed; clear_cookie (oi_session p) name (ru_https (oi_redirect_uri p))] = Ok resp ∧
    res = with_response resp.
Proof.
  setoid_rewrite <-exchange_code_Ok. setoid_rewrite <-encode_session_Ok.
  unfold Oidc.handle_callback. destruct (decode_transaction _ _ _) as [t|]; simpl; [|naive_solver]. split.
  - case_bool_decide as H1; simpl; [|done]. case_bool_decide as H2; simpl; [|done]. case_bool_decide as H3; simpl; [|done].
    intros ([token|] & Hx & H)%and_then_Ok; [|done]. apply and_then_Ok in H as (claims & Hv & H). unfold map_err in Hv.
    destruct (validate_claims _ token) as [cl|] eqn:Ev; [|done]. injection Hv as ->.
    destruct (claim_str _ "nonce") as [n|] eqn:En; [|done]. case_bool_decide as Hn; simpl in H; [|done]. subst n.
    apply and_then_Ok in H as (sealed & He & H). apply and_then_Ok in H as (resp & Hr & [= <-]).
    exists t, token, claims, sealed, resp. destruct s. simpl in *. subst. done.
  - intros (t' & token & claims & sealed & resp & [= <-] & H1 & -> & Hx & Hv & Hn & He & Hr & ->). simpl.
    rewrite !bool_decide_true by done. simpl. rewrite Hx. simpl. rewrite Hv. simpl. rewrite Hn, bool_decide_true by done. simpl.
    unfold begun_session in He. rewrite He. simpl. unfold session_cookie in Hr. rewrite Hr. done.
Qed.

Lemma callback_decode_Ok state s : callback_decode state = Ok s ↔ b64url_decode state ≫= callback_state_from_json = Some s.
Proof. unfold callback_decode. destruct (_ ≫= _); naive_solver. Qed.

Lemma callback_Ok env p r res :
  maybe_handle_callback empty_body env p r = Ok (Some res) → ∃ t token claims sealed, logged_in env p r t token claims ∧
    session_sealed env p (begun_session env p token claims) sealed ∧
    redirects (tx_original_uri t) [session_cookie p sealed; cleared_cookie p t] res.
Proof.
  unfold maybe_handle_callback. case_bool_decide as Hm; simpl; [|done]. case_bool_decide as Hpath; simpl; [|done].
  destruct (callback_query _) as [q|] eqn:Eq; [|done]. intros (s & Hs%callback_decode_Ok & H)%and_then_Ok.
  destruct (read_request_cookie _ _) as [cookie|] eqn:Ec; [|done]. destruct (cq_error q) eqn:Ee; [done|]. destruct (cq_code q) as [code|] eqn:Ecode; [|done].
  apply and_then_Ok in H as (res' & H & [= ->]). apply callback_query_Some in Eq as (Hq & Hco & Her & Hsome).
  apply handle_callback_Ok in H as (t & token & claims & sealed & resp & (j & Hj & Ht & Hnow)%decode_transaction_Ok & H1 & -> & Hx & Hv & Hn & He & Hr & ->).
  exists t, token, claims, sealed. split_and!; [|done|by apply build_redirect_Ok]. exists (cq_state q), code, cookie, j.
  rewrite Ecode in Hco. rewrite Ee in Her. split_and!; try done. split_and!; try done. by left.
Qed.

(** The headers of the answer can be written. *)
Definition answerable (p : OidcPolicy) (t : TransactionState) (sealed : string) : Prop :=
  header_ok (tx_original_uri t) ∧ header_ok (set_cookie_string (session_cookie p sealed)) ∧ header_ok (set_cookie_string (cleared_cookie p t)).

Lemma callback_answers env p r t token claims sealed :
  logged_in env p r t token claims → session_sealed env p (begun_session env p token claims) sealed → answerable p t sealed →
  ∃ res, maybe_handle_callback empty_body env p r = Ok (Some res) ∧ redirects (tx_original_uri t) [session_cookie p sealed; cleared_cookie p t] res.
Proof.
  intros (state & code & cookie & j & (Hm & Hpath & Hst & Hco & Her & Hsome) & Hs%callback_decode_Ok & Hc & Hj & Ht & Hp & Hnow & Hx & Hv & Hn) He (H1 & H2 & H3).
  destruct (build_redirect_total (tx_original_uri t) [session_cookie p sealed; cleared_cookie p t]) as [resp Hr]; [done|by repeat constructor|].
  exists (with_response resp). split; [|by apply build_redirect_Ok]. unfold maybe_handle_callback. rewrite !bool_decide_true by done. simpl.
  rewrite (proj2 (callback_query_Some _ (mkCallbackQuery state (Some code) None))) by done. cbn [cq_state cq_code cq_error]. rewrite Hs. simpl. rewrite Hc.
  rewrite (proj2 (handle_callback_Ok env p code _ _ cookie (with_response resp))); [done|]. exists t, token, claims, sealed, resp.
  split_and!; try done. apply decode_transaction_Ok. eauto.
Qed.

Context (load_document : FileInlineOrRemote → option OidcDiscoveryDocument) (load_key_set : FileInlineOrRemote → option (list JwkIn)).

Lemma oidc_resolve_issuer c rp : oidc_resolve load_document load_key_set c = Ok rp → pp_issuer rp.2 = lo_issuer c.
Proof.
  unfold oidc_resolve. intros (ru & _ & H)%and_then_Ok. case_match; [done|]. apply and_then_Ok in H as (pr & Hp & [= <-]). simpl.
  destruct (lo_authorization_endpoint c), (lo_token_endpoint c), (lo_jwks c); try done.
  - case_match; [done|]. apply and_then_Ok in Hp as (ks & _ & [= <-]). done.
  - apply and_then_Ok in Hp as (d & _ & H). unfold discover_provider in H. apply and_then_Ok in H as (doc & _ & H). case_match; [done|].
    repeat (let x := fresh "x" in apply and_then_Ok in H as (x & _ & H)). by injection H as <-.
Qed.

Lemma oidc_compile_Ok c id enc p :
  oidc_compile load_document load_key_set c id enc = Ok p → oi_policy_id p = id ∧ se_encoder (oi_session p) = enc ∧
    se_cookie_name (oi_session p) = (derive_cookie_names id).1 ∧ se_transaction_cookie_prefix (oi_session p) = (derive_cookie_names id).2 ∧
    cc_client_id (oi_client p) = lo_client_id c ∧ oi_scopes p = dedupe_scopes (lo_scopes c) ∧
    ∀ token claims, validate_claims (op_id_token_validator (oi_provider p)) token = Ok claims → token_for (lo_issuer c) (lo_client_id c) token claims.
Proof.
  unfold oidc_compile. intros (rp & Hr%oidc_resolve_issuer & H)%and_then_Ok. destruct (derive_cookie_names id) as [n t] eqn:Ed.
  apply and_then_Ok in H as (pr & Hp & [= <-]). simpl. split_and!; try done. intros token claims Hv. rewrite <-Hr. by eapply compiled_validator.
Qed.

(** C24. Login with OpenID Connect, as configured: what becomes of every
    request. One the provider sends back is redirected to where its login
    began, with a session, if it has the code and the state of a login of this
    policy that the same browser has under way, the provider gives a valid token
    (of the configured issuer, for the configured client) with the nonce of that
    login, and the session can be encrypted and fits its cookie; if not, it is
    refused. A CORS preflight goes on as it is. A request with a session of this
    very policy that has not ended and whose ID token is valid now goes on with
    the claims of that token. Everyone else is redirected to the provider,
    unless the login cannot be encrypted or written as headers. *)
Theorem oidc_admits c id enc p env r :
  oidc_compile load_document load_key_set c id enc = Ok p →
  let '(r', out) := oidc_apply env p r in
  let login := login_transaction env p (uri_path_and_query (hd_uri (aq_head r))) in
  (∀ state code error, callback_of p r state code error → r' = r ∧
     match out with
     | Ok res => ∃ t token claims sealed, logged_in env p r t token claims ∧ token_for (lo_issuer c) (lo_client_id c) token claims ∧
         session_sealed env p (begun_session env p token claims) sealed ∧ redirects (tx_original_uri t) [session_cookie p sealed; cleared_cookie p t] res
     | Err _ => ∀ t token claims sealed, logged_in env p r t token claims →
         session_sealed env p (begun_session env p token claims) sealed → ¬ answerable p t sealed
     end) ∧
  (no_callback p r → preflight r → r' = r ∧ out = Ok policy_response_default) ∧
  (∀ claims, no_callback p r → ¬ preflight r → has_session (en_now env) p r claims →
     token_for (lo_issuer c) (lo_client_id c) (cl_jwt claims) claims ∧ r' = set_jwt claims r ∧ out = Ok policy_response_default) ∧
  (no_callback p r → ¬ preflight r → (∀ claims, ¬ has_session (en_now env) p r claims) → r' = r ∧
     match out with
     | Ok res => ∃ sealed, login_sealed env p login sealed ∧ redirects (login_location p login) [login_cookie p login sealed] res
     | Err _ => ∀ sealed, login_sealed env p login sealed →
         ¬ (header_ok (login_location p login) ∧ header_ok (set_cookie_string (login_cookie p login sealed)))
     end).
Proof.
  intros (_ & _ & _ & _ & _ & _ & Htok)%oidc_compile_Ok. unfold Oidc.oidc_apply.
  destruct (callback_cases env p r) as [[Hno Hcb]|(q & Hq & Hcb)].
  - rewrite Hcb. destruct (is_cors_preflight r) eqn:Ep.
    { apply preflight_true in Ep. split_and!; [|done|naive_solver..]. intros st co er Hc. by destruct (Hno st co er). }
    assert (¬ preflight r) as Hpre by (rewrite <-preflight_true; congruence).
    destruct (_ ≫= _) as [claims|] eqn:Es.
    + apply session_of_request in Es as Hs. split_and!; [intros st co er Hc; by destruct (Hno st co er)|naive_solver| |naive_solver].
      intros claims' _ _ Hs'. apply session_of_request in Hs'. assert (claims' = claims) as -> by congruence. split_and!; [|done..].
      destruct Hs as (_ & _ & s & _ & _ & _ & _ & _ & Hv). destruct (Htok _ _ Hv) as (kid & key & v & Hh & Hd & Hjwt & Hrest).
      rewrite Hjwt. by exists kid, key, v.
    + split_and!; [intros st co er Hc; by destruct (Hno st co er)|naive_solver| |].
      * intros claims _ _ Hs. apply session_of_request in Hs. congruence.
      * intros _ _ _. split; [done|]. destruct (start_login env p r) as [res|] eqn:El; [by apply start_login_Ok in El|].
        intros sealed Hsl [H1 H2]. destruct (start_login_total env p r sealed Hsl H1 H2) as (res & Hres & _). congruence.
  - assert (¬ no_callback p r) as Hc by (intros Hn; by apply Hn in Hq).
    destruct (maybe_handle_callback _ _ _ _) as [[res|]|e] eqn:Em; [|done|]; (split_and!; [|done..]); intros _ _ _ _; (split; [done|]).
    + apply callback_Ok in Em as (t & token & claims & sealed & Hl & He & Hr). exists t, token, claims, sealed. split_and!; try done.
      apply Htok. destruct Hl as (? & ? & ? & ? & Hl). apply Hl.
    + intros t token claims sealed Hl He Ha. destruct (callback_answers env p r t token claims sealed Hl He Ha) as (res & Hres & _). congruence.
Qed.

(** ** A login comes to its end *)

(** A path of this site. *)
Definition local_target (s : string) : Prop :=
  Str.starts_with "/" s = true ∧ Str.starts_with "//" s = false ∧ Str.contains_char "\"%char s = false.

(** The page a browser is sent to after a login: the one it asked for, unless
    that is too long or might be of another site. *)
Definition page_asked_for (path_and_query : option string) (page : string) : Prop :=
  let safe s := (String.length s ≤ 2048)%nat ∧ local_target s ∧ local_target (percent_decode s) in
  match path_and_query with
  | Some s => (safe s → page = s) ∧ (¬ safe s → page = "/")
  | None => page = "/"
  end.

Lemma local_target_true s :
  Str.starts_with "/" s && negb (Str.starts_with "//" s) && negb (Str.contains_char "\" s) = true ↔ local_target s.
Proof. unfold local_target. rewrite !andb_true_iff, !negb_true_iff. naive_solver. Qed.

Lemma safe_target_true s : is_safe_local_redirect_target s = true ↔ local_target s ∧ local_target (percent_decode s).
Proof. unfold is_safe_local_redirect_target. by rewrite andb_true_iff, !local_target_true. Qed.

Lemma normalize_page u : page_asked_for u (normalize_original_uri u).
Proof.
  unfold page_asked_for, normalize_original_uri, ORIGINAL_URI_LIMIT. destruct u as [s|]; simpl; [|by case_match].
  destruct (_ <? _)%nat eqn:El; [apply Nat.ltb_lt in El|apply Nat.ltb_ge in El]; simpl.
  - split; [|done]. intros [? _]. exfalso. lia.
  - destruct (is_safe_local_redirect_target s) eqn:Es; simpl.
    + apply safe_target_true in Es. split; [done|]. intros Hn. by destruct Hn.
    + assert (¬ (local_target s ∧ local_target (percent_decode s))) by (rewrite <-safe_target_true; congruence). naive_solver.
Qed.

Definition carries (c : SetCookie) (r : AReq) : Prop := read_request_cookie (sc_name c) (aq_headers r) = Some (sc_value c).

(** An ordinary request. *)
Definition ordinary (p : OidcPolicy) (r : AReq) : Prop := no_callback p r ∧ ¬ preflight r.

Lemma ordinary_apply env p r :
  ordinary p r → oidc_apply env p r =
    match read_request_cookie (se_cookie_name (oi_session p)) (aq_headers r) ≫= session_claims (en_now env) p with
    | Some claims => (set_jwt claims r, Ok policy_response_default)
    | None => (r, start_login env p r)
    end.
Proof.
  intros [Hno Hpre]. unfold Oidc.oidc_apply. destruct (callback_cases env p r) as [[_ ->]|(q & Hq & _)]; [|by apply Hno in Hq].
  destruct (is_cors_preflight r) eqn:E; [by apply preflight_true in E|done].
Qed.

Lemma callback_decode_encode s : b64url_decode (callback_encode s) ≫= callback_state_from_json = Some s.
Proof. unfold callback_encode. rewrite b64url_decode_encode. simpl. by rewrite callback_state_json. Qed.

Lemma session_roundtrip env p s sealed now claims :
  String.length (en_seal env) = NONCE_LEN → session_sealed env p s sealed → bs_policy_id s = oi_policy_id p →
  (∀ e, bs_expires_at_unix s = Some e → (now < e)%Z) → validate_claims (op_id_token_validator (oi_provider p)) (bs_raw_id_token s) = Ok claims →
  session_claims now p sealed = Some claims.
Proof.
  intros Hn [He _] Hp Hexp Hv. apply session_claims_Some. eexists _, s. split; [by eapply decrypt_encrypt|]. by rewrite session_json.
Qed.

(** C25. A login comes to its end. A request without a session is redirected to
    the provider, with a cookie. If the browser returns from there with the state
    it was sent with, that cookie and a code, before the login expires, the
    provider gives for the code a valid ID token with the nonce it was asked for,
    and the session fits its cookie, the browser is sent to the page it asked for
    (to the root if that is too long or might be of another site) with a session
    cookie; and every request with that cookie, until the token expires or the
    session ends, goes on with the claims of the token. (The policy must see the
    cookies: one of a route does not, see [route_login_never_completes].) *)
Theorem login_completes p env r sealed :
  let asked := uri_path_and_query (hd_uri (aq_head r)) in
  let t := login_transaction env p asked in
  ordinary p r → read_request_cookie (se_cookie_name (oi_session p)) (aq_headers r) = None →
  String.length (en_seal env) = NONCE_LEN → login_sealed env p t sealed →
  header_ok (login_location p t) → header_ok (set_cookie_string (login_cookie p t sealed)) →
  (∃ res, oidc_apply env p r = (r, Ok res) ∧ redirects (login_location p t) [login_cookie p t sealed] res) ∧
  ∀ env2 r2 code token claims sealed2,
    callback_of p r2 (callback_encode (mkCallbackState (tx_transaction_id t) (tx_csrf_state t))) (Some code) None →
    carries (login_cookie p t sealed) r2 → (en_now env2 < tx_expires_at_unix t)%Z →
    token_given env2 p code (tx_pkce_verifier t) token → validate_claims (op_id_token_validator (oi_provider p)) token = Ok claims →
    claim_str (cl_inner claims) "nonce" = Some (tx_nonce t) →
    String.length (en_seal env2) = NONCE_LEN → session_sealed env2 p (begun_session env2 p token claims) sealed2 → answerable p t sealed2 →
    (∃ page res, page_asked_for asked page ∧ oidc_apply env2 p r2 = (r2, Ok res) ∧ redirects page [session_cookie p sealed2; cleared_cookie p t] res) ∧
    ∀ env3 r3, ordinary p r3 → carries (session_cookie p sealed2) r3 →
      (en_now env3 < u64_saturating_add (en_later env2) (as_secs (se_ttl (oi_session p))))%Z →
      (∀ e, claim_u64 (cl_inner claims) "exp" = Some e → (en_now env3 < e)%Z) →
      oidc_apply env3 p r3 = (set_jwt claims r3, Ok policy_response_default).
Proof.
  intros asked t Hord Hno Hseal Henc Hl Hc. split.
  - rewrite ordinary_apply by done. rewrite Hno. simpl. destruct (start_login_total env p r sealed Henc Hl Hc) as (res & -> & Hres). eauto.
  - intros env2 r2 code token claims sealed2 Hret Hcar Hnow Hx Hv Hn Hseal2 Henc2 Hans. split.
    + assert (logged_in env2 p r2 t token claims) as Hlog.
      { eexists _, code, sealed, _. split_and!; [exact Hret|apply callback_decode_encode|exact Hcar|eapply decrypt_encrypt; [exact Hseal|exact Henc]|apply transaction_json|done..]. }
      destruct (callback_answers env2 p r2 t token claims sealed2 Hlog Henc2 Hans) as (res & Hres & Hred).
      exists (tx_original_uri t), res. split_and!; [apply normalize_page| |done]. unfold Oidc.oidc_apply. by rewrite Hres.
    + intros env3 r3 Hord3 Hcar3 Httl Hexp. rewrite ordinary_apply by done. unfold carries in Hcar3. simpl in Hcar3. rewrite Hcar3. simpl.
      rewrite (session_roundtrip env2 p (begun_session env2 p token claims) sealed2 (en_now env3) claims); [done..| |done].
      simpl. intros e [= <-]. unfold cap_session_expiry. destruct (claim_u64 _ _) as [x|]; [|done]. specialize (Hexp x eq_refl). lia.
Qed.

(** ** Routes *)

Lemma stripped_cookie name (h h' : HeaderMap) :
  Str.starts_with RESERVED_COOKIE_PREFIX name = true → strip_request_cookies_by_prefix RESERVED_COOKIE_PREFIX h = Ret h' → read_request_cookie name h' = None.
Proof.
  intros Hn Hs. destruct (strip_cookies_ok RESERVED_COOKIE_PREFIX h) as (h2 & Hs2 & Hi & _). rewrite Hs in Hs2. injection Hs2 as <-.
  unfold read_request_cookie. rewrite Hi. apply fmap_None, list_find_by_None, Forall_forall. intros [k v] [Hk _]%list_elem_of_filter.
  apply bool_decide_eq_false. simpl in *. congruence.
Qed.

(** Behind [strip_request_cookies_by_prefix] no login ever comes to its end. *)
Lemma stripped_never_admitted c id enc p env (r : AReq) h h' :
  oidc_compile load_document load_key_set c id enc = Ok p → strip_request_cookies_by_prefix RESERVED_COOKIE_PREFIX h = Ret h' →
  is_cors_preflight (with_headers h' r) = false → let r := with_headers h' r in
  oidc_apply env p r = (r, start_login env p r) ∨ ∃ e, oidc_apply env p r = (r, Err e) ∧ (e = MissingTransaction ∨ e = InvalidCallback).
Proof.
  intros (_ & _ & Hname & Hpre & _)%oidc_compile_Ok Hs Hcors. simpl. destruct (reserved_names id) as [R1 R2]. rewrite <-Hname in R1. rewrite <-Hpre in R2.
  assert (∀ n, Str.starts_with RESERVED_COOKIE_PREFIX n = true → read_request_cookie n (aq_headers (with_headers h' r)) = None) as Hnone.
  { intros n Hn. by eapply stripped_cookie. }
  unfold Oidc.oidc_apply. rewrite Hcors, Hnone by done. simpl. unfold maybe_handle_callback. destruct (_ || _); [by left|].
  destruct (callback_query _) as [q|]; [|by left]. unfold callback_decode. destruct (_ ≫= _) as [s|]; simpl; [|eauto].
  rewrite Hnone by apply R2. eauto.
Qed.
End oidc_facts.

(** A policy of a route comes after the policies of the gateway, which have taken
    the cookies of logins and sessions off the request by then. *)
Section routes.
Context {UC : UriCrate} {HC : HttpCrate} {RE : RegexEngine} {PL : Payloads} {HO : HashOrder}.
Context {CK : CookieCrate} {FC : FormCrate} {JW : JsonWebToken} {CC : CipherCrates} {OC : OidcCrates}.
Context {UserMetadata Body World PolicyError Value EvalError : Type} (empty_body : Body).
Local Abbreviation AReq := (AReq (UserMetadata := UserMetadata)).
Local Abbreviation RequestPolicyTrait T := (RequestPolicyTrait (UserMetadata := UserMetadata) (Body := Body) (World := World) (PolicyError := PolicyError) T).
Local Existing Instances pm_ret pm_bind.
Context (exec : AReq → Executor Expression Value EvalError).
Context `{!RequestPolicyTrait CorsP} `{!RequestPolicyTrait OidcP} `{!RequestPolicyTrait JwtAuthP} `{!RequestPolicyTrait BasicAuthP}
  `{!RequestPolicyTrait APIKeyP} `{!RequestPolicyTrait ExtAuthzP} `{!RequestPolicyTrait LocalRateLimitP}
  `{!RequestPolicyTrait RemoteRateLimitP} `{!RequestPolicyTrait ExtProcP} `{!RequestPolicyTrait TransformationP}
  `{!RequestPolicyTrait CsrfP} `{!RequestPolicyTrait HeaderModifierP} `{!RequestPolicyTrait UrlRewriteP}
  `{!RequestPolicyTrait RequestRedirectP} `{!RequestPolicyTrait DirectResponseP}.
Context (host_rewrite_auto : option HostRedirectOverrideP → bool).
Context (load_document : FileInlineOrRemote → option OidcDiscoveryDocument) (load_key_set : FileInlineOrRemote → option (list JwkIn)).

(** The policy [pol] is the login [p]. *)
Definition runs_login (pol : OidcP) (p : OidcPolicy) : Prop := ∀ r w, ∃ env w' failed,
  policy_apply pol r w = Ret ((oidc_apply empty_body env p r).1, w',
    match (oidc_apply empty_body env p r).2 with Ok pr => Ok pr | Err e => Err (Error (PolicyFailed (failed e))) end).

Lemma gateway_default_strips s : ∃ h s1,
  strip_request_cookies_by_prefix RESERVED_COOKIE_PREFIX (aq_headers (r_req s)) = Ret h ∧
  apply_gateway_policies exec gateway_policies_default s = Ret (s1, Ok ()) ∧ r_req s1 = with_headers h (r_req s).
Proof.
  destruct (strip_cookies_ok RESERVED_COOKIE_PREFIX (aq_headers (r_req s))) as (h & Hs & _). exists h. eexists. split_and!; [done| |].
  - unfold apply_gateway_policies, apply_without_response, apply_internal, mbind, pm_bind, mret, pm_ret. simpl.
    unfold strip_reserved_cookies. rewrite Hs. simpl. reflexivity.
  - done.
Qed.

Lemma login_refuses c id enc p pol s h r0 :
  oidc_compile load_document load_key_set c id enc = Ok p → runs_login pol p → strip_request_cookies_by_prefix RESERVED_COOKIE_PREFIX h = Ret (aq_headers (r_req s)) →
  r_req s = with_headers (aq_headers (r_req s)) r0 → req_method (hd_req (aq_head (r_req s))) ≠ "OPTIONS" →
  ∃ s' e, apply_without_response exec (rp_single pol) s = Ret (s', Err e).
Proof.
  intros Hc Hpol Hs Hr0 Hm. unfold apply_without_response, apply_internal, mbind at 1, pm_bind. simpl.
  destruct (Hpol (r_req s) (r_world s)) as (env & w' & failed & Ha).
  assert (is_cors_preflight (with_headers (aq_headers (r_req s)) r0) = false) as Hcors.
  { rewrite <-Hr0. unfold is_cors_preflight. by rewrite bool_decide_eq_false_2. }
  pose proof (stripped_never_admitted empty_body load_document load_key_set c id enc p env r0 h _ Hc Hs Hcors) as Hn. simpl in Hn. rewrite <-Hr0 in Hn.
  rewrite Ha. simpl. destruct Hn as [Hn|(e & Hn & _)]; rewrite Hn; simpl; [|by eexists _, _].
  destruct (start_login empty_body env p (r_req s)) as [res|] eqn:El; [|by eexists _, _]. apply start_login_Ok in El as (sealed & _ & Hred).
  destruct (redirects_direct _ _ _ _ Hred) as [d Hd]. unfold policy_response_apply. rewrite Hd. by eexists _, _.
Qed.

(** A route with a login, behind a gateway without policies, is never reached by
    a request other than [OPTIONS], whatever cookies it has. *)
Theorem route_login_never_completes c id enc p pol (rp : RoutePolicies) s :
  oidc_compile load_document load_key_set c id enc = Ok p → runs_login pol p → oidc rp = rp_single pol → cors rp = RPEmpty →
  req_method (hd_req (aq_head (r_req s))) ≠ "OPTIONS" →
  ∃ s' e, (apply_gateway_policies exec gateway_policies_default ≫= λ _, apply_request_policies exec host_rewrite_auto rp) s = Ret (s', Err e).
Proof.
  intros Hc Hpol Ho Hcors Hm. destruct (gateway_default_strips s) as (h & s1 & Hs & Hg & Hr).
  destruct (login_refuses c id enc p pol s1 (aq_headers (r_req s)) (r_req s)) as (s2 & e & Hl); [done|done|by rewrite Hr..|]. exists s2, e.
  unfold mbind at 1, pm_bind. rewrite Hg. simpl. unfold apply_request_policies, authenticate. rewrite Hcors, Ho.
  unfold mbind, pm_bind in *. simpl. rewrite Hl. done.
Qed.
End routes.
