(* ===== verification/AgentXds.v ===== *)
(** * Conversion of the control plane's messages

    [types/agent_xds.rs]: binds, listeners, routes, backends and policies from
    the messages of [XdsProto]. A conversion gathers warnings and succeeds,
    fails, or panics. Regular expressions and CEL expressions that do not
    compile are replaced, with a warning, by ones that never match or always
    fail.

    Compilers, certificates and the parsers of third parties are classes.
    Policies for language models hold policies of backends, of which they are
    one kind: the conversion of one calls that of the others, message within
    message. *)
From stdpp Require Import base gmap strings list pretty.
From Stdlib Require Import ZArith Ascii.
From S2P Require Import Prelude RustStd Authorization AgentTypes RouteSet TcpRouteSet BindStore PolicyResolution RouteSelect HttpRequest Rewrite Htpasswd Auth RateLimit Cors Replay Pipeline EnvoyHeaders ExtAuthz Transformation RemoteLimit ExtProc MergeStream Mcp XdsProto PolicyTypes.

Local Open Scope string_scope.
Local Open Scope list_scope.

(** ** Errors and warnings *)

Inductive ProtoError :=
| EnumParse (m : string) | EnumError (n : Z) | BadURI | InvalidStatusCode | Generic (m : string) | HeaderValue | HeaderName
| DurationError | MissingRequiredField | JsonError.

(** [Diagnostics] with [Result]: the warnings so far are passed on. *)
Definition CM (A : Type) : Type := list string → outcome (list string * result A ProtoError).

#[export] Instance cm_ret : MRet CM := λ A a ws, Ret (ws, Ok a).
#[export] Instance cm_bind : MBind CM := λ A B k m ws,
  '(ws, r) ← m ws;
  match r with Ok a => k a ws | Err e => Ret (ws, Err e) end.

Definition add_warning (w : string) : CM () := λ ws, Ret (ws ++ [w], Ok ()).
Definition throw {A} (e : ProtoError) : CM A := λ ws, Ret (ws, Err e).
Definition of_result {A} (r : result A ProtoError) : CM A := λ ws, Ret (ws, r).
Definition of_option {A} (e : ProtoError) (o : option A) : CM A := of_result (ok_or e o).
Definition of_outcome {A} (o : outcome A) : CM A := λ ws, a ← o; Ret (ws, Ok a).
(** [.ok()]: an error is dropped, its warnings are not. *)
Definition attempt {A} (m : CM A) : CM (option A) := λ ws,
  '(ws, r) ← m ws; Ret (ws, Ok (match r with Ok a => Some a | Err _ => None end)).
Definition unwrap {A} (o : option A) : CM A := λ ws, a ← expect o; Ret (ws, Ok a).

(** [map(f).collect::<Result<Vec<_>, _>>()], and [map(f).transpose()]. *)
Fixpoint collect {A B} (f : A → CM B) (l : list A) : CM (list B) :=
  match l with
  | [] => mret []
  | a :: l' => b ← f a; bs ← collect f l'; mret (b :: bs)
  end.

(** [filter_map(f).collect()]. *)
Fixpoint filter_collect {A B} (f : A → CM (option B)) (l : list A) : CM (list B) :=
  match l with
  | [] => mret []
  | a :: l' => o ← f a; bs ← filter_collect f l'; mret (match o with Some b => b :: bs | None => bs end)
  end.

Definition transpose {A B} (f : A → CM B) (o : option A) : CM (option B) :=
  match o with None => mret None | Some a => b ← f a; mret (Some b) end.

(** ** Numbers: [as u8], [as u16], [as u64] and [as usize] *)

Definition as_u8 (n : Z) : Z := n mod 256.
Definition as_u16 (n : Z) : Z := n mod 65536.
Definition as_u64 (n : Z) : Z := n mod 2 ^ 64.

(** ** Third-party code *)

(** Formatting with [{:?}], durations of [prost] (in nanoseconds, [None] when
    negative), [IpAddr::from_str], key sets, and the certificates of a listener:
    a configuration is a number. Cipher suites and key exchange groups are known
    by the numbers of the messages. *)
Record TlsProfile := mkTlsProfile {
  tp_cert : string; tp_private_key : string; tp_root : option string; tp_min_version : option TLSVersion; tp_max_version : option TLSVersion;
  tp_cipher_suites : option (list Z); tp_key_exchange_groups : option (list Z); tp_allow_insecure_mtls_fallback : bool;
}.

(** The version a cipher suite is of ([CipherSuite] of [transport/tls.rs]). *)
Definition suite_version (n : Z) : TLSVersion := if (n <=? 3)%Z then TLS_V1_3 else TLS_V1_2.

Class ConfigCrates {JW : JsonWebToken} {OM : OpaqueMessages} {OP : OpaquePolicies} := {
  debug_str : string → string;
  duration_try_into : PDuration → option Z;
  parse_ip : string → option IpAddr;
  jwk_set_from_str : string → result (list JwkIn) string;
  jwk_error_display : JwkError → string;
  rl_error_display : RLError → string;
  struct_to_value : StructMsg → option UserMetadata;
  null_metadata : UserMetadata;
  to_json_value : ValueMsg → Json;                  (* [unwrap_or(Null)] *)
  json_from_str : string → option Json;
  regex_escape : string → string;
  istio_workload : bool → positive;
  new_invalid : positive;
  (* rustls: whether a configuration can be begun for a provider and versions,
     and the certificates of a listener and of a backend *)
  with_protocol_versions : list Z → list Z → list TLSVersion → bool;
  with_protocol_versions_ok : ∀ suites groups versions,
    with_protocol_versions suites groups versions = true ↔ (∃ s, s ∈ suites ∧ suite_version s ∈ versions) ∧ groups ≠ [];
  load_server_config : TlsProfile → list TLSVersion → result positive string;
  parse_roots : string → result () string;
  system_roots_add : bool;                          (* every certificate of the system can be added *)
  client_config : ResolvedBackendTLS → result BackendTls string;
  invalid_header_name : string;                     (* the text of [InvalidHeaderName] *)
  gcp_credential_new : string → result GcpCredential string;
}.

(** What is built of converted parts: policies for language models and access
    logs (their types hold the type of the policies of backends, which holds
    theirs), tokens of clouds, and the address of an AWS agent. *)
Class OpaqueConversions {UC : UriCrate} {HC : HttpCrate} {RE : RegexEngine} {CE : CelEngine} {JW : JsonWebToken} {OM : OpaqueMessages} {OP : OpaquePolicies} := {
  llm_policy_new : LlmPolicyOf (P := @BackendTrafficPolicy gateway_payloads) → LlmPolicy;
  logging_policy_new : LoggingPolicyOf (P := @BackendTrafficPolicy gateway_payloads) → LoggingPolicy;
  cloud_token : CloudCredential → AReq (UserMetadata := UserMetadata) → AReq (UserMetadata := UserMetadata) * result () ();
  AgentCoreConfig : Type;
  agent_core_new : string → option string → result AgentCoreConfig string;
}.

Section conversions.
Context {UC : UriCrate} {HC : HttpCrate} {RE : RegexEngine} {MC : MessageCrate} {CE : CelEngine} {HO : HashOrder}.
Context {CK : CookieCrate} {JW : JsonWebToken} {HS : HashCrates} {OM : OpaqueMessages} {OP : OpaquePolicies}.
Context {CO : Compilers} {CC : ConfigCrates} {OC : OpaqueConversions}.
#[local] Hint Extern 0 Payloads => exact (gateway_payloads (CE := CE)) : typeclass_instances.
(** [Instant::now()]. *)
Context (now : Z).

Definition permissive_cel_expression (context original : string) : CM Expression :=
  let '(e, err) := new_permissive original in
  _ ← match err with
      | Some err => add_warning ("invalid CEL expression for " +:+ context +:+ ": " +:+ err +:+ "; replacing " +:+ debug_str original +:+ " with an expression that always fails")
      | None => mret ()
      end;
  mret e.

Definition regex_or_warn_invalid (context pattern : string) : CM (result Regex string) :=
  let r := regex_new pattern in
  _ ← match r with
      | Err err => add_warning ("invalid regex for " +:+ context +:+ ": " +:+ err +:+ "; replacing " +:+ debug_str pattern +:+ " with a matcher that never matches")
      | Ok _ => mret ()
      end;
  mret r.

(** ** References and names *)

Definition resource_name_from (v : proto.ResourceName) : ResourceName := mkResourceName (proto.rs_name v) (proto.rs_namespace v).

Definition non_empty (s : string) : option string := if Str.is_empty s then None else Some s.

Definition route_name_from (v : proto.RouteName) : RouteName :=
  mkRouteName (proto.rn_name v) (proto.rn_namespace v) (proto.rn_rule_name v) (non_empty (proto.rn_kind v)).

Definition listener_name_from (v : proto.ListenerName) : ListenerName :=
  mkListenerName (proto.ln_gateway_name v) (proto.ln_gateway_namespace v) (proto.ln_listener_name v)
    (resource_name_from <$> proto.ln_listener_set v).

Definition hostname_from (s : proto.Hostname) : NamespacedHostname := mkNH (proto.h_namespace s) (proto.h_hostname s).

Definition service_key_from_proto (sk : option proto.Hostname) : option NamespacedHostname :=
  sk ← sk;
  if negb (Str.is_empty (proto.h_namespace sk)) || negb (Str.is_empty (proto.h_hostname sk)) then Some (hostname_from sk) else None.

Definition resolve_simple_reference (target : option proto.BackendReference) : SimpleBackendReference :=
  match target with
  | None => SBRInvalid
  | Some t =>
      match proto.br_kind t with
      | None => SBRInvalid
      | Some (proto.RService svc) => SBRService (hostname_from svc) (as_u16 (proto.br_port t))
      | Some (proto.RBackend name) => SBRBackend name
      end
  end.

Definition resolve_reference (target : option proto.BackendReference) : BackendReference :=
  match target with
  | None => BRInvalid
  | Some t =>
      match proto.br_kind t with
      | None => BRInvalid
      | Some (proto.RService svc) => BRService (hostname_from svc) (as_u16 (proto.br_port t))
      | Some (proto.RBackend name) => BRBackend name
      end
  end.

Definition target_from (host : string) (port : Z) : Target :=
  match parse_ip host with Some ip => TAddress (mkSocketAddr ip port) | None => THostname host port end.

(** ** Matches *)

Definition convert_header_match (context : string) (h : list proto.ValueMatch) : CM (list HeaderMatch) :=
  collect (λ h,
    match proto.vm_value h with
    | None => throw (Generic "invalid header match value")
    | Some (proto.MExact e) =>
        name ← of_option HeaderName (header_or_pseudo_try_from (proto.vm_name h));
        v ← of_option HeaderValue (header_value_from_bytes e);
        mret (mkHeaderMatch name (HVExact v))
    | Some (proto.MRegex e) =>
        name ← of_option HeaderName (header_or_pseudo_try_from (proto.vm_name h));
        r ← regex_or_warn_invalid (context +:+ "." +:+ proto.vm_name h) e;
        mret (mkHeaderMatch name (match r with Ok r => HVRegex r | Err _ => HVInvalid end))
    end) h.

Definition query_match_from_proto (h : proto.ValueMatch) : CM QueryMatch :=
  match proto.vm_value h with
  | None => throw (Generic "invalid query match value")
  | Some (proto.MExact e) => mret (mkQueryMatch (proto.vm_name h) (QVExact e))
  | Some (proto.MRegex e) =>
      r ← regex_or_warn_invalid ("route.queryParams." +:+ proto.vm_name h) e;
      mret (mkQueryMatch (proto.vm_name h) (match r with Ok r => QVRegex r | Err _ => QVInvalid end))
  end.

Definition path_match_from_proto (p : option (option proto.PathKind)) : CM PathMatch :=
  match p with
  | None => mret (PPathPrefix "/")
  | Some (Some (proto.KPathPrefix p)) => mret (PPathPrefix p)
  | Some (Some (proto.KExact p)) => mret (PExact p)
  | Some (Some (proto.KRegex r)) =>
      r ← regex_or_warn_invalid "route.path" r;
      mret (match r with Ok r => PRegex r | Err _ => PInvalid end)
  | Some None => throw (Generic "invalid path match")
  end.

(** An error's text becomes that of another. *)
Definition map_error {A} (f : ProtoError → ProtoError) (m : CM A) : CM A := λ ws,
  '(ws, r) ← m ws; Ret (ws, match r with Ok a => Ok a | Err e => Err (f e) end).

Context (error_display : ProtoError → string).

Definition route_match_from_proto (s : proto.RouteMatch) : CM RouteMatch :=
  path ← path_match_from_proto (proto.rm_path s);
  headers ← map_error (λ e, Generic ("invalid header match: " +:+ error_display e)) (convert_header_match "route.headers" (proto.rm_headers s));
  query ← collect query_match_from_proto (proto.rm_query_params s);
  mret (mkRouteMatch headers path (proto.rm_method s) query).

(** ** Policies *)

Definition duration (d : PDuration) : CM Z := of_option DurationError (duration_try_into d).

(** [convert_duration]: a sum of [Duration]s, which panics when the seconds
    overflow. *)
Definition convert_duration (d : PDuration) : CM Z :=
  let nanos := (as_u64 (d_seconds d) * 1000000000 + as_u64 (d_nanos d))%Z in
  unwrap (if (nanos <? 2 ^ 64 * 1000000000)%Z then Some nanos else None).

(** A list of rules; [context] is the policy they are of. *)
Definition compile_rules (context : string) (rbac : proto.Rbac) : CM (RuleSet Expression) :=
  allow ← collect (permissive_cel_expression (context +:+ ".allow")) (proto.rb_allow rbac);
  deny ← collect (permissive_cel_expression (context +:+ ".deny")) (proto.rb_deny rbac);
  require ← collect (permissive_cel_expression (context +:+ ".require")) (proto.rb_require rbac);
  mret (mkRuleSet (mkPolicySet allow deny require)).

Definition authorization_from_proto : proto.Rbac → CM (RuleSet Expression) := compile_rules "traffic.authorization".
Definition mcp_authorization_from_proto : proto.Rbac → CM (RuleSet Expression) := compile_rules "backend.mcpAuthorization".

Definition authorization_location (context : string) (location : option proto.AuthorizationLocation) (dflt : AuthorizationLocation) : CM AuthorizationLocation :=
  match location with
  | None => mret dflt
  | Some (Some (proto.LKHeader name prefix)) =>
      n ← of_option HeaderName (header_name_from_bytes name); mret (LHeader n prefix)
  | Some (Some (proto.LKQueryParameter name)) => mret (LQueryParameter name)
  | Some (Some (proto.LKCookie name)) => mret (LCookie name)
  | Some (Some (proto.LKExpression e)) => e ← permissive_cel_expression context e; mret (LExpression e)
  | Some None => mret dflt
  end.

Definition optional_authorization_location (location : option proto.AuthorizationLocation) : CM (option AuthorizationLocation) :=
  match location with
  | None => mret None
  | Some (Some (proto.LKHeader name prefix)) =>
      n ← of_option HeaderName (header_name_from_bytes name); mret (Some (LHeader n prefix))
  | Some (Some (proto.LKQueryParameter name)) => mret (Some (LQueryParameter name))
  | Some (Some (proto.LKCookie name)) => mret (Some (LCookie name))
  | Some (Some (proto.LKExpression _)) => throw (Generic "expression auth location is only supported for credential extraction")
  | Some None => mret None
  end.

Definition retry_from_proto (r : proto.Retry) : CM (RetryPolicy * option Z) :=
  let n := as_u8 (proto.re_attempts r) in
  let attempts := if (n =? 0)%Z then 1%Z else n in
  backoff ← transpose duration (proto.re_backoff r);
  codes ← collect (λ c, of_option (Generic "invalid status code") (status_from_u16 (as_u16 c))) (proto.re_retry_status_codes r);
  mret (mkRetryPolicy attempts codes, backoff).

Definition local_rate_limit_from_proto (l : proto.LocalRateLimit) : CM (list RateLimit) :=
  t ← match proto.lr_type l with 0%Z => mret Requests | 1%Z => mret Tokens | n => throw (EnumError n) end;
  interval ← of_option MissingRequiredField (proto.lr_fill_interval l);
  interval ← duration interval;
  match RateLimit.try_from (mkSpec (proto.lr_max_tokens l) (proto.lr_tokens_per_fill l) interval t) now with
  | Ok rl => mret [rl]
  | Err e => throw (Generic ("invalid rate limit: " +:+ rl_error_display e))
  end.

Definition named_expression (context : string) (kv : string * string) : CM (string * Expression) :=
  e ← permissive_cel_expression (context +:+ kv.1) kv.2; mret (kv.1, e).

(** [convert_transform], and [transformation_from_proto]. *)
Definition convert_transform (t : option proto.Transform) : LocalTransform :=
  match t with
  | Some t => mkLocalTransform (proto.tf_add t) (proto.tf_set t) (proto.tf_remove t) (proto.tf_body t) (map_iter (proto.tf_metadata t))
  | None => mkLocalTransform [] [] [] None []
  end.

Definition transformation_from_proto (spec : proto.TransformationPolicy) : CM Transformation := λ ws,
  let config := mkLocalTransformationConfig (Some (convert_transform (proto.tfp_request spec))) (Some (convert_transform (proto.tfp_response spec))) in
  let '(warnings, r) := try_from_local_config_with_warnings config false [] in
  Ret (ws ++ ((λ '(expression, err), "invalid CEL expression for transformation: " +:+ err +:+ "; replacing " +:+ debug_str expression +:+ " with an expression that always fails") <$> warnings),
       map_err (λ e, Generic (match e with BadHeaderName => invalid_header_name | BadExpression e => e end)) r).

Definition auth_protocol_from_proto (p : proto.AuthProtocol) : CM Protocol :=
  match p with
  | proto.APGrpc context metadata =>
      md ← collect (named_expression "traffic.extAuthz.grpc.metadata.") (map_iter metadata);
      mret (Grpc (Some context) (match md with [] => None | _ => Some md end))
  | proto.APHttp path redirect include_response_headers add_request_headers metadata =>
      path ← transpose (permissive_cel_expression "traffic.extAuthz.http.path") path;
      redirect ← transpose (permissive_cel_expression "traffic.extAuthz.http.redirect") redirect;
      include ← collect (λ k, of_option HeaderName (header_name_from_bytes k)) include_response_headers;
      add ← collect (λ kv : string * string,
               tk ← of_option (Generic invalid_header_name) (header_or_pseudo_try_from kv.1);
               tv ← permissive_cel_expression ("traffic.extAuthz.http.addRequestHeaders." +:+ kv.1) kv.2;
               mret (tk, tv)) (map_iter add_request_headers);
      md ← collect (named_expression "traffic.extAuthz.http.metadata.") (map_iter metadata);
      mret (Http path redirect include add md)
  end.

(** Headers that are none are left out, with a warning. *)
Fixpoint included_headers (l : list string) : CM (list HeaderOrPseudo) :=
  match l with
  | [] => mret []
  | s :: l' =>
      match header_or_pseudo_try_from s with
      | Some h => hs ← included_headers l'; mret (h :: hs)
      | None => _ ← add_warning ("invalid header in extauth include_request_headers; skipping: " +:+ s); included_headers l'
      end
  end.

Definition external_auth_from_proto (ea : proto.ExternalAuth) : CM (SimpleBackendReference * ExtAuthz) :=
  let target := resolve_simple_reference (proto.ea_target ea) in
  let failure_mode := match proto.ea_failure_mode ea with
                      | 1%Z => FMAllow
                      | 2%Z => FMDenyWithStatus (as_u16 (default 403%Z (proto.ea_status_on_error ea)))
                      | _ => FMDeny
                      end in
  let body := (λ o, mkBodyOptions (Z.to_nat (proto.bo_max_request_bytes o)) (proto.bo_allow_partial_message o) (proto.bo_pack_as_bytes o))
                <$> proto.ea_include_request_body ea in
  p ← of_option MissingRequiredField (proto.ea_protocol ea);
  protocol ← auth_protocol_from_proto p;
  include ← included_headers (proto.ea_include_request_headers ea);
  mret (target, mkExtAuthz protocol failure_mode include body).

Definition jwt_mode_from_proto (m : Z) : CM Mode :=
  match m with 0%Z => mret Optional | 1%Z => mret Strict | 2%Z => mret Permissive | _ => throw (EnumParse "invalid JWT mode") end.

(** [JWTValidationOptions::default()]. *)
Definition required_claims (options : option (list string)) : gset string :=
  match options with Some l => list_to_set l | None => {["exp"]} end.

Definition non_empty_list {A} (l : list A) : option (list A) := match l with [] => None | _ => Some l end.

Definition jwt_provider_from_proto (p : proto.JwtProvider) : CM Provider :=
  jwks_json ← of_option (Generic "JWT policy missing JWKS source") (proto.jp_jwks_source p);
  jwk_set ← of_result (map_err (λ e, Generic ("failed to parse JWKS: " +:+ e)) (jwk_set_from_str jwks_json));
  of_result (map_err (λ e, Generic ("failed to create JWT config: " +:+ jwk_error_display e))
    (from_jwks jwk_set (proto.jp_issuer p) (non_empty_list (proto.jp_audiences p)) (required_claims (proto.jp_validation_options p)))).

Definition convert_mcp_provider (provider : Z) : option McpIDP := match provider with 1%Z => Some Auth0 | 2%Z => Some Keycloak | _ => None end.

Definition convert_mcp_resource_metadata (entries : proto.ResourceMetadata) : list (string * Json) :=
  match entries with Some m => (λ kv, (kv.1, to_json_value kv.2)) <$> map_iter m | None => [] end.

Definition jwt_from_proto (j : proto.Jwt) : CM JwtAuthentication :=
  mode ← jwt_mode_from_proto (proto.jw_mode j);
  providers ← collect jwt_provider_from_proto (proto.jw_providers j);
  location ← authorization_location "jwtAuthentication.authorizationLocation.expression" (proto.jw_authorization_location j) bearer_header;
  let jwt_auth := mkJwt mode providers location in
  mcp ← match proto.jw_mcp j with
        | None => mret None
        | Some (provider, metadata) =>
            match proto.jw_providers j with
            | [p] =>
                mcp_mode ← jwt_mode_from_proto (proto.jw_mode j);
                mret (Some (mkMcpAuthentication (proto.jp_issuer p) (proto.jp_audiences p) (convert_mcp_provider provider)
                              (convert_mcp_resource_metadata metadata) jwt_auth mcp_mode))
            | ps => throw (Generic ("JWT MCP extension requires exactly one provider, found " +:+ pretty (length ps)))
            end
        end;
  mret (mkJwtAuthentication jwt_auth mcp).

Definition descriptor_from_proto (d : proto.Descriptor) : CM DescriptorEntry :=
  entries ← collect (named_expression "traffic.remoteRateLimit.descriptors.") (proto.de_entries d);
  limit_override ← transpose (permissive_cel_expression "traffic.remoteRateLimit.limitOverride") (proto.de_limit_override d);
  cost ← transpose (permissive_cel_expression "traffic.remoteRateLimit.cost") (proto.de_cost d);
  mret (mkEntry entries (if (proto.de_type d =? 1)%Z then Tokens else Requests) cost limit_override).

Definition remote_rate_limit_from_proto (r : proto.RemoteRateLimit) : CM (SimpleBackendReference * RemoteRateLimit) :=
  descriptors ← collect descriptor_from_proto (proto.rl_descriptors r);
  mret (resolve_simple_reference (proto.rl_target r),
        mkRemote (proto.rl_domain r) descriptors (if (proto.rl_failure_mode r =? 1)%Z then RemoteLimit.FailOpen else RemoteLimit.FailClosed)).

Definition to_cel_attrs (context : string) (attrs : gmap string string) : CM (option (list (string * Expression))) :=
  if decide (attrs = ∅) then mret None
  else l ← collect (named_expression (context +:+ ".")) (map_iter attrs); mret (Some l).

Definition ext_proc_from_proto (e : proto.ExtProc) : CM ExtProcPolicy :=
  request ← to_cel_attrs "traffic.extProc.requestAttributes" (proto.ep_request_attributes e);
  response ← to_cel_attrs "traffic.extProc.responseAttributes" (proto.ep_response_attributes e);
  metadata ← (if decide (proto.ep_metadata_context e = ∅) then mret None
              else l ← collect (λ nd : string * gmap string string,
                          d ← collect (named_expression ("traffic.extProc.metadataContext." +:+ nd.1 +:+ ".")) (map_iter nd.2);
                          mret (nd.1, d)) (map_iter (proto.ep_metadata_context e));
                   mret (Some l));
  mret (mkExtProcPolicy (resolve_simple_reference (proto.ep_target e)) (if (proto.ep_failure_mode e =? 1)%Z then ProcFailOpen else ProcFailClosed)
          request response metadata).

Definition header_modifier_from (h : proto.HeaderModifier) : HeaderModifier :=
  mkHeaderModifier (proto.hm_add h) (proto.hm_set h) (proto.hm_remove h).

Definition path_redirect_from (p : proto.RedirectPath) : PathRedirect :=
  match p with proto.RPFull f => PRFull f | proto.RPPrefix f => PRPrefix f end.

Definition default_as_none (n : Z) : option Z := if (n =? 0)%Z then None else Some n.

Definition redirect_authority (host : string) (port : Z) : CM (option HostRedirect) :=
  match non_empty host, default_as_none port with
  | Some h, Some p => mret (Some (HRFull (h +:+ ":" +:+ pretty (Z.to_N p))))
  | None, Some p => p ← unwrap (default_as_none (as_u16 p)); mret (Some (HRPort p))
  | Some h, None => mret (Some (HRHost h))
  | None, None => mret None
  end.

Definition request_redirect_from_proto (rr : proto.RequestRedirect) : CM RequestRedirect :=
  scheme ← transpose (λ s, of_option BadURI (scheme_try_from s)) (non_empty (proto.rr_scheme rr));
  authority ← redirect_authority (proto.rr_host rr) (proto.rr_port rr);
  status ← transpose (λ i, of_option InvalidStatusCode (status_from_u16 (as_u16 i))) (default_as_none (proto.rr_status rr));
  mret (mkRedirect scheme authority (path_redirect_from <$> proto.rr_path rr) status).

Definition url_rewrite_from (u : proto.UrlRewrite) : UrlRewrite :=
  mkRewrite (HRHost <$> non_empty (proto.ur_host u)) (path_redirect_from <$> proto.ur_path u).

Definition mirrors_from (m : proto.Mirrors) : list RequestMirror :=
  (λ bp, mkRequestMirror (resolve_simple_reference bp.1) bp.2) <$> m.

(** The [http] crate's [HeaderName::from_str] and [Method::from_str]. *)
Definition header_name_from_str (s : string) : result string string := ok_or "invalid HTTP header name" (header_name_from_bytes s).
Definition method_from_str (s : string) : result string string := ok_or "invalid HTTP method" (method_from_bytes s).

Definition cors_from_proto (c : proto.Cors) : CM Cors :=
  max_age ← transpose duration (proto.co_max_age c);
  of_result (map_err Generic
    (cors_try_from header_name_from_str method_from_str
       (mkCorsSerde (proto.co_allow_credentials c) (proto.co_allow_headers c) (proto.co_allow_methods c) (proto.co_allow_origins c)
          (proto.co_expose_headers c) ((λ d, Z.to_N (as_secs d)) <$> max_age)))).

Definition credential_mode (what : string) (m : Z) : CM CredentialMode :=
  match m with 0%Z => mret CStrict | 1%Z => mret COptional | _ => throw (EnumParse ("invalid " +:+ what +:+ " mode")) end.

Definition basic_auth_from_proto (b : proto.BasicAuthentication) : CM BasicAuthentication :=
  mode ← credential_mode "Basic Auth" (proto.ba_mode b);
  location ← authorization_location "basicAuthentication.authorizationLocation.expression" (proto.ba_authorization_location b) basic_header;
  mret (mkBasicAuth (htpasswd_new (proto.ba_htpasswd_content b)) mode location).

Definition api_key_from_proto (a : proto.ApiKey) : CM (APIKeyAuthentication (UserMetadata := UserMetadata)) :=
  mode ← credential_mode "API Key" (proto.ak_mode a);
  keys ← collect (λ u : string * option StructMsg,
            meta ← transpose (λ s, of_option JsonError (struct_to_value s)) u.2;
            mret (u.1, default null_metadata meta)) (proto.ak_api_keys a);
  location ← authorization_location "apiKeyAuthentication.authorizationLocation.expression" (proto.ak_authorization_location a) bearer_header;
  mret (apikey_new keys mode location).

Definition traffic_policy_from_proto (spec : proto.TrafficPolicySpec) : CM TrafficPolicy :=
  match proto.tps_kind spec with
  | Some (proto.TKTimeout t) =>
      r ← transpose duration (proto.to_request t);
      b ← transpose duration (proto.to_backend_request t);
      mret (TPTimeout (mkTimeoutPolicy r b))
  | Some (proto.TKRetry r) => p ← retry_from_proto r; mret (TPRetry p)
  | Some (proto.TKLocalRateLimit l) => p ← local_rate_limit_from_proto l; mret (TPLocalRateLimit (rp_single p))
  | Some (proto.TKExtAuthz e) => p ← external_auth_from_proto e; mret (TPExtAuthz (rp_single p))
  | Some (proto.TKAuthorization r) => p ← authorization_from_proto r; mret (TPAuthorization p)
  | Some (proto.TKJwt j) => p ← jwt_from_proto j; mret (TPJwtAuth (rp_single p))
  | Some (proto.TKTransformation t) => p ← transformation_from_proto t; mret (TPTransformation (rp_single p))
  | Some (proto.TKRemoteRateLimit r) => p ← remote_rate_limit_from_proto r; mret (TPRemoteRateLimit (rp_single p))
  | Some (proto.TKCsrf origins) => mret (TPCsrf (rp_single (mkCsrf (list_to_set origins))))
  | Some (proto.TKExtProc e) => p ← ext_proc_from_proto e; mret (TPExtProc (rp_single p))
  | Some (proto.TKRequestHeaderModifier h) => mret (TPRequestHeaderModifier (rp_single (header_modifier_from h)))
  | Some (proto.TKResponseHeaderModifier h) => mret (TPResponseHeaderModifier (header_modifier_from h))
  | Some (proto.TKRequestRedirect r) => p ← request_redirect_from_proto r; mret (TPRequestRedirect (rp_single p))
  | Some (proto.TKUrlRewrite u) => mret (TPUrlRewrite (rp_single (url_rewrite_from u)))
  | Some (proto.TKRequestMirror m) => mret (TPRequestMirror (mirrors_from m))
  | Some (proto.TKDirectResponse status body) =>
      s ← of_option InvalidStatusCode (status_from_u16 (as_u16 status));
      mret (TPDirectResponse (rp_single (mkDirectResponse body s)))
  | Some (proto.TKCors c) => p ← cors_from_proto c; mret (TPCORS (rp_single p))
  | Some (proto.TKBasicAuth b) => p ← basic_auth_from_proto b; mret (TPBasicAuth (rp_single p))
  | Some (proto.TKApiKeyAuth a) => p ← api_key_from_proto a; mret (TPAPIKey (rp_single p))
  | Some (proto.TKHostRewrite m) =>
      match m with 0%Z => mret (TPHostRewrite HONone) | 1%Z => mret (TPHostRewrite HOAuto) | _ => throw (EnumError m) end
  | None => throw MissingRequiredField
  end.

Definition phased_traffic_policy_from_proto (spec : proto.TrafficPolicySpec) : CM (PolicyPhase * TrafficPolicy) :=
  tp ← traffic_policy_from_proto spec;
  phase ← match proto.tps_phase spec with 0%Z => mret PhaseRoute | 1%Z => mret PhaseGateway | n => throw (EnumError n) end;
  mret (phase, tp).

(** Defaults of [types/agent.rs] and [types/backend.rs], in nanoseconds. *)
Definition secs (n : Z) : Z := (n * 1000000000)%Z.
Definition keepalive_default : KeepaliveConfig := mkKeepaliveConfig true (secs 180) (secs 180) 9.

Definition keepalive_from (k : proto.KeepaliveConfig) : CM KeepaliveConfig :=
  time ← transpose convert_duration (proto.ka_time k);
  interval ← transpose convert_duration (proto.ka_interval k);
  mret (mkKeepaliveConfig true (default (secs 180) time) (default (secs 180) interval) (default 9%Z (proto.ka_retries k))).

Definition keepalive_or_default (k : option proto.KeepaliveConfig) : CM KeepaliveConfig :=
  match k with Some k => keepalive_from k | None => mret keepalive_default end.

Definition convert_health (unhealthy_condition : string) (eviction : option proto.Eviction) : CM HealthPolicy :=
  e ← transpose (permissive_cel_expression "backend.health.unhealthyCondition") (non_empty unhealthy_condition);
  ev ← transpose (λ ev, d ← transpose convert_duration (proto.ev_duration ev);
                        mret (mkHealthEviction d (proto.ev_restore_health ev) (proto.ev_consecutive_failures ev) (proto.ev_health_threshold ev))) eviction;
  mret (mkHealthPolicy e ev).

Definition mcp_authentication_from_proto (m : proto.McpAuthentication) : CM McpAuthentication :=
  if Str.is_empty (proto.ma_jwks_inline m) then throw (Generic "MCP Authentication requires jwks_inline to be set.")
  else
    jwk_set ← of_result (map_err (λ e, Generic ("failed to parse JWKS for MCP Authentication: " +:+ e)) (jwk_set_from_str (proto.ma_jwks_inline m)));
    provider ← of_result (map_err (λ e, Generic ("failed to create JWT provider for MCP Authentication: " +:+ jwk_error_display e))
      (from_jwks jwk_set (proto.ma_issuer m) (non_empty_list (proto.ma_audiences m)) (required_claims (proto.ma_validation_options m))));
    mode ← jwt_mode_from_proto (proto.ma_mode m);
    mret (mkMcpAuthentication (proto.ma_issuer m) (proto.ma_audiences m) (convert_mcp_provider (proto.ma_provider m))
            (convert_mcp_resource_metadata (proto.ma_resource_metadata m)) (mkJwt mode [provider] bearer_header) mode).

Definition azure_source_from (s : proto.AzureSource) : AzureAuthCredentialSource :=
  match s with
  | proto.ClientSecret tenant client secret => AzClientSecret tenant client secret
  | proto.ManagedIdentityCredential uami =>
      AzManagedIdentity (id ← uami; id ← id; Some (match id with
                                                   | proto.ClientId c => AzClientId c
                                                   | proto.ObjectId o => AzObjectId o
                                                   | proto.ResourceId r => AzResourceId r
                                                   end))
  | proto.WorkloadIdentityCredential => AzWorkloadIdentity
  end.

Definition azure_auth_from_proto (a : proto.AzureKind) : CM CloudCredential :=
  match a with
  | proto.AzureExplicit source => s ← of_option MissingRequiredField source; mret (AzExplicitConfig (azure_source_from s))
  | proto.AzureDeveloperImplicit => mret AzDeveloperImplicit
  | proto.AzureImplicit => mret AzImplicit
  end.

Definition backend_auth_from_proto (a : option proto.BackendAuthKind) : CM (BackendAuth (UserMetadata := UserMetadata)) :=
  match a with
  | Some (proto.AKPassthrough l) => l ← optional_authorization_location l; mret (Passthrough l)
  | Some (proto.AKKey secret l) => l ← optional_authorization_location l; mret (Key secret l)
  | Some (proto.AKGcp credential token_type) =>
      credential ← transpose (λ c, of_result (map_err Generic (gcp_credential_new c))) credential;
      mret (OtherAuth (cloud_token match token_type with
                                   | None | Some proto.AccessToken => GcpAccessToken credential
                                   | Some (proto.IdToken audience) => GcpIdToken audience credential
                                   end))
  | Some (proto.AKAws a) => _ ← of_option MissingRequiredField a; mret AwsAuth
  | Some (proto.AKAzure a) => k ← of_option MissingRequiredField a; c ← azure_auth_from_proto k; mret (OtherAuth (cloud_token c))
  | None => throw MissingRequiredField
  end.

(** ** TLS *)

Definition tls_version (raw : option Z) : option TLSVersion := match raw with Some 3%Z => Some TLS_V1_2 | Some 4%Z => Some TLS_V1_3 | _ => None end.

(** [convert_tls_cipher_suites] and [convert_tls_key_exchange_groups]: numbers
    from one to [last] are known, zero is left out silently. *)
Fixpoint known_numbers (what : string) (last : Z) (l : list Z) : CM (list Z) :=
  match l with
  | [] => mret []
  | n :: l' =>
      if (n =? 0)%Z then known_numbers what last l'
      else if (1 <=? n)%Z && (n <=? last)%Z then ns ← known_numbers what last l'; mret (n :: ns)
      else _ ← add_warning ("unknown TLS " +:+ what +:+ " enum value " +:+ pretty n +:+ ": unknown enumeration value " +:+ pretty n); known_numbers what last l'
  end.

Definition convert_tls_cipher_suites (l : list Z) : CM (option (list Z)) :=
  ns ← known_numbers "cipher suite" 9 l; mret (non_empty_list ns).
Definition convert_tls_key_exchange_groups (l : list Z) : CM (option (list Z)) :=
  ns ← known_numbers "key exchange group" 4 l; mret (non_empty_list ns).

Definition DEFAULT_CIPHER_SUITES : list Z := [1; 2; 4; 5; 7; 8]%Z.
Definition DEFAULT_KEY_EXCHANGE_GROUPS : list Z := [1; 2; 3; 4]%Z.

(** [provider_with_options]: nothing given, or an empty list, are the defaults. *)
Definition provider_suites (o : option (list Z)) : list Z := match o with Some (n :: l) => n :: l | _ => DEFAULT_CIPHER_SUITES end.
Definition provider_groups (o : option (list Z)) : list Z := match o with Some (n :: l) => n :: l | _ => DEFAULT_KEY_EXCHANGE_GROUPS end.

(** [tls_versions_for_range]. *)
Definition version_ord (v : TLSVersion) : result Z string :=
  match v with
  | TLS_V1_2 => Ok 12%Z | TLS_V1_3 => Ok 13%Z
  | TLS_V1_0 => Err "unsupported TLS version: TLS_V1_0" | TLS_V1_1 => Err "unsupported TLS version: TLS_V1_1"
  end.

Definition version_ord_opt (v : option TLSVersion) : result (option Z) string :=
  match v with Some v => match version_ord v with Ok n => Ok (Some n) | Err e => Err e end | None => Ok None end.

Definition tls_versions_for_range (min_version max_version : option TLSVersion) : result (list TLSVersion) string :=
  match version_ord_opt min_version, version_ord_opt max_version with
  | Err e, _ => Err e
  | _, Err e => Err e
  | Ok min, Ok max =>
      if (match min, max with Some min, Some max => (max <? min)%Z | _, _ => false end) then Err "invalid TLS version range"
      else
        let min := default 12%Z min in
        let max := default 13%Z max in
        match (if (min <=? 12) && (12 <=? max) then [TLS_V1_2] else [])%Z ++ (if (min <=? 13) && (13 <=? max) then [TLS_V1_3] else [])%Z with
        | [] => Err "invalid TLS version range"
        | out => Ok out
        end
  end.

(** [ServerTLSConfig::from_pem_with_profile] and [build_server_config]: the
    builder's [expect] panics if no cipher suite is of one of the versions. *)
Definition from_pem_with_profile (p : TlsProfile) : outcome (result positive string) :=
  match tls_versions_for_range (tp_min_version p) (tp_max_version p) with
  | Err e => Ret (Err e)
  | Ok versions =>
      if with_protocol_versions (provider_suites (tp_cipher_suites p)) (provider_groups (tp_key_exchange_groups p)) versions
      then Ret (load_server_config p versions) else Panic
  end.

(** [ResolvedBackendTLS::try_into]. *)
Definition resolve_backend_tls (t : ResolvedBackendTLS) : outcome (result BackendTls string) :=
  let configure := if with_protocol_versions DEFAULT_CIPHER_SUITES (provider_groups (rt_key_exchange_groups t)) [TLS_V1_2; TLS_V1_3]
                   then Ret (client_config t) else Panic in
  match rt_root t with
  | Some root => match parse_roots root with Err e => Ret (Err e) | Ok _ => configure end
  | None => if system_roots_add then configure else Panic
  end.

Definition backend_tls_from_proto (t : proto.BackendTls) : CM BackendTls :=
  _ ← (if ((0 <=? proto.bt_verification t) && (proto.bt_verification t <=? 2))%Z then mret () else throw (EnumError (proto.bt_verification t)));
  groups ← convert_tls_key_exchange_groups (proto.bt_key_exchange_groups t);
  r ← of_outcome (resolve_backend_tls (mkResolvedBackendTLS (proto.bt_cert t) (proto.bt_key t) (proto.bt_root t) (proto.bt_hostname t)
    (proto.bt_verification t =? 2)%Z (proto.bt_verification t =? 1)%Z (proto.bt_alpn t) (non_empty_list (proto.bt_verify_subject_alt_names t)) groups));
  of_result (map_err Generic r).

(** ** Language models *)

Definition convert_regex_rule (r : option proto.RegexRuleKind) : CM (option RegexRule) :=
  match r with
  | Some (proto.RRBuiltin b) =>
      match b with
      | 1%Z => mret (Some (RuleBuiltin Ssn)) | 2%Z => mret (Some (RuleBuiltin CreditCard)) | 3%Z => mret (Some (RuleBuiltin PhoneNumber))
      | 4%Z => mret (Some (RuleBuiltin Email)) | 5%Z => mret (Some (RuleBuiltin CaSin))
      | 0%Z => _ ← add_warning ("unknown builtin regex rule value " +:+ pretty b +:+ "; skipping"); mret None
      | _ => _ ← add_warning ("invalid builtin regex rule value " +:+ pretty b +:+ "; skipping"); mret None
      end
  | Some (proto.RRRegex n) =>
      match regex_new n with
      | Ok pattern => mret (Some (RuleRegex pattern))
      | Err err => _ ← add_warning ("invalid regex pattern " +:+ debug_str n +:+ ": " +:+ err +:+ "; skipping"); mret None
      end
  | None => mret None
  end.

Definition convert_regex_rules (rr : proto.RegexRules) : CM RegexRules :=
  rules ← filter_collect convert_regex_rule (proto.rx_rules rr);
  mret (mkRegexRules (if (proto.rx_action rr =? 2)%Z then Reject else Mask) rules).

Definition convert_webhook (w : proto.Webhook) : CM Webhook :=
  matches ← convert_header_match "backend.ai.webhook.forwardHeaderMatches" (proto.wh_forward_header_matches w);
  mret (mkWebhook (resolve_simple_reference (proto.wh_backend w)) matches).

(** The response of a guard that rejects. *)
Definition rejection_from (r : option proto.Rejection) : RequestRejection :=
  match r with
  | Some resp =>
      let n := proto.rj_status resp in
      mkRequestRejection (proto.rj_body resp) (default 403%Z (if (n <=? 65535)%Z then status_from_u16 n else None))
  | None => rejection_default
  end.

Definition azure_text (severity : option Z) (version : option string) (blocklists : list string) (halt : option bool) : AnalyzeTextConfig :=
  mkAnalyzeTextConfig severity version (non_empty_list blocklists) halt.

Definition convert_route_type (n : Z) : CM RouteType :=
  match n with
  | 0%Z | 1%Z => mret Completions | 2%Z => mret Messages | 3%Z => mret Models | 4%Z => mret LlmPassthrough | 5%Z => mret Responses
  | 6%Z => mret AnthropicTokenCount | 7%Z => mret Embeddings | 8%Z => mret Realtime | 9%Z => mret Detect
  | n => _ ← add_warning ("unknown proto RouteType value " +:+ pretty n +:+ ", defaulting to Completions"); mret Completions
  end.

(** An escaped star becomes the expression for any text, left to right. *)
Fixpoint replace_stars (s : string) : string :=
  match s with
  | String "\"%char (String "*"%char s') => "(.*)" +:+ replace_stars s'
  | String c s' => String c (replace_stars s')
  | EmptyString => ""
  end.

(** [ModelAliasPattern::from_wildcard] and [compile_model_alias_patterns]: what
    does not compile is left out. *)
Definition from_wildcard (pattern : string) : option ModelAliasPattern :=
  if Str.contains_char "*"%char pattern then
    match regex_new ("^" +:+ replace_stars (regex_escape pattern) +:+ "$") with
    | Ok r => Some (mkModelAliasPattern r (String.length pattern))
    | Err _ => None
    end
  else None.

Definition compile_model_alias_patterns (aliases : gmap string string) : list (ModelAliasPattern * string) :=
  sort_by (λ a b, (ma_pattern_len b.1 <=? ma_pattern_len a.1)%nat)
    (omap (λ kv : string * string, p ← from_wildcard kv.1; Some (p, kv.2)) (map_iter aliases)).

Definition json_values (m : gmap string string) : CM (gmap string Json) :=
  l ← collect (λ kv : string * string, v ← of_option JsonError (json_from_str kv.2); mret (kv.1, v)) (map_iter m);
  mret (list_to_map l).

Section guards.
(** The conversion of the policies a guard has. *)
Context {P : Type} (from : P → CM BackendTrafficPolicy).

Definition request_guard_kind_from (k : proto.RequestGuardKind (P := P)) : CM (RequestGuardKind (P := BackendTrafficPolicy)) :=
  match k with
  | proto.QGRegex r => r ← convert_regex_rules r; mret (QRegex r)
  | proto.QGWebhook w => w ← convert_webhook w; mret (QWebhook w)
  | proto.QGOpenaiModeration model inline => ps ← collect from inline; mret (QOpenAIModeration (mkModeration _ model ps))
  | proto.QGGoogleModelArmor t p l inline => ps ← collect from inline; mret (QGoogleModelArmor (mkGoogleModelArmor _ t p l ps))
  | proto.QGBedrockGuardrails i v r inline => ps ← collect from inline; mret (QBedrockGuardrails (mkBedrockGuardrails _ i v r ps))
  | proto.QGAzureContentSafety e s v b h inline =>
      ps ← collect from inline; mret (QAzureContentSafety (mkAzureContentSafety _ e ps (Some (azure_text s v b h))))
  end.

Definition request_guard_from (g : proto.RequestGuard (P := P)) : CM (RequestRejection * RequestGuardKind (P := BackendTrafficPolicy)) :=
  match proto.qg_kind g with
  | Some k => k ← request_guard_kind_from k; mret (rejection_from (proto.qg_rejection g), k)
  | None => throw (EnumParse "unknown kind")
  end.

(** Of a guard of responses, what does not convert is left out: the guard, if it
    is its kind or its webhook, else the policy. *)
Definition response_guard_kind_from (k : proto.ResponseGuardKind (P := P)) : CM (option (ResponseGuardKind (P := BackendTrafficPolicy))) :=
  match k with
  | proto.SGRegex r => r ← convert_regex_rules r; mret (Some (SRegex r))
  | proto.SGWebhook w => w ← attempt (convert_webhook w); mret (SWebhook <$> w)
  | proto.SGGoogleModelArmor t p l inline =>
      ps ← filter_collect (λ x, attempt (from x)) inline; mret (Some (SGoogleModelArmor (mkGoogleModelArmor _ t p l ps)))
  | proto.SGBedrockGuardrails i v r inline =>
      ps ← filter_collect (λ x, attempt (from x)) inline; mret (Some (SBedrockGuardrails (mkBedrockGuardrails _ i v r ps)))
  | proto.SGAzureContentSafety e s v b h inline =>
      ps ← filter_collect (λ x, attempt (from x)) inline;
      mret (Some (SAzureContentSafety (mkAzureContentSafety _ e ps (Some (azure_text s v b h)))))
  end.

Definition response_guard_from (g : proto.ResponseGuard (P := P)) : CM (option (RequestRejection * ResponseGuardKind (P := BackendTrafficPolicy))) :=
  match proto.sg_kind g with
  | Some k => k ← response_guard_kind_from k; mret (pair (rejection_from (proto.sg_rejection g)) <$> k)
  | None => mret None
  end.

Definition prompt_guard_from (pg : proto.PromptGuard (P := P)) : CM (PromptGuard (P := BackendTrafficPolicy)) :=
  request ← collect request_guard_from (proto.pg_request pg);
  response ← filter_collect response_guard_from (proto.pg_response pg);
  mret (mkPromptGuard _ request response).

Definition convert_backend_ai_policy (ai : proto.Ai (P := P)) : CM LlmPolicy :=
  prompt_guard ← transpose prompt_guard_from (proto.ai_prompt_guard ai);
  defaults ← json_values (proto.ai_defaults ai);
  overrides ← json_values (proto.ai_overrides ai);
  transformations ← (if decide (proto.ai_transformations ai = ∅) then mret None
                     else l ← collect (named_expression "backend.ai.transformations.") (map_iter (proto.ai_transformations ai)); mret (Some (list_to_map l)));
  routes ← collect (λ kv : string * Z, t ← convert_route_type kv.2; mret (kv.1, t)) (map_iter (proto.ai_routes ai));
  mret (llm_policy_new (mkLlmPolicy _ prompt_guard (Some defaults) (Some overrides) transformations
    ((λ p, mkPromptEnrichment (proto.pe_append p) (proto.pe_prepend p)) <$> proto.ai_prompts ai) (proto.ai_model_aliases ai)
    (compile_model_alias_patterns (proto.ai_model_aliases ai))
    ((λ c, mkPromptCachingConfig (proto.pc_cache_system c) (proto.pc_cache_messages c) (proto.pc_cache_tools c) (proto.pc_min_tokens c)
             (default 0%Z (proto.pc_cache_message_offset c))) <$> proto.ai_prompt_caching ai)
    (sorted_routes routes))).
End guards.

(** ** Policies of backends *)

Fixpoint backend_kind_from_proto (k : proto.BackendKind) : CM BackendTrafficPolicy :=
  match k with
  | proto.BKA2a => mret (BPA2a ())
  | proto.BKInferenceRouting picker mode =>
      m ← match mode with 0%Z | 1%Z => mret ProcFailClosed | 2%Z => mret ProcFailOpen | n => throw (EnumError n) end;
      mret (BPInferenceRouting (mkInferenceRouting (resolve_simple_reference picker) m))
  | proto.BKBackendHttp version timeout =>
      v ← match version with 0%Z => mret None | 1%Z => mret (Some HTTP_11) | 2%Z => mret (Some HTTP_2) | n => throw (EnumError n) end;
      t ← transpose convert_duration timeout;
      mret (BPHTTP (mkBackendHTTP v t))
  | proto.BKBackendTcp keepalive timeout =>
      t ← transpose convert_duration timeout;
      k ← keepalive_or_default keepalive;
      mret (BPTCP (mkBackendTCP (default (secs 11) t) k))
  | proto.BKBackendTunnel proxy => mret (BPTunnel (resolve_simple_reference proxy))
  | proto.BKBackendTls t => p ← backend_tls_from_proto t; mret (BPBackendTLS p)
  | proto.BKAuth a => p ← backend_auth_from_proto a; mret (BPBackendAuth p)
  | proto.BKMcpAuthorization r => p ← mcp_authorization_from_proto r; mret (BPMcpAuthorization p)
  | proto.BKMcpAuthentication m => p ← mcp_authentication_from_proto m; mret (BPMcpAuthentication p)
  | proto.BKAi a => p ← convert_backend_ai_policy (λ o, match o with Some k => backend_kind_from_proto k | None => throw MissingRequiredField end) a; mret (BPAI p)
  | proto.BKExtAuthz e => p ← external_auth_from_proto e; mret (BPExtAuthz p)
  | proto.BKTransformation t => p ← transformation_from_proto t; mret (BPTransformation p)
  | proto.BKRequestHeaderModifier h => mret (BPRequestHeaderModifier (header_modifier_from h))
  | proto.BKResponseHeaderModifier h => mret (BPResponseHeaderModifier (header_modifier_from h))
  | proto.BKRequestRedirect r => p ← request_redirect_from_proto r; mret (BPRequestRedirect p)
  | proto.BKRequestMirror m => mret (BPRequestMirror (mirrors_from m))
  | proto.BKHealth c e => p ← convert_health c e; mret (BPHealth p)
  end.

Definition backend_policy_from_proto (spec : proto.BackendPolicySpec) : CM BackendTrafficPolicy :=
  match spec with Some k => backend_kind_from_proto k | None => throw MissingRequiredField end.

(** ** Frontends *)

Definition server_tls_config_from_proto (value : proto.TlsConfig) : CM positive :=
  suites ← convert_tls_cipher_suites (proto.tl_cipher_suites value);
  groups ← convert_tls_key_exchange_groups (proto.tl_key_exchange_groups value);
  if (proto.tl_certificate_source value =? 1)%Z then
    require ← (if (proto.tl_mtls_mode value =? 1)%Z then
                 _ ← add_warning "ALLOW_INSECURE_FALLBACK is not supported with ISTIO_WORKLOAD certificates; disabling mTLS"; mret false
               else mret (negb (proto.tl_mtls_mode value =? 2)%Z));
    mret (istio_workload require)
  else
    r ← of_outcome (from_pem_with_profile (mkTlsProfile (proto.tl_cert value) (proto.tl_private_key value) (proto.tl_root value)
            (tls_version (proto.tl_min_version value)) (tls_version (proto.tl_max_version value)) suites groups (proto.tl_mtls_mode value =? 1)%Z));
    match r with
    | Ok sc => mret sc
    | Err e => _ ← add_warning ("TLS certificate is invalid: " +:+ e); mret new_invalid
    end.

Definition tracing_config_from_proto (t : proto.Tracing) : CM TracingConfig :=
  attributes ← collect (named_expression "frontend.tracing.attributes.") (proto.tg_attributes t);
  resources ← collect (named_expression "frontend.tracing.resources.") (proto.tg_resources t);
  random ← transpose (permissive_cel_expression "frontend.tracing.randomSampling") (proto.tg_random_sampling t);
  client ← transpose (permissive_cel_expression "frontend.tracing.clientSampling") (proto.tg_client_sampling t);
  mret (mkTracingConfig (resolve_simple_reference (proto.tg_provider_backend t)) (os_from_iter attributes) (os_from_iter resources) (proto.tg_remove t)
          random client (default "/v1/traces" (proto.tg_path t)) (if (proto.tg_protocol t =? 1)%Z then ProtocolGrpc else ProtocolHttp)).

Definition otlp_access_log_from (oal : proto.OtlpAccessLog) : CM (OtlpLoggingConfig (P := BackendTrafficPolicy)) :=
  policies ← collect backend_policy_from_proto (proto.ol_inline_policies oal);
  mret (mkOtlpLoggingConfig _ (resolve_simple_reference (proto.ol_provider_backend oal)) policies
          (if (proto.ol_protocol oal =? 1)%Z then ProtocolGrpc else ProtocolHttp) (default "/v1/logs" (proto.ol_path oal))).

(** The arm of [Logging]. *)
Definition logging_from_proto (p : proto.Logging) : CM LoggingPolicy :=
  fields ← transpose (λ f, add ← collect (named_expression "frontend.logging.fields.add.") (proto.lf_add f);
                           mret (os_from_iter add, proto.lf_remove f)) (proto.lo_fields p);
  let '(add, rm) := default (os_from_iter [], []) fields in
  otlp ← transpose otlp_access_log_from (proto.lo_otlp_access_log p);
  filter ← transpose (permissive_cel_expression "frontend.logging.filter") (proto.lo_filter p);
  mret (logging_policy_new (mkLoggingPolicy _ filter add (list_to_set rm) otlp)).

Definition frontend_policy_from_proto (spec : option proto.FrontendKind) : CM FrontendPolicy :=
  match spec with
  | Some (proto.FKHttp h) =>
      idle ← transpose convert_duration (proto.fh_http1_idle_timeout h);
      ki ← transpose convert_duration (proto.fh_http2_keepalive_interval h);
      kt ← transpose convert_duration (proto.fh_http2_keepalive_timeout h);
      md ← transpose convert_duration (proto.fh_max_connection_duration h);
      mret (FPHTTP (mkFrontendHTTP (default 2097152%Z (proto.fh_max_buffer_size h)) (proto.fh_http1_max_headers h) (default (secs 600) idle)
        (proto.fh_http2_window_size h) (proto.fh_http2_connection_window_size h) (proto.fh_http2_frame_size h) (proto.fh_http2_max_header_size h) ki kt md))
  | Some (proto.FKTls t) =>
      timeout ← transpose convert_duration (proto.ft_handshake_timeout t);
      suites ← convert_tls_cipher_suites (proto.ft_cipher_suites t);
      groups ← convert_tls_key_exchange_groups (proto.ft_key_exchange_groups t);
      mret (FPTLS (mkFrontendTLS (default (secs 15) timeout) (proto.ft_alpn t) (tls_version (proto.ft_min_version t)) (tls_version (proto.ft_max_version t)) suites groups))
  | Some (proto.FKTcp k) => k ← keepalive_or_default k; mret (FPTCP k)
  | Some (proto.FKNetworkAuthorization r) => p ← compile_rules "frontend.networkAuthorization" r; mret (FPNetworkAuthorization p)
  | Some (proto.FKProxyProtocol version mode) =>
      mret (FPProxy (match version with 1%Z => ProxyV1 | 2%Z => ProxyAll | _ => ProxyV2 end, if (mode =? 1)%Z then ProxyOptional else ProxyStrict))
  | Some (proto.FKLogging l) => p ← logging_from_proto l; mret (FPAccessLog p)
  | Some (proto.FKTracing t) => p ← tracing_config_from_proto t; mret (FPTracing p)
  | Some (proto.FKMetrics fields) =>
      add ← transpose (λ f, l ← collect (named_expression "frontend.metrics.fields.add.") f; mret (os_from_iter l)) fields;
      mret (FPMetrics (default (os_from_iter []) add))
  | None => throw MissingRequiredField
  end.

(** ** Targets and conditional policies *)

Definition policy_target_from_proto (t : proto.PolicyTarget) : CM PolicyTarget :=
  match t with
  | Some (proto.TGGateway name namespace listener port) =>
      p ← transpose (λ p, if (p <=? 65535)%Z then mret p else throw (Generic ("gateway target port out of range: " +:+ pretty p))) port;
      mret (PTGateway name namespace listener p)
  | Some (proto.TGRoute name namespace rule kind) => mret (PTRoute name namespace rule (non_empty kind))
  | Some (proto.TGBackend name namespace section) => mret (PTBackendT (BTBackend name namespace section))
  | Some (proto.TGService namespace hostname port) => mret (PTBackendT (BTService hostname namespace (as_u16 <$> port)))
  | Some (proto.TGListenerSet name namespace section) => mret (PTListenerSet name namespace section)
  | None => throw MissingRequiredField
  end.

Definition traffic_policy_kind_name (p : TrafficPolicy) : string :=
  match p with
  | TPTimeout _ => "timeout" | TPRetry _ => "retry" | TPAI _ => "ai" | TPAuthorization _ => "authorization"
  | TPLocalRateLimit _ => "localRateLimit" | TPRemoteRateLimit _ => "remoteRateLimit" | TPExtAuthz _ => "extAuthz" | TPExtProc _ => "extProc"
  | TPJwtAuth _ => "jwt" | TPOidc _ => "oidc" | TPBasicAuth _ => "basicAuth" | TPAPIKey _ => "apiKey"
  | TPTransformation _ => "transformation" | TPCsrf _ => "csrf" | TPRequestHeaderModifier _ => "requestHeaderModifier"
  | TPResponseHeaderModifier _ => "responseHeaderModifier" | TPRequestRedirect _ => "requestRedirect" | TPUrlRewrite _ => "urlRewrite"
  | TPHostRewrite _ => "hostRewrite" | TPRequestMirror _ => "requestMirror" | TPDirectResponse _ => "directResponse" | TPCORS _ => "cors"
  end.

(** The macro [build]: the policies of every entry, with its condition. *)
Fixpoint build_inners {T} (variant : TrafficPolicy → option (RequestPolicy T)) (policies : list (option Expression * (PolicyPhase * TrafficPolicy)))
    : CM (list (PolicyWithCondition T)) :=
  match policies with
  | [] => mret []
  | (condition, (_, p)) :: policies' =>
      rp ← of_option (Generic "conditional policies must all have the same traffic policy kind") (variant p);
      rest ← build_inners variant policies';
      mret (((λ inner, mkPWC (pol inner) condition) <$> rp_iter rp) ++ rest)
  end.

Definition build_policy {T} (mk : RequestPolicy T → TrafficPolicy) (variant : TrafficPolicy → option (RequestPolicy T))
    (policies : list (option Expression * (PolicyPhase * TrafficPolicy))) : CM TrafficPolicy :=
  inners ← build_inners variant policies; mret (mk (from_policy_inners inners)).

Definition conditional_traffic_policy_to_policy (policies : list (option Expression * (PolicyPhase * TrafficPolicy))) : CM TrafficPolicy :=
  '(_, (_, first)) ← unwrap (head policies);
  match first with
  | TPExtAuthz _ => build_policy TPExtAuthz (λ p, match p with TPExtAuthz r => Some r | _ => None end) policies
  | TPExtProc _ => build_policy TPExtProc (λ p, match p with TPExtProc r => Some r | _ => None end) policies
  | TPLocalRateLimit _ => build_policy TPLocalRateLimit (λ p, match p with TPLocalRateLimit r => Some r | _ => None end) policies
  | TPRemoteRateLimit _ => build_policy TPRemoteRateLimit (λ p, match p with TPRemoteRateLimit r => Some r | _ => None end) policies
  | TPJwtAuth _ => build_policy TPJwtAuth (λ p, match p with TPJwtAuth r => Some r | _ => None end) policies
  | TPOidc _ => build_policy TPOidc (λ p, match p with TPOidc r => Some r | _ => None end) policies
  | TPBasicAuth _ => build_policy TPBasicAuth (λ p, match p with TPBasicAuth r => Some r | _ => None end) policies
  | TPAPIKey _ => build_policy TPAPIKey (λ p, match p with TPAPIKey r => Some r | _ => None end) policies
  | TPTransformation _ => build_policy TPTransformation (λ p, match p with TPTransformation r => Some r | _ => None end) policies
  | TPCsrf _ => build_policy TPCsrf (λ p, match p with TPCsrf r => Some r | _ => None end) policies
  | TPRequestHeaderModifier _ => build_policy TPRequestHeaderModifier (λ p, match p with TPRequestHeaderModifier r => Some r | _ => None end) policies
  | TPRequestRedirect _ => build_policy TPRequestRedirect (λ p, match p with TPRequestRedirect r => Some r | _ => None end) policies
  | TPUrlRewrite _ => build_policy TPUrlRewrite (λ p, match p with TPUrlRewrite r => Some r | _ => None end) policies
  | TPDirectResponse _ => build_policy TPDirectResponse (λ p, match p with TPDirectResponse r => Some r | _ => None end) policies
  | TPCORS _ => build_policy TPCORS (λ p, match p with TPCORS r => Some r | _ => None end) policies
  | other => throw (Generic ("conditional traffic policy kind " +:+ traffic_policy_kind_name other +:+ " is not supported"))
  end.

Definition phase_debug (p : PolicyPhase) : string := match p with PhaseRoute => "Route" | PhaseGateway => "Gateway" end.

(** The loop of [conditional_policy_from_proto]; [shape] is [expected_shape]. *)
Fixpoint conditional_loop (shape : option (string * PolicyPhase)) (policies : list proto.ConditionalPolicy)
    (traffic : list (option Expression * (PolicyPhase * TrafficPolicy)))
    : CM (option (string * PolicyPhase) * list (option Expression * (PolicyPhase * TrafficPolicy))) :=
  match policies with
  | [] => mret (shape, traffic)
  | policy :: policies' =>
      spec ← of_option MissingRequiredField (proto.cp_kind policy);
      '(phase, tp) ← phased_traffic_policy_from_proto spec;
      let kind := traffic_policy_kind_name tp in
      shape' ← match shape with
               | Some (expected_kind, expected_phase) =>
                   if decide (expected_kind ≠ kind) then
                     throw (Generic ("conditional policies must all have the same traffic policy kind; found " +:+ kind +:+ ", expected " +:+ expected_kind))
                   else if decide (expected_phase ≠ phase) then
                     throw (Generic ("conditional policies must all have the same traffic policy phase; found " +:+ phase_debug phase +:+ ", expected " +:+ phase_debug expected_phase))
                   else mret (Some (expected_kind, expected_phase))
               | None => mret (Some (kind, phase))
               end;
      condition ← transpose (permissive_cel_expression "policy.conditional.condition") (proto.cp_condition policy);
      conditional_loop shape' policies' (traffic ++ [(condition, (phase, tp))])
  end.

Definition conditional_policy_from_proto (cond : list proto.ConditionalPolicy) : CM PolicyType :=
  '(shape, traffic) ← conditional_loop None cond [];
  match traffic, shape with
  | [], _ => throw MissingRequiredField
  | _, None => throw MissingRequiredField
  | _, Some (_, phase) => p ← conditional_traffic_policy_to_policy traffic; mret (PTTraffic phase p)
  end.

Definition targeted_policy_from_proto (p : proto.Policy) : CM TargetedPolicy :=
  t ← of_option MissingRequiredField (proto.po_target p);
  target ← policy_target_from_proto t;
  policy ← match proto.po_kind p with
           | Some (proto.PKTraffic spec) => '(phase, tp) ← phased_traffic_policy_from_proto spec; mret (PTTraffic phase tp)
           | Some (proto.PKBackend spec) => b ← backend_policy_from_proto spec; mret (PTBackend b)
           | Some (proto.PKFrontend spec) => f ← frontend_policy_from_proto spec; mret (PTFrontend f)
           | Some (proto.PKConditional cond) => conditional_policy_from_proto cond
           | None => throw MissingRequiredField
           end;
  mret (mkTargetedPolicy (proto.po_key p) target policy).

(** ** Binds, listeners and routes *)

Definition Bind_from_xds (s : proto.Bind) (ipv6_enabled : bool) : CM Bind :=
  let address := mkSocketAddr (if ipv6_enabled then V6 0 else V4 0) (as_u16 (proto.bi_port s)) in
  protocol ← match proto.bi_protocol s with 0%Z => mret BPhttp | 1%Z => mret BPtcp | 2%Z => mret BPtls | n => throw (EnumError n) end;
  tunnel ← match proto.bi_tunnel_protocol s with
           | 0%Z => mret TPDirect | 1%Z => mret TPProxy | 2%Z => mret TPHboneWaypoint | 3%Z => mret TPHboneGateway | n => throw (EnumError n)
           end;
  mret (mkBind (proto.bi_key s) address protocol tunnel ∅).

(** The names of [Protocol], for messages. *)
Definition protocol_debug (n : Z) : string :=
  match n with 0%Z => "Unknown" | 1%Z => "Http" | 2%Z => "Https" | 3%Z => "Tls" | 4%Z => "Tcp" | _ => "Hbone" end.

Definition listener_protocol_from_proto (protocol : Z) (tls : option proto.TlsConfig) : CM ListenerProtocol :=
  match protocol, tls with
  | 0%Z, _ => throw (EnumParse "unknown protocol")
  | 1%Z, None => mret LP_HTTP
  | 2%Z, Some tls => c ← server_tls_config_from_proto tls; mret (LP_HTTPS c)
  | 3%Z, Some tls => c ← server_tls_config_from_proto tls; mret (LP_TLS (Some c))
  | 3%Z, None => mret (LP_TLS None)
  | 4%Z, None => mret LP_TCP
  | 5%Z, None => mret LP_HBONE
  | _, _ => throw (Generic ("protocol " +:+ protocol_debug protocol +:+ " is incompatible with " +:+
                            match tls with Some _ => "tls" | None => "no tls config" end))
  end.

Definition Listener_from_xds (s : proto.Listener) : CM (Listener * string) :=
  p ← (if (0 <=? proto.li_protocol s)%Z && (proto.li_protocol s <=? 5)%Z then mret (proto.li_protocol s) else throw (EnumError (proto.li_protocol s)));
  protocol ← map_error (λ e, Generic (error_display e)) (listener_protocol_from_proto p (proto.li_tls s));
  name ← of_option MissingRequiredField (proto.li_name s);
  mret (mkListener (proto.li_key s) (listener_name_from name) (proto.li_hostname s) protocol, proto.li_bind_key s).

Definition TCPRoute_from_xds (s : proto.TcpRoute) : CM (TCPRoute * string) :=
  name ← of_option MissingRequiredField (proto.tr_name s);
  mret (mkTCPRoute (proto.tr_key s) (service_key_from_proto (proto.tr_service_key s)) (route_name_from name) (proto.tr_hostnames s)
          ((λ b, mkTRBR (as_u64 (proto.rb_weight b)) (resolve_simple_reference (proto.rb_backend b)) []) <$> proto.tr_backends s),
        proto.tr_listener_key s).

Definition route_backend_reference_from_proto (s : proto.RouteBackend) : CM RouteBackendReference :=
  policies ← collect backend_policy_from_proto (proto.rb_backend_policies s);
  let target := match proto.rb_route_group_key s with
                | Some rgk => RBRouteGroup rgk
                | None => route_backend_target_of (resolve_reference (proto.rb_backend s))
                end in
  mret (mkRBR (as_u64 (proto.rb_weight s)) target policies).

Definition Route_from_xds (s : proto.Route) : CM (Route * string * option string) :=
  name ← of_option MissingRequiredField (proto.ro_name s);
  matches ← collect route_match_from_proto (proto.ro_matches s);
  backends ← collect route_backend_reference_from_proto (proto.ro_backends s);
  policies ← collect traffic_policy_from_proto (proto.ro_traffic_policies s);
  mret (mkRoute (proto.ro_key s) (service_key_from_proto (proto.ro_service_key s)) (route_name_from name) (proto.ro_hostnames s) matches backends policies,
        proto.ro_listener_key s, k ← proto.ro_route_group_key s; non_empty k).

(** ** Backends *)

Inductive AIProvider :=
| OpenAI (model : option string) | Gemini (model : option string) | Vertex (model region : option string) (project_id : string)
| Anthropic (model : option string) | Bedrock (model : option string) (region : string) (guardrail_identifier guardrail_version : option string)
| Azure (model : option string) (resource_name : string) (foundry : bool) (api_version project_name : option string).

(** [NamedAIProvider]; [tokenize] is false. *)
Record NamedAIProvider := mkNamedAIProvider {
  np_name : string; np_provider : AIProvider; np_host_override : option Target; np_path_override : option string; np_path_prefix : option string;
  np_inline_policies : list BackendTrafficPolicy;
}.

Inductive McpTargetSpec := TSse (backend : SimpleBackendReference) (path : string) | TMcp (backend : SimpleBackendReference) (path : string).

Record McpBackend := mkMcpBackend {
  mb_targets : list (string * McpTargetSpec); mb_stateful : bool; mb_always_use_prefix : bool; mb_failure_mode : MergeStream.FailureMode; mb_session_idle_ttl : Z;
}.

(** [Backend], with its name; of an AI backend the groups that become its
    endpoint set. *)
Inductive Backend :=
| BOpaque (name : ResourceName) (target : Target) | BDynamic (name : ResourceName) | BAws (name : ResourceName) (agent_core : AgentCoreConfig)
| BAI (name : ResourceName) (providers : list (list (string * NamedAIProvider))) | BMCP (name : ResourceName) (m : McpBackend).

Record BackendWithPolicies := mkBackendWithPolicies { bwp_backend : Backend; bwp_inline_policies : list BackendTrafficPolicy }.

Definition ai_provider_from_proto (idx : nat) (p : option proto.ProviderKind) : CM AIProvider :=
  match p with
  | Some (proto.POpenai model) => mret (OpenAI model)
  | Some (proto.PGemini model) => mret (Gemini model)
  | Some (proto.PVertex model region project) => mret (Vertex model (non_empty region) project)
  | Some (proto.PAnthropic model) => mret (Anthropic model)
  | Some (proto.PBedrock model region gi gv) => mret (Bedrock model region gi gv)
  | Some (proto.PAzure name type model version project) => mret (Azure model name (type =? 1)%Z version project)
  | Some proto.PAzureopenai => throw (Generic ("AI backend provider at index " +:+ pretty idx +:+ " uses deprecated azureOpenAI format; use azure instead"))
  | None => throw (Generic ("AI backend provider at index " +:+ pretty idx +:+ " is required"))
  end.

Definition named_provider_from_proto (ip : nat * proto.Provider) : CM (string * NamedAIProvider) :=
  let '(idx, p) := ip in
  pols ← collect backend_policy_from_proto (proto.pr_inline_policies p);
  provider ← ai_provider_from_proto idx (proto.pr_provider p);
  let name := default "default" (non_empty (proto.pr_name p)) in
  mret (name, mkNamedAIProvider name provider ((λ o, target_from o.1 (as_u16 o.2)) <$> proto.pr_host_override p) (proto.pr_path_override p)
                (proto.pr_path_prefix p) pols).

Definition provider_groups_from_proto (groups : list (list proto.Provider)) : CM (list (list (string * NamedAIProvider))) :=
  match groups with
  | [] => throw (Generic "AI backend must have at least one provider group")
  | _ =>
      gs ← collect (λ g, collect named_provider_from_proto (zip (seq 0 (length g)) g)) groups;
      match filter (λ g, g ≠ []) gs with
      | [] => throw (Generic "AI backend must have at least one non-empty provider group")
      | gs => mret gs
      end
  end.

Context (mcp_name_error : string → string).

Definition mcp_target_from_proto (s : proto.McpTarget) : CM (string * McpTargetSpec) :=
  let backend := resolve_simple_reference (proto.mt_backend s) in
  p ← (if (0 <=? proto.mt_protocol s)%Z && (proto.mt_protocol s <=? 2)%Z then mret (proto.mt_protocol s) else throw (EnumError (proto.mt_protocol s)));
  _ ← (if validate_mcp_target_name (proto.mt_name s) then mret () else throw (Generic (mcp_name_error (proto.mt_name s))));
  mret (proto.mt_name s,
        if (p =? 1)%Z then TSse backend (default "/sse" (non_empty (proto.mt_path s))) else TMcp backend (default "/mcp" (non_empty (proto.mt_path s)))).

Definition DEFAULT_SESSION_IDLE_TTL : Z := secs 1800.

Definition backend_with_policies_from_proto (s : proto.Backend) : CM BackendWithPolicies :=
  pols ← collect backend_policy_from_proto (proto.bk_inline_policies s);
  name ← of_option MissingRequiredField (proto.bk_name s);
  let name := resource_name_from name in
  backend ← match proto.bk_kind s with
            | Some (proto.BStatic host port unix_path) =>
                mret (BOpaque name (match non_empty unix_path with Some p => TUnixSocket p | None => target_from host (as_u16 port) end))
            | Some proto.BDynamic => mret (BDynamic name)
            | Some (proto.BAws (Some (arn, qualifier))) => c ← of_result (map_err Generic (agent_core_new arn qualifier)); mret (BAws name c)
            | Some (proto.BAws None) => throw (Generic "AwsBackend: missing service")
            | Some (proto.BAi groups) => gs ← provider_groups_from_proto groups; mret (BAI name gs)
            | Some (proto.BMcp targets stateful prefix failure) =>
                ts ← collect mcp_target_from_proto targets;
                mret (BMCP name (mkMcpBackend ts (negb (stateful =? 1)%Z) (prefix =? 1)%Z
                                   (if (failure =? 1)%Z then MergeStream.FailOpen else MergeStream.FailClosed) DEFAULT_SESSION_IDLE_TTL))
            | None => throw (Generic "unknown backend")
            end;
  mret (mkBackendWithPolicies backend pols).

(** ** As the store uses them *)

Definition run_conversion {A} (m : CM A) : outcome (list string * result A string) :=
  '(ws, r) ← m []; Ret (ws, match r with Ok a => Ok a | Err e => Err (error_display e) end).

Definition agent_conv : XdsConv BackendWithPolicies :=
  {| XdsBind := proto.Bind; XdsListener := proto.Listener; XdsRoute := proto.Route; XdsTcpRoute := proto.TcpRoute; XdsBackend := proto.Backend;
     XdsPolicy := proto.Policy;
     xb_key := proto.bi_key; xl_key := proto.li_key; xr_key := proto.ro_key; xt_key := proto.tr_key; xk_key := proto.bk_key; xp_key := proto.po_key;
     bind_from_xds b ipv6 := run_conversion (Bind_from_xds b ipv6);
     listener_from_xds l := run_conversion (Listener_from_xds l);
     route_from_xds r := run_conversion (Route_from_xds r);
     tcp_route_from_xds r := run_conversion (TCPRoute_from_xds r);
     backend_from_proto b := run_conversion (backend_with_policies_from_proto b);
     policy_from_proto p := run_conversion (targeted_policy_from_proto p) |}.
End conversions.
