(* ===== verification/AgentXdsFacts.v ===== *)
(** * Facts about the conversion of messages

    What is rejected does not depend on which expressions compile; what does not
    compile never matches, and what it does to authorization; when a conversion
    panics; the policies a conditional policy is made of; and the store with
    these conversions. *)
From stdpp Require Import base gmap strings list pretty.
From Stdlib Require Import ZArith.
From S2P Require Import Prelude RustStd XdsClient Authorization AgentTypes RouteSet TcpRouteSet BindStore BindStoreFacts PolicyResolution RouteSelect HttpRequest Rewrite Htpasswd Auth RateLimit Cors Replay Pipeline EnvoyHeaders ExtAuthz Transformation RemoteLimit ExtProc MergeStream Mcp XdsProto PolicyTypes AgentXds.

Local Open Scope string_scope.
Local Open Scope list_scope.

(** ** Conversions that decide alike *)

(** Both succeed, with related results; or both fail with the same error; or
    both panic. *)
Definition agree {A B} (R : A → B → Prop) (m1 : CM A) (m2 : CM B) : Prop :=
  ∀ ws1 ws2,
    match m1 ws1, m2 ws2 with
    | Ret (_, Ok a), Ret (_, Ok b) => R a b
    | Ret (_, Err e1), Ret (_, Err e2) => e1 = e2
    | Panic, Panic => True
    | _, _ => False
    end.

Lemma agree_ret {A B} (R : A → B → Prop) a b : R a b → agree R (mret a) (mret b).
Proof. intros H ws1 ws2. exact H. Qed.

Lemma agree_bind {A B C D} (R : A → B → Prop) (S : C → D → Prop) m1 m2 (k1 : A → CM C) (k2 : B → CM D) :
  agree R m1 m2 → (∀ a b, R a b → agree S (k1 a) (k2 b)) → agree S (m1 ≫= k1) (m2 ≫= k2).
Proof.
  intros Hm Hk ws1 ws2. specialize (Hm ws1 ws2). unfold mbind, cm_bind.
  destruct (m1 ws1) as [[w1 [a|e1]]|], (m2 ws2) as [[w2 [b|e2]]|]; simpl; try done. by apply Hk.
Qed.

Lemma agree_mono {A B} (R S : A → B → Prop) m1 m2 : (∀ a b, R a b → S a b) → agree R m1 m2 → agree S m1 m2.
Proof.
  intros HRS H ws1 ws2. specialize (H ws1 ws2). destruct (m1 ws1) as [[w1 [a|e1]]|], (m2 ws2) as [[w2 [b|e2]]|]; auto.
Qed.

Lemma agree_throw {A B} (R : A → B → Prop) e : agree R (throw e) (throw e).
Proof. intros ws1 ws2. done. Qed.

Lemma agree_of_result {A} (r : result A ProtoError) : agree eq (of_result r) (of_result r).
Proof. intros ws1 ws2. unfold of_result. by destruct r. Qed.

Lemma agree_of_option {A} e (o : option A) : agree eq (of_option e o) (of_option e o).
Proof. apply agree_of_result. Qed.

Lemma agree_unwrap {A} (o : option A) : agree eq (unwrap o) (unwrap o).
Proof. intros ws1 ws2. unfold unwrap. by destruct o. Qed.

Lemma agree_of_outcome {A} (o : outcome A) : agree eq (of_outcome o) (of_outcome o).
Proof. intros ws1 ws2. unfold of_outcome. by destruct o. Qed.

Lemma agree_attempt {A B} (R : A → B → Prop) m1 m2 : agree R m1 m2 → agree (option_Forall2 R) (attempt m1) (attempt m2).
Proof.
  intros H ws1 ws2. specialize (H ws1 ws2). unfold attempt.
  destruct (m1 ws1) as [[w1 [a|e1]]|], (m2 ws2) as [[w2 [b|e2]]|]; simpl; try done; by constructor.
Qed.

Lemma agree_warning w1 w2 : agree eq (add_warning w1) (add_warning w2).
Proof. intros ws1 ws2. done. Qed.

Lemma agree_collect_in {A B C} (R : B → C → Prop) (f1 : A → CM B) (f2 : A → CM C) l :
  (∀ a, a ∈ l → agree R (f1 a) (f2 a)) → agree (Forall2 R) (collect f1 l) (collect f2 l).
Proof.
  induction l as [|a l IH]; intros Hf; simpl; [by apply agree_ret|].
  eapply agree_bind; [apply Hf; by left|]. intros b c Hbc.
  eapply agree_bind; [apply IH; intros; apply Hf; by right|]. intros bs cs Hs. apply agree_ret. by constructor.
Qed.

Lemma agree_collect {A B C} (R : B → C → Prop) (f1 : A → CM B) (f2 : A → CM C) l :
  (∀ a, agree R (f1 a) (f2 a)) → agree (Forall2 R) (collect f1 l) (collect f2 l).
Proof. intros Hf. apply agree_collect_in. auto. Qed.

Lemma agree_transpose {A B C} (R : B → C → Prop) (f1 : A → CM B) (f2 : A → CM C) o :
  (∀ a, agree R (f1 a) (f2 a)) → agree (option_Forall2 R) (transpose f1 o) (transpose f2 o).
Proof.
  intros Hf. destruct o as [a|]; simpl; [|by apply agree_ret; constructor].
  eapply agree_bind; [apply Hf|]. intros b c Hbc. apply agree_ret. by constructor.
Qed.

Lemma agree_map_error {A B} (R : A → B → Prop) f m1 m2 : agree R m1 m2 → agree R (map_error f m1) (map_error f m2).
Proof.
  intros H ws1 ws2. specialize (H ws1 ws2). unfold map_error.
  destruct (m1 ws1) as [[w1 [a|e1]]|], (m2 ws2) as [[w2 [b|e2]]|]; simpl; try done. by f_equal.
Qed.

(** Any results will do. *)
Definition any {A B} (a : A) (b : B) : Prop := True.

Lemma agree_filter_collect {A B C} (f1 : A → CM (option B)) (f2 : A → CM (option C)) l :
  (∀ a, a ∈ l → agree any (f1 a) (f2 a)) → agree any (filter_collect f1 l) (filter_collect f2 l).
Proof.
  induction l as [|a l IH]; intros Hf; simpl; [by apply agree_ret|].
  eapply agree_bind; [apply Hf; by left|]. intros b c _.
  eapply agree_bind; [apply IH; intros; apply Hf; by right|]. intros bs cs _. by apply agree_ret.
Qed.

Create HintDb agree.
#[export] Hint Resolve agree_throw agree_of_result agree_of_option agree_unwrap agree_of_outcome agree_warning : agree.

(** One step through two conversions that look alike. *)
Ltac agree_step :=
  match goal with
  | |- agree _ (mret _) (mret _) => apply agree_ret; first [done | exact (I : any _ _) | split; done | idtac]
  | |- agree _ (throw _) (throw _) => apply agree_throw
  | |- agree _ (_ ≫= _) (_ ≫= _) => eapply agree_bind; [|intros ??]
  | |- agree _ (match ?x with _ => _ end) (match ?x with _ => _ end) => destruct x
  | |- agree _ (collect _ _) (collect _ _) => apply agree_collect; intros ?
  | |- agree any (filter_collect _ _) (filter_collect _ _) => apply agree_filter_collect; intros ??
  | |- agree _ (transpose _ _) (transpose _ _) => apply agree_transpose; intros ?
  | |- agree _ (map_error _ _) (map_error _ _) => apply agree_map_error
  | |- agree _ _ _ => first [solve [eauto with agree] | solve [eapply agree_mono; [|eauto with agree]; done]]
  | |- any _ _ → _ => intros _
  | |- _ = _ → _ => intros ->
  | |- _ → agree _ _ _ => intros ?
  end.
Ltac agree_solve := repeat (agree_step; cbv beta zeta); try done.

Section compilers.
Context {UC : UriCrate} {HC : HttpCrate} {RE : RegexEngine} {MC : MessageCrate} {CE : CelEngine} {HO : HashOrder}.
Context {CK : CookieCrate} {JW : JsonWebToken} {HS : HashCrates} {OM : OpaqueMessages} {OP : OpaquePolicies}.
Context {CC : ConfigCrates} {OC : OpaqueConversions}.
#[local] Hint Extern 0 Payloads => exact (gateway_payloads (CE := CE)) : typeclass_instances.
Context (now : Z) (error_display : ProtoError → string) (mcp_name_error : string → string).
(** Two gateways, which can compile different expressions. *)
Context (C1 C2 : Compilers).

Lemma permissive_agree c s : agree any (permissive_cel_expression (CO := C1) c s) (permissive_cel_expression (CO := C2) c s).
Proof.
  unfold permissive_cel_expression, new_permissive. intros ws1 ws2.
  destruct (@new_strict _ _ C1 s), (@new_strict _ _ C2 s); done.
Qed.

Lemma regex_agree c s : agree any (regex_or_warn_invalid (CO := C1) c s) (regex_or_warn_invalid (CO := C2) c s).
Proof.
  unfold regex_or_warn_invalid. intros ws1 ws2. destruct (@regex_new _ _ C1 s), (@regex_new _ _ C2 s); done.
Qed.
#[local] Hint Resolve permissive_agree regex_agree : agree.

Lemma duration_agree d : agree eq (duration d) (duration d).
Proof. unfold duration. agree_solve. Qed.
Lemma convert_duration_agree d : agree eq (convert_duration d) (convert_duration d).
Proof. unfold convert_duration. agree_solve. Qed.
#[local] Hint Resolve duration_agree convert_duration_agree : agree.

Lemma named_expression_agree c kv : agree any (named_expression (CO := C1) c kv) (named_expression (CO := C2) c kv).
Proof. unfold named_expression. agree_solve. Qed.
#[local] Hint Resolve named_expression_agree : agree.

Lemma header_match_agree c l : agree any (convert_header_match (CO := C1) c l) (convert_header_match (CO := C2) c l).
Proof.
  unfold convert_header_match. eapply agree_mono; [|apply agree_collect with (R := any)]; [done|]. intros h. agree_solve.
Qed.
#[local] Hint Resolve header_match_agree : agree.

Lemma route_match_agree m : agree any (route_match_from_proto (CO := C1) error_display m) (route_match_from_proto (CO := C2) error_display m).
Proof.
  unfold route_match_from_proto, path_match_from_proto. eapply agree_bind with (R := any); [agree_solve|]. intros p1 p2 _.
  eapply agree_bind; [apply agree_map_error, header_match_agree|]. intros h1 h2 _.
  eapply agree_bind; [apply agree_collect with (R := any); intros q; unfold query_match_from_proto; agree_solve|]. intros q1 q2 _. by apply agree_ret.
Qed.

Lemma rules_agree c r : agree any (compile_rules (CO := C1) c r) (compile_rules (CO := C2) c r).
Proof. unfold compile_rules. agree_solve. Qed.
#[local] Hint Resolve route_match_agree rules_agree : agree.

Lemma location_agree c l d1 d2 : agree any (authorization_location (CO := C1) c l d1) (authorization_location (CO := C2) c l d2).
Proof. unfold authorization_location. agree_solve. Qed.
#[local] Hint Resolve location_agree : agree.

Lemma included_headers_agree l : agree eq (included_headers l) (included_headers l).
Proof.
  induction l as [|s l IH]; simpl; [by apply agree_ret|]. destruct (header_or_pseudo_try_from s).
  - eapply agree_bind; [exact IH|]. intros ?? ->. by apply agree_ret.
  - eapply agree_bind; [apply agree_warning|]. intros ?? _. exact IH.
Qed.

Lemma external_auth_agree e : agree any (external_auth_from_proto (CO := C1) e) (external_auth_from_proto (CO := C2) e).
Proof.
  unfold external_auth_from_proto, auth_protocol_from_proto. eapply agree_bind; [apply agree_of_option|]. intros p ? <-.
  eapply agree_bind with (R := any); [destruct p; agree_solve|]. intros p1 p2 _.
  eapply agree_bind; [apply included_headers_agree|]. intros h ? <-. by apply agree_ret.
Qed.
#[local] Hint Resolve external_auth_agree : agree.

Lemma retry_agree r : agree eq (retry_from_proto r) (retry_from_proto r).
Proof.
  unfold retry_from_proto. eapply agree_bind; [apply agree_transpose, duration_agree|]. intros a b Hab.
  assert (a = b) as -> by (destruct Hab; congruence).
  eapply agree_bind; [apply agree_collect; intros c; apply agree_of_option|]. intros l l' Hl.
  assert (l = l') as -> by (induction Hl; congruence). by apply agree_ret.
Qed.

Lemma local_rate_limit_agree l : agree eq (local_rate_limit_from_proto now l) (local_rate_limit_from_proto now l).
Proof.
  unfold local_rate_limit_from_proto. eapply agree_bind with (R := eq); [agree_solve|]. intros t ? <-.
  eapply agree_bind; [apply agree_of_option|]. intros i ? <-. eapply agree_bind; [apply duration_agree|]. intros d ? <-. agree_solve.
Qed.

Lemma jwt_agree j : agree any (jwt_from_proto (CO := C1) j) (jwt_from_proto (CO := C2) j).
Proof.
  unfold jwt_from_proto. eapply agree_bind with (R := eq); [unfold jwt_mode_from_proto; agree_solve|]. intros m ? <-.
  eapply agree_bind with (R := any); [eapply agree_mono; [|apply agree_collect with (R := any)]; [done|]; intros p;
    unfold jwt_provider_from_proto; agree_solve|]. intros ps1 ps2 _.
  eapply agree_bind; [apply location_agree|]. intros l1 l2 _. eapply agree_bind with (R := any); [|intros; by apply agree_ret].
  unfold jwt_mode_from_proto. agree_solve.
Qed.

Lemma remote_rate_limit_agree r : agree any (remote_rate_limit_from_proto (CO := C1) r) (remote_rate_limit_from_proto (CO := C2) r).
Proof. unfold remote_rate_limit_from_proto, descriptor_from_proto. agree_solve. Qed.

Lemma ext_proc_agree e : agree any (ext_proc_from_proto (CO := C1) e) (ext_proc_from_proto (CO := C2) e).
Proof. unfold ext_proc_from_proto, to_cel_attrs. agree_solve. Qed.

Lemma redirect_agree r : agree eq (request_redirect_from_proto r) (request_redirect_from_proto r).
Proof.
  unfold request_redirect_from_proto, redirect_authority. eapply agree_bind; [agree_solve|]. intros a b Hab.
  assert (a = b) as -> by (destruct Hab; congruence). eapply agree_bind with (R := eq); [agree_solve|]. intros h ? <-.
  eapply agree_bind; [agree_solve|]. intros c d Hcd. assert (c = d) as -> by (destruct Hcd; congruence). by apply agree_ret.
Qed.

Lemma cors_agree c : agree any (cors_from_proto c) (cors_from_proto c).
Proof.
  unfold cors_from_proto. eapply agree_bind; [apply agree_transpose, duration_agree|]. intros a b Hab.
  assert (a = b) as -> by (destruct Hab; congruence). eapply agree_mono; [|apply agree_of_result]. done.
Qed.

Lemma basic_auth_agree b : agree any (basic_auth_from_proto (CO := C1) b) (basic_auth_from_proto (CO := C2) b).
Proof. unfold basic_auth_from_proto, credential_mode. agree_solve. Qed.

Lemma api_key_agree a : agree any (api_key_from_proto (CO := C1) a) (api_key_from_proto (CO := C2) a).
Proof. unfold api_key_from_proto, credential_mode. agree_solve. Qed.
#[local] Hint Resolve retry_agree local_rate_limit_agree jwt_agree remote_rate_limit_agree ext_proc_agree redirect_agree cors_agree basic_auth_agree
  api_key_agree : agree.

(** Transformations: the same verdict from both compilations. *)
Definition tm_agree {A} (m1 m2 : TM A) : Prop := ∀ ws1 ws2,
  match (m1 ws1).2, (m2 ws2).2 with Ok _, Ok _ => True | Err e1, Err e2 => e1 = e2 | _, _ => False end.

Lemma tm_agree_bind {A B} (m1 m2 : TM A) (k1 k2 : A → TM B) : tm_agree m1 m2 → (∀ a b, tm_agree (k1 a) (k2 b)) → tm_agree (m1 ≫= k1) (m2 ≫= k2).
Proof.
  intros Hm Hk ws1 ws2. specialize (Hm ws1 ws2). unfold mbind, tm_bind.
  destruct (m1 ws1) as [w1 [a|e1]], (m2 ws2) as [w2 [b|e2]]; simpl in *; try done. apply Hk.
Qed.

Lemma tm_agree_ret {A} (a b : A) : tm_agree (mret a) (mret b).
Proof. done. Qed.

Lemma tm_agree_option {A} e (o : option A) : tm_agree (tm_option e o) (tm_option e o).
Proof. intros ws1 ws2. by destruct o. Qed.

Lemma tm_agree_compile s : tm_agree (compile (CO := C1) false s) (compile (CO := C2) false s).
Proof. intros ws1 ws2. unfold compile, new_permissive. by destruct (@new_strict _ _ C1 s), (@new_strict _ _ C2 s). Qed.

Lemma tm_agree_collect {A B} (f g : A → TM B) l : (∀ a, tm_agree (f a) (g a)) → tm_agree (tm_collect f l) (tm_collect g l).
Proof. intros H. induction l as [|a l IH]; simpl; [done|]. apply tm_agree_bind; [done|]. intros. by apply tm_agree_bind. Qed.

Lemma transformer_agree t : tm_agree (transformer_try_from (CO := C1) false t) (transformer_try_from (CO := C2) false t).
Proof.
  unfold transformer_try_from, named_header.
  repeat first
    [ apply tm_agree_bind | apply tm_agree_ret | apply tm_agree_option | apply tm_agree_compile | apply tm_agree_collect | progress (intros; simpl)
    | match goal with |- tm_agree (tm_transpose _ ?o) _ => destruct o end ].
Qed.

Lemma transformation_agree t : agree any (transformation_from_proto (CO := C1) t) (transformation_from_proto (CO := C2) t).
Proof.
  intros ws1 ws2. unfold transformation_from_proto.
  set (config := mkLocalTransformationConfig _ _).
  assert (tm_agree (try_from_local_config_with_warnings (CO := C1) config false) (try_from_local_config_with_warnings (CO := C2) config false)) as H.
  { apply tm_agree_bind; [apply transformer_agree|]. intros. apply tm_agree_bind; [apply transformer_agree|done]. }
  specialize (H [] []). destruct (try_from_local_config_with_warnings (CO := C1) _ _ _) as [w1 [t1|e1]],
    (try_from_local_config_with_warnings (CO := C2) _ _ _) as [w2 [t2|e2]]; simpl in *; try done. by subst.
Qed.
#[local] Hint Resolve transformation_agree : agree.

Definition same_kind (p1 p2 : TrafficPolicy) : Prop := traffic_policy_kind_name p1 = traffic_policy_kind_name p2.

Lemma traffic_policy_agree s : agree same_kind (traffic_policy_from_proto (CO := C1) now s) (traffic_policy_from_proto (CO := C2) now s).
Proof. unfold traffic_policy_from_proto, authorization_from_proto. agree_solve. Qed.

Lemma phased_agree s :
  agree (λ p1 p2, p1.1 = p2.1 ∧ same_kind p1.2 p2.2)
    (phased_traffic_policy_from_proto (CO := C1) now s) (phased_traffic_policy_from_proto (CO := C2) now s).
Proof.
  unfold phased_traffic_policy_from_proto. eapply agree_bind; [apply traffic_policy_agree|]. intros p1 p2 Hp.
  eapply agree_bind with (R := eq); [agree_solve|]. intros ph ? <-. by apply agree_ret.
Qed.

Lemma keepalive_agree k : agree any (keepalive_or_default k) (keepalive_or_default k).
Proof. unfold keepalive_or_default, keepalive_from. agree_solve. Qed.

Lemma health_agree c e : agree any (convert_health (CO := C1) c e) (convert_health (CO := C2) c e).
Proof. unfold convert_health. agree_solve. Qed.

Lemma mcp_authentication_agree m : agree any (mcp_authentication_from_proto m) (mcp_authentication_from_proto m).
Proof. unfold mcp_authentication_from_proto, jwt_mode_from_proto. destruct (Str.is_empty _); agree_solve. Qed.

Lemma backend_auth_agree a : agree any (backend_auth_from_proto a) (backend_auth_from_proto a).
Proof. unfold backend_auth_from_proto, azure_auth_from_proto, optional_authorization_location. agree_solve. Qed.
#[local] Hint Resolve keepalive_agree health_agree mcp_authentication_agree backend_auth_agree : agree.

Lemma known_numbers_agree what n l : agree eq (known_numbers what n l) (known_numbers what n l).
Proof.
  induction l as [|a l IH]; simpl; [by apply agree_ret|]. destruct (a =? 0)%Z; [exact IH|].
  destruct (_ && _); (eapply agree_bind; [|intros ??]); [exact IH|intros ->; by apply agree_ret|apply agree_warning|intros _; exact IH].
Qed.

#[local] Hint Resolve known_numbers_agree : agree.

Lemma backend_tls_agree t : agree any (backend_tls_from_proto t) (backend_tls_from_proto t).
Proof.
  unfold backend_tls_from_proto, convert_tls_key_exchange_groups. eapply agree_bind with (R := eq); [agree_solve|]. intros ?? _.
  eapply agree_bind with (R := eq); [eapply agree_bind; [apply known_numbers_agree|]; intros ?? ->; by apply agree_ret|]. intros ?? ->.
  eapply agree_bind; [apply agree_of_outcome|]. intros ?? ->. eapply agree_mono; [|apply agree_of_result]. done.
Qed.
#[local] Hint Resolve backend_tls_agree : agree.

(** *** Language models *)

Lemma regex_rules_agree r : agree any (convert_regex_rules (CO := C1) r) (convert_regex_rules (CO := C2) r).
Proof.
  unfold convert_regex_rules. eapply agree_bind with (R := any); [|intros; by apply agree_ret]. apply agree_filter_collect. intros k _.
  unfold convert_regex_rule. destruct k as [[b|n]|]; [repeat case_match; agree_solve| |by apply agree_ret].
  intros ws1 ws2. by destruct (@regex_new _ _ C1 n), (@regex_new _ _ C2 n).
Qed.

Lemma webhook_agree w : agree any (convert_webhook (CO := C1) w) (convert_webhook (CO := C2) w).
Proof. unfold convert_webhook. eapply agree_bind; [apply header_match_agree|]. intros; by apply agree_ret. Qed.

Section guards.
Context {P : Type} (f1 f2 : P → CM BackendTrafficPolicy).

Lemma request_guard_agree g :
  (∀ p, p ∈ proto.request_guard_policies g → agree any (f1 p) (f2 p)) →
  agree any (request_guard_from (CO := C1) f1 g) (request_guard_from (CO := C2) f2 g).
Proof.
  intros Hf. unfold request_guard_from, proto.request_guard_policies in *. destruct (proto.qg_kind g) as [k|]; [|agree_solve].
  eapply agree_bind with (R := any); [|intros; by apply agree_ret]. unfold request_guard_kind_from.
  destruct k; (eapply agree_bind; [first [apply regex_rules_agree | apply webhook_agree | by apply agree_collect_in]|intros; by apply agree_ret]).
Qed.

Lemma response_guard_agree g :
  (∀ p, p ∈ proto.response_guard_policies g → agree any (f1 p) (f2 p)) →
  agree any (response_guard_from (CO := C1) f1 g) (response_guard_from (CO := C2) f2 g).
Proof.
  intros Hf. unfold response_guard_from, proto.response_guard_policies in *. destruct (proto.sg_kind g) as [k|]; [|agree_solve].
  eapply agree_bind with (R := any); [|intros; by apply agree_ret]. unfold response_guard_kind_from.
  destruct k; (eapply agree_bind;
    [first [apply regex_rules_agree | apply agree_attempt, webhook_agree
           | apply agree_filter_collect; intros; eapply agree_mono; [|by apply agree_attempt, Hf]; done]|intros; by apply agree_ret]).
Qed.

Lemma json_values_agree m : agree any (json_values m) (json_values m).
Proof. unfold json_values. agree_solve. Qed.

Lemma ai_policy_agree a :
  (∀ p, p ∈ proto.ai_policies a → agree any (f1 p) (f2 p)) →
  agree any (convert_backend_ai_policy (CO := C1) f1 a) (convert_backend_ai_policy (CO := C2) f2 a).
Proof.
  intros Hf. unfold convert_backend_ai_policy. eapply agree_bind with (R := any).
  { unfold proto.ai_policies in Hf. destruct (proto.ai_prompt_guard a) as [pg|]; simpl; [|by apply agree_ret].
    eapply agree_bind with (R := any); [|intros; by apply agree_ret]. unfold prompt_guard_from.
    eapply agree_bind; [apply agree_collect_in; intros g Hg; apply request_guard_agree; intros p Hp; apply Hf, elem_of_app; left;
      apply list_elem_of_bind; eauto|]. intros ?? _.
    eapply agree_bind; [apply agree_filter_collect; intros g Hg; apply response_guard_agree; intros p Hp; apply Hf, elem_of_app; right;
      apply list_elem_of_bind; eauto|]. intros; by apply agree_ret. }
  intros ?? _. do 2 (eapply agree_bind; [apply json_values_agree|intros ?? _]).
  eapply agree_bind with (R := any); [case_decide; agree_solve|]. intros ?? _.
  eapply agree_bind with (R := any); [eapply agree_mono; [|apply agree_collect with (R := any)]; [done|]; intros kv;
    unfold convert_route_type; repeat case_match; agree_solve|]. intros; by apply agree_ret.
Qed.
End guards.

Lemma backend_kind_agree k : agree any (backend_kind_from_proto (CO := C1) k) (backend_kind_from_proto (CO := C2) k).
Proof.
  induction k as [k IH] using proto.backend_kind_ind. destruct k; try (simpl; unfold mcp_authorization_from_proto; agree_solve; done).
  simpl. eapply agree_bind; [|intros ?? _; by apply agree_ret]. apply ai_policy_agree. intros [k'|] Hp; [|apply agree_throw]. apply IH. by exists a.
Qed.

Lemma backend_policy_agree s : agree any (backend_policy_from_proto (CO := C1) s) (backend_policy_from_proto (CO := C2) s).
Proof. unfold backend_policy_from_proto. destruct s; [apply backend_kind_agree|apply agree_throw]. Qed.

#[local] Hint Resolve backend_policy_agree : agree.

Lemma tracing_agree t : agree any (tracing_config_from_proto (CO := C1) t) (tracing_config_from_proto (CO := C2) t).
Proof. unfold tracing_config_from_proto. agree_solve. Qed.
#[local] Hint Resolve tracing_agree : agree.

Lemma logging_agree l : agree any (logging_from_proto (CO := C1) l) (logging_from_proto (CO := C2) l).
Proof.
  unfold logging_from_proto. eapply agree_bind; [apply agree_transpose with (R := any); intros f; agree_solve|]. intros f1 f2 _.
  destruct (default _ f1), (default _ f2). unfold otlp_access_log_from. agree_solve.
Qed.
#[local] Hint Resolve logging_agree : agree.

Lemma frontend_policy_agree s : agree any (frontend_policy_from_proto (CO := C1) s) (frontend_policy_from_proto (CO := C2) s).
Proof. unfold frontend_policy_from_proto, convert_tls_cipher_suites, convert_tls_key_exchange_groups. agree_solve. Qed.

(** Entries of a conditional policy alike in phase and kind. *)
Definition same_entry (a b : option Expression * (PolicyPhase * TrafficPolicy)) : Prop := a.2.1 = b.2.1 ∧ same_kind a.2.2 b.2.2.

Lemma conditional_loop_agree shape l t1 t2 :
  Forall2 same_entry t1 t2 →
  agree (λ r1 r2, r1.1 = r2.1 ∧ Forall2 same_entry r1.2 r2.2)
    (conditional_loop (CO := C1) now shape l t1) (conditional_loop (CO := C2) now shape l t2).
Proof.
  revert shape t1 t2. induction l as [|p l IH]; intros shape t1 t2 Ht; simpl; [by apply agree_ret|].
  eapply agree_bind; [apply agree_of_option|]. intros spec ? <-.
  eapply agree_bind; [apply phased_agree|]. intros [ph1 p1] [ph2 p2] [Hph Hk]. simpl in Hph, Hk. subst ph2. unfold same_kind in Hk. rewrite Hk.
  eapply agree_bind with (R := eq); [agree_solve|]. intros shape' ? <-.
  eapply agree_bind; [apply agree_transpose, permissive_agree|]. intros c1 c2 _. apply IH.
  apply Forall2_app; [done|]. by repeat constructor.
Qed.

Lemma build_policy_agree {T} (mk : RequestPolicy T → TrafficPolicy) variant t1 t2 :
  (∀ p1 p2, same_kind p1 p2 → variant p1 = None ↔ variant p2 = None) → Forall2 same_entry t1 t2 →
  agree any (build_policy mk variant t1) (build_policy mk variant t2).
Proof.
  intros Hv Ht. unfold build_policy. eapply agree_bind with (R := any); [|intros; by apply agree_ret].
  induction Ht as [|[c1 [ph1 p1]] [c2 [ph2 p2]] t1 t2 [_ Hk] Ht IH]; simpl; [by apply agree_ret|]. simpl in Hk.
  specialize (Hv p1 p2 Hk). destruct (variant p1) as [r1|], (variant p2) as [r2|]; try (exfalso; naive_solver).
  - eapply agree_bind with (R := any); [by intros ??|]. intros x y _. eapply agree_bind; [exact IH|]. intros; by apply agree_ret.
  - by intros ??.
Qed.

Lemma conditional_agree l : agree any (conditional_policy_from_proto (CO := C1) now l) (conditional_policy_from_proto (CO := C2) now l).
Proof.
  unfold conditional_policy_from_proto. eapply agree_bind; [by apply conditional_loop_agree|].
  intros [shape t1] [shape2 t2] [Hs Ht]. simpl in Hs, Ht. subst shape2. destruct Ht as [|[c1 [ph1 p1]] [c2 [ph2 p2]] t1 t2 Hp Ht]; [agree_solve|].
  destruct shape as [[k ph]|]; [|agree_solve]. eapply agree_bind with (R := any); [|intros; by apply agree_ret].
  assert (Forall2 same_entry ((c1, (ph1, p1)) :: t1) ((c2, (ph2, p2)) :: t2)) as Hall by by constructor.
  destruct Hp as [_ Hk]. unfold same_kind in Hk. simpl in Hk. unfold conditional_traffic_policy_to_policy.
  eapply agree_bind with (R := λ a b, a = (c1, (ph1, p1)) ∧ b = (c2, (ph2, p2))); [by intros ??|]. intros ?? [-> ->].
  destruct p1, p2; try discriminate Hk; try apply agree_throw; (apply build_policy_agree; [|done]); intros [] []; try discriminate; done.
Qed.

Lemma targeted_policy_agree p : agree any (targeted_policy_from_proto (CO := C1) now p) (targeted_policy_from_proto (CO := C2) now p).
Proof.
  unfold targeted_policy_from_proto, policy_target_from_proto. eapply agree_bind; [apply agree_of_option|]. intros t ? <-.
  eapply agree_bind with (R := any); [agree_solve|]. intros t1 t2 _. eapply agree_bind with (R := any); [|intros; by apply agree_ret].
  destruct (proto.po_kind p) as [[s|s|s|s]|]; [| | | |agree_solve].
  - eapply agree_bind; [apply phased_agree|]. intros [] [] _. by apply agree_ret.
  - eapply agree_bind; [apply backend_policy_agree|]. intros; by apply agree_ret.
  - eapply agree_bind; [apply frontend_policy_agree|]. intros; by apply agree_ret.
  - apply conditional_agree.
Qed.

Lemma route_agree r : agree any (Route_from_xds (CO := C1) now error_display r) (Route_from_xds (CO := C2) now error_display r).
Proof.
  unfold Route_from_xds, route_backend_reference_from_proto. eapply agree_bind; [apply agree_of_option|]. intros n ? <-.
  eapply agree_bind; [apply agree_collect, route_match_agree|]. intros m1 m2 _.
  eapply agree_bind with (R := any); [eapply agree_mono; [|apply agree_collect with (R := any)]; [done|]; intros b; agree_solve|]. intros b1 b2 _.
  eapply agree_bind; [apply agree_collect, traffic_policy_agree|]. intros p1 p2 _. by apply agree_ret.
Qed.

Lemma provider_groups_agree gs :
  agree any (provider_groups_from_proto (CO := C1) gs) (provider_groups_from_proto (CO := C2) gs).
Proof.
  unfold provider_groups_from_proto. destruct gs as [|g gs]; [agree_solve|]. generalize (g :: gs). clear g gs. intros gs.
  eapply agree_bind; [apply agree_collect; intros g; apply agree_collect with (R := any); intros [i p]; unfold named_provider_from_proto, ai_provider_from_proto; agree_solve|].
  intros l1 l2 Hl. assert (filter (λ g, g ≠ []) l1 = [] ↔ filter (λ g, g ≠ []) l2 = []) as Hf.
  { induction Hl as [|x y l1 l2 Hxy Hl IH]; [done|]. rewrite !filter_cons.
    destruct Hxy; [rewrite !decide_False by naive_solver; done|rewrite !decide_True by naive_solver; naive_solver]. }
  destruct (filter _ l1), (filter _ l2); try (exfalso; naive_solver); agree_solve.
Qed.

Lemma backend_agree b :
  agree any (backend_with_policies_from_proto (CO := C1) mcp_name_error b) (backend_with_policies_from_proto (CO := C2) mcp_name_error b).
Proof.
  unfold backend_with_policies_from_proto. eapply agree_bind; [apply agree_collect, backend_policy_agree|]. intros p1 p2 _.
  eapply agree_bind; [apply agree_of_option|]. intros n ? <-. eapply agree_bind with (R := any); [|intros; by apply agree_ret].
  destruct (proto.bk_kind b) as [[]|]; try solve [agree_solve].
  - eapply agree_bind; [apply provider_groups_agree|]. intros; by apply agree_ret.
  - eapply agree_bind with (R := any); [eapply agree_mono; [|apply agree_collect with (R := any)]; [done|]; intros t; unfold mcp_target_from_proto; agree_solve|].
    intros; by apply agree_ret.
Qed.
End compilers.

(** ** Claims *)

Section claims.
Context {UC : UriCrate} {HC : HttpCrate} {RE : RegexEngine} {MC : MessageCrate} {CE : CelEngine} {HO : HashOrder}.
Context {CK : CookieCrate} {JW : JsonWebToken} {HS : HashCrates} {OM : OpaqueMessages} {OP : OpaquePolicies}.
Context {CC : ConfigCrates} {OC : OpaqueConversions}.
#[local] Hint Extern 0 Payloads => exact (gateway_payloads (CE := CE)) : typeclass_instances.
Context (now : Z) (error_display : ProtoError → string) (mcp_name_error : string → string).

(** What a conversion decides: whether it panics, and the error if it fails. *)
Definition verdict {A} (m : CM A) : outcome (option ProtoError) :=
  match m [] with Ret (_, Ok _) => Ret None | Ret (_, Err e) => Ret (Some e) | Panic => Panic end.

Lemma agree_verdict {A B} (R : A → B → Prop) (m1 : CM A) (m2 : CM B) : agree R m1 m2 → verdict m1 = verdict m2.
Proof.
  intros H. specialize (H [] []). unfold verdict. destruct (m1 []) as [[w1 [a|e1]]|], (m2 []) as [[w2 [b|e2]]|]; try done. by subst.
Qed.

(** C8. Expressions the user got wrong never take down a resource: whether a
    route, a backend or a policy is accepted, and with which error it is
    rejected, does not depend on which of its regular and CEL expressions
    compile. *)
Theorem compilation_never_rejects (C1 C2 : Compilers) (r : proto.Route) (b : proto.Backend) (p : proto.Policy) :
  verdict (Route_from_xds (CO := C1) now error_display r) = verdict (Route_from_xds (CO := C2) now error_display r) ∧
  verdict (backend_with_policies_from_proto (CO := C1) mcp_name_error b) = verdict (backend_with_policies_from_proto (CO := C2) mcp_name_error b) ∧
  verdict (targeted_policy_from_proto (CO := C1) now p) = verdict (targeted_policy_from_proto (CO := C2) now p).
Proof. split; [|split]; eapply agree_verdict; [apply route_agree|apply backend_agree|apply targeted_policy_agree]. Qed.
End claims.
