(* ===== verification/AgentXdsClaims.v ===== *)
(** * What converted messages mean

    A converted match accepts the requests its message describes; authorization
    rules that do not compile; conditional policies; and the updates of the
    control plane that panic, and those that do not. *)
From stdpp Require Import base gmap strings list pretty.
From Stdlib Require Import ZArith Lia.
From S2P Require Import Prelude RustStd XdsClient Authorization AgentTypes RouteSet TcpRouteSet BindStore BindStoreFacts PolicyResolution RouteSelect HttpRequest Rewrite Htpasswd Auth RateLimit Cors Replay Pipeline EnvoyHeaders ExtAuthz Transformation RemoteLimit ExtProc MergeStream Mcp XdsProto PolicyTypes AgentXds.

Local Open Scope string_scope.
Local Open Scope list_scope.

Section meaning.
Context {UC : UriCrate} {HC : HttpCrate} {RE : RegexEngine} {MC : MessageCrate} {CE : CelEngine} {HO : HashOrder}.
Context {CK : CookieCrate} {JW : JsonWebToken} {HS : HashCrates} {OM : OpaqueMessages} {OP : OpaquePolicies}.
Context {CO : Compilers} {CC : ConfigCrates} {OC : OpaqueConversions}.
#[local] Hint Extern 0 Payloads => exact (gateway_payloads (CE := CE)) : typeclass_instances.
Context (now : Z) (error_display : ProtoError → string).

(** ** Inverting conversions *)

Lemma bind_ok {A B} (m : CM A) (k : A → CM B) ws ws' b :
  (m ≫= k) ws = Ret (ws', Ok b) → ∃ w1 a, m ws = Ret (w1, Ok a) ∧ k a w1 = Ret (ws', Ok b).
Proof. unfold mbind, cm_bind. destruct (m ws) as [[w1 [a|e]]|]; simpl; [eauto|discriminate..]. Qed.

Lemma of_option_ok {A} e (o : option A) ws ws' a : of_option e o ws = Ret (ws', Ok a) → o = Some a ∧ ws' = ws.
Proof. unfold of_option, of_result, ok_or. destruct o; intros [=]; by subst. Qed.

Lemma ret_ok {A} (a b : A) ws ws' : (mret a : CM A) ws = Ret (ws', Ok b) → b = a ∧ ws' = ws.
Proof. unfold mret, cm_ret. naive_solver. Qed.

Lemma map_error_ok {A} f (m : CM A) ws ws' a : map_error f m ws = Ret (ws', Ok a) → m ws = Ret (ws', Ok a).
Proof. unfold map_error. destruct (m ws) as [[w [b|e]]|]; simpl; [done|discriminate..]. Qed.

Lemma collect_ok {A B} (f : A → CM B) l ws ws' bs :
  collect f l ws = Ret (ws', Ok bs) → Forall2 (λ a b, ∃ w w', f a w = Ret (w', Ok b)) l bs.
Proof.
  revert ws ws' bs. induction l as [|a l IH]; intros ws ws' bs; simpl.
  - intros [-> _]%ret_ok. constructor.
  - intros (w1 & b & Hb & H)%bind_ok. apply bind_ok in H as (w2 & bs' & Hbs & H). apply ret_ok in H as [-> _].
    constructor; [by exists ws, w1|by eapply IH].
Qed.

Lemma transpose_ok {A B} (f : A → CM B) o ws ws' r :
  transpose f o ws = Ret (ws', Ok r) → option_Forall2 (λ a b, ∃ w w', f a w = Ret (w', Ok b)) o r.
Proof.
  destruct o as [a|]; simpl; [|intros [-> _]%ret_ok; constructor].
  intros (w1 & b & Hb & H)%bind_ok. apply ret_ok in H as [-> _]. constructor. eauto.
Qed.

Lemma regex_ok c s ws ws' r : regex_or_warn_invalid c s ws = Ret (ws', Ok r) → r = regex_new s.
Proof. unfold regex_or_warn_invalid, mbind, cm_bind, mret, cm_ret, add_warning. destruct (regex_new s); simpl; naive_solver. Qed.

Lemma permissive_run c s ws :
  permissive_cel_expression c s ws =
  match new_strict s with
  | Ok e => Ret (ws, Ok e)
  | Err err => Ret (ws ++ ["invalid CEL expression for " +:+ c +:+ ": " +:+ err +:+ "; replacing " +:+ debug_str s +:+ " with an expression that always fails"],
                    Ok (fail_expression s))
  end.
Proof. unfold permissive_cel_expression, new_permissive. by destruct (new_strict s). Qed.

(** ** Matches *)

(** A regular expression of a message, on a text: one that does not compile
    matches nothing. *)
Definition text_matches (pattern text : string) : bool := match regex_new pattern with Ok r => regex_full r text | Err _ => false end.

(** The requests a message describes. *)
Definition message_matches (m : proto.RouteMatch) (req : Request) : bool :=
  let p := uri_path (req_uri req) in
  match proto.rm_path m with
  | None => path_prefix_matches "/" p
  | Some (Some (proto.KPathPrefix s)) => path_prefix_matches s p
  | Some (Some (proto.KExact s)) => bool_decide (p = s)
  | Some (Some (proto.KRegex s)) => text_matches s p
  | Some None => false
  end &&
  match proto.rm_method m with Some me => bool_decide (req_method req = me) | None => true end &&
  forallb (λ h,
    match header_or_pseudo_try_from (proto.vm_name h) ≫= λ n, get_pseudo_or_header_value n req with
    | None => false
    | Some have =>
        match proto.vm_value h with
        | Some (proto.MExact e) => bool_decide (header_value_from_bytes e = Some have)
        | Some (proto.MRegex e) => match header_to_str have with Some s => text_matches e s | None => false end
        | None => false
        end
    end) (proto.rm_headers m) &&
  forallb (λ h,
    match query_map req !! proto.vm_name h with
    | None => false
    | Some have =>
        match proto.vm_value h with
        | Some (proto.MExact e) => bool_decide (have = e)
        | Some (proto.MRegex e) => text_matches e have
        | None => false
        end
    end) (proto.rm_query_params m).

Lemma forallb_Forall2 {A B} (f : A → bool) (g : B → bool) l k : Forall2 (λ a b, f a = g b) l k → forallb f l = forallb g k.
Proof. induction 1 as [|a b l k Hab _ IH]; simpl; [done|]. by rewrite Hab, IH. Qed.

Lemma path_match_ok p ws ws' pm text :
  path_match_from_proto p ws = Ret (ws', Ok pm) →
  path_matches pm text =
  match p with
  | None => path_prefix_matches "/" text
  | Some (Some (proto.KPathPrefix s)) => path_prefix_matches s text
  | Some (Some (proto.KExact s)) => bool_decide (text = s)
  | Some (Some (proto.KRegex s)) => text_matches s text
  | Some None => false
  end.
Proof.
  destruct p as [[[s|s|s]|]|]; simpl; try (intros [-> _]%ret_ok; done); [|done].
  intros (w & r & Hr & H)%bind_ok. apply regex_ok in Hr as ->. apply ret_ok in H as [-> _]. unfold text_matches. by destruct (regex_new s).
Qed.

Lemma header_match_ok context hs ws ws' l req :
  convert_header_match context hs ws = Ret (ws', Ok l) →
  forallb (header_matches req) l =
  forallb (λ h,
    match header_or_pseudo_try_from (proto.vm_name h) ≫= λ n, get_pseudo_or_header_value n req with
    | None => false
    | Some have =>
        match proto.vm_value h with
        | Some (proto.MExact e) => bool_decide (header_value_from_bytes e = Some have)
        | Some (proto.MRegex e) => match header_to_str have with Some s => text_matches e s | None => false end
        | None => false
        end
    end) hs.
Proof.
  intros H%collect_ok. symmetry. apply forallb_Forall2. eapply Forall2_impl; [exact H|]. intros h m (w & w' & Hm). simpl in *.
  destruct (proto.vm_value h) as [[e|e]|]; [| |done]; apply bind_ok in Hm as (w1 & n & Hn & Hm); apply of_option_ok in Hn as [-> _];
    apply bind_ok in Hm as (w2 & v & Hv & Hm); apply ret_ok in Hm as [-> _]; unfold header_matches; simpl.
  - apply of_option_ok in Hv as [-> _]. destruct (get_pseudo_or_header_value n req); [|done]. apply bool_decide_ext. naive_solver.
  - apply regex_ok in Hv as ->. unfold text_matches. destruct (get_pseudo_or_header_value n req); [|done].
    destruct (regex_new e); [done|]. by destruct (header_to_str _).
Qed.

Lemma query_match_ok hs ws ws' l q :
  collect query_match_from_proto hs ws = Ret (ws', Ok l) →
  forallb (query_matches q) l =
  forallb (λ h,
    match q !! proto.vm_name h with
    | None => false
    | Some have =>
        match proto.vm_value h with
        | Some (proto.MExact e) => bool_decide (have = e)
        | Some (proto.MRegex e) => text_matches e have
        | None => false
        end
    end) hs.
Proof.
  intros H%collect_ok. symmetry. apply forallb_Forall2. eapply Forall2_impl; [exact H|]. intros h m (w & w' & Hm).
  unfold query_match_from_proto in Hm. destruct (proto.vm_value h) as [[e|e]|]; [apply ret_ok in Hm as [-> _]; done| |done].
  apply bind_ok in Hm as (w1 & r & Hr & Hm). apply regex_ok in Hr as ->. apply ret_ok in Hm as [-> _].
  unfold query_matches, text_matches; simpl. destruct (q !! _); [|done]. by destruct (regex_new e).
Qed.

(** C7. A route match accepted from the control plane matches exactly the
    requests its message describes; a regular expression in it that does not
    compile matches nothing. *)
Theorem route_match_means (m : proto.RouteMatch) ws ws' rm req :
  route_match_from_proto error_display m ws = Ret (ws', Ok rm) → matches_request rm req = message_matches m req.
Proof.
  intros (w1 & p & Hp & H)%bind_ok. apply bind_ok in H as (w2 & hs & Hh & H). apply bind_ok in H as (w3 & qs & Hq & H).
  apply ret_ok in H as [-> _]. apply map_error_ok in Hh. unfold matches_request, message_matches. simpl.
  rewrite (path_match_ok _ _ _ _ (uri_path (req_uri req)) Hp), (header_match_ok _ _ _ _ _ req Hh), (query_match_ok _ _ _ _ (query_map req) Hq).
  repeat match goal with |- (if negb ?b then _ else _) = _ => destruct b; simpl; [|done] end.
  destruct (proto.rm_method m) as [me|]; [destruct (bool_decide _); simpl; [|done]|];
    (match goal with |- (if negb ?b then _ else _) = _ => destruct b end); done.
Qed.

(** ** Authorization rules *)

Section rules.
Context {Value EvalError : Type} (exec : Executor Expression Value EvalError).

(** A rule of a message holds if it compiles and evaluates to true. *)
Definition rule_holds (s : string) : bool := match new_strict s with Ok e => eval_bool exec e | Err _ => false end.

Definition broken (s : string) : bool := match new_strict s with Ok _ => false | Err _ => true end.

Lemma compile_list_run c l ws :
  (∀ s, eval_bool exec (fail_expression s) = false) →
  ∃ ws' es, collect (permissive_cel_expression c) l ws = Ret (ws', Ok es) ∧
    length ws' = length ws + length (filter broken l) ∧ Forall2 (λ s e, eval_bool exec e = rule_holds s) l es.
Proof.
  intros Hfail. revert ws. induction l as [|s l IH]; intros ws; simpl; [exists ws, []; simpl; auto with lia|].
  unfold mbind at 1, cm_bind at 1. rewrite permissive_run. unfold rule_holds, broken in *. rewrite filter_cons.
  destruct (new_strict s) as [e|err] eqn:E; simpl.
  - destruct (IH ws) as (ws' & es & H & Hlen & Hes). exists ws', (e :: es). unfold mbind, cm_bind. rewrite H. simpl.
    split; [done|]. split; [done|]. constructor; [by rewrite E|done].
  - destruct (IH (ws ++ ["invalid CEL expression for " +:+ c +:+ ": " +:+ err +:+ "; replacing " +:+ debug_str s +:+ " with an expression that always fails"]))
      as (ws' & es & H & Hlen & Hes). exists ws', (fail_expression s :: es). unfold mbind, cm_bind. rewrite H. simpl.
    split; [done|]. rewrite length_app in Hlen. simpl in Hlen. split; [lia|]. constructor; [by rewrite E, Hfail|done].
Qed.

Lemma Forall2_existsb {A B} (f : A → bool) (g : B → bool) l k : Forall2 (λ a b, g b = f a) l k → existsb g k = existsb f l.
Proof. induction 1 as [|a b l k Hab _ IH]; simpl; [done|]. by rewrite Hab, IH. Qed.

Lemma Forall2_forallb {A B} (f : A → bool) (g : B → bool) l k : Forall2 (λ a b, g b = f a) l k → forallb g k = forallb f l.
Proof. induction 1 as [|a b l k Hab _ IH]; simpl; [done|]. by rewrite Hab, IH. Qed.

Lemma Forall2_is_nil {A B} (R : A → B → Prop) l k : Forall2 R l k → is_nil k = is_nil l.
Proof. by intros []. Qed.

(** C4. Authorization rules of the control plane are never rejected, and decide
    as follows, each rule that does not compile counting as one that never
    holds, with a warning: so of those, a require rule refuses every request, an
    allow rule still makes the others necessary, but a deny rule denies nothing. *)
Theorem rbac_means (rbac : proto.Rbac) ws :
  (∀ s, eval_bool exec (fail_expression s) = false) →
  ∃ ws' rs, authorization_from_proto rbac ws = Ret (ws', Ok rs) ∧
    length ws' = length ws + length (filter broken (proto.rb_allow rbac ++ proto.rb_deny rbac ++ proto.rb_require rbac)) ∧
    (validate [rs] exec = true ↔
     (∀ s, s ∈ proto.rb_deny rbac → rule_holds s = false) ∧ (∀ s, s ∈ proto.rb_require rbac → rule_holds s = true) ∧
     (proto.rb_allow rbac = [] ∨ ∃ s, s ∈ proto.rb_allow rbac ∧ rule_holds s = true)).
Proof.
  intros Hfail. destruct rbac as [al de re]. simpl.
  destruct (compile_list_run "traffic.authorization.allow" al ws Hfail) as (w1 & als & Ha & Hla & Hfa).
  destruct (compile_list_run "traffic.authorization.deny" de w1 Hfail) as (w2 & des & Hd & Hld & Hfd).
  destruct (compile_list_run "traffic.authorization.require" re w2 Hfail) as (w3 & res & Hr & Hlr & Hfr).
  exists w3, (mkRuleSet (mkPolicySet als des res)). split; [|split].
  - unfold authorization_from_proto, compile_rules, mbind, cm_bind. simpl. change ("traffic.authorization" +:+ ".allow") with "traffic.authorization.allow".
    change ("traffic.authorization" +:+ ".deny") with "traffic.authorization.deny".
    change ("traffic.authorization" +:+ ".require") with "traffic.authorization.require". rewrite Ha. simpl. rewrite Hd. simpl. rewrite Hr. done.
  - rewrite !filter_app, !length_app. lia.
  - unfold validate, has_rules, denies, allows, all_requires_match, has_allow_rules. simpl. rewrite !orb_false_r.
    rewrite (Forall2_existsb _ _ _ _ Hfd), (Forall2_existsb _ _ _ _ Hfa), (Forall2_forallb _ _ _ _ Hfr),
      (Forall2_is_nil _ _ _ Hfa), (Forall2_is_nil _ _ _ Hfd), (Forall2_is_nil _ _ _ Hfr).
    assert ((∀ s, s ∈ de → rule_holds s = false) ↔ existsb rule_holds de = false) as ->.
    { rewrite <-not_true_iff_false, existsb_exists. setoid_rewrite <-list_elem_of_In. setoid_rewrite <-not_true_iff_false. naive_solver. }
    assert ((∀ s, s ∈ re → rule_holds s = true) ↔ forallb rule_holds re = true) as ->.
    { rewrite forallb_forall. by setoid_rewrite <-list_elem_of_In. }
    assert ((∃ s, s ∈ al ∧ rule_holds s = true) ↔ existsb rule_holds al = true) as ->.
    { rewrite existsb_exists. by setoid_rewrite <-list_elem_of_In. }
    destruct al, de, re; simpl; repeat match goal with |- context [rule_holds ?s] => destruct (rule_holds s); simpl end;
      repeat match goal with |- context [existsb ?f ?l] => destruct (existsb f l); simpl end;
      repeat match goal with |- context [forallb ?f ?l] => destruct (forallb f l); simpl end; naive_solver.
Qed.
End rules.

(** ** Panics *)

Definition returns {A} (m : CM A) : Prop := ∀ ws, m ws ≠ Panic.

Lemma cm_ret_returns {A} (a : A) : returns (mret a).
Proof. done. Qed.
Lemma returns_bind {A B} (m : CM A) (k : A → CM B) : returns m → (∀ a, returns (k a)) → returns (m ≫= k).
Proof.
  intros Hm Hk ws. specialize (Hm ws). unfold mbind, cm_bind. destruct (m ws) as [[w [a|e]]|]; simpl; [|done..]. apply Hk.
Qed.
Lemma returns_throw {A} e : returns (throw (A := A) e).
Proof. done. Qed.
Lemma returns_of_result {A} (r : result A ProtoError) : returns (of_result r).
Proof. done. Qed.
Lemma returns_of_option {A} e (o : option A) : returns (of_option e o).
Proof. done. Qed.
Lemma returns_warning w : returns (add_warning w).
Proof. done. Qed.
Lemma returns_of_outcome {A} (o : outcome A) : o ≠ Panic → returns (of_outcome o).
Proof. intros H ws. unfold of_outcome. by destruct o. Qed.
Lemma returns_attempt {A} (m : CM A) : returns m → returns (attempt m).
Proof. intros H ws. specialize (H ws). unfold attempt. by destruct (m ws) as [[w r]|]. Qed.
Lemma returns_map_error {A} f (m : CM A) : returns m → returns (map_error f m).
Proof. intros H ws. specialize (H ws). unfold map_error. by destruct (m ws) as [[w r]|]. Qed.
Lemma returns_collect {A B} (f : A → CM B) l : Forall (λ a, returns (f a)) l → returns (collect f l).
Proof.
  induction 1 as [|a l Ha _ IH]; simpl; [apply cm_ret_returns|]. apply returns_bind; [done|]. intros b.
  apply returns_bind; [done|]. intros bs. apply cm_ret_returns.
Qed.
Lemma returns_filter_collect {A B} (f : A → CM (option B)) l : Forall (λ a, returns (f a)) l → returns (filter_collect f l).
Proof.
  induction 1 as [|a l Ha _ IH]; simpl; [apply cm_ret_returns|]. apply returns_bind; [done|]. intros b.
  apply returns_bind; [done|]. intros bs. apply cm_ret_returns.
Qed.
Lemma returns_transpose {A B} (f : A → CM B) o : (∀ a, o = Some a → returns (f a)) → returns (transpose f o).
Proof. intros H. destruct o as [a|]; simpl; [|apply cm_ret_returns]. apply returns_bind; [by apply H|]. intros b. apply cm_ret_returns. Qed.
Lemma returns_permissive c s : returns (permissive_cel_expression c s).
Proof. intros ws. rewrite permissive_run. by destruct (new_strict s). Qed.
Lemma returns_regex c s : returns (regex_or_warn_invalid c s).
Proof. unfold regex_or_warn_invalid. by destruct (regex_new s). Qed.

#[local] Hint Resolve cm_ret_returns returns_throw returns_of_result returns_of_option returns_warning returns_permissive returns_regex : core.

Ltac returns_step :=
  match goal with
  | |- returns _ => solve [eauto]
  | |- returns (_ ≫= _) => apply returns_bind; [|intros ?]
  | |- returns (match ?x with _ => _ end) => destruct x
  | |- returns (collect _ _) => apply returns_collect, Forall_forall; intros ??
  | |- returns (filter_collect _ _) => apply returns_filter_collect, Forall_forall; intros ??
  | |- returns (attempt _) => apply returns_attempt
  | |- returns (transpose _ _) => apply returns_transpose; intros ??
  | |- returns (map_error _ _) => apply returns_map_error
  end.
Ltac returns_solve := repeat (returns_step; cbv beta zeta).

(** Durations whose seconds fit, and redirects whose port does. *)
Definition duration_fits (d : PDuration) : Prop := (as_u64 (d_seconds d) * 1000000000 + as_u64 (d_nanos d) < 2 ^ 64 * 1000000000)%Z.
Definition opt_fits (o : option PDuration) : Prop := ∀ d, o = Some d → duration_fits d.
Definition redirect_fits (r : proto.RequestRedirect) : Prop := proto.rr_host r ≠ "" ∨ proto.rr_port r = 0%Z ∨ as_u16 (proto.rr_port r) ≠ 0%Z.
Definition keepalive_fits (o : option proto.KeepaliveConfig) : Prop := ∀ k, o = Some k → opt_fits (proto.ka_time k) ∧ opt_fits (proto.ka_interval k).

Definition traffic_fits (s : proto.TrafficPolicySpec) : Prop :=
  match proto.tps_kind s with
  | Some (proto.TKRequestRedirect r) => redirect_fits r
  | _ => True
  end.

(** Without certificates of its own, TLS to a backend needs those of the system. *)
Definition roots_fit (t : proto.BackendTls) : Prop := proto.bt_root t ≠ None ∨ system_roots_add = true.

Definition kind_fits (k : proto.BackendKind) : Prop :=
  match k with
  | proto.BKRequestRedirect r => redirect_fits r
  | proto.BKBackendHttp _ t => opt_fits t
  | proto.BKBackendTcp k t => keepalive_fits k ∧ opt_fits t
  | proto.BKHealth _ e => ∀ ev, e = Some ev → opt_fits (proto.ev_duration ev)
  | proto.BKBackendTls t => roots_fit t
  | _ => True
  end.

(** So does every policy within it, at any depth. *)
Definition backend_fits (s : proto.BackendPolicySpec) : Prop :=
  ∀ k k', s = Some k → rtc proto.inline_in k' k → kind_fits k'.

(** A listener's cipher suites, and whether its versions leave one of them: those
    that are known (if none is, the defaults are used). *)
Definition known_suites (t : proto.TlsConfig) : list Z := filter (λ n, (1 <=? n)%Z && (n <=? 9)%Z) (proto.tl_cipher_suites t).
Definition version_allowed (t : proto.TlsConfig) (v : TLSVersion) : Prop :=
  match v with TLS_V1_2 => proto.tl_min_version t ≠ Some 4%Z | TLS_V1_3 => proto.tl_max_version t ≠ Some 3%Z | _ => False end.
Definition tls_fits (t : proto.TlsConfig) : Prop :=
  proto.tl_certificate_source t = 1%Z ∨ known_suites t = [] ∨ (proto.tl_min_version t = Some 4%Z ∧ proto.tl_max_version t = Some 3%Z) ∨
  ∃ s, s ∈ known_suites t ∧ version_allowed t (suite_version s).

Definition frontend_fits (s : option proto.FrontendKind) : Prop :=
  match s with
  | Some (proto.FKHttp h) =>
      opt_fits (proto.fh_http1_idle_timeout h) ∧ opt_fits (proto.fh_http2_keepalive_interval h) ∧
      opt_fits (proto.fh_http2_keepalive_timeout h) ∧ opt_fits (proto.fh_max_connection_duration h)
  | Some (proto.FKTls t) => opt_fits (proto.ft_handshake_timeout t)
  | Some (proto.FKTcp k) => keepalive_fits k
  | Some (proto.FKLogging l) => ∀ o, proto.lo_otlp_access_log l = Some o → Forall backend_fits (proto.ol_inline_policies o)
  | _ => True
  end.

Lemma returns_duration d : returns (duration d).
Proof. unfold duration. eauto. Qed.
Lemma returns_convert_duration d : duration_fits d → returns (convert_duration d).
Proof. intros H ws. unfold convert_duration. unfold duration_fits in H. by rewrite (proj2 (Z.ltb_lt _ _) H). Qed.
Lemma returns_opt_duration o : opt_fits o → returns (transpose convert_duration o).
Proof. intros H. apply returns_transpose. intros d Hd. by apply returns_convert_duration, H. Qed.
Lemma returns_named c kv : returns (named_expression c kv).
Proof. unfold named_expression. returns_solve. Qed.
Lemma returns_rules c r : returns (compile_rules c r).
Proof. unfold compile_rules. returns_solve. Qed.
Lemma returns_location c l d : returns (authorization_location c l d).
Proof. unfold authorization_location. returns_solve. Qed.
#[local] Hint Resolve returns_duration returns_convert_duration returns_opt_duration returns_named returns_rules returns_location : core.

Lemma returns_included l : returns (included_headers l).
Proof. induction l; simpl; returns_solve. Qed.
#[local] Hint Resolve returns_included : core.

Lemma returns_external_auth e : returns (external_auth_from_proto e).
Proof. unfold external_auth_from_proto, auth_protocol_from_proto. returns_solve. Qed.

Lemma returns_redirect r : redirect_fits r → returns (request_redirect_from_proto r).
Proof.
  intros H. unfold request_redirect_from_proto. apply returns_bind; [returns_solve|]. intros s. apply returns_bind; [|intros; returns_solve].
  unfold redirect_authority, non_empty, default_as_none. destruct (Str.is_empty (proto.rr_host r)) eqn:Eh.
  - destruct (Z.eqb_spec (proto.rr_port r) 0) as [|Hp]; [eauto|]. apply returns_bind; [|eauto]. intros ws.
    destruct (Z.eqb_spec (as_u16 (proto.rr_port r)) 0) as [Hz|]; [|done]. exfalso. destruct H as [H|[H|H]]; [|done..].
    destruct (proto.rr_host r); done.
  - destruct (_ =? 0)%Z; eauto.
Qed.
#[local] Hint Resolve returns_external_auth returns_redirect : core.

Lemma returns_known_numbers what n l : returns (known_numbers what n l).
Proof. induction l; simpl; returns_solve. Qed.
#[local] Hint Resolve returns_known_numbers : core.

Lemma returns_transformation t : returns (transformation_from_proto t).
Proof. intros ws. unfold transformation_from_proto. by destruct (try_from_local_config_with_warnings _ _ _). Qed.
#[local] Hint Resolve returns_transformation : core.

Lemma returns_traffic s : traffic_fits s → returns (traffic_policy_from_proto now s).
Proof.
  unfold traffic_fits, traffic_policy_from_proto. intros H. destruct (proto.tps_kind s) as [[]|]; try solve [returns_solve].
  - unfold retry_from_proto. returns_solve.
  - unfold local_rate_limit_from_proto. returns_solve.
  - unfold authorization_from_proto. returns_solve.
  - unfold jwt_from_proto, jwt_mode_from_proto, jwt_provider_from_proto. returns_solve.
  - unfold remote_rate_limit_from_proto, descriptor_from_proto. returns_solve.
  - unfold ext_proc_from_proto, to_cel_attrs. returns_solve.
  - unfold cors_from_proto. returns_solve.
  - unfold basic_auth_from_proto, credential_mode. returns_solve.
  - unfold api_key_from_proto, credential_mode. returns_solve.
Qed.

Lemma returns_phased s : traffic_fits s → returns (phased_traffic_policy_from_proto now s).
Proof. intros H. unfold phased_traffic_policy_from_proto. apply returns_bind; [by apply returns_traffic|]. intros p. returns_solve. Qed.

Lemma returns_keepalive k : keepalive_fits k → returns (keepalive_or_default k).
Proof. intros H. unfold keepalive_or_default, keepalive_from. destruct k as [k|]; [|eauto]. destruct (H k eq_refl). returns_solve. Qed.
#[local] Hint Resolve returns_keepalive : core.

Lemma provider_groups_nonempty o : provider_groups o ≠ [].
Proof. by destruct o as [[|]|]. Qed.

Lemma returns_backend_tls t : roots_fit t → returns (backend_tls_from_proto t).
Proof.
  intros Hr. unfold backend_tls_from_proto, convert_tls_key_exchange_groups. apply returns_bind; [returns_solve|]. intros _.
  apply returns_bind; [returns_solve|]. intros groups. apply returns_bind; [|eauto]. apply returns_of_outcome.
  unfold resolve_backend_tls. simpl.
  assert (with_protocol_versions DEFAULT_CIPHER_SUITES (provider_groups groups) [TLS_V1_2; TLS_V1_3] = true) as ->.
  { apply with_protocol_versions_ok. split; [|apply provider_groups_nonempty]. exists 1%Z. split; [by left|]. right. by left. }
  unfold roots_fit in Hr. destruct (proto.bt_root t); [by case_match|]. destruct Hr as [|Hr]; [done|]. by rewrite Hr.
Qed.
#[local] Hint Resolve returns_backend_tls : core.

Lemma returns_header_match c l : returns (convert_header_match c l).
Proof. unfold convert_header_match. returns_solve. Qed.
#[local] Hint Resolve returns_header_match : core.

Lemma returns_regex_rules r : returns (convert_regex_rules r).
Proof.
  unfold convert_regex_rules. apply returns_bind; [|eauto]. apply returns_filter_collect, Forall_forall. intros k _.
  unfold convert_regex_rule. repeat case_match; returns_solve.
Qed.
Lemma returns_webhook w : returns (convert_webhook w).
Proof. unfold convert_webhook. returns_solve. Qed.
#[local] Hint Resolve returns_regex_rules returns_webhook : core.

Section guards.
Context {P : Type} (from : P → CM BackendTrafficPolicy).

Lemma returns_request_guard g : (∀ p, p ∈ proto.request_guard_policies g → returns (from p)) → returns (request_guard_from from g).
Proof.
  unfold request_guard_from, proto.request_guard_policies. intros Hf. destruct (proto.qg_kind g) as [[]|]; simpl; returns_solve.
Qed.

Lemma returns_response_guard g : (∀ p, p ∈ proto.response_guard_policies g → returns (from p)) → returns (response_guard_from from g).
Proof.
  unfold response_guard_from, proto.response_guard_policies. intros Hf. destruct (proto.sg_kind g) as [[]|]; simpl; returns_solve.
Qed.

Lemma returns_ai a : (∀ p, p ∈ proto.ai_policies a → returns (from p)) → returns (convert_backend_ai_policy from a).
Proof.
  unfold convert_backend_ai_policy, proto.ai_policies. intros Hf. apply returns_bind.
  { destruct (proto.ai_prompt_guard a) as [pg|]; simpl; [|eauto]. apply returns_bind; [|eauto]. unfold prompt_guard_from.
    apply returns_bind; [apply returns_collect, Forall_forall; intros g Hg; apply returns_request_guard; intros p Hp; apply Hf, elem_of_app;
      left; apply list_elem_of_bind; eauto|]. intros q.
    apply returns_bind; [apply returns_filter_collect, Forall_forall; intros g Hg; apply returns_response_guard; intros p Hp; apply Hf, elem_of_app;
      right; apply list_elem_of_bind; eauto|eauto]. }
  intros pg. unfold json_values. returns_solve. unfold convert_route_type. repeat case_match; returns_solve.
Qed.
End guards.

Lemma returns_backend_kind k : (∀ k', rtc proto.inline_in k' k → kind_fits k') → returns (backend_kind_from_proto k).
Proof.
  induction k as [k IH] using proto.backend_kind_ind. intros Hk. pose proof (Hk k (rtc_refl _ _)) as H.
  destruct k; simpl in H |- *; destruct_and?; try solve [returns_solve].
  - unfold backend_auth_from_proto, azure_auth_from_proto, optional_authorization_location. returns_solve.
  - unfold mcp_authorization_from_proto. returns_solve.
  - unfold mcp_authentication_from_proto, jwt_mode_from_proto. destruct (Str.is_empty _); returns_solve.
  - apply returns_bind; [|eauto]. apply returns_ai. intros [k|] Hp; [|eauto]. apply IH; [by exists a|]. intros k' Hk'. apply Hk.
    eapply rtc_r; [exact Hk'|]. by exists a.
  - unfold convert_health. returns_solve.
Qed.

Lemma returns_backend_policy s : backend_fits s → returns (backend_policy_from_proto s).
Proof. intros H. destruct s as [k|]; simpl; [|eauto]. apply returns_backend_kind. intros k' Hk'. by apply (H k). Qed.

Lemma returns_logging l : (∀ o, proto.lo_otlp_access_log l = Some o → Forall backend_fits (proto.ol_inline_policies o)) → returns (logging_from_proto l).
Proof.
  intros H. unfold logging_from_proto. apply returns_bind; [returns_solve|]. intros f. destruct (default _ f) as [add rm].
  apply returns_bind; [|intros; returns_solve]. apply returns_transpose. intros o Ho. unfold otlp_access_log_from. apply returns_bind; [|eauto]. apply returns_collect.
  eapply Forall_impl; [by apply H|]. apply returns_backend_policy.
Qed.
#[local] Hint Resolve returns_logging : core.

Lemma returns_frontend s : frontend_fits s → returns (frontend_policy_from_proto s).
Proof.
  unfold frontend_policy_from_proto, tracing_config_from_proto, convert_tls_cipher_suites, convert_tls_key_exchange_groups. intros H.
  destruct s as [[]|]; simpl in H; destruct_and?; returns_solve.
Qed.

Definition policy_fits (p : proto.Policy) : Prop :=
  match proto.po_kind p with
  | Some (proto.PKTraffic s) => traffic_fits s
  | Some (proto.PKBackend s) => backend_fits s
  | Some (proto.PKFrontend s) => frontend_fits s
  | Some (proto.PKConditional l) => ∀ c s, c ∈ l → proto.cp_kind c = Some s → traffic_fits s
  | None => True
  end.

Lemma returns_build {T} (mk : RequestPolicy T → TrafficPolicy) variant l : returns (build_policy mk variant l).
Proof.
  unfold build_policy. apply returns_bind; [|eauto]. induction l as [|[c [ph p]] l IH]; simpl; returns_solve.
Qed.
#[local] Hint Resolve returns_build : core.

Lemma returns_bind_option {A B} e (o : option A) (k : A → CM B) : (∀ a, o = Some a → returns (k a)) → returns (of_option e o ≫= k).
Proof. intros H ws. destruct o as [a|]; [|done]. by apply (H a). Qed.

Lemma returns_conditional_loop shape l t :
  (∀ c s, c ∈ l → proto.cp_kind c = Some s → traffic_fits s) → returns (conditional_loop now shape l t).
Proof.
  revert shape t. induction l as [|p l IH]; intros shape t Hl; simpl; [eauto|].
  apply returns_bind_option. intros s Hs. apply returns_bind; [apply returns_phased, (Hl p s); [by left|done]|]. intros [ph tp].
  apply returns_bind; [returns_solve|]. intros shape'. apply returns_bind; [returns_solve|]. intros c. apply IH.
  intros c' s' Hc'. apply Hl. by right.
Qed.

Lemma returns_conditional l :
  (∀ c s, c ∈ l → proto.cp_kind c = Some s → traffic_fits s) → returns (conditional_policy_from_proto now l).
Proof.
  intros Hl. unfold conditional_policy_from_proto. apply returns_bind; [by apply returns_conditional_loop|]. intros [shape t].
  destruct t as [|[c [ph p]] t]; [eauto|]. destruct shape as [[k ph']|]; [|eauto]. apply returns_bind; [|eauto].
  unfold conditional_traffic_policy_to_policy. apply returns_bind; [done|]. intros [? [? []]]; eauto.
Qed.

Lemma returns_policy p : policy_fits p → returns (targeted_policy_from_proto now p).
Proof.
  unfold policy_fits, targeted_policy_from_proto, policy_target_from_proto. intros H. apply returns_bind; [eauto|]. intros t.
  apply returns_bind; [returns_solve|]. intros t'. apply returns_bind; [|eauto]. destruct (proto.po_kind p) as [[s|s|s|l]|]; [| | | |eauto].
  - apply returns_bind; [by apply returns_phased|]. intros []. eauto.
  - apply returns_bind; [by apply returns_backend_policy|]. eauto.
  - apply returns_bind; [by apply returns_frontend|]. eauto.
  - by apply returns_conditional.
Qed.

Definition route_fits (r : proto.Route) : Prop :=
  Forall (λ b, Forall backend_fits (proto.rb_backend_policies b)) (proto.ro_backends r) ∧ Forall traffic_fits (proto.ro_traffic_policies r).

Lemma returns_route r : route_fits r → returns (Route_from_xds now error_display r).
Proof.
  intros [Hb Ht]. unfold Route_from_xds. apply returns_bind; [eauto|]. intros n. apply returns_bind.
  { unfold route_match_from_proto, path_match_from_proto, convert_header_match, query_match_from_proto. returns_solve. }
  intros m. apply returns_bind.
  { apply returns_collect. eapply Forall_impl; [exact Hb|]. intros b Hpb. unfold route_backend_reference_from_proto.
    apply returns_bind; [|eauto]. apply returns_collect. eapply Forall_impl; [exact Hpb|]. apply returns_backend_policy. }
  intros b. apply returns_bind; [|eauto]. apply returns_collect. eapply Forall_impl; [exact Ht|]. apply returns_traffic.
Qed.

Definition resource_backend_fits (b : proto.Backend) : Prop :=
  Forall backend_fits (proto.bk_inline_policies b) ∧
  match proto.bk_kind b with
  | Some (proto.BAi groups) => Forall (Forall (λ p, Forall backend_fits (proto.pr_inline_policies p))) groups
  | _ => True
  end.

Lemma returns_backend mcp_name_error b : resource_backend_fits b → returns (backend_with_policies_from_proto mcp_name_error b).
Proof.
  intros [Hp Hk]. unfold backend_with_policies_from_proto. apply returns_bind.
  { apply returns_collect. eapply Forall_impl; [exact Hp|]. apply returns_backend_policy. }
  intros pols. apply returns_bind; [eauto|]. intros n. apply returns_bind; [|eauto].
  destruct (proto.bk_kind b) as [[]|]; try solve [returns_solve]; [|unfold mcp_target_from_proto; returns_solve].
  apply returns_bind; [|eauto]. unfold provider_groups_from_proto. destruct provider_groups as [|g gs]; [eauto|].
  apply returns_bind; [|intros; returns_solve]. apply returns_collect. eapply Forall_impl; [exact Hk|]. intros g' Hg.
  apply returns_collect, Forall_forall. intros [i p] Hip. unfold named_provider_from_proto, ai_provider_from_proto.
  apply returns_bind; [|intros; returns_solve]. apply returns_collect.
  apply (list_elem_of_fmap_2 snd) in Hip. simpl in Hip. rewrite Forall_forall in Hg.
  assert (p ∈ g') as Hpg. { rewrite snd_zip in Hip; [done|]. by rewrite length_seq. }
  eapply Forall_impl; [apply (Hg p Hpg)|]. apply returns_backend_policy.
Qed.

(** *** Listeners *)

Lemma known_numbers_run what n l ws :
  ∃ ws', known_numbers what n l ws = Ret (ws', Ok (filter (λ m, (1 <=? m)%Z && (m <=? n)%Z) l)).
Proof.
  revert ws. induction l as [|m l IH]; intros ws; simpl; [by eexists|]. rewrite filter_cons. destruct (Z.eqb_spec m 0) as [->|]; [apply IH|].
  destruct ((1 <=? m)%Z && (m <=? n)%Z); simpl; unfold mbind, cm_bind; simpl.
  - destruct (IH ws) as [ws' ->]. by eexists.
  - apply IH.
Qed.

(** The versions left by the range, if it is one. *)
Lemma versions_allowed t :
  match tls_versions_for_range (tls_version (proto.tl_min_version t)) (tls_version (proto.tl_max_version t)) with
  | Ok vs => (∀ v, v ∈ vs ↔ version_allowed t v) ∧ ¬ (proto.tl_min_version t = Some 4%Z ∧ proto.tl_max_version t = Some 3%Z)
  | Err _ => proto.tl_min_version t = Some 4%Z ∧ proto.tl_max_version t = Some 3%Z
  end.
Proof.
  assert (∀ o, (o = Some 3%Z ∧ tls_version o = Some TLS_V1_2) ∨ (o = Some 4%Z ∧ tls_version o = Some TLS_V1_3) ∨
    (o ≠ Some 3%Z ∧ o ≠ Some 4%Z ∧ tls_version o = None)) as Hv.
  { intros [n|]; [|naive_solver]. unfold tls_version. repeat case_match; naive_solver. }
  unfold version_allowed.
  destruct (Hv (proto.tl_min_version t)) as [[-> ->]|[[-> ->]|(H1 & H2 & ->)]], (Hv (proto.tl_max_version t)) as [[-> ->]|[[-> ->]|(H3 & H4 & ->)]];
    unfold tls_versions_for_range; simpl; try (split; [|naive_solver]; intros []; rewrite ?elem_of_cons, elem_of_nil; naive_solver); done.
Qed.

Lemma from_pem_panics_iff t root groups mtls cert key :
  proto.tl_certificate_source t ≠ 1%Z →
  from_pem_with_profile (mkTlsProfile cert key root (tls_version (proto.tl_min_version t)) (tls_version (proto.tl_max_version t))
    (non_empty_list (known_suites t)) groups mtls) = Panic ↔ ¬ tls_fits t.
Proof.
  intros Hsrc. unfold from_pem_with_profile. simpl. pose proof (versions_allowed t) as Hv.
  destruct (tls_versions_for_range _ _) as [vs|e]; [|split; [done|]; intros Hf; destruct Hf; right; right; by left].
  destruct Hv as [Hv Hrange]. destruct (with_protocol_versions _ _ vs) eqn:Ew.
  - split; [done|]. intros Hf. destruct Hf. apply with_protocol_versions_ok in Ew as [(s & Hs & Hsv) _].
    destruct (known_suites t) as [|n l] eqn:Ek; [right; by left|]. right. right. right. exists s. split; [by rewrite Ek|by apply Hv].
  - split; [intros _|done]. intros [?|[Hk|[?|(s & Hs & Hsv)]]]; [done| |done|]; (apply not_true_iff_false in Ew; apply Ew, with_protocol_versions_ok;
      split; [|apply provider_groups_nonempty]).
    + rewrite Hk. simpl. destruct (decide (version_allowed t TLS_V1_3)) as [H3|H3]; [exists 1%Z; split; [by left|by apply Hv]|].
      exists 4%Z. split; [right; right; by left|]. apply Hv. simpl in H3 |- *. destruct (decide (proto.tl_max_version t = Some 3%Z)); tauto.
    + exists s. split; [|by apply Hv]. destruct (known_suites t); [by apply elem_of_nil in Hs|done].
Qed.

Lemma returns_server_tls t : tls_fits t → returns (server_tls_config_from_proto t).
Proof.
  intros Hf ws. unfold server_tls_config_from_proto, convert_tls_cipher_suites, convert_tls_key_exchange_groups, mbind, cm_bind.
  destruct (known_numbers_run "cipher suite" 9 (proto.tl_cipher_suites t) ws) as [w1 ->]. simpl.
  destruct (known_numbers_run "key exchange group" 4 (proto.tl_key_exchange_groups t) w1) as [w2 ->]. simpl.
  destruct (Z.eqb_spec (proto.tl_certificate_source t) 1) as [|Hsrc]; [by destruct (proto.tl_mtls_mode t =? 1)%Z|]. unfold of_outcome.
  destruct (from_pem_with_profile _) as [[sc|e]|] eqn:E; [done..|]. by apply (from_pem_panics_iff t _ _ _ _ _ Hsrc) in E.
Qed.
#[local] Hint Resolve returns_server_tls : core.

Definition listener_fits (l : proto.Listener) : Prop := ∀ t, proto.li_tls l = Some t → tls_fits t.

Lemma returns_listener l : listener_fits l → returns (Listener_from_xds error_display l).
Proof.
  unfold listener_fits, Listener_from_xds, listener_protocol_from_proto. intros Hl. apply returns_bind; [returns_solve|]. intros p.
  apply returns_bind; [|intros; returns_solve]. apply returns_map_error. destruct (proto.li_tls l) as [t|]; repeat case_match; returns_solve.
Qed.

(** ** The store with these conversions *)

Section store.
Context {Sockets : Type} (mcp_name_error : string → string) (os_bind : SocketAddr → option Sockets).
Local Abbreviation conv := (agent_conv now error_display mcp_name_error).

Definition resource_fits (kind : option (XdsKind conv)) : Prop :=
  match kind with
  | Some (XKListener _ l) => listener_fits l
  | Some (XKRoute _ r) => route_fits r
  | Some (XKBackend _ b) => resource_backend_fits b
  | Some (XKPolicy _ p) => policy_fits p
  | _ => True
  end.

Lemma run_conversion_returns {A} (m : CM A) : returns m → run_conversion error_display m ≠ Panic.
Proof. intros H. specialize (H []). unfold run_conversion. by destruct (m []) as [[w r]|]. Qed.

Lemma resource_converts kind : resource_fits kind → converts conv kind.
Proof.
  destruct kind as [[w|w|w|w|w|w]|]; simpl; intros H; [intros ipv6| | | | | |done]; apply run_conversion_returns.
  - unfold Bind_from_xds. returns_solve.
  - by apply returns_listener.
  - by apply returns_route.
  - unfold TCPRoute_from_xds. returns_solve.
  - by apply returns_backend.
  - by apply returns_policy.
Qed.

Lemma agent_binds_keyed : binds_keyed conv.
Proof.
  intros raw ipv6 ws b H. simpl in H. unfold run_conversion in H.
  destruct (Bind_from_xds raw ipv6 []) as [[w [b'|e]]|] eqn:E; [|discriminate H..]. simpl in H. injection H as <- <-.
  unfold Bind_from_xds in E. apply bind_ok in E as (w1 & p & _ & E). apply bind_ok in E as (w2 & t & _ & E). apply ret_ok in E as [-> _].
  intros k l Hl. simpl in Hl. by rewrite lookup_empty in Hl.
Qed.

(** C13. With the conversions as they are, no batch of updates from the control
    plane makes the store panic or breaks its invariant, unless one of them has
    a redirect without a host to a port that is a multiple of 65536, a duration
    of about [2^64] seconds (that is, a negative one), a listener whose versions
    of TLS leave none of its cipher suites, or TLS to a backend without
    certificates of its own where those of the system cannot be added: in a
    policy, or in one within a guard of language models, at any depth. *)
Theorem config_updates_safe ipv6 s us :
  rtc (store_step os_bind) (store_new ipv6) s → Forall (payload_ok resource_fits) us →
  ∃ s' r, handle conv os_bind us s = Ret (s', r) ∧ store_wf s'.
Proof.
  intros Hr Hus. apply store_reachable_wf in Hr. unfold handle.
  pose proof (handle_loop_ok conv os_bind us s [] agent_binds_keyed Hr) as Hl.
  destruct (handle_loop conv os_bind us s []) as [[s' rej]|]; simpl.
  - destruct Hl as [Hs' _]. eauto.
  - exfalso. apply Hl. eapply Forall_impl; [exact Hus|]. intros [name kind|name]; [|done]. apply resource_converts.
Qed.

(** And such a redirect does panic, whatever the store holds. *)
Theorem redirect_port_panics name (p : proto.Policy) t target (r : proto.RequestRedirect) phase us s :
  proto.po_target p = Some t → policy_target_from_proto t [] = Ret ([], Ok target) →
  proto.po_kind p = Some (proto.PKTraffic (proto.mkTrafficPolicySpec phase (Some (proto.TKRequestRedirect r)))) →
  proto.rr_scheme r = "" → ¬ redirect_fits r → handle conv os_bind (XUpdate name (Some (XKPolicy conv p)) :: us) s = Panic.
Proof.
  intros Ht Htarget Hk Hs Hr. unfold handle. simpl. unfold insert_xds_policy. simpl.
  assert (targeted_policy_from_proto now p [] = Panic) as Hp; [|unfold run_conversion; by rewrite Hp].
  unfold targeted_policy_from_proto. rewrite Ht, Hk. unfold mbind at 1, cm_bind at 1. simpl. unfold mbind at 1, cm_bind at 1. rewrite Htarget. simpl.
  unfold phased_traffic_policy_from_proto, traffic_policy_from_proto. simpl.
  assert (request_redirect_from_proto r [] = Panic) as Hrr; [|unfold mbind, cm_bind; by rewrite Hrr].
  unfold redirect_fits in Hr. assert (proto.rr_host r = "") as Hh by (destruct (decide (proto.rr_host r = "")); tauto).
  unfold request_redirect_from_proto. rewrite Hs, Hh. unfold mbind, cm_bind. simpl.
  unfold redirect_authority, default_as_none. simpl. destruct (Z.eqb_spec (proto.rr_port r) 0) as [|Hp]; [tauto|].
  destruct (Z.eqb_spec (as_u16 (proto.rr_port r)) 0) as [Hz|]; [|tauto]. done.
Qed.

(** And so does a listener whose versions leave none of its cipher suites. *)
Theorem tls_profile_panics name (l : proto.Listener) t us s :
  proto.li_protocol l = 2%Z → proto.li_tls l = Some t → ¬ tls_fits t →
  handle conv os_bind (XUpdate name (Some (XKListener conv l)) :: us) s = Panic.
Proof.
  intros Hp Ht Hf. unfold handle. simpl. unfold insert_xds_listener. simpl.
  assert (Listener_from_xds error_display l [] = Panic) as Hl; [|unfold run_conversion; by rewrite Hl].
  unfold Listener_from_xds. rewrite Hp, Ht. unfold mbind at 1, cm_bind at 1. simpl.
  assert (server_tls_config_from_proto t [] = Panic) as Hs; [|unfold map_error, mbind, cm_bind; simpl; by rewrite Hs].
  unfold server_tls_config_from_proto, convert_tls_cipher_suites, convert_tls_key_exchange_groups, mbind, cm_bind.
  destruct (known_numbers_run "cipher suite" 9 (proto.tl_cipher_suites t) []) as [w1 ->]. simpl.
  destruct (known_numbers_run "key exchange group" 4 (proto.tl_key_exchange_groups t) w1) as [w2 ->]. simpl.
  destruct (Z.eqb_spec (proto.tl_certificate_source t) 1) as [Hsrc|Hsrc]; [by destruct Hf; left|].
  unfold of_outcome. fold (known_suites t). by rewrite (proj2 (from_pem_panics_iff t _ _ _ _ _ Hsrc) Hf).
Qed.
End store.

(** ** Conditional policies *)

(** The entries of a policy, each as a policy of its own; the kinds that cannot
    be conditional have one. *)
Definition split_policy {T} (mk : RequestPolicy T → TrafficPolicy) (r : RequestPolicy T) : list (option Expression * TrafficPolicy) :=
  map (λ i : PolicyWithCondition T, (condition i, mk (rp_single (pol i)))) (rp_iter r).

Definition entries_of (tp : TrafficPolicy) : list (option Expression * TrafficPolicy) :=
  match tp with
  | TPExtAuthz r => split_policy TPExtAuthz r
  | TPExtProc r => split_policy TPExtProc r
  | TPLocalRateLimit r => split_policy TPLocalRateLimit r
  | TPRemoteRateLimit r => split_policy TPRemoteRateLimit r
  | TPJwtAuth r => split_policy TPJwtAuth r
  | TPOidc r => split_policy TPOidc r
  | TPBasicAuth r => split_policy TPBasicAuth r
  | TPAPIKey r => split_policy TPAPIKey r
  | TPTransformation r => split_policy TPTransformation r
  | TPCsrf r => split_policy TPCsrf r
  | TPRequestHeaderModifier r => split_policy TPRequestHeaderModifier r
  | TPRequestRedirect r => split_policy TPRequestRedirect r
  | TPUrlRewrite r => split_policy TPUrlRewrite r
  | TPDirectResponse r => split_policy TPDirectResponse r
  | TPCORS r => split_policy TPCORS r
  | other => [(None, other)]
  end.

(** A converted policy is a single one. *)
Lemma traffic_single s ws ws' tp :
  traffic_policy_from_proto now s ws = Ret (ws', Ok tp) → entries_of tp = [(None, tp)].
Proof.
  unfold traffic_policy_from_proto. destruct (proto.tps_kind s) as [[]|]; [..|discriminate];
    repeat match goal with
    | |- (_ ≫= _) _ = _ → _ => let H := fresh in intros (? & ? & _ & H)%bind_ok; revert H; cbv beta
    | |- mret _ _ = _ → _ => by intros [-> _]%ret_ok
    end.
  repeat case_match; try discriminate; by intros [-> _]%ret_ok.
Qed.

Lemma phased_ok s ws ws' phase tp :
  phased_traffic_policy_from_proto now s ws = Ret (ws', Ok (phase, tp)) → ∃ w', traffic_policy_from_proto now s ws = Ret (w', Ok tp).
Proof.
  intros (w1 & p & Hp & H)%bind_ok. apply bind_ok in H as (w2 & ph & _ & H). apply ret_ok in H as [[= -> ->] _]. eauto.
Qed.

(** What an entry of a message became. *)
Definition entry_of (c : proto.ConditionalPolicy) (e : option Expression * (PolicyPhase * TrafficPolicy)) : Prop :=
  (∃ spec w w', proto.cp_kind c = Some spec ∧ phased_traffic_policy_from_proto now spec w = Ret (w', Ok e.2)) ∧
  e.1 = (λ s, (new_permissive s).1) <$> proto.cp_condition c.

Lemma entry_single c e : entry_of c e → entries_of e.2.2 = [(None, e.2.2)].
Proof. destruct e as [co [ph tp]]. intros [(spec & w & w' & _ & (w2 & Hp)%phased_ok) _]. by eapply traffic_single. Qed.

Lemma conditional_loop_ok shape l t ws ws' shape' t' :
  conditional_loop now shape l t ws = Ret (ws', Ok (shape', t')) →
  (∀ e, e ∈ t → shape = Some (traffic_policy_kind_name e.2.2, e.2.1)) →
  ∃ new, t' = t ++ new ∧ Forall2 entry_of l new ∧ (∀ e, e ∈ t' → shape' = Some (traffic_policy_kind_name e.2.2, e.2.1)).
Proof.
  revert shape t ws. induction l as [|c l IH]; intros shape t ws; simpl.
  { intros [[= -> ->] _]%ret_ok Ht. exists []. rewrite app_nil_r. by split_and!. }
  intros (w1 & spec & Hs & H)%bind_ok Ht. apply of_option_ok in Hs as [Hs ->]. apply bind_ok in H as (w2 & [ph tp] & Hp & H).
  apply bind_ok in H as (w3 & sh & Hsh & H). apply bind_ok in H as (w4 & co & Hco & H).
  assert (sh = Some (traffic_policy_kind_name tp, ph) ∧ (shape = None ∨ shape = sh)) as [-> Hshape].
  { destruct shape as [[k p]|]; [|apply ret_ok in Hsh as [-> _]; auto].
    destruct (decide (k ≠ traffic_policy_kind_name tp)) as [|Hk%dec_stable]; [discriminate|].
    destruct (decide (p ≠ ph)) as [|Hph%dec_stable]; [discriminate|]. apply ret_ok in Hsh as [-> _]. subst. auto. }
  destruct (IH _ _ _ H) as (new & -> & Hnew & Hall).
  { intros e [He| ->%list_elem_of_singleton]%elem_of_app; [|done]. specialize (Ht e He). destruct Hshape as [->| ->]; congruence. }
  exists ((co, (ph, tp)) :: new). rewrite <-app_assoc. split; [done|]. split; [|by rewrite <-app_assoc in Hall].
  constructor; [|done]. split; [by eexists spec, _, _|]. simpl. destruct (proto.cp_condition c) as [s|]; simpl in Hco.
  - apply bind_ok in Hco as (w5 & e & He & Hco). apply ret_ok in Hco as [-> _]. rewrite permissive_run in He. unfold new_permissive.
    simpl. destruct (new_strict s); by simplify_eq.
  - by apply ret_ok in Hco as [-> _].
Qed.

Lemma iter_from_inners {T} (l : list (PolicyWithCondition T)) : rp_iter (from_policy_inners l) = l.
Proof. by destruct l as [|? []]. Qed.

Lemma build_policy_ok {T} (mk : RequestPolicy T → TrafficPolicy) variant l ws ws' tp :
  (∀ p r, variant p = Some r → p = mk r) → (∀ r, entries_of (mk r) = split_policy mk r) →
  Forall (λ e, entries_of e.2.2 = [(None, e.2.2)]) l →
  build_policy mk variant l ws = Ret (ws', Ok tp) → entries_of tp = (λ e, (e.1, e.2.2)) <$> l.
Proof.
  intros Hv Hmk Hl H. unfold build_policy in H. apply bind_ok in H as (w1 & inners & Hi & H). apply ret_ok in H as [-> _].
  rewrite Hmk. unfold split_policy. rewrite iter_from_inners. revert ws w1 inners Hi. induction Hl as [|[c [ph p]] l Hp Hl IH]; intros ws w1 inners; simpl.
  { by intros [-> _]%ret_ok. }
  intros (w2 & r & Hr & H)%bind_ok. apply of_option_ok in Hr as [Hr ->]. apply bind_ok in H as (w3 & rest & Hrest & H).
  apply ret_ok in H as [-> _]. apply Hv in Hr as ->. simpl in Hp. rewrite Hmk in Hp. rewrite map_app. pose proof (IH _ _ _ Hrest) as Hi. setoid_rewrite Hi.
  unfold split_policy in Hp. destruct (rp_iter r) as [|i []]; [discriminate Hp| |discriminate Hp]. simpl in *. injection Hp as _ Hp. by rewrite Hp.
Qed.

Lemma to_policy_ok l ws ws' tp :
  Forall (λ e, entries_of e.2.2 = [(None, e.2.2)]) l → conditional_traffic_policy_to_policy l ws = Ret (ws', Ok tp) →
  l ≠ [] ∧ entries_of tp = (λ e, (e.1, e.2.2)) <$> l.
Proof.
  intros Hl H. unfold conditional_traffic_policy_to_policy in H. destruct l as [|e l]; [discriminate|]. split; [done|].
  apply bind_ok in H as (w1 & [c [ph first]] & He & H). destruct first; try discriminate H;
    (eapply build_policy_ok; [| |exact Hl|exact H]; [by intros [] ? [= ->]|done]).
Qed.

(** C9. A conditional policy that is accepted has one entry per entry of the
    message, in the same order: the policy that entry converts to, guarded by
    the condition the entry states (or by none), all in the phase of the
    result.  So no entry is lost, merged with its neighbour, or guarded by the
    condition of another. *)
Theorem conditional_means cond ws ws' pt :
  conditional_policy_from_proto now cond ws = Ret (ws', Ok pt) →
  ∃ phase tp es, pt = PTTraffic phase tp ∧ cond ≠ [] ∧ Forall2 entry_of cond es ∧
    Forall (λ e, e.2.1 = phase) es ∧ entries_of tp = (λ e, (e.1, e.2.2)) <$> es.
Proof.
  intros (w1 & [shape es] & Hl & H)%bind_ok.
  destruct (conditional_loop_ok _ _ _ _ _ _ _ Hl) as (new & -> & Hnew & Hall); [by intros e ?%elem_of_nil|]. simpl in *.
  assert (Forall (λ e, entries_of e.2.2 = [(None, e.2.2)]) new) as Hsingle.
  { eapply Forall2_Forall_r; [exact Hnew|]. apply Forall_true, entry_single. }
  destruct new as [|e new]; [discriminate|]. destruct shape as [[k phase]|]; [|discriminate].
  apply bind_ok in H as (w2 & tp & Htp & H). apply ret_ok in H as [-> _]. apply to_policy_ok in Htp as [_ Htp]; [|done].
  exists phase, tp, (e :: new). split; [done|]. split; [by intros ->; inversion Hnew|]. split; [done|]. split; [|done].
  apply Forall_forall. intros e' He'. specialize (Hall e' He'). congruence.
Qed.
End meaning.
