(* ===== verification/Witnesses.v ===== *)
(** * Concrete instances and witnesses

    A small configuration over concrete instances of the development's
    classes (a literal regular-expression engine, canonical iteration order,
    unit payloads), at which the hypotheses of the theorems hold. *)
From stdpp Require Import base gmap strings list.
From Stdlib Require Import ZArith.
From S2P Require Import Prelude RustStd XdsClient Authorization AgentTypes RouteSet TcpRouteSet BindStore BindStoreFacts PolicyResolution RouteSelect RateLimit DiscoveryTypes LoadBalancer.

Local Open Scope string_scope.

(** ** Instances *)

(** A regular expression that is a literal: it matches at the start of a text
    that begins with it. *)
#[local] Instance lit_regex : RegexEngine :=
  {| Regex := string; regex_as_str := id;
     regex_find := λ r s, if Str.starts_with r s then Some (0, String.length r) else None |}.

#[local] Instance unit_payloads : Payloads :=
  {| payloads_cel := {| Expression := option bool |};
     LocalRateLimitP := (); RemoteRateLimitP := (); ExtAuthzP := (); ExtProcP := ();
     JwtAuthP := (); OidcP := (); BasicAuthP := (); APIKeyP := (); TransformationP := ();
     CsrfP := (); DirectResponseP := (); LlmP := (); TimeoutP := (); RetryP := ();
     HeaderModifierP := (); RequestRedirectP := (); UrlRewriteP := ();
     HostRedirectOverrideP := (); RequestMirrorP := (); CorsP := ();
     BackendTLSP := (); BackendAuthP := (); A2aP := (); InferenceRoutingP := ();
     McpAuthenticationP := (); BackendHTTPP := (); BackendTCPP := (); TunnelP := ();
     SessionPersistenceP := (); HealthP := ();
     FrontendHTTPP := (); FrontendTLSP := (); FrontendTCPP := (); FrontendProxyP := ();
     LoggingP := (); AccessLogOtlpP := (); TracingP := (); MetricsFieldsP := ();
     logging_access_log_policy := λ _, None |}.

#[local] Instance canonical_order : HashOrder :=
  {| set_iter := λ K _ _ X, elements X; map_iter := λ K _ _ V m, map_to_list m;
     set_iter_perm := λ K _ _ X, reflexivity _; map_iter_perm := λ K _ _ V m, reflexivity _ |}.

#[local] Instance plain_http : HttpCrate :=
  {| header_value_try_from := Some; header_to_str := Some; form_urlencoded_parse := λ _, [] |}.

(** ** Sample data *)

Definition a_match : RouteMatch := mkRouteMatch [] (PPathPrefix "/api") None [].
Definition b_match : RouteMatch := mkRouteMatch [] (PExact "/api/v1") (Some "GET") [].

Definition route_a : Route :=
  mkRoute "a" None (mkRouteName "a" "ns" None None) ["*.example.com"] [a_match] [] [].
Definition route_b : Route :=
  mkRoute "b" None (mkRouteName "b" "ns" None None) ["www.example.com"; "*.example.com"]
    [b_match; a_match] [] [].

Definition tcp_a : TCPRoute := mkTCPRoute "ta" None (mkRouteName "ta" "ns" None None) [] [].

Definition sample_request : Request :=
  mkRequest "GET"
    (mkUri (Some "http") (Some "www.example.com") (Some "www.example.com") "/api/v1" (Some "/api/v1") None)
    [] None.

Definition listener_a : Listener :=
  mkListener "l" (mkListenerName "gw" "ns" "l" None) "" LP_HBONE.

Definition bind_a : Bind := mkBind "b" (mkSocketAddr (V4 0) 80) BPhttp TPDirect ∅.

Definition deny_all : RuleSet (option bool) := lit_rules [] [Some true] [].
Definition allow_all : RuleSet (option bool) := lit_rules [Some true] [] [].

Definition no_os : SocketAddr → option () := λ _, None.

Local Abbreviation store0 := (store_new (BackendWithPolicies := ()) (Sockets := ()) true).

(** A store with one HTTP route, one TCP route and one gateway policy, built
    by the store's own operations. *)
Definition gateway_target : PolicyTarget := PTGateway "gw" "ns" None None.
Definition deny_policy : TargetedPolicy :=
  mkTargetedPolicy "p" gateway_target (PTTraffic PhaseRoute (TPAuthorization deny_all)).

Lemma sample_routes : ∃ rs, from_list [route_a; route_b] = Ret rs ∧ wf rs.
Proof.
  destruct (insert_all_ok [route_a; route_b] routeset_empty wf_empty) as (rs & H & Hwf & _).
  by exists rs.
Defined.

Lemma sample_store :
  ∃ s : Store () (), rtc (store_step no_os) store0 s ∧
    insert_tcp_route tcp_a "l" (insert_policy deny_policy store0) = Ret s ∧ store_wf s.
Proof.
  assert (store_step no_os store0 (insert_policy deny_policy store0)) as H1 by constructor.
  destruct (insert_tcp_wf (RTListener "l") tcp_a (insert_policy deny_policy store0)) as (s & Hs & Hwf).
  { eapply store_step_wf; [exact H1|apply store_new_wf]. }
  exists s. split; [|by split].
  eapply rtc_l; [exact H1|]. eapply rtc_l; [|apply rtc_refl]. by eapply step_insert_tcp_route.
Defined.

(** ** Route sets *)

Lemma routeset_insert_wf_witness :
  ∃ rs rs', from_list [route_a; route_b] = Ret rs ∧ RouteSet.insert rs route_a = Ret rs' ∧ wf rs'.
Proof.
  destruct sample_routes as (rs & Hrs & Hwf).
  destruct (routeset_insert_wf rs route_a Hwf) as (rs' & Hi & Hwf' & _). by exists rs, rs'.
Defined.

Lemma routeset_remove_wf_witness :
  ∃ rs, from_list [route_a; route_b] = Ret rs ∧ wf (RouteSet.remove rs "a").
Proof.
  destruct sample_routes as (rs & Hrs & Hwf).
  destruct (routeset_remove_wf rs "a" Hwf) as (Hr & _ & _). by exists rs.
Defined.

Lemma tcp_routeset_correct_witness :
  ∃ rs, Tcp.insert Tcp.empty tcp_a = Ret rs ∧ Tcp.wf rs.
Proof.
  destruct (Tcp.tcp_routeset_correct Tcp.empty tcp_a Tcp.tcp_wf_empty) as ((rs & H & Hwf & _) & _ & _).
  by exists rs.
Defined.

(** ** Store *)

(** Messages that name the sample objects; the policy message is rejected. *)
Definition sample_conv : XdsConv () :=
  {| XdsBind := string; XdsListener := string; XdsRoute := string; XdsTcpRoute := string;
     XdsBackend := string; XdsPolicy := string;
     xb_key := id; xl_key := id; xr_key := id; xt_key := id; xk_key := id; xp_key := id;
     bind_from_xds := λ _ _, Ret ([], Ok bind_a);
     listener_from_xds := λ _, Ret ([], Ok (listener_a, "b"));
     route_from_xds := λ _, Ret (["warned"], Ok (route_b, "l", None));
     tcp_route_from_xds := λ _, Ret ([], Ok (tcp_a, "l"));
     backend_from_proto := λ _, Ret ([], Ok ());
     policy_from_proto := λ _, Ret ([], Err "bad policy") |}.

Lemma keyed_empty : keyed ∅.
Proof. intros k l H. by rewrite lookup_empty in H. Defined.

Lemma store_handle_total_witness :
  ∃ s s', rtc (store_step no_os) store0 s ∧
    handle sample_conv no_os
      [XUpdate "bind/b" (Some (XKBind sample_conv "b"));
       XUpdate "route/b" (Some (XKRoute sample_conv "b"));
       XUpdate "policy/p" None] s = Ret (s', Err [RejWarning "route/b" "warned"; RejError "policy/p" "unknown resource type"]) ∧
    store_wf s'.
Proof.
  destruct sample_store as (s & Hreach & _ & _).
  destruct (store_handle_total no_os true s sample_conv
    [XUpdate "bind/b" (Some (XKBind sample_conv "b"));
     XUpdate "route/b" (Some (XKRoute sample_conv "b"));
     XUpdate "policy/p" None] Hreach)
    as (s' & Hl & Hwf).
  - intros raw ipv6 ws b [= _ <-]. exact keyed_empty.
  - repeat constructor; intros; discriminate.
  - exists s, s'. split; [exact Hreach|]. split; [|exact Hwf]. rewrite Hl. reflexivity.
Defined.

Lemma policy_index_exact_witness :
  "p" ∈ keys_at (insert_policy deny_policy store0) gateway_target.
Proof.
  destruct (policy_index_exact store0 deny_policy gateway_target "p" (store_new_wf true)) as [H _].
  by apply H.
Defined.

Lemma remove_route_exact_witness :
  ∃ s : Store () (), store_wf s ∧ ∀ t rs, http_routes (remove_route "a" s) !! t = Some rs → RouteSet.all rs !! "a" = None.
Proof.
  destruct sample_store as (s & _ & _ & Hwf). exists s. split; [done|].
  exact (proj1 (remove_route_exact s "a" Hwf)).
Defined.

Lemma listener_bind_order_witness :
  binds (insert_bind no_os bind_a (insert_listener no_os listener_a "b" store0)) =
  binds (insert_listener no_os listener_a "b" (insert_bind no_os bind_a store0)).
Proof.
  apply (listener_bind_order store0 no_os listener_a bind_a (store_new_wf true) keyed_empty).
  reflexivity.
Defined.

Lemma removed_pending_listener_returns_witness :
  get_bind_listener
    (insert_bind no_os bind_a
       (remove_listener no_os "l" (insert_listener no_os listener_a "b" store0)))
    "b" "l" = Some listener_a.
Proof.
  apply (removed_pending_listener_returns store0 no_os listener_a bind_a (store_new_wf true) keyed_empty).
  - reflexivity.
  - intros bk b' H. simpl in H. by rewrite lookup_empty in H.
Defined.

(** ** Policies *)

Definition sample_path : RoutePath :=
  mkRoutePath (lis_name listener_a) None [mkRouteName "a" "ns" None None].

Lemma route_deny_dominates_witness :
  ∃ authz, authorization (route_policies (insert_policy deny_policy store0) sample_path
             [[TPAuthorization allow_all]]) = rp_single authz ∧
           validate authz lit_exec = false.
Proof.
  apply (route_deny_dominates (insert_policy deny_policy store0) sample_path _ gateway_target {["p"]} "p"
           deny_policy deny_all lit_exec); try reflexivity.
  by left.
Defined.

Lemma collect_backend_merge_agrees_witness :
  collect_backend ([BPBackendTLS (); BPMcpAuthorization deny_all] ++ [BPBackendTLS (); BPTCP ()]) =
  be_merge (collect_backend [BPBackendTLS (); BPTCP ()])
    (collect_backend [BPBackendTLS (); BPMcpAuthorization deny_all]).
Proof. apply collect_backend_merge_agrees. by right. Defined.

Lemma be_merge_drops_deny_witness :
  ∃ a, be_mcp_authorization
         (be_merge (collect_backend [BPMcpAuthorization deny_all])
            (collect_backend [BPMcpAuthorization allow_all])) = Some a ∧
       validate a lit_exec = true.
Proof.
  refine (proj1 (be_merge_drops_deny [BPMcpAuthorization allow_all] [BPMcpAuthorization deny_all]
    deny_all lit_exec _ _ _ _)).
  - by left.
  - reflexivity.
  - discriminate.
  - reflexivity.
Defined.

(** ** Routing *)

Lemma select_group_best_witness :
  ∃ rs res, from_list [route_a; route_b] = Ret rs ∧
    select_best_route_group rs sample_request = Ret res ∧
    selected rs sample_request (all_matches "www.example.com") res.
Proof.
  destruct sample_routes as (rs & Hrs & Hwf).
  destruct (select_group_best rs sample_request Hwf) as (res & H & Hsel). by exists rs, res.
Defined.

Lemma select_best_route_spec_witness :
  ∃ (s : Store () ()) res, store_wf s ∧
    select_best_route s (mkSocketAddr (V4 1) 80) listener_a sample_request = Ret res.
Proof.
  destruct sample_store as (s & _ & _ & Hwf).
  destruct (select_best_route_spec s (mkSocketAddr (V4 1) 80) listener_a sample_request Hwf)
    as (res & H & _). by exists s, res.
Defined.

Lemma path_prefix_matches_at_segments_witness : matches_request a_match sample_request = true.
Proof.
  apply (path_prefix_matches_at_segments a_match "/api" sample_request eq_refl).
  repeat split; [by exists ["v1"]|done|constructor|constructor].
Defined.

Lemma all_matches_spec_witness : HWildcard "example.com" ∈ all_matches "www.example.com".
Proof.
  apply (all_matches_spec "www.example.com" "*.example.com" eq_refl). right.
  exists "example.com", "www". done.
Defined.

Lemma tcp_listener_routes_shadow_service_witness :
  ∃ (s : Store () ()) rs, get_listener_tcp_routes s "l" = Some rs ∧ store_wf s ∧
    select_best_tcp_route (Sockets := ()) (BackendWithPolicies := ()) s (λ _, None) None listener_a
      (mkSocketAddr (V4 1) 80) = select_tcp_hostnames rs [HNone].
Proof.
  destruct sample_store as (s & _ & Hs & Hwf).
  apply bind_Ret_inv in Hs as (rs & Hins & [= Hs]).
  assert (get_listener_tcp_routes s "l" = Some rs) as Hrs by (subst s; apply lookup_insert_eq).
  destruct (Tcp.tcp_insert_ok Tcp.empty tcp_a Tcp.tcp_wf_empty) as (rs' & Hins' & _ & Hall).
  assert (Tcp.all rs !! "ta" = Some tcp_a) as Hta.
  { replace rs with rs' by (unfold insert_policy in Hins; simpl in Hins; rewrite lookup_empty in Hins; simpl in Hins; congruence).
    rewrite Hall. apply lookup_insert_eq. }
  exists s, rs. split; [done|]. split; [done|].
  refine (proj2 (tcp_listener_routes_shadow_service s (λ _, None) (λ _, None) None listener_a
    (mkSocketAddr (V4 1) 80) rs HNone tcp_a Hwf Hrs _ Hta _)); by left.
Defined.

Lemma path_rank_orders_disagree_witness :
  compare_route_match (mkRouteMatch [] (PPathPrefix "/a") None [])
    (mkRouteMatch [] (PRegex "/a.*") None []) = Gt.
Proof. refine (proj2 (path_rank_orders_disagree "/a" "/a.*" "k1" "k2" _)). simpl. lia. Defined.

(** ** Rate limits *)

Local Open Scope Z_scope.

Definition small_spec : RateLimitSpec := mkSpec 10 2 1000 Requests.
Definition small_bucket : Ratelimiter := mkRatelimiter 10 0 (mkParameters 10 2 1000) 1000.

Lemma small_bucket_ok : bucket_ok small_bucket.
Proof. split; simpl; unfold u64_max; lia. Defined.

Lemma small_in_range t : 0 ≤ t ≤ 1000000 → in_range (parameters small_bucket) t.
Proof.
  intros H. unfold in_range, u64_max; simpl.
  pose proof (Z.div_le_mono t 1000000 1000). change (1000000 / 1000) with 1000 in *. lia.
Defined.

Lemma refill_exact_witness : refill 2500 small_bucket = Ret (refilled small_bucket 2500, Ok ()).
Proof.
  refine (proj1 (proj2 (refill_exact small_bucket 2500 small_bucket_ok _) _)).
  - by apply small_in_range.
  - done.
Defined.

Lemma try_wait_n_returns_witness :
  ∃ rl' r, try_wait_n 2 [1; 2; 3] small_bucket = Ret (Some (rl', r)) ∧ bucket_ok rl'.
Proof.
  destruct (try_wait_n_returns 2 [1; 2; 3] small_bucket small_bucket_ok) as (rl' & r & H & Hb & _).
  - done.
  - done.
  - repeat constructor; by apply small_in_range.
  - simpl. lia.
  - by exists rl', r.
Defined.

Lemma rate_bound_witness : 12 ≤ 10 + 2 * ((1500 - 0) / 1000).
Proof.
  eapply (rate_bound small_spec 0 1500 _ [(10, [5]); (2, [1500]); (1, [1500])]).
  - reflexivity.
  - done.
  - done.
  - done.
  - done.
  - by apply small_in_range.
  - repeat constructor; done.
  - reflexivity.
Defined.

Lemma interleaved_conservation_witness :
  ∃ s l, run_ledger race_schedule (mkSys small_bucket race_threads) (mkLedger 0 0 0) = Ret (s, l).
Proof.
  edestruct (interleaved_conservation race_schedule (mkSys small_bucket race_threads)) as (l & H & _).
  - vm_compute. reflexivity.
  - eexists _, l. exact H.
Defined.

Lemma alone_refines_witness :
  ∃ sch, run sch (mkSys small_bucket [WaitStart 3]) =
         Ret (mkSys (set_available 7 small_bucket) [Done (RWait (Ok ()))]).
Proof. apply (alone_refines 3 [5] small_bucket). reflexivity. Defined.

Lemma zero_interval_panics_witness :
  ∃ lim, try_from (mkSpec 10 2 0 Requests) 7 = Ok lim ∧ check_request [8] lim = Panic.
Proof. apply (zero_interval_panics (mkSpec 10 2 0 Requests) 7 8 []); done. Defined.

(** ** Load balancing *)

(** Finite maps in their canonical order, and a distribution that always
    samples its first positive weight. *)
Lemma canonical_insert V k (v : V) (m : gmap string V) k' v' :
  (k', v') ∈ map_to_list (<[k := v]> m) ↔ (k' = k ∧ v' = v) ∨ (k' ≠ k ∧ (k', v') ∈ map_to_list m).
Proof. rewrite !elem_of_map_to_list, lookup_insert_Some. naive_solver. Qed.

Lemma canonical_remove V k (m : gmap string V) k' v' :
  (k', v') ∈ map_to_list (delete k m) ↔ k' ≠ k ∧ (k', v') ∈ map_to_list m.
Proof. rewrite !elem_of_map_to_list, lookup_delete_Some. naive_solver. Qed.

Lemma canonical_removed V k (m : gmap string V) v : m !! k = Some v ↔ (k, v) ∈ map_to_list m.
Proof. by rewrite elem_of_map_to_list. Qed.

Lemma canonical_absent V k (m : gmap string V) : m !! k = None → delete k m = m.
Proof. apply delete_id. Qed.

Lemma canonical_keys V (m : gmap string V) : NoDup (map_to_list m).*1.
Proof. apply NoDup_fst_map_to_list. Qed.

Lemma canonical_empty V : map_to_list (∅ : gmap string V) = [].
Proof. apply map_to_list_empty. Qed.

#[local] Instance canonical_indexmap : IndexMap :=
  {| imap := λ V, gmap string V; im_empty := λ V, ∅; im_iter := λ V m, map_to_list m;
     im_insert := λ V k v m, <[k := v]> m; im_swap_remove := λ V k m, (delete k m, m !! k);
     im_iter_keys := canonical_keys; im_iter_empty := canonical_empty; im_iter_insert := canonical_insert;
     im_iter_remove := canonical_remove; im_removed := canonical_removed; im_remove_absent := canonical_absent |}.

Definition first_weight (ws : list Z) : option nat := fst <$> list_find (λ w, 0 < w)%Z ws.

Lemma first_weight_ok ws :
  ws ≠ [] → Forall (λ w, 0 ≤ w)%Z ws → (0 < sum_weights ws ≤ u64_max)%Z → is_Some (first_weight ws).
Proof.
  intros _ Hnn [Hpos _]. apply fmap_is_Some.
  destruct (list_find (λ w, 0 < w)%Z ws) eqn:E; [by eexists|]. exfalso.
  apply list_find_None in E. assert (sum_weights ws ≤ 0)%Z; [|lia].
  clear -E. induction E; simpl; lia.
Qed.

#[local] Instance first_positive : RandCrate :=
  {| WeightedIndex := nat; weighted_new := first_weight; weighted_new_ok := first_weight_ok |}.

Definition ep_a : EndpointWithInfo Endpoint nat := mkEWI (mkEndpoint "a" {[ 80%Z := 8080%Z ]} Healthy) 1%nat 1.
Definition ep_b : EndpointWithInfo Endpoint nat := mkEWI (mkEndpoint "b" {[ 80%Z := 8080%Z ]} Healthy) 2%nat 3.

Definition wl_sample (uid : string) (capacity : Z) (services : gmap NamespacedHostname (gmap Z Z)) : Workload :=
  mkWorkload [V4 167772161] None None IPTCP NMStandard uid uid "ns" "" "" "" "" "" "" "" "" "n" [] Healthy ""
    (mkLocality "r" "z" "s") services capacity.

Definition wl_of (uid : string) : option Workload :=
  if bool_decide (uid = "a") then Some (wl_sample "a" 1 ∅)
  else if bool_decide (uid = "b") then Some (wl_sample "b" 0 ∅)
  else None.

Definition sample_ops : list (SetOp (T := Endpoint) (Info := nat) (Health := nat)) :=
  [OpEvent (Add "a" ep_a 0%nat); OpEvent (Add "b" ep_b 1%nat); OpEvict "a" 100 None; OpTimer;
   OpRebucket (λ _, Some 1%nat); OpEvent (Delete "b"); OpEvent (Add "b" ep_b 7%nat)].

Lemma endpoint_set_refines_witness :
  adds_ok 2 sample_ops (∅, []) ∧
  ∃ s, set_run sample_ops (mkWorker (new_empty 2) []) = Ret (mkWorker s []) ∧
       repr s {[ "a" := mkPlaced ep_a 1%nat true ]}.
Proof.
  assert (adds_ok 2 sample_ops (∅, [])) as H.
  { simpl. unfold u32_max. repeat split; try done; vm_compute; congruence. }
  split; [exact H|]. destruct (endpoint_set_refines 2 sample_ops H) as (s & Hrun & Hrepr & _).
  exists s. split; [exact Hrun|]. exact Hrepr.
Defined.

(** A known key that is added to another bucket is in both. *)
Example added_to_two_buckets :
  match set_run [OpEvent (Add "a" ep_a 0%nat); OpEvent (Add "a" ep_a 1%nat)] (mkWorker (T := Endpoint) (Info := nat) (Health := nat) (new_empty 2) []) with
  | Ret w => (λ g, fst <$> im_iter (active g)) <$> w_set w
  | Panic => []
  end = [["a"]; ["a"]].
Proof. vm_compute. reflexivity. Qed.

Definition near_set : EndpointSet Endpoint nat :=
  [mkGroup (<["b" := ep_b]> {["a" := ep_a]}) im_empty (Weighted (0%nat : WeightedIndex))].

Lemma first_picks_ok : picks_ok (λ w : WeightedIndex, (w, w)) (λ _, (0%nat, 0%nat)).
Proof.
  split; [by intros n H|]. intros ws w (y & E & Hy)%fmap_Some. subst w. destruct y as [i c].
  apply list_find_Some in E as (Hi & Hc & _). repeat constructor; exists c; by split.
Defined.

Lemma select_endpoint_exact_witness :
  ∃ r, select_endpoint Nat.compare wl_of (λ w : WeightedIndex, (w, w)) (λ _, (0%nat, 0%nat))
         {[ 80 := 0 ]} 80 None near_set = Ret r ∧
    match r with
    | Some c => usable wl_of near_set 0 80 c ∧ wl_capacity (c_workload c) ≠ 0 ∧
                wl_of (workload_uid (c_endpoint c)) = Some (c_workload c)
    | None => ∀ c, ¬ usable wl_of near_set 0 80 c
    end.
Proof.
  apply (select_endpoint_exact Nat.compare wl_of _ _ {[ 80 := 0 ]} 80 0 None near_set).
  - apply first_picks_ok.
  - done.
  - repeat constructor.
  - reflexivity.
Defined.

(** The draining workload [b] is passed over. *)
Example near_set_selects_a :
  (λ o, option_map (λ c, workload_uid (c_endpoint c)) o) <$>
    select_endpoint Nat.compare wl_of (λ w : WeightedIndex, (w, w)) (λ _, (0%nat, 0%nat))
      {[ 80 := 0 ]} 80 None near_set = Ret (Some "a").
Proof. vm_compute. reflexivity. Qed.

(** A timer left behind by a deleted endpoint ends the eviction of the
    endpoint later added under its key: evicted until 1000, [a] is active
    again once the timer for 100 fires. *)
Example stale_timer_unevicts :
  (λ w, (find_map (λ g, (im_swap_remove "a" (active g)).2) (w_set w), w_heap w)) <$>
    set_run [OpEvent (Add "a" ep_a 0%nat); OpEvict "a" 100 None; OpEvent (Delete "a");
             OpEvent (Add "a" ep_a 0%nat); OpEvict "a" 1000 None; OpTimer]
      (mkWorker (new_empty 1) []) =
  Ret (Some ep_a, [mkUnevict 1000 "a" (None : option nat)]).
Proof. vm_compute. reflexivity. Qed.
