(* ===== verification/WitnessesControl.v ===== *)
(** * Witnesses: control plane, retries and MCP

    Concrete runs at which the hypotheses of the theorems on the discovery
    store, the xDS client, request replay and the MCP gateway hold. *)
From stdpp Require Import base gmap strings list.
From Stdlib Require Import ZArith.
From S2P Require Import Prelude RustStd XdsClient XdsFacts Authorization AgentTypes BindStore BindStoreFacts DiscoveryTypes LoadBalancer Discovery DiscoveryFacts DiscoveryEndpoints DiscoveryRun Gateway Replay MergeStream Mcp McpSession Witnesses.

#[local] Existing Instances lit_regex unit_payloads canonical_order canonical_indexmap first_positive.

Local Open Scope string_scope.
Local Open Scope list_scope.

(** ** Service discovery *)

Definition xds_workload : XdsWorkload :=
  mkXdsWorkload "w1" "w1" "ns" [[10; 0; 0; 1]%Z] "" "" 0 "" "" None None "node" "" "" 0 ""
    {[ "ns/svc" := [mkXdsPort 80 8080 0] ]} [] 0 "" None 0 (Some 2%Z).

Definition xds_service : XdsService :=
  mkXdsService "svc" "ns" "svc" [("", [10; 1; 0; 1]%Z)] [mkXdsPort 80 8080 0] [] None None 0 false.

Definition no_display (e : AddressError) : string := "invalid".

Local Abbreviation DS := (DStore (Info := nat) (Health := nat)).

Definition ret_or {A} (d : A) (o : outcome A) : A := match o with Ret a => a | Panic => d end.

Definition first_update : DOp (Health := nat) := DUpdate (XUpdate "w1" (Some (XAWorkload xds_workload))).
Definition second_update : DOp (Health := nat) := DUpdate (XUpdate "ns/svc" (Some (XAService xds_service))).

Definition discovery_one : DS := ret_or d_new (d_step 0 no_display first_update d_new).
Definition discovery_two : DS := ret_or d_new (d_step 0 no_display second_update discovery_one).

Definition returns {A} (o : outcome A) : bool := match o with Ret _ => true | Panic => false end.

Lemma returns_ret {A} (d : A) o : returns o = true → o = Ret (ret_or d o).
Proof. by destruct o. Defined.

Lemma discovery_two_reach : d_reach 0 no_display discovery_two.
Proof.
  apply (reach_step _ _ discovery_one second_update).
  - apply (reach_step _ _ d_new first_update); [apply reach_new| |].
    2: { apply returns_ret. vm_compute. reflexivity. }
    split; [vm_compute; split; congruence|vm_compute; reflexivity].
  - split; [done|vm_compute; reflexivity].
  - apply returns_ret. vm_compute. reflexivity.
Defined.

Local Abbreviation svc_name := (mkNH "ns" "svc").
Definition svc_sample : option Service := get_by_namespaced_host (services discovery_two) svc_name.

Example svc_sample_known : is_Some svc_sample.
Proof. vm_compute. by eexists. Qed.

Lemma discovery_endpoints_exact_witness :
  ∃ svc wk, svc_sample = Some svc ∧ sets discovery_two !! svc_endpoints svc = Some wk.
Proof.
  destruct svc_sample as [svc|] eqn:Hsvc; [|vm_compute in Hsvc; discriminate Hsvc]. exists svc.
  destruct (discovery_endpoints_exact 0 no_display discovery_two discovery_two_reach) as [_ H].
  destruct (H svc_name svc Hsvc) as (wk & Hwk & _). exists wk. split; [reflexivity|exact Hwk].
Defined.

(** The workload's endpoint, with the port of the service, in the one bucket. *)
Example discovery_two_endpoints :
  (λ svc, (λ wk : Worker Endpoint nat nat,
     (λ g, (λ ke, (ke.1, map_to_list (ep_port (ewi_endpoint ke.2)), ewi_capacity ke.2)) <$> im_iter (active g)) <$> w_set wk)
       <$> sets discovery_two !! svc_endpoints svc) <$> svc_sample
  = Some (Some [[("w1", [(80, 8080)], 2)]])%Z.
Proof. vm_compute. reflexivity. Qed.

Lemma find_address_best_witness :
  ∃ w, find_address (workloads discovery_two) (mkNetworkAddress "" (V4 167772161)) = Ret (Some w) ∧
       by_uid (workloads discovery_two) !! wl_uid w = Some w.
Proof.
  destruct (find_address_best 0 no_display discovery_two (mkNetworkAddress "" (V4 167772161)) discovery_two_reach)
    as ([w|] & Hr & H).
  - exists w. split; [exact Hr|]. exact (proj1 H).
  - exfalso. vm_compute in Hr. discriminate Hr.
Defined.

Lemma service_routing_witness :
  ∃ svc, svc_sample = Some svc ∧
    ∃ wk r, sets discovery_two !! svc_endpoints svc = Some wk ∧
      select_endpoint Nat.compare (find_uid (workloads discovery_two)) (λ w : WeightedIndex (RandCrate := first_positive), (w, w)) (λ _, (0, 0))
        (svc_ports svc) 80 None (w_set wk) = Ret r.
Proof.
  destruct svc_sample as [svc|] eqn:E; [|vm_compute in E; discriminate E].
  exists svc. split; [reflexivity|].
  assert (svc_ports svc !! 80%Z = Some 8080%Z) as Hp.
  { assert (svc_sample ≫= (λ svc, svc_ports svc !! 80%Z) = Some 8080%Z) as H by (vm_compute; reflexivity).
    rewrite E in H. exact H. }
  destruct (service_routing (RC := first_positive) 0 no_display Nat.compare (λ w : WeightedIndex (RandCrate := first_positive), (w, w)) (λ _, (0, 0))
    discovery_two svc_name svc 80 8080 first_picks_ok discovery_two_reach E Hp) as (wk & r & Hwk & Hr & _).
  exists wk, r. split; [exact Hwk|exact Hr].
Defined.

(** ** The control plane *)

Definition sample_decode (body : list Z) : result (option XdsAddress) string :=
  if bool_decide (body = [1%Z]) then Ok (Some (XAWorkload xds_workload)) else Err "bad address".

Definition no_resource (body : list Z) : result (option (XdsKind sample_conv)) string := Ok None.

Definition count_json (l : list RejectedConfigMessage) : string := "rejected".

Lemma sample_keyed : binds_keyed sample_conv.
Proof. intros raw ipv6 ws b [= _ <-]. exact keyed_empty. Defined.

Lemma sample_decode_ok body a : sample_decode body = Ok a → update_ok (XUpdate "" a).
Proof. unfold sample_decode. case_bool_decide; [|done]. intros [= <-]. vm_compute. split; congruence. Defined.

Lemma no_resource_converts cns body k : received cns body → no_resource body = Ok k → converts sample_conv k.
Proof. intros _ [= <-]. exact I. Defined.

(** A response with a workload and a body that does not decode, a removal for
    the other type, and a reconnection. *)
Definition sample_connections : list Connection :=
  [mkConnection true
     [mkResponse ADDRESS_TYPE "n1" [mkProtoResource "w1" (Some [1%Z]); mkProtoResource "w2" (Some [2%Z])] [];
      mkResponse ADP_TYPE "n2" [] ["r"]] (Err ETransport);
   mkConnection true [mkResponse ADDRESS_TYPE "n3" [] ["w1"]] (Ok ())].

Local Abbreviation gw_config := (gateway_config (Info := nat) (Health := nat) 0 no_display sample_conv no_os sample_keyed
  sample_decode no_resource "gw" "ns" "10.0.0.9" "pod" "ns" "node").
Local Abbreviation gw_world := (gateway_world (Info := nat) (Health := nat) 0 no_display sample_conv no_os sample_keyed
  sample_decode no_resource "gw" "ns" "10.0.0.9" "pod" "ns" "node" (received sample_connections) sample_decode_ok
  (no_resource_converts sample_connections)).
Local Abbreviation gw_stores := (mkStores (store_new (Sockets := ()) (BackendWithPolicies := ()) true) (d_new (Info := nat) (Health := nat))).

Lemma gw_stores_inv n : (Z.of_nat n < 2 ^ 32)%Z → stores_inv n gw_stores.
Proof.
  intros Hn. split; [apply store_new_wf|]. split; [apply d_new_inv|]. unfold room. simpl. rewrite map_size_empty. lia.
Defined.

Lemma gateway_client_safe_witness :
  ∃ w' c' sents b, ads_run count_json sample_connections INITIAL_BACKOFF gw_stores (ads_new gw_config) = Ret (w', c', sents, b) ∧
    store_wf (st_binds w') ∧ d_inv (st_discovery w').
Proof.
  destruct (gateway_client_safe (Info := nat) (Health := nat) 0 no_display sample_conv no_os sample_keyed sample_decode
    no_resource count_json "gw" "ns" "10.0.0.9" "pod" "ns" "node" true sample_connections sample_decode_ok (no_resource_converts sample_connections))
    as (w' & c' & sents & b & Hrun & Hb & Hd & _).
  - vm_compute. reflexivity.
  - exists w', c', sents, b. split; [exact Hrun|]. split; [exact Hb|exact Hd].
Defined.

Lemma client_resumes_witness :
  ∃ w' c' sents b, ads_run count_json sample_connections INITIAL_BACKOFF gw_stores (ads_new gw_config) = Ret (w', c', sents, b).
Proof.
  destruct (client_resumes count_json gw_config stores_inv sample_connections 0 gw_stores gw_world)
    as (w' & c' & sents & b & Hrun & _).
  - apply gw_stores_inv. vm_compute. reflexivity.
  - intros q Hq. exact (gateway_watched 0 no_display sample_conv no_os sample_keyed sample_decode no_resource _ _ _ _ _ _ q Hq).
  - exists w', c', sents, b. exact Hrun.
Defined.

Lemma client_ready_iff_witness :
  ∃ w' c' sents b, ads_run count_json sample_connections INITIAL_BACKOFF gw_stores (ads_new gw_config) = Ret (w', c', sents, b).
Proof.
  destruct (client_ready_iff count_json gw_config stores_inv sample_connections 0 gw_stores gw_world)
    as (w' & c' & sents & b & Hrun & _).
  - apply gw_stores_inv. vm_compute. reflexivity.
  - vm_compute. discriminate.
  - exists w', c', sents, b. exact Hrun.
Defined.

(** The rejected response leaves the client waiting for addresses; the removal
    on the second connection is accepted and makes it ready. *)
Example sample_ready :
  (λ r : _ * AdsClient * _ * _, block_ready r.1.1.2) <$>
    ads_run count_json sample_connections INITIAL_BACKOFF gw_stores (ads_new gw_config) = Ret false ∧
  (λ r : _ * AdsClient * _ * _, block_ready r.1.1.2) <$>
    ads_run count_json (take 1 sample_connections) INITIAL_BACKOFF gw_stores (ads_new gw_config) = Ret true.
Proof. vm_compute. by split. Qed.

(** ** Replayed bodies *)

Definition two_chunks : list (Event nat ()) := [EFrame (FData [1; 2]%Z); EFrame (FData [3]%Z); EFrame (FTrailers 7)].

Lemma replay_faithful_witness :
  ∃ w w' r, try_new two_chunks 0 16 = Ok w ∧ poll 0 w = Ret (w', r).
Proof.
  destruct (try_new two_chunks 0 16) as [w|] eqn:E; [|discriminate E].
  destruct (replay_faithful two_chunks 16 w {[0 := ([], false)]} 0) as (w' & r & g & Hp & _).
  - by apply (rr_new _ _ 0).
  - injection E as <-. reflexivity.
  - by exists w, w', r.
Defined.

Definition flaky (n : nat) : Attempt :=
  mkAttempt [APoll n; APoll n; APoll n; ADrop n] (Response (if bool_decide (n = 0) then 503 else 200)) true.

Lemma flaky_polls_own : polls_own_body flaky.
Proof. intros n i Hi. simpl in Hi. rewrite !elem_of_cons, elem_of_nil in Hi. naive_solver. Qed.

Lemma retries_faithful_witness :
  ∃ r outs, send_with_retries flaky (Some (mkRetryPolicy 2 [503%Z])) two_chunks 0 = Ret (r, outs).
Proof.
  destruct (retries_faithful flaky (mkRetryPolicy 2 [503%Z]) two_chunks 0) as (r & outs & m & H & _); [done|exact flaky_polls_own|].
  by exists r, outs.
Defined.

(** The retried request is read again from the start. *)
Example flaky_replayed :
  send_with_retries flaky (Some (mkRetryPolicy 2 [503%Z])) two_chunks 0 =
  Ret (Response 200, let reads n := pair n <$> [Replay.Item (FData [1; 2]%Z); Replay.Item (FData [3]%Z); Replay.Item (FTrailers 7)] in [reads 0; reads 1]).
Proof. vm_compute. reflexivity. Qed.

(** An upstream that has not yet begun to read the body of the second attempt
    when that times out, and begins once the third attempt has: the state is
    taken, and the poll panics. *)
Definition late_reader (n : nat) : Attempt :=
  match n with
  | 0 => mkAttempt [ADrop 0] (ErrorResponse UpstreamCallFailed) true
  | 1 => mkAttempt [] (ErrorResponse RequestTimeout) true
  | _ => mkAttempt [APoll 2; APoll 1] (Response 200) true
  end.

Example late_poll_panics : send_with_retries late_reader (Some (mkRetryPolicy 2 [503%Z])) two_chunks 0 = Panic.
Proof. vm_compute. reflexivity. Qed.

(** ** Merged streams *)

Definition two_streams : list (string * list (StreamEvent (Msg := nat) (Res := nat) (Err_ := string))) :=
  [("a", [SOther 1; SPending; SResponse 10]); ("b", [SResponse 20])].

Lemma merge_stream_correct_witness :
  ∃ items, drive "ended" (λ rs, Ok (length rs)) 6 (merge_new two_streams true FailClosed) = Ret (items, true).
Proof.
  destruct (merge_stream_correct "ended" (λ rs, Ok (length rs)) two_streams true FailClosed 6) as (items & H & _).
  - vm_compute. lia.
  - by exists items.
Defined.

(** ** MCP *)

Definition to_server (t : string) : result Upstream string := Ok (mkUpstream McpStreamable t None None).

Definition two_servers : UpstreamGroup :=
  mkUpstreamGroup (<["beta" := mkUpstream McpStreamable "beta" None None]>
    {["alpha" := mkUpstream McpStreamable "alpha" None None]}) None true FailClosed.

Definition lit_executor (_ : ()) (_ : ResourceType) : Executor (option bool) bool () := lit_exec.

Definition two_listings : list (string * ServerResult nat) :=
  [("alpha", ListToolsResult [mkItem nat "echo" 1]); ("beta", ListToolsResult [mkItem nat "add" 2])].

Lemma two_servers_connect :
  upstream_group_new id (λ _, false) to_server "none" ["alpha"; "beta"] FailClosed = Ok two_servers.
Proof. vm_compute. reflexivity. Defined.

Lemma listed_items_callable_witness :
  ∃ k r j, (k, r) ∈ two_listings ∧ j ∈ tools_of r ∧
    dispatch lit_executor (mkRelay two_servers [allow_all]) () (CallToolRequest "beta_add" 0) =
      Ok (Single k (CallToolRequest (it_name j) 0)).
Proof.
  destruct (listed_items_callable lit_executor id (λ _, false) to_server "none" ["alpha"; "beta"] FailClosed two_servers
    [allow_all] () two_listings 0 two_servers_connect) as [H _].
  - repeat constructor; vm_compute; reflexivity.
  - repeat constructor; (eexists; vm_compute; reflexivity).
  - assert (merge_tools lit_executor (mkRelay two_servers [allow_all]) () two_listings =
      ListToolsResult [mkItem nat "alpha_echo" 1; mkItem nat "beta_add" 2]) as Hlist by (vm_compute; reflexivity).
    rewrite Hlist in H. destruct (proj1 (H (mkItem nat "beta_add" 2))) as (k & r & j & Hk & Hj & _ & _ & Hd).
    + right. left.
    + exists k, r, j. split; [exact Hk|]. split; [exact Hj|exact Hd].
Defined.

(** A call of a tool, in a session and without. *)
Definition all_taken (s : Sent nat) : bool := true.
Definition beta_call : ClientMessage nat := ClientRequestMessage (CallToolRequest "beta_add" 0).

Lemma single_requests_authorized_witness :
  (send_message lit_executor all_taken (mkRelay two_servers [allow_all]) () beta_call).1 = [SentRequest (Single "beta" (CallToolRequest "add" 0))] ∧
  item_authorized lit_executor (mkRelay two_servers [allow_all]) () "beta" (CallToolRequest "add" 0).
Proof.
  assert ((send_message lit_executor all_taken (mkRelay two_servers [allow_all]) () beta_call).1 = [SentRequest (Single "beta" (CallToolRequest "add" 0))])
    as H by (vm_compute; reflexivity).
  split; [exact H|].
  destruct (single_requests_authorized lit_executor all_taken 0 (mkRelay two_servers [allow_all]) () beta_call) as [Hf _].
  rewrite H in Hf. exact (Forall_inv Hf).
Defined.

(** Without sessions, a server is initialized even where the call is refused. *)
Example refused_call_initializes :
  stateless_send_and_initialize lit_executor all_taken 7 (mkRelay two_servers [deny_all]) () beta_call =
  ([SentRequest (Single "beta" (InitializeRequest "2025-11-25" false 7)); NotifySingle "beta" InitializedNotification],
   Err (Refused (EAuthorization "tool" "beta_add"))).
Proof. vm_compute. reflexivity. Qed.

Definition with_ids : UpstreamGroup :=
  mkUpstreamGroup (<["beta" := mkUpstream McpStreamable "beta" (Some "sb") None]>
    {["alpha" := mkUpstream McpStreamable "alpha" (Some "sa") None]}) None true FailClosed.

Definition ids : list MCPSession :=
  [mkMCPSession (Some "alpha") (Some "sa") None; mkMCPSession (Some "beta") (Some "sb") None].

Lemma same_two_servers : same_servers with_ids two_servers.
Proof.
  assert (im_iter (by_name with_ids) = [("alpha", mkUpstream McpStreamable "alpha" (Some "sa") None);
    ("beta", mkUpstream McpStreamable "beta" (Some "sb") None)]) as H1 by (vm_compute; reflexivity).
  assert (im_iter (by_name two_servers) = [("alpha", mkUpstream McpStreamable "alpha" None None);
    ("beta", mkUpstream McpStreamable "beta" None None)]) as H0 by (vm_compute; reflexivity).
  unfold same_servers. rewrite H1, H0. split; [reflexivity|].
  split; [intros k u [[= -> ->]|[[= -> ->]|[]%elem_of_nil]%elem_of_cons]%elem_of_cons; reflexivity|].
  intros k u u0 [[= -> ->]|[[= -> ->]|[]%elem_of_nil]%elem_of_cons]%elem_of_cons
    [[= ->]|[[= ->]|[]%elem_of_nil]%elem_of_cons]%elem_of_cons; by split_and!.
Defined.

Definition resume_inputs : RelayInputs (Expression := option bool) := mkInputs [allow_all] 100 (Ok two_servers).

Local Open Scope Z_scope.

Definition one_session : Manager (Expression := option bool) :=
  mkManager {["s" := mkEntry (mkSession "s" 0 [deny_all] false) 0 100]} {[0%nat := two_servers]} 1.

Definition busy_run : list (Z * Op (Expression := option bool)) :=
  [(60, OpGet "s" (mkInputs [allow_all] 100 (Err ()))); (90, OpForget "t"); (120, OpReap)].

(** Used at 60, the session survives the reaper at 120, and not one at 160. *)
Lemma session_lifetime_witness :
  ∃ st', m_run (λ _, Err ()) busy_run one_session = Ret st' ∧
    is_Some (sessions (reap_expired_entries 159 st') !! "s") ∧ sessions (reap_expired_entries 160 st') !! "s" = None.
Proof.
  destruct (session_lifetime (λ _, Err ()) busy_run "s" (mkEntry (mkSession "s" 0 [deny_all] false) 0 100) two_servers one_session 60)
    as (st' & Hrun & _ & _ & Hreap).
  - intros h Hh. simpl in *. rewrite lookup_singleton_ne; [reflexivity|lia].
  - reflexivity.
  - reflexivity.
  - reflexivity.
  - reflexivity.
  - exists st'. split; [exact Hrun|]. split; [apply Hreap; reflexivity|].
    apply eq_None_not_Some. rewrite Hreap. simpl. lia.
Defined.
