(* ===== verification/Pool.v ===== *)
(** * The connection pool

    [crates/pool/src/pool.rs]: connections to a host, shared by requests. Every
    operation locks the host of its key, and hosts share nothing but settings,
    so this is the pool of one host; the operations run one at a time.

    A connection is a number; for HTTP/2 it stands for the handle and for its
    [Arc<H2Load>], which is looked up in a map of loads. A waiter is the number
    of its channel. What the other side of a channel or connection does is the
    environment [Env] of an operation. *)
From stdpp Require Import base gmap list.
From Stdlib Require Import ZArith.
From S2P Require Import Prelude.

Local Open Scope list_scope.

(** [usize] arithmetic; in a build with overflow checks it panics. *)
Definition usub (a b : nat) : outcome nat := if decide (b ≤ a) then Ret (a - b) else Panic.
Definition uadd (a b : nat) : outcome nat := if decide (Z.of_nat (a + b) < 2 ^ 64)%Z then Ret (a + b) else Panic.

(** ** Streams of an HTTP/2 connection *)

Record H2Load := mkLoad { active_streams : nat; max_streams : nat }.
Abbreviation Loads := (gmap nat H2Load).

Definition h2load_new (max : nat) : H2Load := mkLoad 0 (max `max` 1).

Definition remaining_capacity (ld : H2Load) : outcome nat := usub (max_streams ld) (active_streams ld).

Inductive CapacityReservationResult := NoCapacity | ReservedAndFilled | ReservedButNotFilled.

Definition try_reserve_stream_slot (ld : H2Load) : H2Load * CapacityReservationResult :=
  if decide (active_streams ld < max_streams ld) then
    (mkLoad (S (active_streams ld)) (max_streams ld),
     if decide (max_streams ld ≤ active_streams ld + 1) then ReservedAndFilled else ReservedButNotFilled)
  else (ld, NoCapacity).

(** The streams left, and whether there were as many as allowed. *)
Definition release_stream_slot (ld : H2Load) : outcome (H2Load * (nat * bool)) :=
  n ← usub (active_streams ld) 1;
  Ret (mkLoad n (max_streams ld), (n, bool_decide (active_streams ld = max_streams ld))).

(** ** Connections *)

Inductive HttpConnection := Http1 (c : nat) | Http2 (l : nat).

#[global] Instance HttpConnection_eq_dec : EqDecision HttpConnection.
Proof. solve_decision. Defined.

Definition maybe_clone (c : HttpConnection) : option HttpConnection :=
  match c with Http1 _ => None | Http2 l => Some (Http2 l) end.

Definition capacity (loads : Loads) (c : HttpConnection) : outcome nat :=
  match c with
  | Http1 _ => Ret 1
  | Http2 l => ld ← expect (loads !! l); remaining_capacity ld
  end.

(** [is_ready] of a connection; what a sender of a channel sees of its receiver:
    it waits, is gone, or goes between the look and the sending; the clock. *)
Inductive TxState := TxLive | TxGoing | TxCanceled.

#[global] Instance TxState_eq_dec : EqDecision TxState.
Proof. solve_decision. Defined.

Record Env := mkEnv { is_open : HttpConnection → bool; tx_state : nat → TxState; now : Z }.

Definition is_canceled (e : Env) (w : nat) : bool := bool_decide (tx_state e w = TxCanceled).

(** ** Connections with streams: [H2Pool] *)

(** [remove], [remove_by_load]: at the first position of the load. *)
Fixpoint h2_remove (l : nat) (q : list nat) : list nat :=
  match q with
  | [] => []
  | x :: q' => if decide (x = l) then q' else x :: h2_remove l q'
  end.

Definition ensure_tracked (l : nat) (loads : Loads) (q : list nat) : outcome (list nat) :=
  if decide (l ∈ q) then Ret q
  else
    ld ← expect (loads !! l);
    r ← remaining_capacity ld;
    Ret (if decide (r = 0) then q ++ [l] else l :: q).

Definition mark_full (l : nat) (q : list nat) : list nat := if decide (l ∈ q) then h2_remove l q ++ [l] else q.
Definition mark_active_by_load (l : nat) (q : list nat) : list nat := if decide (l ∈ q) then l :: h2_remove l q else q.
Definition mark_active (l : nat) (q : list nat) : list nat := l :: h2_remove l q.

Definition increment_load (c : HttpConnection) (loads : Loads) (q : list nat)
    : outcome (Loads * list nat * option CapacityReservationResult) :=
  match c with
  | Http1 _ => Ret (loads, q, None)
  | Http2 l =>
      ld ← expect (loads !! l);
      let '(ld', res) := try_reserve_stream_slot ld in
      Ret (<[l := ld']> loads, match res with ReservedAndFilled => mark_full l q | _ => q end, Some res)
  end.

Definition maybe_insert_new (c : HttpConnection) (reserve : bool) (loads : Loads) (q : list nat) : outcome (Loads * list nat) :=
  match c with
  | Http1 _ => Ret (loads, q)
  | Http2 l =>
      if reserve then
        ld ← expect (loads !! l);
        let '(ld', res) := try_reserve_stream_slot ld in
        match res with
        | NoCapacity => Panic                    (* the debug_assert *)
        | _ => Ret (<[l := ld']> loads, l :: q)
        end
      else Ret (loads, l :: q)
  end.

Fixpoint h2_reserve (e : Env) (loads : Loads) (q : list nat) : outcome (Loads * list nat * option nat) :=
  match q with
  | [] => Ret (loads, [], None)
  | l :: q' =>
      if negb (is_open e (Http2 l)) then h2_reserve e loads q'
      else
        ld ← expect (loads !! l);
        let '(ld', res) := try_reserve_stream_slot ld in
        match res with
        | NoCapacity => Ret (loads, q, None)
        | ReservedAndFilled => Ret (<[l := ld']> loads, q' ++ [l], Some l)
        | ReservedButNotFilled => Ret (<[l := ld']> loads, q, Some l)
        end
  end.

(** ** The pool of a host *)

Inductive ExpectedCapacity := ECHttp1 | ECHttp2 | ECAuto.
Inductive CapacityCache := Guess (c : ExpectedCapacity) | Cached (n : nat).

Definition expected_capacity (c : CapacityCache) (expected_http2_capacity : nat) : nat :=
  match c with
  | Guess ECHttp1 => 1
  | Guess ECHttp2 | Guess ECAuto => expected_http2_capacity
  | Cached n => n
  end.

Record PoolSettings := mkSettings {
  max_idle_per_host : nat;
  timeout : option Z;
  expected_http2_capacity : nat;
}.

Record Idle := mkIdle { idle_at : Z; idle_value : HttpConnection }.

Record HostPool := mkHost {
  connecting : nat;
  expected_connecting_capacity : nat;
  per_connection_capacity_cache : CapacityCache;
  idle : list Idle;
  active_h2 : list nat;
  waiters : list nat;
}.

Definition host_new (c : ExpectedCapacity) : HostPool := mkHost 0 0 (Guess c) [] [] [].

Definition set_connecting n (h : HostPool) := mkHost n (expected_connecting_capacity h) (per_connection_capacity_cache h) (idle h) (active_h2 h) (waiters h).
Definition set_expected n (h : HostPool) := mkHost (connecting h) n (per_connection_capacity_cache h) (idle h) (active_h2 h) (waiters h).
Definition set_cache c (h : HostPool) := mkHost (connecting h) (expected_connecting_capacity h) c (idle h) (active_h2 h) (waiters h).
Definition set_idle i (h : HostPool) := mkHost (connecting h) (expected_connecting_capacity h) (per_connection_capacity_cache h) i (active_h2 h) (waiters h).
Definition set_active q (h : HostPool) := mkHost (connecting h) (expected_connecting_capacity h) (per_connection_capacity_cache h) (idle h) q (waiters h).
Definition set_waiters w (h : HostPool) := mkHost (connecting h) (expected_connecting_capacity h) (per_connection_capacity_cache h) (idle h) (active_h2 h) w.

(** What a waiter is told; [RDropped] when its channel is dropped unused. *)
Inductive PoolError := PoolDisabled | CheckoutNoLongerWanted | CheckedOutClosedValue | WaitingOnSharedFailedConnection | ConnectionDroppedWithoutCompletion | ConnectionLowCapacity.
Inductive Reply := RConn (c : HttpConnection) (is_reused : bool) | RNormal | RClosed (e : PoolError) | RDropped.

(** The host, the loads, whether the idle task was spawned, and the replies. *)
Record PS := mkPS { ps_host : HostPool; ps_loads : Loads; ps_idle_task : bool; ps_out : list (nat * Reply) }.

Definition on_host (f : HostPool → HostPool) (s : PS) : PS := mkPS (f (ps_host s)) (ps_loads s) (ps_idle_task s) (ps_out s).
Definition put_h2 (loads : Loads) (q : list nat) (s : PS) : PS := mkPS (set_active q (ps_host s)) loads (ps_idle_task s) (ps_out s).
Definition reply (w : nat) (r : Reply) (s : PS) : PS := mkPS (ps_host s) (ps_loads s) (ps_idle_task s) (ps_out s ++ [(w, r)]).
Definition replies (rs : list (nat * Reply)) (s : PS) : PS := mkPS (ps_host s) (ps_loads s) (ps_idle_task s) (ps_out s ++ rs).

Section pool.
Context (settings : PoolSettings).

Definition push_idle_with_cap (max_idle : nat) (value : HttpConnection) (at_ : Z) (l : list Idle) : list Idle :=
  if decide (max_idle = 0) then l
  else (if decide (max_idle ≤ length l) then tail l else l) ++ [mkIdle at_ value].

Definition ensure_idle_interval (s : PS) : PS :=
  mkPS (ps_host s) (ps_loads s) (match timeout settings with Some _ => true | None => ps_idle_task s end) (ps_out s).

Definition release_h2_stream_without_returning_to_idle (c : HttpConnection) (loads : Loads) (q : list nat)
    : outcome (Loads * list nat) :=
  match c with
  | Http1 _ => Ret (loads, q)
  | Http2 l =>
      ld ← expect (loads !! l);
      '(ld', (remaining, was_at_max)) ← release_stream_slot ld;
      Ret (<[l := ld']> loads,
           if decide (remaining = 0) then q else if was_at_max : bool then mark_active_by_load l q else q)
  end.

(** The loop of [send_connection]: the waiters left, the connection left, and
    how many it was sent to. *)
Record SendSt := mkSend {
  sn_waiters : list nat;
  sn_next : option HttpConnection;
  sn_sent : nat;
  sn_loads : Loads;
  sn_active : list nat;
  sn_out : list (nat * Reply);
}.

Fixpoint send_loop (e : Env) (reused : bool) (cap : nat) (ws : list nat) (next_conn : option HttpConnection)
    (sent : nat) (loads : Loads) (q : list nat) (out : list (nat * Reply)) : outcome SendSt :=
  let stop ws := Ret (mkSend ws next_conn sent loads q out) in
  match ws with
  | [] => stop []
  | tx :: ws' =>
      match cap with
      | 0 => stop ws
      | S cap' =>
          if is_canceled e tx then send_loop e reused cap ws' next_conn sent loads q out
          else
            match next_conn with
            | None => Ret (mkSend ws' None sent loads q (out ++ [(tx, RDropped)]))
            | Some this_conn =>
                let next := maybe_clone this_conn in
                '(loads, q, res) ← increment_load this_conn loads q;
                match res with
                | Some NoCapacity => Ret (mkSend ws' next sent loads q (out ++ [(tx, RDropped)]))
                | _ =>
                    if decide (tx_state e tx = TxLive) then
                      q ← match next with Some (Http2 l) => ensure_tracked l loads q | _ => Ret q end;
                      send_loop e reused cap' ws' next (S sent) loads q (out ++ [(tx, RConn this_conn reused)])
                    else
                      '(loads, q) ← release_h2_stream_without_returning_to_idle this_conn loads q;
                      send_loop e reused cap ws' (Some this_conn) sent loads q out
                end
            end
      end
  end.

Definition send_connection (e : Env) (reused : bool) (cap : nat) (c : HttpConnection) (s : PS) : outcome PS :=
  r ← send_loop e reused cap (waiters (ps_host s)) (Some c) 0 (ps_loads s) (active_h2 (ps_host s)) [];
  let s := put_h2 (sn_loads r) (sn_active r) (on_host (set_waiters (sn_waiters r)) (replies (sn_out r) s)) in
  Ret (match sn_sent r, sn_next r with
       | 0, Some c =>
           let s := match c with
                    | Http2 l => on_host (λ h, set_active (h2_remove l (active_h2 h)) h) s
                    | Http1 _ => s
                    end in
           let s := ensure_idle_interval s in
           on_host (λ h, set_idle (push_idle_with_cap (max_idle_per_host settings) c (now e) (idle h)) h) s
       | _, _ => s
       end).

Definition return_idle (e : Env) (c : HttpConnection) (s : PS) : outcome PS := send_connection e true 1 c s.

(** The end of a stream: [return_h2_stream]. *)
Definition return_h2_stream (e : Env) (l : nat) (s : PS) : outcome PS :=
  ld ← expect (ps_loads s !! l);
  '(ld', (remaining, was_at_max)) ← release_stream_slot ld;
  let q := active_h2 (ps_host s) in
  let s := put_h2 (<[l := ld']> (ps_loads s)) q s in
  if decide (remaining = 0) then
    if decide (l ∈ q) then
      let s := on_host (set_active (h2_remove l q)) s in
      if is_open e (Http2 l) then return_idle e (Http2 l) s else Ret s
    else Ret s
  else if was_at_max : bool then Ret (on_host (set_active (mark_active_by_load l q)) s)
  else Ret s.

Definition return_connection (e : Env) (c : HttpConnection) (s : PS) : outcome PS :=
  match c with
  | Http1 _ => return_idle e c s
  | Http2 l =>
      ld ← expect (ps_loads s !! l);
      '(ld', (remaining, was_at_max)) ← release_stream_slot ld;
      let q := active_h2 (ps_host s) in
      let s := put_h2 (<[l := ld']> (ps_loads s)) q s in
      if decide (remaining = 0) then return_idle e c (on_host (set_active (h2_remove l q)) s)
      else if was_at_max : bool then Ret (on_host (set_active (mark_active l q)) s)
      else Ret s
  end.

Definition return_dead_connection (c : HttpConnection) (s : PS) : PS :=
  match c with
  | Http1 _ => s
  | Http2 l => on_host (λ h, set_active (h2_remove l (active_h2 h)) h) s
  end.

(** The two loops of [forget_pending_connection]. *)
Fixpoint notify_first (e : Env) (err : bool) (ws : list nat) : list nat * list (nat * Reply) :=
  match ws with
  | [] => ([], [])
  | tx :: ws' =>
      if is_canceled e tx then notify_first e err ws'
      else if decide (tx_state e tx = TxLive)
      then (ws', [(tx, if err then RNormal else RClosed ConnectionDroppedWithoutCompletion)])
      else if err then notify_first e err ws' else (ws', [])
  end.

Fixpoint notify_rest (e : Env) (to_notify : nat) (r : PoolError) (ws : list nat) : list nat * list (nat * Reply) :=
  match ws with
  | [] => ([], [])
  | tx :: ws' =>
      match to_notify with
      | 0 => (ws, [])
      | S n =>
          if is_canceled e tx then notify_rest e to_notify r ws'
          else
            let '(ws'', out) := notify_rest e n r ws' in
            (ws'', (if decide (tx_state e tx = TxLive) then [(tx, RClosed r)] else []) ++ out)
      end
  end.

(** [err]: whether there is an error to report. *)
Definition forget_pending_connection (e : Env) (cap : nat) (err for_under_capacity : bool) (s : PS) : outcome PS :=
  let h := ps_host s in
  n ← (if for_under_capacity then Ret (connecting h) else usub (connecting h) 1);
  c ← usub (expected_connecting_capacity h) cap;
  let s := on_host (λ h, set_expected c (set_connecting n h)) s in
  let '(ws, out1) := if for_under_capacity then (waiters h, []) else notify_first e err (waiters h) in
  let to_notify := if for_under_capacity then cap else cap - 1 in
  let '(ws, out2) := notify_rest e to_notify
                       (if for_under_capacity then ConnectionLowCapacity else WaitingOnSharedFailedConnection) ws in
  Ret (on_host (set_waiters ws) (replies (out1 ++ out2) s)).

(** [insert_new_connection], for a token with this expected capacity. *)
Definition insert_new_connection (e : Env) (expected : nat) (conn : HttpConnection) (s : PS) : outcome PS :=
  cap ← capacity (ps_loads s) conn;
  n ← usub (connecting (ps_host s)) 1;
  c ← usub (expected_connecting_capacity (ps_host s)) (cap `min` expected);
  let s := on_host (λ h, set_expected c (set_connecting n h)) s in
  '(loads, q) ← maybe_insert_new conn false (ps_loads s) (active_h2 (ps_host s));
  s ← send_connection e false cap conn (put_h2 loads q s);
  if decide (cap < expected) then
    forget_pending_connection e (expected - cap) false true (on_host (set_cache (Cached cap)) s)
  else Ret s.

Definition insert_new_connection_error (e : Env) (expected : nat) (s : PS) : outcome PS :=
  forget_pending_connection e expected true false s.

Definition drop_should_connect (e : Env) (expected : nat) (s : PS) : outcome PS :=
  forget_pending_connection e expected false false s.

Definition expires (at_ now : Z) : bool :=
  match timeout settings with
  | Some t => bool_decide (t < Z.max 0 (now - at_))%Z
  | None => false
  end.

(** [IdlePopper::pop]: from the end of the list, given reversed. *)
Fixpoint idle_pop (e : Env) (rev_list : list Idle) : option Idle * list Idle :=
  match rev_list with
  | [] => (None, [])
  | i :: l =>
      if negb (is_open e (idle_value i)) then idle_pop e l
      else if expires (idle_at i) (now e) then idle_pop e l
      else (Some i, l)
  end.

Inductive CheckoutResult := Checkout (c : HttpConnection) (is_reused : bool) | Wait (should_connect : option nat).

(** [checkout_or_register_waker]; [w] is the channel it makes. *)
Definition checkout_or_register_waker (e : Env) (w : nat) (s : PS) : outcome (PS * CheckoutResult) :=
  '(loads, q, reserved) ← h2_reserve e (ps_loads s) (active_h2 (ps_host s));
  let s := put_h2 loads q s in
  match reserved with
  | Some l => Ret (s, Checkout (Http2 l) true)
  | None =>
      let '(got, rest) := idle_pop e (reverse (idle (ps_host s))) in
      let s := on_host (set_idle (reverse rest)) s in
      match got with
      | Some i =>
          '(loads, q) ← maybe_insert_new (idle_value i) true (ps_loads s) (active_h2 (ps_host s));
          Ret (put_h2 loads q s, Checkout (idle_value i) true)
      | None =>
          let h := ps_host s in
          let pending := expected_connecting_capacity h in
          let ws := filter (λ w, is_canceled e w = false) (waiters h) in
          let s := on_host (set_waiters (ws ++ [w])) s in
          if decide (pending ≤ length ws) then
            let expected := expected_capacity (per_connection_capacity_cache h) (expected_http2_capacity settings) in
            n ← uadd (connecting h) 1;
            c ← uadd pending expected;
            Ret (on_host (λ h, set_expected c (set_connecting n h)) s, Wait (Some expected))
          else Ret (s, Wait None)
      end
  end.

(** [Drop for Pooled] and [Drop for H2CapacityGuard]. *)
Definition drop_pooled (e : Env) (c : HttpConnection) (s : PS) : outcome PS :=
  if is_open e c then return_connection e c s else Ret (return_dead_connection c s).

Definition drop_guard : Env → nat → PS → outcome PS := return_h2_stream.

(** [Pool::clear_expired], for the host: [None] when it is removed. *)
Definition clear_expired (e : Env) (dur : Z) (h : HostPool) : option HostPool :=
  let h := set_idle (filter (λ i, is_open e (idle_value i) = true ∧ ¬ (dur < Z.max 0 (now e - idle_at i))%Z) (idle h)) h in
  match idle h, active_h2 h, connecting h, waiters h with
  | [], [], 0, [] => None
  | _, _, _, _ => Some h
  end.
End pool.

#[global] Arguments usub : simpl never.
#[global] Arguments uadd : simpl never.
#[global] Arguments remaining_capacity : simpl never.
#[global] Arguments try_reserve_stream_slot : simpl never.
#[global] Arguments release_stream_slot : simpl never.
