(* ===== verification/PoolFacts.v ===== *)
(** * Facts on the connection pool

    Lemmas on the queue of HTTP/2 connections and on the loops that answer the
    waiters of a host. *)
From stdpp Require Import base gmap list.
From Stdlib Require Import ZArith.
From S2P Require Import Prelude Pool.

Local Open Scope list_scope.

(** ** The queue of connections with streams *)

Lemma elem_of_h2_remove l q x : NoDup q → x ∈ h2_remove l q ↔ x ∈ q ∧ x ≠ l.
Proof.
  induction q as [|y q IH]; simpl; [set_solver|]. intros [Hy Hq]%NoDup_cons.
  case_decide as Hyl; [set_solver|]. rewrite !elem_of_cons, IH by done. set_solver.
Qed.

Lemma h2_remove_nodup l q : NoDup q → NoDup (h2_remove l q).
Proof.
  induction q as [|y q IH]; simpl; [done|]. intros [Hy Hq]%NoDup_cons. case_decide; [done|].
  apply NoDup_cons. split; [|by apply IH]. rewrite elem_of_h2_remove by done. naive_solver.
Qed.

Lemma h2_remove_not l q : l ∉ q → h2_remove l q = q.
Proof.
  induction q as [|y q IH]; simpl; [done|]. intros Hl. apply not_elem_of_cons in Hl as [? ?].
  rewrite decide_False by congruence. by rewrite IH.
Qed.

(** A connection with no free stream. *)
Definition full (loads : Loads) (l : nat) : Prop := ∃ ld, loads !! l = Some ld ∧ max_streams ld ≤ active_streams ld.

(** Connections with a free stream come first. *)
Definition ordered (loads : Loads) (q : list nat) : Prop :=
  ∃ a b, q = a ++ b ∧ Forall (λ l, ¬ full loads l) a ∧ Forall (full loads) b.

Lemma ordered_ext loads loads' q : (∀ x, x ∈ q → loads' !! x = loads !! x) → ordered loads q → ordered loads' q.
Proof.
  intros Hx (a & b & -> & Ha & Hb). exists a, b. split; [done|]. rewrite Forall_forall in Ha, Hb. unfold full in *.
  split; apply Forall_forall; intros x Hin; rewrite Hx by (apply elem_of_app; auto); auto.
Qed.

Lemma h2_remove_app_l l a b : l ∈ a → h2_remove l (a ++ b) = h2_remove l a ++ b.
Proof.
  induction a as [|x a IH]; intros Hl; [by apply elem_of_nil in Hl|]. simpl. case_decide; [done|].
  apply elem_of_cons in Hl as [->|Hl]; [done|]. simpl. by rewrite IH.
Qed.

Lemma h2_remove_app_r l a b : l ∉ a → h2_remove l (a ++ b) = a ++ h2_remove l b.
Proof.
  induction a as [|x a IH]; intros Hl; [done|]. apply not_elem_of_cons in Hl as [? ?]. simpl.
  rewrite decide_False by congruence. by rewrite IH.
Qed.

Lemma h2_remove_forall P l q : Forall P q → Forall P (h2_remove l q).
Proof. induction 1 as [|x q Hx Hq IH]; simpl; [done|]. case_decide; [done|]. by constructor. Qed.

Lemma ordered_remove loads l q : ordered loads q → ordered loads (h2_remove l q).
Proof.
  intros (a & b & -> & Ha & Hb). destruct (decide (l ∈ a)).
  - rewrite h2_remove_app_l by done. exists (h2_remove l a), b. by auto using h2_remove_forall.
  - rewrite h2_remove_app_r by done. exists a, (h2_remove l b). by auto using h2_remove_forall.
Qed.

Lemma ordered_front loads l q : ¬ full loads l → ordered loads q → ordered loads (l :: q).
Proof. intros Hl (a & b & -> & Ha & Hb). exists (l :: a), b. by auto using Forall_cons_2. Qed.

Lemma ordered_back loads l q : full loads l → ordered loads q → ordered loads (q ++ [l]).
Proof.
  intros Hl (a & b & -> & Ha & Hb). exists a, (b ++ [l]). split; [by rewrite app_assoc|]. split; [done|].
  apply Forall_app. by auto.
Qed.


Lemma full_insert loads l ld : full (<[l := ld]> loads) l ↔ max_streams ld ≤ active_streams ld.
Proof. unfold full. rewrite lookup_insert_eq. naive_solver. Qed.

Lemma ordered_removed loads l ld q : NoDup q → ordered loads q → ordered (<[l := ld]> loads) (h2_remove l q).
Proof.
  intros Hq Ho. apply (ordered_ext loads); [|by apply ordered_remove].
  intros x [_ Hx]%elem_of_h2_remove; [|done]. by rewrite lookup_insert_ne.
Qed.

(** ** Waiters *)

Definition live (e : Env) (ws : list nat) : list nat := filter (λ w, tx_state e w = TxLive) ws.
Definition uncanceled (e : Env) (ws : list nat) : list nat := filter (λ w, tx_state e w ≠ TxCanceled) ws.

(** Answering [n] waiters of a queue: the answered ones are the first that
    wait, [n] of them or of those that gave up meanwhile, unless the queue runs
    out. *)
Record answers (e : Env) (n : nat) (ws ws' ans : list nat) : Prop := mkAnswers {
  an_live : live e ws = ans ++ live e ws';
  an_sub : sublist ws' ws;
  an_count : length (uncanceled e ws') ≤ length (uncanceled e ws) - n;
}.

Lemma answers_refl e ws : answers e 0 ws ws [].
Proof. split; [done|done|lia]. Qed.

Lemma answers_trans e n m ws ws' ws'' a a' :
  answers e n ws ws' a → answers e m ws' ws'' a' → answers e (n + m) ws ws'' (a ++ a').
Proof.
  intros [H1 H2 H3] [H1' H2' H3']. split; [by rewrite H1, H1', app_assoc|by etrans|lia].
Qed.

Lemma answers_none e n : answers e n [] [] [].
Proof. split; [done|done|simpl; lia]. Qed.

Lemma answers_skip e n w ws ws' a :
  tx_state e w ≠ TxLive → answers e n ws ws' a → answers e n (w :: ws) ws' a.
Proof.
  intros Hw [H1 H2 H3]. split; [|by constructor|].
  - unfold live in *. by rewrite filter_cons, decide_False by done.
  - unfold uncanceled in *. rewrite filter_cons. case_decide; simpl; lia.
Qed.

Lemma answers_going e n w ws ws' a :
  tx_state e w = TxGoing → answers e n ws ws' a → answers e (S n) (w :: ws) ws' a.
Proof.
  intros Hw [H1 H2 H3]. split; [|by constructor|].
  - unfold live in *. by rewrite filter_cons, decide_False by congruence.
  - unfold uncanceled in *. rewrite filter_cons, decide_True by congruence. simpl. lia.
Qed.

Lemma answers_hit e n w ws ws' a :
  tx_state e w = TxLive → answers e n ws ws' a → answers e (S n) (w :: ws) ws' (w :: a).
Proof.
  intros Hw [H1 H2 H3]. split; [|by constructor|].
  - unfold live in *. rewrite filter_cons, decide_True by done. simpl. by rewrite H1.
  - unfold uncanceled in *. rewrite filter_cons, decide_True by congruence. simpl. lia.
Qed.

Lemma is_canceled_true e w : is_canceled e w = true ↔ tx_state e w = TxCanceled.
Proof. unfold is_canceled. by rewrite bool_decide_eq_true. Qed.
Lemma is_canceled_false e w : is_canceled e w = false ↔ tx_state e w ≠ TxCanceled.
Proof. unfold is_canceled. by rewrite bool_decide_eq_false. Qed.

(** The loops that report errors. *)
Lemma notify_first_answers e err ws :
  ∃ ws' ans r, notify_first e err ws = (ws', (λ w, (w, r)) <$> ans) ∧ answers e 1 ws ws' ans ∧
    (r = RNormal ∨ r = RClosed ConnectionDroppedWithoutCompletion).
Proof.
  induction ws as [|w ws (ws' & ans & r & IH & Ha & Hr)]; simpl.
  { exists [], [], RNormal. split; [done|]. split; [apply answers_none|by left]. }
  destruct (is_canceled e w) eqn:Ec.
  { apply is_canceled_true in Ec. exists ws', ans, r. split; [done|]. split; [|done]. apply answers_skip; [congruence|done]. }
  apply is_canceled_false in Ec. case_decide as Hl.
  { eexists ws, [w], _. split; [done|]. split; [by apply answers_hit, answers_refl|]. destruct err; auto. }
  assert (tx_state e w = TxGoing) as Hg by (by destruct (tx_state e w)). destruct err.
  - exists ws', ans, r. split; [done|]. split; [|done]. by apply answers_skip.
  - exists ws, [], RNormal. split; [done|]. split; [by apply answers_going, answers_refl|by left].
Qed.

Lemma notify_rest_answers e n r ws :
  ∃ ws' ans, notify_rest e n r ws = (ws', (λ w, (w, RClosed r)) <$> ans) ∧ answers e n ws ws' ans.
Proof.
  revert n. induction ws as [|w ws IH]; intros n; simpl; [exists [], []; split; [done|apply answers_none]|].
  destruct n as [|n]; [exists (w :: ws), []; split; [done|apply answers_refl]|].
  destruct (is_canceled e w) eqn:Ec.
  { apply is_canceled_true in Ec. destruct (IH (S n)) as (ws' & ans & Heq & Ha). exists ws', ans. split; [done|].
    apply answers_skip; [congruence|done]. }
  apply is_canceled_false in Ec. destruct (IH n) as (ws' & ans & Heq & Ha). rewrite Heq. case_decide as Hl.
  - exists ws', (w :: ans). split; [done|]. by apply answers_hit.
  - exists ws', ans. split; [done|]. apply answers_going; [by destruct (tx_state e w)|done].
Qed.

(** ** Sending a connection to waiters *)

Lemma ordered_same loads loads' q :
  (∀ x, x ∈ q → full loads x ↔ full loads' x) → ordered loads q → ordered loads' q.
Proof.
  intros Hx (a & b & -> & Ha & Hb). exists a, b. split; [done|]. rewrite Forall_forall in Ha, Hb.
  split; apply Forall_forall; intros x Hin; rewrite <-Hx by (apply elem_of_app; auto); auto.
Qed.

Lemma full_insert_ne loads l ld x : x ≠ l → full (<[l := ld]> loads) x ↔ full loads x.
Proof. intros Hx. unfold full. by rewrite lookup_insert_ne. Qed.

Lemma full_lookup loads l ld : loads !! l = Some ld → full loads l ↔ max_streams ld ≤ active_streams ld.
Proof. unfold full. naive_solver. Qed.

Lemma mark_full_elem l q x : NoDup q → x ∈ mark_full l q ↔ x ∈ q.
Proof.
  intros Hq. unfold mark_full. case_decide; [|done]. rewrite elem_of_app, list_elem_of_singleton, elem_of_h2_remove by done.
  destruct (decide (x = l)); naive_solver.
Qed.

Lemma mark_active_by_load_elem l q x : NoDup q → x ∈ mark_active_by_load l q ↔ x ∈ q.
Proof.
  intros Hq. unfold mark_active_by_load. case_decide; [|done]. rewrite elem_of_cons, elem_of_h2_remove by done.
  destruct (decide (x = l)); naive_solver.
Qed.

Lemma back_nodup l q : NoDup q → NoDup (h2_remove l q ++ [l]).
Proof.
  intros Hq. apply NoDup_app. split; [by apply h2_remove_nodup|]. split; [|apply NoDup_singleton].
  intros x [_ Hx]%elem_of_h2_remove; [|done]. by rewrite list_elem_of_singleton.
Qed.

Lemma front_nodup l q : NoDup q → NoDup (l :: h2_remove l q).
Proof. intros Hq. apply NoDup_cons. split; [|by apply h2_remove_nodup]. rewrite elem_of_h2_remove by done. naive_solver. Qed.

Lemma mark_full_nodup l q : NoDup q → NoDup (mark_full l q).
Proof. intros Hq. unfold mark_full. case_decide; [by apply back_nodup|done]. Qed.

Lemma mark_active_by_load_nodup l q : NoDup q → NoDup (mark_active_by_load l q).
Proof. intros Hq. unfold mark_active_by_load. case_decide; [by apply front_nodup|done]. Qed.

Lemma try_reserve_ok a mx :
  a < mx → ∃ r, try_reserve_stream_slot (mkLoad a mx) = (mkLoad (S a) mx, r) ∧
    (r = ReservedAndFilled ∧ mx = S a ∨ r = ReservedButNotFilled ∧ S a < mx).
Proof.
  intros H. unfold try_reserve_stream_slot. simpl. rewrite decide_True by done. eexists. split; [done|].
  case_decide; [left|right]; (split; [done|lia]).
Qed.

Lemma release_ok a mx :
  release_stream_slot (mkLoad (S a) mx) = Ret (mkLoad a mx, (a, bool_decide (S a = mx))).
Proof. unfold release_stream_slot, usub. simpl. by rewrite Nat.sub_0_r. Qed.

(** A queue whose entries other than [l] are kept. *)
Record requeue (l : nat) (loads loads' : Loads) (q q' : list nat) : Prop := mkRequeue {
  rq_nodup : NoDup q';
  rq_others : ∀ x, x ≠ l → x ∈ q' ↔ x ∈ q;
  rq_order : (∀ ld, loads' !! l = Some ld → 2 ≤ max_streams ld) → ordered loads q → ordered loads' q';
}.

Lemma requeue_trans l loads loads' loads'' q q' q'' :
  (max_streams <$> loads' !! l = max_streams <$> loads'' !! l) →
  requeue l loads loads' q q' → requeue l loads' loads'' q' q'' → requeue l loads loads'' q q''.
Proof.
  intros Hm [H1 H2 H3] [H1' H2' H3']. split; [done|intros x Hx; by rewrite H2', H2|].
  intros Hmx Ho. apply H3'; [done|]. apply H3; [|done]. intros ld Hld. rewrite Hld in Hm. simpl in Hm.
  destruct (loads'' !! l) as [ld''|] eqn:E; simpl in Hm; [|done]. injection Hm as ->. by apply Hmx.
Qed.

(** A successful send: a stream more, and the connection tracked. *)
Lemma send_step loads q l a mx :
  loads !! l = Some (mkLoad a mx) → a < mx → NoDup q →
  let loads' := <[l := mkLoad (S a) mx]> loads in
  ∃ q0 r q1, increment_load (Http2 l) loads q = Ret (loads', q0, Some r) ∧ r ≠ NoCapacity ∧
    ensure_tracked l loads' q0 = Ret q1 ∧ l ∈ q1 ∧ requeue l loads loads' q q1.
Proof.
  intros Hl Ha Hq loads'. destruct (try_reserve_ok a mx Ha) as (r & Hr & Hcase). simpl. rewrite Hl. simpl. rewrite Hr. simpl.
  assert (loads' !! l = Some (mkLoad (S a) mx)) as Hl' by apply lookup_insert_eq.
  unfold ensure_tracked. destruct Hcase as [[-> ->]|[-> Hlt]]; eexists _, _.
  - exists (h2_remove l q ++ [l]). split; [done|]. split; [done|]. split.
    { unfold mark_full. destruct (decide (l ∈ q)) as [Hin|Hin].
      - rewrite decide_True by (apply elem_of_app; right; by left). done.
      - rewrite decide_False by done. rewrite Hl'. simpl. unfold remaining_capacity, usub. simpl.
        rewrite decide_True by lia. simpl. rewrite Nat.sub_diag. by rewrite h2_remove_not. }
    split; [apply elem_of_app; right; by left|]. split; [by apply back_nodup| |].
    { intros x Hx. rewrite elem_of_app, list_elem_of_singleton, elem_of_h2_remove by done. naive_solver. }
    intros _ Ho. apply ordered_back; [by apply full_insert|by apply ordered_removed].
  - exists (if decide (l ∈ q) then q else l :: q). split; [done|]. split; [done|]. split.
    { destruct (decide (l ∈ q)); [done|]. rewrite Hl'. simpl. unfold remaining_capacity, usub. simpl.
      rewrite decide_True by lia. simpl. by rewrite decide_False by lia. }
    destruct (decide (l ∈ q)) as [Hin|Hin].
    + split; [done|]. split; [done|done|]. intros _. apply ordered_same. intros x _. unfold loads'.
      destruct (decide (x = l)) as [->|Hx]; [|by rewrite full_insert_ne].
      rewrite full_insert, (full_lookup _ _ _ Hl). simpl. lia.
    + split; [by left|]. split; [by apply NoDup_cons|intros x Hx; rewrite elem_of_cons; naive_solver|].
      intros _ Ho. apply ordered_front; [unfold loads'; rewrite full_insert; simpl; lia|].
      apply (ordered_ext loads); [|done]. intros x Hx. unfold loads'. rewrite lookup_insert_ne; [done|by intros ->].
Qed.

(** A send that fails: the stream is given back. *)
Lemma unsend_step loads q l a mx :
  loads !! l = Some (mkLoad a mx) → a < mx → NoDup q →
  ∃ q0 r q1, increment_load (Http2 l) loads q = Ret (<[l := mkLoad (S a) mx]> loads, q0, Some r) ∧ r ≠ NoCapacity ∧
    release_h2_stream_without_returning_to_idle (Http2 l) (<[l := mkLoad (S a) mx]> loads) q0 = Ret (loads, q1) ∧
    (l ∈ q1 ↔ l ∈ q) ∧ requeue l loads loads q q1.
Proof.
  intros Hl Ha Hq. destruct (try_reserve_ok a mx Ha) as (r & Hr & Hcase). unfold increment_load. rewrite Hl. simpl. rewrite Hr.
  unfold release_h2_stream_without_returning_to_idle. rewrite lookup_insert_eq. simpl.
  rewrite Nat.sub_0_r, insert_insert_eq. rewrite (insert_id loads l (mkLoad a mx) Hl).
  destruct Hcase as [[-> ->]|[-> Hlt]]; eexists _, _, _; (split; [done|]); (split; [done|]); (split; [done|]).
  - rewrite bool_decide_true by done. case_decide as Hz.
    { split; [by rewrite mark_full_elem|]. split; [by apply mark_full_nodup|intros x _; by rewrite mark_full_elem|].
      intros Hm _. specialize (Hm _ Hl). simpl in Hm. lia. }
    pose proof (mark_full_nodup l q Hq). split; [by rewrite mark_active_by_load_elem, mark_full_elem|].
    split; [by apply mark_active_by_load_nodup|intros x _; by rewrite mark_active_by_load_elem, mark_full_elem|].
    intros _ Ho. assert (ordered loads (h2_remove l q)) as Hor by (by apply ordered_remove).
    unfold mark_active_by_load, mark_full. destruct (decide (l ∈ q)) as [Hin|Hin].
    + rewrite decide_True by (apply elem_of_app; right; by left). apply ordered_front.
      { rewrite (full_lookup _ _ _ Hl). simpl. lia. }
      rewrite h2_remove_app_r by (rewrite elem_of_h2_remove by done; naive_solver). simpl.
      rewrite decide_True by done. by rewrite app_nil_r.
    + by rewrite decide_False.
  - rewrite bool_decide_false by lia. case_decide; (split; [done|]); by split.
Qed.

Lemma send_loop_zero e reused ws next sent loads q out :
  send_loop e reused 0 ws next sent loads q out = Ret (mkSend ws next sent loads q out).
Proof. by destruct ws. Qed.

Definition sends (c : HttpConnection) (reused : bool) (ans : list nat) : list (nat * Reply) := (λ w, (w, RConn c reused)) <$> ans.

(** An HTTP/1 connection goes to the first waiter, or is left over. *)
Lemma send_loop_h1 e reused c ws loads q out :
  ∃ ws' ans, send_loop e reused 1 ws (Some (Http1 c)) 0 loads q out =
      Ret (mkSend ws' (match ans with [] => Some (Http1 c) | _ => None end) (length ans) loads q (out ++ sends (Http1 c) reused ans)) ∧
    answers e 1 ws ws' ans ∧ length ans ≤ 1.
Proof.
  induction ws as [|w ws (ws' & ans & IH & Ha & Hl)]; simpl.
  { exists [], []. rewrite app_nil_r. split; [done|]. split; [apply answers_none|simpl; lia]. }
  destruct (is_canceled e w) eqn:Ec.
  { apply is_canceled_true in Ec. exists ws', ans. split; [done|]. split; [|done]. apply answers_skip; [congruence|done]. }
  case_decide as Hlive; simpl.
  - exists ws, [w]. rewrite send_loop_zero. split; [done|]. split; [by apply answers_hit, answers_refl|simpl; lia].
  - exists ws', ans. split; [done|]. split; [|done]. by apply answers_skip.
Qed.

(** An HTTP/2 connection with room for [cap] more streams goes to [cap]
    waiters, and is tracked once it has gone to one. *)
Lemma send_loop_h2 e reused l mx ws cap sent loads q out a :
  loads !! l = Some (mkLoad a mx) → a + cap ≤ mx → NoDup q → (0 < sent → l ∈ q) →
  ∃ ws' ans q', let loads' := <[l := mkLoad (a + length ans) mx]> loads in
    send_loop e reused cap ws (Some (Http2 l)) sent loads q out =
      Ret (mkSend ws' (Some (Http2 l)) (sent + length ans) loads' q' (out ++ sends (Http2 l) reused ans)) ∧
    answers e cap ws ws' ans ∧ length ans ≤ cap ∧ requeue l loads loads' q q' ∧ (l ∈ q' ↔ l ∈ q ∨ 0 < length ans).
Proof.
  revert cap sent loads q out a. induction ws as [|w ws IH]; intros cap sent loads q out a Hl Hcap Hq Hsent.
  { exists [], [], q. simpl. rewrite app_nil_r, !Nat.add_0_r, (insert_id loads l (mkLoad a mx) Hl).
    split; [done|]. split; [apply answers_none|]. split; [lia|]. split; [by split|]. naive_solver lia. }
  destruct cap as [|cap].
  { exists (w :: ws), [], q. rewrite send_loop_zero. simpl. rewrite app_nil_r, !Nat.add_0_r, (insert_id loads l (mkLoad a mx) Hl).
    split; [done|]. split; [apply answers_refl|]. split; [lia|]. split; [by split|]. naive_solver lia. }
  cbn [send_loop]. destruct (is_canceled e w) eqn:Ec.
  { apply is_canceled_true in Ec. destruct (IH (S cap) sent loads q out a) as (ws' & ans & q' & Heq & Ha & Hr); [done..|].
    exists ws', ans, q'. split; [done|]. split; [|done]. apply answers_skip; [congruence|done]. }
  destruct (decide (tx_state e w = TxLive)) as [Hlive|Hlive].
  - destruct (send_step loads q l a mx) as (q0 & r & q1 & Hinc & Hr & Htr & Hin & Hrq); [done|lia|done|].
    rewrite Hinc. simpl. rewrite Htr.
    destruct (IH cap (S sent) (<[l := mkLoad (S a) mx]> loads) q1 (out ++ [(w, RConn (Http2 l) reused)]) (S a))
      as (ws' & ans & q' & Heq & Ha & Hlen & Hrq' & Hin'); [apply lookup_insert_eq|lia|apply Hrq|done|].
    exists ws', (w :: ans), q'. simpl. rewrite insert_insert_eq, <-app_assoc in Heq. rewrite insert_insert_eq in Hrq'.
    replace (a + S (length ans)) with (S a + length ans) by lia. replace (sent + S (length ans)) with (S sent + length ans) by lia.
    split; [destruct r; [done|exact Heq..]|]. split; [by apply answers_hit|]. split; [simpl; lia|]. split.
    { eapply requeue_trans; [|exact Hrq|exact Hrq']. by rewrite !lookup_insert_eq. }
    rewrite Hin'. split; [|by left]. right. lia.
  - destruct (unsend_step loads q l a mx) as (q0 & r & q1 & Hinc & Hr & Hrel & Hin & Hrq); [done|lia|done|].
    rewrite Hinc. cbn [mbind outcome_bind maybe_clone]. rewrite Hrel. simpl.
    destruct (IH (S cap) sent loads q1 out a) as (ws' & ans & q' & Heq & Ha & Hlen & Hrq' & Hin'); [done|done|apply Hrq|naive_solver|].
    exists ws', ans, q'. split; [destruct r; [done|exact Heq..]|]. split; [by apply answers_skip|]. split; [done|]. split.
    { eapply requeue_trans; [|exact Hrq|exact Hrq']. by rewrite Hl, lookup_insert_eq. }
    by rewrite Hin', Hin.
Qed.
