(* ===== verification/PoolInv.v ===== *)
(** * The invariant of the connection pool

    How the connections of a host, their holders and its counters fit together,
    and that each operation of the pool keeps them so without a panic. *)
From stdpp Require Import base gmap list.
From Stdlib Require Import ZArith.
From S2P Require Import Prelude Pool PoolFacts.

Local Open Scope list_scope.

(** ** Connections and their holders *)

(** A [Pooled] connection, or the [H2CapacityGuard] of a stream. *)
Inductive Handle := HPooled (c : HttpConnection) | HGuard (l : nat).

Definition conn_of (h : Handle) : HttpConnection := match h with HPooled c => c | HGuard l => Http2 l end.

Definition holders (l : nat) (H : list Handle) : nat := length (filter (λ h, conn_of h = Http2 l) H).

Definition is_h1 (c : HttpConnection) : Prop := match c with Http1 _ => True | Http2 _ => False end.
#[global] Instance is_h1_dec c : Decision (is_h1 c).
Proof. destruct c; apply _. Defined.

(** The load of an HTTP/2 connection with [n] holders: each has a stream; no
    other stream is open unless the connection was once seen closed; a
    connection with streams is tracked and an idle one has none. *)
Definition slot_ok (o : option H2Load) (n : nat) (tracked idled gone : Prop) : Prop :=
  match o with
  | None => n = 0 ∧ ¬ tracked ∧ ¬ idled
  | Some ld =>
      1 ≤ max_streams ld ∧ n ≤ active_streams ld ≤ max_streams ld ∧
      (¬ gone → active_streams ld = n ∧ (0 < n → tracked)) ∧
      (tracked → 0 < active_streams ld) ∧ (idled → active_streams ld = 0)
  end.

Lemma slot_ok_mono o n t i g (n' : nat) (t' i' g' : Prop) :
  slot_ok o n t i g → n' = n → (t' ↔ t) → (i' → i) → (g → g') → slot_ok o n' t' i' g'.
Proof. intros Hs -> Ht Hi Hg. destruct o as [ld|]; simpl in *; naive_solver. Qed.

#[local] Instance slot_ok_proper o n : Proper (iff ==> iff ==> iff ==> iff) (slot_ok o n).
Proof.
  intros t t' Ht i i' Hi g g' Hg. split; intros Hs; (eapply slot_ok_mono; [exact Hs|done|..]); tauto.
Qed.

(** [I]: the idle connections; [H]: the handles. *)
Record conns_ok (gone : gset nat) (loads : Loads) (q : list nat) (I : list HttpConnection) (H : list Handle) : Prop := mkConnsOk {
  co_slot : ∀ l, slot_ok (loads !! l) (holders l H) (l ∈ q) (Http2 l ∈ I) (l ∈ gone);
  co_queue : NoDup q;
  co_idle : NoDup I;
  co_h1 : NoDup (filter is_h1 (I ++ (conn_of <$> H)));
  co_order : (∀ l ld, loads !! l = Some ld → 2 ≤ max_streams ld) → ordered loads q;
}.

Lemma holders_perm l H H' : H ≡ₚ H' → holders l H = holders l H'.
Proof. intros HP. unfold holders. by rewrite HP. Qed.

Lemma holders_app l H H' : holders l (H ++ H') = holders l H + holders l H'.
Proof. unfold holders. by rewrite filter_app, length_app. Qed.

Lemma holders_cons l h H : holders l (h :: H) = (if decide (conn_of h = Http2 l) then 1 else 0) + holders l H.
Proof. unfold holders. rewrite filter_cons. by case_decide. Qed.

Lemma holders_zero l H : holders l H = 0 ↔ Http2 l ∉ conn_of <$> H.
Proof.
  unfold holders. rewrite length_zero_iff_nil. split.
  - intros Hf (h & Hh & Hin)%list_elem_of_fmap. assert (h ∈ filter (λ h, conn_of h = Http2 l) H) as Hx.
    { by apply list_elem_of_filter. } rewrite Hf in Hx. by apply elem_of_nil in Hx.
  - intros Hn. destruct (filter _ H) as [|h t] eqn:E; [done|]. exfalso.
    assert (h ∈ filter (λ h, conn_of h = Http2 l) H) as [Hc Hin]%list_elem_of_filter by (rewrite E; by left).
    apply Hn. apply list_elem_of_fmap. by exists h.
Qed.

Lemma conns_ok_perm gone loads q I H H' : H ≡ₚ H' → conns_ok gone loads q I H → conns_ok gone loads q I H'.
Proof.
  intros HP [H1 H2 H3 H4 H5]. split; try done.
  - intros l. by rewrite <-(holders_perm l _ _ HP).
  - by rewrite <-HP.
Qed.

Lemma conns_ok_gone gone gone' loads q I H : gone ⊆ gone' → conns_ok gone loads q I H → conns_ok gone' loads q I H.
Proof.
  intros Hg [H1 H2 H3 H4 H5]. split; try done. intros l. eapply slot_ok_mono; [apply H1|done|done|done|]. set_solver.
Qed.

(** An edit at one HTTP/2 connection. *)
Lemma conns_ok_edit gone loads q I H l ld q' I' H' :
  conns_ok gone loads q I H →
  slot_ok (Some ld) (holders l H') (l ∈ q') (Http2 l ∈ I') (l ∈ gone) →
  (∀ x, x ≠ l → holders x H' = holders x H) → (∀ x, x ≠ l → x ∈ q' ↔ x ∈ q) → (∀ x, x ≠ l → Http2 x ∈ I' → Http2 x ∈ I) →
  NoDup q' → NoDup I' → NoDup (filter is_h1 (I' ++ (conn_of <$> H'))) →
  ((∀ l' ld', <[l := ld]> loads !! l' = Some ld' → 2 ≤ max_streams ld') → ordered (<[l := ld]> loads) q') →
  conns_ok gone (<[l := ld]> loads) q' I' H'.
Proof.
  intros [H1 _ _ _ _] Hl Hh Hq Hi H2 H3 H4 H5. split; try done. intros x. destruct (decide (x = l)) as [->|Hx].
  - by rewrite lookup_insert_eq.
  - rewrite lookup_insert_ne by done. eapply slot_ok_mono; [apply H1|by apply Hh|by apply Hq|by apply Hi|done].
Qed.

Lemma h1_nodup_drop h I H : NoDup (filter is_h1 (I ++ (conn_of <$> h :: H))) → NoDup (filter is_h1 (I ++ (conn_of <$> H))).
Proof.
  rewrite fmap_cons. rewrite (Permutation_app_comm I), (Permutation_app_comm I (conn_of <$> H)). simpl.
  rewrite filter_cons. case_decide; [|done]. by intros [_ ?]%NoDup_cons.
Qed.

Lemma h1_nodup_sub I I' H : sublist I' I → NoDup (filter is_h1 (I ++ (conn_of <$> H))) → NoDup (filter is_h1 (I' ++ (conn_of <$> H))).
Proof.
  intros Hs. rewrite !filter_app. intros (H1 & H2 & H3)%NoDup_app. apply NoDup_app.
  assert (sublist (filter is_h1 I') (filter is_h1 I)) as Hf.
  { clear -Hs. induction Hs; rewrite ?filter_cons; try case_decide; try done; by constructor. }
  split; [exact (sublist_NoDup _ _ H1 Hf)|]. split; [|done]. intros x Hx. apply H2. by eapply elem_of_sublist.
Qed.

Lemma h1_nodup_add c I D :
  c ∉ I → c ∉ D → NoDup (filter is_h1 (I ++ D)) → NoDup (filter is_h1 (c :: I ++ D)).
Proof.
  intros Hi Hd HN. rewrite filter_cons. case_decide; [|done]. apply NoDup_cons. split; [|done].
  rewrite list_elem_of_filter, elem_of_app. naive_solver.
Qed.

(** ** Replies *)

Definition delivered (out : list (nat * Reply)) : list Handle :=
  omap (λ wr, match wr.2 with RConn c _ => Some (HPooled c) | _ => None end) out.

Lemma delivered_app a b : delivered (a ++ b) = delivered a ++ delivered b.
Proof. unfold delivered. by rewrite omap_app. Qed.

Lemma delivered_sends c reused ans : delivered (sends c reused ans) = (λ _, HPooled c) <$> ans.
Proof. unfold delivered, sends. induction ans as [|w ans IH]; [done|]. simpl. f_equal. exact IH. Qed.

Lemma delivered_errors r ans : (∀ c b, r ≠ RConn c b) → delivered ((λ w, (w, r)) <$> ans) = [].
Proof. intros Hr. unfold delivered. induction ans as [|w ans IH]; [done|]. simpl. destruct r; try done. by destruct (Hr c is_reused). Qed.

Lemma holders_copies l c (ans : list nat) :
  holders l ((λ _, HPooled c) <$> ans) = if decide (c = Http2 l) then length ans else 0.
Proof.
  induction ans as [|w ans IH]; [simpl; by case_decide|]. rewrite fmap_cons, holders_cons, IH. simpl. by repeat case_decide.
Qed.

(** What an operation answers: at most [n] waiters, and none is dropped. *)
Definition replied (e : Env) (n : nat) (s s' : PS) : Prop :=
  ∃ rs, ps_out s' = ps_out s ++ rs ∧ answers e n (waiters (ps_host s)) (waiters (ps_host s')) rs.*1 ∧
        Forall (λ r, r.2 ≠ RDropped) rs.

Lemma replied_refl e s s' : ps_out s' = ps_out s → waiters (ps_host s') = waiters (ps_host s) → replied e 0 s s'.
Proof. intros Ho Hw. exists []. rewrite app_nil_r, Hw. split; [done|]. split; [apply answers_refl|done]. Qed.

Lemma replied_trans e n m s s' s'' : replied e n s s' → replied e m s' s'' → replied e (n + m) s s''.
Proof.
  intros (r1 & H1 & A1 & F1) (r2 & H2 & A2 & F2). exists (r1 ++ r2). split; [by rewrite H2, H1, app_assoc|].
  split; [rewrite fmap_app; by eapply answers_trans|]. by apply Forall_app.
Qed.

(** ** The state inside the lock *)

Section pool_inv.
Context (settings : PoolSettings).

Abbreviation idle_conns h := (idle_value <$> idle h).

Record counts_ok (next nc ec : nat) (H : list Handle) (s : PS) : Prop := mkCountsOk {
  pi_connecting : connecting (ps_host s) = nc;
  pi_expected : expected_connecting_capacity (ps_host s) = ec;
  pi_idle : length (idle (ps_host s)) ≤ max_idle_per_host settings;
  pi_task : idle (ps_host s) ≠ [] → is_Some (timeout settings) → ps_idle_task s = true;
  pi_fresh : ∀ n, next ≤ n → ps_loads s !! n = None ∧
    Http1 n ∉ idle_conns (ps_host s) ++ (conn_of <$> H ++ delivered (ps_out s));
}.

Record ps_inv (next : nat) (gone : gset nat) (nc ec : nat) (H : list Handle) (s : PS) : Prop := mkPsInv {
  pi_conns : conns_ok gone (ps_loads s) (active_h2 (ps_host s)) (idle_conns (ps_host s)) (H ++ delivered (ps_out s));
  pi_counts : counts_ok next nc ec H s;
}.

(** A connection without streams that is neither held nor idle. *)
Record sendable (next : nat) (gone : gset nat) (H : list Handle) (cap : nat) (c : HttpConnection) (s : PS) : Prop := mkSendable {
  sd_slot : ∀ l, c ≠ Http2 l → slot_ok (ps_loads s !! l) (holders l (H ++ delivered (ps_out s)))
              (l ∈ active_h2 (ps_host s)) (Http2 l ∈ idle_conns (ps_host s)) (l ∈ gone);
  sd_conn : match c with
            | Http1 n => cap = 1 ∧ n < next
            | Http2 l => ∃ mx, ps_loads s !! l = Some (mkLoad 0 mx) ∧ 1 ≤ cap ≤ mx
            end;
  sd_idle : c ∉ idle_conns (ps_host s);
  sd_held : c ∉ (conn_of <$> H ++ delivered (ps_out s));
  sd_queue : NoDup (active_h2 (ps_host s));
  sd_idles : NoDup (idle_conns (ps_host s));
  sd_h1 : NoDup (filter is_h1 (idle_conns (ps_host s) ++ (conn_of <$> H ++ delivered (ps_out s))));
  sd_order : (∀ l ld, ps_loads s !! l = Some ld → 2 ≤ max_streams ld) → ordered (ps_loads s) (active_h2 (ps_host s));
}.

Lemma push_idle_spec mi c at_ l :
  length l ≤ mi → length (push_idle_with_cap mi c at_ l) ≤ mi ∧
  ∃ I0, sublist I0 (idle_value <$> l) ∧
    (idle_value <$> push_idle_with_cap mi c at_ l) = I0 ++ (if bool_decide (mi = 0) then [] else [c]).
Proof.
  intros Hl. unfold push_idle_with_cap. case_decide as Hz.
  { split; [done|]. exists (idle_value <$> l). by rewrite bool_decide_true, app_nil_r. }
  rewrite bool_decide_false by done. split.
  - case_decide; rewrite length_app; simpl; [rewrite length_tl|]; lia.
  - eexists. split; [|by rewrite fmap_app]. case_decide; [|done]. destruct l; simpl; [done|by constructor].
Qed.

(** A connection nobody wanted is parked. *)
Lemma parked_ok gone loads q q' I H c I0 (b : bool) :
  (∀ l, c ≠ Http2 l → slot_ok (loads !! l) (holders l H) (l ∈ q) (Http2 l ∈ I) (l ∈ gone)) →
  match c with
  | Http1 _ => q' = q
  | Http2 l => (∃ mx, loads !! l = Some (mkLoad 0 mx) ∧ 1 ≤ mx) ∧ (l ∉ q') ∧ (∀ x, x ≠ l → x ∈ q' ↔ x ∈ q)
  end → c ∉ I → c ∉ (conn_of <$> H) → NoDup q' → NoDup I → NoDup (filter is_h1 (I ++ (conn_of <$> H))) →
  ((∀ l ld, loads !! l = Some ld → 2 ≤ max_streams ld) → ordered loads q') → sublist I0 I →
  conns_ok gone loads q' (I0 ++ (if b then [] else [c])) H.
Proof.
  intros Hs Hc Hi Hh H1 H2 H3 H4 Hsub.
  assert (∀ x, x ∈ I0 → x ∈ I) as Hsub' by (intros x Hx; by eapply elem_of_sublist).
  split; try done.
  - intros l. destruct (decide (c = Http2 l)) as [->|Hne].
    + destruct Hc as ((mx & -> & Hmx) & Hq & _). apply holders_zero in Hh. rewrite Hh. simpl. split_and!; try done; lia.
    + eapply slot_ok_mono; [by apply Hs|done| | |done].
      * destruct c as [|l0]; [by subst|]. apply Hc. congruence.
      * rewrite elem_of_app. intros [?|Hin]; [auto|]. destruct b; [by apply elem_of_nil in Hin|].
        apply list_elem_of_singleton in Hin. congruence.
  - apply NoDup_app. split; [exact (sublist_NoDup _ _ H2 Hsub)|]. split; [|destruct b; [apply NoDup_nil_2|apply NoDup_singleton]].
    intros x Hx. destruct b; [apply not_elem_of_nil|]. rewrite list_elem_of_singleton. intros ->. auto.
  - destruct b; [rewrite app_nil_r; by eapply h1_nodup_sub|].
    rewrite <-app_assoc, (Permutation_app_comm I0). simpl. rewrite (Permutation_app_comm _ I0).
    apply h1_nodup_add; [auto|done|by eapply h1_nodup_sub].
Qed.

(** A connection that went to waiters has them as its holders. *)
Lemma sent_ok gone loads loads' q q' I H c (ans : list nat) :
  (∀ l, c ≠ Http2 l → slot_ok (loads !! l) (holders l H) (l ∈ q) (Http2 l ∈ I) (l ∈ gone)) →
  match c with
  | Http1 _ => loads' = loads ∧ q' = q ∧ length ans = 1
  | Http2 l => (∃ mx, loads' = <[l := mkLoad (length ans) mx]> loads ∧ length ans ≤ mx) ∧ l ∈ q' ∧ (∀ x, x ≠ l → x ∈ q' ↔ x ∈ q)
  end → 0 < length ans → c ∉ I → c ∉ (conn_of <$> H) → NoDup q' → NoDup I → NoDup (filter is_h1 (I ++ (conn_of <$> H))) →
  ((∀ l ld, loads' !! l = Some ld → 2 ≤ max_streams ld) → ordered loads' q') →
  conns_ok gone loads' q' I (H ++ ((λ _, HPooled c) <$> ans)).
Proof.
  intros Hs Hc Hk Hi Hh H1 H2 H3 H4. split; try done.
  - intros l. rewrite holders_app, holders_copies. destruct (decide (c = Http2 l)) as [->|Hne].
    + destruct Hc as ((mx & -> & Hmx) & Hq & _). apply holders_zero in Hh. rewrite Hh, lookup_insert_eq. simpl.
      split_and!; try done; lia.
    + rewrite Nat.add_0_r. destruct c as [n|l0].
      * destruct Hc as (-> & -> & _). by apply Hs.
      * destruct Hc as ((mx & -> & Hmx) & Hq & Ho). assert (l ≠ l0) by congruence. rewrite lookup_insert_ne by done.
        eapply slot_ok_mono; [by apply Hs|done|by apply Ho|done|done].
  - rewrite fmap_app. destruct c as [n|l0].
    + destruct Hc as (_ & _ & Hlen). destruct ans as [|w [|]]; try done. simpl.
      rewrite app_assoc, (Permutation_app_comm (I ++ _)). simpl. by apply h1_nodup_add.
    + rewrite app_assoc, filter_app. assert (filter is_h1 (conn_of <$> ((λ _, HPooled (Http2 l0)) <$> ans)) = []) as ->; [|by rewrite app_nil_r].
      clear. induction ans as [|w ans IH]; [done|]. simpl. rewrite filter_cons, decide_False by (simpl; tauto). exact IH.
Qed.

(** The counts change only by the connection that is parked or sent. *)
Lemma counts_ok_move next nc ec H c s h' loads' task' rs :
  counts_ok next nc ec H s → match c with Http1 n => n < next | Http2 _ => True end →
  connecting h' = connecting (ps_host s) → expected_connecting_capacity h' = expected_connecting_capacity (ps_host s) →
  length (idle h') ≤ max_idle_per_host settings →
  (idle h' ≠ [] → is_Some (timeout settings) → task' = true) →
  (∀ n, loads' !! n = None ↔ ps_loads s !! n = None) →
  (∀ x, x ∈ idle_conns h' → x ∈ idle_conns (ps_host s) ∨ x = c) →
  (∀ x, x ∈ (conn_of <$> delivered rs) → x = c) →
  counts_ok next nc ec H (mkPS h' loads' task' (ps_out s ++ rs)).
Proof.
  intros [H1 H2 H3 H4 H5] Hc E1 E2 E3 E4 El Ei Er. split; simpl; [congruence|congruence|done|done|].
  intros n Hn. destruct (H5 n Hn) as [F1 F2]. split; [by apply El|]. intros Hin. apply F2.
  rewrite delivered_app, app_assoc, fmap_app, !elem_of_app in Hin. rewrite elem_of_app.
  assert (Http1 n ≠ c) as Hne by (intros <-; lia).
  destruct Hin as [Hin|[Hin|Hin]]; [destruct (Ei _ Hin); [by left|done]|by right|by apply Er in Hin].
Qed.

Lemma sends_conns c reused ans x : x ∈ (conn_of <$> delivered (sends c reused ans)) → x = c.
Proof. rewrite delivered_sends. by intros (h & -> & (w & -> & _)%list_elem_of_fmap)%list_elem_of_fmap. Qed.

Lemma sends_answered c reused ans : (sends c reused ans).*1 = ans.
Proof. unfold sends. rewrite <-list_fmap_compose. apply list_fmap_id. Qed.

Lemma sends_kept c reused ans : Forall (λ r, r.2 ≠ RDropped) (sends c reused ans).
Proof. unfold sends. apply Forall_fmap, Forall_true. done. Qed.

Lemma send_connection_ok next gone nc ec H e reused cap c s :
  sendable next gone H cap c s → counts_ok next nc ec H s →
  ∃ s', send_connection settings e reused cap c s = Ret s' ∧ ps_inv next gone nc ec H s' ∧ replied e cap s s'.
Proof.
  intros [Hs Hc Hi Hh H1 H2 H3 H4] Hcnt. unfold send_connection.
  set (q := active_h2 (ps_host s)) in *. set (I := idle_conns (ps_host s)) in *. set (D := H ++ delivered (ps_out s)) in *.
  destruct (push_idle_spec (max_idle_per_host settings) c (now e) (idle (ps_host s)) (pi_idle _ _ _ _ _ Hcnt)) as (Hlen & I0 & Hsub & HI0).
  assert (∀ x, x ∈ I0 ++ (if bool_decide (max_idle_per_host settings = 0) then [] else [c]) → x ∈ I ∨ x = c) as HI.
  { intros x [Hx|Hx]%elem_of_app; [left; by eapply elem_of_sublist|right]. case_bool_decide; [by apply elem_of_nil in Hx|].
    by apply list_elem_of_singleton in Hx. }
  assert (match c with Http1 n => n < next | Http2 _ => True end) as Hb by (destruct c; [apply Hc|done]).
  assert (∀ t, is_Some (timeout settings) → match timeout settings with Some _ => true | None => t end = true) as Htask
    by (by intros t [d ->]).
  destruct c as [n|l].
  - destruct Hc as [-> Hn]. destruct (send_loop_h1 e reused n (waiters (ps_host s)) (ps_loads s) q []) as (ws' & ans & -> & Ha & Hle).
    simpl. destruct ans as [|w [|]]; simpl; [| |simpl in Hle; lia]; eexists; (split; [done|]); split.
    + split.
      * simpl. rewrite app_nil_r, HI0. fold D. eapply (parked_ok _ _ q); try done.
      * apply (counts_ok_move _ _ _ _ (Http1 n) s); simpl; try done; [by intros _; apply Htask|by rewrite HI0|intros x Hx; by apply elem_of_nil in Hx].
    + exists []. simpl. by rewrite app_nil_r.
    + split; [|apply (counts_ok_move _ _ _ _ (Http1 n) s); simpl; try done; [apply Hcnt|apply Hcnt|by left|apply (sends_conns _ reused [w])]].
      simpl. rewrite delivered_app, app_assoc. fold D. by eapply (sent_ok _ _ _ q _ _ _ (Http1 n) [w]); try done; simpl; auto.
    + exists [(w, RConn (Http1 n) reused)]. split; [done|]. split; [done|]. by repeat constructor.
  - destruct Hc as (mx & Hl & Hcap).
    destruct (send_loop_h2 e reused l mx (waiters (ps_host s)) cap 0 (ps_loads s) q [] 0) as (ws' & ans & q' & Heq & Ha & Hle & [Q1 Q2 Q3] & Hin);
      [done|lia|done|lia|]. rewrite Heq. simpl.
    assert (∀ n, <[l := mkLoad (length ans) mx]> (ps_loads s) !! n = None ↔ ps_loads s !! n = None) as Hdom.
    { intros n. destruct (decide (n = l)) as [->|]; [by rewrite lookup_insert_eq, Hl|by rewrite lookup_insert_ne]. }
    destruct ans as [|w ans]; simpl; eexists; (split; [done|]); split.
    + simpl in *. rewrite (insert_id _ _ _ Hl) in *. split.
      * simpl. rewrite app_nil_r, HI0. fold D. eapply (parked_ok _ _ q); try done.
        -- split; [exists mx; split; [done|lia]|]. split; [rewrite elem_of_h2_remove by done; naive_solver|].
           intros x Hx. rewrite elem_of_h2_remove by done. naive_solver.
        -- by apply h2_remove_nodup.
        -- intros Hm. apply ordered_remove, Q3; [naive_solver|]. auto.
      * apply (counts_ok_move _ _ _ _ (Http2 l) s); simpl; try done; [by intros _; apply Htask|by rewrite HI0|intros x Hx; by apply elem_of_nil in Hx].
    + exists []. simpl. by rewrite app_nil_r.
    + split; [|apply (counts_ok_move _ _ _ _ (Http2 l) s); simpl; try done; [apply Hcnt|apply Hcnt|by left|apply (sends_conns _ reused (w :: ans))]].
      simpl. rewrite delivered_app, app_assoc. fold D. change (delivered _) with (delivered (sends (Http2 l) reused (w :: ans))).
      rewrite delivered_sends. eapply (sent_ok _ (ps_loads s) _ q); try done.
      * split; [exists mx; split; [done|simpl in *; lia]|]. split; [|done]. apply Hin. right. simpl. lia.
      * simpl. lia.
      * intros Hm. apply Q3; [intros ld Hld; by apply (Hm l)|]. apply H4. intros l' ld Hld.
        destruct (decide (l' = l)) as [->|Hne].
        -- rewrite Hl in Hld. injection Hld as <-. specialize (Hm l). rewrite lookup_insert_eq in Hm. by specialize (Hm _ eq_refl).
        -- apply (Hm l'). by rewrite lookup_insert_ne.
    + exists (sends (Http2 l) reused (w :: ans)). split; [done|]. split; [by rewrite sends_answered|apply sends_kept].
Qed.

(** ** Handles that are dropped *)

Lemma sendable_of next gone H cap c s :
  conns_ok gone (ps_loads s) (active_h2 (ps_host s)) (idle_conns (ps_host s)) (H ++ delivered (ps_out s)) →
  c ∉ idle_conns (ps_host s) → c ∉ (conn_of <$> H ++ delivered (ps_out s)) →
  match c with
  | Http1 n => cap = 1 ∧ n < next
  | Http2 l => ∃ mx, ps_loads s !! l = Some (mkLoad 0 mx) ∧ 1 ≤ cap ≤ mx
  end → sendable next gone H cap c s.
Proof. intros [H1 H2 H3 H4 H5] Hi Hh Hc. by split. Qed.

Lemma counts_ok_drop next nc ec h H s : counts_ok next nc ec (h :: H) s → counts_ok next nc ec H s.
Proof.
  intros [H1 H2 H3 H4 H5]. split; try done. intros n Hn. destruct (H5 n Hn) as [F1 F2]. split; [done|].
  simpl in F2. rewrite elem_of_app, elem_of_cons in F2. rewrite elem_of_app. naive_solver.
Qed.

(** Counters do not look at streams. *)
Lemma counts_ok_streams next nc ec H s loads q :
  counts_ok next nc ec H s → (∀ n, loads !! n = None ↔ ps_loads s !! n = None) → counts_ok next nc ec H (put_h2 loads q s).
Proof.
  intros [H1 H2 H3 H4 H5] Hd. split; try done. intros n Hn. destruct (H5 n Hn) as [F1 F2]. split; [by apply Hd|done].
Qed.

Lemma insert_dom (loads : Loads) l ld ld' n : loads !! l = Some ld → <[l := ld']> loads !! n = None ↔ loads !! n = None.
Proof. intros Hl. destruct (decide (n = l)) as [->|]; [by rewrite lookup_insert_eq, Hl|by rewrite lookup_insert_ne]. Qed.

(** A holder has a stream. *)
Lemma held_slot gone loads q I h H l :
  conns_ok gone loads q I (h :: H) → conn_of h = Http2 l →
  ∃ a mx, loads !! l = Some (mkLoad (S a) mx) ∧ S a ≤ mx ∧ holders l H ≤ a ∧ (l ∉ gone → a = holders l H ∧ l ∈ q) ∧ Http2 l ∉ I.
Proof.
  intros [H1 _ _ _ _] Hh. specialize (H1 l). rewrite holders_cons, decide_True in H1 by done.
  destruct (loads !! l) as [[a mx]|]; simpl in H1; [|lia]. destruct H1 as (G1 & [G2 G3] & G4 & G5 & G6).
  destruct a as [|a]; [lia|]. exists a, mx. split; [done|]. split; [done|]. split; [lia|]. split.
  - intros [G G']%G4. split; [lia|apply G'; lia].
  - intros Hi%G6. lia.
Qed.

Lemma holders_other l x h H : conn_of h = Http2 l → x ≠ l → holders x H = holders x (h :: H).
Proof. intros Hh Hx. rewrite holders_cons, decide_False by congruence. done. Qed.

Lemma max2_before (loads : Loads) l ld ld' :
  loads !! l = Some ld → max_streams ld = max_streams ld' →
  (∀ l' x, <[l := ld']> loads !! l' = Some x → 2 ≤ max_streams x) → ∀ l' x, loads !! l' = Some x → 2 ≤ max_streams x.
Proof.
  intros Hl Hm Hall l' x Hx. destruct (decide (l' = l)) as [->|Hne].
  - rewrite Hl in Hx. injection Hx as <-. rewrite Hm. apply (Hall l). by rewrite lookup_insert_eq.
  - apply (Hall l'). by rewrite lookup_insert_ne.
Qed.

(** One stream of several ends. *)
Lemma released_ok gone loads q q' I h H l a mx :
  conns_ok gone loads q I (h :: H) → conn_of h = Http2 l → loads !! l = Some (mkLoad (S a) mx) → 0 < a →
  requeue l loads (<[l := mkLoad a mx]> loads) q q' → (l ∈ q → l ∈ q') →
  conns_ok gone (<[l := mkLoad a mx]> loads) q' I H.
Proof.
  intros Hok Hh Hl Ha [Q1 Q2 Q3] Hin. destruct (held_slot _ _ _ _ _ _ _ Hok Hh) as (a' & mx' & Hl' & Hle & Hn & Hg & Hi).
  rewrite Hl in Hl'. injection Hl' as <- <-. eapply conns_ok_edit; [exact Hok| |by eauto using holders_other|done|by auto|done|apply Hok| |].
  - simpl. split_and!; try lia; [naive_solver|done].
  - by eapply h1_nodup_drop, (co_h1 _ _ _ _ _ Hok).
  - intros Hm. apply Q3; [intros ld Hld; by apply (Hm l)|]. apply (co_order _ _ _ _ _ Hok).
    by apply (max2_before loads l (mkLoad (S a) mx) (mkLoad a mx)).
Qed.

(** The last stream ends. *)
Lemma drained_ok gone loads q I h H l mx :
  conns_ok gone loads q I (h :: H) → conn_of h = Http2 l → loads !! l = Some (mkLoad 1 mx) →
  conns_ok gone (<[l := mkLoad 0 mx]> loads) (h2_remove l q) I H ∧ (Http2 l ∉ I) ∧ Http2 l ∉ (conn_of <$> H).
Proof.
  intros Hok Hh Hl. destruct (held_slot _ _ _ _ _ _ _ Hok Hh) as (a & mx' & Hl' & Hle & Hn & Hg & Hi).
  rewrite Hl in Hl'. injection Hl' as <- <-. assert (holders l H = 0) as H0 by lia.
  split; [|split; [done|by apply holders_zero]]. pose proof (co_queue _ _ _ _ _ Hok) as Hq.
  eapply conns_ok_edit; [exact Hok| |by eauto using holders_other| |by auto|by apply h2_remove_nodup|apply Hok| |].
  - simpl. rewrite elem_of_h2_remove by done. split_and!; try lia; naive_solver lia.
  - intros x Hx. rewrite elem_of_h2_remove by done. naive_solver.
  - by eapply h1_nodup_drop, (co_h1 _ _ _ _ _ Hok).
  - intros Hm. apply ordered_removed; [done|]. apply (co_order _ _ _ _ _ Hok).
    by apply (max2_before loads l (mkLoad 1 mx) (mkLoad 0 mx)).
Qed.

Lemma requeue_stay loads l a mx q :
  loads !! l = Some (mkLoad (S a) mx) → S a < mx → NoDup q → requeue l loads (<[l := mkLoad a mx]> loads) q q.
Proof.
  intros Hl Ha Hq. split; [done|done|]. intros _. apply ordered_same. intros x _.
  destruct (decide (x = l)) as [->|Hx]; [|by rewrite full_insert_ne]. rewrite full_insert, (full_lookup _ _ _ Hl). simpl. lia.
Qed.

Lemma requeue_front loads l a mx q :
  loads !! l = Some (mkLoad (S a) mx) → S a ≤ mx → NoDup q → requeue l loads (<[l := mkLoad a mx]> loads) q (l :: h2_remove l q).
Proof.
  intros Hl Ha Hq. split; [by apply front_nodup| |].
  - intros x Hx. rewrite elem_of_cons, elem_of_h2_remove by done. naive_solver.
  - intros _ Ho. apply ordered_front; [rewrite full_insert; simpl; lia|by apply ordered_removed].
Qed.

Lemma requeue_absent loads l ld q : NoDup q → l ∉ q → requeue l loads (<[l := ld]> loads) q q.
Proof.
  intros Hq Hl. split; [done|done|]. intros _. apply ordered_ext. intros x Hx. rewrite lookup_insert_ne; [done|by intros ->].
Qed.

(** The state once a stream of [l] is released. *)
Lemma release_cases next gone nc ec h H l s :
  ps_inv next gone nc ec (h :: H) s → conn_of h = Http2 l →
  ∃ a mx, ps_loads s !! l = Some (mkLoad (S a) mx) ∧ S a ≤ mx ∧
    let loads := <[l := mkLoad a mx]> (ps_loads s) in let q := active_h2 (ps_host s) in
    (∀ q', counts_ok next nc ec H (put_h2 loads q' s)) ∧
    (a = 0 → conns_ok gone loads (h2_remove l q) (idle_conns (ps_host s)) (H ++ delivered (ps_out s)) ∧
       sendable next gone H 1 (Http2 l) (put_h2 loads (h2_remove l q) s)) ∧
    (0 < a → ∀ q', requeue l (ps_loads s) loads q q' → (l ∈ q → l ∈ q') → ps_inv next gone nc ec H (put_h2 loads q' s)).
Proof.
  intros [Hok Hcnt] Hh. simpl in Hok. destruct (held_slot _ _ _ _ _ _ _ Hok Hh) as (a & mx & Hl & Hle & _ & _ & Hi).
  exists a, mx. split; [done|]. split; [done|]. intros loads q.
  assert (∀ q', counts_ok next nc ec H (put_h2 loads q' s)) as Hcnt'.
  { intros q'. apply counts_ok_streams; [by eapply counts_ok_drop|]. intros n. by eapply insert_dom. }
  split; [done|]. split.
  - intros ->. destruct (drained_ok _ _ _ _ _ _ _ _ Hok Hh Hl) as (Hd & Hi' & Hh'). split; [done|].
    apply sendable_of; simpl; try done. exists mx. split; [apply lookup_insert_eq|lia].
  - intros Ha q' Hq Hin. split; [|done]. by eapply released_ok.
Qed.

Lemma drop_guard_ok next gone nc ec h H l e s :
  ps_inv next gone nc ec (h :: H) s → conn_of h = Http2 l →
  ∃ n s', drop_guard settings e l s = Ret s' ∧ ps_inv next gone nc ec H s' ∧ replied e n s s'.
Proof.
  intros Hinv Hh. destruct (release_cases _ _ _ _ _ _ _ _ Hinv Hh) as (a & mx & Hl & Hle & Hcnt & Hz & Hs).
  unfold drop_guard, return_h2_stream. rewrite Hl. cbn [mbind outcome_bind expect]. rewrite release_ok. simpl.
  pose proof (co_queue _ _ _ _ _ (pi_conns _ _ _ _ _ _ Hinv)) as Hq. destruct (decide (a = 0)) as [Ha|Ha].
  - destruct (Hz Ha) as [Hd Hsend]. subst a. destruct (decide (l ∈ active_h2 (ps_host s))) as [Hin|Hin].
    + destruct (is_open e (Http2 l)).
      * destruct (send_connection_ok next gone nc ec H e true 1 (Http2 l) _ Hsend (Hcnt _)) as (s' & Hs' & Hinv' & Hr).
        exists 1, s'. split; [exact Hs'|]. by split.
      * exists 0. eexists. split; [done|]. split; [split; [exact Hd|apply (Hcnt (h2_remove l (active_h2 (ps_host s))))]|by apply replied_refl].
    + exists 0. eexists. split; [done|]. split; [split; [|apply Hcnt]|by apply replied_refl].
      by rewrite (h2_remove_not l) in Hd.
  - case_bool_decide as Hm; exists 0; eexists; (split; [done|]); (split; [|by apply replied_refl]).
    + apply (Hs ltac:(lia) (mark_active_by_load l (active_h2 (ps_host s)))); [|by rewrite mark_active_by_load_elem].
      unfold mark_active_by_load. case_decide; [by apply requeue_front|by apply requeue_absent].
    + apply (Hs ltac:(lia) (active_h2 (ps_host s))); [|done]. apply requeue_stay; [done|lia|done].
Qed.

Lemma conns_ok_forget gone loads q I h H l :
  conns_ok gone loads q I (h :: H) → conn_of h = Http2 l → l ∈ gone → conns_ok gone loads (h2_remove l q) I H.
Proof.
  intros Hok Hh Hg. destruct (held_slot _ _ _ _ _ _ _ Hok Hh) as (a & mx & Hl & Hle & Hn & _ & Hi).
  pose proof (co_queue _ _ _ _ _ Hok) as Hq. rewrite <-(insert_id loads l _ Hl).
  eapply conns_ok_edit; [exact Hok| |by eauto using holders_other| |by auto|by apply h2_remove_nodup|apply Hok| |].
  - simpl. rewrite elem_of_h2_remove by done. split_and!; try lia; naive_solver lia.
  - intros x Hx. rewrite elem_of_h2_remove by done. naive_solver.
  - by eapply h1_nodup_drop, (co_h1 _ _ _ _ _ Hok).
  - rewrite (insert_id loads l _ Hl). intros Hm. by apply ordered_remove, (co_order _ _ _ _ _ Hok).
Qed.

Lemma conns_ok_drop_h1 gone loads q I c H :
  conns_ok gone loads q I (HPooled (Http1 c) :: H) →
  conns_ok gone loads q I H ∧ (Http1 c ∉ I) ∧ Http1 c ∉ (conn_of <$> H).
Proof.
  intros [H1 H2 H3 H4 H5]. split.
  - split; [intros l; exact (H1 l)|done|done|by eapply h1_nodup_drop|done].
  - rewrite fmap_cons, (Permutation_app_comm I) in H4. simpl in H4. rewrite filter_cons, decide_True in H4 by done.
    apply NoDup_cons in H4 as [H4 _]. rewrite list_elem_of_filter, elem_of_app in H4. simpl in H4. naive_solver.
Qed.

Lemma drop_pooled_ok next gone nc ec c H e s :
  ps_inv next gone nc ec (HPooled c :: H) s → (∀ l, c = Http2 l → is_open e c = false → l ∈ gone) →
  ∃ n s', drop_pooled settings e c s = Ret s' ∧ ps_inv next gone nc ec H s' ∧ replied e n s s'.
Proof.
  intros Hinv Hg. unfold drop_pooled. pose proof (counts_ok_drop _ _ _ _ _ _ (pi_counts _ _ _ _ _ _ Hinv)) as Hcnt.
  destruct (is_open e c) eqn:Eo.
  2:{ exists 0. eexists. split; [done|]. split; [|by destruct c; apply replied_refl]. destruct Hinv as [Hok _]. simpl in Hok.
      destruct c as [n|l]; [by split; [eapply conns_ok_drop_h1|]|]. split.
      - simpl. eapply conns_ok_forget; [exact Hok|done|by apply Hg].
      - by apply (counts_ok_streams _ _ _ _ s (ps_loads s)). }
  destruct c as [n|l].
  - destruct Hinv as [Hok Hc]. destruct (conns_ok_drop_h1 _ _ _ _ _ _ Hok) as (Hok' & Hi & Hh).
    assert (n < next) as Hn.
    { destruct (decide (n < next)); [done|]. destruct (pi_fresh _ _ _ _ _ Hc n) as [_ F]; [lia|]. destruct F.
      apply elem_of_app. right. by left. }
    destruct (send_connection_ok next gone nc ec H e true 1 (Http1 n) s) as (s' & Hs' & Hinv' & Hr); [by apply sendable_of|done|].
    exists 1, s'. by split.
  - destruct (release_cases _ _ _ _ _ _ _ _ Hinv eq_refl) as (a & mx & Hl & Hle & Hcnt' & Hz & Hs).
    unfold return_connection. rewrite Hl. cbn [mbind outcome_bind expect]. rewrite release_ok. simpl.
    pose proof (co_queue _ _ _ _ _ (pi_conns _ _ _ _ _ _ Hinv)) as Hq. destruct (decide (a = 0)) as [Ha|Ha].
    + destruct (Hz Ha) as [_ Hsend]. subst a.
      destruct (send_connection_ok next gone nc ec H e true 1 (Http2 l) _ Hsend (Hcnt' _)) as (s' & Hs' & Hinv' & Hr).
      exists 1, s'. split; [exact Hs'|]. by split.
    + case_bool_decide as Hm; exists 0; eexists; (split; [done|]); (split; [|by apply replied_refl]).
      * apply (Hs ltac:(lia) (mark_active l (active_h2 (ps_host s)))); [by apply requeue_front|]. intros _. by left.
      * apply (Hs ltac:(lia) (active_h2 (ps_host s))); [|done]. apply requeue_stay; [done|lia|done].
Qed.

(** ** Connection attempts that end *)

Lemma replied_mono e n m s s' : m ≤ n → replied e n s s' → replied e m s s'.
Proof. intros Hle (rs & H1 & [A1 A2 A3] & H3). exists rs. split; [done|]. split; [|done]. split; [done|done|lia]. Qed.

Lemma usub_ok a b : b ≤ a → usub a b = Ret (a - b).
Proof. intros. unfold usub. by rewrite decide_True. Qed.

(** Counters and waiters are no matter of the connections. *)
Lemma ps_inv_counters next gone nc ec nc' ec' H s c w rs :
  ps_inv next gone nc ec H s → delivered rs = [] →
  ps_inv next gone nc' ec' H (mkPS (mkHost nc' ec' c (idle (ps_host s)) (active_h2 (ps_host s)) w) (ps_loads s) (ps_idle_task s) (ps_out s ++ rs)).
Proof.
  intros [Hok [H1 H2 H3 H4 H5]] Hrs. split; [|split]; simpl; try done; rewrite ?delivered_app, Hrs, ?app_nil_r; done.
Qed.

Lemma forget_pending_ok next gone nc ec H e cap err (under : bool) s :
  ps_inv next gone ((if under then 0 else 1) + nc) (cap + ec) H s →
  ∃ s', forget_pending_connection e cap err under s = Ret s' ∧ ps_inv next gone nc ec H s' ∧
    replied e (if under then cap else 1 `max` cap) s s'.
Proof.
  intros Hinv. unfold forget_pending_connection.
  destruct (pi_counts _ _ _ _ _ _ Hinv) as [Hc He _ _ _]. rewrite Hc, He.
  assert ((if under then Ret ((if under then 0 else 1) + nc) else usub ((if under then 0 else 1) + nc) 1) = Ret nc) as ->.
  { destruct under; [done|]. rewrite usub_ok by (simpl; lia). f_equal. simpl. lia. }
  rewrite usub_ok by lia. replace (cap + ec - cap) with ec by lia. cbn [mbind outcome_bind]. destruct under.
  - destruct (notify_rest_answers e cap ConnectionLowCapacity (waiters (ps_host s))) as (ws & ans & -> & Ha).
    eexists. split; [done|]. split; [apply (ps_inv_counters next gone nc (cap + ec) nc ec H s (per_connection_capacity_cache (ps_host s)) ws); [done|by apply delivered_errors]|].
    exists ((λ w, (w, RClosed ConnectionLowCapacity)) <$> ans). split; [done|].
    rewrite <-list_fmap_compose, list_fmap_id. split; [done|]. by apply Forall_fmap, Forall_true.
  - destruct (notify_first_answers e err (waiters (ps_host s))) as (ws1 & ans1 & r & -> & Ha1 & Hr).
    destruct (notify_rest_answers e (cap - 1) WaitingOnSharedFailedConnection ws1) as (ws & ans & -> & Ha).
    assert (∀ c b, r ≠ RConn c b) as Hr1 by (by intros c b; destruct Hr as [->| ->]).
    eexists. split; [done|]. split; [apply (ps_inv_counters next gone (1 + nc) (cap + ec) nc ec H s (per_connection_capacity_cache (ps_host s)) ws); [done|]|].
    { rewrite delivered_app, !delivered_errors; done. }
    eexists. split; [done|]. split.
    + rewrite fmap_app, <-!list_fmap_compose, !list_fmap_id.
      replace (1 `max` cap) with (1 + (cap - 1)) by lia. by eapply answers_trans.
    + apply Forall_app. split; apply Forall_fmap, Forall_true; intros w; [destruct Hr as [->| ->]; done|done].
Qed.

(** A fresh connection: its load, if it has one, is new. *)
Definition fresh_conn (next : nat) (H : list Handle) (conn : HttpConnection) (cap : nat) (s : PS) : Prop :=
  (conn ∉ idle_conns (ps_host s)) ∧ (conn ∉ (conn_of <$> H ++ delivered (ps_out s))) ∧
  match conn with
  | Http1 n => cap = 1 ∧ n < next
  | Http2 l => ps_loads s !! l = Some (mkLoad 0 cap) ∧ 1 ≤ cap ∧ l ∉ active_h2 (ps_host s)
  end.

Lemma insert_new_ok next gone nc ec H e expected conn cap s :
  ps_inv next gone (S nc) (expected + ec) H s → fresh_conn next H conn cap s →
  ∃ s', insert_new_connection settings e expected conn s = Ret s' ∧ ps_inv next gone nc ec H s' ∧
    replied e (1 `max` expected) s s'.
Proof.
  intros Hinv (Hi & Hh & Hf). unfold insert_new_connection.
  assert (capacity (ps_loads s) conn = Ret cap ∧ 1 ≤ cap) as [-> Hcap].
  { destruct conn as [n|l]; [by destruct Hf as [-> _]|]. destruct Hf as (Hl & Hm & _). simpl. rewrite Hl. simpl.
    unfold remaining_capacity. rewrite usub_ok by (simpl; lia). simpl. by rewrite Nat.sub_0_r. }
  destruct (pi_counts _ _ _ _ _ _ Hinv) as [Hc He _ _ _]. rewrite Hc, He.
  cbn [mbind outcome_bind]. rewrite usub_ok by lia. cbn [mbind outcome_bind]. rewrite usub_ok by lia. cbn [mbind outcome_bind].
  replace (S nc - 1) with nc by lia. set (ec1 := expected + ec - cap `min` expected).
  set (s1 := on_host _ s). assert (ps_inv next gone nc ec1 H s1) as Hinv1.
  { pose proof (ps_inv_counters next gone (S nc) (expected + ec) nc ec1 H s
      (per_connection_capacity_cache (ps_host s)) (waiters (ps_host s)) [] Hinv eq_refl) as Hx. by rewrite app_nil_r in Hx. }
  assert (∃ q, maybe_insert_new conn false (ps_loads s1) (active_h2 (ps_host s1)) = Ret (ps_loads s1, q) ∧
    sendable next gone H cap conn (put_h2 (ps_loads s1) q s1)) as (q & -> & Hsend).
  { destruct Hinv1 as [Hok _]. destruct conn as [n|l].
    - eexists. split; [done|]. by apply sendable_of.
    - destruct Hf as (Hl & Hm & Hq). eexists. split; [done|]. destruct Hok as [G1 G2 G3 G4 G5]. split; simpl; try done.
      + intros x Hx. eapply slot_ok_mono; [apply G1|done| |done|done]. rewrite elem_of_cons. naive_solver.
      + exists cap. split; [done|lia].
      + by apply NoDup_cons.
      + intros Hm2. apply ordered_front; [rewrite (full_lookup _ _ _ Hl); simpl; lia|by apply G5]. }
  cbn [mbind outcome_bind].
  destruct (send_connection_ok next gone nc ec1 H e false cap conn _ Hsend) as (s2 & -> & Hinv2 & Hr2).
  { apply counts_ok_streams; [apply Hinv1|done]. }
  cbn [mbind outcome_bind]. case_decide as Hlt.
  - set (s3 := on_host _ s2).
    assert (ps_inv next gone (0 + nc) (expected - cap + ec) H s3) as Hinv3.
    { replace (expected - cap + ec) with ec1 by lia. destruct (pi_counts _ _ _ _ _ _ Hinv2) as [Hc2 He2 _ _ _].
      pose proof (ps_inv_counters next gone nc ec1 nc ec1 H s2 (Cached cap) (waiters (ps_host s2)) [] Hinv2 eq_refl) as Hx.
      rewrite app_nil_r in Hx. unfold s3, on_host, set_cache. rewrite Hc2, He2. exact Hx. }
    destruct (forget_pending_ok next gone nc ec H e (expected - cap) false true s3 Hinv3) as (s4 & Hs4 & Hinv4 & Hr4).
    exists s4. split; [done|]. split; [done|]. eapply replied_mono; [|eapply (replied_trans e cap (expected - cap) s s2); [exact Hr2|exact Hr4]]. lia.
  - exists s2. split; [done|]. split; [by replace ec with ec1 by lia|]. eapply replied_mono; [|exact Hr2]. lia.
Qed.

(** ** Checkout *)

(** Connections that the pool finds closed are already counted as gone. *)
Definition closed_gone (e : Env) (gone : gset nat) (loads : Loads) : Prop :=
  ∀ l, is_Some (loads !! l) → is_open e (Http2 l) = false → l ∈ gone.

Lemma reserve_cases e loads q :
  (∀ l, l ∈ q → is_Some (loads !! l)) →
  ∃ dead q0, q = dead ++ q0 ∧ Forall (λ l, is_open e (Http2 l) = false) dead ∧
    ((h2_reserve e loads q = Ret (loads, q0, None) ∧ ∀ l, head q0 = Some l → is_open e (Http2 l) = true ∧ ∀ ld, loads !! l = Some ld → max_streams ld ≤ active_streams ld) ∨
     ∃ l q1 a mx, q0 = l :: q1 ∧ is_open e (Http2 l) = true ∧ loads !! l = Some (mkLoad a mx) ∧ a < mx ∧
       h2_reserve e loads q = Ret (<[l := mkLoad (S a) mx]> loads, if decide (mx = S a) then q1 ++ [l] else l :: q1, Some l)).
Proof.
  induction q as [|l q IH]; intros Hq.
  { exists [], []. split; [done|]. split; [done|]. left. by split. }
  cbn [h2_reserve]. destruct (is_open e (Http2 l)) eqn:Eo; simpl.
  - exists [], (l :: q). split; [done|]. split; [done|]. destruct (Hq l) as [[a mx] Hl]; [by left|]. rewrite Hl. cbn [mbind outcome_bind expect].
    destruct (decide (a < mx)) as [Ha|Ha].
    + right. exists l, q, a, mx. split_and!; try done. destruct (try_reserve_ok a mx Ha) as (r & -> & [[-> ->]|[-> Hlt]]).
      * by rewrite decide_True.
      * by rewrite decide_False by lia.
    + left. unfold try_reserve_stream_slot. simpl. rewrite decide_False by done. split; [done|].
      intros l' [= <-]. split; [done|]. intros ld Hld. rewrite Hl in Hld. injection Hld as <-. simpl. lia.
  - destruct IH as (dead & q0 & -> & Hd & Hres); [intros x Hx; apply Hq; by right|].
    exists (l :: dead), q0. split; [done|]. split; [by constructor|done].
Qed.

Lemma ordered_suffix loads a b : ordered loads (a ++ b) → ordered loads b.
Proof.
  induction a as [|x a IH]; [done|]. intros (u & v & Heq & Hu & Hv). apply IH. destruct u as [|y u].
  - simpl in Heq. subst v. exists [], (a ++ b). split; [done|]. split; [done|]. by apply Forall_cons in Hv as [_ ?].
  - injection Heq as -> Heq. exists u, v. split; [done|]. split; [|done]. by apply Forall_cons in Hu as [_ ?].
Qed.

Lemma conns_ok_suffix gone loads dead q I H :
  conns_ok gone loads (dead ++ q) I H → Forall (λ l, l ∈ gone) dead → conns_ok gone loads q I H.
Proof.
  intros [H1 H2 H3 H4 H5] Hd. rewrite Forall_forall in Hd. apply NoDup_app in H2 as (_ & Hdis & H2). split; try done.
  - intros l. specialize (H1 l). rewrite elem_of_app in H1. destruct (loads !! l) as [ld|]; simpl in *; [|naive_solver].
    naive_solver.
  - intros Hm. by eapply ordered_suffix, H5.
Qed.

Lemma h1_nodup_add_h2 I H l : NoDup (filter is_h1 (I ++ (conn_of <$> H))) → NoDup (filter is_h1 (I ++ (conn_of <$> HPooled (Http2 l) :: H))).
Proof. rewrite !filter_app. simpl. by rewrite filter_cons, decide_False by (simpl; tauto). Qed.

(** A stream more on a tracked connection. *)
Lemma reserved_ok gone loads l q1 a mx I H :
  conns_ok gone loads (l :: q1) I H → loads !! l = Some (mkLoad a mx) → a < mx →
  conns_ok gone (<[l := mkLoad (S a) mx]> loads) (if decide (mx = S a) then q1 ++ [l] else l :: q1) I (HPooled (Http2 l) :: H).
Proof.
  intros Hok Hl Ha. pose proof Hok as [H1 H2 H3 H4 H5]. apply NoDup_cons in H2 as [Hn Hq].
  assert (l ∈ (if decide (mx = S a) then q1 ++ [l] else l :: q1)) as Hin by (case_decide; [apply elem_of_app; right; by left|by left]).
  eapply conns_ok_edit; [exact Hok| | | |by auto| |done|by apply h1_nodup_add_h2|].
  - specialize (H1 l). rewrite Hl in H1. simpl in H1. rewrite holders_cons, decide_True by done. simpl.
    assert (l ∈ l :: q1) by (by left). destruct H1 as (G1 & G2 & G3 & G4 & G5). split_and!; try lia.
    + intros Hg. destruct (G3 Hg). split; [lia|done].
    + intros Hi. assert (0 < a) by auto. specialize (G5 Hi). lia.
  - intros x Hx. rewrite holders_cons, decide_False by (simpl; congruence). done.
  - intros x Hx. case_decide; [|done]. rewrite elem_of_app, list_elem_of_singleton, elem_of_cons. naive_solver.
  - case_decide; [|by apply NoDup_cons]. apply NoDup_app. split; [done|]. split; [|apply NoDup_singleton].
    intros x Hx. rewrite list_elem_of_singleton. by intros ->.
  - intros Hm. assert (ordered loads (l :: q1)) as Ho by (apply H5; by apply (max2_before loads l (mkLoad a mx) (mkLoad (S a) mx))).
    apply (ordered_suffix _ [l]) in Ho. assert (ordered (<[l := mkLoad (S a) mx]> loads) q1) as Ho'.
    { apply (ordered_ext loads); [|done]. intros x Hx. rewrite lookup_insert_ne; [done|by intros ->]. }
    case_decide; [apply ordered_back; [apply full_insert; simpl; lia|done]|].
    apply ordered_front; [rewrite full_insert; simpl; lia|done].
Qed.

Lemma idle_pop_cases e L :
  ∃ skipped, Forall (λ i, is_open e (idle_value i) = false ∨ expires settings (idle_at i) (now e) = true) skipped ∧
    match idle_pop settings e L with
    | (None, rest) => L = skipped ∧ rest = []
    | (Some i, rest) => L = skipped ++ i :: rest ∧ is_open e (idle_value i) = true
    end.
Proof.
  induction L as [|i L (sk & Hsk & IH)]; [by exists []|]. simpl. destruct (is_open e (idle_value i)) eqn:Eo; simpl.
  - destruct (expires settings (idle_at i) (now e)) eqn:Ee; [|by exists []].
    exists (i :: sk). split; [constructor; auto|]. destruct (idle_pop settings e L) as [[j|] rest]; simpl; naive_solver.
  - exists (i :: sk). split; [constructor; auto|]. destruct (idle_pop settings e L) as [[j|] rest]; simpl; naive_solver.
Qed.

(** An idle connection is taken out. *)
Lemma taken_ok gone loads q I0 c S H :
  conns_ok gone loads q (I0 ++ c :: S) H →
  ∃ loads' q', maybe_insert_new c true loads q = Ret (loads', q') ∧ conns_ok gone loads' q' I0 (HPooled c :: H) ∧
    (∀ n, loads' !! n = None ↔ loads !! n = None).
Proof.
  intros Hok. pose proof Hok as [H1 H2 H3 H4 H5].
  assert (sublist I0 (I0 ++ c :: S)) as Hsub by (by apply sublist_inserts_r).
  assert (c ∉ I0) as Hc. { apply NoDup_app in H3 as (_ & Hd & _). intros Hin. apply (Hd c Hin). by left. }
  assert (NoDup I0) as Hnd by exact (sublist_NoDup _ _ H3 Hsub).
  assert (∀ x, x ∈ I0 → x ∈ I0 ++ c :: S) as Hin0 by (intros x Hx; apply elem_of_app; by left).
  destruct c as [n|l]; simpl.
  - exists loads, q. split; [done|]. split; [|done]. split; try done.
    + intros l. eapply slot_ok_mono; [apply H1|by rewrite holders_cons|done|by auto|done].
    + rewrite fmap_cons. simpl. assert (sublist (I0 ++ [Http1 n]) (I0 ++ Http1 n :: S)) as Hs2.
      { apply sublist_app; [done|]. apply sublist_skip, sublist_nil_l. }
      rewrite cons_middle, app_assoc. by apply (h1_nodup_sub _ _ H Hs2).
  - assert (Http2 l ∈ I0 ++ Http2 l :: S) as Hl by (apply elem_of_app; right; by left).
    specialize (H1 l) as Hsl. destruct (loads !! l) as [[a mx]|] eqn:El; simpl in Hsl; [|naive_solver].
    destruct Hsl as (G1 & G2 & G3 & G4 & G5). specialize (G5 Hl). simpl in G5. subst a.
    assert (l ∉ q) as Hq by (intros Hq; specialize (G4 Hq); lia). cbn [mbind outcome_bind expect].
    destruct (try_reserve_ok 0 mx) as (r & -> & Hr); [lia|]. exists (<[l := mkLoad 1 mx]> loads), (l :: q).
    split; [by destruct Hr as [[-> _]|[-> _]]|]. split; [|intros n; by eapply insert_dom].
    eapply conns_ok_edit; [exact Hok| | | |by auto|by apply NoDup_cons|done| |].
    + rewrite holders_cons, decide_True by done. simpl. split_and!; try lia; [|done].
      intros _. split; [lia|by left].
    + intros x Hx. rewrite holders_cons, decide_False by (simpl; congruence). done.
    + intros x Hx. rewrite elem_of_cons. naive_solver.
    + apply h1_nodup_add_h2. by eapply h1_nodup_sub.
    + intros Hm. specialize (Hm l) as Hml. rewrite lookup_insert_eq in Hml. specialize (Hml _ eq_refl). simpl in Hml.
      apply ordered_front; [rewrite full_insert; simpl; lia|]. apply (ordered_ext loads).
      { intros x Hx. rewrite lookup_insert_ne; [done|by intros ->]. }
      apply H5. by apply (max2_before loads l (mkLoad 0 mx) (mkLoad 1 mx)).
Qed.

Lemma counts_ok_sub next nc ec nc' ec' H H' s h' loads' :
  counts_ok next nc ec H s → connecting h' = nc' → expected_connecting_capacity h' = ec' →
  length (idle h') ≤ length (idle (ps_host s)) → (∀ n, loads' !! n = None ↔ ps_loads s !! n = None) →
  (∀ x, x ∈ idle_conns h' ++ (conn_of <$> H' ++ delivered (ps_out s)) →
     is_h1 x → x ∈ idle_conns (ps_host s) ++ (conn_of <$> H ++ delivered (ps_out s))) →
  counts_ok next nc' ec' H' (mkPS h' loads' (ps_idle_task s) (ps_out s)).
Proof.
  intros [H1 H2 H3 H4 H5] Hc He Hl Hd Hsub. split; simpl; try done; [lia| |].
  - intros Hne Ht. apply H4; [|done]. intros E. rewrite E in Hl. destruct (idle h'); [done|simpl in Hl; lia].
  - intros n Hn. destruct (H5 n Hn) as [F1 F2]. split; [by apply Hd|]. intros Hin. by apply F2, Hsub.
Qed.

(** No connection of the host can take a request. *)
Definition nothing_usable (e : Env) (s : PS) : Prop :=
  (∀ i, i ∈ idle (ps_host s) → is_open e (idle_value i) = false ∨ expires settings (idle_at i) (now e) = true) ∧
  ((∀ l ld, ps_loads s !! l = Some ld → 2 ≤ max_streams ld) →
   ∀ l, l ∈ active_h2 (ps_host s) → is_open e (Http2 l) = true → full (ps_loads s) l).

Lemma ordered_all_full loads l q : ordered loads (l :: q) → full loads l → Forall (full loads) (l :: q).
Proof. intros ([|x a] & b & Heq & Ha & Hb) Hf; simplify_eq/=; [done|]. by apply Forall_cons in Ha as [? _]. Qed.

Lemma checkout_ok next gone nc ec H e w s :
  ps_inv next gone nc ec H s → closed_gone e gone (ps_loads s) → (Z.of_nat (nc + 1) < 2 ^ 64)%Z →
  (Z.of_nat (ec + expected_capacity (per_connection_capacity_cache (ps_host s)) (expected_http2_capacity settings)) < 2 ^ 64)%Z →
  let ws := filter (λ w, is_canceled e w = false) (waiters (ps_host s)) in
  ∃ s' res, checkout_or_register_waker settings e w s = Ret (s', res) ∧ ps_out s' = ps_out s ∧
    match res with
    | Checkout c _ => ps_inv next gone nc ec (HPooled c :: H) s' ∧ waiters (ps_host s') = waiters (ps_host s) ∧ is_open e c = true
    | Wait t => ps_inv next gone (match t with Some _ => S nc | None => nc end) (default 0 t + ec) H s' ∧
        waiters (ps_host s') = ws ++ [w] ∧ (t = None ↔ length ws < ec) ∧ nothing_usable e s
    end.
Proof.
  intros [Hok Hcnt] Hcg Hr1 Hr2 ws. unfold checkout_or_register_waker.
  assert (∀ l, l ∈ active_h2 (ps_host s) → is_Some (ps_loads s !! l)) as Hsome.
  { intros l Hl. pose proof (co_slot _ _ _ _ _ Hok l) as Hs. destruct (ps_loads s !! l); [done|]. simpl in Hs. naive_solver. }
  destruct (reserve_cases e (ps_loads s) (active_h2 (ps_host s)) Hsome) as (dead & q0 & Hq & Hdead & Hres).
  assert (conns_ok gone (ps_loads s) q0 (idle_conns (ps_host s)) (H ++ delivered (ps_out s))) as Hok0.
  { rewrite Hq in Hok, Hsome. apply (conns_ok_suffix _ _ dead); [done|]. rewrite Forall_forall in *. intros l Hl.
    apply Hcg; [apply Hsome, elem_of_app; by left|by apply Hdead]. }
  destruct Hres as [[-> Hhead]|(l & q1 & a & mx & -> & Hop & Hl & Ha & ->)]; cbn [mbind outcome_bind].
  2:{ eexists _, _. split; [done|]. split; [done|]. split; [|by split]. split.
      - simpl. by apply reserved_ok.
      - apply (counts_ok_sub _ nc ec _ _ H _ s); try apply Hcnt; [done|intros n; by eapply insert_dom|].
        intros x. simpl. rewrite !elem_of_app, elem_of_cons. intros [?|[->|?]]; [by left|done|by right]. }
  destruct (idle_pop_cases e (reverse (idle (ps_host s)))) as (sk & Hsk & Hpop).
  change (idle (ps_host (put_h2 (ps_loads s) q0 s))) with (idle (ps_host s)).
  destruct (idle_pop settings e (reverse (idle (ps_host s)))) as [[i|] rest].
  - destruct Hpop as [Hrev Hop]. assert (idle (ps_host s) = reverse rest ++ i :: reverse sk) as Hidle.
    { rewrite <-(reverse_involutive (idle (ps_host s))), Hrev, reverse_app, reverse_cons, <-app_assoc. done. }
    rewrite Hidle, fmap_app, fmap_cons in Hok0.
    destruct (taken_ok _ _ _ _ _ _ _ Hok0) as (loads' & q' & Hm & Hok' & Hd).
    cbn [ps_host ps_loads put_h2 on_host set_idle set_active active_h2]. rewrite Hm. cbn [mbind outcome_bind].
    eexists _, _. split; [done|]. split; [done|]. split; [|by split]. split; [exact Hok'|].
    apply (counts_ok_sub _ nc ec _ _ H _ s); simpl; try apply Hcnt; [|done|].
    + rewrite Hidle, length_app. lia.
    + intros x [Hx|Hx]%elem_of_app _; apply elem_of_app.
      * left. rewrite Hidle, fmap_app. apply elem_of_app. by left.
      * apply elem_of_cons in Hx as [->|Hx]; [left|by right]. rewrite Hidle, fmap_app. apply elem_of_app. right. by left.
  - destruct Hpop as [Hrev ->]. cbn [ps_host ps_loads put_h2 on_host set_idle set_active set_waiters active_h2 waiters
      expected_connecting_capacity connecting per_connection_capacity_cache]. fold ws.
    destruct Hcnt as [Hc He Hi Ht Hf] eqn:Ecnt. clear Ecnt. rewrite He, Hc.
    assert (nothing_usable e s) as Hno.
    { split.
      - intros i Hin. rewrite <-elem_of_reverse, Hrev in Hin. rewrite Forall_forall in Hsk. by apply Hsk.
      - intros Hm2 l Hl Hop. rewrite Hq, elem_of_app in Hl. destruct Hl as [Hl|Hl].
        + rewrite Forall_forall in Hdead. apply Hdead in Hl. congruence.
        + destruct q0 as [|l0 q0]; [by apply elem_of_nil in Hl|]. destruct (Hhead l0 eq_refl) as [_ Hfull].
          assert (full (ps_loads s) l0) as Hf0.
          { destruct (Hsome l0) as [ld Hld]; [rewrite Hq; apply elem_of_app; right; by left|]. exists ld. auto. }
          pose proof (ordered_all_full _ _ _ (co_order _ _ _ _ _ Hok0 Hm2) Hf0) as Hall. rewrite Forall_forall in Hall. by apply Hall. }
    assert (conns_ok gone (ps_loads s) q0 [] (H ++ delivered (ps_out s))) as Hok1.
    { destruct Hok0 as [G1 G2 G3 G4 G5]. split; try done; [|apply NoDup_nil_2|].
      - intros l. eapply slot_ok_mono; [apply G1|done|done|intros Hin; by apply elem_of_nil in Hin|done].
      - by apply (h1_nodup_sub (idle_conns (ps_host s)) []); [apply sublist_nil_l|]. }
    assert (∀ nc' ec' c, counts_ok next nc' ec' H (mkPS (mkHost nc' ec' c [] q0 (ws ++ [w])) (ps_loads s) (ps_idle_task s) (ps_out s))) as Hcnt'.
    { intros nc' ec' c. apply (counts_ok_sub _ nc ec _ _ H _ s); simpl; try done; [lia|]. intros x Hx _. apply elem_of_app. by right. }
    case_decide as Hle.
    + unfold uadd. rewrite !decide_True by done. cbn [mbind outcome_bind]. eexists _, _. split; [done|]. split; [done|].
      split_and!; try done; [|by split; [|lia]]. split; [exact Hok1|]. simpl.
      replace (nc + 1) with (S nc) by lia. rewrite (Nat.add_comm ec). apply Hcnt'.
    + eexists _, _. split; [done|]. split; [done|]. split_and!; try done; [|split; [lia|done]].
      split; [exact Hok1|]. unfold on_host, put_h2, set_waiters, set_idle, set_active. simpl. rewrite Hc, He. apply Hcnt'.
Qed.
End pool_inv.
