(* ===== verification/PoolRun.v ===== *)
(** * Runs of the connection pool

    A host's pool together with what is outside it: connection attempts under
    way, connections and streams held by requests, and requests that wait; the
    steps they take, and what holds in every state they reach. *)
From stdpp Require Import base gmap list.
From Stdlib Require Import ZArith.
From S2P Require Import Prelude Pool PoolFacts PoolInv.

Local Open Scope list_scope.

Section runs.
Context (settings : PoolSettings) (key_capacity : ExpectedCapacity).

(** The host's entry, if there is one; loads; whether the idle task runs; the
    expected capacity of each [ShouldConnect] token; the handles; the requests
    that wait; the next number; the HTTP/2 connections once seen closed; and the
    replies so far. *)
Record World := mkWorld {
  w_host : option HostPool;
  w_loads : Loads;
  w_task : bool;
  w_tokens : list nat;
  w_held : list Handle;
  w_waiting : gset nat;
  w_next : nat;
  w_gone : gset nat;
  w_log : list (nat * Reply);
}.

Definition world_new : World := mkWorld None ∅ false [] [] ∅ 0 ∅ [].

Definition host_of (W : World) : HostPool := default (host_new key_capacity) (w_host W).

(** [lock_host]. *)
Definition locked (W : World) : PS := mkPS (host_of W) (w_loads W) (w_task W) [].

Definition closed (e : Env) (loads : Loads) : gset nat := filter (λ l, is_open e (Http2 l) = false) (dom loads).

(** The end of an operation: the replies reach the requests that still wait. *)
Definition unlock (e : Env) (tokens : list nat) (held : list Handle) (s : PS) (W : World) : World :=
  mkWorld (Some (ps_host s)) (ps_loads s) (ps_idle_task s) tokens (held ++ delivered (ps_out s))
    (filter (λ w, tx_state e w = TxLive) (w_waiting W) ∖ list_to_set (ps_out s).*1)
    (w_next W) (w_gone W ∪ closed e (w_loads W)) (w_log W ++ ps_out s).

Definition set_next n (W : World) : World :=
  mkWorld (w_host W) (w_loads W) (w_task W) (w_tokens W) (w_held W) (w_waiting W) n (w_gone W) (w_log W).
Definition set_wloads l (W : World) : World :=
  mkWorld (w_host W) l (w_task W) (w_tokens W) (w_held W) (w_waiting W) (w_next W) (w_gone W) (w_log W).
Definition set_waiting x (W : World) : World :=
  mkWorld (w_host W) (w_loads W) (w_task W) (w_tokens W) (w_held W) x (w_next W) (w_gone W) (w_log W).
Definition set_held x (W : World) : World :=
  mkWorld (w_host W) (w_loads W) (w_task W) (w_tokens W) x (w_waiting W) (w_next W) (w_gone W) (w_log W).

(** A request asks for a connection; an attempt succeeds (over HTTP/2 with so
    many streams allowed), fails or is dropped; a connection or a stream is
    given back; a connection becomes a stream; a request gives up waiting; the
    idle task runs. An index names a token or a handle; without one of the kind
    the operation takes, nothing happens. *)
Inductive PoolOp :=
| OCheckout (e : Env)
| OConnected (i : nat) (h2 : option nat) (e : Env)
| OConnectError (i : nat) (e : Env)
| ODropToken (i : nat) (e : Env)
| ODropPooled (i : nat) (e : Env)
| OIntoParts (i : nat)
| ODropGuard (i : nat) (e : Env)
| OCancel (w : nat)
| OSweep (e : Env).

Definition connected (h2 : option nat) (W : World) : HttpConnection * World :=
  match h2 with
  | None => (Http1 (w_next W), set_next (S (w_next W)) W)
  | Some mx => (Http2 (w_next W), set_next (S (w_next W)) (set_wloads (<[w_next W := h2load_new mx]> (w_loads W)) W))
  end.

Definition pool_step (op : PoolOp) (W : World) : outcome World :=
  match op with
  | OCheckout e =>
      '(s, res) ← checkout_or_register_waker settings e (w_next W) (locked W);
      Ret (match res with
           | Checkout c _ => unlock e (w_tokens W) (HPooled c :: w_held W) s W
           | Wait t =>
               let W' := unlock e (option_list t ++ w_tokens W) (w_held W) s W in
               set_next (S (w_next W)) (set_waiting ({[w_next W]} ∪ w_waiting W') W')
           end)
  | OConnected i h2 e =>
      match w_tokens W !! i with
      | None => Ret W
      | Some x =>
          let '(c, W) := connected h2 W in
          s ← insert_new_connection settings e x c (locked W);
          Ret (unlock e (delete i (w_tokens W)) (w_held W) s W)
      end
  | OConnectError i e =>
      match w_tokens W !! i with
      | None => Ret W
      | Some x => s ← insert_new_connection_error e x (locked W); Ret (unlock e (delete i (w_tokens W)) (w_held W) s W)
      end
  | ODropToken i e =>
      match w_tokens W !! i with
      | None => Ret W
      | Some x => s ← drop_should_connect e x (locked W); Ret (unlock e (delete i (w_tokens W)) (w_held W) s W)
      end
  | ODropPooled i e =>
      match w_held W !! i with
      | Some (HPooled c) => s ← drop_pooled settings e c (locked W); Ret (unlock e (w_tokens W) (delete i (w_held W)) s W)
      | _ => Ret W
      end
  | OIntoParts i =>
      match w_held W !! i with
      | Some (HPooled (Http2 l)) => Ret (set_held (HGuard l :: delete i (w_held W)) W)
      | _ => Ret W
      end
  | ODropGuard i e =>
      match w_held W !! i with
      | Some (HGuard l) => s ← drop_guard settings e l (locked W); Ret (unlock e (w_tokens W) (delete i (w_held W)) s W)
      | _ => Ret W
      end
  | OCancel w => Ret (set_waiting (w_waiting W ∖ {[w]}) W)
  | OSweep e =>
      match timeout settings, w_host W with
      | Some dur, Some h =>
          Ret (mkWorld (clear_expired e dur h) (w_loads W) (w_task W) (w_tokens W) (w_held W)
                 (filter (λ w, tx_state e w = TxLive) (w_waiting W)) (w_next W) (w_gone W ∪ closed e (w_loads W)) (w_log W))
      | _, _ => Ret W
      end
  end.

(** Channels whose receiver was dropped stay so, and the counters have room. *)
Definition env_of (op : PoolOp) : option Env :=
  match op with
  | OCheckout e | OConnected _ _ e | OConnectError _ e | ODropToken _ e | ODropPooled _ e | ODropGuard _ e | OSweep e => Some e
  | OIntoParts _ | OCancel _ => None
  end.

Definition enabled (op : PoolOp) (W : World) : Prop :=
  (∀ e w, env_of op = Some e → w ∉ w_waiting W → tx_state e w = TxCanceled) ∧
  match op with
  | OCheckout _ =>
      (Z.of_nat (connecting (host_of W) + 1) < 2 ^ 64)%Z ∧
      (Z.of_nat (expected_connecting_capacity (host_of W) +
         expected_capacity (per_connection_capacity_cache (host_of W)) (expected_http2_capacity settings)) < 2 ^ 64)%Z
  | _ => True
  end.

Inductive pool_reach : World → Prop :=
| pool_start : pool_reach world_new
| pool_next W op W' : pool_reach W → enabled op W → pool_step op W = Ret W' → pool_reach W'.

(** ** The invariant *)

(** The requests the attempts under way can answer. *)
Definition answerable (tokens : list nat) : nat := sum_list_with (λ x, 1 `max` x) tokens.

Record waiters_ok (ws : list nat) (waiting : gset nat) (next n : nat) (log : list (nat * Reply)) : Prop := mkWaitersOk {
  wo_nodup : NoDup (log.*1 ++ ws);
  wo_queued : ∀ w, w ∈ waiting → w ∈ ws;
  wo_fresh : ∀ w, w ∈ log.*1 ++ ws → w < next;
  wo_bound : size waiting ≤ n;
  wo_kept : Forall (λ r, r.2 ≠ RDropped) log;
}.

Record w_inv (W : World) : Prop := mkWInv {
  wv_ps : ps_inv settings (w_next W) (w_gone W) (length (w_tokens W)) (sum_list (w_tokens W)) (w_held W) (locked W);
  wv_waiters : waiters_ok (waiters (host_of W)) (w_waiting W) (w_next W) (answerable (w_tokens W)) (w_log W);
}.

Lemma sum_list_with_delete (f : nat → nat) l i x :
  l !! i = Some x → sum_list_with f l = f x + sum_list_with f (delete i l).
Proof.
  revert i. induction l as [|y l IH]; intros [|i] Hi; simplify_eq/=; [done|]. rewrite (IH i Hi). lia.
Qed.

Lemma length_delete_lookup {A} (l : list A) i x : l !! i = Some x → length l = S (length (delete i l)).
Proof. intros Hi. apply lookup_lt_Some in Hi as Hlt. rewrite length_delete by done. lia. Qed.

Lemma uncanceled_length e (ws : list nat) (waiting : gset nat) :
  NoDup ws → (∀ w, w ∉ waiting → tx_state e w = TxCanceled) → length (uncanceled e ws) ≤ size waiting.
Proof.
  intros Hn He. rewrite <-(size_list_to_set (C := gset nat)) by (by apply NoDup_filter). apply subseteq_size.
  intros w Hw%elem_of_list_to_set. apply list_elem_of_filter in Hw as [Hw _].
  destruct (decide (w ∈ waiting)); [done|]. by destruct Hw; apply He.
Qed.

Lemma waiting_length (ws : list nat) (waiting : gset nat) : (∀ w, w ∈ waiting → w ∈ ws) → size waiting ≤ length ws.
Proof.
  revert waiting. induction ws as [|w ws IH]; intros waiting Hw.
  - assert (waiting = ∅) as -> by (apply elem_of_equiv_empty_L; intros w Hin; by apply Hw, elem_of_nil in Hin). by rewrite size_empty.
  - specialize (IH (waiting ∖ {[w]})). simpl. assert (size (waiting ∖ {[w]}) ≤ length ws).
    { apply IH. intros x [Hx Hne]%elem_of_difference. apply Hw, elem_of_cons in Hx. set_solver. }
    assert (size waiting ≤ size ({[w]} ∪ waiting ∖ {[w]})).
    { apply subseteq_size. intros x Hx. destruct (decide (x = w)); set_solver. }
    rewrite size_union_alt, size_singleton in *.
    replace (waiting ∖ {[w]} ∖ {[w]}) with (waiting ∖ {[w]}) in * by set_solver. lia.
Qed.

(** Answering waiters. *)
Lemma waiters_answered ws ws' waiting next n n' m log rs e :
  waiters_ok ws waiting next n log → (∀ w, w ∉ waiting → tx_state e w = TxCanceled) →
  answers e m ws ws' rs.*1 → Forall (λ r, r.2 ≠ RDropped) rs → n - m ≤ n' →
  waiters_ok ws' (filter (λ w, tx_state e w = TxLive) waiting ∖ list_to_set rs.*1) next n' (log ++ rs).
Proof.
  intros [H1 H2 H3 H4 H5] He [A1 A2 A3] Hrs Hn. apply NoDup_app in H1 as (H1a & H1b & H1c).
  assert (∀ w, w ∈ ws' → w ∈ ws) as Hsub by (intros w Hw; by eapply elem_of_sublist).
  assert (∀ w, w ∈ rs.*1 → w ∈ ws ∧ tx_state e w = TxLive) as Hans.
  { intros w Hw. assert (w ∈ live e ws) as Hl by (rewrite A1; apply elem_of_app; by left).
    by apply list_elem_of_filter in Hl as [? ?]. }
  assert (NoDup (rs.*1 ++ live e ws')) as Hnd by (rewrite <-A1; by apply NoDup_filter). apply NoDup_app in Hnd as (N1 & N2 & _).
  assert (∀ w, w ∈ rs.*1 → w ∉ ws') as Hdis.
  { intros w Hw Hw'. apply (N2 w Hw). apply list_elem_of_filter. split; [by apply Hans|done]. }
  split.
  - rewrite fmap_app, <-app_assoc. apply NoDup_app. split; [done|]. split.
    + intros w Hw [Hr|Hr]%elem_of_app; apply (H1b w Hw); [by apply Hans|by apply Hsub].
    + apply NoDup_app. split; [done|]. split; [done|]. exact (sublist_NoDup _ _ H1c A2).
  - intros w [[Hl Hw]%elem_of_filter Hnot]%elem_of_difference. rewrite elem_of_list_to_set in Hnot.
    assert (w ∈ live e ws) as Hin by (apply list_elem_of_filter; auto). rewrite A1, elem_of_app in Hin.
    destruct Hin as [?|Hin]; [done|]. by apply list_elem_of_filter in Hin as [_ ?].
  - intros w Hw. apply H3. rewrite fmap_app, !elem_of_app in Hw. rewrite elem_of_app. destruct Hw as [[?|Hw]|Hw]; [by left|right; by apply Hans|right; by apply Hsub].
  - etrans; [apply (waiting_length (uncanceled e ws'))|].
    + intros w [[Hl Hw]%elem_of_filter Hnot]%elem_of_difference. rewrite elem_of_list_to_set in Hnot.
      assert (w ∈ live e ws) as Hin by (apply list_elem_of_filter; auto). rewrite A1, elem_of_app in Hin.
      destruct Hin as [?|Hin]; [done|]. apply list_elem_of_filter in Hin as [_ ?]. apply list_elem_of_filter. split; [congruence|done].
    + pose proof (uncanceled_length e ws waiting H1c He). lia.
  - by apply Forall_app.
Qed.

Lemma ps_inv_unlock next gone nc ec H s :
  ps_inv settings next gone nc ec H s →
  ps_inv settings next gone nc ec (H ++ delivered (ps_out s)) (mkPS (ps_host s) (ps_loads s) (ps_idle_task s) []).
Proof. intros [Hok [H1 H2 H3 H4 H5]]. split; [|split]; simpl; try done; by rewrite ?app_nil_r. Qed.

Lemma ps_inv_perm next gone nc ec H H' s : H ≡ₚ H' → ps_inv settings next gone nc ec H s → ps_inv settings next gone nc ec H' s.
Proof.
  intros HP [Hok [H1 H2 H3 H4 H5]]. split; [eapply conns_ok_perm; [|exact Hok]; by rewrite HP|]. split; try done.
  intros n Hn. rewrite <-HP. by apply H5.
Qed.

Lemma ps_inv_gone next gone gone' nc ec H s :
  gone ⊆ gone' → ps_inv settings next gone nc ec H s → ps_inv settings next gone' nc ec H s.
Proof. intros Hg [Hok Hcnt]. split; [by eapply conns_ok_gone|done]. Qed.

Lemma closed_is_gone e gone (loads : Loads) : closed_gone e (gone ∪ closed e loads) loads.
Proof. intros l Hl Ho. apply elem_of_union. right. apply elem_of_filter. split; [done|by apply elem_of_dom]. Qed.

(** The end of an operation that answers [m] waiters. *)
Lemma unlock_inv W e m tokens held s :
  w_inv W → (∀ w, w ∉ w_waiting W → tx_state e w = TxCanceled) →
  ps_inv settings (w_next W) (w_gone W ∪ closed e (w_loads W)) (length tokens) (sum_list tokens) held s →
  replied e m (locked W) s → answerable (w_tokens W) - m ≤ answerable tokens →
  w_inv (unlock e tokens held s W).
Proof.
  intros [_ Hw] He Hinv (rs & Hout & Ha & Hk) Hn. simpl in Hout. split.
  - unfold locked, host_of, unlock. simpl. by apply ps_inv_unlock.
  - unfold host_of, unlock. simpl. rewrite Hout. by eapply waiters_answered.
Qed.

(** A token that ends. *)
Lemma token_inv W e i x s :
  w_inv W → (∀ w, w ∉ w_waiting W → tx_state e w = TxCanceled) → w_tokens W !! i = Some x →
  ps_inv settings (w_next W) (w_gone W ∪ closed e (w_loads W)) (length (delete i (w_tokens W)))
    (sum_list (delete i (w_tokens W))) (w_held W) s →
  replied e (1 `max` x) (locked W) s → w_inv (unlock e (delete i (w_tokens W)) (w_held W) s W).
Proof.
  intros HW He Hi Hinv Hr. eapply unlock_inv; [done|done|done|exact Hr|]. unfold answerable.
  rewrite (sum_list_with_delete _ _ _ _ Hi). lia.
Qed.

Lemma token_ps W e i x :
  w_inv W → w_tokens W !! i = Some x →
  ps_inv settings (w_next W) (w_gone W ∪ closed e (w_loads W)) (S (length (delete i (w_tokens W))))
    (x + sum_list (delete i (w_tokens W))) (w_held W) (locked W).
Proof.
  intros [Hinv _] Hi. rewrite (length_delete_lookup _ _ _ Hi), (sum_list_with_delete id _ _ _ Hi) in Hinv.
  eapply ps_inv_gone; [|exact Hinv]. set_solver.
Qed.

(** ** Steps keep the invariant *)

Lemma ps_inv_next next next' gone nc ec H s :
  next ≤ next' → ps_inv settings next gone nc ec H s → ps_inv settings next' gone nc ec H s.
Proof. intros Hn [Hok [H1 H2 H3 H4 H5]]. split; [done|]. split; try done. intros n Hle. apply H5. lia. Qed.

Lemma checkout_inv W e :
  w_inv W → enabled (OCheckout e) W → ∃ W', pool_step (OCheckout e) W = Ret W' ∧ w_inv W'.
Proof.
  intros HW [He [Hr1 Hr2]]. specialize (He e). set (gone := w_gone W ∪ closed e (w_loads W)).
  assert (ps_inv settings (w_next W) gone (length (w_tokens W)) (sum_list (w_tokens W)) (w_held W) (locked W)) as Hinv.
  { eapply ps_inv_gone; [|apply HW]. unfold gone. set_solver. }
  pose proof (pi_counts _ _ _ _ _ _ _ Hinv) as [Hc Hx _ _ _].
  destruct (checkout_ok settings _ gone _ _ _ e (w_next W) (locked W) Hinv) as (s & res & Hco & Hout & Hres);
    [apply closed_is_gone|by rewrite <-Hc|by rewrite <-Hx|].
  cbn [pool_step]. rewrite Hco. simpl. eexists. split; [done|]. destruct res as [c b|tk].
  - destruct Hres as (Hinv' & Hws & _). eapply (unlock_inv W e 0); try done; [by auto|by apply replied_refl|lia].
  - destruct Hres as (Hinv' & Hws & Hnone & _). simpl in Hout. destruct HW as [_ [G1 G2 G3 G4 G5]].
    set (ws := filter _ (waiters (ps_host (locked W)))) in *. apply NoDup_app in G1 as (G1a & G1b & G1c).
    assert (∀ w, w ∈ ws → w ∈ waiters (host_of W)) as Hsub by (intros w [_ ?]%list_elem_of_filter; done).
    assert (w_next W ∉ (w_log W).*1 ++ waiters (host_of W)) as Hfr by (intros Hin; apply G3 in Hin; lia).
    rewrite elem_of_app in Hfr. split.
    + unfold locked, host_of, unlock. simpl. apply ps_inv_unlock. eapply ps_inv_next; [|]; [apply Nat.le_succ_diag_r|].
      by destruct tk.
    + unfold host_of, unlock. simpl. rewrite Hout, Hws, app_nil_r. change (list_to_set [].*1) with (∅ : gset nat). rewrite difference_empty_L.
      assert (∀ w, w ∈ filter (λ w, tx_state e w = TxLive) (w_waiting W) → w ∈ ws) as Hq.
      { intros w [Hl Hw]%elem_of_filter. apply list_elem_of_filter. split; [apply is_canceled_false; congruence|by apply G2]. }
      split.
      * rewrite app_assoc. apply NoDup_app. split; [apply NoDup_app; split; [done|]; split; [|by apply NoDup_filter]|].
        { intros w Hw Hw'. by apply (G1b w Hw), Hsub. }
        split; [|apply NoDup_singleton]. intros w [Hw|Hw]%elem_of_app; rewrite list_elem_of_singleton; intros ->; naive_solver.
      * intros w [->%elem_of_singleton|Hw]%elem_of_union; apply elem_of_app; [right; by left|left; by apply Hq].
      * intros w. rewrite !elem_of_app, list_elem_of_singleton. intros [Hw|[Hw| ->]]; [| |lia];
          (assert (w < w_next W); [|lia]); apply G3, elem_of_app; naive_solver.
      * assert (size ({[w_next W]} ∪ filter (λ w, tx_state e w = TxLive) (w_waiting W)) ≤
          S (size (filter (λ w, tx_state e w = TxLive) (w_waiting W)))) as Hsz.
        { rewrite size_union_alt, size_singleton. apply le_n_S, subseteq_size. set_solver. }
        destruct tk as [x|]; simpl.
        -- assert (size (filter (λ w, tx_state e w = TxLive) (w_waiting W)) ≤ size (w_waiting W)) by (apply subseteq_size; set_solver).
           unfold answerable in *. simpl. lia.
        -- pose proof (proj1 Hnone eq_refl) as Hlt. pose proof (waiting_length _ _ Hq).
           assert (sum_list (w_tokens W) ≤ answerable (w_tokens W)); [|lia].
           clear. unfold answerable. induction (w_tokens W) as [|x l IH]; [done|]. cbn [sum_list_with]. unfold id at 1. lia.
      * done.
Qed.

Lemma held_perm W i h : w_held W !! i = Some h → w_held W ≡ₚ h :: delete i (w_held W).
Proof. intros Hi. by apply delete_Permutation. Qed.

Lemma held_known W l h : w_inv W → h ∈ w_held W → conn_of h = Http2 l → is_Some (w_loads W !! l).
Proof.
  intros [[Hok _] _] Hin Hh. pose proof (co_slot _ _ _ _ _ Hok l) as Hs. simpl in Hs. rewrite app_nil_r in Hs.
  destruct (w_loads W !! l); [done|]. destruct Hs as [Hz _]. apply holders_zero in Hz. destruct Hz. apply list_elem_of_fmap. by exists h.
Qed.

Lemma pooled_inv W i e :
  w_inv W → (∀ w, w ∉ w_waiting W → tx_state e w = TxCanceled) →
  ∃ W', (pool_step (ODropPooled i e) W = Ret W' ∧ w_inv W').
Proof.
  intros HW He. cbn [pool_step]. destruct (w_held W !! i) as [[c|l]|] eqn:Ei; [|by exists W..].
  assert (ps_inv settings (w_next W) (w_gone W ∪ closed e (w_loads W)) (length (w_tokens W)) (sum_list (w_tokens W))
    (HPooled c :: delete i (w_held W)) (locked W)) as Hinv.
  { eapply ps_inv_perm; [by apply held_perm|]. eapply ps_inv_gone; [|apply HW]. set_solver. }
  destruct (drop_pooled_ok settings _ _ _ _ _ _ e _ Hinv) as (n & s & -> & Hinv' & Hr).
  { intros l -> Ho. eapply closed_is_gone; [|done]. eapply (held_known W l (HPooled (Http2 l))); [done| |done]. by eapply list_elem_of_lookup_2. }
  eexists. split; [done|]. eapply unlock_inv; try done. lia.
Qed.

Lemma guard_inv W i e :
  w_inv W → (∀ w, w ∉ w_waiting W → tx_state e w = TxCanceled) →
  ∃ W', (pool_step (ODropGuard i e) W = Ret W' ∧ w_inv W').
Proof.
  intros HW He. cbn [pool_step]. destruct (w_held W !! i) as [[c|l]|] eqn:Ei; [by exists W| |by exists W].
  assert (ps_inv settings (w_next W) (w_gone W ∪ closed e (w_loads W)) (length (w_tokens W)) (sum_list (w_tokens W))
    (HGuard l :: delete i (w_held W)) (locked W)) as Hinv.
  { eapply ps_inv_perm; [by apply held_perm|]. eapply ps_inv_gone; [|apply HW]. set_solver. }
  destruct (drop_guard_ok settings _ _ _ _ _ _ l e _ Hinv eq_refl) as (n & s & -> & Hinv' & Hr).
  eexists. split; [done|]. eapply unlock_inv; try done. lia.
Qed.

(** A new connection has a load of its own and is nowhere yet. *)
Lemma connected_inv W h2 :
  w_inv W → let '(c, W1) := connected h2 W in
  w_inv W1 ∧ w_tokens W1 = w_tokens W ∧ w_waiting W1 = w_waiting W ∧
  fresh_conn (w_next W1) (w_held W1) c (match h2 with None => 1 | Some mx => mx `max` 1 end) (locked W1).
Proof.
  intros [Hinv [G1 G2 G3 G4 G5]]. pose proof Hinv as [Hok Hcnt]. destruct (pi_fresh _ _ _ _ _ _ Hcnt (w_next W) (le_n _)) as [F1 F2].
  rewrite elem_of_app in F2. simpl in F1, F2, Hok. rewrite app_nil_r in F2, Hok.
  pose proof (co_slot _ _ _ _ _ Hok (w_next W)) as Hs. rewrite F1 in Hs. destruct Hs as (S1 & S2 & S3). apply holders_zero in S1.
  assert (waiters_ok (waiters (host_of W)) (w_waiting W) (S (w_next W)) (answerable (w_tokens W)) (w_log W)) as Hw.
  { split; try done. intros w Hw. apply Nat.lt_lt_succ_r. by apply G3. }
  destruct h2 as [mx|]; simpl.
  - split; [split; [|exact Hw]|split; [done|split; [done|]]].
    + destruct Hcnt as [H1 H2 H3 H4 H5]. split.
      * simpl. rewrite app_nil_r. eapply conns_ok_edit; [exact Hok| |done|done|done|apply Hok..|].
        -- apply holders_zero in S1. rewrite S1. simpl. split_and!; try lia; naive_solver lia.
        -- intros Hm. apply (ordered_ext (w_loads W)).
           { intros x Hx. rewrite lookup_insert_ne; [done|]. by intros <-. }
           apply (co_order _ _ _ _ _ Hok). intros l ld Hld. apply (Hm l). rewrite lookup_insert_ne; [done|]. intros <-. congruence.
      * split; try done. simpl. intros n Hn. destruct (H5 n) as [X1 X2]; [lia|]. split; [|done]. rewrite lookup_insert_ne by lia. done.
    + split; [done|]. split; [simpl; by rewrite app_nil_r|]. simpl. split; [apply lookup_insert_eq|]. split; [lia|done].
  - split; [split; [|exact Hw]|split; [done|split; [done|]]].
    + eapply ps_inv_next; [|exact Hinv]. apply Nat.le_succ_diag_r.
    + split; [simpl; tauto|]. split; [simpl; rewrite app_nil_r; tauto|]. simpl. split; [done|lia].
Qed.

Lemma connect_inv W i h2 e :
  w_inv W → (∀ w, w ∉ w_waiting W → tx_state e w = TxCanceled) →
  ∃ W', pool_step (OConnected i h2 e) W = Ret W' ∧ w_inv W'.
Proof.
  intros HW He. cbn [pool_step]. destruct (w_tokens W !! i) as [x|] eqn:Ei; [|by exists W].
  pose proof (connected_inv W h2 HW) as Hc. destruct (connected h2 W) as [c W1]. destruct Hc as (HW1 & Et & Ew & Hf).
  rewrite <-Et in Ei. rewrite <-Ew in He.
  destruct (insert_new_ok settings _ _ _ _ _ e x c _ _ (token_ps W1 e i x HW1 Ei) Hf) as (s & -> & Hinv & Hr).
  eexists. split; [done|]. by eapply token_inv.
Qed.

Lemma fail_inv W i e (err : bool) :
  w_inv W → (∀ w, w ∉ w_waiting W → tx_state e w = TxCanceled) →
  ∃ W', pool_step (if err then OConnectError i e else ODropToken i e) W = Ret W' ∧ w_inv W'.
Proof.
  intros HW He. destruct (w_tokens W !! i) as [x|] eqn:Ei; [|exists W; destruct err; simpl; by rewrite Ei].
  destruct (forget_pending_ok settings _ _ _ _ _ e x err false _ (token_ps W e i x HW Ei)) as (s & Hs & Hinv & Hr).
  exists (unlock e (delete i (w_tokens W)) (w_held W) s W). split; [|by eapply token_inv].
  destruct err; simpl; rewrite Ei; unfold insert_new_connection_error, drop_should_connect; by rewrite Hs.
Qed.

Lemma parts_inv W i : w_inv W → ∃ W', pool_step (OIntoParts i) W = Ret W' ∧ w_inv W'.
Proof.
  intros HW. cbn [pool_step]. destruct (w_held W !! i) as [[[n|l]|l]|] eqn:Ei; try by exists W.
  eexists. split; [done|]. destruct HW as [Hinv Hw]. split; [|exact Hw].
  apply (ps_inv_perm _ _ _ _ _ _ _ (held_perm W i _ Ei)) in Hinv. destruct Hinv as [[H1 H2 H3 H4 H5] [C1 C2 C3 C4 C5]].
  split; split; try done. intros x. specialize (H1 x). simpl in *. rewrite holders_cons in *. exact H1.
Qed.

Lemma cancel_inv W w : w_inv W → w_inv (set_waiting (w_waiting W ∖ {[w]}) W).
Proof.
  intros [Hinv [G1 G2 G3 G4 G5]]. split; [done|]. split; simpl; try done; [set_solver|].
  etrans; [|exact G4]. apply subseteq_size. set_solver.
Qed.

Lemma sweep_inv W e :
  w_inv W → (∀ w, w ∉ w_waiting W → tx_state e w = TxCanceled) → ∃ W', pool_step (OSweep e) W = Ret W' ∧ w_inv W'.
Proof.
  intros HW He. cbn [pool_step]. destruct (timeout settings) as [dur|] eqn:Et; [|by exists W].
  destruct (w_host W) as [h|] eqn:Eh; [|by exists W]. eexists. split; [done|].
  destruct HW as [Hinv [G1 G2 G3 G4 G5]]. unfold host_of in *. rewrite Eh in *. simpl in *.
  apply (ps_inv_gone _ _ (w_gone W ∪ closed e (w_loads W))) in Hinv; [|set_solver]. unfold locked, host_of in Hinv. rewrite Eh in Hinv. simpl in Hinv.
  set (f := filter (λ i, is_open e (idle_value i) = true ∧ ¬ (dur < Z.max 0 (now e - idle_at i))%Z) (idle h)).
  assert (sublist (idle_value <$> f) (idle_value <$> idle h)) as Hsub 
    by (apply fmap_sublist, sublist_filter).
  assert (ps_inv settings (w_next W) (w_gone W ∪ closed e (w_loads W)) (length (w_tokens W)) (sum_list (w_tokens W)) (w_held W)
    (mkPS (set_idle f h) (w_loads W) (w_task W) [])) as Hinv'.
  { destruct Hinv as [[H1 H2 H3 H4 H5] Hcnt]. split.
    - simpl in *. split; try done; [|exact (sublist_NoDup _ _ H3 Hsub)|by eapply h1_nodup_sub].
      intros l. eapply slot_ok_mono; [apply H1|done|done| |done]. intros Hin. by eapply elem_of_sublist.
    - apply (counts_ok_sub settings _ _ _ _ _ (w_held W) (w_held W) _ (set_idle f h) (w_loads W) Hcnt); try apply Hcnt.
      + apply length_filter.
      + done.
      + intros x [Hx|Hx]%elem_of_app _; apply elem_of_app; [left; by eapply elem_of_sublist|by right]. }
  assert (waiters_ok (waiters h) (filter (λ w, tx_state e w = TxLive) (w_waiting W)) (w_next W) (answerable (w_tokens W)) (w_log W)) as Hw.
  { split; try done; [set_solver|]. etrans; [|exact G4]. apply subseteq_size. set_solver. }
  unfold clear_expired. fold f. split.
  - unfold locked, host_of. simpl. destruct Hinv' as [Hok Hcnt].
    destruct f eqn:Ef; [|by split]. destruct (active_h2 h) eqn:Ea; [|by split]. destruct (connecting h) eqn:Ec; [|by split].
    destruct (waiters h) eqn:Ews; [|by split]. simpl. destruct Hcnt as [C1 C2 C3 C4 C5]. simpl in *. rewrite Ea in Hok.
    rewrite Ec in C1. symmetry in C1. apply nil_length_inv in C1. rewrite C1. split; [done|]. by split.
  - unfold host_of. simpl. destruct f; [|done]. destruct (active_h2 h); [|done]. destruct (connecting h); [|done].
    destruct (waiters h) eqn:Ews; [|by rewrite <-Ews in Hw]. done.
Qed.

Lemma pool_step_inv W op : w_inv W → enabled op W → ∃ W', pool_step op W = Ret W' ∧ w_inv W'.
Proof.
  intros HW Hen. pose proof Hen as [He _]. destruct op; try specialize (He e); simpl in He.
  - by apply checkout_inv.
  - by apply connect_inv; auto.
  - by apply (fail_inv W i e true); auto.
  - by apply (fail_inv W i e false); auto.
  - by apply pooled_inv; auto.
  - by apply parts_inv.
  - by apply guard_inv; auto.
  - eexists. split; [done|]. by apply cancel_inv.
  - by apply sweep_inv; auto.
Qed.

Lemma world_new_inv : w_inv world_new.
Proof.
  split; [split|].
  - split; simpl; [|constructor..|].
    + intros l. rewrite lookup_empty. simpl. split_and!; [done|apply not_elem_of_nil..].
    + intros _. exists [], []. by repeat constructor.
  - split; simpl; try done; [lia|]. intros n _. rewrite lookup_empty. split; [done|apply not_elem_of_nil].
  - split; simpl; [apply NoDup_nil_2|set_solver|by intros w ?%elem_of_nil|done|done].
Qed.

Lemma pool_reach_inv W : pool_reach W → w_inv W.
Proof.
  induction 1 as [|W op W' _ IH Hen Hst]; [apply world_new_inv|].
  destruct (pool_step_inv W op IH Hen) as (W2 & Hst2 & H2). rewrite Hst in Hst2. by injection Hst2 as ->.
Qed.
(** ** Runs *)

Inductive pool_run : list PoolOp → World → World → Prop :=
| run_nil W : pool_run [] W W
| run_cons op ops W W1 W2 : enabled op W → pool_step op W = Ret W1 → pool_run ops W1 W2 → pool_run (op :: ops) W W2.

Lemma pool_run_reach ops W W' : pool_reach W → pool_run ops W W' → pool_reach W'.
Proof. intros HW Hr. induction Hr as [|op ops W W1 W2 Hen Hst _ IH]; [done|]. by eapply IH, pool_next. Qed.

(** The request goes away: it drops the receiver of its channel. *)
Definition gives_up (w : nat) (op : PoolOp) : Prop :=
  op = OCancel w ∨ ∃ e, env_of op = Some e ∧ tx_state e w ≠ TxLive.

Definition settled (w : nat) (op : PoolOp) (W' : World) : Prop :=
  w ∈ w_waiting W' ∨ w ∈ (w_log W').*1 ∨ gives_up w op.

Lemma unlock_settled e tokens held s W w op :
  w ∈ w_waiting W → env_of op = Some e → settled w op (unlock e tokens held s W).
Proof.
  intros Hw He. destruct (decide (tx_state e w = TxLive)) as [Hl|Hl]; [|right; right; right; by exists e].
  destruct (decide (w ∈ (ps_out s).*1)) as [Hin|Hin].
  - right. left. simpl. rewrite fmap_app. apply elem_of_app. by right.
  - left. simpl. apply elem_of_difference. split; [by apply elem_of_filter|by rewrite elem_of_list_to_set].
Qed.

Lemma step_settled op W W' w : pool_step op W = Ret W' → w ∈ w_waiting W → settled w op W'.
Proof.
  intros Hst Hw. assert (∀ op, settled w op W) as Hsame by (by left). destruct op; simpl in Hst.
  - apply bind_Ret_inv in Hst as ([s [c b|t]] & _ & Hst); injection Hst as <-; [by apply (unlock_settled e)|].
    destruct (unlock_settled e (option_list t ++ w_tokens W) (w_held W) s W w (OCheckout e) Hw eq_refl) as [?|[?|?]].
    + left. simpl. apply elem_of_union. by right.
    + right. by left.
    + by do 2 right.
  - destruct (w_tokens W !! i) as [x|]; [|injection Hst as <-; auto].
    assert (w ∈ w_waiting (connected h2 W).2) by (by destruct h2). destruct (connected h2 W) as [c W1].
    apply bind_Ret_inv in Hst as (s & _ & Hst). injection Hst as <-. by apply (unlock_settled e).
  - destruct (w_tokens W !! i) as [x|]; [|injection Hst as <-; auto].
    apply bind_Ret_inv in Hst as (s & _ & Hst). injection Hst as <-. by apply (unlock_settled e).
  - destruct (w_tokens W !! i) as [x|]; [|injection Hst as <-; auto].
    apply bind_Ret_inv in Hst as (s & _ & Hst). injection Hst as <-. by apply (unlock_settled e).
  - destruct (w_held W !! i) as [[c|l]|]; [|injection Hst as <-; auto..].
    apply bind_Ret_inv in Hst as (s & _ & Hst). injection Hst as <-. by apply (unlock_settled e).
  - destruct (w_held W !! i) as [[[n|l]|l]|]; injection Hst as <-; auto. by left.
  - destruct (w_held W !! i) as [[c|l]|]; [injection Hst as <-; auto| |injection Hst as <-; auto].
    apply bind_Ret_inv in Hst as (s & _ & Hst). injection Hst as <-. by apply (unlock_settled e).
  - injection Hst as <-. destruct (decide (w = w0)) as [->|Hne]; [right; right; by left|].
    left. simpl. apply elem_of_difference. split; [done|by rewrite elem_of_singleton].
  - destruct (timeout settings), (w_host W); injection Hst as <-; auto.
    destruct (decide (tx_state e w = TxLive)) as [Hl|Hl]; [|right; right; right; by exists e].
    left. simpl. by apply elem_of_filter.
Qed.

Lemma step_log op W W' : pool_step op W = Ret W' → w_log W `prefix_of` w_log W'.
Proof.
  intros Hst. assert (∀ e tk hd s, w_log W `prefix_of` w_log (unlock e tk hd s W)) as Hun
    by (intros; simpl; apply prefix_app_r; done).
  destruct op; simpl in Hst.
  - apply bind_Ret_inv in Hst as ([s [c b|t]] & _ & Hst); injection Hst as <-; apply (Hun e [] [] s).
  - destruct (w_tokens W !! i); [|by injection Hst as <-]. destruct h2; simpl in Hst;
      apply bind_Ret_inv in Hst as (s & _ & Hst); injection Hst as <-; apply (Hun e [] [] s).
  - destruct (w_tokens W !! i); [|by injection Hst as <-]. apply bind_Ret_inv in Hst as (s & _ & Hst). injection Hst as <-. apply (Hun e [] [] s).
  - destruct (w_tokens W !! i); [|by injection Hst as <-]. apply bind_Ret_inv in Hst as (s & _ & Hst). injection Hst as <-. apply (Hun e [] [] s).
  - destruct (w_held W !! i) as [[c|l]|]; [|by injection Hst as <-..]. apply bind_Ret_inv in Hst as (s & _ & Hst). injection Hst as <-. apply (Hun e [] [] s).
  - destruct (w_held W !! i) as [[[n|l]|l]|]; by injection Hst as <-.
  - destruct (w_held W !! i) as [[c|l]|]; [by injection Hst as <-| |by injection Hst as <-].
    apply bind_Ret_inv in Hst as (s & _ & Hst). injection Hst as <-. apply (Hun e [] [] s).
  - by injection Hst as <-.
  - destruct (timeout settings), (w_host W); by injection Hst as <-.
Qed.

Lemma run_log ops W W' : pool_run ops W W' → w_log W `prefix_of` w_log W'.
Proof. induction 1 as [|op ops W W1 W2 _ Hst _ IH]; [done|]. etrans; [by eapply step_log|done]. Qed.

Lemma run_settled ops W W' w :
  pool_run ops W W' → w ∈ w_waiting W →
  w ∈ w_waiting W' ∨ w ∈ (w_log W').*1 ∨ Exists (gives_up w) ops.
Proof.
  induction 1 as [|op ops W W1 W2 Hen Hst Hr IH]; intros Hw; [by left|].
  destruct (step_settled _ _ _ _ Hst Hw) as [H1|[H1|H1]].
  - destruct (IH H1) as [?|[?|?]]; [by left|right; by left|right; right; by apply Exists_cons_tl].
  - right. left. destruct (run_log _ _ _ Hr) as [k ->]. rewrite fmap_app. apply elem_of_app. by left.
  - do 2 right. by apply Exists_cons_hd.
Qed.

(** ** What holds in every run *)

(** C31. In every state the pool of a host reaches, each operation that can come
    next returns: no counter of streams, attempts or capacity under- or
    overflows, and the code that "should never" run does not. An HTTP/2
    connection has at least as many streams open as requests hold it, never more
    than it allows, and exactly as many unless it was once seen closed, and
    while a request holds it the host tracks it. An HTTP/1 connection is in one
    place: idle, or with one request. No more connections are idle than
    allowed, and the attempts and the capacity the host counts on are those
    under way. *)
Theorem pool_safe W :
  pool_reach W →
  (∀ op, enabled op W → ∃ W', pool_step op W = Ret W') ∧
  (∀ h l, h ∈ w_held W → conn_of h = Http2 l → is_Some (w_loads W !! l)) ∧
  (∀ l ld, w_loads W !! l = Some ld →
     holders l (w_held W) ≤ active_streams ld ≤ max_streams ld ∧
     (l ∉ w_gone W → active_streams ld = holders l (w_held W) ∧ (0 < holders l (w_held W) → l ∈ active_h2 (host_of W)))) ∧
  NoDup (filter is_h1 ((idle_value <$> idle (host_of W)) ++ (conn_of <$> w_held W))) ∧
  length (idle (host_of W)) ≤ max_idle_per_host settings ∧
  connecting (host_of W) = length (w_tokens W) ∧
  expected_connecting_capacity (host_of W) = sum_list (w_tokens W).
Proof.
  intros HW%pool_reach_inv. split.
  { intros op Hen. destruct (pool_step_inv W op HW Hen) as (W' & -> & _). by exists W'. }
  split; [intros h l; by apply held_known|]. destruct HW as [[[H1 _ _ H4 _] [C1 C2 C3 _ _]] _]. simpl in *. rewrite app_nil_r in *.
  split; [|done]. intros l ld Hl. specialize (H1 l). rewrite Hl in H1. simpl in H1. tauto.
Qed.

(** C32. Nobody waits for a connection in vain: when the attempts under way have
    all ended, no request waits, whatever came between; each that waited was
    answered, or went away first. None is answered twice, and no channel is
    dropped unused, so the client never sees a canceled wait. *)
Theorem no_waiter_stranded W ops W' :
  pool_reach W → pool_run ops W W' →
  NoDup (w_log W').*1 ∧ (∀ w r, (w, r) ∈ w_log W' → r ≠ RDropped) ∧
  size (w_waiting W') ≤ answerable (w_tokens W') ∧
  (w_tokens W' = [] → w_waiting W' = ∅ ∧ ∀ w, w ∈ w_waiting W → w ∈ (w_log W').*1 ∨ Exists (gives_up w) ops).
Proof.
  intros HW Hrun. destruct (pool_reach_inv _ (pool_run_reach _ _ _ HW Hrun)) as [_ [G1 _ _ G4 G5]].
  apply NoDup_app in G1 as [G1 _]. rewrite Forall_forall in G5.
  split; [done|]. split; [intros w r; apply (G5 (w, r))|]. split; [done|]. intros Ht. rewrite Ht in G4.
  assert (w_waiting W' = ∅) as He by (apply leibniz_equiv, size_empty_inv; simpl in G4; lia). split; [done|].
  intros w Hw. destruct (run_settled _ _ _ _ Hrun Hw) as [Hw'|?]; [|done]. rewrite He in Hw'. by apply elem_of_empty in Hw'.
Qed.

(** A request gets an open connection at once where there is one to take: it
    waits only if every idle connection is closed or too old and, where
    connections allow two streams or more, every open connection with streams
    has no free one. A new attempt is made only if those under way cannot
    answer everybody who waits. *)
Theorem checkout_reuses W e s res :
  pool_reach W → enabled (OCheckout e) W →
  checkout_or_register_waker settings e (w_next W) (locked W) = Ret (s, res) →
  match res with
  | Checkout c _ => is_open e c = true ∧ waiters (ps_host s) = waiters (host_of W) ∧ connecting (ps_host s) = connecting (host_of W)
  | Wait t =>
      nothing_usable settings e (locked W) ∧ w_next W ∈ waiters (ps_host s) ∧
      (t = None ↔ length (waiters (ps_host s)) ≤ sum_list (w_tokens W))
  end.
Proof.
  intros HW%pool_reach_inv [He [Hr1 Hr2]] Hco. set (gone := w_gone W ∪ closed e (w_loads W)).
  assert (ps_inv settings (w_next W) gone (length (w_tokens W)) (sum_list (w_tokens W)) (w_held W) (locked W)) as Hinv.
  { eapply ps_inv_gone; [|apply HW]. unfold gone. set_solver. }
  pose proof (pi_counts _ _ _ _ _ _ _ Hinv) as [Hc Hx _ _ _].
  destruct (checkout_ok settings _ gone _ _ _ e (w_next W) (locked W) Hinv) as (s' & res' & Hco' & Hout & Hres);
    [apply closed_is_gone|by rewrite <-Hc|by rewrite <-Hx|]. rewrite Hco in Hco'. injection Hco' as <- <-.
  destruct res as [c b|t].
  - destruct Hres as ([_ [Hc' _ _ _ _]] & Hws & Hop). split_and!; [done|done|]. by rewrite Hc'.
  - destruct Hres as (_ & Hws & Hnone & Hno). split; [done|]. rewrite Hws. split; [apply elem_of_app; right; by left|].
    rewrite length_app. simpl. rewrite Hnone. split; intros Hl; simpl in *; lia.
Qed.

End runs.
