(* ===== verification/WitnessesHttp.v ===== *)
(** * Witnesses: requests and calls

    Concrete requests and stores at which the hypotheses of the theorems on
    route delegation, header and URL filters and service calls hold. *)
From stdpp Require Import base gmap strings list.
From Stdlib Require Import ZArith Ascii.
From S2P Require Import Prelude RustStd AgentTypes RouteSet BindStore BindStoreFacts RouteSelect RouteChain HttpRequest Rewrite DiscoveryTypes LoadBalancer Discovery DiscoveryFacts DiscoveryEndpoints DiscoveryRun ServiceCall Witnesses WitnessesControl.

#[local] Existing Instances lit_regex unit_payloads canonical_order canonical_indexmap first_positive plain_http.

Local Open Scope string_scope.
Local Abbreviation svc_name := (mkNH "ns" "svc").
Local Open Scope list_scope.

(** ** Delegation: a listener route to a group, whose route goes back to it *)

Definition to_group (key : string) : Route :=
  mkRoute key None (mkRouteName key "ns" None None) ["*.example.com"] [a_match] [mkRBR 1 (RBRouteGroup "g") []] [].

Definition first_weight (n : nat) (ws : list Z) : option nat := match ws with [] => None | _ => Some 0 end.

Definition all_keys {RE : RegexEngine} {PL : Payloads} (s : Store () ()) : gset string :=
  list_to_set ((map_to_list (http_routes s)).*2 ≫= λ rs, (map_to_list (all rs)).*1).

Lemma all_keys_within {RE : RegexEngine} {PL : Payloads} (s : Store () ()) : keys_within (all_keys s) (λ _, s).
Proof.
  intros n g rg k r Hg Hk. unfold all_keys. apply elem_of_list_to_set, list_elem_of_bind. exists rg. split.
  - apply list_elem_of_fmap. exists (k, r). split; [done|]. by apply elem_of_map_to_list.
  - apply list_elem_of_fmap. exists (RTRouteGroup g, rg). split; [done|]. by apply elem_of_map_to_list.
Qed.

Definition empty_store : Store () () := store_new true.
Definition chain_one : Store () () :=
  ret_or empty_store (insert_http_route_target (RTListener "l") (to_group "d") empty_store).
Definition chain_two : Store () () :=
  ret_or empty_store (insert_http_route_target (RTRouteGroup "g") (to_group "e") chain_one).

Lemma insert_ret_wf t r s : store_wf s → store_wf (ret_or empty_store (insert_http_route_target t r s) : Store () ()).
Proof. intros H. destruct (insert_http_wf t r s H) as (s' & -> & Hwf & _). exact Hwf. Qed.

Lemma chain_two_wf : store_wf chain_two.
Proof. apply insert_ret_wf, insert_ret_wf, store_new_wf. Qed.

Lemma route_chain_ends_witness :
  ∃ res, select_route_chain first_weight (S (size (all_keys chain_two))) (λ _, chain_two)
    (mkSocketAddr (V4 1) 80) listener_a sample_request = Some (Ret res).
Proof.
  destruct (route_chain_ends first_weight (λ _, chain_two) (mkSocketAddr (V4 1) 80) listener_a sample_request
    (all_keys chain_two) (S (size (all_keys chain_two))) (λ _, chain_two_wf) (all_keys_within chain_two) (Nat.lt_succ_diag_r _))
    as (res & H & _).
  exists res. exact H.
Defined.

Example chain_two_cycle :
  select_route_chain first_weight 3 (λ _, chain_two) (mkSocketAddr (V4 1) 80) listener_a sample_request =
  Some (Ret (Err RouteCycleDetected)).
Proof. vm_compute. reflexivity. Qed.

(** ** Headers and URLs *)

Definition split_pq (s : string) : option (string * option string) :=
  match Str.split_once "?" s with Some (a, b) => Some (a, Some b) | None => Some (s, None) end.

Lemma split_pq_ok s p q :
  Str.starts_with "/" s = true → Str.contains_char "#"%char s = false → split_pq s = Some (p, q) →
  match Str.split_once "?" s with Some (a, b) => p = a ∧ q = Some b | None => p = s ∧ q = None end.
Proof. intros _ _. unfold split_pq. by destruct (Str.split_once "?" s) as [[a b]|]; intros [= <- <-]. Qed.

#[local] Instance plain_uris : UriCrate :=
  {| authority_try_from := λ s, if Str.is_empty s then None else Some s; authority_host := id;
     authority_port := λ _, None; pq_try_from := split_pq; header_name_from_bytes := Some;
     connection_has_upgrade := λ _, false; pq_ok := split_pq_ok |}.

Definition routed_head : Head :=
  mkHead (mkRequest "GET" (req_uri sample_request) [("x-a", "1"); ("x-b", "2")] None) HTTP_2 (Some (path a_match)) None true false.

Definition sample_modifier : HeaderModifier :=
  mkHeaderModifier [("x-a", "3")] [("host", "other"); ("x-c", "4")] ["x-b"].

Lemma modify_request_headers_witness :
  ∃ r', modifier_apply_request sample_modifier routed_head = Ret (r', Ok ()) ∧
    get_all "x-a" (hd_headers r') = ["1"; "3"] ∧ uri_authority (hd_uri r') = Some "other".
Proof.
  destruct (modify_request_headers sample_modifier [("x-a", "3")] [("host", "other"); ("x-c", "4")] ["x-b"] routed_head)
    as (r' & Hr & Hh & Ha & _).
  - reflexivity.
  - reflexivity.
  - reflexivity.
  - discriminate.
  - exists r'. split; [exact Hr|]. split; [|rewrite Ha; reflexivity].
    assert ("x-a" ≠ "host") as Hne by discriminate. rewrite (Hh "x-a" Hne). reflexivity.
Defined.

Definition connect_head : Head :=
  mkHead (mkRequest "CONNECT" (mkUri None (Some "a:443") (Some "a") "" None None) [("x-a", "1")] None) HTTP_11 None None false true.

Lemma set_host_drops_pathless_request_witness :
  apply_header (HPHeader "host") (Some (VHeader "b:443")) OverwriteIfExistsOrAdd connect_head = Ret default_head.
Proof. exact (set_host_drops_pathless_request false connect_head "b:443" "b:443" eq_refl eq_refl). Defined.

Lemma sample_clean : uri_clean (hd_uri routed_head).
Proof. split; [reflexivity|]. split; [reflexivity|]. discriminate. Qed.

Lemma plain_v2 : plain_path "/v2".
Proof. split_and!; reflexivity. Qed.

Definition to_v2 : UrlRewrite := mkRewrite None (Some (PRPrefix "/v2")).

Lemma url_rewrite_prefix_witness :
  ∃ r' res, url_rewrite to_v2 routed_head = Ret (r', res) ∧ hd_original_url r' = Some (hd_uri routed_head).
Proof.
  destruct (url_rewrite_prefix to_v2 routed_head a_match "/api" "/v2" eq_refl eq_refl eq_refl eq_refl sample_clean plain_v2)
    as (r' & res & Hr & Ho & _).
  exists r', res. split; [exact Hr|exact Ho].
Defined.

Example url_rewrite_v2 :
  option_map (λ r, uri_path (hd_uri r)) (match url_rewrite to_v2 routed_head with Ret (r, Ok _) => Some r | _ => None end) =
  Some "/v2/v1".
Proof. reflexivity. Qed.

Definition to_x : UrlRewrite := mkRewrite None (Some (PRFull "/x")).
Definition redirect_v2 : RequestRedirect := mkRedirect None None (Some (PRPrefix "/v2")) None.

Lemma plain_x : plain_path "/x".
Proof. split_and!; reflexivity. Qed.

Lemma redirect_after_rewrite_panics_witness :
  ∃ r', url_rewrite to_x routed_head = Ret (r', Ok ()) ∧ request_redirect redirect_v2 r' = Panic.
Proof.
  eexists. split; [reflexivity|].
  apply (redirect_after_rewrite_panics to_x redirect_v2 routed_head "/api" "/x" "/v2").
  - reflexivity.
  - reflexivity.
  - exact plain_x.
  - exact sample_clean.
  - apply Nat.ltb_lt. reflexivity.
  - reflexivity.
  - reflexivity.
  - reflexivity.
Defined.

(** ** Calls *)

Lemma head_choose_ok : choose_ok head.
Proof. intros [|x l]; [reflexivity|]. simpl. left. Qed.

Definition no_override : ServiceCallOverride := mkOverride None false false.

