(* ===== verification/WitnessesAuth.v ===== *)
(** * Witnesses: authentication and the pipeline

    Concrete cookies, forms, tokens and hashes, and a request that goes through
    the whole pipeline. *)
From stdpp Require Import base countable gmap strings list.
From Stdlib Require Import ZArith Ascii.
From S2P Require Import Prelude RustStd Authorization AgentTypes RouteSet BindStore BindStoreFacts PolicyResolution RouteSelect RouteChain HttpRequest Rewrite Htpasswd Auth AuthFacts Pipeline PipelineFacts Witnesses WitnessesControl WitnessesHttp.

#[local] Existing Instances lit_regex unit_payloads canonical_order plain_uris.

Local Open Scope string_scope.
Local Open Scope list_scope.

(** ** Forms: the pairs as a number, in binary *)

Fixpoint bits_of (p : positive) : string :=
  match p with xH => "" | xO p => String "0" (bits_of p) | xI p => String "1" (bits_of p) end.

Fixpoint of_bits (s : string) : positive :=
  match s with
  | EmptyString => xH
  | String a s => if Ascii.eqb a "0" then xO (of_bits s) else xI (of_bits s)
  end.

Lemma of_bits_of p : of_bits (bits_of p) = p.
Proof. induction p as [p IH|p IH|]; simpl; congruence. Qed.

Lemma bits_clean p : Str.contains_char "#" (bits_of p) = false.
Proof. induction p as [p IH|p IH|]; simpl; [exact IH|exact IH|done]. Qed.

Definition form_pairs (s : string) : list (string * string) :=
  match s with EmptyString => [] | String _ s => default [] (countable.decode (of_bits s)) end.

Definition form_of (ps : list (string * string)) : string :=
  match ps with [] => "" | _ => String "p" (bits_of (encode ps)) end.

#[local] Instance form_http : HttpCrate :=
  {| header_value_try_from := Some; header_to_str := Some; form_urlencoded_parse := form_pairs |}.

Lemma form_round ps : form_pairs (form_of ps) = ps.
Proof. destruct ps as [|p ps]; [done|]. unfold form_of, form_pairs. by rewrite of_bits_of, decode_encode. Qed.

Lemma form_clean ps : Str.contains_char "#" (form_of ps) = false.
Proof. destruct ps as [|p ps]; [done|]. apply bits_clean. Qed.

Lemma form_nil ps : form_of ps = "" ↔ ps = [].
Proof. by destruct ps. Qed.

#[local] Instance binary_forms : FormCrate :=
  {| form_serialize := form_of; form_parse_serialize := form_round; form_serialize_clean := form_clean; form_serialize_nil := form_nil |}.

(** ** Cookies: separated by semicolons, with blanks before their names *)

Definition parse_cookie (piece : string) : option (string * string) := Str.split_once "=" (trim_start piece).
Definition print_cookie (c : string * string) : string := c.1 +:+ "=" +:+ c.2.
Definition parse_cookies (s : string) : list (option (string * string)) := parse_cookie <$> Str.split ";" s.

Lemma trim_start_idem s : trim_start (trim_start s) = trim_start s.
Proof. induction s as [|a s IH]; [done|]. simpl. destruct (is_space a) eqn:E; [done|]. simpl. by rewrite E. Qed.

Lemma trim_start_lacks c s : Str.contains_char c s = false → Str.contains_char c (trim_start s) = false.
Proof.
  induction s as [|a s IH]; [done|]. simpl. destruct (decide (a = c)) as [|Hne] eqn:E; [done|]. intros H.
  destruct (is_space a); [by apply IH|]. simpl. by rewrite E.
Qed.

Lemma parsed_cookie c s : Some c ∈ parse_cookies s →
  Str.contains_char ";" (print_cookie c) = false ∧ parse_cookie (print_cookie c) = Some c ∧ trim_start (print_cookie c) = print_cookie c.
Proof.
  intros (piece & Hp & Hin)%list_elem_of_fmap. destruct (Str.split_join ";" s) as [_ Hs]. rewrite Forall_forall in Hs.
  apply Hs in Hin. unfold parse_cookie in *. symmetry in Hp. destruct c as [n v].
  pose proof (Str.split_once_char_fst _ _ _ _ Hp) as Hn. pose proof (Str.split_once_Some _ _ _ _ Hp) as [Hv _].
  assert (trim_start piece = print_cookie (n, v)) as Ht by exact Hv. rewrite <-Ht, trim_start_idem. by rewrite (trim_start_lacks _ _ Hin).
Qed.

Lemma join_pieces l :
  join_with "; " l = Str.join ";" (match l with [] => [] | x :: l' => x :: ((λ y, " " +:+ y) <$> l') end).
Proof.
  destruct l as [|x l]; [done|]. revert x. induction l as [|y l IH]; intros x; [done|].
  change (join_with "; " (x :: y :: l)) with (x +:+ "; " +:+ join_with "; " (y :: l)). rewrite IH.
  change (Str.join ";" (x :: ((λ y, " " +:+ y) <$> y :: l))) with
    (x +:+ String ";" (Str.join ";" ((" " +:+ y) :: ((λ y, " " +:+ y) <$> l)))).
  f_equal. destruct l; done.
Qed.

Lemma cookies_round cs : cs ≠ [] → Forall (λ c, ∃ s, Some c ∈ parse_cookies s) cs →
  parse_cookies (join_with "; " (print_cookie <$> cs)) = Some <$> cs.
Proof.
  intros Hne Hall. destruct cs as [|c cs]; [done|]. rewrite join_pieces. unfold parse_cookies.
  rewrite fmap_cons. apply Forall_cons in Hall as [[s Hc] Hall]. apply parsed_cookie in Hc as (Hs & Hp & _).
  rewrite Str.join_split; [| done |constructor; [done|]].
  - rewrite !fmap_cons, Hp. f_equal. induction Hall as [|d ds [s' Hd] _ IH]; [done|]. rewrite !fmap_cons. f_equal; [|by apply IH].
    apply parsed_cookie in Hd as (_ & Hp' & Ht). unfold parse_cookie in *. change (trim_start (" " +:+ print_cookie d)) with (trim_start (print_cookie d)).
    exact Hp'.
  - apply Forall_fmap, Forall_fmap. eapply Forall_impl; [exact Hall|]. intros d [s' Hd]. simpl. by apply parsed_cookie in Hd as (? & _).
Qed.

#[local] Instance semicolon_cookies : CookieCrate :=
  {| cookie_split_parse := parse_cookies; cookie_to_string := print_cookie; cookies_joined := cookies_round;
     cookies_header := λ cs _, ltac:(by eexists); header_from_str := λ s v H, ltac:(by injection H as ->) |}.

(** ** Tokens and hashes *)

(** A token is its key's name, a dot, and its claims; a key accepts claims that
    begin with its own text. *)
#[local] Instance dotted_tokens : JsonWebToken :=
  {| DecodingKey := string; JwtError := (); JsonMap := string; KeyAlgorithm := ();
     algorithm_of := λ _, Some RS256;
     from_rsa_components := λ n e, Ok n; from_ec_components := λ x y, Ok x; from_ed_components := λ x, Ok x;
     decode_header := λ t, match Str.split_once "." t with Some (k, _) => Ok (Some k) | None => Err () end;
     decode := λ t k _, match Str.split_once "." t with
                        | Some (_, c) => if Str.starts_with k c then Ok c else Err ()
                        | None => Err ()
                        end |}.

#[local] Instance zero_hash : HashCrates :=
  {| md5 := λ _, replicate 16 0%Z; sha1_base64 := id; bcrypt_parts_ok := λ _, true;
     bcrypt_verify := λ _ _, None; unix_crypt_verify := λ _ _, false;
     md5_length := λ _, eq_refl; md5_bytes := λ _, ltac:(apply Forall_replicate; lia) |}.

Definition no_eval (e : option bool) (r : AReq (UserMetadata := ())) : option string := None.

Definition the_key : JwkIn := mkJwkIn (Some "k1") None (APRSA "n" "e").
Definition provider_of (r : result Provider JwkError) : Provider := match r with Ok p => p | Err _ => mkProvider "" ∅ end.
Definition strict_jwt : Jwt := mkJwt Strict [provider_of (from_jwks [the_key] "https://issuer" None ∅)] bearer_header.

Definition request_with (h : HeaderMap) (path : string) : AReq (UserMetadata := ()) :=
  mkAReq (mkHead (mkRequest "GET" (mkUri (Some "http") (Some "www.example.com") (Some "www.example.com") path (Some path) None) h None)
            HTTP_2 None None false false) None None None None.

Definition with_token : AReq (UserMetadata := ()) := request_with [("authorization", "bearer k1.name"); ("x-a", "1")] "/api/v1".
Definition past_token : AReq (UserMetadata := ()) := set_jwt (mkJwtClaims "name" "k1.name") (with_headers [("x-a", "1")] with_token).

Lemma jwt_apply_exact_witness :
  jwt_apply no_eval strict_jwt with_token = (past_token, Ok ()) ∧
  ∃ t claims, extract no_eval bearer_header with_token = Some t ∧ token_valid strict_jwt t claims ∧
    extract no_eval bearer_header past_token = None.
Proof.
  split; [vm_compute; reflexivity|].
  pose proof (jwt_apply_exact no_eval strict_jwt with_token past_token (Ok ()) ltac:(vm_compute; reflexivity)) as H.
  cbv zeta in H. destruct H as [(t & claims & Ht & Hv & _ & Hg)|[_ [[Hn _]|[Hn _]]]].
  - exists t, claims. split; [exact Ht|]. split; [exact Hv|exact Hg].
  - discriminate Hn.
  - discriminate Hn.
Defined.

Lemma mcp_no_bypass_witness :
  jwt_authentication_apply no_eval strict_jwt true with_token = (past_token, Ok ()) ∧
  jwt_apply no_eval strict_jwt with_token = (past_token, Ok ()).
Proof.
  assert (jwt_authentication_apply no_eval strict_jwt true with_token = (past_token, Ok ())) as H by (vm_compute; reflexivity).
  split; [exact H|]. exact (proj1 (mcp_no_bypass no_eval strict_jwt with_token past_token) true H).
Defined.

Definition some_keys : APIKeyAuthentication (UserMetadata := ()) := apikey_new [("secret", ())] CStrict bearer_header.
Definition with_key : AReq (UserMetadata := ()) := request_with [("authorization", "Bearer secret")] "/".

Lemma credentials_admit_witness :
  ∃ r', apikey_apply no_eval some_keys with_key = (r', Ok ()) ∧ extract no_eval bearer_header r' = None.
Proof.
  assert (apikey_apply no_eval some_keys with_key = (set_key ("secret", ()) (request_with [] "/"), Ok ())) as H by (vm_compute; reflexivity).
  eexists. split; [exact H|].
  destruct (proj1 (credentials_admit (CE := @payloads_cel unit_payloads) no_eval (λ _, None) with_key (set_key ("secret", ()) (request_with [] "/"))) some_keys H)
    as [(key & meta & _ & _ & _ & Hg)|(Hn & _)]; [exact Hg|discriminate Hn].
Defined.

(** A password file as Apache writes it, read as credentials in the clear. *)
Definition some_users : BasicAuthentication := mkBasicAuth (htpasswd_new "user:$apr1$salt$digest") COptional basic_header.

Lemma long_password_panics_witness :
  basic_apply Some no_eval some_users (request_with [("authorization", "Basic user:seventeen letters")] "/") = Panic.
Proof.
  apply (long_password_panics (CE := @payloads_cel unit_payloads) no_eval Some some_users _ "user:seventeen letters" "user" "seventeen letters" "salt" "digest").
  - vm_compute; reflexivity.
  - vm_compute; reflexivity.
  - vm_compute; reflexivity.
  - simpl; lia.
Defined.

Lemma passthrough_roundtrip_witness :
  ∃ r2, apply_backend_auth (Passthrough (Some (LQueryParameter "token"))) past_token = (r2, Ok ()) ∧
    extract no_eval (LQueryParameter "token") r2 = Some "k1.name".
Proof.
  eexists. split; [vm_compute; reflexivity|].
  destruct (passthrough_roundtrip (CE := @payloads_cel unit_payloads) no_eval strict_jwt with_token past_token _ (Some (LQueryParameter "token"))
    ltac:(reflexivity) ltac:(vm_compute; reflexivity) ltac:(vm_compute; reflexivity)) as (t & Ht & Hf).
  assert (t = "k1.name") as -> by (vm_compute in Ht; congruence). apply Hf. split; [|exact I].
  split; [|right; reflexivity]. split; [reflexivity|]. split; [reflexivity|]. discriminate.
Defined.

Lemma apr1_roundtrip_witness :
  ∃ p, md5_apr1_encode "password" "salt" = Ret p ∧ verify_apr1_hash (format_hash p "salt") "password" = Ret (Ok true).
Proof.
  destruct (apr1_roundtrip "password" "salt" ltac:(done) ltac:(simpl; lia) ltac:(reflexivity) ltac:(simpl; lia)) as (p & H1 & H2 & _).
  exists p. split; [exact H1|exact H2].
Defined.

(** ** The pipeline: policies that count, answer, or do nothing *)

#[local] Instance pipe_payloads : Payloads :=
  {| payloads_cel := {| Expression := option bool |};
     LocalRateLimitP := nat; RemoteRateLimitP := (); ExtAuthzP := (); ExtProcP := ();
     JwtAuthP := (); OidcP := (); BasicAuthP := (); APIKeyP := (); TransformationP := ();
     CsrfP := (); DirectResponseP := (); LlmP := (); TimeoutP := (); RetryP := ();
     HeaderModifierP := (); RequestRedirectP := (); UrlRewriteP := ();
     HostRedirectOverrideP := (); RequestMirrorP := (); CorsP := bool;
     BackendTLSP := (); BackendAuthP := (); A2aP := (); InferenceRoutingP := ();
     McpAuthenticationP := (); BackendHTTPP := (); BackendTCPP := (); TunnelP := ();
     SessionPersistenceP := (); HealthP := ();
     FrontendHTTPP := (); FrontendTLSP := (); FrontendTCPP := (); FrontendProxyP := ();
     LoggingP := (); AccessLogOtlpP := (); TracingP := (); MetricsFieldsP := ();
     logging_access_log_policy := λ _, None |}.

(** The world is the number of tokens left. *)
Local Abbreviation Policy := (RequestPolicyTrait (UserMetadata := ()) (Body := string) (World := nat) (PolicyError := ())).
Local Abbreviation Run := (Run (UserMetadata := ()) (World := nat)).

#[local] Instance idle_policy : Policy () := λ _ r w, Ret (r, w, Ok policy_response_default).
#[local] Instance taking_policy : Policy nat := λ n r w, Ret (r, w - n, Ok policy_response_default).
#[local] Instance preflight_policy : Policy bool := λ b r w,
  Ret (r, w, Ok (mkPolicyResponse (if b then Some (mkResponse 200 [("x-a", "1")] "") else None) (Some [("access-control-allow-origin", "*")]))).

Definition exec_all (r : AReq (UserMetadata := ())) : Executor Expression bool () := lit_exec.

Definition limited (limit : nat) (c : bool) (authz : RuleSet (option bool)) : RoutePolicies :=
  collect_route [TPLocalRateLimit (rp_single limit); TPAuthorization authz; TPCORS (rp_single c)].

Definition start_run : Run := mkRun with_token 10 rp_default.

Definition run_policies (p : RoutePolicies) : Run → outcome (Run * result () (ProxyResponse (Body := string) (PolicyError := ()))) :=
  apply_request_policies exec_all (λ _, true) p.

Lemma refused_cost_nothing_witness :
  run_policies (limited 1 false deny_all) start_run = run_policies (limited 7 false deny_all) start_run ∧
  ∀ s1, run_policies (limited 7 false deny_all) start_run ≠ Ret (s1, Ok ()).
Proof.
  refine (refused_cost_nothing exec_all (λ _, true) (limited 7 false deny_all) (limited 1 false deny_all) start_run _ _).
  - repeat split.
  - intros s1 H1. vm_compute in H1. discriminate H1.
Defined.

Definition preflight_answer : Response (Body := string) := mkResponse 200 [("x-a", "1")] "".

Lemma preflight_first_witness :
  ∃ s' dr, run_policies (limited 1 true deny_all) start_run = Ret (s', Err (DirectResponse dr)) ∧ rs_status dr = 200%Z.
Proof.
  assert (policy_apply true with_token 10 =
    Ret (with_token, 10, Ok (mkPolicyResponse (Some preflight_answer) (Some [("access-control-allow-origin", "*")])))) as Hp by reflexivity.
  destruct (preflight_first (PL := pipe_payloads) exec_all (λ _, true) (limited 1 true deny_all) start_run true with_token 10 _ preflight_answer
    eq_refl Hp eq_refl) as (dr & H & Hs & _).
  eexists _, dr. split; [exact H|exact Hs].
Defined.

(** A store with a bind, a listener, a route to a backend, and a policy. *)
Definition http_listener : Listener := mkListener "l" (mkListenerName "gw" "ns" "l" None) "" LP_HTTP.
Definition to_backend : Route :=
  mkRoute "r" None (mkRouteName "r" "ns" None None) ["*.example.com"] [a_match] [mkRBR 1 (RBBackend "be") []] [].

Definition pipe_bind : Bind := mkBind "b" (mkSocketAddr (V4 0) 80) BPhttp TPDirect {[ "l" := http_listener ]}.
Definition allow_policy : TargetedPolicy :=
  mkTargetedPolicy "p" gateway_target (PTTraffic PhaseRoute (TPAuthorization allow_all)).

Definition pipe_empty : Store () () := store_new true.
Definition pipe_base : Store () () := insert_backend "be" () (insert_policy allow_policy (insert_bind no_os pipe_bind pipe_empty)).
Definition pipe_store : Store () () := ret_or pipe_empty (insert_http_route_target (RTListener "l") to_backend pipe_base).

Definition no_service (n : NamespacedHostname) : option () := None.
Definition no_trace (r : AReq (UserMetadata := ())) (w : nat) : AReq (UserMetadata := ()) * nat := (r, w).
Definition run_pipeline (fuel : nat) (s : Run) : outcome (Run * result Forward (ProxyResponse (Body := string) (PolicyError := ()))) :=
  proxy_internal exec_all (λ _, true) no_service no_trace first_weight fuel (λ _, pipe_store) false "b" None (mkSocketAddr (V4 1) 80) s.


Lemma pipe_store_wf : store_wf pipe_store.
Proof.
  assert (store_wf pipe_base) as Hw.
  { assert (store_wf (insert_policy allow_policy (insert_bind no_os pipe_bind pipe_empty))) as H; [|split; apply H].
    apply insert_policy_wf, upsert_bind_wf; [apply store_new_wf|]. intros k l Hl. simpl in Hl. by apply lookup_singleton_Some in Hl as [<- <-]. }
  destruct (insert_http_wf (RTListener "l") to_backend pipe_base Hw) as (s' & Hs & Hwf & _). unfold pipe_store. by rewrite Hs.
Qed.

Lemma proxy_returns_witness : ∃ s' r, run_pipeline (S (size (all_keys pipe_store))) start_run = Ret (s', r).
Proof.
  refine (proxy_returns (PL := pipe_payloads) exec_all (λ _, true) no_service no_trace first_weight (S (size (all_keys pipe_store))) (λ _, pipe_store)
    (all_keys pipe_store) false "b" None (mkSocketAddr (V4 1) 80) start_run (λ _, pipe_store_wf) (all_keys_within pipe_store) (Nat.lt_succ_diag_r _)).
  all: intros pol q w; eexists; reflexivity.
Defined.
