(* ===== verification/WitnessesExt.v ===== *)
(** * Witnesses: external services

    Concrete bodies, services and processors at which the hypotheses of the
    theorems on external authorization, rate limiting and processing hold. *)
From stdpp Require Import base gmap strings list.
From Stdlib Require Import ZArith Ascii.
From S2P Require Import Prelude RustStd Authorization AgentTypes RouteSelect HttpRequest Htpasswd Auth Pipeline Replay RateLimit PeekBody EnvoyHeaders ExtAuthz ExtAuthzFacts RemoteLimit ExtProc Witnesses WitnessesHttp WitnessesAuth.

#[local] Existing Instances lit_regex unit_payloads plain_uris form_http binary_forms semicolon_cookies dotted_tokens.

Local Open Scope string_scope.
Local Open Scope list_scope.

#[local] Instance plain_messages : MessageCrate :=
  {| header_value_from_bytes := Some; method_from_bytes := Some; scheme_try_from := Some;
     uri_try_from := λ s, Some (mkUri None None None s (Some s) None) |}.

Definition two_frames : list (Event nat ()) := [EFrame (FData [1; 2]%Z); EPending; EFrame (FData [3]%Z); EFrame (FTrailers 7)].

Lemma inspect_body_exact_witness :
  ∃ nb, inspect_body two_frames 2 = Ret (nb, Ok [1; 2]%Z) ∧ content nb = content two_frames.
Proof.
  destruct (inspect_body_exact two_frames 2 eq_refl) as (nb & r & H & Hr).
  pose proof H as H'. vm_compute in H'. injection H' as Hn Hb. subst r. exists nb. split; [exact H|]. destruct Hr as [_ Hc]. exact Hc.
Defined.

(** An empty frame hides what follows. *)
Example hidden_by_empty_frame :
  inspect_body [EFrame (FData []); EFrame (FData [1]%Z)] 10 = Ret ([EFrame (FData [1]%Z)] : list (Event nat ()), Ok []).
Proof. reflexivity. Qed.

Lemma ext_authz_sees_headers_witness :
  check_headers [] (mkRequest "GET" (hd_uri routed_head) [("x-a", "1"); ("x-b", "2"); ("x-a", "3")] None) !! "x-a" = Some "1, 3".
Proof.
  assert ("x-a" ∉ [":method"; ":scheme"; ":authority"; ":path"]) as Hn by (vm_compute; set_solver).
  rewrite (ext_authz_sees_headers (mkRequest "GET" (hd_uri routed_head) [("x-a", "1"); ("x-b", "2"); ("x-a", "3")] None) "x-a" Hn). reflexivity.
Defined.

(** A service that says yes, asked over gRPC with the body. *)
Definition grpc_authz : ExtAuthz := mkExtAuthz (Grpc None None) FMDeny [] (Some (mkBodyOptions 10 false true)).
Definition yes_grpc (q : CheckRequest ()) : option (CheckResponse ()) := Some (mkCheckResponse None None None).
Definition no_call (q : Head) (b : list Z) : result (Pipeline.Response (Body := string)) string := Err "unreachable".
Definition sample_conn : Conn := mkConn (mkSocketAddr (V4 1) 5) (mkSocketAddr (V4 2) 80) None.
Definition lit_exec_of (r : AReq (UserMetadata := ())) : Executor Expression bool () := lit_exec.
Definition sample_call : Call (UserMetadata := ()) (Trailers := nat) (BErr := ()) (Json := ()) := mkCall with_token two_frames None.

Lemma ext_authz_decides_witness :
  ∃ c', check lit_exec_of (λ _, None) (λ _, None) (λ _, None) (λ _ _, None) (λ _, None) (λ _, None) (λ _ _ _, None)
      yes_grpc no_call grpc_authz (Some sample_conn) sample_call = Ret (c', Ok policy_response_default) ∧
    content (c_body c') = content two_frames.
Proof.
  destruct (ext_authz_decides lit_exec_of (λ _, None) (λ _, None) (λ _, None) (λ _ _, None) (λ _, None) (λ _, None) (λ _ _ _, None)
    yes_grpc no_call grpc_authz (Some sample_conn) sample_call eq_refl) as (c' & r & H & Hr).
  pose proof H as H'. vm_compute in H'. injection H' as Hc Hb. subst r. exists c'. split; [exact H|].
  destruct (Hr policy_response_default eq_refl eq_refl) as (cn & size & body & m & _ & _ & [(Hn & _)|(cr & Hcr & _ & [Hk|(_ & o & Ho & _)])]).
  - discriminate Hn.
  - exact Hk.
  - injection Hcr as <-. discriminate Ho.
Defined.

(** A service that says yes and asks for another scheme of a request without an
    authority: the request passes without its head and its body. *)
Definition scheme_grpc (q : CheckRequest ()) : option (CheckResponse ()) :=
  Some (mkCheckResponse None None (Some (HROk (mkOkHttp [mkPHVO (Some (mkPHV ":scheme" "https" "")) None 0] [] [] [] [])))).
Definition relative_call : Call (UserMetadata := ()) (Trailers := nat) (BErr := ()) (Json := ()) :=
  mkCall (mkAReq (mkHead (mkRequest "POST" (mkUri None None None "/pay" (Some "/pay") None) [] None) HTTP_11 None None false false) None None None None) two_frames None.

Example answer_costs_body :
  check lit_exec_of (λ _, None) (λ _, None) (λ _, None) (λ _ _, None) (λ _, None) (λ _, None) (λ _ _ _, None)
    scheme_grpc no_call grpc_authz (Some sample_conn) relative_call = Ret (lost_call, Ok (mkPolicyResponse None None)).
Proof. vm_compute. reflexivity. Qed.

(** A check over HTTP that includes the scheme loses its method, its URI and its
    body. *)
Definition scheme_authz : ExtAuthz := mkExtAuthz (Http None None [] [] []) FMDeny [HPScheme] (Some (mkBodyOptions 10 false true)).

Example check_loses_itself :
  match http_check_request lit_exec_of (λ _, None) (λ _, None) scheme_authz [] with_token (mkUri None None None "/pay" (Some "/pay") None) [1; 2]%Z false with
  | Ret (q, sent) => hd_uri q = default_uri ∧ hd_headers q = [("x-envoy-auth-partial-body", "false")] ∧ sent = []
  | Panic => False
  end.
Proof. vm_compute. done. Qed.

(** A service that counts requests and tokens. *)
Definition path_entry : DescriptorEntry := mkEntry [("path", Some true)] Requests None None.
Definition model_entry : DescriptorEntry := mkEntry [("model", Some true)] Tokens (Some (Some true)) None.
Definition remote_policy : RemoteRateLimit := mkRemote "gateway" [path_entry; model_entry] FailClosed.
Definition within_limits (q : RateLimitRequest) : option RateLimitResponse := Some (mkRateLimitResponse CODE_OK [] [] "").
Definition text_of (b : bool) : option string := Some (if b then "yes" else "no").
Definition one_of (b : bool) : option Z := Some 1%Z.
Definition no_limit_override (b : bool) : option (string * Z) := None.

Lemma remote_limit_exact_witness :
  ∃ r', remote_check lit_exec_of text_of one_of no_limit_override within_limits remote_policy with_token = (r', Ok (mkPolicyResponse None None)).
Proof.
  eexists. destruct (remote_limit_exact lit_exec_of text_of one_of no_limit_override within_limits remote_policy with_token _ (Ok (mkPolicyResponse None None))
    ltac:(vm_compute; reflexivity)) as [(Hb & _)|_]; [vm_compute in Hb; discriminate Hb|vm_compute; reflexivity].
Defined.

Definition sample_amend : LLMResponseAmend :=
  mkAmend (mkRateLimitRequest "gateway" [mkDescriptor [("model", "yes")] None (Some 0%Z)]) [Some (Some true)].

Lemma token_amend_exact_witness :
  mkDescriptor [("model", "yes")] None (Some 1%Z) ∈ rq_descriptors (apply_token_amend one_of (λ _, Some true) 5 sample_amend).
Proof.
  apply (token_amend_exact lit_exec_of text_of one_of no_limit_override within_limits remote_policy 0 with_token with_token (mkPolicyResponse None None)
    sample_amend (λ _, Some true) 5); [vm_compute; reflexivity|].
  exists (mkDescriptor [("model", "yes")] None (Some 0%Z)), (Some (Some true)), 1%Z. split; [left|]. split; [|split; reflexivity].
  exists model_entry. split; [right; left|]. split_and!; reflexivity.
Defined.

Lemma unprocessed_only_if_open_witness :
  mutate_request ProcFailOpen false true [] routed_head = Ret (true, Unprocessed routed_head None) ∧ ProcFailOpen = ProcFailOpen.
Proof.
  split; [reflexivity|].
  exact (proj1 (unprocessed_only_if_open ProcFailOpen false true [] routed_head routed_head None true eq_refl)).
Defined.

Lemma echo_forwards_witness :
  mutate_request ProcFailClosed true true
    (echo <$> PQHeaders (req_to_header_map (hd_req routed_head)) false :: handle_body_stream two_frames) routed_head =
    Ret (false, Continue routed_head [[1; 2]%Z; [3]%Z; []]).
Proof. exact (echo_forwards ProcFailClosed two_frames routed_head eq_refl). Defined.

