(* ===== verification/WitnessesPool.v ===== *)
(** * Witnesses: the connection pool

    A host over HTTP/2 with three streams a connection: two requests wait for
    one attempt, which succeeds and answers both. *)
From stdpp Require Import base gmap list.
From Stdlib Require Import ZArith.
From S2P Require Import Prelude Pool PoolFacts PoolInv PoolRun.

Local Open Scope list_scope.

Definition h2_settings : PoolSettings := mkSettings 4 (Some 90%Z) 10.

(** Connections are open, and these requests wait. *)
Definition waiting_env (live : list nat) : Env :=
  mkEnv (λ _, true) (λ w, if decide (w ∈ live) then TxLive else TxCanceled) 0%Z.

Definition step_to (op : PoolOp) (W : World) : World :=
  match pool_step h2_settings ECHttp2 op W with Ret W' => W' | Panic => W end.

Definition asked : World := step_to (OCheckout (waiting_env [0])) (step_to (OCheckout (waiting_env [])) world_new).
Definition answer : PoolOp := OConnected 0 (Some 3) (waiting_env [0; 1]).
Definition served : World := step_to answer asked.

Lemma waiting_env_ok op live (W : World) :
  env_of op = Some (waiting_env live) → bool_decide (Forall (λ w, w ∈ w_waiting W) live) = true →
  ∀ e w, env_of op = Some e → w ∉ w_waiting W → tx_state e w = TxCanceled.
Proof.
  intros -> Hl%bool_decide_eq_true e w [= <-] Hw. simpl. rewrite decide_False; [done|].
  intros Hin. rewrite Forall_forall in Hl. by apply Hw, Hl.
Qed.

Ltac enabled_here := split; [eapply waiting_env_ok; [reflexivity|vm_compute; reflexivity]|vm_compute; done].

Lemma asked_reach : pool_reach h2_settings ECHttp2 asked.
Proof.
  eapply (pool_next _ _ _ (OCheckout (waiting_env [0]))); [eapply (pool_next _ _ _ (OCheckout (waiting_env []))); [constructor| |reflexivity]| |reflexivity].
  - enabled_here.
  - enabled_here.
Qed.

Lemma answer_enabled : enabled h2_settings ECHttp2 answer asked.
Proof. enabled_here. Qed.

Lemma served_run : pool_run h2_settings ECHttp2 [answer] asked served.
Proof. econstructor; [apply answer_enabled|reflexivity|constructor]. Qed.

Lemma pool_safe_witness :
  pool_reach h2_settings ECHttp2 served ∧ connecting (host_of ECHttp2 served) = 0 ∧
  w_loads served !! 2 = Some (mkLoad 2 3) ∧ 2 = holders 2 (w_held served).
Proof.
  assert (pool_reach h2_settings ECHttp2 served) as Hr by exact (pool_run_reach _ _ _ _ _ asked_reach served_run).
  destruct (pool_safe h2_settings ECHttp2 served Hr) as (_ & _ & Hh & _ & _ & Hc & _).
  split; [exact Hr|]. split; [rewrite Hc; vm_compute; reflexivity|].
  assert (w_loads served !! 2 = Some (mkLoad 2 3)) as Hl by (vm_compute; reflexivity). split; [exact Hl|].
  destruct (Hh 2 (mkLoad 2 3) Hl) as [_ Hx]. apply Hx. apply (bool_decide_unpack _). vm_compute. exact I.
Defined.

Lemma no_waiter_stranded_witness :
  pool_run h2_settings ECHttp2 [answer] asked served ∧ w_waiting asked = {[0; 1]} ∧ w_waiting served = ∅ ∧
  (w_log served).*1 = [0; 1].
Proof.
  destruct (no_waiter_stranded h2_settings ECHttp2 asked [answer] served asked_reach served_run) as (_ & _ & _ & He).
  split; [exact served_run|]. split; [vm_compute; reflexivity|]. split; [|vm_compute; reflexivity].
  apply He. vm_compute. reflexivity.
Defined.

Lemma checkout_reuses_witness :
  enabled h2_settings ECHttp2 (OCheckout (waiting_env [])) served ∧
  checkout_or_register_waker h2_settings (waiting_env []) (w_next served) (locked ECHttp2 served) =
    Ret (mkPS (mkHost 0 0 (Cached 3) [] [2] []) {[2 := mkLoad 3 3]} false [], Checkout (Http2 2) true) ∧
  is_open (waiting_env []) (Http2 2) = true.
Proof.
  assert (enabled h2_settings ECHttp2 (OCheckout (waiting_env [])) served) as He by enabled_here.
  assert (checkout_or_register_waker h2_settings (waiting_env []) (w_next served) (locked ECHttp2 served) =
    Ret (mkPS (mkHost 0 0 (Cached 3) [] [2] []) {[2 := mkLoad 3 3]} false [], Checkout (Http2 2) true)) as Hc
    by (vm_compute; reflexivity).
  split; [exact He|]. split; [exact Hc|].
  exact (proj1 (checkout_reuses h2_settings ECHttp2 served _ _ _ (pool_run_reach _ _ _ _ _ asked_reach served_run) He Hc)).
Defined.
