(* ===== verification/WitnessesXds.v ===== *)
(** * Witnesses: converted messages, and connections

    Literal expressions, messages of the control plane that use them, and a
    connection with a PROXY header. *)
From stdpp Require Import base gmap strings list.
From Stdlib Require Import ZArith Lia.
From S2P Require Import Prelude RustStd XdsClient Authorization AgentTypes RouteSet TcpRouteSet BindStore BindStoreFacts PolicyResolution RouteSelect HttpRequest Rewrite Htpasswd Auth Pipeline EnvoyHeaders ExtAuthz Transformation RemoteLimit ExtProc XdsProto PolicyTypes ProxyProtocol AgentXds AgentXdsClaims Witnesses WitnessesControl WitnessesHttp WitnessesAuth WitnessesExt.

#[local] Existing Instances lit_regex canonical_order plain_uris form_http binary_forms semicolon_cookies dotted_tokens zero_hash plain_messages.

Local Open Scope string_scope.
Local Open Scope list_scope.

(** An expression that compiles is [true], [false] or [error]. *)
#[local] Instance bool_cel : CelEngine := {| Expression := option bool |}.

#[local] Instance literals : Compilers :=
  {| regex_new := λ s, if Str.starts_with "[" s then Err "unclosed" else Ok s;
     new_strict := λ s, if decide (s = "true") then Ok (Some true) else if decide (s = "false") then Ok (Some false)
                        else if decide (s = "error") then Ok None else Err "syntax";
     fail_expression := λ _, None |}.

#[local] Instance unit_messages : OpaqueMessages :=
  {| StructMsg := (); ValueMsg := (); Double := () |}.

#[local] Instance unit_policies : OpaquePolicies :=
  {| UserMetadata := (); Json := (); OidcPolicy := (); LlmPolicy := (); BackendTls := (); GcpCredential := ();
     SessionPersistence := (); LoggingPolicy := (); AccessLogOtlp := ();
     access_log_policy := λ _, None |}.

(** rustls: a provider is for versions of its suites. *)
Definition usable (suites groups : list Z) (versions : list TLSVersion) : bool :=
  existsb (λ s, existsb (λ v, match suite_version s, v with TLS_V1_2, TLS_V1_2 | TLS_V1_3, TLS_V1_3 => true | _, _ => false end) versions) suites &&
  match groups with [] => false | _ => true end.

Lemma usable_ok suites groups versions :
  usable suites groups versions = true ↔ (∃ s, s ∈ suites ∧ suite_version s ∈ versions) ∧ groups ≠ [].
Proof.
  unfold usable. rewrite andb_true_iff, existsb_exists. setoid_rewrite existsb_exists. setoid_rewrite <-list_elem_of_In.
  assert (∀ s, suite_version s = TLS_V1_2 ∨ suite_version s = TLS_V1_3) as Hs by (intros s; unfold suite_version; case_match; auto).
  split.
  - intros [(s & Hin & v & Hv & Hsv) Hg]. split; [|by destruct groups]. exists s. split; [done|].
    destruct (Hs s) as [Hs'|Hs']; rewrite Hs' in Hsv |- *; by destruct v.
  - intros [(s & Hin & Hv) Hg]. split; [|by destruct groups]. exists s. split; [done|]. exists (suite_version s). split; [done|].
    by destruct (Hs s) as [-> | ->].
Qed.

#[local] Instance plain_config : ConfigCrates :=
  {| debug_str := id; duration_try_into := λ d, if decide (0 ≤ d_seconds d)%Z then Some (d_seconds d * 1000000000 + d_nanos d)%Z else None;
     parse_ip := λ _, None; jwk_set_from_str := λ _, Err "not json"; jwk_error_display := λ _, "jwk"; rl_error_display := λ _, "rate limit";
     struct_to_value := λ _, Some (); null_metadata := (); to_json_value := id; json_from_str := λ _, Some (); regex_escape := id;
     istio_workload := λ _, 1%positive; new_invalid := 2%positive; with_protocol_versions := usable; with_protocol_versions_ok := usable_ok;
     load_server_config := λ _ _, Err "pem"; parse_roots := λ _, Ok (); system_roots_add := true; client_config := λ _, Ok ();
     invalid_header_name := "invalid HTTP header name"; gcp_credential_new := λ _, Ok () |}.

#[local] Instance unit_conversions : OpaqueConversions :=
  {| llm_policy_new := λ _, (); logging_policy_new := λ _, (); cloud_token := λ _ r, (r, Ok ());
     AgentCoreConfig := (); agent_core_new := λ _ _, Ok () |}.
#[local] Hint Extern 0 Payloads => exact (gateway_payloads (CE := bool_cel)) : typeclass_instances.

Definition no_error (e : ProtoError) : string := "".

(** ** A route match with an invalid regular expression *)

Definition sample_match : proto.RouteMatch :=
  proto.mkRouteMatch (Some (Some (proto.KPathPrefix "/api"))) [proto.mkValueMatch "x-a" (Some (proto.MExact "1"))] (Some "GET") [].
Definition sample_get (path : string) : Request := mkRequest "GET" (mkUri None None None path (Some path) None) [("x-a", "1")] None.

Lemma route_match_means_witness : ∃ ws rm, route_match_from_proto no_error sample_match [] = Ret (ws, Ok rm) ∧
  matches_request rm (sample_get "/api/v1") = true ∧ matches_request rm (sample_get "/apis") = false.
Proof.
  destruct (route_match_from_proto no_error sample_match []) as [[ws [rm|e]]|] eqn:E; [|exfalso; vm_compute in E; discriminate E..].
  exists ws, rm. split; [done|]. split.
  - rewrite (route_match_means no_error sample_match [] ws rm (sample_get "/api/v1") E). reflexivity.
  - rewrite (route_match_means no_error sample_match [] ws rm (sample_get "/apis") E). reflexivity.
Defined.

(** An invalid expression warns, and matches nothing. *)
Example invalid_regex_matches_nothing :
  match route_match_from_proto no_error (proto.mkRouteMatch (Some (Some (proto.KRegex "[x"))) [] None []) [] with
  | Ret ([_], Ok rm) => matches_request rm (sample_get "[x")
  | _ => true
  end = false.
Proof. reflexivity. Qed.

(** ** Authorization rules, one of which does not compile *)

Definition literal_executor : Executor Expression bool () :=
  mkExecutor (λ e : option bool, match e with Some b => Ok b | None => Err () end) Ok.

Lemma rbac_means_witness : ∃ ws rs,
  authorization_from_proto (proto.mkRbac ["true"; "oops"] ["oops"; "error"] []) [] = Ret (ws, Ok rs) ∧
  length ws = 2 ∧ validate [rs] literal_executor = true.
Proof.
  destruct (rbac_means literal_executor (proto.mkRbac ["true"; "oops"] ["oops"; "error"] []) [])
    as (ws & rs & H & Hlen & Hv); [done|].
  exists ws, rs. split; [exact H|]. split; [exact Hlen|]. apply Hv. simpl. split; [set_solver|]. split; [set_solver|]. right. exists "true". set_solver.
Defined.

(** ** Redirects in policies *)

Definition on_gateway : option proto.PolicyTarget := Some (Some (proto.TGGateway "gw" "ns" None None)).
Definition redirect_to (port : Z) : proto.Policy :=
  proto.mkPolicy "p" on_gateway (Some (proto.PKTraffic (proto.mkTrafficPolicySpec 0 (Some (proto.TKRequestRedirect (proto.mkRequestRedirect "" "" None port 301)))))).

Definition any_socket (_ : SocketAddr) : option () := Some ().
Local Abbreviation conv := (agent_conv 0 no_error (λ s : string, s)).

Lemma config_updates_safe_witness : ∃ s' r,
  handle conv any_socket [XUpdate "p" (Some (XKPolicy conv (redirect_to 8443)))] (store_new true) = Ret (s', r) ∧ store_wf s'.
Proof.
  apply (config_updates_safe 0 no_error (λ s, s) any_socket true); [constructor|].
  constructor; [|constructor]. simpl. unfold policy_fits. simpl. right. right. vm_compute. discriminate.
Defined.

(** A listener with a suite of version 1.3 only, up to version 1.2. *)
Definition tls_listener : proto.Listener :=
  proto.mkListener "l" "b" (Some (proto.mkListenerName "gw" "ns" "l" None)) "" 2 (Some (proto.mkTlsConfig "" "" None [1%Z] None (Some 3%Z) 0 [] 0)).

Lemma tls_profile_panics_witness :
  handle conv any_socket [XUpdate "l" (Some (XKListener conv tls_listener))] (store_new true) = Panic.
Proof.
  eapply (tls_profile_panics 0 no_error (λ s, s) any_socket "l" tls_listener); try reflexivity.
  intros [H|[H|[[H _]|(s & Hs & H)]]]; [discriminate H|discriminate H|discriminate H|]. vm_compute in Hs. apply list_elem_of_singleton in Hs as ->.
  by apply H.
Defined.

(** A guard of prompts with an expression that does not compile, and within
    another guard a policy for language models: it converts, with a warning for
    each of the two broken expressions. *)
Definition guarded : proto.BackendKind :=
  let inner := proto.BKAi (proto.mkAi _ (Some (proto.mkPromptGuard _ [proto.mkRequestGuard _ None (Some (proto.QGRegex (proto.mkRegexRules 0 [Some (proto.RRRegex "[x")])))] []))
                             ∅ ∅ {[ "model" := "oops" ]} None ∅ None ∅) in
  proto.BKAi (proto.mkAi _ (Some (proto.mkPromptGuard _ [proto.mkRequestGuard _ None (Some (proto.QGOpenaiModeration None [Some inner]))] [])) ∅ ∅ ∅ None ∅ None ∅).

Example guarded_converts : match backend_policy_from_proto (Some guarded) [] with Ret ([_; _], Ok _) => true | _ => false end = true.
Proof. vm_compute. reflexivity. Qed.

Lemma redirect_port_panics_witness :
  handle conv any_socket [XUpdate "p" (Some (XKPolicy conv (redirect_to 65536)))] (store_new true) = Panic.
Proof.
  eapply (redirect_port_panics 0 no_error (λ s, s) any_socket "p" (redirect_to 65536)); try reflexivity.
  unfold redirect_fits. simpl. intros [H|[H|H]]; [by apply H|discriminate H|by apply H].
Defined.

(** ** A conditional policy *)

Definition teapots : list proto.ConditionalPolicy :=
  [proto.mkConditionalPolicy (Some "false") (Some (proto.mkTrafficPolicySpec 0 (Some (proto.TKDirectResponse 418 "no"))));
   proto.mkConditionalPolicy None (Some (proto.mkTrafficPolicySpec 0 (Some (proto.TKDirectResponse 200 "yes"))))].

Lemma conditional_means_witness : ∃ phase tp, conditional_policy_from_proto 0 teapots [] = Ret ([], Ok (PTTraffic phase tp)) ∧
  fst <$> entries_of tp = [Some (Some false); None].
Proof.
  destruct (conditional_policy_from_proto 0 teapots []) as [[ws [pt|e]]|] eqn:E; [|exfalso; vm_compute in E; discriminate E..].
  destruct (conditional_means 0 teapots [] ws pt E) as (phase & tp & es & -> & _ & Hes & _ & Htp).
  exists phase, tp. split; [f_equal; f_equal; vm_compute in E; by injection E as <-|]. rewrite Htp.
  inversion Hes as [|? e1 ? es' [_ H1] Hes']; subst. inversion Hes' as [|? e2 ? es'' [_ H2] Hes'']; subst. inversion Hes''; subst.
  destruct e1 as [c1 p1], e2 as [c2 p2]. simpl in H1, H2. subst c1 c2. reflexivity.
Defined.

(** ** A transformation *)

(** A header whose expression fails is gone, whatever the client sent. *)
Definition drop_roles : TransformerConfig := mkTransformerConfig [] [(HPHeader "x-role", None); (HPHeader "x-set", Some true)] ["x-old"] (Some (Some false)) [].

Definition eval_literal (e : option bool) : option string := match e with Some true => Some "yes" | Some false => Some "no" | None => None end.

Example transform_sample :
  let r := TRequest (Json := ()) (mkHead (mkRequest "GET" default_uri [("x-role", "root"); ("x-old", "1"); ("content-length", "3"); ("x-keep", "k")] None)
             HTTP_11 None None false false) "abc" None in
  match transform (Snapshot := ()) (λ _ _ _ e, eval_literal e) (λ _ _ _ e, eval_literal e) Some (λ _, None) (λ _, None) (λ _, None) id "" drop_roles None r with
  | Ret r' => rr_headers r' = [("x-keep", "k"); ("x-set", "yes")] ∧ rr_body r' = "no"
  | Panic => False
  end.
Proof. vm_compute. done. Qed.

(** ** Connections with a header *)

(** A parser that knows one header: [PROXY], up to the end of the line. *)
Definition line_end (b : list Z) : nat := match list_find (λ x : Z, x = 10%Z) b with Some (i, _) => S i | None => 0 end.
Definition client_addr : SocketAddr := mkSocketAddr (V4 1) 1000.
Definition service_addr : SocketAddr := mkSocketAddr (V4 2) 80.
Definition line_parse (b : list Z) : HeaderResult :=
  if starts_with PROXY_V1_PREFIX b && v1_header_complete b then HV1 (Ok (mkV1Header (V1Tcp4 client_addr service_addr) (line_end b))) else HV1 (Err true).

Lemma line_end_le b : (line_end b ≤ List.length b)%nat.
Proof. unfold line_end. destruct (list_find _ b) as [[i x]|] eqn:E; [|lia]. apply list_find_Some in E as (E & _). apply lookup_lt_Some in E. lia. Qed.

Definition no_conn : ConnInfo := mkConnInfo (mkSocketAddr (V4 9) 9) (mkSocketAddr (V4 8) 8) None None.
Definition header_line : list Z := [0x50; 0x52; 0x4F; 0x58; 0x59; 13; 10]%Z.

Lemma proxy_header_exact_witness : ∃ c s,
  terminate_proxy_protocol line_parse (λ _, None) (ProxyAll, ProxyStrict) no_conn [Data (take 3 header_line); Data (drop 3 header_line ++ [1; 2]%Z); Data [3]%Z]
  = Some (Ret (Ok (c, s))) ∧ ci_peer_addr c = client_addr ∧ rw_content s = Some <$> [1; 2; 3]%Z.
Proof.
  destruct (proxy_header_exact line_parse (λ _, None) ProxyAll ProxyStrict no_conn
    [Data (take 3 header_line); Data (drop 3 header_line ++ [1; 2]%Z); Data [3]%Z]) as (s0 & d & r & _ & Hr & buf & e & _ & _ & _ & _ & H).
  - intros b h. unfold line_parse. destruct (_ && _); intros [= <-]. apply line_end_le.
  - intros b h. unfold line_parse. by destruct (_ && _).
  - by repeat constructor.
  - pose proof Hr as Hr'. vm_compute in Hr'. injection Hr' as <-. eexists _, _. split; [exact Hr|]. destruct (H _ _ eq_refl) as [_|[? _]]; [|done]. done.
Defined.

(** A header of 540 bytes, more than the limit of 528, is accepted when it comes
    in one piece, and refused when it comes in two. *)
Definition long_parse (b : list Z) : HeaderResult :=
  if (List.length b <? 540)%nat then HV2 (Err true) else HV2 (Ok (mkV2Header true V2Unspecified [] 540)).
Definition long_header : list Z := PROXY_V2_SIGNATURE ++ replicate 528 0%Z.

Example long_header_depends_on_pieces :
  (match terminate_proxy_protocol long_parse (λ _, None) (ProxyAll, ProxyStrict) no_conn [Data long_header] with Some (Ret (Ok _)) => true | _ => false end) = true ∧
  terminate_proxy_protocol long_parse (λ _, None) (ProxyAll, ProxyStrict) no_conn [Data (take 530 long_header); Data (drop 530 long_header)]
  = Some (Ret (Err HeaderTooLong)).
Proof. split; vm_compute; reflexivity. Qed.
