(* ===== verification/WitnessesOidc.v ===== *)
(** * Witnesses: login

    A browser that logs in: its first request, its return from the provider and
    a request with its session. Texts are their own encodings, and JSON is a
    number in binary. *)
From stdpp Require Import base countable gmap strings list.
From Stdlib Require Import ZArith Ascii.
From S2P Require Import Prelude RustStd Authorization AgentTypes DiscoveryTypes LoadBalancer MergeStream Mcp McpSession RouteSelect HttpRequest Rewrite Htpasswd Auth Pipeline SessionCookies Oidc OidcFacts Witnesses WitnessesControl WitnessesHttp WitnessesAuth.

#[local] Existing Instances lit_regex unit_payloads canonical_order plain_uris form_http binary_forms semicolon_cookies dotted_tokens.

Local Open Scope string_scope.
Local Open Scope list_scope.

#[local] Instance plain_ciphers : CipherCrates :=
  {| CipherKey := (); cipher_key := λ _, Some (); seal := λ _ _ p, Some p; open := λ _ _ c, Some c; open_seal := λ _ _ p c H, ltac:(congruence);
     hex_decode := Some; b64_encode := id; b64_decode := Some; b64_decode_encode := λ s, eq_refl;
     b64url_encode := id; b64url_decode := Some; b64url_decode_encode := λ s, eq_refl |}.

Definition texts_to (l : list string * option Z) : string := bits_of (encode l).
Definition texts_from (s : string) : option (list string * option Z) := countable.decode (of_bits s).
Lemma texts_round l : texts_from (texts_to l) = Some l.
Proof. unfold texts_from, texts_to. by rewrite of_bits_of, decode_encode. Qed.

Definition plain_encoder : Encoder := @EncAes plain_ciphers ().

(** States of two servers. *)
Definition two_states (s : SessionState) : option string :=
  match s with
  | SSMcp (mkMCPSessionState [mkMCPSession (Some a) (Some b) None; mkMCPSession (Some c) (Some d) None] None) => Some (texts_to ([a; b; c; d], None))
  | _ => None
  end.
Definition states_two (j : string) : option SessionState :=
  match texts_from j with
  | Some ([a; b; c; d], None) => Some (SSMcp (mkMCPSessionState [mkMCPSession (Some a) (Some b) None; mkMCPSession (Some c) (Some d) None] None))
  | _ => None
  end.
Lemma two_states_round s j : two_states s = Some j → states_two j = Some s.
Proof.
  unfold two_states. intros H. repeat (case_match; try discriminate).
  injection H as <-. unfold states_two. by rewrite texts_round.
Qed.

Lemma no_child_processes k u : (k, u) ∈ im_iter (by_name with_ids) → us_kind u ≠ McpStdio.
Proof.
  assert (im_iter (by_name with_ids) = [("alpha", mkUpstream McpStreamable "alpha" (Some "sa") None);
    ("beta", mkUpstream McpStreamable "beta" (Some "sb") None)]) as -> by (vm_compute; reflexivity).
  intros [[= -> ->]|[[= -> ->]|[]%elem_of_nil]%elem_of_cons]%elem_of_cons; discriminate.
Qed.

Lemma two_states_encode ss : get_sessions with_ids = Some ss → ∃ id, mcp_encode two_states plain_encoder "twelve-bytes" "uuid" ss = Ok id.
Proof.
  assert (get_sessions with_ids = Some ids) as -> by (vm_compute; reflexivity). intros [= <-]. eexists. reflexivity.
Qed.

(** A session over two servers, resumed by a manager that has never seen it. *)
Lemma sessions_resume_witness :
  ∃ id st' s, initialized_id (mcp_encode two_states plain_encoder "twelve-bytes" "uuid") with_ids "x" = id ∧
    get_or_resume_session (mcp_decode states_two plain_encoder) id resume_inputs 7 (mkManager ∅ ∅ 0) = Ret (st', Ok (Some s)).
Proof.
  destruct (sessions_resume two_states states_two two_states_round plain_encoder "twelve-bytes" "uuid" with_ids two_servers resume_inputs 7
    (mkManager ∅ ∅ 0) "x") as (st' & s & g' & H & _).
  - reflexivity.
  - exact no_child_processes.
  - exact two_states_encode.
  - exact same_two_servers.
  - reflexivity.
  - intros h _. reflexivity.
  - reflexivity.
  - eexists _, st', s. split; [reflexivity|exact H].
Defined.

Definition state_json (s : CallbackTransactionState) : string := texts_to ([cts_transaction_id s; cts_csrf_state s], None).
Definition json_state (j : string) : option CallbackTransactionState :=
  match texts_from j with Some ([a; b], _) => Some (mkCallbackState a b) | _ => None end.
Lemma state_json_round s : json_state (state_json s) = Some s.
Proof. unfold json_state, state_json. rewrite texts_round. by destruct s. Qed.

Definition login_json (t : TransactionState) : string :=
  texts_to ([tx_policy_id t; tx_transaction_id t; tx_csrf_state t; tx_nonce t; tx_pkce_verifier t; tx_original_uri t], Some (tx_expires_at_unix t)).
Definition json_login (j : string) : option TransactionState :=
  match texts_from j with Some ([a; b; c; d; e; f], Some z) => Some (mkTransaction a b c d e f z) | _ => None end.
Lemma login_json_round t : json_login (login_json t) = Some t.
Proof. unfold json_login, login_json. rewrite texts_round. by destruct t. Qed.

Definition session_json_text (s : BrowserSession) : string := texts_to ([bs_policy_id s; bs_raw_id_token s], bs_expires_at_unix s).
Definition json_session (j : string) : option BrowserSession :=
  match texts_from j with Some ([a; b], z) => Some (mkBrowserSession a b z) | _ => None end.
Lemma session_json_round s : json_session (session_json_text s) = Some s.
Proof. unfold json_session, session_json_text. rewrite texts_round. by destruct s. Qed.

(** A URL is its text; the only claim is the nonce, after a letter. *)
#[local] Instance plain_oidc : OidcCrates :=
  {| Url := string; url_parse := Some; url_scheme := λ _, "https"; url_username := λ _, ""; url_password := λ _, None; url_fragment := λ _, None;
     url_query := λ _, None; url_host_str := λ _, Some "app"; url_port_or_known_default := λ _, Some 443%Z;
     url_append_pairs := λ ps u, u +:+ "?" +:+ form_of ps; url_to_string := id;
     http_uri_parse := λ s, Some (mkUri None None None "/callback" (Some "/callback") None);
     percent_decode := id; byte_serialize := id; set_cookie_string := λ c, print_cookie (sc_name c, sc_value c); sha256 := id;
     callback_state_to_json := state_json; callback_state_from_json := json_state; transaction_to_json := login_json; transaction_from_json := json_login;
     session_to_json := session_json_text; session_from_json := json_session; token_response_from_json := λ s, Some (Some s);
     claim_str := λ c k, if decide (k = "nonce") then Str.strip_prefix "n" c else None; claim_u64 := λ _ _, None;
     callback_state_json := state_json_round; transaction_json := login_json_round; session_json := session_json_round |}.

Definition login_config : LocalOidcConfig :=
  mkLocalOidc "https://issuer" None (Some "https://issuer/auth") (Some "https://issuer/token") None (Some (FromInline "keys")) "client" "secret"
    "https://app/callback" ["email"; "openid"].

Definition the_encoder : Encoder := EncAes (CC := plain_ciphers) ().

Definition login_policy : OidcPolicy :=
  match oidc_compile (λ _, None) (λ _, Some [the_key]) login_config (policy_id_route "app") the_encoder with
  | Ok p => p
  | Err _ => mkOidcPolicy "" (mkOidcProvider "" "" "" strict_jwt) (mkClientConfig "" "" ClientSecretPost) (mkRedirectUri "" "" 0 true ("", None))
               (mkSessionConfig "" "" SameSiteLax SecureAuto 0 0 EncBase64) []
  end.

Definition login_env (now : Z) : OidcEnv :=
  mkOidcEnv "tx" "csrf" "nonce" "verifier" "twelve-bytes" now (now + 1) (λ _, Some (200%Z, Some "k1.nnonce")).

Definition first_request : AReq (UserMetadata := ()) := request_with [("x-a", "1")] "/page".
Definition the_login : TransactionState := login_transaction (login_env 1000) login_policy (Some "/page").
Definition the_sealed : string := match encode_transaction (oi_session login_policy) "twelve-bytes" the_login with Ok s => s | Err _ => "" end.
Definition with_cookie (c : SetCookie) (path query : string) : AReq (UserMetadata := ()) :=
  mkAReq (mkHead (mkRequest "GET" (mkUri (Some "http") (Some "app") (Some "app") path (Some path) (Some query)) [("cookie", print_cookie (sc_name c, sc_value c))] None)
            HTTP_2 None None false false) None None None None.
Definition callback_request : AReq (UserMetadata := ()) :=
  with_cookie (login_cookie login_policy the_login the_sealed) "/callback"
    (form_of [("state", callback_encode (mkCallbackState "tx" "csrf")); ("code", "code")]).
Definition the_claims : JwtClaims := mkJwtClaims "nnonce" "k1.nnonce".
Definition the_session : string :=
  match encode_browser_session (oi_session login_policy) "twelve-bytes" (begun_session (login_env 1100) login_policy "k1.nnonce" the_claims) with Ok s => s | Err _ => "" end.
Definition session_request : AReq (UserMetadata := ()) := with_cookie (session_cookie login_policy the_session) "/page" "".

Example login_scopes : oi_scopes login_policy = ["openid"; "email"] ∧ oi_policy_id login_policy = "route/app".
Proof. split; vm_compute; reflexivity. Qed.

Lemma login_compiles : oidc_compile (λ _, None) (λ _, Some [the_key]) login_config (policy_id_route "app") the_encoder = Ok login_policy.
Proof.
  unfold login_policy. destruct (oidc_compile _ _ _ _ _) as [p|] eqn:E; [reflexivity|].
  apply (f_equal (λ r, match r with Ok _ => true | Err _ => false end)) in E. vm_compute in E. discriminate E.
Qed.

Lemma login_request_ordinary (r : AReq (UserMetadata := ())) :
  uri_path (hd_uri (aq_head r)) = "/page" → req_method (hd_req (aq_head r)) = "GET" → ordinary login_policy r.
Proof.
  intros Hp Hm. split; [|intros [H _]; congruence]. intros st co er (_ & H & _). rewrite Hp in H. vm_compute in H. discriminate H.
Qed.

Lemma login_completes_witness :
  oidc_apply () (login_env 1200) login_policy session_request = (set_jwt the_claims session_request, Ok policy_response_default).
Proof.
  destruct (login_completes () login_policy (login_env 1000) first_request the_sealed) as (_ & H).
  - apply login_request_ordinary; reflexivity.
  - vm_compute; reflexivity.
  - reflexivity.
  - vm_compute; reflexivity.
  - by eexists.
  - by eexists.
  - destruct (H (login_env 1100) callback_request "code" "k1.nnonce" the_claims the_session) as [_ H3].
    + split_and!; try (vm_compute; reflexivity). left. by eexists.
    + vm_compute; reflexivity.
    + vm_compute; reflexivity.
    + eexists _, _. split; [vm_compute; reflexivity|]. split; [reflexivity|]. split; [apply Nat.leb_le; vm_compute; reflexivity|reflexivity].
    + vm_compute; reflexivity.
    + vm_compute; reflexivity.
    + reflexivity.
    + split; [vm_compute; reflexivity|apply Nat.leb_le; vm_compute; reflexivity].
    + split_and!; by eexists.
    + apply H3; [apply login_request_ordinary; reflexivity|vm_compute; reflexivity|vm_compute; reflexivity|intros e He; discriminate He].
Defined.

(** A request without a session is sent to the provider; one with a session goes
    on with its claims. *)
Lemma oidc_admits_witness :
  (∃ claims, has_session 1200 login_policy session_request claims ∧ token_for "https://issuer" "client" (cl_jwt claims) claims ∧
    oidc_apply () (login_env 1200) login_policy session_request = (set_jwt claims session_request, Ok policy_response_default)) ∧
  ∃ res sealed, oidc_apply () (login_env 1000) login_policy first_request = (first_request, Ok res) ∧
    redirects () (login_location login_policy the_login) [login_cookie login_policy the_login sealed] res.
Proof.
  assert (ordinary login_policy session_request ∧ ordinary login_policy first_request) as [[Hn Hp] [Hn' Hp']]
    by (split; apply login_request_ordinary; reflexivity).
  split.
  - assert (has_session 1200 login_policy session_request the_claims) as Hs.
    { apply session_of_request. vm_compute. reflexivity. }
    pose proof (oidc_admits () (λ _, None) (λ _, Some [the_key]) login_config (policy_id_route "app") the_encoder login_policy
      (login_env 1200) session_request login_compiles) as H.
    destruct (oidc_apply () (login_env 1200) login_policy session_request) as [r' out] eqn:E.
    destruct H as (_ & _ & H & _). destruct (H the_claims Hn Hp Hs) as (Ht & -> & ->). exists the_claims. split; [exact Hs|]. split; [exact Ht|reflexivity].
  - pose proof (oidc_admits () (λ _, None) (λ _, Some [the_key]) login_config (policy_id_route "app") the_encoder login_policy
      (login_env 1000) first_request login_compiles) as H.
    destruct (oidc_apply () (login_env 1000) login_policy first_request) as [r' out] eqn:E.
    destruct H as (_ & _ & _ & H). destruct H as [-> H]; [exact Hn'|exact Hp'| |].
    { intros claims Hs. apply session_of_request in Hs. vm_compute in Hs. discriminate Hs. }
    destruct out as [res|e].
    + destruct H as (sealed & _ & Hr). exists res, sealed. split; [reflexivity|exact Hr].
    + exfalso. apply (f_equal (λ x, match x.2 with Ok _ => true | Err _ => false end)) in E. vm_compute in E. discriminate E.
Defined.

(** Behind the gateway's policies, which take the cookie off, the same request is
    sent to the provider again. *)
Example stripped_session_logs_in_again :
  match strip_request_cookies_by_prefix RESERVED_COOKIE_PREFIX (aq_headers session_request) with
  | Ret h =>
      match (oidc_apply () (login_env 1200) login_policy (with_headers h session_request)).2 with
      | Ok res => rs_status <$> pr_direct_response res = Some 302%Z
      | Err _ => False
      end
  | Panic => False
  end.
Proof. vm_compute. reflexivity. Qed.
